(* ===== verification/_CoqProject ===== *)
-Q . S2P
Prelude.v
Text.v
Addresses.v
RangeMap.v
MemOrdering.v
Layout.v
Bitvec.v
Value.v
Memory.v
Symbols.v
Mutex.v
Allocator.v
Timers.v
FreeList.v
Recursor.v
Frames.v
Tests.v
Classes.v
ClassText.v
Operation.v
Data.v
Dependencies.v
Local.v
Pipeline.v
Order.v
Process.v
Barriers.v
Flow.v
Sequential.v
Native.v
Expr.v
Typing.v
FuncCompiler.v
Interp.v
Tracing.v
Executor.v
Schedule.v
Modules.v
Pthread.v
Protocol.v
Pool.v
Builtins.v
Main.v
Natives.v
Programs.v
