(* ===== verification/Prelude.v ===== *)
(** * atomic-sim: a verification development

    atomic-sim runs multi-threaded LLVM programs under a relaxed memory model.
    Each simulated thread decodes its instructions ahead of running them: an
    instruction becomes a thunk in the thread's data-flow queue, which runs the
    thunks whose effects no other thread can see as soon as their arguments are
    known and offers the atomic operations that may go next. One of the offers
    of all threads is then picked at random and performed on a shared memory
    that remembers, for every byte, the stores it has held. All sources named
    below are under src/src/.

    ** Files

    - Prelude: panics and the error monad [res] with its notations [let!] and
      [assert!], machine integers, lists indexed by [Z], hints. No program code.
    - Text: the pieces of Rust's formatting that the debug output uses. The text
      of the types is with the types ([debug] of Layout, MemOrdering and Value,
      [thunk_debug] of Data, ClassText).
    - Addresses (util/by_address.rs): pointers compared by address, over the boxes
      of [Rc] and [Weak].
    - RangeMap (util/rangemap.rs): the interval map, a [BTreeMap] from interval
      ends. The class [RangeStore] is what its clients rely on: erase, insert
      and range described point by point by [get].
    - MemOrdering (ordering.rs), Layout (layout.rs).
    - Bitvec: the class [Bitvec] of the two operations the source uses of the
      bitvec crate, the laws [BitvecLaws], and [bitvec_ref], which has them.
    - Value (value.rs): values as bytes and a width in bits.
    - Memory (memory.rs): stores as logs over a [RangeMap], loads, the bump
      allocator; [byte_at] is the flat view and [history] the recorded past.
    - Symbols (symbols.rs, definition.rs and the registering part of
      process.rs).
    - Mutex (util/mutex.rs and the tables of scheduler.rs).
    - Allocator (util/allocator.rs): the arena allocator of the simulator
      itself, over the class [System] of what it asks of the system allocator.
    - Timers (util/timer.rs): the profile of the simulator itself.
    - FreeList (util/freelist.rs): the pool thunks live in, its slots and the
      handles to it.
    - Recursor (util/recursor.rs, util/lazy.rs): the trampoline of recursive
      calls as a stack, and lazy cells; Frames: the trampoline as it is written,
      with boxes, raw pointers and waiters.
    - Tests: the unit tests in util/rangemap.rs, util/mutex.rs, util/freelist.rs
      and util/recursor.rs.
    - Classes (compile/class.rs): types to classes, layouts and offsets;
      ClassText: what is printed of a class.
    - Operation (compile/operation.rs): what instructions compute. It sees
      classes through [ClassView], which [view] implements on a class table.
    - Data (data.rs, backtrace.rs): thunks, the queue and [step_pure], with the
      lines that are printed when a thunk is decoded and run.
    - Dependencies (data.rs): the order of thunks, [all_deps], and the debug
      output made of it.
    - Local: computations that touch only the bytes of their access.
    - Pipeline, Order: theorems about the queue, no program code of their own.
    - Process (process.rs, scheduler.rs, thread.rs, the loop of main.rs).
    - Barriers: theorems about the offers of all threads. No program code.
    - Flow (flow.rs): decoding tasks as trees of the thunks they decode and
      await, and the memory helpers of native functions.
    - Sequential: rules for running two tasks side by side, one on handles and
      one on values. No program code.
    - Native (native/llvm.rs, native/libc.rs): the intrinsics and the functions
      of the C library on memory, and the argument types of native/mod.rs.
    - Expr (compile/expr.rs): constant expressions. [TypeMapView] is what the
      compiler asks of the class table; [type_view] implements it.
    - Typing: the class [TypeLaws] of what a class table promises, which
      [type_view] on a table with its types forced has ([type_view_typed]), and
      the types of operations and constants. No program code.
    - FuncCompiler (compile/function.rs): LLVM functions to the internal form.
    - Interp (interp.rs, function.rs): decoding the internal form into thunks,
      and direct execution on values, its specification.
    - Tracing: theorems about the debug output. No program code.
    - Executor (util/future.rs, the tasks of thread.rs and process.rs): polling
      tasks, wakers, the future of a thread. [local_pool] is the law of the pool.
    - Schedule: tasks in the process loop against tasks run in program order.
      No program code.
    - Modules (compile/module.rs): loading a program.
    - Pthread (native/pthread.rs): the functions of POSIX threads, over the class
      [Host] of what they use of the process, which [rest_host] implements.
    - Protocol, Pool: any number of threads calling them in any interleaving. No
      program code.
    - Builtins (native/mod.rs, rust.rs, apple.rs, unwind.rs, internal.rs and the
      lists of all native files): native functions as functions of the program.
    - Natives: every builtin as a computation on values, its specification.
    - Main (main.rs, process.rs): a new process, and [main] from the parsed
      modules on.
    - Programs: programs with the builtins in the process loop against direct
      execution. No program code.

    ** What the theorems show

    - Pipeline, Process: if the accesses of a thread are to equal or disjoint
      ranges, running its thunks out of order gives exactly the values, memory
      and process of running them in program order
      ([pipeline_refines_program_order]); a pass never panics, and progresses or
      offers something that can run ([pipeline_no_stall]); a process with one
      decoded thread therefore runs to its end whatever the generator picks, if
      the operands of atomic operations do not wait for memory
      ([process_runs_program]).
      Further departures from program order are [aliased_acquire_bypassed] and
      [release_waits_for_other_threads].
    - Order: the same discipline without the assumption that the thread runs
      alone: in any state of any process, if the accesses of the thread are to
      equal or disjoint ranges, what a pass runs or offers touches no byte of an
      earlier pending access, nothing passes an acquire that is offered, and a
      release is offered first and alone before it ([pass_keeps_order]). The
      condition is needed: in every pass over accesses that overlap in part a
      later one overtakes ([skipped_access_overtaken]).
    - Barriers: for any number of threads that decode and wait as they like, a
      release is offered only when all its thread decoded before it has been
      performed, and nothing decoded after an acquire is offered with it
      ([offers_respect_barriers]). Operations are offered whether or not their
      operands are known, and picking one that is not ready kills the process
      ([unready_operation_offered]).
    - Dependencies: [all_deps] ends with the thunks a thunk depends on.
    - Tracing, ClassText: the constant [TRACING] has every thunk printed with its
      operands and its result, and [Debug for Value] asserts that a width is 0,
      1 or whole bytes, so that printing is part of what the simulator does: a
      thunk that performs an operation whose class has another width kills it,
      and a thunk of any other class is run ([operation_survives_printing]); what tracing a thread adds cannot panic
      ([tracing_is_harmless]); and printing a class ends although classes refer
      to themselves ([class_debug_ends]).
    - RangeMap, Memory: the interval map refines a point map under any
      operations; the memory refines a flat byte memory under any stores, its
      logs are the history of every byte, a load reads what was stored, and
      allocated blocks are aligned, disjoint and guarded. The randomized test of
      the interval map passes whatever is drawn ([random_test_passes]).
    - Addresses: equal addresses are the same allocation, for as long as a strong
      or a weak handle exists ([equal_addresses_same_allocation]).
    - Flow, Native: the memory helpers (memcpy, strings, realloc, memcmp,
      compare-and-swap) against the flat memory, and the intrinsics against
      exact integer arithmetic.
    - Expr, Typing: a constant compiled and then evaluated gives the meaning of
      the constant, one without thread-locals is folded, and operations and
      constants give values of their classes.
    - FuncCompiler, Interp: a compiled function is the LLVM function with its
      locals and labels renamed one to one, instruction by instruction and
      operand by operand ([compile_func_renames]), and decoding it computes what
      executing it on values computes. Compiled constants belong to thread 0,
      and are of no use without it ([constant_operands_need_main]).
    - Executor, Schedule, Programs: the same in the process loop, where a task
      decodes ahead, waits for the values it branches on and is woken by them:
      it ends, with the thunks, the memory and the result of its run in program
      order ([thread_runs_to_end]); starting a thread at a function therefore has
      the effects of executing the function, whose calls of builtins are the
      computations of Natives ([builtins_on_values], [program_runs]). A task that fills
      its pipeline is never polled again, and its process can only end in a
      panic ([full_pipeline_never_woken]).
    - Modules, Main: loading, unless it panics, as it does on a symbol that is
      defined twice, registers every function, resolves every alias and
      initialises every variable; [main] then steps a process with one thread,
      which calls the function [main] ([main_starts]).
    - Mutex, Protocol, Pool: mutual exclusion of the scheduler's mutexes, order of
      hand-over, no lost waiter, and exactly when notifying breaks exclusion
      ([notify_unlocked_breaks_exclusion]); and, under the pthread discipline
      ([may]), of the pthread functions over them, whose words in memory stay in
      step with the scheduler ([mutex_words_agree], [queued_behind_an_owner]).
    - Pthread, Builtins: joining, and when it kills the process; all builtins
      register and resolve; memcpy called by its name copies, memmove panics.
    - Classes, Operation, Value: the lazily computed layouts equal plain
      recursion over types, struct fields are disjoint, operations compute
      their LLVM meaning at the widths they support and panic at the others
      ([scalar_binop_correct] also says what they do where LLVM leaves them
      undefined), vectors act lane by lane, aggregates
      and integers survive their round trips; arrays and shuffles that do not.
    - Symbols, Process: tables invert each other, ids are fresh, registering
      and starting threads never trip the assertions, thread-locals are
      initialised once.
    - FreeList, Recursor, Frames: a slot is reused only after its last handle is
      dropped, and no slot is ever freed ([pool_is_never_freed]); the trampoline
      computes what plain recursion computes, without a use after free or a leak
      if every frame that is spawned is awaited ([frames_compute]).
    - Allocator: blocks given out to any threads are aligned and disjoint, as
      long as the system allocator does not fail ([null_block_is_used]).

    ** Conventions

    Integers are [Z] with their width written at each operation: overflow
    panics, as in the dev profile (the release profile wraps), except where the
    source uses wrapping methods or casts. A panic is a value of [res]; there
    are no exceptions. Shared mutable state ([Rc], [RefCell]) is passed
    explicitly: a handle is the number of its slot, class or thread.
    Computations captured by closures are functions of the arguments and the
    [World], the memory and the rest of the process; [X] is that rest.

    Third-party code is a parameter: bitvec ([Bitvec]), the pool of tasks of
    futures ([run_until_stalled], with the law [local_pool] where tasks are
    modelled), its one-shot channels ([Join]), rand ([choose]), the system
    allocator ([System]; the boxes of [FreeList] are numbers it gives). llvm-ir's
    types are the constructors the source matches on. [HashMap] is [gmap],
    [BTreeMap] and [IndexSet] are lists in their order.

    Fuel: [erase_loop] needs the number of intervals (a theorem gives enough),
    [force] the nesting of types, [step_decode] one more than the unfinished
    thunks and [run] one more than all, [strlen] one more than the string; the
    theorems give these bounds and conclude that the result is reached. The
    fuel of the interpreter bounds the blocks and the depth of calls of a
    program that may well run for ever; [decode_is_direct] uses the same fuel on
    both sides and gives the result of one from the result of the other.

    ** Limits

    The programs of [Pipeline] are thunks local to their access ([Local]): pure
    computations, loads, stores, compare-and-swap and read-modify-write
    operations. Allocations, whose addresses depend on the order they run in,
    run in the model and are not covered by the refinement. Decoding is
    interleaved with passes and picks in every possible way in [Pipeline]
    ([pipe_decode] appends the next thunk to the queue); the slots of the thunks
    are in the heap from the start, which no step of the queue can see (Schedule
    shows that decoding them later makes no difference). The refinement is
    about one thread alone, since several have no single program order; about
    tasks that decode at most [PIPELINE_SIZE] thunks in all, so that the pipeline
    cannot fill up; and about tasks that touch the process through thunks alone:
    not the first use of a thread-local variable, and not the waits of POSIX
    threads.

    [exec] runs each thunk as it is decoded, so the theorems about single
    functions (Flow, Native, Pthread, Builtins) and the segments of [Pool] are
    about that order; [Pool] interleaves the threads at the points where a
    function waits for the scheduler, and asks that the condition variables are
    signalled while the mutexes of their waiters are locked, without which
    exclusion fails ([notify_unlocked_breaks_exclusion]). The parts of a call
    between two such points run atomically, although the functions also wait
    for the thunks they decode.

    The native functions are parameters of the interpreter ([natives_ok] says
    that each does what a function on values does), and the builtins are put in
    their place in Natives. The task that [main] starts compiles each function
    when it is first called ([LazyFunc]); the theorems about running programs
    take the compiled functions, whose relation to the LLVM functions is
    [compile_func_renames].

    Printing is modelled for what it can do to the simulation, which is to
    panic: the text of thunks, values, layouts, orderings and classes is
    computed, the columns it is set in and the lists it is put in are not. Not
    modelled, for good: what is printed by a step that is already panicking; the
    debug output of the other types, which nothing prints; the blockers of
    threads, which only the output of a traced race shows; the unused AggrLayout;
    and the directory and the threads [main] reads and parses its modules with.
    What is [todo!()] in the source panics in the model. *)

From Stdlib Require Import ZArith Lia Bool.
From stdpp Require Export base list option numbers sorting sets gmap strings.

#[export] Set Default Goal Selector "!".
#[global] Open Scope Z_scope.

(** ** Panics

    Every Rust operation that can stop the program returns [res]: [Ok] with
    its result, or [Panic] with the reason the program aborts. *)

Inductive panic :=
  | Overflow        (* checked arithmetic of the dev profile *)
  | AssertFailed    (* assert!, assert_eq! *)
  | OutOfRange      (* slice, Vec or bit-slice index out of range *)
  | UnwrapFailed    (* unwrap on None or Err, HashMap misses turned into panics *)
  | DivByZero
  | Todo            (* todo!() *)
  | UnreachableCode (* unreachable!() *)
  | Explicit.       (* panic!(..) written in the source *)

Inductive res (A : Type) :=
  | Ok (a : A)
  | Panic (p : panic).
Arguments Ok {A} a.
Arguments Panic {A} p.

#[export] Instance panic_eq_dec : EqDecision panic.
Proof. solve_decision. Defined.

#[export] Instance res_eq_dec {A} `{EqDecision A} : EqDecision (res A).
Proof. solve_decision. Defined.

Definition bind {A B} (m : res A) (f : A -> res B) : res B :=
  match m with Ok a => f a | Panic p => Panic p end.

Definition guard_ (b : bool) (p : panic) : res unit :=
  if b then Ok tt else Panic p.

Definition unwrap {A} (o : option A) : res A :=
  match o with Some a => Ok a | None => Panic UnwrapFailed end.

Definition is_ok {A} (m : res A) : bool :=
  match m with Ok _ => true | Panic _ => false end.

Declare Scope res_scope.
Delimit Scope res_scope with res.
#[global] Open Scope res_scope.

Notation "'let!' p := m 'in' k" := (bind m (fun p => k))
  (at level 10, p pattern, m at level 100, k at level 200) : res_scope.
Notation "'assert!' b 'or' p 'in' k" := (bind (guard_ b p) (fun _ => k))
  (at level 10, b at level 100, p at level 9, k at level 200) : res_scope.

(** [mapM] runs a fallible function down a list, stopping at the first panic. *)
Fixpoint mapM {A B} (f : A -> res B) (l : list A) : res (list B) :=
  match l with
  | [] => Ok []
  | a :: l' => let! b := f a in let! bs := mapM f l' in Ok (b :: bs)
  end.

(** [smapM]: the same with a state passed from one call to the next. *)
Fixpoint smapM {A B S} (f : A -> S -> res (B * S)) (l : list A) (s : S) : res (list B * S) :=
  match l with
  | [] => Ok ([], s)
  | a :: l' => let! (b, s) := f a s in let! (bs, s) := smapM f l' s in Ok (b :: bs, s)
  end.

Fixpoint foldM {A S} (f : S -> A -> res S) (s : S) (l : list A) : res S :=
  match l with
  | [] => Ok s
  | a :: l' => let! s' := f s a in foldM f s' l'
  end.

Section ResLemmas.
Context {A B : Type}.

Lemma Ok_inj (a b : A) : Ok a = Ok b -> a = b.
Proof. by intros [= ->]. Qed.

Lemma bind_Ok (m : res A) (f : A -> res B) b :
  bind m f = Ok b <-> exists a, m = Ok a /\ f a = Ok b.
Proof. destruct m; simpl; naive_solver. Qed.

Lemma guard_Ok b p u : guard_ b p = Ok u <-> b = true.
Proof. destruct b, u; simpl; naive_solver. Qed.

Lemma unwrap_Ok (o : option A) a : unwrap o = Ok a <-> o = Some a.
Proof. destruct o; simpl; naive_solver. Qed.

Lemma mapM_Ok_Forall2 (f : A -> res B) l bs :
  mapM f l = Ok bs <-> Forall2 (fun a b => f a = Ok b) l bs.
Proof.
  revert bs. induction l as [|a l IH]; intros bs; simpl.
  - split; [intros [= <-]; constructor | inversion 1; done].
  - split.
    + destruct (f a) as [b|] eqn:Hb; simpl; [|done].
      destruct (mapM f l) as [bs'|] eqn:Hbs; simpl; [|done].
      intros [= <-]. constructor; [done | by apply IH].
    + inversion 1 as [|? b ? bs' Hb Hbs]; subst.
      apply IH in Hbs. by rewrite Hb, Hbs.
Qed.

Lemma mapM_length (f : A -> res B) l bs : mapM f l = Ok bs -> length bs = length l.
Proof. intros H%mapM_Ok_Forall2. by apply Forall2_length in H. Qed.
End ResLemmas.

Lemma foldM_app {A S} (f : S -> A -> res S) s l1 l2 :
  foldM f s (l1 ++ l2) = (let! s' := foldM f s l1 in foldM f s' l2).
Proof. revert s. induction l1 as [|a l1 IH]; intros s; simpl; [done|]. destruct (f s a); simpl; auto. Qed.

(** An invariant of the body is an invariant of the fold. *)
Lemma foldM_ind {A S} (f : S -> A -> res S) (P : S -> Prop) l s s' :
  P s ->
  (forall s a s', a ∈ l -> P s -> f s a = Ok s' -> P s') ->
  foldM f s l = Ok s' -> P s'.
Proof.
  revert s. induction l as [|a l IH]; intros s Hs Hstep; simpl.
  - intros [= <-]. done.
  - intros (s1 & H1 & H2)%bind_Ok. eapply IH; [| |exact H2].
    + eapply Hstep; eauto. constructor.
    + intros. eapply Hstep; eauto. by constructor.
Qed.

(** ** Computations on a state that can panic *)

Definition St (S A : Type) : Type := S -> res (A * S).
Definition sret {S A} (a : A) : St S A := fun s => Ok (a, s).
Definition sbind {S A B} (m : St S A) (f : A -> St S B) : St S B :=
  fun s => match m s with Ok (a, s) => f a s | Panic p => Panic p end.
Definition slift {S A} (m : res A) : St S A :=
  fun s => match m with Ok a => Ok (a, s) | Panic p => Panic p end.
Definition sget {S} : St S S := fun s => Ok (s, s).
Definition sput {S} (s : S) : St S unit := fun _ => Ok (tt, s).

Notation "'let$' p := m 'in' k" := (sbind m (fun p => k))
  (at level 10, p pattern, m at level 100, k at level 200) : res_scope.
Notation "'let$$' p := m 'in' k" := (sbind (slift m) (fun p => k))
  (at level 10, p pattern, m at level 100, k at level 200) : res_scope.

Lemma sbind_Ok {S A B} (m : St S A) (f : A -> St S B) s b s2 :
  sbind m f s = Ok (b, s2) <-> exists a s1, m s = Ok (a, s1) /\ f a s1 = Ok (b, s2).
Proof. unfold sbind. destruct (m s) as [[a s1]|]; naive_solver. Qed.

Lemma slift_Ok {S A} (m : res A) (s : S) a s1 : slift m s = Ok (a, s1) <-> m = Ok a /\ s1 = s.
Proof. unfold slift. destruct m; naive_solver. Qed.

Lemma sret_Ok {S A} (a : A) (s : S) b s1 : sret a s = Ok (b, s1) <-> a = b /\ s1 = s.
Proof. unfold sret. naive_solver. Qed.

(** [res_inv] turns every hypothesis that a fallible computation returned into
    the facts about its steps. *)
Ltac res_step :=
  match goal with
  | H : bind _ _ = Ok _ |- _ => apply bind_Ok in H; destruct H as (? & ? & H)
  | H : guard_ _ _ = Ok _ |- _ => apply guard_Ok in H
  | H : unwrap _ = Ok _ |- _ => apply unwrap_Ok in H
  | H : Ok _ = Ok _ |- _ => injection H as H; subst
  | H : Panic _ = Ok _ |- _ => discriminate H
  | x : unit |- _ => destruct x
  end.
Ltac res_inv := repeat (res_step; simpl in * ).

(** [zify_bool] turns boolean comparisons in the hypotheses into arithmetic. *)
Ltac zb :=
  repeat match goal with
  | H : (_ && _)%bool = true |- _ => apply andb_true_iff in H; destruct H
  | H : (_ || _)%bool = false |- _ => apply orb_false_iff in H; destruct H
  | H : negb _ = true |- _ => apply negb_true_iff in H
  | H : negb _ = false |- _ => apply negb_false_iff in H
  | H : (_ <=? _) = true |- _ => apply Z.leb_le in H
  | H : (_ <=? _) = false |- _ => apply Z.leb_gt in H
  | H : (_ <? _) = true |- _ => apply Z.ltb_lt in H
  | H : (_ <? _) = false |- _ => apply Z.ltb_ge in H
  | H : (_ =? _) = true |- _ => apply Z.eqb_eq in H
  | H : (_ =? _) = false |- _ => apply Z.eqb_neq in H
  end.

(** Case analysis on the comparison a definition branches on. *)
Ltac zcase :=
  match goal with
  | |- context [?a <? ?b] => destruct (Z.ltb_spec a b)
  | |- context [?a <=? ?b] => destruct (Z.leb_spec a b)
  | |- context [?a =? ?b] => destruct (Z.eqb_spec a b)
  end.

(** ** Machine integers

    A [w]-bit unsigned integer is a [Z] in [[0, 2^w)], a signed one a [Z] in
    [[-2^(w-1), 2^(w-1))]. The simulator is run with `cargo run`, whose dev
    profile checks `+`, `-` and `*`, so the plain operators panic on overflow;
    the `wrapping_*` methods are written with [wrap]. *)

Definition wrap (w z : Z) : Z := z mod 2 ^ w.
Definition to_signed (w z : Z) : Z :=
  let m := wrap w z in if m <? 2 ^ (w - 1) then m else m - 2 ^ w.

Definition in_u (w z : Z) : bool := (0 <=? z) && (z <? 2 ^ w).
Definition in_s (w z : Z) : bool := (- 2 ^ (w - 1) <=? z) && (z <? 2 ^ (w - 1)).

Definition chk_u (w z : Z) : res Z := if in_u w z then Ok z else Panic Overflow.
Definition chk_s (w z : Z) : res Z := if in_s w z then Ok z else Panic Overflow.

Definition add64 (x y : Z) : res Z := chk_u 64 (x + y).
Definition sub64 (x y : Z) : res Z := chk_u 64 (x - y).
Definition mul64 (x y : Z) : res Z := chk_u 64 (x * y).

Definition U64_MAX : Z := 2 ^ 64 - 1.

Lemma chk_u_Ok w z r : chk_u w z = Ok r <-> r = z /\ 0 <= z < 2 ^ w.
Proof.
  unfold chk_u, in_u. destruct ((0 <=? z) && (z <? 2 ^ w)) eqn:E; zb.
  - naive_solver.
  - split; [done|]. intros [-> ?]. exfalso.
    apply andb_false_iff in E. destruct E; zb; lia.
Qed.

Lemma chk_s_Ok w z r : chk_s w z = Ok r <-> r = z /\ - 2 ^ (w - 1) <= z < 2 ^ (w - 1).
Proof.
  unfold chk_s, in_s. destruct ((- 2 ^ (w - 1) <=? z) && (z <? 2 ^ (w - 1))) eqn:E; zb.
  - naive_solver.
  - split; [done|]. intros [-> ?]. exfalso.
    apply andb_false_iff in E. destruct E; zb; lia.
Qed.

Lemma chk_u_ok w z : 0 <= z < 2 ^ w -> chk_u w z = Ok z.
Proof. intros. by apply chk_u_Ok. Qed.

Lemma add64_ok x y : 0 <= x + y < 2 ^ 64 -> add64 x y = Ok (x + y).
Proof. apply chk_u_ok. Qed.
Lemma sub64_ok x y : 0 <= x - y < 2 ^ 64 -> sub64 x y = Ok (x - y).
Proof. apply chk_u_ok. Qed.
Lemma mul64_ok x y : 0 <= x * y < 2 ^ 64 -> mul64 x y = Ok (x * y).
Proof. apply chk_u_ok. Qed.

Ltac chk_inv :=
  repeat match goal with
  | H : add64 _ _ = Ok _ |- _ => apply chk_u_Ok in H; destruct H as [-> H]
  | H : sub64 _ _ = Ok _ |- _ => apply chk_u_Ok in H; destruct H as [-> H]
  | H : mul64 _ _ = Ok _ |- _ => apply chk_u_Ok in H; destruct H as [-> H]
  | H : chk_u _ _ = Ok _ |- _ => apply chk_u_Ok in H; destruct H as [-> H]
  | H : chk_s _ _ = Ok _ |- _ => apply chk_s_Ok in H; destruct H as [-> H]
  end.

Lemma wrap_bounds w z : 0 <= w -> 0 <= wrap w z < 2 ^ w.
Proof. intros. apply Z.mod_pos_bound. lia. Qed.

Lemma wrap_small w z : 0 <= z < 2 ^ w -> wrap w z = z.
Proof. apply Z.mod_small. Qed.

Lemma to_signed_bounds w z : 1 <= w -> - 2 ^ (w - 1) <= to_signed w z < 2 ^ (w - 1).
Proof.
  intros Hw. unfold to_signed. pose proof (wrap_bounds w z ltac:(lia)).
  assert (2 ^ w = 2 * 2 ^ (w - 1)) as E.
  { rewrite <- Z.pow_succ_r by lia. f_equal. lia. }
  zcase; lia.
Qed.

Lemma to_signed_wrap w z : 0 <= w -> wrap w (to_signed w z) = wrap w z.
Proof.
  intros Hw. unfold to_signed. pose proof (wrap_bounds w z Hw).
  zcase; [by apply wrap_small|]. unfold wrap.
  rewrite <- (Z.mod_add _ 1) by lia.
  replace (z mod 2 ^ w - 2 ^ w + 1 * 2 ^ w) with (z mod 2 ^ w) by lia.
  by rewrite Z.mod_mod by lia.
Qed.

Lemma to_signed_small w z : 1 <= w -> - 2 ^ (w - 1) <= z < 2 ^ (w - 1) -> to_signed w z = z.
Proof.
  intros Hw Hz. unfold to_signed.
  assert (2 ^ w = 2 * 2 ^ (w - 1)) as E.
  { rewrite <- Z.pow_succ_r by lia. f_equal. lia. }
  assert (0 <= z \/ z < 0) as [?|?] by lia.
  - rewrite wrap_small by lia. zcase; lia.
  - assert (wrap w z = z + 2 ^ w) as ->.
    { unfold wrap. rewrite <- (Z.mod_add _ 1) by lia. rewrite Z.mod_small; lia. }
    zcase; lia.
Qed.

(** ** Lists indexed by machine integers *)

Definition zlen {A} (l : list A) : Z := Z.of_nat (length l).
Definition zget {A} (l : list A) (i : Z) : option A :=
  if 0 <=? i then l !! Z.to_nat i else None.

(** [&l[lo..hi]] *)
Definition slice {A} (l : list A) (lo hi : Z) : res (list A) :=
  if (0 <=? lo) && (lo <=? hi) && (hi <=? zlen l)
  then Ok (take (Z.to_nat (hi - lo)) (drop (Z.to_nat lo) l))
  else Panic OutOfRange.

(** [l[lo..hi].copy_from_slice(src)] *)
Definition copy_slice {A} (l : list A) (lo hi : Z) (src : list A) : res (list A) :=
  if (0 <=? lo) && (lo <=? hi) && (hi <=? zlen l) && (zlen src =? hi - lo)
  then Ok (take (Z.to_nat lo) l ++ src ++ drop (Z.to_nat hi) l)
  else Panic OutOfRange.

(** [&l[i]] *)
Definition index {A} (l : list A) (i : Z) : res A :=
  match zget l i with Some a => Ok a | None => Panic OutOfRange end.

Section ZList.
Context {A : Type}.
Implicit Types (l : list A) (i : Z).

Lemma zlen_nonneg l : 0 <= zlen l.
Proof. unfold zlen. lia. Qed.

Lemma zlen_app l1 l2 : zlen (l1 ++ l2) = zlen l1 + zlen l2.
Proof. unfold zlen. rewrite length_app. lia. Qed.

Lemma zlen_take l n : 0 <= n <= zlen l -> zlen (take (Z.to_nat n) l) = n.
Proof. unfold zlen. rewrite length_take. lia. Qed.

Lemma zlen_drop l n : 0 <= n <= zlen l -> zlen (drop (Z.to_nat n) l) = zlen l - n.
Proof. unfold zlen. rewrite length_drop. lia. Qed.

Lemma zlen_replicate n (a : A) : 0 <= n -> zlen (replicate (Z.to_nat n) a) = n.
Proof. unfold zlen. rewrite length_replicate. lia. Qed.

Lemma zget_Some_bounds l i a : zget l i = Some a -> 0 <= i < zlen l.
Proof.
  unfold zget, zlen. destruct (Z.leb_spec 0 i); [|done].
  intros H1%lookup_lt_Some. lia.
Qed.

Lemma zget_in_bounds l i : 0 <= i < zlen l -> exists a, zget l i = Some a.
Proof.
  unfold zget, zlen. intros. destruct (Z.leb_spec 0 i); [|lia].
  destruct (lookup_lt_is_Some_2 l (Z.to_nat i)) as [a Ha]; [lia|eauto].
Qed.

Lemma zget_app_l l1 l2 i : i < zlen l1 -> zget (l1 ++ l2) i = zget l1 i.
Proof.
  unfold zget, zlen. intros. zcase; [|done]. apply lookup_app_l. lia.
Qed.

Lemma zget_app_r l1 l2 i : zlen l1 <= i -> zget (l1 ++ l2) i = zget l2 (i - zlen l1).
Proof.
  unfold zget, zlen. intros. repeat zcase; [|lia|lia|lia].
  rewrite lookup_app_r by lia. f_equal. lia.
Qed.

Lemma zget_take l n i : i < n -> zget (take (Z.to_nat n) l) i = zget l i.
Proof. unfold zget. intros. zcase; [|done]. apply lookup_take_lt. lia. Qed.

Lemma zget_drop l n i : 0 <= n -> 0 <= i -> zget (drop (Z.to_nat n) l) i = zget l (n + i).
Proof.
  unfold zget. intros. repeat zcase; [|lia|lia|lia].
  rewrite lookup_drop. f_equal. lia.
Qed.

Lemma zget_replicate n (a : A) i : 0 <= i < n -> zget (replicate (Z.to_nat n) a) i = Some a.
Proof. unfold zget. intros. zcase; [|lia]. apply lookup_replicate_2. lia. Qed.

Lemma zget_ext l1 l2 :
  zlen l1 = zlen l2 -> (forall i, 0 <= i < zlen l1 -> zget l1 i = zget l2 i) -> l1 = l2.
Proof.
  intros Hlen H. apply list_eq. intros i. unfold zlen in *.
  destruct (decide (i < length l1)%nat) as [Hi|Hi].
  - specialize (H (Z.of_nat i) ltac:(lia)). unfold zget in H.
    destruct (Z.leb_spec 0 (Z.of_nat i)); [|lia]. by rewrite Nat2Z.id in H.
  - rewrite !lookup_ge_None_2 by lia. done.
Qed.

Lemma index_Ok l i a : index l i = Ok a <-> zget l i = Some a.
Proof. unfold index. destruct (zget l i); naive_solver. Qed.

Lemma slice_Ok l lo hi r :
  slice l lo hi = Ok r <->
  0 <= lo <= hi /\ hi <= zlen l /\ r = take (Z.to_nat (hi - lo)) (drop (Z.to_nat lo) l).
Proof.
  unfold slice. destruct ((0 <=? lo) && (lo <=? hi) && (hi <=? zlen l)) eqn:E.
  - zb. naive_solver.
  - split; [done|]. intros (? & ? & _). exfalso.
    apply not_true_iff_false in E. apply E.
    rewrite !andb_true_iff, !Z.leb_le. lia.
Qed.

Lemma slice_ok l lo hi :
  0 <= lo <= hi -> hi <= zlen l ->
  exists r, slice l lo hi = Ok r /\ zlen r = hi - lo /\
    (forall i, 0 <= i < hi - lo -> zget r i = zget l (lo + i)).
Proof.
  intros. eexists. split; [by apply slice_Ok|]. split.
  - apply zlen_take. rewrite zlen_drop; lia.
  - intros. rewrite zget_take by lia. apply zget_drop; lia.
Qed.

Lemma copy_slice_Ok l lo hi src r :
  copy_slice l lo hi src = Ok r <->
  0 <= lo <= hi /\ hi <= zlen l /\ zlen src = hi - lo /\
  r = take (Z.to_nat lo) l ++ src ++ drop (Z.to_nat hi) l.
Proof.
  unfold copy_slice.
  destruct ((0 <=? lo) && (lo <=? hi) && (hi <=? zlen l) && (zlen src =? hi - lo)) eqn:E.
  - zb. naive_solver.
  - split; [done|]. intros (? & ? & ? & _). exfalso.
    apply not_true_iff_false in E. apply E.
    rewrite !andb_true_iff, !Z.leb_le, Z.eqb_eq. lia.
Qed.

Lemma copy_slice_ok l lo hi src :
  0 <= lo <= hi -> hi <= zlen l -> zlen src = hi - lo ->
  exists r, copy_slice l lo hi src = Ok r /\ zlen r = zlen l /\
    (forall i, zget r i = if (lo <=? i) && (i <? hi) then zget src (i - lo) else zget l i).
Proof.
  intros. eexists. split; [by apply copy_slice_Ok|].
  assert (zlen (take (Z.to_nat lo) l) = lo) as Hlo by (apply zlen_take; lia).
  split.
  - rewrite !zlen_app, zlen_take, zlen_drop by lia. lia.
  - intros i. destruct (Z.leb_spec lo i); simpl.
    + rewrite zget_app_r by lia. rewrite Hlo. destruct (Z.ltb_spec i hi); simpl.
      * rewrite zget_app_l by lia. done.
      * rewrite zget_app_r by lia. rewrite zget_drop by lia. f_equal. lia.
    + rewrite zget_app_l by lia. apply zget_take. lia.
Qed.
End ZList.

(** ** Strongly sorted lists *)

Lemma StronglySorted_app_elem {A} (R : A -> A -> Prop) l1 l2 x y :
  StronglySorted R (l1 ++ l2) -> x ∈ l1 -> y ∈ l2 -> R x y.
Proof.
  rewrite StronglySorted_app. intros (H & _) Hx Hy. auto.
Qed.

Lemma prefix_sublist {A} (l k : list A) : l `prefix_of` k -> sublist l k.
Proof. intros [m ->]. by apply sublist_inserts_r. Qed.

(** ** Counting the elements of a list that satisfy a predicate *)

Section FilterLength.
Context {A : Type} (P Q : A -> Prop) `{!forall x, Decision (P x), !forall x, Decision (Q x)}.
Hypothesis HPQ : forall x, P x -> Q x.

Lemma filter_length_mono l : (length (filter P l) <= length (filter Q l))%nat.
Proof.
  induction l as [|x l IH]; [done|]. rewrite !filter_cons.
  destruct (decide (P x)), (decide (Q x)); simpl; try lia. naive_solver.
Qed.

Lemma filter_length_lt l x :
  x ∈ l -> Q x -> ~ P x -> (length (filter P l) < length (filter Q l))%nat.
Proof.
  induction l as [|y l IH]; [by intros ?%elem_of_nil|].
  intros [->|Hx]%elem_of_cons HQ HP; rewrite !filter_cons.
  - rewrite decide_False, decide_True by done. simpl. pose proof (filter_length_mono l). lia.
  - specialize (IH Hx HQ HP). destruct (decide (P y)), (decide (Q y)); simpl; try lia. naive_solver.
Qed.
End FilterLength.

(** ** Hints shared by the components *)

Create HintDb sim.
#[export] Hint Resolve zlen_nonneg wrap_bounds to_signed_bounds : sim.
Create Rewrite HintDb sim_rw.
#[export] Hint Rewrite @zlen_app : sim_rw.
