(* ===== verification/Text.v ===== *)
(** * Text: what the debug output of the simulator is made of

    The simulator prints every thunk it decodes and every value it computes
    (data.rs, [TRACING]). What is printed goes to the console and is not kept,
    but writing a value can panic, and that stops the simulation: so the
    formatting of the source is modelled, with the pieces of Rust's [fmt] it
    uses. *)

From stdpp Require Import pretty.
From S2P Require Import Prelude.

Abbreviation text := String.string.

(** ["{}"] of a number *)
Definition dec (n : Z) : text := pretty n.

#[export] Instance dec_inj : Inj (=) (=) dec := _.

(** ** Hexadecimal *)

(** An upper-case hexadecimal digit. *)
Definition hex_digit (d : Z) : Ascii.ascii :=
  Ascii.ascii_of_nat (Z.to_nat (if d <? 10 then 48 + d else 55 + d)).

(** ["{:02X}"] *)
Definition hex_byte (x : Z) (rest : text) : text :=
  String.String (hex_digit (x / 16)) (String.String (hex_digit (x mod 16)) rest).

Definition hex (l : list Z) : text := foldr hex_byte String.EmptyString l.

(** The digits read back. *)
Definition unhex_digit (c : Ascii.ascii) : option Z :=
  let n := Z.of_nat (Ascii.nat_of_ascii c) in
  if (48 <=? n) && (n <? 58) then Some (n - 48)
  else if (65 <=? n) && (n <? 71) then Some (n - 55)
  else None.

Fixpoint unhex (s : text) : option (list Z) :=
  match s with
  | String.EmptyString => Some []
  | String.String a (String.String b s) =>
      match unhex_digit a, unhex_digit b, unhex s with
      | Some x, Some y, Some l => Some (16 * x + y :: l)
      | _, _, _ => None
      end
  | _ => None
  end.

Lemma unhex_hex_digit d : 0 <= d < 16 -> unhex_digit (hex_digit d) = Some d.
Proof.
  intros Hd. assert (d ∈ seqZ 0 16) as Hin by (apply elem_of_seqZ; lia).
  revert d Hd Hin. assert (Forall (fun d => unhex_digit (hex_digit d) = Some d) (seqZ 0 16)) as HF by (repeat constructor).
  intros d _ Hin. by eapply Forall_forall in HF.
Qed.

(** Bytes written in hexadecimal are read back. *)
Lemma unhex_hex l : Forall (fun b => 0 <= b < 256) l -> unhex (hex l) = Some l.
Proof.
  induction 1 as [|x l Hx _ IH]; [done|]. cbn [hex foldr hex_byte unhex]. fold (hex l).
  pose proof (Z.div_mod x 16) as Hdm. pose proof (Z.mod_pos_bound x 16).
  rewrite !unhex_hex_digit, IH by (lia || (split; [apply Z.div_pos; lia|apply Z.div_lt_upper_bound; lia])).
  by rewrite <- Hdm.
Qed.

(** ** Columns *)

(** ["{:n}"] of a string: padded on the right. *)
Definition pad (n : nat) (s : text) : text :=
  s +:+ String.string_of_list_ascii (replicate (n - String.length s) Ascii.Space).

(** What [print!] leaves of a formatted text: nothing, unless formatting
    panics. *)
Definition print (line : res text) : res unit := let! _ := line in Ok tt.

Lemma print_Ok line u : print line = Ok u <-> exists s, line = Ok s.
Proof. unfold print. destruct line, u; naive_solver. Qed.
