(* ===== verification/Addresses.v ===== *)
(** * Addresses: src/src/util/by_address.rs

    Shared pointers compared by address, as [Class], [ClassWeak] and the logs of
    the memory are. [Heap] is the boxes of [Rc] and [Weak], with the reference
    counts of the standard library; the address a new box gets is an argument,
    any address without a box. The theorem says what comparing addresses means:
    a handle, strong or weak, keeps its box's address from being used again, so
    that equal addresses are the same allocation. *)

From S2P Require Import Prelude.

(** ** [trait Address] and [ByAddress] *)

Class Address (P : Type) := as_ptr : P -> Z.

(** [Rc<T>] and [Weak<T>]: where their box is. [birth] is ghost: the number of
    the allocation the pointer was made from. *)
Record Rc := MkRc { rc_box : Z; rc_birth : nat }.
Record Weak := MkWeak { weak_box : Z; weak_birth : nat }.

#[export] Instance Rc_address : Address Rc := rc_box.
#[export] Instance Weak_address : Address Weak := weak_box.
(** A reference is its address. *)
#[export] Instance Ref_address : Address Z := fun p => p.

Record ByAddress (P : Type) := MkByAddress { pointer : P }.
Arguments MkByAddress {P} pointer.
Arguments pointer {P} _.

Section ByAddress.
Context {P : Type} `{Address P}.

(** [PartialEq] *)
Definition eq (this other : ByAddress P) : bool := as_ptr (pointer this) =? as_ptr (pointer other).

(** [Ord] and [PartialOrd] *)
Definition cmp (this other : ByAddress P) : comparison := as_ptr (pointer this) ?= as_ptr (pointer other).
Definition partial_cmp (this other : ByAddress P) : option comparison :=
  Some (as_ptr (pointer this) ?= as_ptr (pointer other)).

(** [Hash]: what the hasher is fed. *)
Definition hash (this : ByAddress P) : list Z := [as_ptr (pointer this)].

(** The laws [Eq], [Ord] and [Hash] ask for. *)
Lemma eq_cmp x y : eq x y = true <-> cmp x y = Eq.
Proof. unfold eq, cmp. by rewrite Z.eqb_eq, Z.compare_eq_iff. Qed.
Lemma eq_hash x y : eq x y = true <-> hash x = hash y.
Proof. unfold eq, hash. rewrite Z.eqb_eq. split; [by intros ->|by intros [= ->]]. Qed.
Lemma cmp_antisym x y : cmp y x = CompOpp (cmp x y).
Proof. apply Z.compare_antisym. Qed.
Lemma cmp_trans x y z : cmp x y = Lt -> cmp y z = Lt -> cmp x z = Lt.
Proof. unfold cmp. rewrite !Z.compare_lt_iff. lia. Qed.
End ByAddress.

(** ** The boxes *)

(** [RcBox]: the strong handles together count as one weak one. *)
Record RcBox := MkBox { strong : Z; weak : Z; birth : nat }.

(** The boxes by address, and the number of allocations made. *)
Record Heap := MkHeap { boxes : gmap Z RcBox; births : nat }.

Definition heap_new : Heap := MkHeap ∅ 0.

(** [Rc::new] *)
Definition rc_new (box : Z) (h : Heap) : ByAddress Rc * Heap :=
  (MkByAddress (MkRc box (births h)), MkHeap (<[box := MkBox 1 1 (births h)]> (boxes h)) (S (births h))).

(** [Clone for Rc] and for [Weak]; a count that overflows aborts the process. *)
Definition clone_rc (x : ByAddress Rc) (h : Heap) : res (ByAddress Rc * Heap) :=
  let! b := unwrap (boxes h !! as_ptr (pointer x)) in
  let! n := add64 (strong b) 1 in
  Ok (x, MkHeap (<[as_ptr (pointer x) := MkBox n (weak b) (birth b)]> (boxes h)) (births h)).

Definition clone_weak (x : ByAddress Weak) (h : Heap) : res (ByAddress Weak * Heap) :=
  let! b := unwrap (boxes h !! as_ptr (pointer x)) in
  let! n := add64 (weak b) 1 in
  Ok (x, MkHeap (<[as_ptr (pointer x) := MkBox (strong b) n (birth b)]> (boxes h)) (births h)).

(** One weak handle less. *)
Definition release (p : Z) (b : RcBox) (h : Heap) : Heap :=
  if weak b - 1 =? 0 then MkHeap (delete p (boxes h)) (births h)
  else MkHeap (<[p := MkBox (strong b) (weak b - 1) (birth b)]> (boxes h)) (births h).

(** [Drop for Weak] and for [Rc]: the last strong handle drops the value and the
    weak handle of the strong ones. *)
Definition drop_weak (x : ByAddress Weak) (h : Heap) : res Heap :=
  let! b := unwrap (boxes h !! as_ptr (pointer x)) in Ok (release (as_ptr (pointer x)) b h).

Definition drop_rc (x : ByAddress Rc) (h : Heap) : res Heap :=
  let! b := unwrap (boxes h !! as_ptr (pointer x)) in
  let b := MkBox (strong b - 1) (weak b) (birth b) in
  if strong b =? 0 then Ok (release (as_ptr (pointer x)) b h)
  else Ok (MkHeap (<[as_ptr (pointer x) := b]> (boxes h)) (births h)).

(** [ByAddress<Weak<T>>::upgrade] *)
Definition upgrade (x : ByAddress Weak) (h : Heap) : res (option (ByAddress Rc) * Heap) :=
  let! b := unwrap (boxes h !! as_ptr (pointer x)) in
  if strong b =? 0 then Ok (None, h)
  else
    let! n := add64 (strong b) 1 in
    Ok (Some (MkByAddress (MkRc (weak_box (pointer x)) (weak_birth (pointer x)))),
        MkHeap (<[as_ptr (pointer x) := MkBox n (weak b) (birth b)]> (boxes h)) (births h)).

(** [ByAddress<Rc<T>>::downgrade] *)
Definition downgrade (x : ByAddress Rc) (h : Heap) : res (ByAddress Weak * Heap) :=
  let! b := unwrap (boxes h !! as_ptr (pointer x)) in
  let! n := add64 (weak b) 1 in
  Ok (MkByAddress (MkWeak (rc_box (pointer x)) (rc_birth (pointer x))),
      MkHeap (<[as_ptr (pointer x) := MkBox (strong b) n (birth b)]> (boxes h)) (births h)).

(** ** Clients *)

(** The handles a client has, strong and weak. *)
Record Client := MkClient { rcs : list (ByAddress Rc); weaks : list (ByAddress Weak) }.

(** The calls, which take the client's handles by position. *)
Inductive call :=
  | New (box : Z) | CloneRc (i : nat) | CloneWeak (i : nat) | DropRc (i : nat) | DropWeak (i : nat)
  | Upgrade (i : nat) | Downgrade (i : nat).

Definition step (x : call) (s : Client * Heap) : res (Client * Heap) :=
  let '(MkClient rs ws, h) := s in
  match x with
  | New box => let '(r, h) := rc_new box h in Ok (MkClient (r :: rs) ws, h)
  | CloneRc i => let! r := unwrap (rs !! i) in let! (r, h) := clone_rc r h in Ok (MkClient (r :: rs) ws, h)
  | CloneWeak i => let! w := unwrap (ws !! i) in let! (w, h) := clone_weak w h in Ok (MkClient rs (w :: ws), h)
  | DropRc i => let! r := unwrap (rs !! i) in let! h := drop_rc r h in Ok (MkClient (delete i rs) ws, h)
  | DropWeak i => let! w := unwrap (ws !! i) in let! h := drop_weak w h in Ok (MkClient rs (delete i ws), h)
  | Upgrade i =>
      let! w := unwrap (ws !! i) in let! (r, h) := upgrade w h in
      Ok (MkClient (match r with Some r => r :: rs | None => rs end) ws, h)
  | Downgrade i => let! r := unwrap (rs !! i) in let! (w, h) := downgrade r h in Ok (MkClient rs (w :: ws), h)
  end.

(** The calls a client can make: a new box is where there is none, a handle is
    one the client has, and no count is at its limit. *)
Definition call_ok (x : call) (s : Client * Heap) : Prop :=
  (forall p b, boxes s.2 !! p = Some b -> strong b + 1 < 2 ^ 64 /\ weak b + 1 < 2 ^ 64) /\
  match x with
  | New box => boxes s.2 !! box = None
  | CloneRc i | DropRc i | Downgrade i => is_Some (rcs s.1 !! i)
  | CloneWeak i | DropWeak i | Upgrade i => is_Some (weaks s.1 !! i)
  end.

Inductive run : Client * Heap -> list call -> Client * Heap -> Prop :=
  | run_nil s : run s [] s
  | run_cons s x s1 xs s2 : call_ok x s -> step x s = Ok s1 -> run s1 xs s2 -> run s (x :: xs) s2.

(** ** The invariant *)

(** The handles to the box at [p]. *)
Definition handles_at {P} `{Address P} (p : Z) (l : list (ByAddress P)) : nat :=
  length (List.filter (fun x => as_ptr (pointer x) =? p) l).

(** What the counts of a box say of the handles to it. *)
Definition counted (n m : nat) (o : option RcBox) : Prop :=
  match o with
  | Some b => strong b = Z.of_nat n /\ weak b = Z.of_nat m + (if (n =? 0)%nat then 0 else 1) /\ 0 < weak b
  | None => n = O /\ m = O
  end.

Record heap_ok (s : Client * Heap) : Prop := {
  ok_counted : forall p, counted (handles_at p (rcs s.1)) (handles_at p (weaks s.1)) (boxes s.2 !! p);
  ok_rcs : forall r, r ∈ rcs s.1 -> birth <$> boxes s.2 !! rc_box (pointer r) = Some (rc_birth (pointer r));
  ok_weaks : forall w, w ∈ weaks s.1 -> birth <$> boxes s.2 !! weak_box (pointer w) = Some (weak_birth (pointer w));
  ok_births : forall p b, boxes s.2 !! p = Some b -> (birth b < births s.2)%nat;
  ok_unique : forall p q b c, boxes s.2 !! p = Some b -> boxes s.2 !! q = Some c -> birth b = birth c -> p = q
}.

Lemma heap_ok_new : heap_ok (MkClient [] [], heap_new).
Proof. split; simpl; try done; intros *; rewrite ?lookup_empty; done || set_solver. Qed.

Section Handles.
Context {P : Type} `{Address P}.
Implicit Types l : list (ByAddress P).

Lemma at_cons p x l :
  handles_at p (x :: l) = ((if (as_ptr (pointer x) =? p)%Z then 1 else 0) + handles_at p l)%nat.
Proof. unfold handles_at. simpl. by destruct (_ =? p). Qed.

Lemma at_delete p i x l :
  l !! i = Some x ->
  handles_at p l = ((if (as_ptr (pointer x) =? p)%Z then 1 else 0) + handles_at p (delete i l))%nat.
Proof.
  revert i. induction l as [|y l IH]; intros [|i]; simpl; try done.
  - intros [= ->]. apply at_cons.
  - intros Hi. rewrite !at_cons, (IH i Hi). lia.
Qed.

Lemma at_pos p x l : x ∈ l -> as_ptr (pointer x) = p -> (0 < handles_at p l)%nat.
Proof.
  induction 1 as [y l|y z l _ IH]; intros Hp; rewrite at_cons; [rewrite Hp, Z.eqb_refl; lia|].
  specialize (IH Hp). lia.
Qed.

Lemma elem_of_delete i x l : x ∈ delete i l -> x ∈ l.
Proof. apply (sublist_subseteq (delete i l) l), sublist_delete. Qed.
End Handles.

(** A call changes one box and the handles to it. *)
Lemma heap_ok_update rs ws h p b o' rs' ws' :
  heap_ok (MkClient rs ws, h) -> boxes h !! p = Some b ->
  match o' with Some b' => birth b' = birth b | None => True end ->
  counted (handles_at p rs') (handles_at p ws') o' ->
  (forall q, q <> p -> handles_at q rs' = handles_at q rs /\ handles_at q ws' = handles_at q ws) ->
  (forall r, r ∈ rs' -> r ∈ rs \/ rc_box (pointer r) = p /\ rc_birth (pointer r) = birth b) ->
  (forall w, w ∈ ws' -> w ∈ ws \/ weak_box (pointer w) = p /\ weak_birth (pointer w) = birth b) ->
  heap_ok (MkClient rs' ws', MkHeap (partial_alter (fun _ => o') p (boxes h)) (births h)).
Proof.
  intros [Hc Hr Hw Hb Hu] Hp Ho Hc' Hq Hr' Hw'. simpl in *.
  assert (forall q c, partial_alter (fun _ => o') p (boxes h) !! q = Some c ->
            exists c', boxes h !! q = Some c' /\ birth c = birth c') as Hold.
  { intros q c. destruct (decide (q = p)) as [->|Hne].
    - rewrite lookup_partial_alter_eq. intros ->. by exists b.
    - rewrite lookup_partial_alter_ne by done. by exists c. }
  split; simpl.
  - intros q. destruct (decide (q = p)) as [->|Hne]; [by rewrite lookup_partial_alter_eq|].
    rewrite lookup_partial_alter_ne by done. destruct (Hq q Hne) as [-> ->]. apply Hc.
  - intros r Hin. destruct (decide (rc_box (pointer r) = p)) as [He|Hne].
    + assert (0 < handles_at p rs')%nat as Hpos by (by eapply at_pos). rewrite He, lookup_partial_alter_eq.
      destruct o' as [b'|]; simpl in *; [|lia]. rewrite Ho.
      destruct (Hr' r Hin) as [Hin'|[_ ->]]; [|done]. specialize (Hr r Hin'). rewrite He, Hp in Hr. done.
    + rewrite lookup_partial_alter_ne by done. destruct (Hr' r Hin) as [Hin'|[? _]]; [by apply Hr|done].
  - intros w Hin. destruct (decide (weak_box (pointer w) = p)) as [He|Hne].
    + assert (0 < handles_at p ws')%nat as Hpos by (by eapply at_pos). rewrite He, lookup_partial_alter_eq.
      destruct o' as [b'|]; simpl in *; [|lia]. rewrite Ho.
      destruct (Hw' w Hin) as [Hin'|[_ ->]]; [|done]. specialize (Hw w Hin'). rewrite He, Hp in Hw. done.
    + rewrite lookup_partial_alter_ne by done. destruct (Hw' w Hin) as [Hin'|[? _]]; [by apply Hw|done].
  - intros q c (c' & Hc1 & ->)%Hold. by eapply Hb.
  - intros q1 q2 c1 c2 (d1 & H1 & ->)%Hold (d2 & H2 & ->)%Hold. by apply Hu.
Qed.

Lemma rc_box_some rs ws h r :
  heap_ok (MkClient rs ws, h) -> r ∈ rs ->
  exists b, boxes h !! rc_box (pointer r) = Some b /\ birth b = rc_birth (pointer r).
Proof. intros Hok Hin. pose proof (ok_rcs _ Hok r Hin) as H. simpl in H. by apply fmap_Some in H as (b & ? & ->); exists b. Qed.

Lemma weak_box_some rs ws h w :
  heap_ok (MkClient rs ws, h) -> w ∈ ws ->
  exists b, boxes h !! weak_box (pointer w) = Some b /\ birth b = weak_birth (pointer w).
Proof. intros Hok Hin. pose proof (ok_weaks _ Hok w Hin) as H. simpl in H. by apply fmap_Some in H as (b & ? & ->); exists b. Qed.

Lemma new_ok rs ws h box :
  heap_ok (MkClient rs ws, h) -> boxes h !! box = None ->
  heap_ok (MkClient ((rc_new box h).1 :: rs) ws, (rc_new box h).2).
Proof.
  intros Hok Hbox. pose proof Hok as [Hc Hr Hw Hb Hu]. simpl in *. split; simpl.
  - intros p. rewrite at_cons. specialize (Hc p). simpl. destruct (decide (p = box)) as [->|Hne].
    + rewrite lookup_insert_eq. rewrite Hbox in Hc. destruct Hc as [-> ->]. unfold as_ptr, Rc_address. simpl.
      rewrite Z.eqb_refl. simpl. lia.
    + rewrite lookup_insert_ne by done. unfold as_ptr, Rc_address. simpl.
      destruct (Z.eqb_spec box p); [done|]. exact Hc.
  - intros r [->|Hin]%elem_of_cons; simpl; [by rewrite lookup_insert_eq|].
    destruct (rc_box_some _ _ _ _ Hok Hin) as (b & Hp & <-).
    rewrite lookup_insert_ne by congruence. by rewrite Hp.
  - intros w Hin. destruct (weak_box_some _ _ _ _ Hok Hin) as (b & Hp & <-).
    rewrite lookup_insert_ne by congruence. by rewrite Hp.
  - intros p b [[_ <-]|[_ Hp]]%lookup_insert_Some; simpl; [lia|]. specialize (Hb p b Hp). lia.
  - intros p q b c [[<- <-]|[_ Hp]]%lookup_insert_Some [[<- <-]|[_ Hq]]%lookup_insert_Some; simpl; [done|..];
      intros Heq; [specialize (Hb q c Hq); lia|specialize (Hb p b Hp); lia|by eapply Hu].
Qed.

(** The box of a handle the client has, with its counts. *)
Lemma rc_counted rs ws h i r :
  heap_ok (MkClient rs ws, h) -> rs !! i = Some r ->
  exists b, boxes h !! as_ptr (pointer r) = Some b /\ birth b = rc_birth (pointer r) /\
    strong b = Z.of_nat (handles_at (as_ptr (pointer r)) rs) /\
    weak b = Z.of_nat (handles_at (as_ptr (pointer r)) ws) + 1 /\ 0 < strong b.
Proof.
  intros Hok Hi%list_elem_of_lookup_2. destruct (rc_box_some _ _ _ _ Hok Hi) as (b & Hp & Hb). exists b.
  pose proof (ok_counted _ Hok (as_ptr (pointer r))) as Hc. simpl in Hc.
  change (boxes h !! as_ptr (pointer r)) with (boxes h !! rc_box (pointer r)) in *. rewrite Hp in Hc. assert (0 < handles_at (as_ptr (pointer r)) rs)%nat as Hpos by (by eapply at_pos).
  destruct Hc as (-> & -> & _). destruct (Nat.eqb_spec (handles_at (as_ptr (pointer r)) rs) 0); [lia|].
  split_and!; done || lia.
Qed.

Lemma weak_counted rs ws h i w :
  heap_ok (MkClient rs ws, h) -> ws !! i = Some w ->
  exists b, boxes h !! as_ptr (pointer w) = Some b /\ birth b = weak_birth (pointer w) /\
    counted (handles_at (as_ptr (pointer w)) rs) (handles_at (as_ptr (pointer w)) ws) (Some b) /\
    (0 < handles_at (as_ptr (pointer w)) ws)%nat.
Proof.
  intros Hok Hi%list_elem_of_lookup_2. destruct (weak_box_some _ _ _ _ Hok Hi) as (b & Hp & Hb). exists b.
  pose proof (ok_counted _ Hok (as_ptr (pointer w))) as Hc. simpl in Hc.
  change (boxes h !! as_ptr (pointer w)) with (boxes h !! weak_box (pointer w)) in *. rewrite Hp in Hc.
  assert (0 < handles_at (as_ptr (pointer w)) ws)%nat as Hpos by (by eapply at_pos). done.
Qed.

(** One weak handle less, with the box's strong count already written. *)
Lemma release_ok rs ws h p b b0 rs' ws' :
  heap_ok (MkClient rs ws, h) -> boxes h !! p = Some b0 -> birth b = birth b0 ->
  weak b = Z.of_nat (handles_at p ws') + (if (handles_at p rs' =? 0)%nat then 0 else 1) + 1 ->
  strong b = Z.of_nat (handles_at p rs') ->
  (forall q, q <> p -> handles_at q rs' = handles_at q rs /\ handles_at q ws' = handles_at q ws) ->
  (forall r, r ∈ rs' -> r ∈ rs) -> (forall w, w ∈ ws' -> w ∈ ws) ->
  heap_ok (MkClient rs' ws', release p b h).
Proof.
  intros Hok Hp Hbirth Hweak Hstrong Hq Hr Hw. unfold release.
  destruct (Z.eqb_spec (weak b - 1) 0) as [Hz|Hz]; apply (heap_ok_update rs ws h p b0); try done; auto; simpl.
  - destruct (Nat.eqb_spec (handles_at p rs') 0); lia.
  - destruct (Nat.eqb_spec (handles_at p rs') 0); lia.
Qed.

Lemma drop_rc_ok rs ws h i r :
  heap_ok (MkClient rs ws, h) -> rs !! i = Some r ->
  exists h', drop_rc r h = Ok h' /\ heap_ok (MkClient (delete i rs) ws, h').
Proof.
  intros Hok Hi. destruct (rc_counted _ _ _ _ _ Hok Hi) as (b & Hp & Hb & Hs & Hw & Hpos).
  pose proof (fun q => at_delete q i r rs Hi) as Hd. unfold drop_rc. rewrite Hp. cbn [bind unwrap strong].
  pose proof (Hd (as_ptr (pointer r))) as Hd0. rewrite Z.eqb_refl in Hd0.
  assert (forall q, q <> as_ptr (pointer r) ->
            handles_at q (delete i rs) = handles_at q rs /\ handles_at q ws = handles_at q ws) as Hq.
  { intros q Hne. specialize (Hd q). destruct (Z.eqb_spec (as_ptr (pointer r)) q); [congruence|]. split; lia. }
  destruct (Z.eqb_spec (strong b - 1) 0) as [Hz|Hz]; (eexists; split; [done|]).
  - eapply (release_ok rs ws h _ _ b); try done; simpl; [|lia|intros x; apply elem_of_delete].
    destruct (Nat.eqb_spec (handles_at (as_ptr (pointer r)) (delete i rs)) 0); lia.
  - apply (heap_ok_update rs ws h _ b); try done; simpl.
    + destruct (Nat.eqb_spec (handles_at (as_ptr (pointer r)) (delete i rs)) 0); lia.
    + intros x Hx%elem_of_delete. by left.
    + by left.
Qed.

Lemma drop_weak_ok rs ws h i w :
  heap_ok (MkClient rs ws, h) -> ws !! i = Some w ->
  exists h', drop_weak w h = Ok h' /\ heap_ok (MkClient rs (delete i ws), h').
Proof.
  intros Hok Hi. destruct (weak_counted _ _ _ _ _ Hok Hi) as (b & Hp & Hb & (Hs & Hw & _) & Hpos).
  pose proof (fun q => at_delete q i w ws Hi) as Hd. unfold drop_weak. rewrite Hp. cbn [bind unwrap].
  pose proof (Hd (as_ptr (pointer w))) as Hd0. rewrite Z.eqb_refl in Hd0. eexists. split; [done|].
  eapply (release_ok rs ws h _ _ b); try done; [lia| |intros x; apply elem_of_delete].
  intros q Hne. specialize (Hd q). destruct (Z.eqb_spec (as_ptr (pointer w)) q); [congruence|]. split; lia.
Qed.

(** One handle more to the box of a handle the client has. *)
Lemma add_rc_ok rs ws h p b r :
  heap_ok (MkClient rs ws, h) -> boxes h !! p = Some b ->
  counted (handles_at p rs) (handles_at p ws) (Some b) -> (0 < handles_at p rs)%nat ->
  rc_box (pointer r) = p -> rc_birth (pointer r) = birth b ->
  heap_ok (MkClient (r :: rs) ws, MkHeap (<[p := MkBox (strong b + 1) (weak b) (birth b)]> (boxes h)) (births h)).
Proof.
  intros Hok Hp (Hs & Hw & Hpos) Hrs Hbox Hbirth.
  assert (forall q, handles_at q (r :: rs) = ((if (p =? q)%Z then 1 else 0) + handles_at q rs)%nat) as Hat.
  { intros q. rewrite at_cons. by rewrite <- Hbox. }
  apply (heap_ok_update rs ws h p b); try done; simpl.
  - rewrite Hat, Z.eqb_refl. destruct (Nat.eqb_spec (handles_at p rs) 0); simpl; lia.
  - intros q Hne. rewrite Hat. destruct (Z.eqb_spec p q); [congruence|]. done.
  - intros x [->|Hx]%elem_of_cons; [by right|by left].
  - by left.
Qed.

Lemma add_weak_ok rs ws h p b w :
  heap_ok (MkClient rs ws, h) -> boxes h !! p = Some b ->
  counted (handles_at p rs) (handles_at p ws) (Some b) ->
  weak_box (pointer w) = p -> weak_birth (pointer w) = birth b ->
  heap_ok (MkClient rs (w :: ws), MkHeap (<[p := MkBox (strong b) (weak b + 1) (birth b)]> (boxes h)) (births h)).
Proof.
  intros Hok Hp (Hs & Hw & Hpos) Hbox Hbirth.
  assert (forall q, handles_at q (w :: ws) = ((if (p =? q)%Z then 1 else 0) + handles_at q ws)%nat) as Hat.
  { intros q. rewrite at_cons. by rewrite <- Hbox. }
  apply (heap_ok_update rs ws h p b); try done; simpl.
  - rewrite Hat, Z.eqb_refl. destruct (Nat.eqb_spec (handles_at p rs) 0); simpl; lia.
  - intros q Hne. rewrite Hat. destruct (Z.eqb_spec p q); [congruence|]. done.
  - by left.
  - intros x [->|Hx]%elem_of_cons; [by right|by left].
Qed.

Lemma rc_counted' rs ws h i r :
  heap_ok (MkClient rs ws, h) -> rs !! i = Some r ->
  exists b, boxes h !! as_ptr (pointer r) = Some b /\ birth b = rc_birth (pointer r) /\
    counted (handles_at (as_ptr (pointer r)) rs) (handles_at (as_ptr (pointer r)) ws) (Some b) /\
    (0 < handles_at (as_ptr (pointer r)) rs)%nat.
Proof.
  intros Hok Hi. destruct (rc_counted _ _ _ _ _ Hok Hi) as (b & Hp & Hb & Hs & Hw & Hpos). exists b.
  split_and!; [done|done| |lia]. simpl.
  destruct (Nat.eqb_spec (handles_at (as_ptr (pointer r)) rs) 0); split_and!; lia.
Qed.

(** [upgrade] gives a handle to the same box exactly while it has a strong one. *)
Lemma upgrade_ok rs ws h i w :
  heap_ok (MkClient rs ws, h) -> ws !! i = Some w ->
  (forall p b, boxes h !! p = Some b -> strong b + 1 < 2 ^ 64) ->
  exists o h', upgrade w h = Ok (o, h') /\
    heap_ok (MkClient (match o with Some r => r :: rs | None => rs end) ws, h') /\
    ((exists r, r ∈ rs /\ rc_box (pointer r) = weak_box (pointer w)) <->
     o = Some (MkByAddress (MkRc (weak_box (pointer w)) (weak_birth (pointer w))))).
Proof.
  intros Hok Hi Hlim. destruct (weak_counted _ _ _ _ _ Hok Hi) as (b & Hp & Hb & Hc & Hpos).
  pose proof Hc as (Hs & Hw & _). unfold upgrade. rewrite Hp. cbn [bind unwrap].
  specialize (Hlim _ _ Hp). destruct (Z.eqb_spec (strong b) 0) as [Hz|Hz].
  - exists None, h. split_and!; [done|done|]. split; [|done]. intros (r & Hin & Hr).
    assert (0 < handles_at (as_ptr (pointer w)) rs)%nat by (by eapply at_pos). lia.
  - rewrite add64_ok by lia. cbn [bind]. eexists _, _. split_and!; [done| |].
    + apply add_rc_ok with (p := as_ptr (pointer w)) (b := b); try done. lia.
    + split; [done|]. intros _. unfold handles_at in Hs.
      destruct (List.filter (fun x => as_ptr (pointer x) =? as_ptr (pointer w)) rs) as [|r l] eqn:E; [simpl in Hs; lia|].
      assert (r ∈ List.filter (fun x => as_ptr (pointer x) =? as_ptr (pointer w)) rs) as Hin by (rewrite E; by left).
      apply list_elem_of_In, filter_In in Hin as [Hin Heq%Z.eqb_eq]. exists r. split; [by apply list_elem_of_In|done].
Qed.

Lemma handles_step_ok x s : heap_ok s -> call_ok x s -> exists s', step x s = Ok s' /\ heap_ok s'.
Proof.
  destruct s as [[rs ws] h]. intros Hok [Hlim Hx]. simpl in Hlim.
  destruct x as [box|i|i|i|i|i|i]; simpl in Hx |- *.
  - eexists. split; [done|]. by apply (new_ok rs ws h box).
  - destruct Hx as [r Hi]. rewrite Hi. destruct (rc_counted' _ _ _ _ _ Hok Hi) as (b & Hp & Hb & Hc & Hpos).
    cbn [unwrap bind]. unfold clone_rc. rewrite Hp. cbn [unwrap bind]. destruct (Hlim _ _ Hp).
    destruct Hc as (Hs & Hc). rewrite add64_ok by lia. cbn [bind]. eexists. split; [done|].
    apply add_rc_ok with (p := as_ptr (pointer r)) (b := b); done.
  - destruct Hx as [w Hi]. rewrite Hi. destruct (weak_counted _ _ _ _ _ Hok Hi) as (b & Hp & Hb & Hc & Hpos).
    cbn [unwrap bind]. unfold clone_weak. rewrite Hp. cbn [unwrap bind]. destruct (Hlim _ _ Hp).
    rewrite add64_ok by (destruct Hc as (_ & _ & ?); lia). cbn [bind]. eexists. split; [done|].
    apply add_weak_ok with (p := as_ptr (pointer w)) (b := b); done.
  - destruct Hx as [r Hi]. rewrite Hi. cbn [unwrap bind].
    destruct (drop_rc_ok _ _ _ _ _ Hok Hi) as (h' & -> & ?). cbn [bind]. by eexists.
  - destruct Hx as [w Hi]. rewrite Hi. cbn [unwrap bind].
    destruct (drop_weak_ok _ _ _ _ _ Hok Hi) as (h' & -> & ?). cbn [bind]. by eexists.
  - destruct Hx as [w Hi]. rewrite Hi. cbn [unwrap bind].
    destruct (upgrade_ok _ _ _ _ _ Hok Hi) as (o & h' & -> & ? & _); [intros p b Hp; apply (Hlim p b Hp)|].
    cbn [bind]. by eexists.
  - destruct Hx as [r Hi]. rewrite Hi. destruct (rc_counted' _ _ _ _ _ Hok Hi) as (b & Hp & Hb & Hc & Hpos).
    cbn [unwrap bind]. unfold downgrade. rewrite Hp. cbn [unwrap bind]. destruct (Hlim _ _ Hp).
    rewrite add64_ok by (destruct Hc as (_ & _ & ?); lia). cbn [bind]. eexists. split; [done|].
    apply add_weak_ok with (p := as_ptr (pointer r)) (b := b); done.
Qed.

Lemma handles_run_ok s xs s' : run s xs s' -> heap_ok s -> heap_ok s'.
Proof.
  induction 1 as [|s x s1 xs s2 Hx Hst _ IH]; [done|]. intros Hok. apply IH.
  destruct (handles_step_ok x s Hok Hx) as (s1' & Hst' & Hok'). rewrite Hst in Hst'. by injection Hst' as <-.
Qed.

(** Two handles have boxes with equal addresses when they come from the same
    allocation, and only then. *)
Lemma same_box s (p q : Z) (n m : nat) :
  heap_ok s -> birth <$> boxes s.2 !! p = Some n -> birth <$> boxes s.2 !! q = Some m -> (p =? q) = (n =? m)%nat.
Proof.
  intros Hok (b & Hb & ->)%fmap_Some (c & Hc & ->)%fmap_Some.
  destruct (Z.eqb_spec p q) as [->|Hne], (Nat.eqb_spec (birth b) (birth c)) as [He|He]; try done.
  - rewrite Hb in Hc. by injection Hc as <-.
  - destruct Hne. by eapply (ok_unique s Hok).
Qed.

(** C23: Comparing addresses compares allocations: in every run of a client that
    makes, clones, drops, upgrades and downgrades handles, no call panics, two
    strong handles are equal exactly when they come from the same allocation, and
    so are two weak ones, even after the value has been dropped; a weak handle is
    upgraded to a handle of its own allocation exactly while one exists. *)
Theorem equal_addresses_same_allocation (xs : list call) (s : Client * Heap)
    (Hrun : run (MkClient [] [], heap_new) xs s) :
  (forall x, call_ok x s -> exists s', step x s = Ok s') /\
  (forall r1 r2, r1 ∈ rcs s.1 -> r2 ∈ rcs s.1 -> eq r1 r2 = (rc_birth (pointer r1) =? rc_birth (pointer r2))%nat) /\
  (forall w1 w2, w1 ∈ weaks s.1 -> w2 ∈ weaks s.1 ->
     eq w1 w2 = (weak_birth (pointer w1) =? weak_birth (pointer w2))%nat) /\
  (forall i w, weaks s.1 !! i = Some w -> call_ok (Upgrade i) s -> exists o h, upgrade w s.2 = Ok (o, h) /\
     (match o with Some r => rc_birth (pointer r) = weak_birth (pointer w) | None => True end) /\
     (is_Some o <-> exists r, r ∈ rcs s.1 /\ rc_birth (pointer r) = weak_birth (pointer w))).
Proof.
  pose proof (handles_run_ok _ _ _ Hrun heap_ok_new) as Hok. split_and!.
  - intros x Hx. destruct (handles_step_ok x s Hok Hx) as (s' & ? & _). by exists s'.
  - intros r1 r2 H1 H2. by apply (same_box s); [|apply (ok_rcs s Hok)..].
  - intros w1 w2 H1 H2. by apply (same_box s); [|apply (ok_weaks s Hok)..].
  - intros i w Hi [Hlim _]. destruct s as [[rs ws] h]. simpl in *.
    destruct (upgrade_ok _ _ _ _ _ Hok Hi) as (o & h' & Hu & _ & Ho); [intros p b Hp; apply (Hlim p b Hp)|].
    exists o, h'. split; [done|].
    assert (forall r, r ∈ rs -> rc_box (pointer r) = weak_box (pointer w) <-> rc_birth (pointer r) = weak_birth (pointer w)) as Hsame.
    { intros r Hr. pose proof (ok_rcs _ Hok r Hr) as H1. pose proof (ok_weaks _ Hok w (list_elem_of_lookup_2 _ _ _ Hi)) as H2.
      pose proof (same_box _ _ _ _ _ Hok H1 H2) as Hs. simpl in Hs. rewrite <- Z.eqb_eq, <- Nat.eqb_eq. by rewrite Hs. }
    assert (o = None \/ o = Some (MkByAddress (MkRc (weak_box (pointer w)) (weak_birth (pointer w))))) as [->| ->].
    { revert Hu. unfold upgrade. destruct (boxes h !! _); [|done]. cbn [unwrap bind].
      destruct (strong _ =? 0); [intros [= <- _]; by left|]. destruct (add64 _ _); [|done]. intros [= <- _]. by right. }
    + split; [done|]. split; [intros [? [=]]|]. intros (r & Hr & He%(Hsame r Hr)). destruct Ho as [Ho _].
      discriminate Ho. by exists r.
    + split; [done|]. split; [|done]. intros _. destruct Ho as [_ [r [Hr He]]]; [done|]. exists r. split; [done|]. by apply Hsame.
Qed.

(** A box is made, downgraded and dropped; its address is not free while the weak
    handle lives, and used again when that is dropped. *)
Lemma equal_addresses_same_allocation_witness :
  exists s, run (MkClient [] [], heap_new) [New 8; Downgrade 0; DropRc 0; DropWeak 0; New 8; Downgrade 0] s /\
    forall w1 w2, w1 ∈ weaks s.1 -> w2 ∈ weaks s.1 ->
      eq w1 w2 = (weak_birth (pointer w1) =? weak_birth (pointer w2))%nat.
Proof.
  assert (forall h : Heap, map_Forall (fun _ b => strong b + 1 < 2 ^ 64 /\ weak b + 1 < 2 ^ 64) (boxes h) ->
    forall p b, boxes h !! p = Some b -> strong b + 1 < 2 ^ 64 /\ weak b + 1 < 2 ^ 64) as Hall by (intros h H p b Hp; exact (H p b Hp)).
  assert (exists s, run (MkClient [] [], heap_new) [New 8; Downgrade 0; DropRc 0; DropWeak 0; New 8; Downgrade 0] s) as [s Hs].
  { eexists. repeat (eapply run_cons; [split; [apply Hall, (bool_decide_unpack _); vm_compute; exact I|first [reflexivity|by eexists]]|vm_compute; reflexivity|]).
    apply run_nil. }
  exists s. split; [exact Hs|]. apply (equal_addresses_same_allocation _ s Hs).
Defined.
