(* ===== verification/RangeMap.v ===== *)
(** * RangeMap: src/src/util/rangemap.rs

    A map from half-open ranges of keys to values, kept in a [BTreeMap] from the
    end of each range to its start and value. The std [BTreeMap] is modelled by
    the list of its entries in increasing key order ([bt_insert], [bt_remove],
    [bt_above]); [erase], [insert], [range] and [from_iter] follow the source.
    The abstract view is [get]: the value a point is mapped to. The laws of the
    class [RangeStore] are what the memory and the data-flow queue rely on. *)

From S2P Require Import Prelude.

(** ** The standard library's BTreeMap, on integer keys *)

Section BTreeMap.
Context {A : Type}.
Implicit Types (m : list (Z * A)) (k : Z).

(** [BTreeMap::insert] *)
Fixpoint bt_insert k (a : A) m : list (Z * A) :=
  match m with
  | [] => [(k, a)]
  | (k', a') :: m' =>
      if k <? k' then (k, a) :: m
      else if k =? k' then (k, a) :: m'
      else (k', a') :: bt_insert k a m'
  end.

(** [BTreeMap::remove]: the removed value, and the map without the key. *)
Fixpoint bt_remove k m : option (A * list (Z * A)) :=
  match m with
  | [] => None
  | (k', a') :: m' =>
      if k =? k' then Some (a', m')
      else match bt_remove k m' with
           | Some (a, m'') => Some (a, (k', a') :: m'')
           | None => None
           end
  end.

(** [BTreeMap::range((Excluded(k), Unbounded))] *)
Definition bt_above k m : list (Z * A) := List.filter (fun e => k <? e.1) m.

Definition bt_sorted m : Prop := StronglySorted (fun a b => a.1 < b.1) m.

Lemma bt_sorted_cons e m :
  bt_sorted (e :: m) <-> (forall x, x ∈ m -> e.1 < x.1) /\ bt_sorted m.
Proof. unfold bt_sorted. rewrite StronglySorted_cons, Forall_forall. done. Qed.

Lemma bt_elem_insert k a m x :
  bt_sorted m -> x ∈ bt_insert k a m <-> x = (k, a) \/ (x ∈ m /\ x.1 <> k).
Proof.
  induction m as [|[k' a'] m IH]; intros Hs.
  { simpl. rewrite list_elem_of_singleton, elem_of_nil. naive_solver. }
  apply bt_sorted_cons in Hs as [Hlt Hs]. specialize (IH Hs). simpl in *.
  destruct (Z.ltb_spec k k') as [H1|H1]; [|destruct (Z.eqb_spec k k') as [->|H2]].
  - rewrite !elem_of_cons. split; [|naive_solver].
    intros [->|[->|Hx]]; [auto | right; simpl; split; [auto|lia] |].
    right. split; [auto|]. specialize (Hlt x Hx). lia.
  - rewrite !elem_of_cons. split; [|naive_solver].
    intros [->|Hx]; [auto|]. right. split; [auto|]. specialize (Hlt x Hx). lia.
  - rewrite !elem_of_cons, IH. split; [|naive_solver].
    intros [->|[->|[Hx Hk]]]; [right; simpl; split; [auto|lia] | auto | auto].
Qed.

Lemma bt_sorted_insert k a m : bt_sorted m -> bt_sorted (bt_insert k a m).
Proof.
  induction m as [|[k' a'] m IH]; intros Hs; simpl.
  { apply bt_sorted_cons. split; [|done]. intros x Hx. by apply elem_of_nil in Hx. }
  pose proof Hs as Hs'. apply bt_sorted_cons in Hs as [Hlt Hs]. simpl in Hlt.
  destruct (Z.ltb_spec k k') as [H1|H1]; [|destruct (Z.eqb_spec k k') as [->|H2]].
  - apply bt_sorted_cons. split; [|done]. intros x [->|Hx]%elem_of_cons; simpl; [lia|].
    specialize (Hlt x Hx). lia.
  - by apply bt_sorted_cons.
  - apply bt_sorted_cons. split; [|auto]. intros x Hx. simpl.
    apply bt_elem_insert in Hx as [->|[Hx _]]; [simpl; lia | auto | done].
Qed.

Lemma bt_remove_spec k a m :
  bt_sorted m -> (k, a) ∈ m ->
  exists m', bt_remove k m = Some (a, m') /\ bt_sorted m' /\
    (forall x, x ∈ m' <-> x ∈ m /\ x.1 <> k) /\ length m = S (length m').
Proof.
  induction m as [|[k' a'] m IH]; intros Hs Hin; [by apply elem_of_nil in Hin|].
  apply bt_sorted_cons in Hs as [Hlt Hs]. simpl in *.
  destruct (Z.eqb_spec k k') as [->|Hne].
  - apply elem_of_cons in Hin as [Heq|Hin].
    + injection Heq as ->. exists m. split_and!; [done..|intros x|done].
      rewrite elem_of_cons. split; [|naive_solver].
      intros Hx. specialize (Hlt x Hx). split; [auto|lia].
    + specialize (Hlt _ Hin). simpl in Hlt. lia.
  - apply elem_of_cons in Hin as [Heq|Hin]; [congruence|].
    destruct (IH Hs Hin) as (m' & -> & Hs' & Hm' & Hlen).
    eexists. split; [done|]. split_and!.
    + apply bt_sorted_cons. split; [|done]. intros x [Hx _]%Hm'. auto.
    + intros x. rewrite !elem_of_cons, Hm'. naive_solver.
    + simpl. lia.
Qed.

Lemma bt_sorted_inj m x y : bt_sorted m -> x ∈ m -> y ∈ m -> x.1 = y.1 -> x = y.
Proof.
  induction m as [|a m IH]; [set_solver|]. intros [Hlt Hs]%bt_sorted_cons.
  intros [->|Hx]%elem_of_cons [->|Hy]%elem_of_cons Heq; [done| | |auto].
  - specialize (Hlt y Hy). lia.
  - specialize (Hlt x Hx). lia.
Qed.

Lemma bt_insert_perm k a m :
  bt_sorted m -> (forall x, x ∈ m -> x.1 <> k) -> bt_insert k a m ≡ₚ (k, a) :: m.
Proof.
  induction m as [|[k' a'] m IH]; intros Hs Hk; [done|].
  apply bt_sorted_cons in Hs as [_ Hs]. simpl.
  destruct (Z.ltb_spec k k'); [done|]. destruct (Z.eqb_spec k k') as [->|?].
  - by destruct (Hk (k', a') ltac:(by constructor)).
  - rewrite IH; [apply perm_swap|done|]. intros x Hx. apply Hk. by constructor.
Qed.

Lemma bt_insert_if (b : bool) k a m :
  bt_sorted m -> (b = true -> forall x, x ∈ m -> x.1 <> k) ->
  bt_sorted (if b then bt_insert k a m else m) /\
  (if b then bt_insert k a m else m) ≡ₚ (if b then (k, a) :: m else m).
Proof.
  intros Hs Hk. destruct b; [|done]. split; [by apply bt_sorted_insert|].
  apply bt_insert_perm; auto.
Qed.

Lemma bt_remove_perm k m a m' : bt_remove k m = Some (a, m') -> m ≡ₚ (k, a) :: m'.
Proof.
  revert m'. induction m as [|[k' a'] m IH]; intros m'; simpl; [done|].
  destruct (Z.eqb_spec k k') as [->|?]; [by intros [= -> ->]|].
  destruct (bt_remove k m) as [[a1 m1]|]; [|done].
  intros [= -> <-]. rewrite (IH m1) by done. apply perm_swap.
Qed.

Lemma bt_elem_above k m x : x ∈ bt_above k m <-> x ∈ m /\ k < x.1.
Proof.
  unfold bt_above. rewrite !list_elem_of_In, List.filter_In, Z.ltb_lt. done.
Qed.

Lemma bt_sorted_above k m : bt_sorted m -> bt_sorted (bt_above k m).
Proof.
  induction m as [|e m IH]; intros Hs; [done|].
  apply bt_sorted_cons in Hs as [Hlt Hs]. unfold bt_above in *. simpl.
  destruct (k <? e.1); [|auto]. apply bt_sorted_cons. split; [|auto].
  intros x [Hx _]%bt_elem_above. auto.
Qed.

(** [range(..).next()] is the least key above the bound. *)
Lemma bt_above_head k m :
  bt_sorted m ->
  match bt_above k m with
  | [] => forall x, x ∈ m -> x.1 <= k
  | e :: _ => e ∈ m /\ k < e.1 /\ (forall x, x ∈ m -> k < x.1 -> e.1 <= x.1)
  end.
Proof.
  intros Hs. pose proof (bt_sorted_above k m Hs) as Hs'.
  pose proof (fun x => bt_elem_above k m x) as Hel.
  destruct (bt_above k m) as [|e l].
  - intros x Hx. destruct (Z.ltb_spec k x.1); [|done].
    exfalso. apply (elem_of_nil x). apply Hel. auto.
  - apply bt_sorted_cons in Hs' as [Hlt _].
    destruct (proj1 (Hel e)) as [He Hk]; [by constructor|]. split_and!; [done..|].
    intros x Hx Hkx.
    assert (x ∈ e :: l) as [->|Hin]%elem_of_cons by (apply Hel; auto); [lia|].
    specialize (Hlt _ Hin). lia.
Qed.
End BTreeMap.

(** ** RangeMap *)

(** [struct RangeMap<K, V> { map: BTreeMap<K, (K, V)> }], [K] = the integers:
    the key of an entry is the end of its range. *)
Definition RangeMap (V : Type) : Type := list (Z * (Z * V)).

(** [std::ops::Bound] and the bounds a [RangeBounds] argument carries. *)
Inductive Bound := Included (k : Z) | Excluded (k : Z) | Unbounded.

Section Operations.
Context {V : Type}.
Implicit Types (m : RangeMap V).

Definition new : RangeMap V := [].

(** One pass of the [while let] of [erase]: [None] when the loop ends. *)
Definition erase_step (start end_ : Z) m : option (res (RangeMap V)) :=
  match bt_above start m with
  | [] => None
  | (v_end, (v_start, _)) :: _ =>
      if end_ <=? v_start then None
      else Some (
        let! r := unwrap (bt_remove v_end m) in
        let value := r.1.2 in
        let m := r.2 in
        let m := if v_start <? start then bt_insert start (v_start, value) m else m in
        let m := if end_ <? v_end then bt_insert v_end (end_, value) m else m in
        Ok m)
  end.

(** The loop with fuel; [None] when the fuel runs out. *)
Fixpoint erase_loop (fuel : nat) (start end_ : Z) m : option (res (RangeMap V)) :=
  match fuel with
  | O => None
  | S fuel =>
      match erase_step start end_ m with
      | None => Some (Ok m)
      | Some (Ok m') => erase_loop fuel start end_ m'
      | Some (Panic p) => Some (Panic p)
      end
  end.

Definition erase_fuel m : nat := S (length m).

(** [erase]: the fuel bounds the passes (theorem [erase_terminates]). *)
Definition erase (start end_ : Z) m : res (RangeMap V) :=
  match erase_loop (erase_fuel m) start end_ m with
  | Some r => r
  | None => Panic UnreachableCode
  end.

Definition insert (start end_ : Z) (value : V) m : res (RangeMap V) :=
  if end_ <=? start then Ok m
  else
    let! m := erase start end_ m in
    Ok (bt_insert end_ (start, value) m).

(** The [map_while] closure of [range]: [None] ends the iteration. *)
Definition clip (start end_ : Bound) (e : Z * (Z * V)) : res (option (Z * Z * V)) :=
  let '(v_end, (v_start, value)) := e in
  let! n_start := match start with
                  | Included s => Ok (Z.max s v_start)
                  | Excluded _ => Panic Todo
                  | Unbounded => Ok v_start
                  end in
  let! n_end := match end_ with
                | Included _ => Panic Todo
                | Excluded e => Ok (Z.min e v_end)
                | Unbounded => Ok v_end
                end in
  if n_end <=? n_start then Ok None else Ok (Some (n_start, n_end, value)).

Fixpoint map_while {A B} (f : A -> res (option B)) (l : list A) : res (list B) :=
  match l with
  | [] => Ok []
  | a :: l' =>
      let! o := f a in
      match o with
      | None => Ok []
      | Some b => let! bs := map_while f l' in Ok (b :: bs)
      end
  end.

(** [range]: the iterator run to its end. *)
Definition range_bounds (start end_ : Bound) m : res (list (Z * Z * V)) :=
  let! above := match start with
                | Included x => Ok (bt_above x m)
                | Excluded _ => Panic Todo
                | Unbounded => Ok m
                end in
  map_while (clip start end_) above.

(** [range(start..end)], the bounds every caller passes. *)
Definition range (start end_ : Z) m : res (list (Z * Z * V)) :=
  range_bounds (Included start) (Excluded end_) m.

(** [FromIterator::from_iter] *)
Definition from_iter (l : list (Z * Z * V)) : res (RangeMap V) :=
  foldM (fun result rv => insert rv.1.1 rv.1.2 rv.2 result) new l.
End Operations.

(** ** The abstract view and the invariant *)

Section Spec.
Context {V : Type}.
Implicit Types (m : RangeMap V) (k : Z).

(** The value a point is mapped to. *)
Fixpoint get m k : option V :=
  match m with
  | [] => None
  | (e, (s, v)) :: m' => if (s <=? k) && (k <? e) then Some v else get m' k
  end.

(** Ranges are non-empty, in key order and disjoint. *)
Definition wf m : Prop :=
  StronglySorted (fun a b => a.1 <= b.2.1) m /\ Forall (fun e => e.2.1 < e.1) m.

Lemma wf_alt m :
  wf m <->
  bt_sorted m /\ (forall x, x ∈ m -> x.2.1 < x.1) /\
  (forall x y, x ∈ m -> y ∈ m -> x.1 < y.1 -> x.1 <= y.2.1).
Proof.
  unfold wf. rewrite Forall_forall. induction m as [|a m IH].
  { split; intros _; split_and!; try apply SSorted_nil; set_solver. }
  rewrite StronglySorted_cons, bt_sorted_cons, Forall_forall. split.
  - intros [[Ha Hs] Hne]. destruct (proj1 IH) as (Hk & _ & Hd).
    { split; [done|]. intros x Hx. apply Hne. by constructor. }
    split_and!; [intros x Hx|done|done|].
    + specialize (Ha x Hx). specialize (Hne x ltac:(by constructor)). lia.
    + intros x y [->|Hx]%elem_of_cons [->|Hy]%elem_of_cons Hxy; [lia|auto| |auto].
      specialize (Ha x Hx). specialize (Hne x ltac:(by constructor)). lia.
  - intros ((Ha & Hk) & Hne & Hd). destruct (proj2 IH) as [Hs _].
    { split_and!; [done|intros; apply Hne; by constructor|].
      intros; apply Hd; try by constructor. done. }
    split_and!; [intros x Hx|done|done]. apply Hd; [by constructor..|auto].
Qed.

Lemma wf_sorted m : wf m -> bt_sorted m.
Proof. intros H%wf_alt. tauto. Qed.

Lemma get_Some m k v :
  wf m -> get m k = Some v <-> exists e s, (e, (s, v)) ∈ m /\ s <= k < e.
Proof.
  induction m as [|[e [s u]] m IH]; intros Hwf; simpl.
  { split; [done|]. intros (e & s & H & _). by apply elem_of_nil in H. }
  pose proof Hwf as [Hs Hne]. apply StronglySorted_cons in Hs as [Ha Hs].
  apply Forall_cons in Hne as [He Hne]. rewrite Forall_forall in Ha, Hne. simpl in *.
  specialize (IH ltac:(by split; [|apply Forall_forall])).
  destruct (Z.leb_spec s k), (Z.ltb_spec k e); simpl.
  - split.
    + intros [= <-]. exists e, s. split; [by constructor|done].
    + intros (e' & s' & [Heq|Hin]%elem_of_cons & Hk); [congruence|].
      specialize (Ha _ Hin). simpl in Ha. lia.
  - rewrite IH. setoid_rewrite elem_of_cons. split; [naive_solver|].
    intros (e' & s' & [Heq|Hin] & Hk); [injection Heq as -> -> ->; lia|eauto].
  - rewrite IH. setoid_rewrite elem_of_cons. split; [naive_solver|].
    intros (e' & s' & [Heq|Hin] & Hk); [injection Heq as -> -> ->; lia|eauto].
  - rewrite IH. setoid_rewrite elem_of_cons. split; [naive_solver|].
    intros (e' & s' & [Heq|Hin] & Hk); [injection Heq as -> -> ->; lia|eauto].
Qed.

(** Two well-formed maps with the same entries around a point agree there. *)
Lemma get_ext m1 m2 k :
  wf m1 -> wf m2 ->
  (forall v, (exists e s, (e, (s, v)) ∈ m1 /\ s <= k < e) <->
             (exists e s, (e, (s, v)) ∈ m2 /\ s <= k < e)) ->
  get m1 k = get m2 k.
Proof.
  intros H1 H2 H. apply option_eq. intros v. by rewrite !get_Some.
Qed.
End Spec.

(** ** Erasing *)

Section Erase.
Context {V : Type}.
Implicit Types (m : RangeMap V) (k s e : Z).

(** What one pass puts in place of the entry [(v_end, (v_start, v))]. *)
Definition erase_pieces s e (v_end v_start : Z) (v : V) (x : Z * (Z * V)) : Prop :=
  (v_start < s /\ x = (s, (v_start, v))) \/ (e < v_end /\ x = (v_end, (e, v))).

(** An entry still to be processed by the loop. *)
Definition overlaps s e (x : Z * (Z * V)) : bool := (s <? x.1) && (x.2.1 <? e).
Definition n_overlaps s e m : nat := length (List.filter (overlaps s e) m).

Lemma n_overlaps_perm s e m1 m2 : m1 ≡ₚ m2 -> n_overlaps s e m1 = n_overlaps s e m2.
Proof.
  unfold n_overlaps. induction 1 as [|x l1 l2 _ IH|x y l|]; simpl; [done| | |congruence].
  - destruct (overlaps s e x); simpl; lia.
  - destruct (overlaps s e x), (overlaps s e y); simpl; lia.
Qed.

Lemma n_overlaps_le s e m : (n_overlaps s e m <= length m)%nat.
Proof. unfold n_overlaps. induction m as [|x m IH]; simpl; [lia|]. destruct (overlaps s e x); simpl; lia. Qed.

(** One pass: either no entry meets the range any more, or the first such
    entry is replaced by what is left of it on both sides. *)
Lemma erase_step_entries s e m :
  s <= e -> wf m ->
  match erase_step s e m with
  | None => forall x, x ∈ m -> x.1 <= s \/ e <= x.2.1
  | Some r => exists m' v_end v_start v,
      r = Ok m' /\ (v_end, (v_start, v)) ∈ m /\ s < v_end /\ v_start < e /\
      bt_sorted m' /\ S (n_overlaps s e m') = n_overlaps s e m /\
      (forall x, x ∈ m' <-> (x ∈ m /\ x.1 <> v_end) \/ erase_pieces s e v_end v_start v x)
  end.
Proof.
  intros Hse Hwf. pose proof (wf_sorted _ Hwf) as Hs. unfold erase_step, erase_pieces.
  apply wf_alt in Hwf as (_ & Hne & Hd). pose proof (bt_above_head s m Hs) as Hhd.
  destruct (bt_above s m) as [|[v_end [v_start v]] l].
  { intros x Hx. left. by apply Hhd. }
  destruct Hhd as (Hin & Hlt & Hmin). simpl in *.
  pose proof (Hne _ Hin) as Hne'. simpl in Hne'.
  destruct (Z.leb_spec e v_start) as [Hle|Hle].
  { intros x Hx. destruct (Z.le_gt_cases x.1 s); [by left|]. right.
    specialize (Hmin x Hx ltac:(lia)). destruct (decide (x.1 = v_end)) as [Heq|].
    - rewrite (bt_sorted_inj m x (v_end, (v_start, v))) by done. done.
    - specialize (Hd _ _ Hin Hx). simpl in Hd. lia. }
  destruct (bt_remove_spec v_end _ m Hs Hin) as (m1 & Hrm & Hs1 & Hm1 & _).
  pose proof (bt_remove_perm _ _ _ _ Hrm) as Hp. rewrite Hrm. simpl.
  set (m2 := if v_start <? s then _ else m1).
  destruct (bt_insert_if (v_start <? s) s (v_start, v) m1 Hs1) as (Hs2 & Hp2).
  { intros Hlt'%Z.ltb_lt x [Hx Hxe]%Hm1 Hxs.
    specialize (Hd _ _ Hx Hin). simpl in Hd. specialize (Hne _ Hx). lia. }
  fold m2 in Hs2, Hp2.
  assert (forall x, x ∈ m2 -> x.1 <> v_end) as Hm2.
  { intros x Hx. rewrite Hp2 in Hx. destruct (v_start <? s).
    - apply elem_of_cons in Hx as [->|[_ ?]%Hm1]; simpl; [lia|done].
    - by apply Hm1 in Hx as [_ ?]. }
  destruct (bt_insert_if (e <? v_end) v_end (e, v) m2 Hs2) as (Hs3 & Hp3); [auto|].
  exists (if e <? v_end then bt_insert v_end (e, v) m2 else m2), v_end, v_start, v.
  split_and!; [by destruct (e <? v_end)|done..| |].
  - rewrite (n_overlaps_perm _ _ _ _ Hp3), (n_overlaps_perm _ _ _ _ Hp).
    transitivity (S (n_overlaps s e m2)).
    { f_equal. destruct (e <? v_end); [|done]. unfold n_overlaps, overlaps. simpl.
      rewrite (proj2 (Z.ltb_ge e e)) by lia. by rewrite andb_false_r. }
    rewrite (n_overlaps_perm _ _ _ _ Hp2).
    unfold n_overlaps, overlaps. destruct (v_start <? s); simpl;
      rewrite ?(proj2 (Z.ltb_ge s s)), (proj2 (Z.ltb_lt s v_end)),
        (proj2 (Z.ltb_lt v_start e)) by lia; done.
  - intros x. rewrite Hp3. transitivity ((e < v_end /\ x = (v_end, (e, v))) \/ x ∈ m2).
    { destruct (Z.ltb_spec e v_end); [rewrite elem_of_cons|]; intuition lia. }
    rewrite Hp2.
    transitivity ((e < v_end /\ x = (v_end, (e, v))) \/
                  (v_start < s /\ x = (s, (v_start, v))) \/ x ∈ m1).
    { destruct (Z.ltb_spec v_start s); [rewrite elem_of_cons|]; intuition lia. }
    rewrite Hm1. tauto.
Qed.

(** A pass keeps the invariant and every point outside the erased range. *)
Lemma erase_step_spec s e m r :
  s <= e -> wf m -> erase_step s e m = Some r ->
  exists m', r = Ok m' /\ wf m' /\ S (n_overlaps s e m') = n_overlaps s e m /\
    (forall k, k < s \/ e <= k -> get m' k = get m k).
Proof.
  intros Hse Hwf Hst. pose proof (erase_step_entries s e m Hse Hwf) as H.
  rewrite Hst in H.
  destruct H as (m' & ve & vs & v & -> & Hin & Hlt & Hle & Hs' & Hn & Hel).
  pose proof Hwf as (Hs & Hne & Hd)%wf_alt. unfold erase_pieces in Hel.
  pose proof (Hne _ Hin) as Hne0. simpl in Hne0.
  assert (wf m') as Hwf'.
  { apply wf_alt. split_and!; [done| |].
    - intros x [[Hx _]|[[? ->]|[? ->]]]%Hel; simpl; [auto|lia|lia].
    - intros x y Hx%Hel Hy%Hel.
      destruct Hx as [[Hx Hxe]|[[? ->]|[? ->]]], Hy as [[Hy Hye]|[[? ->]|[? ->]]];
        simpl in *; intros Hxy; try lia; try (by apply Hd).
      + pose proof (Hd _ _ Hx Hin). pose proof (Hne _ Hx). simpl in *.
        pose proof (Hd _ _ Hin Hx). simpl in *. lia.
      + pose proof (Hd _ _ Hx Hin). simpl in *. lia.
      + pose proof (Hd _ _ Hy Hin). pose proof (Hd _ _ Hin Hy). simpl in *.
        pose proof (Hne _ Hy). lia.
      + pose proof (Hd _ _ Hin Hy). simpl in *. lia. }
  exists m'. split_and!; [done..|]. intros k Hk. apply get_ext; [done..|].
  intros u. split.
  - intros (e' & s' & [[Hx _]|[[? Heq]|[? Heq]]]%Hel & Hb); [eauto| |];
      injection Heq as -> -> ->; exists ve, vs; split; [done|lia|done|lia].
  - intros (e' & s' & Hx & Hb). setoid_rewrite Hel.
    destruct (decide (e' = ve)) as [->|Hee]; [|by eauto 10].
    pose proof (bt_sorted_inj m _ _ Hs Hx Hin eq_refl) as Heq. injection Heq as -> ->.
    destruct Hk as [Hk|Hk].
    + exists s, vs. split; [|lia]. right; left. split; [lia|done].
    + exists ve, e. split; [|lia]. right; right. split; [lia|done].
Qed.
End Erase.

(** ** The operations meet their specification *)

Section Correctness.
Context {V : Type}.
Implicit Types (m : RangeMap V) (k s e : Z).

Lemma erase_loop_spec fuel s e m :
  s <= e -> wf m -> (n_overlaps s e m < fuel)%nat ->
  exists m', erase_loop fuel s e m = Some (Ok m') /\ wf m' /\
    (forall x, x ∈ m' -> x.1 <= s \/ e <= x.2.1) /\
    (forall k, k < s \/ e <= k -> get m' k = get m k).
Proof.
  revert m. induction fuel as [|fuel IH]; intros m Hse Hwf Hfuel; [lia|]. simpl.
  destruct (erase_step s e m) as [r|] eqn:Hst.
  - destruct (erase_step_spec s e m r Hse Hwf Hst) as (m1 & -> & Hwf1 & Hn & Hget).
    destruct (IH m1 Hse Hwf1 ltac:(lia)) as (m' & -> & Hwf' & Hdisj & Hget').
    exists m'. split_and!; [done..|]. intros k Hk. by rewrite Hget', Hget.
  - exists m. pose proof (erase_step_entries s e m Hse Hwf) as H. rewrite Hst in H. done.
Qed.

Lemma erase_spec s e m :
  s <= e -> wf m ->
  exists m', erase s e m = Ok m' /\ wf m' /\
    (forall x, x ∈ m' -> x.1 <= s \/ e <= x.2.1) /\
    (forall k, k < s \/ e <= k -> get m' k = get m k).
Proof.
  intros Hse Hwf. unfold erase, erase_fuel.
  destruct (erase_loop_spec (S (length m)) s e m Hse Hwf) as (m' & -> & ?); [|by exists m'].
  pose proof (n_overlaps_le s e m). lia.
Qed.

Lemma get_outside s e m k :
  wf m -> (forall x, x ∈ m -> x.1 <= s \/ e <= x.2.1) -> s <= k < e -> get m k = None.
Proof.
  intros Hwf H Hk. apply eq_None_not_Some. intros [v Hv].
  apply get_Some in Hv as (e' & s' & Hin & Hb); [|done].
  destruct (H _ Hin); simpl in *; lia.
Qed.

(** The point-wise specification of [insert], used through [RangeStore]. *)
Lemma insert_spec s e v m :
  wf m ->
  exists m', insert s e v m = Ok m' /\ wf m' /\
    (forall k, get m' k = if (s <=? k) && (k <? e) then Some v else get m k).
Proof.
  intros Hwf. unfold insert. destruct (Z.leb_spec e s) as [Hle|Hlt].
  { exists m. split_and!; [done..|]. intros k.
    destruct (Z.leb_spec s k), (Z.ltb_spec k e); simpl; [lia|done..]. }
  destruct (erase_spec s e m ltac:(lia) Hwf) as (m1 & -> & Hwf1 & Hdisj & Hget). simpl.
  pose proof Hwf1 as (Hs & Hne & Hd)%wf_alt.
  set (m' := bt_insert e (s, v) m1).
  assert (forall x, x ∈ m' <-> x = (e, (s, v)) \/ x ∈ m1) as Hel.
  { intros x. unfold m'. rewrite bt_elem_insert by done. split; [naive_solver|].
    intros [->|Hx]; [by left|]. right. split; [done|]. intros Heq.
    specialize (Hdisj x Hx). specialize (Hne x Hx). lia. }
  assert (wf m') as Hwf'.
  { apply wf_alt. split_and!; [by apply bt_sorted_insert| |].
    - intros x [->|Hx]%Hel; simpl; [lia|auto].
    - intros x y [->|Hx]%Hel [->|Hy]%Hel; simpl; intros Hxy; [lia| | |auto].
      + specialize (Hdisj y Hy). lia.
      + specialize (Hdisj x Hx). specialize (Hne x Hx). lia. }
  exists m'. split_and!; [done..|]. intros k.
  destruct (Z.leb_spec s k), (Z.ltb_spec k e); simpl; try rewrite <- Hget by lia.
  { apply get_Some; [done|]. exists e, s. split; [apply Hel; by left|lia]. }
  all: apply get_ext; [done..|]; intros u; setoid_rewrite Hel; split; [|naive_solver];
    intros (e' & s' & [Heq|Hin] & Hb); [injection Heq as -> -> ->; lia|by eauto].
Qed.

(** The pieces [range] yields from a suffix of the entries. *)
Lemma map_while_clip_spec s e m l :
  StronglySorted (fun a b => a.1 <= b.2.1) l -> Forall (fun x => x.2.1 < x.1) l ->
  (forall x, x ∈ l -> x ∈ m /\ s < x.1) ->
  exists ps, map_while (clip (Included s) (Excluded e)) l = Ok ps /\
    StronglySorted (fun p q => p.1.2 <= q.1.1) ps /\
    (forall lo hi v, (lo, hi, v) ∈ ps <->
       exists ve vs, (ve, (vs, v)) ∈ l /\ lo = Z.max s vs /\ hi = Z.min e ve /\ lo < hi).
Proof.
  induction l as [|[ve [vs v]] l IH]; intros Hs Hne Hl; simpl.
  { exists []. split_and!; [done|constructor|]. set_solver. }
  apply StronglySorted_cons in Hs as [Ha Hs]. apply Forall_cons in Hne as [He Hne].
  rewrite Forall_forall in Ha. simpl in *.
  destruct (Hl (ve, (vs, v))) as [_ Hlt]; [by constructor|]. simpl in Hlt.
  destruct (Z.leb_spec (Z.min e ve) (Z.max s vs)) as [Hc|Hc]; simpl.
  - exists []. split_and!; [done|constructor|]. intros lo hi u. split; [set_solver|].
    intros (ve' & vs' & [Heq|Hin]%elem_of_cons & -> & -> & ?).
    + injection Heq as -> -> ->. lia.
    + specialize (Ha _ Hin). destruct (Hl _ ltac:(by constructor)). simpl in *. lia.
  - destruct IH as (ps & -> & Hps & Hel); [done..|intros; apply Hl; by constructor|].
    simpl. eexists. split_and!; [done| |].
    + apply StronglySorted_cons. split; [|done]. apply Forall_forall.
      intros [[lo hi] u] (ve' & vs' & Hin & -> & -> & ?)%Hel. simpl.
      specialize (Ha _ Hin). simpl in Ha. lia.
    + intros lo hi u. rewrite elem_of_cons, Hel. setoid_rewrite elem_of_cons. split.
      * intros [Heq|?]; [injection Heq as -> -> ->; exists ve, vs; auto|naive_solver].
      * intros (ve' & vs' & [Heq|Hin] & -> & -> & ?); [injection Heq as -> -> ->; auto|].
        right. eauto 10.
Qed.

Lemma wf_above m s : wf m -> wf (bt_above s m).
Proof.
  intros (Hs & Hne & Hd)%wf_alt. apply wf_alt. split_and!.
  - by apply bt_sorted_above.
  - intros x [Hx _]%bt_elem_above. auto.
  - intros x y [Hx _]%bt_elem_above [Hy _]%bt_elem_above. auto.
Qed.

(** [range] yields, in order and disjoint, the parts of the map inside the
    range. *)
Lemma range_spec s e m :
  wf m ->
  exists ps, range s e m = Ok ps /\
    StronglySorted (fun p q => p.1.2 <= q.1.1) ps /\
    (forall lo hi v, (lo, hi, v) ∈ ps ->
       s <= lo /\ lo < hi /\ hi <= e /\ forall k, lo <= k < hi -> get m k = Some v) /\
    (forall k v, s <= k < e -> get m k = Some v ->
       exists lo hi, (lo, hi, v) ∈ ps /\ lo <= k < hi).
Proof.
  intros Hwf. unfold range, range_bounds. simpl.
  destruct (wf_above m s Hwf) as [Hs Hne].
  destruct (map_while_clip_spec s e m (bt_above s m) Hs Hne) as (ps & -> & Hps & Hel).
  { intros x Hx%bt_elem_above. done. }
  exists ps. split_and!; [done..| |].
  - intros lo hi v (ve & vs & [Hin _]%bt_elem_above & -> & -> & ?)%Hel.
    split_and!; [lia..|]. intros k Hk. apply get_Some; [done|]. exists ve, vs. split; [done|lia].
  - intros k v Hk (ve & vs & Hin & Hb)%get_Some; [|done].
    exists (Z.max s vs), (Z.min e ve). split; [|lia]. apply Hel.
    exists ve, vs. split_and!; [|done|done|lia]. apply bt_elem_above. simpl. split; [done|lia].
Qed.

Lemma wf_new : wf (new (V := V)).
Proof. split; constructor. Qed.
End Correctness.

(** ** The interface the clients use *)

(** A store of disjoint ranges: [ok] is its invariant, [look] the value at a
    point. Memory and the data-flow queue are proved against these laws. *)
Class RangeStore {V M : Type} (ok : M -> Prop) (look : M -> Z -> option V)
    (empty_ : M) (ins : Z -> Z -> V -> M -> res M)
    (rng : Z -> Z -> M -> res (list (Z * Z * V))) : Prop := {
  rs_empty_ok : ok empty_;
  rs_empty_look : forall k, look empty_ k = None;
  rs_insert : forall s e v m, ok m ->
    exists m', ins s e v m = Ok m' /\ ok m' /\
      forall k, look m' k = if (s <=? k) && (k <? e) then Some v else look m k;
  rs_range : forall s e m, ok m ->
    exists ps, rng s e m = Ok ps /\
      StronglySorted (fun p q => p.1.2 <= q.1.1) ps /\
      (forall lo hi v, (lo, hi, v) ∈ ps ->
         s <= lo /\ lo < hi /\ hi <= e /\ forall k, lo <= k < hi -> look m k = Some v) /\
      (forall k v, s <= k < e -> look m k = Some v ->
         exists lo hi, (lo, hi, v) ∈ ps /\ lo <= k < hi)
}.

#[export] Instance rangemap_store {V} :
  RangeStore (wf (V := V)) get new insert range.
Proof.
  constructor; [apply wf_new|done|..].
  - intros. by apply insert_spec.
  - intros. by apply range_spec.
Qed.

(** Inserting a list of ranges leaves each point with the last one covering it. *)
Definition last_write {V} (l : list (Z * Z * V)) (k : Z) : option V :=
  fold_left (fun o rv => if (rv.1.1 <=? k) && (k <? rv.1.2) then Some rv.2 else o) l None.

Lemma from_iter_from {V} (l : list (Z * Z * V)) m0 :
  wf m0 ->
  exists m, foldM (fun r rv => insert rv.1.1 rv.1.2 rv.2 r) m0 l = Ok m /\ wf m /\
    forall k, get m k =
      fold_left (fun o rv => if (rv.1.1 <=? k) && (k <? rv.1.2) then Some rv.2 else o) l (get m0 k).
Proof.
  revert m0. induction l as [|[[s e] v] l IH]; intros m0 Hwf; simpl; [by exists m0|].
  destruct (rs_insert s e v m0 Hwf) as (m1 & Hins & Hwf1 & Hget). rewrite Hins. simpl.
  destruct (IH m1 Hwf1) as (m & -> & Hm & Hgetm). exists m. split_and!; [done..|].
  intros k. by rewrite Hgetm, Hget.
Qed.

(** Ranges that agree on a point leave it with their common value. *)
Lemma fold_agree {V} (l : list (Z * Z * V)) (k : Z) (v : V) o :
  (forall lo hi u, (lo, hi, u) ∈ l -> lo <= k < hi -> u = v) ->
  fold_left (fun o rv => if (rv.1.1 <=? k) && (k <? rv.1.2) then Some rv.2 else o) l o =
  if existsb (fun rv => (rv.1.1 <=? k) && (k <? rv.1.2)) l then Some v else o.
Proof.
  revert o. induction l as [|[[lo hi] u] l IH]; intros o H; simpl; [done|].
  rewrite IH by (intros; eapply H; [by right|done]).
  destruct (Z.leb_spec lo k), (Z.ltb_spec k hi); simpl; try done.
  rewrite (H lo hi u) by (done || by left). by destruct (existsb _ l).
Qed.

(** Collecting the pieces of a range restricts the map to the range. *)
Lemma collect_range {V} (m : RangeMap V) s e :
  wf m ->
  exists ps p, range s e m = Ok ps /\ from_iter ps = Ok p /\ wf p /\
    forall k, get p k = if (s <=? k) && (k <? e) then get m k else None.
Proof.
  intros Hwf. destruct (rs_range s e m Hwf) as (ps & Hr & _ & Hsound & Hcompl).
  destruct (from_iter_from ps new wf_new) as (p & Hp & Hwfp & Hg).
  exists ps, p. split_and!; [done..|]. intros k. rewrite Hg. simpl.
  destruct (existsb (fun rv => (rv.1.1 <=? k) && (k <? rv.1.2)) ps) eqn:Hex.
  - apply existsb_exists in Hex as ([[lo hi] v] & Hin%list_elem_of_In & Hb). simpl in Hb. zb.
    destruct (Hsound lo hi v Hin) as (? & ? & ? & Hv). rewrite (fold_agree _ _ v).
    + rewrite (proj2 (existsb_exists _ _)).
      * rewrite Hv by lia. destruct (Z.leb_spec s k), (Z.ltb_spec k e); simpl; done || lia.
      * exists (lo, hi, v). split; [by apply list_elem_of_In|]. simpl.
        rewrite andb_true_iff, Z.leb_le, Z.ltb_lt. lia.
    + intros lo' hi' u Hin' Hb. destruct (Hsound _ _ _ Hin') as (_ & _ & _ & Hu).
      specialize (Hu k Hb). specialize (Hv k ltac:(lia)). congruence.
  - assert (forall lo hi v, (lo, hi, v) ∈ ps -> lo <= k < hi -> False) as Hno.
    { intros lo hi v Hin Hb. apply not_true_iff_false in Hex. apply Hex.
      apply existsb_exists. exists (lo, hi, v). split; [by apply list_elem_of_In|]. simpl.
      rewrite andb_true_iff, Z.leb_le, Z.ltb_lt. lia. }
    destruct (get m k) as [v|] eqn:Ev.
    + rewrite (fold_agree _ _ v), Hex by (intros; exfalso; eauto).
      destruct (Z.leb_spec s k), (Z.ltb_spec k e); simpl; try done.
      destruct (Hcompl k v) as (lo & hi & ? & ?); [lia|done|]. exfalso; eauto.
    + transitivity (@None V); [|by destruct (_ && _)].
      clear - Hno. induction ps as [|[[lo hi] v] ps IH]; simpl; [done|].
      destruct (Z.leb_spec lo k), (Z.ltb_spec k hi); simpl;
        try (apply IH; intros; eapply Hno; [by right|done]).
      exfalso. eapply Hno; [by left|lia].
Qed.

(** ** Theorems *)

(** [erase] always ends, keeps the map well formed, leaves nothing inside
    the erased range and does not touch the points outside it. *)
Theorem erase_correct {V} (m : RangeMap V) (s e : Z) (Hse : s <= e) (Hwf : wf m) :
  exists m', erase s e m = Ok m' /\ wf m' /\
    forall k, get m' k = if (s <=? k) && (k <? e) then None else get m k.
Proof.
  destruct (erase_spec s e m Hse Hwf) as (m' & Her & Hwf' & Hdisj & Hget).
  exists m'. split_and!; [done..|]. intros k.
  destruct (Z.leb_spec s k), (Z.ltb_spec k e); simpl; try (apply Hget; lia).
  by eapply get_outside.
Qed.

(** A map built by any sequence of insertions (overlapping, nested or empty
    ranges included) is well formed and maps each point to the last value
    inserted over it: the interval map refines the map of points. *)
Theorem from_iter_refines {V} (l : list (Z * Z * V)) :
  exists m, from_iter l = Ok m /\ wf m /\ forall k, get m k = last_write l k.
Proof. apply (from_iter_from l new), wf_new. Qed.

(** [range] never panics on half-open bounds and yields ordered, disjoint,
    non-empty pieces inside the query, each constant in the map, which together
    cover every mapped point of the query. *)
Theorem range_exact {V} (m : RangeMap V) (s e : Z) (Hwf : wf m) :
  exists ps, range s e m = Ok ps /\
    StronglySorted (fun p q => p.1.2 <= q.1.1) ps /\
    (forall k v, s <= k < e ->
       get m k = Some v <-> exists lo hi, (lo, hi, v) ∈ ps /\ lo <= k < hi) /\
    (forall p, p ∈ ps -> s <= p.1.1 < p.1.2 /\ p.1.2 <= e).
Proof.
  destruct (range_spec s e m Hwf) as (ps & Hr & Hs & Hsound & Hcompl).
  exists ps. split_and!; [done..| |].
  - intros k v Hk. split; [by apply Hcompl|].
    intros (lo & hi & Hin & Hb). by apply (Hsound lo hi v Hin).
  - intros [[lo hi] v] Hin. simpl. destruct (Hsound lo hi v Hin) as (? & ? & ? & _). lia.
Qed.

(** The table of the source's unit test, after its four insertions. *)
Definition sample : RangeMap Z :=
  match from_iter [(10, 20, 1); (9, 12, 2); (19, 22, 3); (15, 16, 4)] with
  | Ok m => m
  | Panic _ => []
  end.

Example sample_range :
  range 0 U64_MAX sample = Ok [(9, 12, 2); (12, 15, 1); (15, 16, 4); (16, 19, 1); (19, 22, 3)].
Proof. vm_compute. reflexivity. Qed.

Lemma sample_wf : wf sample.
Proof. split; [repeat constructor|]; simpl; repeat (constructor; simpl); lia. Qed.

Lemma erase_correct_witness :
  erase 11 21 sample = Ok [(11, (9, 2)); (22, (21, 3))] /\
  exists m', erase 11 21 sample = Ok m' /\ wf m' /\
    forall k, get m' k = if (11 <=? k) && (k <? 21) then None else get sample k.
Proof.
  split; [vm_compute; reflexivity|].
  apply (erase_correct sample 11 21); [lia | apply sample_wf].
Defined.

Lemma range_exact_witness :
  exists ps, range 12 18 sample = Ok ps /\
    StronglySorted (fun p q => p.1.2 <= q.1.1) ps /\
    (forall k v, 12 <= k < 18 ->
       get sample k = Some v <-> exists lo hi, (lo, hi, v) ∈ ps /\ lo <= k < hi) /\
    (forall p, p ∈ ps -> 12 <= p.1.1 < p.1.2 /\ p.1.2 <= 18).
Proof. exact (range_exact sample 12 18 sample_wf). Defined.
