(* ===== verification/MemOrdering.v ===== *)
(** * MemOrdering: src/src/ordering.rs

    The memory orderings an operation of the simulated program can carry, the
    conversions from LLVM's orderings, and [union], which merges the success
    and failure orderings of a compare-exchange. *)

From S2P Require Import Prelude Text.

(** [enum Ordering]; [ONone] is the source's [None]. *)
Inductive Ordering := ONone | Relaxed | Acquire | Release | AcqRel | SeqCst.

(** The [Debug] that is derived. *)
Definition debug (self : Ordering) : text :=
  match self with
  | ONone => "None"
  | Relaxed => "Relaxed"
  | Acquire => "Acquire"
  | Release => "Release"
  | AcqRel => "AcqRel"
  | SeqCst => "SeqCst"
  end.

(** llvm_ir's [MemoryOrdering] and [SynchronizationScope], the data the source
    matches on. *)
Inductive MemoryOrdering :=
  | Unordered | Monotonic | MAcquire | MRelease | AcquireRelease
  | SequentiallyConsistent | NotAtomic.
Inductive SynchronizationScope := SingleThread | System.
Record Atomicity := { synch_scope : SynchronizationScope; mem_ordering : MemoryOrdering }.

#[export] Instance Ordering_eq_dec : EqDecision Ordering.
Proof. solve_decision. Defined.
#[export] Instance SynchronizationScope_eq_dec : EqDecision SynchronizationScope.
Proof. solve_decision. Defined.

(** [Ordering::union]: the arms in the order the source lists them. *)
Definition union (x y : Ordering) : Ordering :=
  match x, y with
  | SeqCst, _ | _, SeqCst => SeqCst
  | AcqRel, _ | _, AcqRel | Acquire, Release | Release, Acquire => AcqRel
  | Acquire, _ | _, Acquire => Acquire
  | Release, _ | _, Release => Release
  | Relaxed, _ | _, Relaxed => Relaxed
  | ONone, ONone => ONone
  end.

(** [From<MemoryOrdering> for Ordering] *)
Definition from_memory_ordering (x : MemoryOrdering) : res Ordering :=
  match x with
  | Unordered => Panic Explicit
  | Monotonic => Ok Relaxed
  | MAcquire => Ok Acquire
  | MRelease => Ok Release
  | AcquireRelease => Ok AcqRel
  | SequentiallyConsistent => Ok SeqCst
  | NotAtomic => Ok ONone
  end.

(** [From<&Atomicity> for Ordering] *)
Definition from_atomicity (a : Atomicity) : res Ordering :=
  assert! bool_decide (synch_scope a = System) or AssertFailed in
  from_memory_ordering (mem_ordering a).

(** [From<&Option<Atomicity>> for Ordering] *)
Definition from_option_atomicity (a : option Atomicity) : res Ordering :=
  match a with
  | Some a => from_atomicity a
  | None => Ok ONone
  end.

(** What an ordering guarantees, as the data-flow queue distinguishes it. *)
Definition is_atomic (o : Ordering) : bool := match o with ONone => false | _ => true end.
Definition acquires (o : Ordering) : bool :=
  match o with Acquire | AcqRel | SeqCst => true | _ => false end.
Definition releases (o : Ordering) : bool :=
  match o with Release | AcqRel | SeqCst => true | _ => false end.

(** One ordering is at least as strong as another. *)
Definition ord_le (x y : Ordering) : bool :=
  implb (is_atomic x) (is_atomic y) && implb (acquires x) (acquires y)
  && implb (releases x) (releases y)
  && implb (bool_decide (x = SeqCst)) (bool_decide (y = SeqCst)).

#[export] Instance union_comm : Comm (=) union.
Proof. by intros [] []. Qed.
#[export] Instance union_assoc : Assoc (=) union.
Proof. by intros [] [] []. Qed.
#[export] Instance union_idemp : IdemP (=) union.
Proof. by intros []. Qed.
#[export] Instance union_left_id : LeftId (=) ONone union.
Proof. by intros []. Qed.

#[export] Instance ord_le_partial : PartialOrder ord_le.
Proof.
  split; [split|].
  - by intros [].
  - by intros [] [] [].
  - by intros [] [].
Qed.

(** The merged ordering of a compare-exchange is the least ordering that is as
    strong as both of its orderings. *)
Theorem union_least_upper_bound (x y z : Ordering) :
  ord_le x (union x y) /\ ord_le y (union x y) /\
  (ord_le x z -> ord_le y z -> ord_le (union x y) z).
Proof. by destruct x, y, z. Qed.

(** It blocks later operations exactly when one of the two acquires, and it is
    atomic exactly when one of the two is. *)
Lemma union_guarantees (x y : Ordering) :
  acquires (union x y) = acquires x || acquires y /\
  releases (union x y) = releases x || releases y /\
  is_atomic (union x y) = is_atomic x || is_atomic y.
Proof. by destruct x, y. Qed.
