(* ===== verification/Layout.v ===== *)
(** * Layout: src/src/layout.rs

    Sizes and alignments in bits, and how layouts are packed next to each
    other. Arithmetic is the checked [u64] arithmetic of the dev profile;
    [align_to] uses the wrapping methods where the source does. *)

From S2P Require Import Prelude Text.

(** [struct Layout] *)
Record Layout := MkLayout { bits : Z; bit_align : Z }.

(** [impl Debug for Layout] *)
Definition debug (self : Layout) : text := "b" +:+ dec (bits self) +:+ "/" +:+ dec (bit_align self).

(** [enum Packing]; [PNone] is the source's [None]. *)
Inductive Packing := PNone | PBit | PByte.

#[export] Instance Layout_eq_dec : EqDecision Layout.
Proof. solve_decision. Defined.

(** [u64::is_power_of_two] *)
Definition is_power_of_two (z : Z) : bool := (0 <? z) && (Z.land z (z - 1) =? 0).
(** [u64::next_power_of_two], which panics past [2^63] in the dev profile. *)
Definition next_power_of_two (z : Z) : res Z := chk_u 64 (2 ^ Z.log2_up z).

Definition align_to (ptr align : Z) : res Z :=
  let! a := sub64 align 1 in
  Ok (wrap 64 (Z.lor (wrap 64 (ptr - 1)) a + 1)).

Definition from_bytes (bytes byte_align : Z) : res Layout :=
  let! b := mul64 bytes 8 in
  let! a := mul64 byte_align 8 in
  Ok (MkLayout b a).

Definition from_bits (bits bit_align : Z) : res Layout :=
  assert! 8 <=? bit_align or AssertFailed in
  assert! is_power_of_two bit_align or AssertFailed in
  Ok (MkLayout bits bit_align).

(** [extend]: the layout with [other] appended, and [other]'s offset as i64. *)
Definition extend (self : Layout) (packing : Packing) (other : Layout) : res (Layout * Z) :=
  match packing with
  | PNone =>
      let! offset := align_to (bits self) (bit_align other) in
      let! b := add64 offset (bits other) in
      Ok (MkLayout b (Z.max (bit_align self) (bit_align other)), to_signed 64 offset)
  | PBit =>
      let offset := bits self in
      let! b := add64 offset (bits other) in
      Ok (MkLayout b 8, to_signed 64 offset)
  | PByte =>
      let! offset := align_to (bits self) 8 in
      let! b := add64 offset (bits other) in
      Ok (MkLayout b 8, to_signed 64 offset)
  end.

Definition bytes (self : Layout) : res Z :=
  let! b := add64 (bits self) 7 in Ok (b / 8).

Definition byte_align (self : Layout) : res Z :=
  let! b := add64 (bit_align self) 7 in Ok (b / 8).

Definition of_int (bits : Z) : res Layout :=
  let! align := next_power_of_two (Z.max bits 8) in
  from_bits bits align.

Definition of_func : res Layout := from_bytes 256 1.

Definition pad_to_align (self : Layout) : res Layout :=
  let! b := align_to (bits self) (bit_align self) in
  from_bits b (bit_align self).

Definition align_to_bits (self : Layout) (align_bits : Z) : res Layout :=
  from_bits (bits self) (Z.max (bit_align self) align_bits).

Definition repeat_ (self : Layout) (packing : Packing) (n : Z) : res Layout :=
  match packing with
  | PNone =>
      assert! bit_align self mod 8 =? 0 or AssertFailed in
      let! b := align_to (bits self) (bit_align self) in
      let! b := mul64 b n in
      from_bits b (bit_align self)
  | PBit =>
      let! b := mul64 (bits self) n in
      from_bits b 8
  | PByte =>
      assert! bit_align self mod 8 =? 0 or AssertFailed in
      let! b := align_to (bits self) 8 in
      let! b := mul64 b n in
      from_bits b 8
  end.

(** [From<bool> for Packing] *)
Definition packing_from_bool (is_packed : bool) : Packing :=
  if is_packed then PByte else PNone.

(** ** Powers of two *)

Definition pow2 (z : Z) : Prop := exists n, 0 <= n /\ z = 2 ^ n.

Lemma land_pred_pow2 z : 0 < z -> Z.land z (z - 1) = 0 -> pow2 z.
Proof.
  intros Hz Hl. exists (Z.log2 z). split; [apply Z.log2_nonneg|].
  destruct (Z.log2_spec z Hz) as [Hlo Hhi].
  destruct (Z.eq_dec z (2 ^ Z.log2 z)) as [|Hne]; [done|]. exfalso.
  pose proof (Z.pow_pos_nonneg 2 (Z.log2 z) ltac:(lia) (Z.log2_nonneg z)).
  assert (Z.testbit (Z.land z (z - 1)) (Z.log2 z) = true) as Hb; [|by rewrite Hl, Z.bits_0 in Hb].
  rewrite Z.land_spec, Z.bit_log2 by done. simpl.
  assert (Z.log2 (z - 1) = Z.log2 z) as <-; [|apply Z.bit_log2; lia].
  apply Z.log2_unique; [apply Z.log2_nonneg|]. lia.
Qed.

Lemma is_power_of_two_spec z : is_power_of_two z = true <-> pow2 z.
Proof.
  unfold is_power_of_two. split.
  - intros H. zb. by apply land_pred_pow2.
  - intros (n & Hn & ->). apply andb_true_iff. split; [apply Z.ltb_lt; lia|].
    apply Z.eqb_eq. rewrite Z.sub_1_r, <- Z.ones_equiv, Z.land_ones by done.
    apply Z.mod_same. lia.
Qed.

Lemma pow2_pos z : pow2 z -> 0 < z.
Proof. intros (n & Hn & ->). lia. Qed.

Lemma lor_ones x n : 0 <= n -> Z.lor x (2 ^ n - 1) = (x / 2 ^ n + 1) * 2 ^ n - 1.
Proof.
  intros Hn. rewrite Z.sub_1_r, <- Z.ones_equiv.
  assert (Z.lor x (Z.ones n) = Z.lor (Z.shiftl (Z.shiftr x n) n) (Z.ones n)) as ->.
  { apply Z.bits_inj'. intros i Hi. rewrite !Z.lor_spec, Z.shiftl_spec by done.
    destruct (Z.ltb_spec i n) as [Hlt|Hge].
    - rewrite (Z.ones_spec_low n i) by lia. by rewrite !orb_true_r.
    - rewrite Z.shiftr_spec by lia. f_equal. f_equal. lia. }
  rewrite <- Z.lxor_lor, <- Z.add_nocarry_lxor.
  - rewrite Z.shiftl_mul_pow2, Z.shiftr_div_pow2, Z.ones_equiv by done. lia.
  - apply Z.bits_inj'. intros i Hi. rewrite Z.land_spec, Z.bits_0, Z.shiftl_spec by done.
    destruct (Z.ltb_spec i n) as [Hlt|Hge].
    + rewrite Z.testbit_neg_r by lia. done.
    + rewrite Z.ones_spec_high by lia. apply andb_false_r.
  - apply Z.bits_inj'. intros i Hi. rewrite Z.land_spec, Z.bits_0, Z.shiftl_spec by done.
    destruct (Z.ltb_spec i n) as [Hlt|Hge].
    + rewrite Z.testbit_neg_r by lia. done.
    + rewrite Z.ones_spec_high by lia. apply andb_false_r.
Qed.

(** The least multiple of [align] that is at least [ptr]. *)
Definition round_up (ptr align : Z) : Z := ((ptr - 1) / align + 1) * align.

Lemma round_up_spec ptr align :
  0 < align ->
  ptr <= round_up ptr align < ptr + align /\ (align | round_up ptr align).
Proof.
  intros Ha. unfold round_up.
  pose proof (Z.div_mod (ptr - 1) align ltac:(lia)).
  pose proof (Z.mod_pos_bound (ptr - 1) align Ha).
  split; [lia|]. apply Z.divide_factor_r.
Qed.

Lemma round_up_least ptr align x : 0 < align -> ptr <= x -> (align | x) -> round_up ptr align <= x.
Proof.
  intros Ha Hle [q ->]. destruct (round_up_spec ptr align Ha) as [[_ Hlt] [r Hr]].
  rewrite Hr in *. apply Z.mul_le_mono_nonneg_r; [lia|].
  destruct (Z.le_gt_cases r q); [done|]. nia.
Qed.

Lemma round_up_multiple ptr align : 0 < align -> (align | ptr) -> round_up ptr align = ptr.
Proof.
  intros Ha Hd. pose proof (round_up_least ptr align ptr Ha (Z.le_refl _) Hd).
  destruct (round_up_spec ptr align Ha). lia.
Qed.

Lemma align_to_wrap ptr align :
  0 <= ptr < 2 ^ 64 -> pow2 align -> align <= 2 ^ 64 ->
  align_to ptr align = Ok (wrap 64 (round_up ptr align)).
Proof.
  intros Hp (n & Hn & ->) Ha. unfold align_to. rewrite sub64_ok by lia. simpl. f_equal.
  rewrite lor_ones by done. unfold round_up.
  rewrite Z.sub_add.
  assert (n <= 64) as Hn64.
  { destruct (Z.le_gt_cases n 64); [done|]. pose proof (Z.pow_lt_mono_r 2 64 n). lia. }
  destruct (Z.eq_dec ptr 0) as [->|].
  - assert (wrap 64 (0 - 1) = 2 ^ 64 - 1) as -> by done.
    assert (2 ^ 64 = 2 ^ (64 - n) * 2 ^ n) as E.
    { rewrite <- Z.pow_add_r by lia. f_equal. lia. }
    assert ((2 ^ 64 - 1) / 2 ^ n = 2 ^ (64 - n) - 1) as ->.
    { symmetry. apply Z.div_unique with (r := 2 ^ n - 1); [lia|]. rewrite E. lia. }
    assert ((0 - 1) / 2 ^ n = -1) as ->.
    { symmetry. apply Z.div_unique with (r := 2 ^ n - 1); lia. }
    unfold wrap. replace ((2 ^ (64 - n) - 1 + 1) * 2 ^ n) with (2 ^ 64) by lia.
    rewrite Z.mod_same by lia. done.
  - by rewrite (wrap_small 64 (ptr - 1)) by lia.
Qed.

(** Away from the top of the address space nothing wraps. *)
Lemma align_to_ok ptr align :
  0 <= ptr -> pow2 align -> ptr + align <= 2 ^ 64 ->
  align_to ptr align = Ok (round_up ptr align).
Proof.
  intros Hp Ha Hle. pose proof (pow2_pos _ Ha).
  destruct (round_up_spec ptr align ltac:(done)).
  rewrite align_to_wrap by (done || lia). f_equal. apply wrap_small. lia.
Qed.

(** ** Well-formed layouts *)

(** What [from_bits] asserts, and what every other constructor keeps. *)
Definition wf (l : Layout) : Prop := 0 <= bits l /\ 8 <= bit_align l /\ pow2 (bit_align l).

Lemma from_bits_Ok b a l : from_bits b a = Ok l <-> l = MkLayout b a /\ 8 <= a /\ pow2 a.
Proof.
  unfold from_bits. rewrite <- is_power_of_two_spec. split.
  - intros H. res_inv. zb. done.
  - intros (-> & Ha & Hp). rewrite (proj2 (Z.leb_le _ _) Ha), Hp. done.
Qed.

Lemma pow2_divide_8 a : 8 <= a -> pow2 a -> (8 | a).
Proof.
  intros Ha (n & Hn & ->). exists (2 ^ (n - 3)).
  assert (3 <= n).
  { destruct (Z.le_gt_cases 3 n); [done|]. assert (n <= 2) by lia.
    pose proof (Z.pow_le_mono_r 2 n 2). lia. }
  change 8 with (2 ^ 3). rewrite <- Z.pow_add_r by lia. f_equal. lia.
Qed.

Lemma pow2_max a b : pow2 a -> pow2 b -> pow2 (Z.max a b).
Proof. intros. by destruct (Z.max_spec a b) as [[_ ->]|[_ ->]]. Qed.

Lemma pow2_8 : pow2 8.
Proof. by exists 3. Qed.
#[export] Hint Resolve pow2_8 pow2_max pow2_pos : sim.

(** [extend] puts the new field after everything before it, aligned as its own
    layout asks, with less padding than one alignment unit. *)
Lemma extend_none_spec self other :
  wf self -> wf other ->
  bits self + bit_align other + bits other < 2 ^ 63 ->
  exists l off, extend self PNone other = Ok (l, off) /\ wf l /\
    bits self <= off < bits self + bit_align other /\ (bit_align other | off) /\
    bits l = off + bits other /\ bit_align l = Z.max (bit_align self) (bit_align other).
Proof.
  intros (Hb & Ha & Hp) (Hb' & Ha' & Hp') Hlt. unfold extend.
  rewrite align_to_ok by (done || lia). simpl.
  destruct (round_up_spec (bits self) (bit_align other) ltac:(lia)) as [Hr Hd].
  rewrite add64_ok by lia. simpl. eexists _, _. split; [done|]. simpl.
  rewrite to_signed_small by lia. split_and!; try done; try lia.
  split_and!; simpl; [lia|lia|]. by apply pow2_max.
Qed.

Lemma extend_byte_spec self other :
  wf self -> wf other -> bits self + 8 + bits other < 2 ^ 63 ->
  exists l off, extend self PByte other = Ok (l, off) /\ wf l /\
    bits self <= off < bits self + 8 /\ (8 | off) /\
    bits l = off + bits other /\ bit_align l = 8.
Proof.
  intros (Hb & Ha & Hp) (Hb' & Ha' & Hp') Hlt. unfold extend.
  rewrite align_to_ok by (auto with sim || lia). simpl.
  destruct (round_up_spec (bits self) 8 ltac:(lia)) as [Hr Hd].
  rewrite add64_ok by lia. simpl. eexists _, _. split; [done|]. simpl.
  rewrite to_signed_small by lia. split_and!; try done; try lia.
  split_and!; simpl; [lia|lia|]. apply pow2_8.
Qed.

Lemma pad_to_align_spec l :
  wf l -> bits l + bit_align l <= 2 ^ 64 ->
  pad_to_align l = Ok (MkLayout (round_up (bits l) (bit_align l)) (bit_align l)).
Proof.
  intros (Hb & Ha & Hp) Hlt. unfold pad_to_align. rewrite align_to_ok by (done || lia).
  simpl. by apply from_bits_Ok.
Qed.

(** ** Theorems *)

(** [align_to] computes the least multiple of the alignment that is not
    below the pointer whenever that multiple fits the address space; for the
    last, partial unit of the address space it wraps around to 0. *)
Theorem align_to_least (ptr align : Z)
    (Hp : 0 <= ptr < 2 ^ 64) (Ha : pow2 align) (Ha64 : align <= 2 ^ 63) :
  exists r, align_to ptr align = Ok r /\ (align | r) /\
    (ptr <= 2 ^ 64 - align -> ptr <= r < ptr + align /\
       forall x, ptr <= x -> (align | x) -> r <= x) /\
    (2 ^ 64 - align < ptr -> r = 0).
Proof.
  pose proof (pow2_pos _ Ha) as Hpos. rewrite align_to_wrap by (done || lia).
  destruct (round_up_spec ptr align Hpos) as [Hr Hd]. eexists. split; [done|].
  assert (align | 2 ^ 64) as Hdiv.
  { destruct Ha as (n & Hn & ->). exists (2 ^ (64 - n)).
    assert (n <= 64).
    { destruct (Z.le_gt_cases n 64); [done|]. pose proof (Z.pow_lt_mono_r 2 64 n). lia. }
    rewrite <- Z.pow_add_r by lia. f_equal. lia. }
  destruct (Z.le_gt_cases ptr (2 ^ 64 - align)) as [Hle|Hgt].
  - rewrite wrap_small by lia. split_and!; [done| |lia]. intros _. split; [lia|].
    intros x Hx Hdx. by apply round_up_least.
  - assert (round_up ptr align = 2 ^ 64) as ->.
    { pose proof (round_up_least ptr align (2 ^ 64) Hpos ltac:(lia) Hdiv).
      destruct Hd as [q Hq], Hdiv as [t Ht].
      assert (q <= t) by (apply (Z.mul_le_mono_pos_r _ _ align); lia).
      assert (t - 1 < q) by (apply (Z.mul_lt_mono_pos_r align); lia).
      assert (q = t) as -> by lia. lia. }
    unfold wrap. rewrite Z.mod_same by lia. split_and!; [apply Z.divide_0_r|lia|done].
Qed.

Lemma align_to_least_witness :
  align_to 129 64 = Ok 192 /\ align_to (2 ^ 64 - 3) 8 = Ok 0 /\
  exists r, align_to 129 64 = Ok r /\ (64 | r) /\
    (129 <= 2 ^ 64 - 64 -> 129 <= r < 129 + 64 /\
       forall x, 129 <= x -> (64 | x) -> r <= x) /\
    (2 ^ 64 - 64 < 129 -> r = 0).
Proof.
  split; [vm_compute; reflexivity|]. split; [vm_compute; reflexivity|].
  apply (align_to_least 129 64); [lia|exists 6; split; [lia|reflexivity]|lia].
Defined.
