(* ===== verification/Bitvec.v ===== *)
(** * Bitvec: bytes, and the interface of the bitvec crate

    src/src/value.rs reads and writes parts of its bytes through
    [BitSlice<Lsb0, u8>] of the third-party crate bitvec. Its two operations the
    source uses are the parameters [bv_copy] and [bv_store] of the class
    [Bitvec]; [BitvecLaws] states their documented behaviour, bit by bit. The
    instance [bitvec_ref] satisfies the laws and makes the model executable. *)

From S2P Require Import Prelude.

(** ** Bytes and little-endian integers *)

Definition is_byte (b : Z) : Prop := 0 <= b < 256.
Abbreviation bytes_ok := (Forall is_byte).

(** Bit [i] of a byte slice in the Lsb0 order: bit [i mod 8] of byte [i / 8]. *)
Definition bit_of (l : list Z) (i : Z) : bool :=
  match zget l (i / 8) with Some b => Z.testbit b (i mod 8) | None => false end.

(** [u128::from_le_bytes], on any number of bytes. *)
Fixpoint from_le_bytes (l : list Z) : Z :=
  match l with
  | [] => 0
  | b :: l' => b + 256 * from_le_bytes l'
  end.

Lemma zget_cons {A} (a : A) l i : zget (a :: l) i = if i =? 0 then Some a else zget l (i - 1).
Proof.
  unfold zget. destruct (Z.eqb_spec i 0) as [->|]; [done|].
  repeat zcase; [|lia|lia|done].
  replace (Z.to_nat i) with (S (Z.to_nat (i - 1))) by lia. done.
Qed.

Lemma bit_of_cons b l i : 0 <= i -> bit_of (b :: l) i = if i <? 8 then Z.testbit b i else bit_of l (i - 8).
Proof.
  intros Hi. unfold bit_of. rewrite zget_cons. destruct (Z.ltb_spec i 8).
  - rewrite Z.div_small by lia. simpl. by rewrite Z.mod_small by lia.
  - assert (i / 8 = (i - 8) / 8 + 1) as -> by (rewrite <- Z.div_add by lia; f_equal; lia).
    assert (i mod 8 = (i - 8) mod 8) as ->
      by (rewrite <- (Z.mod_add (i - 8) 1) by lia; f_equal; lia).
    pose proof (Z.div_pos (i - 8) 8). destruct (Z.eqb_spec ((i - 8) / 8 + 1) 0); [lia|].
    by rewrite Z.add_simpl_r.
Qed.

Lemma bit_of_ge l i : 8 * zlen l <= i -> bit_of l i = false.
Proof.
  intros Hi. unfold bit_of. destruct (zget l (i / 8)) eqn:E; [|done].
  apply zget_Some_bounds in E. exfalso.
  assert (zlen l <= i / 8); [apply Z.div_le_lower_bound; lia | lia].
Qed.

Lemma byte_testbit_high b i : is_byte b -> 8 <= i -> Z.testbit b i = false.
Proof.
  intros Hb Hi. rewrite <- (Z.mod_small b (2 ^ 8)) by exact Hb. by apply Z.mod_pow2_bits_high.
Qed.

Lemma from_le_bytes_testbit l i : bytes_ok l -> 0 <= i -> Z.testbit (from_le_bytes l) i = bit_of l i.
Proof.
  revert i. induction l as [|b l IH]; intros i Hl Hi; cbn [from_le_bytes].
  { rewrite Z.bits_0. unfold bit_of, zget. by destruct (0 <=? i / 8). }
  apply Forall_cons in Hl as [Hb Hl]. rewrite bit_of_cons by done.
  assert (b + 256 * from_le_bytes l = Z.lor b (Z.shiftl (from_le_bytes l) 8)) as ->.
  { rewrite <- Z.lxor_lor, <- Z.add_nocarry_lxor; [rewrite Z.shiftl_mul_pow2; lia| |];
      apply Z.bits_inj'; intros j Hj; rewrite Z.land_spec, Z.bits_0, Z.shiftl_spec by done;
      (destruct (Z.ltb_spec j 8);
       [rewrite (Z.testbit_neg_r _ (j - 8)) by lia; apply andb_false_r
       |by rewrite byte_testbit_high]). }
  rewrite Z.lor_spec, Z.shiftl_spec by done. destruct (Z.ltb_spec i 8).
  - rewrite (Z.testbit_neg_r _ (i - 8)) by lia. apply orb_false_r.
  - rewrite byte_testbit_high by done. simpl. apply IH; [done|lia].
Qed.

Lemma from_le_bytes_bounds l : bytes_ok l -> 0 <= from_le_bytes l < 2 ^ (8 * zlen l).
Proof.
  induction l as [|b l IH]; intros Hl; [by vm_compute|].
  apply Forall_cons in Hl as [Hb Hl]. specialize (IH Hl). unfold is_byte in Hb.
  cbn [from_le_bytes].
  assert (8 * zlen (b :: l) = 8 + 8 * zlen l) as -> by (unfold zlen; simpl; lia).
  rewrite Z.pow_add_r by (pose proof (zlen_nonneg l); lia). lia.
Qed.

(** Bytes are determined by their bits. *)
Lemma bytes_ext l1 l2 :
  bytes_ok l1 -> bytes_ok l2 -> zlen l1 = zlen l2 ->
  (forall i, 0 <= i < 8 * zlen l1 -> bit_of l1 i = bit_of l2 i) -> l1 = l2.
Proof.
  intros H1 H2 Hlen H. apply zget_ext; [done|]. intros i Hi.
  destruct (zget_in_bounds l1 i Hi) as [b1 Hb1].
  destruct (zget_in_bounds l2 i ltac:(lia)) as [b2 Hb2]. rewrite Hb1, Hb2. f_equal.
  assert (forall l b, bytes_ok l -> zget l i = Some b -> is_byte b) as Hbyte.
  { intros l b Hl. unfold zget. destruct (0 <=? i); [|done]. by apply Forall_lookup_1. }
  pose proof (Hbyte _ _ H1 Hb1). pose proof (Hbyte _ _ H2 Hb2).
  apply Z.bits_inj'. intros j Hj. destruct (Z.ltb_spec j 8).
  - specialize (H (i * 8 + j) ltac:(lia)). unfold bit_of in H.
    rewrite Z.div_add_l, Z.div_small, Z.add_0_r, Hb1, Hb2 in H by lia.
    rewrite Z.add_comm, Z.mod_add, Z.mod_small in H by lia. done.
  - by rewrite !byte_testbit_high.
Qed.

(** ** The crate's interface *)

(** [bv_copy dst lo src slo len] is [dst[lo..lo+len].copy_from_bitslice(&src[slo..slo+len])];
    [bv_store dst lo hi v] is [dst[lo..hi].store(v)]: the bytes of [dst] afterwards. *)
Class Bitvec := {
  bv_copy : list Z -> Z -> list Z -> Z -> Z -> list Z;
  bv_store : list Z -> Z -> Z -> Z -> list Z
}.

(** [r] is [dst] with the bits [lo..hi] replaced by [f]. *)
Definition bits_replaced (dst : list Z) (lo hi : Z) (f : Z -> bool) (r : list Z) : Prop :=
  zlen r = zlen dst /\ bytes_ok r /\
  forall i, 0 <= i < 8 * zlen dst ->
    bit_of r i = if (lo <=? i) && (i <? hi) then f (i - lo) else bit_of dst i.

Class BitvecLaws `{Bitvec} : Prop := {
  bv_copy_law : forall dst lo src slo len,
    bytes_ok dst -> bytes_ok src -> 0 <= len ->
    0 <= lo -> lo + len <= 8 * zlen dst -> 0 <= slo -> slo + len <= 8 * zlen src ->
    bits_replaced dst lo (lo + len) (fun j => bit_of src (slo + j)) (bv_copy dst lo src slo len);
  bv_store_law : forall dst lo hi v,
    bytes_ok dst -> 0 <= lo -> lo < hi -> hi <= 8 * zlen dst -> hi - lo <= 128 ->
    0 <= v < 2 ^ 128 ->
    bits_replaced dst lo hi (Z.testbit v) (bv_store dst lo hi v)
}.

(** ** An implementation of the interface *)

(** The byte whose bits are [f 0 .. f (n-1)]. *)
Fixpoint byte_of_bits (n : nat) (f : Z -> bool) : Z :=
  match n with
  | O => 0
  | S n => Z.lor (byte_of_bits n f) (Z.shiftl (Z.b2z (f (Z.of_nat n))) (Z.of_nat n))
  end.

Definition of_bits (len : nat) (f : Z -> bool) : list Z :=
  map (fun k => byte_of_bits 8 (fun i => f (8 * Z.of_nat k + i))) (seq 0 len).

Definition replace_bits (dst : list Z) (lo hi : Z) (f : Z -> bool) : list Z :=
  of_bits (length dst) (fun i => if (lo <=? i) && (i <? hi) then f (i - lo) else bit_of dst i).

#[export] Instance bitvec_ref : Bitvec := {
  bv_copy dst lo src slo len := replace_bits dst lo (lo + len) (fun j => bit_of src (slo + j));
  bv_store dst lo hi v := replace_bits dst lo hi (Z.testbit v)
}.

Lemma byte_of_bits_spec n f i :
  0 <= i -> Z.testbit (byte_of_bits n f) i = if i <? Z.of_nat n then f i else false.
Proof.
  intros Hi. induction n as [|n IH]; cbn [byte_of_bits].
  { rewrite Z.bits_0. zcase; [simpl in *; lia|done]. }
  rewrite Z.lor_spec, IH, Z.shiftl_spec by done.
  assert (forall b k, Z.testbit (Z.b2z b) k = (k =? 0) && b) as Hb2z.
  { intros b k. destruct (Z.eqb_spec k 0) as [->|]; [by destruct b|].
    destruct b; simpl; [|apply Z.bits_0]. destruct (Z.ltb_spec k 0).
    - by apply Z.testbit_neg_r.
    - change 1 with (2 ^ 0). by apply Z.pow2_bits_false. }
  rewrite Hb2z.
  destruct (Z.ltb_spec i (Z.of_nat n)), (Z.ltb_spec i (Z.of_nat (S n))),
    (Z.eqb_spec (i - Z.of_nat n) 0); simpl; try lia; rewrite ?orb_false_r; try done.
  f_equal. lia.
Qed.

Lemma byte_of_bits_byte f : is_byte (byte_of_bits 8 f).
Proof.
  assert (byte_of_bits 8 f = byte_of_bits 8 f mod 2 ^ 8) as ->; [|by apply Z.mod_pos_bound].
  apply Z.bits_inj'. intros i Hi. destruct (Z.ltb_spec i 8).
  - by rewrite Z.mod_pow2_bits_low.
  - rewrite Z.mod_pow2_bits_high, byte_of_bits_spec by lia.
    destruct (Z.ltb_spec i (Z.of_nat 8)); [lia|done].
Qed.

Lemma of_bits_spec n f i : 0 <= i < 8 * Z.of_nat n -> bit_of (of_bits n f) i = f i.
Proof.
  intros Hi. unfold bit_of, of_bits, zget.
  assert (0 <= i / 8 < Z.of_nat n) as Hd.
  { split; [apply Z.div_pos; lia|apply Z.div_lt_upper_bound; lia]. }
  destruct (Z.leb_spec 0 (i / 8)); [|lia].
  change (map ?g ?l) with (g <$> l). rewrite list_lookup_fmap, lookup_seq_lt by lia.
  pose proof (Z.mod_pos_bound i 8 ltac:(lia)).
  cbn [fmap option_fmap option_map]. rewrite byte_of_bits_spec by lia.
  destruct (Z.ltb_spec (i mod 8) (Z.of_nat 8)); [|lia].
  f_equal. rewrite Nat.add_0_l, Z2Nat.id by lia. pose proof (Z.div_mod i 8). lia.
Qed.

Lemma of_bits_bytes n f : bytes_ok (of_bits n f).
Proof. apply Forall_forall. intros b Hb%list_elem_of_In%List.in_map_iff. destruct Hb as (k & <- & _). apply byte_of_bits_byte. Qed.

Lemma replace_bits_spec dst lo hi f : bits_replaced dst lo hi f (replace_bits dst lo hi f).
Proof.
  unfold replace_bits. split_and!.
  - unfold zlen, of_bits. by rewrite List.length_map, List.length_seq.
  - apply of_bits_bytes.
  - intros i Hi. by apply of_bits_spec.
Qed.

#[export] Instance bitvec_ref_laws : BitvecLaws.
Proof. constructor; intros; apply replace_bits_spec. Qed.
