(* ===== verification/Value.v ===== *)
(** * Value: src/src/value.rs

    The values the simulated program computes with: bytes and a width in bits.
    Reads and writes of parts of a value go through the bitvec interface of
    [Bitvec]; the bit [i] of a value is [vbit v i]. [SmallVec<[u8; 16]>] holds
    the bytes like a [Vec]. *)

From S2P Require Import Prelude Text Bitvec Layout.

(** [struct Value] *)
Record Value := MkValue { imp : list Z; bits : Z }.

#[export] Instance Value_eq_dec : EqDecision Value.
Proof. solve_decision. Defined.

Definition add_u64_i64 (x y : Z) : res Z :=
  if y <? 0
  then let! n := chk_s 64 (- y) in sub64 x (wrap 64 n)
  else add64 x (wrap 64 y).

(** ** Reading integers *)

Definition as_u128 (v : Value) : Z :=
  match imp v with
  | [] => 0
  | _ => from_le_bytes (take 16 (imp v))
  end.

Definition unwrap_int (v : Value) (expected_bits : Z) : res Z :=
  assert! bits v =? expected_bits or AssertFailed in Ok (as_u128 v).

Definition unwrap_bool (v : Value) : res bool :=
  let! x := unwrap_int v 1 in Ok (negb (x =? 0)).
(** [unwrap_u8] .. [unwrap_u128]: the cast keeps the low [w] bits. *)
Definition unwrap_u (w : Z) (v : Value) : res Z :=
  let! x := unwrap_int v w in Ok (wrap w x).
(** [unwrap_i8] .. [unwrap_i128] *)
Definition unwrap_i (w : Z) (v : Value) : res Z :=
  let! x := unwrap_int v w in Ok (to_signed w x).

Definition as_i128 (v : Value) : res Z :=
  match bits v with
  | 8 => unwrap_i 8 v
  | 16 => unwrap_i 16 v
  | 32 => unwrap_i 32 v
  | 64 => unwrap_i 64 v
  | 128 => unwrap_i 128 v
  | _ => Panic Todo
  end.

Definition as_u64 (v : Value) : Z := wrap 64 (as_u128 v).
Definition as_i64 (v : Value) : res Z := let! x := as_i128 v in Ok (to_signed 64 x).

(** ** Building values *)

Definition zero (bits : Z) : res Value :=
  let! n := add64 bits 7 in
  Ok (MkValue (replicate (Z.to_nat (n / 8)) 0) bits).

Definition as_bytes (v : Value) : list Z := imp v.

Definition from_bytes (bytes : list Z) (bits : Z) : res Value :=
  let! n := add64 bits 7 in
  assert! zlen bytes =? n / 8 or AssertFailed in
  Ok (MkValue bytes bits).

Definition from_bytes_exact (bytes : list Z) : res Value :=
  let! b := mul64 (zlen bytes) 8 in from_bytes bytes b.

(** The slice [&self[lo..hi]] exists: [Index<Range<u64>>] and its siblings. *)
Definition sub_ok (v : Value) (lo hi : Z) : bool :=
  (0 <=? lo) && (lo <=? hi) && (hi <=? bits v) && (bits v <=? 8 * zlen (imp v)).

Section WithBitvec.
Context {BV : Bitvec}.

(** [dst[dlo..dhi].copy_from_bitslice(&src[slo..shi])] *)
Definition copy_bits (dst : Value) (dlo dhi : Z) (src : Value) (slo shi : Z) : res Value :=
  assert! sub_ok dst dlo dhi or OutOfRange in
  assert! sub_ok src slo shi or OutOfRange in
  assert! dhi - dlo =? shi - slo or AssertFailed in
  Ok (MkValue (bv_copy (imp dst) dlo (imp src) slo (dhi - dlo)) (bits dst)).

(** [from_bits(&src[lo..hi])] *)
Definition from_bits (src : Value) (lo hi : Z) : res Value :=
  assert! sub_ok src lo hi or OutOfRange in
  let! result := zero (hi - lo) in
  copy_bits result 0 (bits result) src lo hi.

Definition new (bits_ value : Z) : res Value :=
  let! result := zero bits_ in
  if 0 <? bits_ then
    let hi := Z.min bits_ 128 in
    assert! sub_ok result 0 hi or OutOfRange in
    Ok (MkValue (bv_store (imp result) 0 hi value) (bits result))
  else Ok result.

(** [From<iN>], [From<uN>], [From<usize>]: the value is cast to u128 first. *)
Definition from_int (w x : Z) : res Value := new w (wrap 128 x).
Definition from_bool (b : bool) : res Value := new 1 (Z.b2z b).
Definition from_unit : res Value := new 0 0.

Definition extract_bits (self : Value) (offset len : Z) : res Value :=
  if (Z.rem offset 8 =? 0) && (len mod 8 =? 0) then
    let! hi := chk_s 64 (Z.quot offset 8 + Z.quot (to_signed 64 len) 8) in
    let! s := slice (imp self) (wrap 64 (Z.quot offset 8)) (wrap 64 hi) in
    from_bytes_exact s
  else
    let lo := wrap 64 offset in
    let! hi := add64 lo len in
    from_bits self lo hi.

Definition insert_bits (self : Value) (offset : Z) (value : Value) : res Value :=
  let lo := wrap 64 offset in
  let! hi := add64 lo (bits value) in
  copy_bits self lo hi value 0 (bits value).

Definition ucast (self : Value) (layout : Layout) : res Value :=
  let! result := zero (Layout.bits layout) in
  let len := Z.min (bits self) (Layout.bits layout) in
  copy_bits result 0 len self 0 len.
End WithBitvec.

(** ** Debug output *)

(** [impl Debug for Value] *)
Definition debug (self : Value) : res text :=
  if bits self =? 0 then Ok "()"
  else if bits self =? 1 then let! b := unwrap_bool self in Ok (if b then "true" else "false")
  else
    assert! bits self mod 8 =? 0 or AssertFailed in
    Ok (hex (imp self)).

(** The widths that can be printed. *)
Definition printable_width (bits : Z) : bool := (bits =? 0) || (bits =? 1) || (bits mod 8 =? 0).
Definition printable (self : Value) : bool := printable_width (bits self).

Lemma debug_printable v : printable v = true -> exists s, debug v = Ok s.
Proof.
  unfold printable, printable_width, debug, unwrap_bool, unwrap_int. destruct (bits v =? 0); [by eexists|].
  destruct (bits v =? 1) eqn:H1; cbn [guard_ bind orb]; [by eexists|].
  intros ->. by eexists.
Qed.

Lemma debug_unprintable v : printable v = false -> debug v = Panic AssertFailed.
Proof.
  unfold printable, printable_width, debug. destruct (bits v =? 0); [done|]. destruct (bits v =? 1); [done|].
  cbn [orb]. by intros ->.
Qed.

Lemma debug_Ok v s : debug v = Ok s -> printable v = true.
Proof. intros H. destruct (printable v) eqn:E; [done|]. by rewrite (debug_unprintable v E) in H. Qed.

Lemma printable_bytes v : bits v mod 8 = 0 -> printable v = true.
Proof. intros H. unfold printable, printable_width. by rewrite H, orb_true_r. Qed.

Lemma printable_mul l n : printable (MkValue l (n * 8)) = true.
Proof. apply printable_bytes. apply Z.mod_mul. lia. Qed.

(** Integers have the width they were made with. *)
Lemma new_bits {BV : Bitvec} b x v : new b x = Ok v -> bits v = b.
Proof.
  unfold new, zero. intros (r & (n & _ & [= <-])%bind_Ok & H)%bind_Ok. destruct (0 <? b).
  - apply bind_Ok in H as (u & _ & [= <-]). done.
  - by injection H as <-.
Qed.

Lemma from_int_printable {BV : Bitvec} w x v : w mod 8 = 0 -> from_int w x = Ok v -> printable v = true.
Proof. unfold from_int. intros Hw Hv%new_bits. apply printable_bytes. by rewrite Hv. Qed.

Lemma from_unit_printable {BV : Bitvec} v : from_unit = Ok v -> printable v = true.
Proof. unfold from_unit. intros Hv%new_bits. unfold printable, printable_width. by rewrite Hv. Qed.

(** ** Well-formed values and their bits *)

Definition vbit (v : Value) (i : Z) : bool := bit_of (imp v) i.

(** As many bytes as the width needs. *)
Definition wf (v : Value) : Prop :=
  0 <= bits v /\ bits v + 7 < 2 ^ 64 /\ zlen (imp v) = (bits v + 7) / 8 /\ bytes_ok (imp v).

(** Moreover the bits above the width are 0. *)
Definition canonical (v : Value) : Prop :=
  wf v /\ forall i, bits v <= i < 8 * zlen (imp v) -> vbit v i = false.

Lemma wf_len v : wf v -> bits v <= 8 * zlen (imp v) < bits v + 8.
Proof.
  intros (? & ? & -> & _). pose proof (Z.div_mod (bits v + 7) 8 ltac:(lia)).
  pose proof (Z.mod_pos_bound (bits v + 7) 8 ltac:(lia)). lia.
Qed.

Lemma canonical_wf v : canonical v -> wf v.
Proof. by intros [? _]. Qed.
#[export] Hint Resolve canonical_wf : sim.

(** A width that is a multiple of 8 leaves no padding. *)
Lemma wf_canonical v : wf v -> bits v mod 8 = 0 -> canonical v.
Proof.
  intros Hwf Hm. split; [done|]. pose proof (wf_len v Hwf) as Hlen.
  destruct Hwf as (H0 & _ & _ & _). pose proof (Z.div_mod (bits v) 8 ltac:(lia)). lia.
Qed.

Lemma vbit_ge v i : 8 * zlen (imp v) <= i -> vbit v i = false.
Proof. apply bit_of_ge. Qed.

Lemma canonical_vbit v i : canonical v -> bits v <= i -> vbit v i = false.
Proof.
  intros [Hwf Hc] Hi. destruct (Z.lt_ge_cases i (8 * zlen (imp v))); [auto|by apply vbit_ge].
Qed.

Lemma value_ext v1 v2 :
  canonical v1 -> canonical v2 -> bits v1 = bits v2 ->
  (forall i, 0 <= i < bits v1 -> vbit v1 i = vbit v2 i) -> v1 = v2.
Proof.
  intros H1 H2 Hb Hbit. pose proof H1 as [(_ & _ & Hl1 & Hb1) _].
  pose proof H2 as [(_ & _ & Hl2 & Hb2) _]. destruct v1 as [i1 b1], v2 as [i2 b2].
  simpl in *. subst b2. f_equal. apply bytes_ext; [done|done|congruence|].
  intros i Hi. destruct (Z.lt_ge_cases i b1); [apply Hbit; lia|].
  pose proof (canonical_vbit _ i H1). pose proof (canonical_vbit _ i H2).
  unfold vbit in *. simpl in *. rewrite H0, H3; done.
Qed.

Lemma take_bytes n l : bytes_ok l -> bytes_ok (take n l).
Proof. apply Forall_take. Qed.

Lemma bit_of_take l n i :
  0 <= n -> 0 <= i -> bit_of (take (Z.to_nat n) l) i = if i <? 8 * n then bit_of l i else false.
Proof.
  intros Hn Hi. unfold bit_of. destruct (Z.ltb_spec i (8 * n)).
  - rewrite zget_take; [done|]. apply Z.div_lt_upper_bound; lia.
  - unfold zget. destruct (0 <=? i / 8); [|done]. rewrite lookup_take_ge; [done|].
    assert (n <= i / 8) by (apply Z.div_le_lower_bound; lia). lia.
Qed.

Lemma bit_of_drop l n i :
  0 <= n -> 0 <= i -> bit_of (drop (Z.to_nat n) l) i = bit_of l (8 * n + i).
Proof.
  intros Hn Hi. unfold bit_of. rewrite zget_drop by (done || apply Z.div_pos; lia).
  rewrite (Z.mul_comm 8 n), Z.div_add_l by lia.
  rewrite (Z.add_comm (n * 8) i), Z.mod_add by lia. done.
Qed.

(** The integer a value stands for is read off its first 128 bits. *)
Lemma as_u128_testbit v i :
  wf v -> 0 <= i -> Z.testbit (as_u128 v) i = if i <? 128 then vbit v i else false.
Proof.
  intros (_ & _ & _ & Hb) Hi. unfold as_u128, vbit.
  destruct (imp v) as [|b l] eqn:E.
  - rewrite Z.bits_0. unfold bit_of, zget. destruct (0 <=? i / 8); by destruct (i <? 128).
  - rewrite from_le_bytes_testbit by (done || by apply take_bytes).
    change 16%nat with (Z.to_nat 16). rewrite bit_of_take by lia. done.
Qed.

Lemma as_u128_bounds v : wf v -> 0 <= as_u128 v < 2 ^ 128.
Proof.
  intros (_ & _ & _ & Hb). unfold as_u128. destruct (imp v) as [|b l] eqn:E; [lia|].
  pose proof (from_le_bytes_bounds (take 16 (b :: l)) (take_bytes _ _ Hb)) as [H0 H1].
  split; [done|]. eapply Z.lt_le_trans; [exact H1|]. apply Z.pow_le_mono_r; [lia|].
  unfold zlen. rewrite length_take. lia.
Qed.

Lemma sub_ok_spec v lo hi :
  wf v -> sub_ok v lo hi = true <-> 0 <= lo /\ lo <= hi /\ hi <= bits v.
Proof.
  intros Hwf. pose proof (wf_len v Hwf). unfold sub_ok.
  rewrite !andb_true_iff, !Z.leb_le. split; [tauto|]. intros. split_and!; lia.
Qed.

Lemma zero_spec b :
  0 <= b -> b + 7 < 2 ^ 64 ->
  exists v, zero b = Ok v /\ canonical v /\ bits v = b /\ forall i, vbit v i = false.
Proof.
  intros Hb Hlt. unfold zero. rewrite add64_ok by lia. simpl.
  pose proof (Z.div_pos (b + 7) 8 ltac:(lia) ltac:(lia)).
  assert (forall i, bit_of (replicate (Z.to_nat ((b + 7) / 8)) 0) i = false) as Hz.
  { intros i. unfold bit_of, zget. destruct (0 <=? i / 8); [|done].
    destruct (_ !! _) as [x|] eqn:E; [|done]. apply lookup_replicate in E as [-> _].
    apply Z.bits_0. }
  eexists. split; [done|]. split; [|done]. split; [|intros i _; apply Hz].
  split_and!; simpl; [lia|lia|by apply zlen_replicate|].
  apply Forall_replicate. unfold is_byte. lia.
Qed.

Section Lemmas.
Context `{BVL : BitvecLaws}.

(** Writing a part of a value. *)
Lemma copy_bits_spec dst dlo dhi src slo shi :
  wf dst -> wf src -> 0 <= dlo <= dhi -> dhi <= bits dst -> 0 <= slo -> shi <= bits src ->
  dhi - dlo = shi - slo ->
  exists r, copy_bits dst dlo dhi src slo shi = Ok r /\ wf r /\ bits r = bits dst /\
    zlen (imp r) = zlen (imp dst) /\
    forall i, 0 <= i -> vbit r i =
      if (dlo <=? i) && (i <? dhi) then vbit src (slo + (i - dlo)) else vbit dst i.
Proof.
  intros Hd Hs Hdr Hdb Hsr Hsb Heq. unfold copy_bits.
  rewrite (proj2 (sub_ok_spec dst dlo dhi Hd)) by lia.
  rewrite (proj2 (sub_ok_spec src slo shi Hs)) by lia.
  rewrite (proj2 (Z.eqb_eq _ _) Heq). simpl.
  pose proof (wf_len dst Hd). pose proof (wf_len src Hs).
  pose proof Hd as (Hd0 & Hd1 & Hdl & Hdby). pose proof Hs as (Hs0 & Hs1 & Hsl & Hsby).
  destruct (bv_copy_law (imp dst) dlo (imp src) slo (dhi - dlo) Hdby Hsby)
    as (Hlen & Hbytes & Hbit); [lia..|].
  replace (dlo + (dhi - dlo)) with dhi in Hbit by lia.
  eexists. split; [done|]. split; [split_and!; simpl; [lia|lia|congruence|done]|].
  split_and!; [done|done|]. intros i Hi. unfold vbit. simpl.
  destruct (Z.lt_ge_cases i (8 * zlen (imp dst))) as [Hlt|Hge]; [by apply Hbit; lia|].
  rewrite bit_of_ge by lia. destruct (Z.leb_spec dlo i), (Z.ltb_spec i dhi); simpl; try lia;
    by rewrite bit_of_ge.
Qed.

Lemma from_bits_spec src lo hi :
  wf src -> 0 <= lo <= hi -> hi <= bits src ->
  exists r, from_bits src lo hi = Ok r /\ canonical r /\ bits r = hi - lo /\
    forall i, 0 <= i -> vbit r i = if i <? hi - lo then vbit src (lo + i) else false.
Proof.
  intros Hs Hlo Hhi. unfold from_bits. pose proof Hs as (? & ? & _).
  rewrite (proj2 (sub_ok_spec src lo hi Hs)) by lia. simpl.
  destruct (zero_spec (hi - lo)) as (z & -> & Hz & Hzb & Hzbit); [lia..|]. simpl.
  destruct (copy_bits_spec z 0 (bits z) src lo hi) as (r & -> & Hr & Hrb & Hrl & Hbit);
    [auto with sim|done|lia..|].
  assert (forall i, 0 <= i -> vbit r i = if i <? hi - lo then vbit src (lo + i) else false) as Hvb.
  { intros i Hi. rewrite Hbit by done. rewrite Hzb. destruct (Z.leb_spec 0 i); [|lia]. simpl.
    destruct (i <? hi - lo); [|apply Hzbit]. f_equal. lia. }
  exists r. split; [done|]. split; [split; [done|]|by split; [congruence|]].
  intros i Hi. pose proof (zlen_nonneg (imp r)). destruct Hr as (? & _).
  rewrite Hvb by lia. destruct (Z.ltb_spec i (hi - lo)); [lia|done].
Qed.

Lemma new_spec b x :
  0 <= b -> b + 7 < 2 ^ 64 -> 0 <= x < 2 ^ 128 ->
  exists v, new b x = Ok v /\ canonical v /\ bits v = b /\
    forall i, 0 <= i -> vbit v i = if i <? Z.min b 128 then Z.testbit x i else false.
Proof.
  intros Hb Hlt Hx. unfold new.
  destruct (zero_spec b Hb Hlt) as (z & -> & Hz & Hzb & Hzbit). simpl.
  pose proof (wf_len z ltac:(auto with sim)). pose proof Hz as [(Hz0 & Hz1 & Hzl & Hzby) _].
  destruct (Z.ltb_spec 0 b).
  - rewrite (proj2 (sub_ok_spec z 0 (Z.min b 128) ltac:(auto with sim))) by lia. simpl.
    destruct (bv_store_law (imp z) 0 (Z.min b 128) x Hzby) as (Hlen & Hbytes & Hbit); [lia..|].
    assert (forall i, 0 <= i -> bit_of (bv_store (imp z) 0 (Z.min b 128) x) i =
              if i <? Z.min b 128 then Z.testbit x i else false) as Hvb.
    { intros i Hi. destruct (Z.lt_ge_cases i (8 * zlen (imp z))) as [Hl|Hg].
      - rewrite Hbit by lia. destruct (Z.leb_spec 0 i); [|lia]. simpl.
        rewrite Z.sub_0_r. destruct (i <? Z.min b 128); [done|apply Hzbit].
      - rewrite bit_of_ge by lia. destruct (Z.ltb_spec i (Z.min b 128)); [lia|done]. }
    eexists. split; [done|]. split; [|split; [simpl; lia|intros i Hi; by apply Hvb]].
    split; [split_and!; simpl; [lia|lia|congruence|done]|].
    simpl. intros i Hi. unfold vbit. simpl. rewrite Hvb by lia.
    destruct (Z.ltb_spec i (Z.min b 128)); [lia|done].
  - exists z. split_and!; [done..|]. intros i Hi. rewrite Hzbit.
    destruct (Z.ltb_spec i (Z.min b 128)); [lia|done].
Qed.

Lemma insert_bits_spec self off v :
  wf self -> wf v -> 0 <= off -> off + bits v <= bits self ->
  exists r, insert_bits self off v = Ok r /\ wf r /\ bits r = bits self /\
    zlen (imp r) = zlen (imp self) /\
    forall i, 0 <= i -> vbit r i =
      if (off <=? i) && (i <? off + bits v) then vbit v (i - off) else vbit self i.
Proof.
  intros Hs Hv Ho Hle. unfold insert_bits.
  pose proof Hs as (? & ? & _). pose proof Hv as (? & ? & _).
  rewrite wrap_small by lia. rewrite add64_ok by lia. simpl.
  destruct (copy_bits_spec self off (off + bits v) v 0 (bits v)) as (r & -> & Hr & Hb & Hl & Hbit);
    [done|done|lia..|].
  exists r. split_and!; [done..|]. intros i Hi. rewrite Hbit by done. by rewrite Z.add_0_l.
Qed.

Lemma extract_bits_spec self off len :
  wf self -> 0 <= off -> 0 <= len -> off + len <= bits self -> bits self < 2 ^ 63 ->
  exists r, extract_bits self off len = Ok r /\ canonical r /\ bits r = len /\
    forall i, 0 <= i -> vbit r i = if i <? len then vbit self (off + i) else false.
Proof.
  intros Hs Ho Hl Hle Hlt. pose proof Hs as (? & ? & Hlen & Hby). unfold extract_bits.
  rewrite Z.rem_mod_nonneg by lia.
  destruct (Z.eqb_spec (off mod 8) 0) as [Hm1|], (Z.eqb_spec (len mod 8) 0) as [Hm2|]; simpl.
  1: { rewrite !Z.quot_div_nonneg by (rewrite ?to_signed_small by lia; lia).
    rewrite to_signed_small by lia.
    pose proof (Z.div_mod off 8 ltac:(lia)). pose proof (Z.div_mod len 8 ltac:(lia)).
    rewrite (proj2 (chk_s_Ok 64 _ _)) by (split; [done|lia]). simpl.
    rewrite !wrap_small by lia. pose proof (wf_len self Hs).
    rewrite (proj2 (slice_Ok _ _ _ _)) by (split_and!; [lia|lia|lia|done]). simpl.
    set (s := take _ _). assert (zlen s = len / 8) as Hsl.
    { unfold s. rewrite zlen_take; [lia|]. rewrite zlen_drop; lia. }
    unfold from_bytes_exact, from_bytes. rewrite Hsl, mul64_ok by lia. simpl.
    rewrite add64_ok by lia. simpl.
    replace (len / 8 * 8 + 7) with (7 + len / 8 * 8) by lia. rewrite Z.div_add by lia.
    change (7 / 8) with 0. rewrite Z.add_0_l, Z.eqb_refl. simpl.
    assert (wf (MkValue s (len / 8 * 8))) as Hwf.
    { split_and!; simpl; [lia|lia| |].
      - replace (len / 8 * 8 + 7) with (7 + len / 8 * 8) by lia. rewrite Z.div_add by lia. done.
      - unfold s. by apply Forall_take, Forall_drop. }
    eexists. split; [done|]. split_and!.
    - apply wf_canonical; [done|]. simpl. apply Z.mod_mul. lia.
    - simpl. lia.
    - intros i Hi. unfold vbit, s. simpl.
      rewrite bit_of_take by lia. destruct (Z.ltb_spec i (8 * (off / 8 + len / 8 - off / 8))),
        (Z.ltb_spec i len); try lia.
      rewrite bit_of_drop by lia. f_equal. lia. }
  all: rewrite wrap_small by lia; rewrite add64_ok by lia; simpl;
    destruct (from_bits_spec self off (off + len) Hs ltac:(lia) Hle) as (r & -> & Hr & Hb & Hbit);
    exists r; (split_and!; [done|done|lia|]); intros i Hi; rewrite Hbit by done;
    by replace (off + len - off) with len by lia.
Qed.

Lemma ucast_spec self l :
  wf self -> 0 <= Layout.bits l -> Layout.bits l + 7 < 2 ^ 64 ->
  exists r, ucast self l = Ok r /\ canonical r /\ bits r = Layout.bits l /\
    forall i, 0 <= i ->
      vbit r i = if i <? Z.min (bits self) (Layout.bits l) then vbit self i else false.
Proof.
  intros Hs H0 H1. unfold ucast. pose proof Hs as (? & ? & _).
  destruct (zero_spec (Layout.bits l)) as (z & -> & Hz & Hzb & Hzbit); [done..|]. simpl.
  destruct (copy_bits_spec z 0 (Z.min (bits self) (Layout.bits l)) self 0
              (Z.min (bits self) (Layout.bits l))) as (r & -> & Hr & Hb & Hl & Hbit);
    [auto with sim|done|lia..|].
  assert (forall i, 0 <= i ->
      vbit r i = if i <? Z.min (bits self) (Layout.bits l) then vbit self i else false) as Hvb.
  { intros i Hi. rewrite Hbit by done. destruct (Z.leb_spec 0 i); [|lia]. simpl.
    destruct (i <? _); [|apply Hzbit]. f_equal. lia. }
  exists r. split; [done|]. split; [split; [done|]|by split; [congruence|]].
  intros i Hi. rewrite Hvb by lia. destruct (Z.ltb_spec i (Z.min (bits self) (Layout.bits l))); [lia|done].
Qed.
End Lemmas.

(** The integer of a value from its bits. *)
Lemma as_u128_eq v x :
  wf v -> 0 <= x < 2 ^ 128 -> (forall i, 0 <= i < 128 -> vbit v i = Z.testbit x i) ->
  as_u128 v = x.
Proof.
  intros Hwf Hx H. apply Z.bits_inj'. intros i Hi. rewrite as_u128_testbit by done.
  destruct (Z.ltb_spec i 128); [by apply H|].
  rewrite <- (Z.mod_small x (2 ^ 128)) by done. by rewrite Z.mod_pow2_bits_high.
Qed.

Lemma as_u128_canonical v : canonical v -> bits v <= 128 -> 0 <= as_u128 v < 2 ^ bits v.
Proof.
  intros Hc Hle. pose proof Hc as [Hwf _]. pose proof Hwf as (H0 & _).
  assert (as_u128 v = as_u128 v mod 2 ^ bits v) as ->; [|apply Z.mod_pos_bound; lia].
  apply Z.bits_inj'. intros i Hi. destruct (Z.lt_ge_cases i (bits v)).
  - by rewrite Z.mod_pow2_bits_low.
  - rewrite Z.mod_pow2_bits_high, as_u128_testbit by (done || lia).
    destruct (i <? 128); [|done]. by apply canonical_vbit.
Qed.

(** Values of at most 128 bits are equal when they have the same integer. *)
Lemma canonical_inj v1 v2 :
  canonical v1 -> canonical v2 -> bits v1 = bits v2 -> bits v1 <= 128 ->
  as_u128 v1 = as_u128 v2 -> v1 = v2.
Proof.
  intros H1 H2 Hb Hle Heq. apply value_ext; [done..|]. intros i Hi.
  assert (Z.testbit (as_u128 v1) i = Z.testbit (as_u128 v2) i) as Ht by by rewrite Heq.
  rewrite !as_u128_testbit in Ht by (auto with sim || lia).
  by destruct (Z.ltb_spec i 128); [|lia].
Qed.

Section Integers.
Context `{BVL : BitvecLaws}.

Lemma new_int b x :
  0 <= b <= 128 -> 0 <= x < 2 ^ 128 ->
  exists v, new b x = Ok v /\ canonical v /\ bits v = b /\ as_u128 v = wrap b x.
Proof.
  intros Hb Hx. destruct (new_spec b x) as (v & Hn & Hc & Hbv & Hbit); [lia..|].
  exists v. split_and!; [done..|]. pose proof (wrap_bounds b x ltac:(lia)).
  assert (2 ^ b <= 2 ^ 128) by (apply Z.pow_le_mono_r; lia).
  apply as_u128_eq; [auto with sim|lia|]. intros i Hi. rewrite Hbit by lia.
  unfold wrap. destruct (Z.ltb_spec i (Z.min b 128)).
  - by rewrite Z.mod_pow2_bits_low by lia.
  - by rewrite Z.mod_pow2_bits_high by lia.
Qed.

Lemma wrap_wrap w1 w2 x : 0 <= w1 <= w2 -> wrap w1 (wrap w2 x) = wrap w1 x.
Proof.
  intros Hw. unfold wrap. apply Z.bits_inj'. intros i Hi.
  destruct (Z.lt_ge_cases i w1).
  - by rewrite !Z.mod_pow2_bits_low by lia.
  - by rewrite !Z.mod_pow2_bits_high by lia.
Qed.

Lemma from_int_spec w x :
  0 <= w <= 128 ->
  exists v, from_int w x = Ok v /\ canonical v /\ bits v = w /\ as_u128 v = wrap w x.
Proof.
  intros Hw. unfold from_int. pose proof (wrap_bounds 128 x ltac:(lia)).
  destruct (new_int w (wrap 128 x)) as (v & ? & ? & ? & Hu); [lia..|].
  exists v. split_and!; [done..|]. by rewrite Hu, wrap_wrap.
Qed.

Lemma ucast_int v l :
  canonical v -> 0 <= Layout.bits l -> bits v <= 128 -> Layout.bits l <= 128 ->
  exists r, ucast v l = Ok r /\ canonical r /\ bits r = Layout.bits l /\
    as_u128 r = wrap (Layout.bits l) (as_u128 v).
Proof.
  intros Hc H0 Hv Hl. pose proof Hc as [Hwf _].
  destruct (ucast_spec v l Hwf) as (r & ? & Hr & Hb & Hbit); [lia..|].
  exists r. split_and!; [done..|].
  pose proof (wrap_bounds (Layout.bits l) (as_u128 v) H0).
  assert (2 ^ Layout.bits l <= 2 ^ 128) by (apply Z.pow_le_mono_r; lia).
  apply as_u128_eq; [auto with sim|lia|]. intros i Hi. rewrite Hbit by lia. unfold wrap.
  destruct (Z.lt_ge_cases i (Layout.bits l)).
  - rewrite Z.mod_pow2_bits_low, as_u128_testbit by (done || lia).
    destruct (Z.ltb_spec i 128); [|lia].
    destruct (Z.ltb_spec i (Z.min (bits v) (Layout.bits l))); [done|].
    symmetry. apply canonical_vbit; [done|lia].
  - rewrite Z.mod_pow2_bits_high by lia.
    destruct (Z.ltb_spec i (Z.min (bits v) (Layout.bits l))); [lia|done].
Qed.
End Integers.

(** ** Theorems *)

(** The widths the source unwraps integers at. *)
Definition int_width (w : Z) : bool := bool_decide (w ∈ [8; 16; 32; 64; 128]).

(** An integer of any of Rust's widths, signed or unsigned, survives being
    made a [Value] and read back at its width; read at another width it panics. *)
Theorem integer_roundtrip `{BVL : BitvecLaws} (w x : Z) (Hw : int_width w) :
  exists v, from_int w x = Ok v /\ canonical v /\ bits v = w /\
    (0 <= x < 2 ^ w -> unwrap_u w v = Ok x) /\
    (- 2 ^ (w - 1) <= x < 2 ^ (w - 1) -> unwrap_i w v = Ok x /\ as_i128 v = Ok x) /\
    (forall w', w' <> w -> unwrap_u w' v = Panic AssertFailed).
Proof.
  apply bool_decide_unpack in Hw.
  assert (1 <= w <= 128) as Hr by (repeat (apply elem_of_cons in Hw as [->|Hw]; [lia|]); by apply elem_of_nil in Hw).
  destruct (from_int_spec w x ltac:(lia)) as (v & Hf & Hc & Hb & Hu).
  assert (unwrap_i w v = Ok (to_signed w x)) as Hi.
  { unfold unwrap_i, unwrap_int. rewrite Hb, Z.eqb_refl. simpl. rewrite Hu. unfold to_signed.
    by rewrite wrap_wrap by lia. }
  exists v. split_and!; [done..| | |].
  - intros Hx. unfold unwrap_u, unwrap_int. rewrite Hb, Z.eqb_refl. simpl.
    by rewrite Hu, wrap_wrap, wrap_small by lia.
  - intros Hx. rewrite to_signed_small in Hi by lia. split; [done|].
    unfold as_i128. rewrite Hb. clear -Hw Hi.
    repeat (apply elem_of_cons in Hw as [->|Hw]; [done|]). by apply elem_of_nil in Hw.
  - intros w' Hne. unfold unwrap_u, unwrap_int. rewrite Hb.
    destruct (Z.eqb_spec w w'); [congruence|done].
Qed.

(** A part written into a value is read back unchanged, and every part that
    does not overlap it is what it was before. *)
Theorem insert_extract `{BVL : BitvecLaws} (self v : Value) (off : Z)
    (Hself : wf self) (Hv : canonical v) (Hoff : 0 <= off)
    (Hfit : off + bits v <= bits self) (Hsize : bits self < 2 ^ 63) :
  exists r, insert_bits self off v = Ok r /\ wf r /\ bits r = bits self /\
    extract_bits r off (bits v) = Ok v /\
    forall off' len, 0 <= off' -> 0 <= len -> off' + len <= bits self ->
      off' + len <= off \/ off + bits v <= off' ->
      extract_bits r off' len = extract_bits self off' len.
Proof.
  pose proof Hv as [Hvw _]. pose proof Hvw as (Hv0 & _).
  destruct (insert_bits_spec self off v Hself Hvw Hoff Hfit) as (r & Hi & Hr & Hb & Hl & Hbit).
  exists r. split_and!; [done..| |].
  - destruct (extract_bits_spec r off (bits v) Hr Hoff Hv0) as (e & -> & He & Heb & Hebit); [lia..|].
    f_equal. apply value_ext; [done..|]. intros i Hi'. rewrite Hebit by lia.
    destruct (Z.ltb_spec i (bits v)); [|lia]. rewrite Hbit by lia.
    destruct (Z.leb_spec off (off + i)), (Z.ltb_spec (off + i) (off + bits v)); simpl; try lia.
    f_equal. lia.
  - intros off' len Ho Hlen Hle Hdis.
    destruct (extract_bits_spec r off' len Hr Ho Hlen) as (e1 & -> & He1 & Hb1 & Hbit1); [lia..|].
    destruct (extract_bits_spec self off' len Hself Ho Hlen) as (e2 & -> & He2 & Hb2 & Hbit2); [lia..|].
    f_equal. apply value_ext; [done|done|congruence|]. intros i Hi'.
    rewrite Hbit1, Hbit2 by lia. destruct (Z.ltb_spec i len); [|done]. rewrite Hbit by lia.
    destruct (Z.leb_spec off (off' + i)), (Z.ltb_spec (off' + i) (off + bits v)); simpl; try done; lia.
Qed.

(** [ucast] truncates or zero-extends to the width of the layout. *)
Theorem ucast_trunc_zext `{BVL : BitvecLaws} (v : Value) (l : Layout)
    (Hv : canonical v) (Hvb : bits v <= 128) (Hl : 0 <= Layout.bits l <= 128) :
  exists r, ucast v l = Ok r /\ canonical r /\ bits r = Layout.bits l /\
    as_u128 r = as_u128 v mod 2 ^ Layout.bits l /\
    (bits v <= Layout.bits l -> as_u128 r = as_u128 v).
Proof.
  destruct (ucast_int v l Hv) as (r & Hu & Hr & Hb & Hint); [lia..|].
  exists r. split_and!; [done..|]. intros Hle. rewrite Hint. apply wrap_small.
  pose proof (as_u128_canonical v Hv Hvb).
  assert (2 ^ bits v <= 2 ^ Layout.bits l) by (apply Z.pow_le_mono_r; lia). lia.
Qed.

(** *** Witnesses, at the implementation [bitvec_ref] of the interface *)

Definition int_value (w x : Z) : Value :=
  match from_int w x with Ok v => v | Panic _ => MkValue [] 0 end.

Lemma int_value_canonical w x : 0 <= w <= 128 -> canonical (int_value w x).
Proof. intros Hw. unfold int_value. by destruct (from_int_spec w x Hw) as (v & -> & ? & _). Qed.

Lemma integer_roundtrip_witness :
  from_int 16 (-2) = Ok (MkValue [254; 255] 16) /\
  exists v, from_int 16 (-2) = Ok v /\ canonical v /\ bits v = 16 /\
    (0 <= -2 < 2 ^ 16 -> unwrap_u 16 v = Ok (-2)) /\
    (- 2 ^ (16 - 1) <= -2 < 2 ^ (16 - 1) -> unwrap_i 16 v = Ok (-2) /\ as_i128 v = Ok (-2)) /\
    (forall w', w' <> 16 -> unwrap_u w' v = Panic AssertFailed).
Proof. split; [vm_compute; reflexivity|]. apply (integer_roundtrip 16 (-2)). vm_compute. exact I. Defined.

Lemma insert_extract_witness :
  insert_bits (int_value 32 0) 9 (int_value 8 255) = Ok (MkValue [0; 254; 1; 0] 32) /\
  exists r, insert_bits (int_value 32 0) 9 (int_value 8 255) = Ok r /\ wf r /\
    bits r = bits (int_value 32 0) /\
    extract_bits r 9 (bits (int_value 8 255)) = Ok (int_value 8 255) /\
    forall off' len, 0 <= off' -> 0 <= len -> off' + len <= bits (int_value 32 0) ->
      off' + len <= 9 \/ 9 + bits (int_value 8 255) <= off' ->
      extract_bits r off' len = extract_bits (int_value 32 0) off' len.
Proof.
  split; [vm_compute; reflexivity|].
  apply (insert_extract (int_value 32 0) (int_value 8 255) 9).
  - apply canonical_wf, int_value_canonical. lia.
  - apply int_value_canonical. lia.
  - lia.
  - vm_compute. discriminate.
  - vm_compute. reflexivity.
Defined.

Lemma ucast_trunc_zext_witness :
  ucast (int_value 32 66051) (MkLayout 16 16) = Ok (MkValue [3; 2] 16) /\
  exists r, ucast (int_value 32 66051) (MkLayout 16 16) = Ok r /\ canonical r /\
    bits r = Layout.bits (MkLayout 16 16) /\
    as_u128 r = as_u128 (int_value 32 66051) mod 2 ^ Layout.bits (MkLayout 16 16) /\
    (bits (int_value 32 66051) <= Layout.bits (MkLayout 16 16) ->
       as_u128 r = as_u128 (int_value 32 66051)).
Proof.
  split; [vm_compute; reflexivity|].
  apply (ucast_trunc_zext (int_value 32 66051) (MkLayout 16 16)).
  - apply int_value_canonical. lia.
  - vm_compute. discriminate.
  - simpl. lia.
Defined.
