(* ===== verification/Memory.v ===== *)
(** * Memory: src/src/memory.rs

    The simulated memory: an interval map from addresses to the store that last
    wrote them ([Log]), each store keeping the stores it overwrote ([log_pred]),
    and a bump allocator. [byte_at] is the flat view of the memory, [history]
    the values a byte has held. The proofs go through the [RangeStore] laws. *)

From S2P Require Import Prelude RangeMap MemOrdering Layout Bitvec Value.

(** ** Data and operations *)

(** [struct LogInner], shared by [Log(ByAddress<Rc<LogInner>>)]; logs are never
    mutated, so sharing is not modelled. *)
Inductive Log := MkLog (start : Z) (value : list Z) (pred : list (Z * (Z * Log))).

Definition log_start (l : Log) : Z := let 'MkLog s _ _ := l in s.
Definition log_value (l : Log) : list Z := let 'MkLog _ v _ := l in v.
Definition log_pred (l : Log) : RangeMap Log := let 'MkLog _ _ p := l in p.

(** [struct MemoryInner] *)
Record MemoryInner := MkMemory { cells : RangeMap Log; next : Z }.

Definition HEAP_GUARD : Z := 128.

(** [Memory::new] *)
Definition mem_new : MemoryInner := MkMemory RangeMap.new 128.

Definition free (threadid ptr : Z) (this : MemoryInner) : MemoryInner := this.

Definition alloc (threadid : Z) (layout : Layout) (this : MemoryInner) : res (Z * MemoryInner) :=
  let! len := Layout.bytes layout in
  let! align := Layout.byte_align layout in
  let! result := align_to (next this) align in
  let! n := add64 result len in
  let! n := add64 n HEAP_GUARD in
  Ok (result, MkMemory (cells this) n).

Definition store_impl (threadid ptr : Z) (value : Value) (ordering : Ordering)
    (this : MemoryInner) : res MemoryInner :=
  let value := Value.as_bytes value in
  let! hi := add64 ptr (zlen value) in
  let! pieces := RangeMap.range ptr hi (cells this) in
  let! pred := RangeMap.from_iter pieces in
  let log := MkLog ptr value pred in
  let! cells := RangeMap.insert ptr hi log (cells this) in
  Ok (MkMemory cells (next this)).

(** The body of [load_impl]'s loop: the bytes of one piece are copied. *)
Definition load_piece (ptr : Z) (result : list Z) (rv : Z * Z * Log) : res (list Z) :=
  let '(r_start, r_end, v) := rv in
  let! dlo := sub64 r_start ptr in
  let! dhi := sub64 r_end ptr in
  let! slo := sub64 r_start (log_start v) in
  let! shi := sub64 r_end (log_start v) in
  let! src := slice (log_value v) slo shi in
  copy_slice result dlo dhi src.

#[local] Arguments load_piece : simpl never.

Definition load_impl (threadid ptr : Z) (layout : Layout) (ordering : Ordering)
    (this : MemoryInner) : res Value :=
  let! n := Layout.bytes layout in
  let! hi := add64 ptr n in
  let! result := Value.zero (Layout.bits layout) in
  let! pieces := RangeMap.range ptr hi (cells this) in
  let! imp := foldM (load_piece ptr) (Value.imp result) pieces in
  Ok (MkValue imp (Value.bits result)).

(** ** The flat view and the invariant *)

(** The byte at an address; memory that was never written reads as 0. *)
Definition byte_at (m : MemoryInner) (k : Z) : Z :=
  match get (cells m) k with
  | Some l => default 0 (zget (log_value l) (k - log_start l))
  | None => 0
  end.

(** A cell maps an address to a store that covers it. *)
Definition log_covers (l : Log) (k : Z) : Prop :=
  0 <= log_start l <= k /\ k < log_start l + zlen (log_value l) /\
  log_start l + zlen (log_value l) < 2 ^ 64 /\ bytes_ok (log_value l).

Definition mem_ok (m : MemoryInner) : Prop :=
  RangeMap.wf (cells m) /\ forall k l, get (cells m) k = Some l -> log_covers l k.

(** The values a byte has held along the chain of overwritten stores. *)
Fixpoint history (l : Log) (k : Z) : list Z :=
  let 'MkLog s v p := l in
  option_list (zget v (k - s)) ++
  (fix go (p : list (Z * (Z * Log))) : list Z :=
     match p with
     | [] => []
     | (e, (s', l')) :: p' => if (s' <=? k) && (k <? e) then history l' k else go p'
     end) p.

Definition mem_history (m : MemoryInner) (k : Z) : list Z :=
  match get (cells m) k with Some l => history l k | None => [] end.

Lemma history_unfold l k :
  history l k = option_list (zget (log_value l) (k - log_start l)) ++
    match get (log_pred l) k with Some l' => history l' k | None => [] end.
Proof.
  destruct l as [s v p]. simpl. f_equal.
  induction p as [|[e [s' l']] p IH]; simpl; [done|].
  by destruct ((s' <=? k) && (k <? e)).
Qed.

Lemma mem_new_ok : mem_ok mem_new.
Proof. split; [apply (rs_empty_ok (rng := range))|]. done. Qed.

(** ** Stores *)

Lemma store_cells t ptr v o m :
  mem_ok m -> bytes_ok (imp v) -> 0 <= ptr -> ptr + zlen (imp v) < 2 ^ 64 ->
  exists m' p, store_impl t ptr v o m = Ok m' /\ next m' = next m /\ mem_ok m' /\
    (forall k, get (cells m') k =
       if (ptr <=? k) && (k <? ptr + zlen (imp v)) then Some (MkLog ptr (imp v) p)
       else get (cells m) k) /\
    (forall k, ptr <= k < ptr + zlen (imp v) -> get p k = get (cells m) k).
Proof.
  intros [Hwf Hc] Hb Hp Hlt. unfold store_impl, as_bytes.
  pose proof (zlen_nonneg (imp v)).
  rewrite add64_ok by lia. simpl.
  destruct (collect_range (cells m) ptr (ptr + zlen (imp v)) Hwf) as (ps & p & -> & Hfi & Hwfp & Hg).
  simpl. rewrite Hfi. simpl.
  destruct (rs_insert ptr (ptr + zlen (imp v)) (MkLog ptr (imp v) p) (cells m) Hwf)
    as (c & -> & Hwfc & Hgc). simpl.
  eexists _, p. split_and!; [done|done| |done|].
  - split; [done|]. simpl. intros k l. rewrite Hgc.
    destruct (Z.leb_spec ptr k), (Z.ltb_spec k (ptr + zlen (imp v))); simpl; [|apply Hc..].
    intros [= <-]. unfold log_covers. simpl. split_and!; [lia..|done].
  - intros k Hk. rewrite Hg. destruct (Z.leb_spec ptr k), (Z.ltb_spec k (ptr + zlen (imp v)));
      simpl; done || lia.
Qed.

Lemma store_bytes t ptr v o m :
  mem_ok m -> bytes_ok (imp v) -> 0 <= ptr -> ptr + zlen (imp v) < 2 ^ 64 ->
  exists m', store_impl t ptr v o m = Ok m' /\ next m' = next m /\ mem_ok m' /\
    (forall k, byte_at m' k =
      if (ptr <=? k) && (k <? ptr + zlen (imp v)) then default 0 (zget (imp v) (k - ptr))
      else byte_at m k) /\
    (forall k, mem_history m' k =
      if (ptr <=? k) && (k <? ptr + zlen (imp v))
      then default 0 (zget (imp v) (k - ptr)) :: mem_history m k
      else mem_history m k).
Proof.
  intros Hm Hb Hp Hlt.
  destruct (store_cells t ptr v o m Hm Hb Hp Hlt) as (m' & p & -> & Hn & Hm' & Hg & Hpred).
  exists m'. split_and!; [done..| |].
  - intros k. unfold byte_at. rewrite Hg. by destruct (_ && _).
  - intros k. unfold mem_history. rewrite Hg.
    destruct (Z.leb_spec ptr k), (Z.ltb_spec k (ptr + zlen (imp v))); cbn [andb]; try done.
    rewrite history_unfold. cbn [log_value log_start log_pred]. rewrite Hpred by lia.
    destruct (zget_in_bounds (imp v) (k - ptr)) as [b ->]; [lia|]. done.
Qed.

(** ** Loads *)

Lemma load_piece_spec m ptr n result lo hi l :
  mem_ok m -> 0 <= ptr -> ptr + n < 2 ^ 64 -> zlen result = n ->
  ptr <= lo -> lo < hi -> hi <= ptr + n ->
  (forall k, lo <= k < hi -> get (cells m) k = Some l) ->
  exists result', load_piece ptr result (lo, hi, l) = Ok result' /\ zlen result' = n /\
    (bytes_ok result -> bytes_ok result') /\
    forall i, zget result' i =
      if (lo - ptr <=? i) && (i <? hi - ptr) then Some (byte_at m (ptr + i)) else zget result i.
Proof.
  intros [Hwf Hc] Hp Hn Hlen Hlo Hlt Hhi Hg.
  destruct (Hc lo l (Hg lo ltac:(lia))) as (Hs & _ & Hb & Hby).
  destruct (Hc (hi - 1) l (Hg (hi - 1) ltac:(lia))) as (_ & He & _ & _).
  unfold load_piece. rewrite !sub64_ok by lia. simpl.
  destruct (slice_ok (log_value l) (lo - log_start l) (hi - log_start l)) as (src & Hsl & Hsrc & Hget);
    [lia|lia|]. rewrite Hsl. simpl.
  destruct (copy_slice_ok result (lo - ptr) (hi - ptr) src) as (r & Hr & Hrl & Hrg); [lia..|].
  exists r. split_and!; [done|lia| |].
  - intros Hres. apply copy_slice_Ok in Hr as (_ & _ & _ & ->).
    apply slice_Ok in Hsl as (_ & _ & ->).
    rewrite !Forall_app. split_and!; repeat (apply Forall_take || apply Forall_drop); done.
  - intros i. rewrite Hrg. destruct (Z.leb_spec (lo - ptr) i), (Z.ltb_spec i (hi - ptr)); simpl; try done.
    rewrite Hget by lia. unfold byte_at. rewrite Hg by lia.
    replace (lo - log_start l + (i - (lo - ptr))) with (ptr + i - log_start l) by lia.
    destruct (zget_in_bounds (log_value l) (ptr + i - log_start l)) as [b ->]; [lia|done].
Qed.

Lemma load_pieces m ptr n ps result :
  mem_ok m -> 0 <= ptr -> ptr + n < 2 ^ 64 -> zlen result = n -> bytes_ok result ->
  (forall lo hi l, (lo, hi, l) ∈ ps -> ptr <= lo /\ lo < hi /\ hi <= ptr + n /\
     forall k, lo <= k < hi -> get (cells m) k = Some l) ->
  (forall i, 0 <= i < n -> zget result i = Some (byte_at m (ptr + i)) \/
     exists lo hi l, (lo, hi, l) ∈ ps /\ lo <= ptr + i < hi) ->
  exists result', foldM (load_piece ptr) result ps = Ok result' /\ zlen result' = n /\
    bytes_ok result' /\
    forall i, 0 <= i < n -> zget result' i = Some (byte_at m (ptr + i)).
Proof.
  intros Hm Hp Hn. revert result. induction ps as [|[[lo hi] l] ps IH]; intros result Hlen Hby Hps Hcov; simpl.
  - exists result. split_and!; [done..|]. intros i Hi.
    destruct (Hcov i Hi) as [?|(? & ? & ? & Hin & _)]; [done|]. by apply elem_of_nil in Hin.
  - destruct (Hps lo hi l) as (H1 & H2 & H3 & H4); [by left|].
    destruct (load_piece_spec m ptr n result lo hi l) as (r & -> & Hrl & Hrb & Hrg); [done..|]. simpl.
    apply IH; [done|auto|intros; apply Hps; by right|]. intros i Hi. rewrite Hrg.
    destruct (Z.leb_spec (lo - ptr) i), (Z.ltb_spec i (hi - ptr)); simpl; auto;
      (destruct (Hcov i Hi) as [?|(lo' & hi' & l' & [Heq|?]%elem_of_cons & Hb)];
        [by left|simplify_eq; lia|right; by eauto 10]).
Qed.

Lemma load_bytes t ptr lay o m :
  mem_ok m -> 0 <= ptr -> 0 <= Layout.bits lay -> Layout.bits lay + 7 < 2 ^ 64 ->
  ptr + (Layout.bits lay + 7) / 8 < 2 ^ 64 ->
  exists v, load_impl t ptr lay o m = Ok v /\ Value.wf v /\ bits v = Layout.bits lay /\
    forall i, 0 <= i < zlen (imp v) -> zget (imp v) i = Some (byte_at m (ptr + i)).
Proof.
  intros Hm Hp Hb Hb64 Hlt. pose proof Hm as [Hwf Hc].
  pose proof (Z.div_pos (Layout.bits lay + 7) 8 ltac:(lia) ltac:(lia)).
  unfold load_impl, Layout.bytes. rewrite add64_ok by lia. simpl.
  rewrite add64_ok by lia. simpl.
  destruct (zero_spec (Layout.bits lay) Hb Hb64) as (z & -> & Hz & Hzb & Hzbit). simpl.
  destruct Hz as [(_ & _ & Hzl & Hzby) _]. rewrite Hzb in Hzl.
  destruct (rs_range ptr (ptr + (Layout.bits lay + 7) / 8) (cells m) Hwf)
    as (ps & -> & _ & Hsound & Hcompl). simpl.
  destruct (load_pieces m ptr ((Layout.bits lay + 7) / 8) ps (imp z)) as (r & -> & Hrl & Hrb & Hrg);
    [done..|intros lo hi l Hin; by apply Hsound| |].
  - intros i Hi. destruct (get (cells m) (ptr + i)) as [l|] eqn:E.
    + right. destruct (Hcompl (ptr + i) l) as (lo & hi & ? & ?); [lia|done|eauto].
    + left. unfold byte_at. rewrite E.
      destruct (zget_in_bounds (imp z) i) as [b Hzi]; [lia|]. rewrite Hzi. f_equal.
      apply Z.bits_inj'. intros j Hj. rewrite Z.bits_0. destruct (Z.ltb_spec j 8).
      * specialize (Hzbit (i * 8 + j)). unfold vbit, bit_of in Hzbit.
        rewrite Z.div_add_l, (Z.div_small j 8), Z.add_0_r, Hzi in Hzbit by lia.
        rewrite Z.add_comm, Z.mod_add, Z.mod_small in Hzbit by lia. done.
      * apply byte_testbit_high; [|done]. unfold zget in Hzi. destruct (0 <=? i); [|done].
        by eapply Forall_lookup_1 in Hzby.
  - simpl. eexists. split; [done|]. simpl. split_and!; [|done|].
    + split_and!; simpl; [lia|lia|congruence|done].
    + intros i Hi. apply Hrg. lia.
Qed.

(** ** The allocator *)

Lemma byte_align_spec l :
  Layout.wf l -> Layout.bit_align l + 7 < 2 ^ 64 ->
  exists a, byte_align l = Ok a /\ pow2 a /\ 8 * a = Layout.bit_align l.
Proof.
  intros (_ & Ha & Hp) Hlt. unfold byte_align. rewrite add64_ok by lia. simpl.
  destruct (pow2_divide_8 _ Ha Hp) as [q Hq].
  assert ((Layout.bit_align l + 7) / 8 = q) as Hdiv.
  { rewrite Hq. symmetry. apply Z.div_unique with 7; lia. }
  exists q. split_and!; [by rewrite Hdiv| |lia].
  destruct Hp as (n & Hn & Hpn). exists (n - 3).
  assert (3 <= n).
  { destruct (Z.le_gt_cases 3 n); [done|]. pose proof (Z.pow_le_mono_r 2 n 2). lia. }
  split; [lia|]. apply (Z.mul_reg_l _ _ 8); [lia|].
  change 8 with (2 ^ 3) at 2. rewrite <- Z.pow_add_r by lia.
  replace (3 + (n - 3)) with n by lia. lia.
Qed.

(** The bytes a block needs at most: its size, its alignment and the guard. *)
Definition demand (l : Layout) : Z :=
  (Layout.bits l + 7) / 8 + Layout.bit_align l + HEAP_GUARD.

Lemma demand_pos l : Layout.wf l -> HEAP_GUARD < demand l.
Proof.
  intros (Hb & Ha & _). unfold demand. pose proof (Z.div_pos (Layout.bits l + 7) 8). lia.
Qed.

Lemma alloc_spec t l m :
  Layout.wf l -> Layout.bits l + 7 < 2 ^ 64 -> 0 <= next m -> next m + demand l < 2 ^ 64 ->
  exists p m', alloc t l m = Ok (p, m') /\ cells m' = cells m /\
    next m <= p /\ (Layout.bit_align l / 8 | p) /\
    next m' = p + (Layout.bits l + 7) / 8 + HEAP_GUARD /\ next m' <= next m + demand l.
Proof.
  intros Hwf Hbits Hn Hd. pose proof Hwf as (Hb & Ha & _). unfold demand, HEAP_GUARD in *.
  unfold alloc, Layout.bytes.
  pose proof (Z.div_pos (Layout.bits l + 7) 8 ltac:(lia) ltac:(lia)).
  rewrite add64_ok by lia. simpl.
  destruct (byte_align_spec l Hwf) as (a & -> & Hp & Hal); [lia|]. simpl.
  pose proof (pow2_pos _ Hp). rewrite align_to_ok by (done || lia). simpl.
  destruct (round_up_spec (next m) a) as [Hr Hdiv]; [done|].
  rewrite add64_ok by lia. simpl. rewrite add64_ok by (unfold HEAP_GUARD; lia). simpl.
  assert (Layout.bit_align l / 8 = a) as -> by (rewrite <- Hal, Z.mul_comm; by apply Z.div_mul).
  eexists _, _. split_and!; [done|done|lia|done|simpl; unfold HEAP_GUARD; lia|simpl; unfold HEAP_GUARD; lia].
Qed.

(** Allocating a list of layouts in turn: the blocks, as address and size. *)
Fixpoint alloc_all (t : Z) (ls : list Layout) (m : MemoryInner) : res (list (Z * Z) * MemoryInner) :=
  match ls with
  | [] => Ok ([], m)
  | l :: ls =>
      let! pm := alloc t l m in
      let! n := Layout.bytes l in
      let! r := alloc_all t ls pm.2 in
      Ok ((pm.1, n) :: r.1, r.2)
  end.

Lemma alloc_all_spec t ls m :
  Forall Layout.wf ls -> Forall (fun l => Layout.bits l + 7 < 2 ^ 64) ls -> 0 <= next m ->
  next m + foldr (fun l z => demand l + z) 0 ls < 2 ^ 64 ->
  exists bs m', alloc_all t ls m = Ok (bs, m') /\ cells m' = cells m /\
    Forall2 (fun b l => (Layout.bit_align l / 8 | b.1) /\ b.2 = (Layout.bits l + 7) / 8) bs ls /\
    StronglySorted (fun b c => b.1 + b.2 + HEAP_GUARD <= c.1) bs /\
    (forall b, b ∈ bs -> next m <= b.1 /\ b.1 + b.2 + HEAP_GUARD <= next m') /\
    next m <= next m' <= next m + foldr (fun l z => demand l + z) 0 ls.
Proof.
  revert m. induction ls as [|l ls IH]; intros m Hwf Hbits Hn Hsum; simpl in *.
  - exists [], m. split_and!; first [done | lia | set_solver | constructor].
  - apply Forall_cons in Hwf as [Hl Hwf]. apply Forall_cons in Hbits as [Hbl Hbits].
    assert (0 <= foldr (fun l z => demand l + z) 0 ls) as Hpos.
    { clear - Hwf. induction Hwf as [|l ls Hl _ IH]; simpl; [done|].
      pose proof (demand_pos l Hl). unfold HEAP_GUARD in *. lia. }
    destruct (alloc_spec t l m Hl Hbl Hn) as (p & m1 & -> & Hc1 & Hp & Hal & Hn1 & Hle); [lia|].
    simpl. pose proof Hl as (Hb0 & _ & _).
    pose proof (Z.div_pos (Layout.bits l + 7) 8 ltac:(lia) ltac:(lia)).
    unfold Layout.bytes. rewrite add64_ok by lia. simpl.
    destruct (IH m1) as (bs & m' & -> & Hc & Hbs & Hs & Hin & Hmono); [done|done|unfold HEAP_GUARD in *; lia|lia|].
    simpl. eexists _, m'. split_and!; [done|congruence|by constructor| | | |lia].
    + apply StronglySorted_cons. split; [|done]. apply Forall_forall. intros b Hb.
      destruct (Hin b Hb). simpl. lia.
    + intros b [->|Hb]%elem_of_cons; simpl; [lia|].
      destruct (Hin b Hb). unfold HEAP_GUARD in *. lia.
    + unfold HEAP_GUARD in *. lia.
Qed.

(** ** Theorems *)

(** A store as the data flow performs it. *)
Record store_op := StoreOp { so_thread : Z; so_ptr : Z; so_value : Value; so_order : Ordering }.

Definition store_op_ok (s : store_op) : Prop :=
  bytes_ok (imp (so_value s)) /\ 0 <= so_ptr s /\ so_ptr s + zlen (imp (so_value s)) < 2 ^ 64.

Definition do_store (m : MemoryInner) (s : store_op) : res MemoryInner :=
  store_impl (so_thread s) (so_ptr s) (so_value s) (so_order s) m.

Definition covers (s : store_op) (k : Z) : bool :=
  (so_ptr s <=? k) && (k <? so_ptr s + zlen (imp (so_value s))).
Definition stored_byte (s : store_op) (k : Z) : Z := default 0 (zget (imp (so_value s)) (k - so_ptr s)).

(** The flat memory: a total map from addresses to bytes. *)
Definition flat_store (f : Z -> Z) (s : store_op) : Z -> Z :=
  fun k => if covers s k then stored_byte s k else f k.

Lemma do_stores m ss :
  mem_ok m -> Forall store_op_ok ss ->
  exists m', foldM do_store m ss = Ok m' /\ mem_ok m' /\ next m' = next m /\
    (forall k, byte_at m' k = fold_left flat_store ss (byte_at m) k) /\
    (forall k, mem_history m' k =
       rev (map (fun s => stored_byte s k) (List.filter (fun s => covers s k) ss)) ++ mem_history m k).
Proof.
  revert m. induction ss as [|s ss IH]; intros m Hm Hok; cbn [foldM].
  { exists m. by split_and!. }
  apply Forall_cons in Hok as [(Hb & Hp & Hlt) Hok].
  destruct (store_bytes (so_thread s) (so_ptr s) (so_value s) (so_order s) m Hm Hb Hp Hlt)
    as (m1 & Hst & Hn1 & Hm1 & Hb1 & Hh1).
  unfold do_store at 1. rewrite Hst. cbn [bind].
  destruct (IH m1 Hm1 Hok) as (m' & -> & Hm' & Hn' & Hb' & Hh').
  exists m'. split_and!; [done|done|congruence| |].
  - intros k. rewrite Hb'. cbn [fold_left].
    assert (forall ss f g, (forall k, f k = g k) -> forall k, fold_left flat_store ss f k = fold_left flat_store ss g k) as Hext.
    { clear. intros ss. induction ss as [|s ss IH]; intros f g H k; [apply H|]. cbn [fold_left].
      apply IH. intros k'. unfold flat_store. by rewrite H. }
    apply Hext. intros k'. unfold flat_store. by rewrite Hb1.
  - intros k. rewrite Hh', Hh1. cbn [List.filter]. unfold covers at 2.
    destruct (_ && _); [|done]. cbn [map rev]. by rewrite <- app_assoc.
Qed.

(** C19: from the empty memory any sequence of stores inside the address space
    succeeds, and the interval map of logs denotes the flat memory obtained by
    overwriting bytes one store at a time: overlapping, nested and empty stores
    included, and memory never written reads as 0. *)
Theorem stores_refine_flat (ss : list store_op) (Hok : Forall store_op_ok ss) :
  exists m, foldM do_store mem_new ss = Ok m /\ mem_ok m /\
    forall k, byte_at m k = fold_left flat_store ss (fun _ => 0) k.
Proof.
  destruct (do_stores mem_new ss mem_new_ok Hok) as (m & Hf & Hm & _ & Hb & _).
  exists m. by split_and!.
Qed.

(** C20: the predecessor links of the logs record, byte by byte, every value
    ever stored there, newest first, although each store keeps only the parts
    of the older stores it overlaps. *)
Theorem logs_record_history (ss : list store_op) (Hok : Forall store_op_ok ss) (k : Z) :
  exists m, foldM do_store mem_new ss = Ok m /\
    mem_history m k = rev (map (fun s => stored_byte s k) (List.filter (fun s => covers s k) ss)).
Proof.
  destruct (do_stores mem_new ss mem_new_ok Hok) as (m & Hf & _ & _ & _ & Hh).
  exists m. split; [done|]. rewrite Hh. apply app_nil_r.
Qed.

Lemma load_stored m t ptr v o m' t' a o' :
  mem_ok m -> Value.wf v -> 0 <= ptr -> ptr + zlen (imp v) < 2 ^ 64 ->
  store_impl t ptr v o m = Ok m' -> load_impl t' ptr (MkLayout (bits v) a) o' m' = Ok v.
Proof.
  intros Hm Hv Hp Hlt Hst. pose proof Hv as (Hb0 & Hb64 & Hlen & Hby).
  destruct (store_bytes t ptr v o m Hm Hby Hp Hlt) as (m1 & Hst1 & _ & Hm' & Hbytes & _).
  rewrite Hst in Hst1. injection Hst1 as <-.
  destruct (load_bytes t' ptr (MkLayout (bits v) a) o' m') as (r & Hr & Hwf & Hbr & Hg);
    simpl in *; [done..|lia|].
  rewrite Hr. f_equal. destruct r as [ri rb], v as [vi vb]. simpl in *. subst rb. f_equal.
  pose proof Hwf as (_ & _ & Hrl & _). simpl in Hrl.
  apply zget_ext; [lia|]. intros i Hi. rewrite Hg by lia. rewrite Hbytes.
  destruct (Z.leb_spec ptr (ptr + i)), (Z.ltb_spec (ptr + i) (ptr + zlen vi)); try lia.
  simpl. replace (ptr + i - ptr) with i by lia.
  by destruct (zget_in_bounds vi i) as [b ->]; [lia|].
Qed.

(** A load that does not overlap a store is unaffected by it. *)
Lemma load_disjoint m t ptr v o m' t' q lay o' :
  mem_ok m -> bytes_ok (imp v) -> 0 <= ptr -> ptr + zlen (imp v) < 2 ^ 64 -> store_impl t ptr v o m = Ok m' ->
  0 <= q -> 0 <= Layout.bits lay -> Layout.bits lay + 7 < 2 ^ 64 -> q + (Layout.bits lay + 7) / 8 < 2 ^ 64 ->
  q + (Layout.bits lay + 7) / 8 <= ptr \/ ptr + zlen (imp v) <= q ->
  load_impl t' q lay o' m' = load_impl t' q lay o' m.
Proof.
  intros Hm Hby Hp Hlt Hst Hq Hl0 Hl64 Hql Hdisj.
  destruct (store_bytes t ptr v o m Hm Hby Hp Hlt) as (m1 & Hst1 & _ & Hm' & Hbytes & _).
  rewrite Hst in Hst1. injection Hst1 as <-.
  destruct (load_bytes t' q lay o' m' Hm' Hq Hl0 Hl64 Hql) as (r' & -> & Hwf' & Hbr' & Hg').
  destruct (load_bytes t' q lay o' m Hm Hq Hl0 Hl64 Hql) as (r & -> & Hwf & Hbr & Hg).
  f_equal. destruct r as [ri rb], r' as [ri' rb']. simpl in *. subst rb rb'. f_equal.
  pose proof Hwf as (_ & _ & Hrl & _). pose proof Hwf' as (_ & _ & Hrl' & _). simpl in Hrl, Hrl'.
  apply zget_ext; [lia|]. intros i Hi. rewrite Hg, Hg' by lia. f_equal. rewrite Hbytes.
  destruct (Z.leb_spec ptr (q + i)), (Z.ltb_spec (q + i) (ptr + zlen (imp v))); simpl; try done. lia.
Qed.

(** C21: in a memory satisfying the invariant, loading what was just stored
    gives back the value, whatever overlapped it before; and a load of any
    layout that does not overlap the store is unaffected by it. *)
Theorem load_after_store (m : MemoryInner) (t ptr : Z) (v : Value) (o : Ordering)
    (Hm : mem_ok m) (Hv : Value.wf v) (Hp : 0 <= ptr) (Hlt : ptr + zlen (imp v) < 2 ^ 64) :
  exists m', store_impl t ptr v o m = Ok m' /\ mem_ok m' /\
    (forall t' a o', load_impl t' ptr (MkLayout (bits v) a) o' m' = Ok v) /\
    (forall t' q lay o', 0 <= q -> 0 <= Layout.bits lay -> Layout.bits lay + 7 < 2 ^ 64 ->
       q + (Layout.bits lay + 7) / 8 < 2 ^ 64 ->
       q + (Layout.bits lay + 7) / 8 <= ptr \/ ptr + zlen (imp v) <= q ->
       load_impl t' q lay o' m' = load_impl t' q lay o' m).
Proof.
  pose proof Hv as (Hb0 & Hb64 & Hlen & Hby).
  destruct (store_bytes t ptr v o m Hm Hby Hp Hlt) as (m' & Hst & _ & Hm' & Hbytes & _).
  exists m'. split_and!; [done..| |].
  - intros t' a o'. by apply (load_stored m t ptr v o).
  - intros t' q lay o'. by apply (load_disjoint m t ptr v o).
Qed.

(** C22: as long as the demand of a list of layouts fits the address space,
    allocating them one after the other succeeds and gives blocks that are
    aligned as their layouts ask, start at or above the first free address,
    never overlap and are separated by guards of 128 bytes. *)
Theorem alloc_blocks (t : Z) (ls : list Layout)
    (Hwf : Forall Layout.wf ls) (Hbits : Forall (fun l => Layout.bits l + 7 < 2 ^ 64) ls)
    (Hsum : 128 + foldr (fun l z => demand l + z) 0 ls < 2 ^ 64) :
  exists bs m', alloc_all t ls mem_new = Ok (bs, m') /\
    Forall2 (fun b l => (Layout.bit_align l / 8 | b.1) /\ b.2 = (Layout.bits l + 7) / 8) bs ls /\
    StronglySorted (fun b c => b.1 + b.2 + 128 <= c.1) bs /\
    (forall b, b ∈ bs -> 128 <= b.1 /\ b.1 + b.2 < 2 ^ 64).
Proof.
  destruct (alloc_all_spec t ls mem_new Hwf Hbits) as (bs & m' & Hal & _ & Hbs & Hs & Hin & Hn);
    [done|simpl; lia|].
  exists bs, m'. split_and!; [done|done|exact Hs|]. intros b Hb.
  destruct (Hin b Hb) as [H1 H2]. simpl in H1. unfold HEAP_GUARD in H2. split; [done|].
  simpl in Hn. lia.
Qed.

(** ** Concrete runs *)

Definition sample_stores : list store_op :=
  [StoreOp 0 200 (MkValue [1; 2; 3; 4] 32) ONone; StoreOp 1 202 (MkValue [9; 8] 16) Relaxed;
   StoreOp 0 203 (MkValue [7] 8) Release].

Lemma sample_stores_ok : Forall store_op_ok sample_stores.
Proof.
  repeat constructor; simpl; try lia; unfold zlen; simpl; lia.
Qed.

Definition sample_memory : MemoryInner :=
  match foldM do_store mem_new sample_stores with Ok m => m | Panic _ => mem_new end.

Example sample_load :
  load_impl 0 198 (MkLayout 64 64) Acquire sample_memory = Ok (MkValue [0; 0; 1; 2; 9; 7; 0; 0] 64).
Proof. vm_compute. reflexivity. Qed.

Lemma sample_memory_ok : mem_ok sample_memory.
Proof.
  destruct (do_stores mem_new sample_stores mem_new_ok sample_stores_ok) as (m & Hf & Hm & _).
  unfold sample_memory. by rewrite Hf.
Qed.

Lemma stores_refine_flat_witness :
  exists m, foldM do_store mem_new sample_stores = Ok m /\ mem_ok m /\
    forall k, byte_at m k = fold_left flat_store sample_stores (fun _ => 0) k.
Proof. exact (stores_refine_flat sample_stores sample_stores_ok). Defined.

Lemma logs_record_history_witness :
  mem_history sample_memory 203 = [7; 8; 4] /\
  exists m, foldM do_store mem_new sample_stores = Ok m /\
    mem_history m 203 =
      rev (map (fun s => stored_byte s 203) (List.filter (fun s => covers s 203) sample_stores)).
Proof.
  split; [vm_compute; reflexivity|].
  exact (logs_record_history sample_stores sample_stores_ok 203).
Defined.

Lemma load_after_store_witness :
  exists m', store_impl 2 201 (MkValue [5; 6] 16) SeqCst sample_memory = Ok m' /\ mem_ok m' /\
    (forall t' a o', load_impl t' 201 (MkLayout 16 a) o' m' = Ok (MkValue [5; 6] 16)) /\
    (forall t' q lay o', 0 <= q -> 0 <= Layout.bits lay -> Layout.bits lay + 7 < 2 ^ 64 ->
       q + (Layout.bits lay + 7) / 8 < 2 ^ 64 ->
       q + (Layout.bits lay + 7) / 8 <= 201 \/ 201 + 2 <= q ->
       load_impl t' q lay o' m' = load_impl t' q lay o' sample_memory).
Proof.
  apply (load_after_store sample_memory 2 201 (MkValue [5; 6] 16) SeqCst sample_memory_ok);
    [|lia|vm_compute; reflexivity].
  split; [simpl; lia|]. split; [simpl; lia|]. split; [vm_compute; reflexivity|].
  repeat constructor; simpl; lia.
Defined.

Lemma alloc_blocks_witness :
  let ls := [MkLayout 32 32; MkLayout 8 8; MkLayout 4096 512] in
  alloc_all 0 ls mem_new = Ok ([(128, 4); (260, 1); (448, 512)], MkMemory RangeMap.new 1088) /\
  exists bs m', alloc_all 0 ls mem_new = Ok (bs, m') /\
    Forall2 (fun b l => (Layout.bit_align l / 8 | b.1) /\ b.2 = (Layout.bits l + 7) / 8) bs ls /\
    StronglySorted (fun b c => b.1 + b.2 + 128 <= c.1) bs /\
    (forall b, b ∈ bs -> 128 <= b.1 /\ b.1 + b.2 < 2 ^ 64).
Proof.
  split; [vm_compute; reflexivity|]. apply (alloc_blocks 0).
  - repeat constructor; simpl; try lia; [by exists 5|by exists 3|by exists 9].
  - repeat constructor; simpl; lia.
  - vm_compute. reflexivity.
Defined.
