(* ===== verification/Symbols.v ===== *)
(** * Symbols: src/src/symbols.rs, src/src/definition.rs

    The symbol table (names to definitions, addresses back to names), the table
    of function definitions and thread-local initialisers, and the part of
    src/src/process.rs that registers a symbol: it allocates the address and
    enters it in the tables. Addresses come from the bump allocator of [Memory],
    which is why the reverse map never sees the same address twice. *)

From S2P Require Import Prelude RangeMap Layout Value Memory.

(** ** Symbols *)

(** [ModuleId(usize)] and [ThreadLocalKey(usize)] are their numbers. *)
Inductive Symbol := External (name : string) | Internal (m : Z) (name : string).
Inductive SymbolDef := Global (address : Z) | ThreadLocal (key : Z).

#[export] Instance Symbol_eq_dec : EqDecision Symbol.
Proof. solve_decision. Defined.
#[export] Instance SymbolDef_eq_dec : EqDecision SymbolDef.
Proof. solve_decision. Defined.
#[export] Instance Symbol_countable : Countable Symbol.
Proof.
  apply (inj_countable'
    (fun s => match s with External n => inl n | Internal m n => inr (m, n) end)
    (fun x => match x with inl n => External n | inr (m, n) => Internal m n end)).
  by intros [].
Defined.

(** The variants of llvm_ir's [Linkage] and [ThreadLocalMode] the source names. *)
Inductive Linkage := LinkPrivate | LinkInternal | LinkExternal | LinkOther.
Inductive ThreadLocalMode := NotThreadLocal | ThreadLocalOther.

(** [Symbol::new] *)
Definition symbol_new (linkage : Linkage) (module : Z) (name : string) : res Symbol :=
  match linkage with
  | LinkPrivate | LinkInternal => Ok (Internal module name)
  | LinkExternal => Ok (External name)
  | LinkOther => Panic Todo
  end.

(** [SymbolDef::global] *)
Definition global (d : SymbolDef) : option Z :=
  match d with Global x => Some x | ThreadLocal _ => None end.

Record SymbolTable := MkSymbols {
  forward : gmap Symbol SymbolDef;
  reverse : gmap Z Symbol;
  next_thread_local_key : Z
}.

(** [SymbolTable::new] *)
Definition symbols_new : SymbolTable := MkSymbols ∅ ∅ 0.

(** ** Operations *)

Definition add_alias (name : Symbol) (address : Z) (this : SymbolTable) : res SymbolTable :=
  match forward this !! name with
  | Some occupied => assert! bool_decide (occupied = Global address) or AssertFailed in Ok this
  | None => Ok (MkSymbols (<[name := Global address]> (forward this)) (reverse this)
                  (next_thread_local_key this))
  end.

Definition try_reverse_lookup (address : Z) (this : SymbolTable) : option Symbol :=
  reverse this !! address.

Definition reverse_lookup (address : Z) (this : SymbolTable) : res Symbol :=
  match reverse this !! address with Some n => Ok n | None => Panic Explicit end.

Definition lookup (module : option Z) (name : string) (this : SymbolTable) : res SymbolDef :=
  let outer :=
    match forward this !! External name with
    | Some external => Ok external
    | None => unwrap (forward this !! External "explode")
    end in
  match module with
  | Some module =>
      match forward this !! Internal module name with
      | Some internal => Ok internal
      | None => outer
      end
  | None => outer
  end.

Definition lookup_symbol (sym : Symbol) (this : SymbolTable) : res SymbolDef :=
  match forward this !! sym with Some d => Ok d | None => Panic Explicit end.

Definition add_global (name : Symbol) (address : Z) (this : SymbolTable)
    : res (SymbolDef * SymbolTable) :=
  let def := Global address in
  assert! bool_decide (forward this !! name = None) or AssertFailed in
  assert! bool_decide (reverse this !! address = None) or AssertFailed in
  Ok (def, MkSymbols (<[name := def]> (forward this)) (<[address := name]> (reverse this))
             (next_thread_local_key this)).

Definition add_thread_local (name : Symbol) (this : SymbolTable) : res (SymbolDef * SymbolTable) :=
  let key := next_thread_local_key this in
  let! k := add64 key 1 in
  let def := ThreadLocal key in
  assert! bool_decide (forward this !! name = None) or AssertFailed in
  Ok (def, MkSymbols (<[name := def]> (forward this)) (reverse this) k).

(** ** Definitions: src/src/definition.rs *)

Section Definitions.
(** [Rc<dyn Func>] *)
Context {F : Type}.

Record Definitions := MkDefs {
  functions : gmap Z F;
  thread_local_inits : gmap Z (Layout * Value)
}.

Definition defs_new : Definitions := MkDefs ∅ ∅.

(** [reverse_lookup_fun]: [None] is the error value it returns. *)
Definition reverse_lookup_fun (address : Z) (this : Definitions) : option F :=
  functions this !! address.

Definition add_func (address : Z) (f : F) (this : Definitions) : res Definitions :=
  match functions this !! address with
  | Some _ => Panic AssertFailed
  | None => Ok (MkDefs (<[address := f]> (functions this)) (thread_local_inits this))
  end.

Definition add_thread_local_init (key : Z) (layout : Layout) (value : Value) (this : Definitions)
    : res Definitions :=
  match thread_local_inits this !! key with
  | Some _ => Panic AssertFailed
  | None => Ok (MkDefs (functions this) (<[key := (layout, value)]> (thread_local_inits this)))
  end.

Definition thread_local_init (key : Z) (this : Definitions) : res (Layout * Value) :=
  unwrap (thread_local_inits this !! key).

(** ** The registering part of [Process] *)

(** The tables of a process: fields [memory], [symbols] and [definitions]. *)
Record Tables := MkTables { memory : MemoryInner; symbols : SymbolTable; definitions : Definitions }.

Definition tables_new : Tables := MkTables mem_new symbols_new defs_new.

(** [Process::add_symbol] *)
Definition add_symbol (name : Symbol) (mode : ThreadLocalMode) (layout : Layout) (p : Tables)
    : res (SymbolDef * Tables) :=
  match mode with
  | NotThreadLocal =>
      let! (address, m) := alloc 0 layout (memory p) in
      let! (def, s) := add_global name address (symbols p) in
      Ok (def, MkTables m s (definitions p))
  | ThreadLocalOther =>
      let! (def, s) := add_thread_local name (symbols p) in
      Ok (def, MkTables (memory p) s (definitions p))
  end.

(** The body of [Process::add_native]'s loop, for a builtin's name and code. *)
Definition add_builtin (p : Tables) (b : string * F) : res Tables :=
  let! l := of_func in
  let! (address, p) := add_symbol (External b.1) NotThreadLocal l p in
  let! a := unwrap (global address) in
  let! d := add_func a b.2 (definitions p) in
  Ok (MkTables (memory p) (symbols p) d).

(** [Process::add_native]; [native::builtins()] is the argument. *)
Definition add_native (builtins : list (string * F)) (p : Tables) : res Tables :=
  foldM add_builtin p builtins.
End Definitions.
Arguments Definitions F : clear implicits.
Arguments Tables F : clear implicits.

(** ** The invariant *)

(** The reverse map inverts the forward map; keys are below the counter and
    name at most one symbol each. *)
Definition symbols_ok (t : SymbolTable) : Prop :=
  (forall a n, reverse t !! a = Some n -> forward t !! n = Some (Global a)) /\
  (forall n k, forward t !! n = Some (ThreadLocal k) -> 0 <= k < next_thread_local_key t) /\
  (forall n n' k, forward t !! n = Some (ThreadLocal k) ->
     forward t !! n' = Some (ThreadLocal k) -> n = n') /\
  0 <= next_thread_local_key t.

(** One call of a mutating operation. *)
Inductive sym_op :=
  | OpAlias (n : Symbol) (a : Z) | OpGlobal (n : Symbol) (a : Z) | OpThreadLocal (n : Symbol).

Definition sym_step (t : SymbolTable) (o : sym_op) : res SymbolTable :=
  match o with
  | OpAlias n a => add_alias n a t
  | OpGlobal n a => let! r := add_global n a t in Ok r.2
  | OpThreadLocal n => let! r := add_thread_local n t in Ok r.2
  end.

Lemma symbols_new_ok : symbols_ok symbols_new.
Proof. split_and!; simpl; intros; rewrite ?lookup_empty in *; done || lia. Qed.

Lemma add_global_Ok n a t d t' :
  add_global n a t = Ok (d, t') <->
  d = Global a /\ forward t !! n = None /\ reverse t !! a = None /\
  t' = MkSymbols (<[n := d]> (forward t)) (<[a := n]> (reverse t)) (next_thread_local_key t).
Proof.
  unfold add_global. split.
  - intros H. res_inv. repeat match goal with H : bool_decide _ = true |- _ => apply bool_decide_eq_true in H end.
    by simplify_eq.
  - intros (-> & Hf & Hr & ->). rewrite !bool_decide_eq_true_2 by done. done.
Qed.

Lemma add_thread_local_Ok n t d t' :
  add_thread_local n t = Ok (d, t') <->
  d = ThreadLocal (next_thread_local_key t) /\ forward t !! n = None /\
  0 <= next_thread_local_key t + 1 < 2 ^ 64 /\
  t' = MkSymbols (<[n := d]> (forward t)) (reverse t) (next_thread_local_key t + 1).
Proof.
  unfold add_thread_local. split.
  - intros H. res_inv. chk_inv. repeat match goal with H : bool_decide _ = true |- _ => apply bool_decide_eq_true in H end.
    by simplify_eq.
  - intros (-> & Hf & Hr & ->). rewrite add64_ok by lia. simpl.
    rewrite !bool_decide_eq_true_2 by done. done.
Qed.

Lemma sym_step_ok t o t' :
  symbols_ok t -> sym_step t o = Ok t' ->
  symbols_ok t' /\ forward t ⊆ forward t' /\ reverse t ⊆ reverse t'.
Proof.
  intros (Hr & Hk & Hinj & H0) Hst. destruct o as [n a|n a|n]; simpl in Hst.
  - unfold add_alias in Hst. destruct (forward t !! n) eqn:E; res_inv; [done|].
    split_and!; [|by apply insert_subseteq|done].
    split_and!; simpl; intros *; rewrite ?lookup_insert_Some; [|naive_solver..].
    intros Ha%Hr. right. split; congruence.
  - apply bind_Ok in Hst as ([d t1] & (-> & Hf & Hra & ->)%add_global_Ok & [= <-]). simpl.
    split_and!; [|by apply insert_subseteq..].
    split_and!; simpl; intros *; rewrite ?lookup_insert_Some; [|naive_solver..].
    intros [[<- <-]|[? Ha%Hr]]; [by left|]. right. split; congruence.
  - apply bind_Ok in Hst as ([d t1] & (-> & Hf & Hb & ->)%add_thread_local_Ok & [= <-]). simpl.
    split_and!; [|by apply insert_subseteq|done].
    split_and!; simpl; intros *; rewrite ?lookup_insert_Some; [| | |lia].
    + intros Ha%Hr. right. split; congruence.
    + intros [[_ [= <-]]|[_ Hn%Hk]]; lia.
    + intros [[<- [= <-]]|[_ H1]] [[<- H2]|[_ H2]]; [done| | |by eapply Hinj].
      * apply Hk in H2. lia.
      * injection H2 as <-. apply Hk in H1. lia.
Qed.

Lemma sym_steps_ok t os t' :
  symbols_ok t -> foldM sym_step t os = Ok t' ->
  symbols_ok t' /\ forward t ⊆ forward t' /\ reverse t ⊆ reverse t'.
Proof.
  intros Ht. apply (foldM_ind sym_step
    (fun s => symbols_ok s /\ forward t ⊆ forward s /\ reverse t ⊆ reverse s)); [done|].
  intros s o s' _ (Hs & Hf & Hr) Hst. destruct (sym_step_ok s o s' Hs Hst) as (? & ? & ?).
  split_and!; [done|by etrans..].
Qed.

(** Name resolution. A module's internal symbol shadows an external one of
    the same name, other modules and the linker see the external one, and an
    unknown name resolves to [explode] or panics when that is missing. *)
Lemma lookup_scoping (t : SymbolTable) (m : Z) (name : string) :
  lookup (Some m) name t =
    match lookup_symbol (Internal m name) t with
    | Ok d => Ok d
    | Panic _ => lookup None name t
    end /\
  lookup None name t =
    match lookup_symbol (External name) t with
    | Ok d => Ok d
    | Panic _ =>
        match lookup_symbol (External "explode") t with
        | Ok d => Ok d
        | Panic _ => Panic UnwrapFailed
        end
    end.
Proof.
  unfold lookup, lookup_symbol. split.
  - by destruct (forward t !! Internal m name).
  - destruct (forward t !! External name); [done|].
    by destruct (forward t !! External "explode").
Qed.

(** ** Addresses are fresh *)

Section Fresh.
Context {F : Type}.
Implicit Types (p : Tables F).

(** Symbols and functions live below the allocator's next free address, and
    functions only where a symbol is. *)
Definition tables_ok p : Prop :=
  symbols_ok (symbols p) /\ 0 <= next (memory p) /\
  (forall a n, reverse (symbols p) !! a = Some n -> a < next (memory p)) /\
  (forall a f, functions (definitions p) !! a = Some f -> is_Some (reverse (symbols p) !! a)).

Lemma tables_new_ok : tables_ok (tables_new (F := F)).
Proof. split_and!; [apply symbols_new_ok|simpl; lia|..]; simpl; intros *; by rewrite lookup_empty. Qed.

Lemma add_symbol_global_spec name l p :
  tables_ok p -> Layout.wf l -> Layout.bits l + 7 < 2 ^ 64 ->
  next (memory p) + demand l < 2 ^ 64 -> forward (symbols p) !! name = None ->
  exists a p', add_symbol name NotThreadLocal l p = Ok (Global a, p') /\
    tables_ok p' /\ next (memory p) <= a /\ next (memory p') <= next (memory p) + demand l /\
    forward (symbols p') = <[name := Global a]> (forward (symbols p)) /\
    reverse (symbols p') = <[a := name]> (reverse (symbols p)) /\
    reverse (symbols p) !! a = None /\
    definitions p' = definitions p.
Proof.
  intros (Hs & Hn & Hr & Hf) Hl Hb Hd Hname. unfold add_symbol.
  destruct (alloc_spec 0 l (memory p) Hl Hb Hn Hd) as (a & m' & -> & _ & Ha & _ & Hn' & Hle). simpl.
  assert (reverse (symbols p) !! a = None) as Hfree.
  { apply eq_None_not_Some. intros [n Hra]. apply Hr in Hra. lia. }
  pose proof (proj2 (add_global_Ok name a (symbols p) _ _)
    (conj eq_refl (conj Hname (conj Hfree eq_refl)))) as E.
  destruct (sym_step_ok (symbols p) (OpGlobal name a) _ Hs ltac:(simpl; by rewrite E))
    as (Hok & _ & _).
  assert (0 <= (Layout.bits l + 7) / 8) as Hpos by (destruct Hl; apply Z.div_pos; lia).
  rewrite E. exists a. eexists. split; [done|]. unfold tables_ok, HEAP_GUARD in *. simpl in *.
  split_and!; try done; try lia.
  - intros a' n [[<- <-]|[_ H%Hr]]%lookup_insert_Some; lia.
  - intros a' f Hf'. apply lookup_insert_is_Some'. right. by eapply Hf.
Qed.

Lemma of_func_eq : of_func = Ok (MkLayout 2048 8).
Proof. done. Qed.

Lemma add_builtin_spec p n f :
  tables_ok p -> next (memory p) + 392 < 2 ^ 64 -> forward (symbols p) !! External n = None ->
  exists a p', add_builtin p (n, f) = Ok p' /\ tables_ok p' /\
    next (memory p') <= next (memory p) + 392 /\
    forward (symbols p') = <[External n := Global a]> (forward (symbols p)) /\
    functions (definitions p') = <[a := f]> (functions (definitions p)) /\
    functions (definitions p) !! a = None.
Proof.
  intros Hok Hn Hname. unfold add_builtin. rewrite of_func_eq. cbn [bind].
  destruct (add_symbol_global_spec (External n) (MkLayout 2048 8) p)
    as (a & p' & Ha & Hok' & Hge & Hle & Hf & Hr & Hfree & Hd);
    [done|split_and!; simpl; [lia..|by exists 3]|simpl; lia|exact Hn|done|].
  cbn [fst snd] in *. rewrite Ha. cbn [bind global unwrap]. unfold add_func.
  assert (functions (definitions p) !! a = None) as Hnone.
  { destruct Hok as (_ & _ & _ & Hfs). apply eq_None_not_Some. intros [g Hg].
    apply Hfs in Hg as [? Hg]. congruence. }
  rewrite Hd, Hnone. cbn [bind]. eexists a, _. split; [done|]. simpl. split_and!; try done.
  destruct Hok' as (H1 & H2 & H3 & H4). split_and!; simpl; try done.
  intros a' g [[<- <-]|[_ Hg]]%lookup_insert_Some.
  - rewrite Hr. by rewrite lookup_insert_eq.
  - rewrite <- Hd in Hg. by eapply H4.
Qed.

Lemma add_native_spec bs p :
  tables_ok p -> next (memory p) + 392 * zlen bs < 2 ^ 64 -> NoDup bs.*1 ->
  (forall n, n ∈ bs.*1 -> forward (symbols p) !! External n = None) ->
  exists p', add_native bs p = Ok p' /\ tables_ok p' /\
    forward (symbols p) ⊆ forward (symbols p') /\
    functions (definitions p) ⊆ functions (definitions p') /\
    forall n f, (n, f) ∈ bs -> exists a, forward (symbols p') !! External n = Some (Global a) /\
      functions (definitions p') !! a = Some f.
Proof.
  revert p. induction bs as [|[n f] bs IH]; intros p Hok Hn Hnd Hfree; cbn [add_native foldM].
  { exists p. split_and!; [done..|]. intros ? ? H. by apply elem_of_nil in H. }
  apply NoDup_cons in Hnd as [Hnin Hnd].
  assert (zlen ((n, f) :: bs) = 1 + zlen bs) as Hz by (unfold zlen; simpl; lia).
  pose proof (zlen_nonneg bs).
  destruct (add_builtin_spec p n f Hok) as (a & p1 & -> & Hok1 & Hle & Hf & Hfn & Hnone);
    [lia|apply Hfree; by left|]. cbn [bind].
  destruct (IH p1) as (p' & Hp' & Hok' & Hsub & Hsubf & Hall); [done|lia|done| |].
  { intros n' Hn'. rewrite Hf, lookup_insert_ne; [apply Hfree; by right|].
    intros [= ->]. by apply Hnin. }
  exists p'. unfold add_native in Hp'. split_and!; [done|done| | |].
  - etrans; [|exact Hsub]. rewrite Hf. apply insert_subseteq. apply Hfree. by left.
  - etrans; [|exact Hsubf]. rewrite Hfn. by apply insert_subseteq.
  - intros n' f' [Heq|Hin]%elem_of_cons; [|by apply Hall]. simplify_eq. exists a. split.
    + eapply lookup_weaken; [|exact Hsub]. rewrite Hf. apply lookup_insert_eq.
    + eapply lookup_weaken; [|exact Hsubf]. rewrite Hfn. apply lookup_insert_eq.
Qed.
End Fresh.

(** ** Theorems *)

(** Whatever sequence of aliases, globals and thread-locals is entered, the
    reverse map stays an inverse of the forward map, thread-local keys stay
    unique, and no entry made so far is ever changed or removed. *)
Theorem symbol_table_invariant (before after : list sym_op) (t1 t2 : SymbolTable)
    (H1 : foldM sym_step symbols_new before = Ok t1) (H2 : foldM sym_step t1 after = Ok t2) :
  symbols_ok t2 /\
  (forall n d, lookup_symbol n t1 = Ok d -> lookup_symbol n t2 = Ok d) /\
  (forall a n, reverse_lookup a t1 = Ok n ->
     reverse_lookup a t2 = Ok n /\ lookup_symbol n t2 = Ok (Global a)).
Proof.
  apply sym_steps_ok in H1 as (Hok1 & _ & _); [|apply symbols_new_ok].
  apply sym_steps_ok in H2 as (Hok2 & Hf & Hr); [|done].
  split_and!; [done| |].
  - intros n d. unfold lookup_symbol. destruct (forward t1 !! n) eqn:E; [|done].
    intros [= ->]. by rewrite (lookup_weaken _ _ _ _ E Hf).
  - intros a n. unfold reverse_lookup. destruct (reverse t1 !! a) as [n'|] eqn:E; [|done].
    intros [= ->]. pose proof (lookup_weaken _ _ _ _ E Hr) as E2. rewrite E2. split; [done|].
    unfold lookup_symbol. destruct Hok2 as (Hinv & _). by rewrite (Hinv _ _ E2).
Qed.


(** Registering a new name as a global never trips the table's assertions
    while the address space lasts: the allocator hands out an address that
    names nothing yet, the name and the address resolve to each other
    afterwards, and everything registered before is untouched. *)
Theorem add_symbol_fresh {F} (p : Tables F) (name : Symbol) (l : Layout)
    (Hp : tables_ok p) (Hl : Layout.wf l) (Hb : Layout.bits l + 7 < 2 ^ 64)
    (Hn : next (memory p) + demand l < 2 ^ 64) (Hname : forward (symbols p) !! name = None) :
  exists a p', add_symbol name NotThreadLocal l p = Ok (Global a, p') /\ tables_ok p' /\
    lookup_symbol name (symbols p') = Ok (Global a) /\
    reverse_lookup a (symbols p') = Ok name /\ try_reverse_lookup a (symbols p) = None /\
    (forall n d, lookup_symbol n (symbols p) = Ok d -> lookup_symbol n (symbols p') = Ok d) /\
    (forall b n, reverse_lookup b (symbols p) = Ok n -> reverse_lookup b (symbols p') = Ok n).
Proof.
  destruct (add_symbol_global_spec name l p) as (a & p' & Ha & Hok & _ & _ & Hf & Hr & Hfree & _);
    [done..|].
  exists a, p'. unfold lookup_symbol, reverse_lookup, try_reverse_lookup. rewrite Hf, Hr.
  split_and!; [done|done|by rewrite lookup_insert_eq|by rewrite lookup_insert_eq|done| |].
  - intros n d. destruct (decide (name = n)) as [<-|]; [by rewrite Hname|].
    by rewrite lookup_insert_ne.
  - intros b n. destruct (decide (a = b)) as [<-|]; [by rewrite Hfree|].
    by rewrite lookup_insert_ne.
Qed.

(** After [add_native] on a new process every builtin of the list can be
    called: its name resolves to an address, and that address to its code,
    provided the names are distinct and the address space holds them. *)
Theorem add_native_callable {F} (builtins : list (string * F))
    (Hnd : NoDup builtins.*1) (Hsize : 128 + 392 * zlen builtins < 2 ^ 64) :
  exists p, add_native builtins tables_new = Ok p /\ tables_ok p /\
    forall n f, (n, f) ∈ builtins -> exists a,
      lookup None n (symbols p) = Ok (Global a) /\ reverse_lookup_fun a (definitions p) = Some f.
Proof.
  destruct (add_native_spec builtins tables_new tables_new_ok Hsize Hnd) as (p & Hp & Hok & _ & _ & Hall).
  { intros n _. apply lookup_empty. }
  exists p. split_and!; [done..|]. intros n f Hin. destruct (Hall n f Hin) as (a & Hf & Hfn).
  exists a. split; [|done]. unfold lookup. by rewrite Hf.
Qed.

(** ** Concrete runs *)

Definition sample_symbols : SymbolTable :=
  match foldM sym_step symbols_new [OpGlobal (External "main") 128; OpThreadLocal (Internal 0 "tls")] with
  | Ok t => t
  | Panic _ => symbols_new
  end.

Lemma symbol_table_invariant_witness :
  let before := [OpGlobal (External "main") 128; OpThreadLocal (Internal 0 "tls")] in
  let after := [OpAlias (External "start") 128; OpThreadLocal (Internal 1 "tls")] in
  exists t2, foldM sym_step sample_symbols after = Ok t2 /\
    symbols_ok t2 /\
    (forall n d, lookup_symbol n sample_symbols = Ok d -> lookup_symbol n t2 = Ok d) /\
    (forall a n, reverse_lookup a sample_symbols = Ok n ->
       reverse_lookup a t2 = Ok n /\ lookup_symbol n t2 = Ok (Global a)).
Proof.
  intros before after. eexists. split; [vm_compute; reflexivity|].
  apply (symbol_table_invariant before after sample_symbols); vm_compute; reflexivity.
Defined.

Lemma add_symbol_fresh_witness :
  let l := MkLayout 64 64 in
  exists a p', add_symbol (External "x") NotThreadLocal l (tables_new (F := unit)) = Ok (Global a, p') /\
    tables_ok p' /\
    lookup_symbol (External "x") (symbols p') = Ok (Global a) /\
    reverse_lookup a (symbols p') = Ok (External "x") /\
    try_reverse_lookup a (symbols (tables_new (F := unit))) = None /\
    (forall n d, lookup_symbol n (symbols (tables_new (F := unit))) = Ok d ->
       lookup_symbol n (symbols p') = Ok d) /\
    (forall b n, reverse_lookup b (symbols (tables_new (F := unit))) = Ok n ->
       reverse_lookup b (symbols p') = Ok n).
Proof.
  intros l. apply (add_symbol_fresh (tables_new (F := unit)) (External "x") l).
  - apply tables_new_ok.
  - split; [simpl; lia|]. split; [simpl; lia|by exists 6].
  - simpl. lia.
  - vm_compute. reflexivity.
  - vm_compute. reflexivity.
Defined.

Lemma add_native_callable_witness :
  let builtins := [("malloc"%string, 1); ("free"%string, 2)] in
  exists p, add_native builtins tables_new = Ok p /\ tables_ok p /\
    forall n f, (n, f) ∈ builtins -> exists a,
      lookup None n (symbols p) = Ok (Global a) /\ reverse_lookup_fun a (definitions p) = Some f.
Proof.
  intros builtins. apply (add_native_callable builtins).
  - apply (bool_decide_unpack _). vm_compute. exact I.
  - vm_compute. reflexivity.
Defined.
