(* ===== verification/Mutex.v ===== *)
(** * Mutex: src/src/util/mutex.rs, and the tables of src/src/scheduler.rs

    Mutexes and condition variables of the simulated program. A waiter blocks
    on a oneshot channel whose sender sits in a queue; dropping the sender wakes
    it, so the operations return the senders they drop. [Sync] puts the
    operations over the scheduler's tables and records, as ghost state, who
    holds what: a task that [lock] lets through, or that a dropped sender wakes,
    holds the mutex. *)

From S2P Require Import Prelude.

(** ** One mutex *)

(** [struct MutexInner]; a [Sender<!>] is the number of its waiter. *)
Record MutexInner := MkMutex { locked : bool; queue : list Z }.

#[export] Instance MutexInner_eq_dec : EqDecision MutexInner.
Proof. solve_decision. Defined.

(** [Mutex::new] *)
Definition mutex_new : MutexInner := MkMutex false [].

Definition try_lock (this : MutexInner) : bool * MutexInner :=
  if locked this then (false, this) else (true, MkMutex true (queue this)).

(** [lock] up to its [await]: whether it returns at once, or waits on the
    channel [sender]. *)
Definition lock (sender : Z) (this : MutexInner) : bool * MutexInner :=
  if locked this then (false, MkMutex (locked this) (queue this ++ [sender]))
  else (true, MkMutex true (queue this)).

(** [unlock], and the sender it drops. *)
Definition unlock (this : MutexInner) : res (option Z * MutexInner) :=
  assert! locked this or AssertFailed in
  match queue this with
  | s :: q => Ok (Some s, MkMutex (locked this) q)
  | [] => Ok (None, MkMutex false [])
  end.

Definition notify_impl (sender : Z) (this : MutexInner) : option Z * MutexInner :=
  if locked this then (None, MkMutex (locked this) (queue this ++ [sender]))
  else (Some sender, this).

(** ** The scheduler's tables *)

(** Mutexes and condition variables by address; a queued [Mutex] handle is the
    mutex's address, since the scheduler never drops a mutex. [holding] is the
    ghost list of (mutex, task) pairs. *)
Record Sync := MkSync {
  mutexes : gmap Z MutexInner;
  condvars : gmap Z (list (Z * Z));
  holding : list (Z * Z)
}.

Definition sync_new : Sync := MkSync ∅ ∅ [].

(** [Scheduler::mutex], [Scheduler::condvar]: [or_insert_with]. *)
Definition mutex (address : Z) (this : Sync) : MutexInner :=
  default mutex_new (mutexes this !! address).
Definition condvar (address : Z) (this : Sync) : list (Z * Z) :=
  default [] (condvars this !! address).

Fixpoint remove_first (p : Z * Z) (l : list (Z * Z)) : list (Z * Z) :=
  match l with
  | [] => []
  | q :: l => if decide (p = q) then l else q :: remove_first p l
  end.

Definition set_mutex (a : Z) (m : MutexInner) (this : Sync) : Sync :=
  MkSync (<[a := m]> (mutexes this)) (condvars this) (holding this).
Definition set_condvar (c : Z) (q : list (Z * Z)) (this : Sync) : Sync :=
  MkSync (mutexes this) (<[c := q]> (condvars this)) (holding this).
Definition gain (a : Z) (t : option Z) (this : Sync) : Sync :=
  MkSync (mutexes this) (condvars this)
    (match t with Some t => (a, t) :: holding this | None => holding this end).
Definition lose (a t : Z) (this : Sync) : Sync :=
  MkSync (mutexes this) (condvars this) (remove_first (a, t) (holding this)).

Definition do_try_lock (t a : Z) (this : Sync) : Sync :=
  let '(b, m) := try_lock (mutex a this) in
  gain a (if b then Some t else None) (set_mutex a m this).

Definition do_lock (t a : Z) (this : Sync) : Sync :=
  let '(b, m) := lock t (mutex a this) in
  gain a (if b then Some t else None) (set_mutex a m this).

Definition do_unlock (t a : Z) (this : Sync) : res Sync :=
  let! (w, m) := unlock (mutex a this) in
  Ok (gain a w (set_mutex a m (lose a t this))).

(** [Condvar::wait] up to its [await]. *)
Definition wait (t c a : Z) (this : Sync) : res Sync :=
  let! this := do_unlock t a this in
  Ok (set_condvar c (condvar c this ++ [(a, t)]) this).

(** [notify_impl] on a queued pair. *)
Definition notify_one (this : Sync) (ms : Z * Z) : Sync :=
  let '(w, m) := notify_impl ms.2 (mutex ms.1 this) in
  gain ms.1 w (set_mutex ms.1 m this).

(** [Condvar::notify] *)
Definition notify (c : Z) (this : Sync) : Sync :=
  match condvar c this with
  | [] => this
  | ms :: q => notify_one (set_condvar c q this) ms
  end.

(** [Condvar::notify_all] *)
Definition notify_all (c : Z) (this : Sync) : Sync :=
  fold_left notify_one (condvar c this) (set_condvar c [] this).

(** ** Runs *)

Inductive action :=
  | TryLock (t a : Z) | Lock (t a : Z) | Unlock (t a : Z)
  | Wait (t c a : Z) | Notify (c : Z) | NotifyAll (c : Z).

Definition step (this : Sync) (x : action) : res Sync :=
  match x with
  | TryLock t a => Ok (do_try_lock t a this)
  | Lock t a => Ok (do_lock t a this)
  | Unlock t a => do_unlock t a this
  | Wait t c a => wait t c a this
  | Notify c => Ok (notify c this)
  | NotifyAll c => Ok (notify_all c this)
  end.

(** The pthread discipline: a task unlocks and waits with a mutex it holds, and
    a condition variable is notified only while the mutexes of its waiters are
    locked. *)
Definition allowed (this : Sync) (x : action) : Prop :=
  match x with
  | TryLock _ _ | Lock _ _ => True
  | Unlock t a | Wait t _ a => (a, t) ∈ holding this
  | Notify c | NotifyAll c => forall ms, ms ∈ condvar c this -> locked (mutex ms.1 this) = true
  end.

Inductive run : Sync -> list action -> Sync -> Prop :=
  | run_nil s : run s [] s
  | run_cons s x s1 xs s2 : allowed s x -> step s x = Ok s1 -> run s1 xs s2 -> run s (x :: xs) s2.

(** ** The invariant *)

Definition holds (a : Z) (l : list (Z * Z)) : nat :=
  length (List.filter (fun p => p.1 =? a) l).

(** Mutex [a] is locked exactly when one task holds it, and only a locked mutex
    has waiters. *)
Definition mutex_ok (a : Z) (this : Sync) : Prop :=
  holds a (holding this) = (if locked (mutex a this) then 1%nat else 0%nat) /\
  (locked (mutex a this) = false -> queue (mutex a this) = []).

Definition sync_ok (this : Sync) : Prop := forall a, mutex_ok a this.

Lemma sync_new_ok : sync_ok sync_new.
Proof. intros a. split; done. Qed.

Lemma holds_cons a b t l : holds a ((b, t) :: l) = ((if (b =? a)%Z then 1 else 0) + holds a l)%nat.
Proof. unfold holds. simpl. by destruct (b =? a). Qed.

Lemma holds_pos a t l : (a, t) ∈ l -> (0 < holds a l)%nat.
Proof.
  induction l as [|[b u] l IH]; [set_solver|]. rewrite holds_cons.
  intros [?|?%IH]%elem_of_cons; simplify_eq; [rewrite Z.eqb_refl; lia|lia].
Qed.

Lemma holds_remove a b t l :
  (b, t) ∈ l -> ((if (b =? a)%Z then 1 else 0) + holds a (remove_first (b, t) l))%nat = holds a l.
Proof.
  induction l as [|[b' u] l IH]; [set_solver|]. intros Hin. cbn [remove_first].
  destruct (decide ((b, t) = (b', u))) as [Heq|Hne]; rewrite !holds_cons; [by simplify_eq|].
  apply elem_of_cons in Hin as [?|Hin]; [done|]. specialize (IH Hin). lia.
Qed.

Lemma mutex_set a b m ms cv hs :
  mutex a (MkSync (<[b := m]> ms) cv hs) = if a =? b then m else default mutex_new (ms !! a).
Proof.
  unfold mutex. simpl. destruct (Z.eqb_spec a b) as [->|].
  - by rewrite lookup_insert_eq.
  - by rewrite lookup_insert_ne.
Qed.

(** Every operation rewrites one mutex and the list of holders: the others are
    unaffected. *)
Lemma sync_ok_update s b m cv hs :
  sync_ok s -> holds b hs = (if locked m then 1%nat else 0%nat) ->
  (locked m = false -> queue m = []) ->
  (forall a, a <> b -> holds a hs = holds a (holding s)) ->
  sync_ok (MkSync (<[b := m]> (mutexes s)) cv hs).
Proof.
  intros Hs Hb Hq Hh a. unfold mutex_ok. rewrite mutex_set. cbn [holding].
  destruct (Z.eqb_spec a b) as [->|Hne]; [done|]. rewrite Hh by done. apply Hs.
Qed.

Lemma holding_locked s t a : sync_ok s -> (a, t) ∈ holding s -> locked (mutex a s) = true.
Proof.
  intros Hs Hin%holds_pos. destruct (Hs a) as [Hl _]. destruct (locked (mutex a s)); [done|lia].
Qed.

Lemma do_lock_ok t a s : sync_ok s -> sync_ok (do_lock t a s) /\ sync_ok (do_try_lock t a s).
Proof.
  intros Hs. destruct (Hs a) as [Hl Hq]. unfold do_lock, lock, do_try_lock, try_lock.
  destruct (locked (mutex a s)) eqn:Hlk; unfold gain, set_mutex; simpl;
    (split; apply sync_ok_update; simpl; rewrite ?Hlk; try done);
    rewrite ?holds_cons, ?Z.eqb_refl; try lia; intros b Hb; rewrite holds_cons;
    destruct (Z.eqb_spec a b); done || lia.
Qed.

Lemma do_unlock_spec t a s :
  sync_ok s -> (a, t) ∈ holding s ->
  exists s', do_unlock t a s = Ok s' /\ sync_ok s' /\ condvars s' = condvars s.
Proof.
  intros Hs Hin. unfold do_unlock, unlock. pose proof (holding_locked s t a Hs Hin) as Hlk.
  destruct (Hs a) as [Hl Hq]. rewrite Hlk in *. cbn [guard_ bind].
  pose proof (fun b => holds_remove b a t (holding s) Hin) as Hr.
  destruct (queue (mutex a s)) as [|w q]; cbn [bind]; (eexists; split; [done|]; split; [|done]);
    apply (sync_ok_update s); simpl; rewrite ?Hlk; try done.
  - specialize (Hr a). rewrite Z.eqb_refl in Hr. simpl in *. lia.
  - intros b Hb. specialize (Hr b). destruct (Z.eqb_spec a b); [congruence|simpl in *; lia].
  - specialize (Hr a). rewrite holds_cons, Z.eqb_refl in *. simpl in *. lia.
  - intros b Hb. specialize (Hr b). rewrite holds_cons. destruct (Z.eqb_spec a b); [congruence|simpl in *; lia].
Qed.

Lemma notify_one_spec s ms :
  sync_ok s -> locked (mutex ms.1 s) = true ->
  sync_ok (notify_one s ms) /\ holding (notify_one s ms) = holding s /\
  condvars (notify_one s ms) = condvars s /\
  forall a, mutex a (notify_one s ms) =
    if a =? ms.1 then MkMutex true (queue (mutex a s) ++ [ms.2]) else mutex a s.
Proof.
  intros Hs Hlk. unfold notify_one, notify_impl. rewrite Hlk. unfold gain, set_mutex. simpl.
  destruct (Hs ms.1) as [Hl _]. rewrite Hlk in Hl. split_and!; [|done|done|].
  - apply sync_ok_update; simpl; rewrite ?Hlk; done.
  - intros a. rewrite mutex_set. by destruct (Z.eqb_spec a ms.1) as [->|].
Qed.

(** Notifying the first waiter of a free mutex. *)
Lemma notify_unlocked s c a t :
  sync_ok s -> head (condvar c s) = Some (a, t) -> locked (mutex a s) = false ->
  holds a (holding s) = 0%nat /\ mutex a (notify c s) = MkMutex false [] /\
  holding (notify c s) = (a, t) :: holding s.
Proof.
  intros Hs Hq Hlk. destruct (Hs a) as [H0 Hqu]. rewrite Hlk in H0. specialize (Hqu Hlk). split; [done|].
  unfold notify. destruct (condvar c s) as [|ms q]; [done|]. injection Hq as ->.
  assert (mutex a s = MkMutex false []) as Hm by (destruct (mutex a s); simpl in *; by subst).
  unfold notify_one, notify_impl. change (mutex (a, t).1 (set_condvar c q s)) with (mutex a s). rewrite Hm. simpl.
  split; [|done]. unfold mutex. simpl. by rewrite lookup_insert_eq.
Qed.

(** Unlocking a mutex without waiters, with others holding it: the second of
    them panics. *)
Lemma unlock_twice a t u s :
  locked (mutex a s) = true -> queue (mutex a s) = [] ->
  exists s1, step s (Unlock t a) = Ok s1 /\ step s1 (Unlock u a) = Panic AssertFailed.
Proof.
  intros Hl Hq. unfold step, do_unlock, unlock. rewrite Hl, Hq. cbn [guard_ bind]. eexists. split; [done|].
  unfold mutex, gain, set_mutex. cbn [mutexes]. by rewrite lookup_insert_eq.
Qed.

Lemma notify_list_spec ws s :
  sync_ok s -> (forall ms, ms ∈ ws -> locked (mutex ms.1 s) = true) ->
  let s' := fold_left notify_one ws s in
  sync_ok s' /\ holding s' = holding s /\ condvars s' = condvars s /\
  forall a, mutex a s' =
    MkMutex (locked (mutex a s)) (queue (mutex a s) ++ (List.filter (fun p => p.1 =? a) ws).*2).
Proof.
  revert s. induction ws as [|ms ws IH]; intros s Hs Hws; cbn [fold_left].
  { split_and!; [done..|]. intros a. simpl. rewrite app_nil_r. by destruct (mutex a s). }
  destruct (notify_one_spec s ms Hs) as (Hs1 & Hh1 & Hc1 & Hm1); [apply Hws; by left|].
  destruct (IH (notify_one s ms) Hs1) as (Hs' & Hh' & Hc' & Hm').
  { intros x Hx. rewrite Hm1. destruct (x.1 =? ms.1); [done|]. apply Hws. by right. }
  split_and!; [done|congruence|congruence|]. intros a. rewrite Hm', Hm1. cbn [List.filter].
  rewrite (Z.eqb_sym ms.1 a). destruct (Z.eqb_spec a ms.1) as [->|]; [|done].
  simpl. rewrite (Hws ms) by (by left). by rewrite <- app_assoc.
Qed.

Lemma sync_ok_condvar s c q : sync_ok s -> sync_ok (set_condvar c q s).
Proof. intros Hs a. apply Hs. Qed.

Lemma step_ok s x : sync_ok s -> allowed s x -> exists s', step s x = Ok s' /\ sync_ok s'.
Proof.
  intros Hs Ha. destruct x as [t a|t a|t a|t c a|c|c]; simpl in *.
  - eexists. split; [done|]. by apply do_lock_ok.
  - eexists. split; [done|]. by apply do_lock_ok.
  - destruct (do_unlock_spec t a s Hs Ha) as (s' & -> & ? & _). by exists s'.
  - unfold wait. destruct (do_unlock_spec t a s Hs Ha) as (s' & -> & ? & _). eexists. split; [done|].
    by apply sync_ok_condvar.
  - eexists. split; [done|]. unfold notify. destruct (condvar c s) as [|ms q] eqn:E; [done|].
    apply notify_one_spec; [by apply sync_ok_condvar|]. apply Ha. by left.
  - eexists. split; [done|]. by apply notify_list_spec; [apply sync_ok_condvar|].
Qed.

Lemma run_ok s xs s' : run s xs s' -> sync_ok s -> sync_ok s'.
Proof.
  induction 1 as [|s y s1 ys s2 Hy Hst _ IH]; intros Hs; [done|].
  destruct (step_ok s y Hs Hy) as (s1' & Hst' & Hs1). apply IH. rewrite Hst in Hst'. by injection Hst' as <-.
Qed.

(** ** Theorems *)

(** C34: mutual exclusion. In every run that keeps the pthread discipline no
    operation panics, a mutex is locked exactly when one task holds it, never
    two, and tasks wait only for a locked mutex. *)
Theorem mutual_exclusion (xs : list action) (s : Sync) (x : action)
    (Hrun : run sync_new xs s) (Hx : allowed s x) :
  (exists s', step s x = Ok s') /\
  forall a, holds a (holding s) = (if locked (mutex a s) then 1%nat else 0%nat) /\
    (locked (mutex a s) = false -> queue (mutex a s) = []).
Proof.
  pose proof (run_ok _ _ _ Hrun sync_new_ok) as Hs.
  split; [|exact Hs]. destruct (step_ok s x Hs Hx) as (s' & ? & _). by exists s'.
Qed.

(** Unlocking as many times as there are waiters: the senders dropped. *)
Fixpoint unlock_n (n : nat) (m : MutexInner) : res (list (option Z) * MutexInner) :=
  match n with
  | O => Ok ([], m)
  | S n => let! (w, m) := unlock m in let! (ws, m) := unlock_n n m in Ok (w :: ws, m)
  end.

(** A locked mutex passes to its waiters in the order they queued, staying
    locked at every hand-over so that no [lock] or [try_lock] can barge in, and
    is free after one more unlock. *)
Theorem unlock_hands_over_in_order (ws : list Z) (w : Z) :
  unlock_n (length ws) (MkMutex true ws) = Ok (Some <$> ws, MkMutex true []) /\
  unlock_n (S (length ws)) (MkMutex true ws) = Ok ((Some <$> ws) ++ [None], MkMutex false []) /\
  lock w (MkMutex true ws) = (false, MkMutex true (ws ++ [w])) /\
  try_lock (MkMutex true ws) = (false, MkMutex true ws).
Proof.
  split_and!; [| |done|done].
  - induction ws as [|u ws IH]; [done|]. simpl in *. by rewrite IH.
  - induction ws as [|u ws IH]; [done|]. simpl in *. by rewrite IH.
Qed.

(** [notify_all] under the discipline empties the condition variable and
    moves its waiters, in order and behind the tasks already queued, to the
    mutexes they wait for; nobody is lost and no ownership changes. *)
Theorem notify_all_requeues (s : Sync) (c : Z) (Hs : sync_ok s)
    (Hd : forall ms, ms ∈ condvar c s -> locked (mutex ms.1 s) = true) :
  condvar c (notify_all c s) = [] /\ holding (notify_all c s) = holding s /\
  sync_ok (notify_all c s) /\
  forall a, queue (mutex a (notify_all c s)) =
    queue (mutex a s) ++ (List.filter (fun p => p.1 =? a) (condvar c s)).*2.
Proof.
  destruct (notify_list_spec (condvar c s) (set_condvar c [] s)) as (Hs' & Hh & Hc & Hm);
    [by apply sync_ok_condvar|done|].
  unfold notify_all. split_and!; [|done|done|].
  - unfold condvar at 1. rewrite Hc. simpl. by rewrite lookup_insert_eq.
  - intros a. by rewrite Hm.
Qed.

(** C35: The discipline of [notify] is needed, and no more than that. After any
    disciplined run, notifying a condition variable keeps the mutexes in order
    exactly when its first waiter, if any, waits for a locked mutex. When that
    mutex is free, the waiter is woken without the mutex being locked for it:
    whoever locks it next, [u], holds it together with the waiter, and when both
    have unlocked it the program has panicked. *)
Theorem notify_unlocked_breaks_exclusion (xs : list action) (s : Sync) (c : Z) (Hrun : run sync_new xs s) :
  (sync_ok (notify c s) <-> forall ms, head (condvar c s) = Some ms -> locked (mutex ms.1 s) = true) /\
  forall a t u, head (condvar c s) = Some (a, t) -> locked (mutex a s) = false ->
    let s' := do_lock u a (notify c s) in
    holding s' = (a, u) :: (a, t) :: holding s /\ holds a (holding s') = 2%nat /\
    (exists s1, step s' (Unlock u a) = Ok s1 /\ step s1 (Unlock t a) = Panic AssertFailed) /\
    (exists s1, step s' (Unlock t a) = Ok s1 /\ step s1 (Unlock u a) = Panic AssertFailed).
Proof.
  pose proof (run_ok _ _ _ Hrun sync_new_ok) as Hs. split; [split|].
  - intros Hn [a t] Hq. simpl. destruct (locked (mutex a s)) eqn:Hlk; [done|].
    destruct (notify_unlocked s c a t Hs Hq Hlk) as (_ & Hm & Hh). destruct (Hn a) as [Hone _].
    rewrite Hm, Hh, holds_cons, Z.eqb_refl in Hone. simpl in Hone. lia.
  - intros Hq. unfold notify. destruct (condvar c s) as [|ms q]; [done|].
    apply notify_one_spec; [by apply sync_ok_condvar|by apply Hq].
  - intros a t u Hq Hlk. destruct (notify_unlocked s c a t Hs Hq Hlk) as (H0 & Hm & Hh).
    assert (do_lock u a (notify c s) = gain a (Some u) (set_mutex a (MkMutex true []) (notify c s))) as ->
      by (unfold do_lock, lock; by rewrite Hm).
    cbn [gain holding set_mutex]. rewrite Hh. split_and!; [done| | |].
    + rewrite !holds_cons, Z.eqb_refl, H0. done.
    + apply unlock_twice; unfold mutex; simpl; by rewrite lookup_insert_eq.
    + apply unlock_twice; unfold mutex; simpl; by rewrite lookup_insert_eq.
Qed.

(** ** Concrete runs *)

Lemma sample_run : exists s, run sync_new [Lock 1 10; Wait 1 20 10; Lock 2 10] s /\
  allowed s (Notify 20) /\ condvar 20 s = [(10, 1)].
Proof.
  eexists. split; [|split].
  - eapply run_cons; [exact I|vm_compute; reflexivity|].
    eapply run_cons; [vm_compute; by left|vm_compute; reflexivity|].
    eapply run_cons; [exact I|vm_compute; reflexivity|]. apply run_nil.
  - intros ms. vm_compute. intros Hms. apply list_elem_of_singleton in Hms as ->. done.
  - vm_compute. reflexivity.
Qed.

Lemma mutual_exclusion_witness :
  exists s, run sync_new [Lock 1 10; Wait 1 20 10; Lock 2 10] s /\
    (exists s', step s (Notify 20) = Ok s') /\
    forall a, holds a (holding s) = (if locked (mutex a s) then 1%nat else 0%nat) /\
      (locked (mutex a s) = false -> queue (mutex a s) = []).
Proof.
  destruct sample_run as (s & Hr & Ha & _). exists s. split; [exact Hr|].
  exact (mutual_exclusion _ s (Notify 20) Hr Ha).
Defined.

Lemma notify_all_requeues_witness :
  let s := MkSync {[ 10 := MkMutex true [3] ]} {[ 20 := [(10, 1); (10, 2)] ]} [(10, 4)] in
  queue (mutex 10 (notify_all 20 s)) = [3; 1; 2] /\
  condvar 20 (notify_all 20 s) = [] /\ holding (notify_all 20 s) = holding s /\
  sync_ok (notify_all 20 s) /\
  forall a, queue (mutex a (notify_all 20 s)) =
    queue (mutex a s) ++ (List.filter (fun p => p.1 =? a) (condvar 20 s)).*2.
Proof.
  intros s. split; [vm_compute; reflexivity|]. apply (notify_all_requeues s 20).
  - intros a. unfold mutex_ok, mutex. simpl. destruct (decide (a = 10)) as [->|Hne].
    + split; vm_compute; done.
    + rewrite lookup_singleton_ne by done. rewrite holds_cons.
      destruct (Z.eqb_spec 10 a); [by subst|done].
  - intros ms. vm_compute. intros Hms.
    apply elem_of_cons in Hms as [->|Hms]; [done|]. by apply list_elem_of_singleton in Hms as ->.
Defined.

(** Task 1 waits with mutex 10, which is then free. *)
Lemma notify_unlocked_breaks_exclusion_witness :
  exists s, run sync_new [Lock 1 10; Wait 1 20 10] s /\ ~ sync_ok (notify 20 s) /\
    holds 10 (holding (do_lock 2 10 (notify 20 s))) = 2%nat.
Proof.
  assert (exists s, run sync_new [Lock 1 10; Wait 1 20 10] s /\ condvar 20 s = [(10, 1)] /\ locked (mutex 10 s) = false)
    as (s & Hr & Hq & Hlk).
  { eexists. split; [|split].
    - eapply run_cons; [exact I|vm_compute; reflexivity|].
      eapply run_cons; [vm_compute; by left|vm_compute; reflexivity|]. apply run_nil.
    - vm_compute. reflexivity.
    - vm_compute. reflexivity. }
  exists s. split; [exact Hr|]. destruct (notify_unlocked_breaks_exclusion _ s 20 Hr) as [H1 H2]. split.
  - intros Hn. pose proof (proj1 H1 Hn (10, 1)) as Hx. rewrite Hq in Hx. simpl in Hx. rewrite Hx in Hlk; done.
  - destruct (H2 10 1 2) as (_ & H & _); [by rewrite Hq|exact Hlk|exact H].
Defined.
