(* ===== verification/Allocator.v ===== *)
(** * Allocator: src/src/util/allocator.rs

    The global allocator: every host thread bumps a pointer through blocks of
    1 MiB of its own and never gives anything back. The system allocator the
    blocks come from is the class [System], with its documented laws in
    [SystemLaws]. Addresses are integers, 0 is the null pointer. *)

From S2P Require Import Prelude.

(** [std::alloc::Layout] *)
Record Layout := MkLayout { size : Z; align : Z }.

(** What [Layout::from_size_align] checks; [GlobalAlloc] asks of its callers
    that the size is not zero. *)
Definition layout_ok (l : Layout) : Prop :=
  (exists k, 0 <= k /\ align l = 2 ^ k) /\ 0 < size l /\ size l + align l <= 2 ^ 63.

(** A range of addresses: where it starts and its length. *)
Definition disj (r1 r2 : Z * Z) : Prop := r1.1 + r1.2 <= r2.1 \/ r2.1 + r2.2 <= r1.1.
Definition within (r b : Z * Z) : Prop := b.1 <= r.1 /\ r.1 + r.2 <= b.1 + b.2.

(** [std::alloc::System]; [blocks] is what it has handed out. *)
Class System := {
  Sys : Type;
  sys_alloc : Layout -> Sys -> Z * Sys;
  blocks : Sys -> list (Z * Z)
}.

Class SystemLaws (SYS : System) : Prop := {
  sys_block l s p s' :
    layout_ok l -> sys_alloc l s = (p, s') -> p <> 0 ->
    blocks s' = (p, size l) :: blocks s /\ (align l | p) /\ 0 < p /\
    Forall (disj (p, size l)) (blocks s)
}.

Section Allocator.
Context {SYS : System}.

Definition BLOCK_SIZE : Z := 2 ^ 20.
Definition BLOCK_ALIGN : Z := 4096.

Record Arena := MkArena { start : Z; len : Z }.

(** The initial value of [ARENA]. *)
Definition ARENA : Arena := MkArena 0 0.

(** [<*mut u8>::align_offset] *)
Definition align_offset (p a : Z) : Z := (- p) mod a.

(** [GlobalAlloc::alloc], on the arena of the calling thread. *)
Definition alloc (layout : Layout) (arena : Arena) (s : Sys) : res (Z * Arena * Sys) :=
  assert! align layout <=? BLOCK_ALIGN or AssertFailed in
  let padding := align_offset (start arena) (align layout) in
  let! need := add64 padding (size layout) in
  if need <=? len arena then
    let result := start arena + padding in
    let! rest := sub64 (len arena) need in
    Ok (result, MkArena (result + size layout) rest, s)
  else if size layout <? BLOCK_SIZE then
    let (result, s) := sys_alloc (MkLayout BLOCK_SIZE BLOCK_ALIGN) s in
    let! rest := sub64 BLOCK_SIZE (size layout) in
    Ok (result, MkArena (result + size layout) rest, s)
  else
    let (result, s) := sys_alloc layout s in
    Ok (result, arena, s).

(** [GlobalAlloc::dealloc] *)
Definition dealloc (ptr : Z) (layout : Layout) (arena : Arena) : Arena := arena.

(** ** Host threads

    [ARENA] is a thread-local: a thread that has not allocated has the initial
    one. *)

Definition arena_of (t : Z) (arenas : gmap Z Arena) : Arena := default ARENA (arenas !! t).

Inductive request := Alloc (layout : Layout) | Dealloc (ptr : Z) (layout : Layout).

(** A sequence of calls, each with the thread that makes it; the answers are
    the ranges given out. *)
Fixpoint serve (calls : list (Z * request)) (arenas : gmap Z Arena) (s : Sys)
    : res (list (Z * Layout) * gmap Z Arena * Sys) :=
  match calls with
  | [] => Ok ([], arenas, s)
  | (t, Alloc layout) :: calls =>
      let! (p, a, s) := alloc layout (arena_of t arenas) s in
      let! (ps, arenas, s) := serve calls (<[t := a]> arenas) s in
      Ok ((p, layout) :: ps, arenas, s)
  | (t, Dealloc ptr layout) :: calls =>
      serve calls (<[t := dealloc ptr layout (arena_of t arenas)]> arenas) s
  end.

Definition call_ok (c : Z * request) : Prop :=
  match c.2 with Alloc l => layout_ok l /\ align l <= BLOCK_ALIGN | Dealloc _ _ => True end.

Definition range_of (x : Z * Layout) : Z * Z := (x.1, size x.2).
End Allocator.

(** ** Lemmas *)

Lemma disj_sym r1 r2 : disj r1 r2 -> disj r2 r1.
Proof. unfold disj. lia. Qed.

Lemma disj_within r1 r2 b : within r1 b -> disj b r2 -> disj r1 r2.
Proof. unfold disj, within. lia. Qed.

Lemma align_offset_spec p a : 0 < a -> 0 <= align_offset p a < a /\ (a | p + align_offset p a).
Proof.
  intros Ha. unfold align_offset. split; [by apply Z.mod_pos_bound|].
  apply Z.mod_divide; [lia|]. rewrite Zplus_mod_idemp_r, Z.add_opp_diag_r. by apply Z.mod_0_l; lia.
Qed.

(** ** The invariant of all arenas *)

Lemma ForallOrdPairs_Permutation {A} (R : A -> A -> Prop) l k :
  (forall x y, R x y -> R y x) -> Permutation l k -> ForallOrdPairs R l -> ForallOrdPairs R k.
Proof.
  intros HR. induction 1 as [|x l k Hp IH|x y l|]; [done| | |auto].
  - inversion 1; subst. constructor; [by rewrite <- Hp|auto].
  - inversion 1 as [|? ? Hx Hl]; subst. inversion Hl; subst. apply Forall_cons in Hx as [? ?].
    constructor; [by constructor; auto|by constructor].
Qed.

Section Invariant.
Context `{SYSL : SystemLaws}.
Variable base : list (Z * Z).
Implicit Types (arenas : gmap Z Arena) (given new : list (Z * Z)) (r : Z * Z).

Definition free_range (a : Arena) : Z * Z := (start a, len a).

(** A range of the blocks taken from the system, or that of an untouched arena. *)
Definition covered new r : Prop := r = (0, 0) \/ exists b, b ∈ new /\ within r b.

(** What has been given and what the arenas still have: inside the new blocks
    and disjoint from each other. *)
Record Inv given new arenas (s : Sys) : Prop := {
  inv_blocks : blocks s = new ++ base;
  inv_fresh : Forall (fun b => Forall (disj b) base) new;
  inv_given : Forall (covered new) given;
  inv_apart : ForallOrdPairs disj given;
  inv_len t : 0 <= len (arena_of t arenas) <= BLOCK_SIZE;
  inv_arena t : covered new (free_range (arena_of t arenas));
  inv_free t : Forall (disj (free_range (arena_of t arenas))) given;
  inv_threads t u : t <> u -> disj (free_range (arena_of t arenas)) (free_range (arena_of u arenas))
}.

Lemma covered_mono new new' r : new ⊆ new' -> covered new r -> covered new' r.
Proof. intros Hsub [->|(b & Hb & Hw)]; [by left|right; eauto]. Qed.

Lemma arena_of_insert t a arenas : arena_of t (<[t := a]> arenas) = a.
Proof. unfold arena_of. by rewrite lookup_insert_eq. Qed.
Lemma arena_of_insert_ne t u a arenas : t <> u -> arena_of u (<[t := a]> arenas) = arena_of u arenas.
Proof. intros. unfold arena_of. by rewrite lookup_insert_ne. Qed.

(** A new block is disjoint from all that is covered already. *)
Lemma block_apart given new arenas s l p s' r :
  Inv given new arenas s -> layout_ok l -> sys_alloc l s = (p, s') -> p <> 0 -> covered new r ->
  disj (p, size l) r.
Proof.
  intros HI Hl Hs Hp Hr. destruct (sys_block l s p s' Hl Hs Hp) as (Hb & _ & Hpos & Hd).
  destruct Hr as [->|(b & Hin & Hw)].
  - right. simpl. lia.
  - apply disj_sym. eapply disj_within; [exact Hw|]. apply disj_sym.
    rewrite Forall_forall in Hd. apply Hd. rewrite (inv_blocks _ _ _ _ HI). set_solver.
Qed.

(** The range [r] goes to the caller on thread [t], which keeps the arena [a]. *)
Lemma Inv_give given new new' arenas s s' t a r :
  Inv given new arenas s ->
  new ⊆ new' -> blocks s' = new' ++ base -> Forall (fun b => Forall (disj b) base) new' ->
  covered new' r -> 0 <= len a <= BLOCK_SIZE -> covered new' (free_range a) -> disj (free_range a) r ->
  (forall x, (x ∈ given \/ exists u, u <> t /\ x = free_range (arena_of u arenas)) ->
    disj r x /\ disj (free_range a) x) ->
  Inv (r :: given) new' (<[t := a]> arenas) s'.
Proof.
  intros HI Hsub Hb Hf Hr Hlen Ha Har Hx.
  assert (forall u, u <> t -> disj r (free_range (arena_of u arenas)) /\
      disj (free_range a) (free_range (arena_of u arenas))) as Hu by eauto.
  assert (forall x, x ∈ given -> disj r x /\ disj (free_range a) x) as Hg by eauto. clear Hx.
  split; [done|done| | | | | |].
  - constructor; [done|]. eapply Forall_impl; [exact (inv_given _ _ _ _ HI)|].
    intros. by eapply covered_mono.
  - constructor; [|exact (inv_apart _ _ _ _ HI)]. apply Forall_forall. intros x Hx. by apply Hg.
  - intros u. destruct (decide (t = u)) as [<-|]; [by rewrite arena_of_insert|].
    rewrite arena_of_insert_ne by done. apply (inv_len _ _ _ _ HI).
  - intros u. destruct (decide (t = u)) as [<-|]; [by rewrite arena_of_insert|].
    rewrite arena_of_insert_ne by done. eapply covered_mono; [done|]. apply (inv_arena _ _ _ _ HI).
  - intros u. destruct (decide (t = u)) as [<-|].
    + rewrite arena_of_insert. constructor; [done|]. apply Forall_forall. intros x Hx. by apply Hg.
    + rewrite arena_of_insert_ne by done. constructor; [|apply (inv_free _ _ _ _ HI)].
      apply disj_sym. by apply Hu.
  - intros u v Hne. destruct (decide (t = u)) as [<-|], (decide (t = v)) as [<-|]; [done| | |].
    + rewrite arena_of_insert, arena_of_insert_ne by done. by apply Hu.
    + rewrite arena_of_insert, arena_of_insert_ne by done. apply disj_sym. by apply Hu.
    + rewrite !arena_of_insert_ne by done. by apply (inv_threads _ _ _ _ HI).
Qed.

Lemma Inv_blocks given new arenas s l p s' :
  Inv given new arenas s -> layout_ok l -> sys_alloc l s = (p, s') -> p <> 0 ->
  blocks s' = ((p, size l) :: new) ++ base /\
  Forall (fun b => Forall (disj b) base) ((p, size l) :: new).
Proof.
  intros HI Hl Hs Hp. destruct (sys_block l s p s' Hl Hs Hp) as (Hb & _ & _ & Hd).
  rewrite (inv_blocks _ _ _ _ HI) in Hb, Hd. split; [done|].
  constructor; [|exact (inv_fresh _ _ _ _ HI)]. by apply Forall_app in Hd as [_ ?].
Qed.

Lemma block_layout_ok : layout_ok (MkLayout BLOCK_SIZE BLOCK_ALIGN).
Proof. split; [by exists 12|]. unfold BLOCK_SIZE, BLOCK_ALIGN; simpl; lia. Qed.

Lemma layout_align l : layout_ok l -> 0 < align l.
Proof. intros [(k & Hk & ->) _]. by apply Z.pow_pos_nonneg; lia. Qed.

Lemma align_divides l : layout_ok l -> align l <= BLOCK_ALIGN -> (align l | BLOCK_ALIGN).
Proof.
  intros [(k & Hk & ->) _] Hle. change BLOCK_ALIGN with (2 ^ 12) in *.
  assert (k <= 12) by (apply (Z.pow_le_mono_r_iff 2); lia).
  exists (2 ^ (12 - k)). rewrite <- Z.pow_add_r by lia. f_equal. lia.
Qed.

(** What is in a range that is free is apart from everything else. *)
Lemma free_apart given new arenas s t x :
  Inv given new arenas s ->
  x ∈ given \/ (exists u, u <> t /\ x = free_range (arena_of u arenas)) ->
  covered new x /\ disj (free_range (arena_of t arenas)) x.
Proof.
  intros HI [Hx|(u & Hu & ->)].
  - split; [eapply Forall_forall; [exact (inv_given _ _ _ _ HI)|done]|].
    eapply Forall_forall; [exact (inv_free _ _ _ _ HI t)|done].
  - split; [apply (inv_arena _ _ _ _ HI)|by apply (inv_threads _ _ _ _ HI)].
Qed.

(** The three ways to allocate. *)
Lemma give_bump given new arenas s t pad sz :
  Inv given new arenas s -> 0 <= pad -> 0 < sz -> pad + sz <= len (arena_of t arenas) ->
  Inv ((start (arena_of t arenas) + pad, sz) :: given) new
    (<[t := MkArena (start (arena_of t arenas) + pad + sz) (len (arena_of t arenas) - (pad + sz))]> arenas) s.
Proof.
  intros HI Hpad Hsz Hle. pose proof (inv_len _ _ _ _ HI t) as Hlen.
  assert (forall r, within r (free_range (arena_of t arenas)) -> covered new r) as Hc.
  { intros r Hr. destruct (inv_arena _ _ _ _ HI t) as [Hz|(b & Hb & Hw)].
    - unfold free_range in Hz. simplify_eq. lia.
    - right. exists b. split; [done|]. unfold within in *. lia. }
  eapply Inv_give; [exact HI|done|exact (inv_blocks _ _ _ _ HI)|exact (inv_fresh _ _ _ _ HI)|..].
  - apply Hc. unfold within; simpl; lia.
  - simpl. lia.
  - apply Hc. unfold within; simpl; lia.
  - unfold disj. simpl. lia.
  - intros x Hx. destruct (free_apart _ _ _ _ t _ HI Hx) as [_ Hd].
    split; (eapply disj_within; [|exact Hd]); unfold within; simpl; lia.
Qed.

Lemma give_block given new arenas s s' t p sz :
  Inv given new arenas s -> sys_alloc (MkLayout BLOCK_SIZE BLOCK_ALIGN) s = (p, s') -> p <> 0 ->
  0 < sz < BLOCK_SIZE ->
  Inv ((p, sz) :: given) ((p, BLOCK_SIZE) :: new)
    (<[t := MkArena (p + sz) (BLOCK_SIZE - sz)]> arenas) s'.
Proof.
  intros HI Hs Hp Hsz. destruct (Inv_blocks _ _ _ _ _ _ _ HI block_layout_ok Hs Hp) as [Hb' Hf'].
  eapply Inv_give; [exact HI|set_solver|exact Hb'|exact Hf'|..].
  - right. eexists. split; [constructor|unfold within; simpl; lia].
  - simpl. lia.
  - right. eexists. split; [constructor|unfold within; simpl; lia].
  - unfold disj. simpl. lia.
  - intros x Hx. destruct (free_apart _ _ _ _ t _ HI Hx) as [Hx' _].
    pose proof (block_apart _ _ _ _ _ _ _ _ HI block_layout_ok Hs Hp Hx') as Hd.
    split; (eapply disj_within; [|exact Hd]); unfold within; simpl; lia.
Qed.

Lemma give_large given new arenas s s' t p l :
  Inv given new arenas s -> layout_ok l -> sys_alloc l s = (p, s') -> p <> 0 ->
  Inv ((p, size l) :: given) ((p, size l) :: new) (<[t := arena_of t arenas]> arenas) s'.
Proof.
  intros HI Hl Hs Hp. destruct (Inv_blocks _ _ _ _ _ _ _ HI Hl Hs Hp) as [Hb' Hf'].
  assert (forall x, covered new x -> disj (p, size l) x) as Hd
    by (intros x Hx; exact (block_apart _ _ _ _ _ _ _ _ HI Hl Hs Hp Hx)).
  eapply Inv_give; [exact HI|set_solver|exact Hb'|exact Hf'|..].
  - right. eexists. split; [constructor|unfold within; simpl; lia].
  - apply (inv_len _ _ _ _ HI).
  - eapply (covered_mono new); [set_solver|apply (inv_arena _ _ _ _ HI)].
  - apply disj_sym, Hd, (inv_arena _ _ _ _ HI).
  - intros x Hx. destruct (free_apart _ _ _ _ t _ HI Hx) as [Hx' Hf]. auto.
Qed.

(** One allocation gives an aligned range that nothing else has. *)
Lemma arena_alloc_spec given new arenas s t l p a s' :
  Inv given new arenas s -> layout_ok l -> alloc l (arena_of t arenas) s = Ok (p, a, s') -> p <> 0 ->
  (align l | p) /\ exists new', Inv (range_of (p, l) :: given) new' (<[t := a]> arenas) s'.
Proof.
  intros HI Hl Halloc Hp. pose proof (layout_align l Hl).
  pose proof (align_offset_spec (start (arena_of t arenas)) (align l) ltac:(done)) as [Hpad Hdiv].
  assert (0 < size l) as Hsz by apply Hl.
  unfold alloc in Halloc. apply bind_Ok in Halloc as (? & Hal%guard_Ok%Z.leb_le & Halloc).
  apply bind_Ok in Halloc as (need & Hneed & Halloc). chk_inv.
  revert Halloc. destruct (Z.leb_spec (align_offset (start (arena_of t arenas)) (align l) + size l)
    (len (arena_of t arenas))); [|destruct (Z.ltb_spec (size l) BLOCK_SIZE)].
  - intros (rest & Hrest & [= <- <- <-])%bind_Ok. chk_inv. split; [done|].
    exists new. apply (give_bump _ _ _ _ _ _ _ HI). all: simpl; lia.
  - destruct (sys_alloc _ s) as [q s1] eqn:Hs. intros (rest & Hrest & [= <- <- <-])%bind_Ok. chk_inv.
    destruct (sys_block _ _ _ _ block_layout_ok Hs Hp) as (_ & Hdvd & _).
    split; [etrans; [by apply align_divides|exact Hdvd]|].
    eexists. apply (give_block _ _ _ _ _ _ _ _ HI Hs Hp). simpl. lia.
  - destruct (sys_alloc _ s) as [q s1] eqn:Hs. intros [= <- <- <-].
    destruct (sys_block _ _ _ _ Hl Hs Hp) as (_ & Hdvd & _). split; [done|].
    eexists. exact (give_large _ _ _ _ _ _ _ _ HI Hl Hs Hp).
Qed.

Lemma Inv_dealloc given new arenas s t q l :
  Inv given new arenas s -> Inv given new (<[t := dealloc q l (arena_of t arenas)]> arenas) s.
Proof.
  intros HI. assert (forall u, arena_of u (<[t := dealloc q l (arena_of t arenas)]> arenas) = arena_of u arenas) as E.
  { intros u. destruct (decide (t = u)) as [<-|]; [apply arena_of_insert|by apply arena_of_insert_ne]. }
  destruct HI. split; auto; intros; rewrite ?E; auto.
Qed.

Lemma serve_spec calls given new arenas s ps arenas' s' :
  Inv given new arenas s -> Forall call_ok calls -> serve calls arenas s = Ok (ps, arenas', s') ->
  Forall (fun x => x.1 <> 0) ps ->
  Forall (fun x => (align x.2 | x.1)) ps /\
  exists new', Inv (rev (map range_of ps) ++ given) new' arenas' s'.
Proof.
  revert given new arenas s ps. induction calls as [|[t [l|q l]] calls IH];
    intros given new arenas s ps HI Hok Hs Hp; simpl in Hs.
  - injection Hs as <- <- <-. split; [constructor|]. by exists new.
  - apply Forall_cons in Hok as [[Hl Hal] Hok].
    apply bind_Ok in Hs as ([[p a] s1] & Ha & Hs).
    apply bind_Ok in Hs as ([[ps1 ar] s2] & Hs & [= <- <- <-]).
    apply Forall_cons in Hp as [Hne Hp].
    destruct (arena_alloc_spec _ _ _ _ _ _ _ _ _ HI Hl Ha Hne) as [Hdvd [new1 HI1]].
    destruct (IH _ _ _ _ _ HI1 Hok Hs Hp) as [HF [new2 HI2]].
    split; [by constructor|]. exists new2. simpl. by rewrite <- app_assoc.
  - apply Forall_cons in Hok as [_ Hok]. exact (IH _ _ _ _ _ (Inv_dealloc _ _ _ _ t q l HI) Hok Hs Hp).
Qed.
End Invariant.

(** ** Allocations never panic *)

Section Total.
Context {SYS : System}.

Lemma alloc_total l a s :
  layout_ok l -> align l <= BLOCK_ALIGN -> 0 <= len a <= BLOCK_SIZE ->
  exists p a' s', alloc l a s = Ok (p, a', s') /\ 0 <= len a' <= BLOCK_SIZE.
Proof.
  intros Hl Hal Hlen. pose proof (layout_align l Hl).
  pose proof (align_offset_spec (start a) (align l) ltac:(done)) as [Hpad _].
  assert (0 < size l < 2 ^ 63) as Hsz by (destruct Hl as (_ & ? & ?); lia).
  assert (BLOCK_SIZE = 1048576 /\ BLOCK_ALIGN = 4096) as [HS HA] by done.
  unfold alloc. rewrite (proj2 (Z.leb_le _ _) Hal). simpl.
  rewrite add64_ok by lia. simpl.
  destruct (Z.leb_spec (align_offset (start a) (align l) + size l) (len a)); [|destruct (Z.ltb_spec (size l) BLOCK_SIZE)].
  - rewrite sub64_ok by lia. eexists _, _, _. split; [done|]. simpl. lia.
  - destruct (sys_alloc _ s) as [p s']. rewrite sub64_ok by lia.
    eexists _, _, _. split; [done|]. simpl. lia.
  - destruct (sys_alloc _ s) as [p s']. by eexists _, _, _.
Qed.

Definition requested (c : Z * request) : option Layout :=
  match c.2 with Alloc l => Some l | Dealloc _ _ => None end.

Lemma serve_total calls arenas s :
  Forall call_ok calls -> (forall t, 0 <= len (arena_of t arenas) <= BLOCK_SIZE) ->
  exists ps arenas' s', serve calls arenas s = Ok (ps, arenas', s') /\ ps.*2 = omap requested calls.
Proof.
  revert arenas s. induction calls as [|[t [l|q l]] calls IH]; intros arenas s Hok Hlen; simpl.
  - by eexists _, _, _.
  - apply Forall_cons in Hok as [[Hl Hal] Hok].
    destruct (alloc_total l (arena_of t arenas) s Hl Hal (Hlen t)) as (p & a & s1 & -> & Ha). simpl.
    destruct (IH (<[t := a]> arenas) s1 Hok) as (ps & ar & s2 & -> & Hps).
    { intros u. destruct (decide (t = u)) as [<-|]; [by rewrite arena_of_insert|].
      by rewrite arena_of_insert_ne. }
    simpl. eexists _, _, _. split; [done|]. cbn. f_equal. exact Hps.
  - apply Forall_cons in Hok as [_ Hok]. apply IH; [done|]. intros u.
    destruct (decide (t = u)) as [<-|]; [rewrite arena_of_insert; apply Hlen|].
    rewrite arena_of_insert_ne by done. apply Hlen.
Qed.
End Total.

(** ** Theorems *)

Section Claims.
Context {SYS : System} {SYSL : SystemLaws SYS}.

(** C24: Whatever the host threads allocate and deallocate, in any order, no call
    panics; and if the system never answers with a null pointer, the ranges given out are aligned as
    asked, pairwise disjoint, and inside blocks the system handed out for them, apart
    from those it had handed out before. *)
Theorem allocations_disjoint calls s :
  Forall call_ok calls ->
  exists ps arenas s', serve calls ∅ s = Ok (ps, arenas, s') /\ ps.*2 = omap requested calls /\
    (Forall (fun x => x.1 <> 0) ps ->
      Forall (fun x => (align x.2 | x.1)) ps /\ ForallOrdPairs disj (map range_of ps) /\
      exists new, blocks s' = new ++ blocks s /\ Forall (fun b => Forall (disj b) (blocks s)) new /\
        Forall (fun x => exists b, b ∈ new /\ within (range_of x) b) ps).
Proof.
  intros Hok.
  assert (forall t, arena_of t ∅ = ARENA) as E by (intros t; unfold arena_of; by rewrite lookup_empty).
  destruct (serve_total calls ∅ s Hok) as (ps & arenas & s' & Hs & Hps).
  { intros t. rewrite E. done. }
  exists ps, arenas, s'. split; [done|]. split; [done|]. intros Hne.
  destruct (serve_spec (blocks s) calls [] [] ∅ s ps arenas s') as [Hal [new HI]]; [|done..|].
  { split; try done; intros; rewrite ?E; try done; by left. }
  rewrite app_nil_r in HI. split; [done|]. split.
  { eapply ForallOrdPairs_Permutation; [exact disj_sym|symmetry; apply Permutation_rev|].
    exact (inv_apart _ _ _ _ _ HI). }
  exists new. split; [exact (inv_blocks _ _ _ _ _ HI)|]. split; [exact (inv_fresh _ _ _ _ _ HI)|].
  apply Forall_forall. intros x Hx.
  pose proof (inv_given _ _ _ _ _ HI) as HF. rewrite Forall_forall in HF.
  rewrite Forall_forall in Hne. pose proof (Hne x Hx) as Hx0.
  destruct (HF (range_of x)) as [Hz|?]; [|unfold range_of in Hz; congruence|done].
  rewrite <- Permutation_rev. by apply list_elem_of_fmap_2.
Qed.
End Claims.

(** ** A system allocator

    One that hands out ascending addresses until it has reached [limit]. *)

Section Ascending.
Variable limit : Z.

Definition top (s : list (Z * Z)) : Z := foldr (fun b m => Z.max (b.1 + b.2) m) 4096 s.

#[export] Instance ascending : System := {
  Sys := list (Z * Z);
  sys_alloc l s :=
    let p := top s + align_offset (top s) (align l) in
    if p + size l <=? limit then (p, (p, size l) :: s) else (0, s);
  blocks s := s
}.

Lemma top_ge s : 4096 <= top s.
Proof. induction s; simpl; lia. Qed.

Lemma top_above s b : b ∈ s -> b.1 + b.2 <= top s.
Proof. induction 1; simpl; lia. Qed.

#[export] Instance ascending_laws : SystemLaws ascending.
Proof.
  split. intros l s p s' Hl. simpl. pose proof (top_ge s). pose proof (layout_align l Hl) as Ha.
  destruct (align_offset_spec (top s) (align l) Ha) as [Ho Hd].
  zcase; [|by intros [= <-]]. intros [= <- <-] _. split_and!; [done|done|lia|].
  apply Forall_forall. intros b Hb%top_above. right. simpl. lia.
Qed.
End Ascending.

(** Two threads: the second request of thread 1 does not fit behind the first,
    and the fourth is too large for a block. *)
Definition sample_calls : list (Z * request) := [
  (1, Alloc (MkLayout 1000000 8)); (2, Alloc (MkLayout 3 1)); (1, Alloc (MkLayout 65536 16));
  (2, Alloc (MkLayout 3145728 4096)); (2, Dealloc 0 (MkLayout 3 1)); (2, Alloc (MkLayout 8 64))
].

Example sample_serve :
  (let! (ps, _, _) := serve (SYS := ascending (2 ^ 40)) sample_calls ∅ [] in Ok ps.*1) =
  Ok [4096; 1052672; 2101248; 3149824; 1052736].
Proof. vm_compute. reflexivity. Qed.

Lemma allocations_disjoint_witness :
  exists ps arenas s', serve (SYS := ascending (2 ^ 40)) sample_calls ∅ [] = Ok (ps, arenas, s') /\
    length ps = 5%nat /\ Forall (fun x => x.1 <> 0) ps /\ ForallOrdPairs disj (map range_of ps).
Proof.
  destruct (allocations_disjoint (SYS := ascending (2 ^ 40)) sample_calls []) as (ps & ar & s' & Hs & Hl & H).
  { unfold sample_calls. repeat constructor; simpl; unfold BLOCK_ALIGN; try lia.
    - by exists 3. - by exists 0. - by exists 4. - by exists 12. - by exists 6. }
  exists ps, ar, s'. split; [done|].
  assert (ps.*1 = [4096; 1052672; 2101248; 3149824; 1052736]) as E.
  { pose proof sample_serve as E. rewrite Hs in E. by apply Ok_inj in E. }
  assert (Forall (fun x => x.1 <> 0) ps) as Hne.
  { apply Forall_fmap with (f := fst) (P := fun x => x <> 0). rewrite E. repeat constructor; lia. }
  split; [|split; [done|by apply H]]. rewrite <- (length_fmap fst ps), E. done.
Defined.

(** When the system has no memory, the arena takes the null pointer for a
    block: the call returns null, as it should, and the next one an address in
    the first page. *)
Theorem null_block_is_used :
  (let! (ps, _, _) := serve (SYS := ascending 0) [(1, Alloc (MkLayout 16 8)); (1, Alloc (MkLayout 16 8))] ∅ [] in
   Ok ps.*1) = Ok [0; 16].
Proof. vm_compute. reflexivity. Qed.
