(* ===== verification/Timers.v ===== *)
(** * Timers: src/src/util/timer.rs

    With the feature [timer] the simulator measures itself: a scope
    ([timer!]) or each poll of a future ([async_timer!]) adds the time it took
    to a counter of its place in the source, and the counters that were used are
    listed by name. The clock is a parameter: the readings are arguments, in
    nanoseconds. Without the feature the macros are the code they wrap. *)

From S2P Require Import Prelude.

(** [COUNTER], one for each place, and [TOTALS]. *)
Record Timers := MkTimers { counters : gmap Z Z; totals : gmap String.string Z }.

Definition timers_new : Timers := MkTimers ∅ ∅.

Definition counter_value (counter : Z) (this : Timers) : Z := default 0 (counters this !! counter).

Record Timer := MkTimer { name : String.string; counter : Z; start : Z }.

(** [timer!] at the place [counter]. *)
Definition timer (name : String.string) (counter now : Z) : Timer := MkTimer name counter now.

(** [Drop for Timer]. The difference of two instants panics when it is negative;
    the cast to [u64] and [fetch_add] wrap. *)
Definition timer_drop (t : Timer) (now : Z) (this : Timers) : res Timers :=
  assert! start t <=? now or Overflow in
  let delta := now - start t in
  let old := counter_value (counter t) this in
  let counters := <[counter t := wrap 64 (old + wrap 64 delta)]> (counters this) in
  Ok (MkTimers counters (if old =? 0 then <[name t := counter t]> (totals this) else totals this)).

(** [dump_trace]: the times by name. *)
Definition dump_trace (this : Timers) : gmap String.string Z := (fun c => counter_value c this) <$> totals this.

(** [struct TimerFuture], around any future with its [poll]. *)
Section TimerFuture.
Context {F W A : Type}.
Variable fut_poll : F -> W -> res (option A * F * W).

Record TimerFuture := MkTimerFuture { tf_name : String.string; tf_counter : Z; fut : F }.

(** [Future::poll], read at [now] and done at [later]. *)
Definition timer_poll (now later : Z) (self : TimerFuture) (w : W) (this : Timers)
    : res (option A * TimerFuture * W * Timers) :=
  let t := timer (tf_name self) (tf_counter self) now in
  let! (o, f, w) := fut_poll (fut self) w in
  let! this := timer_drop t later this in
  Ok (o, MkTimerFuture (tf_name self) (tf_counter self) f, w, this).

(** Measuring a future changes neither its results nor its effects. *)
Lemma timer_poll_transparent now later self w this : now <= later ->
  match fut_poll (fut self) w with
  | Ok (o, f, w') => exists this', timer_poll now later self w this =
      Ok (o, MkTimerFuture (tf_name self) (tf_counter self) f, w', this')
  | Panic p => timer_poll now later self w this = Panic p
  end.
Proof.
  intros Hle. unfold timer_poll. destruct (fut_poll (fut self) w) as [[[o f] w']|p]; [|done]. cbn [bind].
  unfold timer_drop. cbn [start timer]. replace (now <=? later) with true by lia. by eexists.
Qed.
End TimerFuture.

(** ** The times are the sums of the scopes *)

(** A scope that was entered and left: its place and when. *)
Record Scope := MkScope { sc_place : Z; sc_start : Z; sc_end : Z }.
Definition sc_time (x : Scope) : Z := sc_end x - sc_start x.

Section Sums.
(** The name at each place. *)
Variable name_of : Z -> String.string.

Definition leave (this : Timers) (x : Scope) : res Timers :=
  timer_drop (timer (name_of (sc_place x)) (sc_place x) (sc_start x)) (sc_end x) this.

Definition at_place (c : Z) (l : list Scope) : list Scope := filter (fun x => sc_place x = c) l.
Definition time_at (c : Z) (l : list Scope) : Z := foldr (fun x z => sc_time x + z) 0 (at_place c l).

Lemma at_place_snoc c l x : at_place c (l ++ [x]) = at_place c l ++ (if decide (sc_place x = c) then [x] else []).
Proof. unfold at_place. rewrite filter_app. by f_equal. Qed.

Lemma time_at_snoc c l x : time_at c (l ++ [x]) = time_at c l + (if decide (sc_place x = c) then sc_time x else 0).
Proof.
  unfold time_at. rewrite at_place_snoc. destruct (decide (sc_place x = c)); [|rewrite app_nil_r; lia].
  induction (at_place c l) as [|y ys IH]; simpl in *; lia.
Qed.

Definition scope_ok (x : Scope) : Prop := sc_start x <= sc_end x.

Lemma time_at_nonneg c l : Forall scope_ok l -> 0 <= time_at c l.
Proof.
  intros Hl. unfold time_at, at_place. induction Hl as [|x l Hx _ IH]; [done|]. rewrite filter_cons.
  destruct (decide (sc_place x = c)); [|done]. simpl. unfold scope_ok, sc_time in *. lia.
Qed.

(** The counters are the sums, and a place is listed once it was left. *)
Record sums (l : list Scope) (this : Timers) : Prop := {
  su_counter c : counter_value c this = time_at c l;
  su_total c : totals this !! name_of c = (if decide (at_place c l = []) then None else Some c)
}.

Lemma leave_sums l x this : Inj (=) (=) name_of -> Forall scope_ok l -> scope_ok x ->
  time_at (sc_place x) (l ++ [x]) < 2 ^ 64 -> sums l this -> exists this', leave this x = Ok this' /\ sums (l ++ [x]) this'.
Proof.
  intros Hinj Hl Hx Hmax [Hc Ht]. unfold leave, timer_drop, timer. cbn [start name counter].
  unfold scope_ok in Hx. replace (sc_start x <=? sc_end x) with true by lia. cbn [bind guard_].
  eexists. split; [reflexivity|]. rewrite time_at_snoc, decide_True in Hmax by done.
  pose proof (time_at_nonneg (sc_place x) l Hl) as Hpos. fold (sc_time x).
  assert (0 <= sc_time x) as Hd by (unfold sc_time; lia).
  rewrite Hc. rewrite (wrap_small 64 (sc_time x)) by (lia || done). rewrite wrap_small by (lia || done). split.
  - intros c. rewrite time_at_snoc. unfold counter_value. simpl. destruct (decide (sc_place x = c)) as [<-|Hne].
    + by rewrite lookup_insert_eq.
    + rewrite lookup_insert_ne by done. specialize (Hc c). unfold counter_value in Hc. lia.
  - intros c. rewrite at_place_snoc. simpl. destruct (decide (sc_place x = c)) as [<-|Hne].
    + rewrite (decide_False (P := _ ++ [x] = [])) by (by destruct (at_place _ l)).
      destruct (time_at (sc_place x) l =? 0) eqn:E; [by rewrite lookup_insert_eq|].
      rewrite Ht. destruct (decide (at_place (sc_place x) l = [])) as [He|]; [|done].
      unfold time_at in E. by rewrite He in E.
    + rewrite app_nil_r. destruct (_ =? 0); [|apply Ht]. rewrite lookup_insert_ne; [apply Ht|].
      intros Heq. apply Hne, Hinj, Heq.
Qed.

(** After any scopes, [dump_trace] lists the places that were left, each with the
    whole time spent in it, if places have names of their own and no sum
    overflows. *)
Theorem dump_lists_sums (l : list Scope) :
  Inj (=) (=) name_of -> Forall scope_ok l -> (forall c, time_at c l < 2 ^ 64) ->
  exists this, foldM leave timers_new l = Ok this /\
    forall c, dump_trace this !! name_of c = (if decide (at_place c l = []) then None else Some (time_at c l)).
Proof.
  intros Hinj Hl Hmax. assert (exists this, foldM leave timers_new l = Ok this /\ sums l this) as (this & Hr & [Hc Ht]).
  { induction l as [|x l IH] using rev_ind; [exists timers_new; split; [done|split; intros c; [done|apply lookup_empty]]|].
    apply Forall_app in Hl as [Hl Hx]. apply Forall_cons in Hx as [Hx _].
    destruct IH as (this & Hr & Hs); [done| |].
    { intros c. specialize (Hmax c). rewrite time_at_snoc in Hmax. destruct (decide (sc_place x = c)); unfold scope_ok, sc_time in *; lia. }
    destruct (leave_sums l x this Hinj Hl Hx (Hmax _) Hs) as (this' & Hr' & Hs'). exists this'. split; [|done].
    rewrite foldM_app, Hr. cbn. by rewrite Hr'. }
  exists this. split; [done|]. intros c. unfold dump_trace. rewrite lookup_fmap, Ht.
  destruct (decide (at_place c l = [])); [done|]. simpl. by rewrite Hc.
Qed.
End Sums.

(** Two places of one name share a line, which shows the one whose first scope
    ended last. *)
Example shared_name_hides :
  dump_trace <$> (match foldM (leave (fun _ => "step"%string)) timers_new [MkScope 1 0 5; MkScope 2 5 12] with Ok t => Some t | Panic _ => None end)
  = Some {["step"%string := 7]}.
Proof. vm_compute. reflexivity. Qed.
