(* ===== verification/FreeList.v ===== *)
(** * FreeList: src/src/util/freelist.rs

    The pool of reference-counted slots that thunks live in. A slot whose last
    handle is dropped is pushed on the free list and its memory reused by a
    later [alloc]. The boxes the global allocator returns are arguments. The
    specification is a heap of live values with their number of handles: a slot
    is never reused while a handle to it exists. The section [Shared] adds the
    handles to the pool itself, one of which every box holds. *)

From S2P Require Import Prelude.

Section FreeList.
Context {T : Type}.

(** ** Data and operations *)

(** [struct FrcInner]; its field [list] is the pool itself. *)
Record FrcInner := MkFrc { refcount : Z; value : T }.

(** The boxes by address, and the free list of the pool. *)
Record FreeList := MkFreeList { boxes : gmap Z FrcInner; free : list Z }.

(** [FreeList::new] *)
Definition freelist_new : FreeList := MkFreeList ∅ [].

(** [Vec::pop] *)
Definition vec_pop {A} (l : list A) : option (A * list A) :=
  match rev l with [] => None | a :: r => Some (a, rev r) end.

(** [FreeList::alloc]; [box] is the address a new box would get. *)
Definition alloc (box : Z) (v : T) (this : FreeList) : res (Z * FreeList) :=
  match vec_pop (free this) with
  | Some (ptr, free') =>
      let! inner := unwrap (boxes this !! ptr) in
      Ok (ptr, MkFreeList (<[ptr := MkFrc (refcount inner) v]> (boxes this)) free')
  | None => Ok (box, MkFreeList (<[box := MkFrc 0 v]> (boxes this)) (free this))
  end.

(** [Clone for Frc] *)
Definition clone_frc (ptr : Z) (this : FreeList) : res FreeList :=
  let! inner := unwrap (boxes this !! ptr) in
  let! r := add64 (refcount inner) 1 in
  Ok (MkFreeList (<[ptr := MkFrc r (value inner)]> (boxes this)) (free this)).

(** [Drop for Frc] *)
Definition drop_frc (ptr : Z) (this : FreeList) : res FreeList :=
  let! inner := unwrap (boxes this !! ptr) in
  if 1 <=? refcount inner
  then Ok (MkFreeList (<[ptr := MkFrc (refcount inner - 1) (value inner)]> (boxes this)) (free this))
  else Ok (MkFreeList (boxes this) (free this ++ [ptr])).

(** [Deref for Frc] *)
Definition deref (ptr : Z) (this : FreeList) : res T :=
  let! inner := unwrap (boxes this !! ptr) in Ok (value inner).

(** ** The specification: live values and their handles *)

(** [live !! p = Some (n, v)]: [n + 1] handles to [p] exist and read [v]. *)
Abbreviation Live := (gmap Z (Z * T)).

Inductive op :=
  | Alloc (box : Z) (v : T) | CloneFrc (ptr : Z) | DropFrc (ptr : Z) | Deref (ptr : Z).

(** A call's result: the new handle, the value read, or nothing. *)
Definition fl_step (this : FreeList) (o : op) : res (option Z * option T * FreeList) :=
  match o with
  | Alloc b v => let! (p, s) := alloc b v this in Ok (Some p, None, s)
  | CloneFrc p => let! s := clone_frc p this in Ok (None, None, s)
  | DropFrc p => let! s := drop_frc p this in Ok (None, None, s)
  | Deref p => let! v := deref p this in Ok (None, Some v, this)
  end.

(** What a client may see: [alloc] gives an address no handle points to;
    handles are cloned, dropped and read only while they exist. *)
Inductive live_step : Live -> op -> option Z * option T -> Live -> Prop :=
  | live_alloc l b v p : l !! p = None -> live_step l (Alloc b v) (Some p, None) (<[p := (0, v)]> l)
  | live_clone l p n v : l !! p = Some (n, v) ->
      live_step l (CloneFrc p) (None, None) (<[p := (n + 1, v)]> l)
  | live_drop_more l p n v : l !! p = Some (n, v) -> 0 < n ->
      live_step l (DropFrc p) (None, None) (<[p := (n - 1, v)]> l)
  | live_drop_last l p v : l !! p = Some (0, v) -> live_step l (DropFrc p) (None, None) (delete p l)
  | live_deref l p n v : l !! p = Some (n, v) -> live_step l (Deref p) (None, Some v) l.

(** The calls Rust's ownership lets a client make, with a box no one owns. *)
Definition op_ok (this : FreeList) (l : Live) (o : op) : Prop :=
  match o with
  | Alloc b _ => boxes this !! b = None
  | CloneFrc p => exists n v, l !! p = Some (n, v) /\ n + 1 < 2 ^ 64
  | DropFrc p | Deref p => is_Some (l !! p)
  end.

(** The simulation: every box is either free or live. *)
Definition sim (this : FreeList) (l : Live) : Prop :=
  NoDup (free this) /\
  (forall p, p ∈ free this -> l !! p = None /\ exists v, boxes this !! p = Some (MkFrc 0 v)) /\
  (forall p n v, l !! p = Some (n, v) -> 0 <= n /\ boxes this !! p = Some (MkFrc n v)) /\
  (forall p i, boxes this !! p = Some i -> p ∈ free this \/ is_Some (l !! p)).

Lemma vec_pop_Some {A} (l : list A) a r : vec_pop l = Some (a, r) -> l = r ++ [a].
Proof.
  unfold vec_pop. intros H. rewrite <- (rev_involutive l). destruct (rev l); [done|].
  by injection H as <- <-.
Qed.

Lemma vec_pop_None {A} (l : list A) : vec_pop l = None -> l = [].
Proof.
  unfold vec_pop. intros H. rewrite <- (rev_involutive l). by destruct (rev l).
Qed.

Lemma sim_new : sim freelist_new ∅.
Proof.
  split_and!; simpl; [constructor|..]; intros *; rewrite ?lookup_empty; try done. set_solver.
Qed.

Lemma alloc_sim this l b v :
  sim this l -> boxes this !! b = None ->
  exists p s, alloc b v this = Ok (p, s) /\ l !! p = None /\ sim s (<[p := (0, v)]> l).
Proof.
  intros (Hnd & Hfree & Hlive & Hall) Hb. unfold alloc.
  destruct (vec_pop (free this)) as [[p f]|] eqn:E.
  - apply vec_pop_Some in E. rewrite E in Hnd. apply NoDup_app in Hnd as (Hnd & Hdis & _).
    destruct (Hfree p) as (Hl & u & Hu); [rewrite E; set_solver|]. rewrite Hu. simpl.
    eexists _, _. split_and!; [done|done|]. split_and!; simpl.
    + done.
    + intros q Hq. assert (q <> p) by (intros ->; eapply Hdis; set_solver).
      rewrite !lookup_insert_ne by done. apply Hfree. rewrite E. set_solver.
    + intros q n w. rewrite !lookup_insert_Some. intros [[-> [= <- <-]]|[Hne Hq]].
      * split; [lia|]. by left.
      * apply Hlive in Hq as [? ?]. split; [done|]. by right.
    + intros q i. rewrite !lookup_insert_Some, lookup_insert_is_Some'.
      intros [[-> _]|[Hne Hq]]; [by right; left|]. apply Hall in Hq. rewrite E in Hq.
      destruct Hq as [[?|?%list_elem_of_singleton]%elem_of_app|?]; [by left|congruence|by right; right].
  - apply vec_pop_None in E.
    assert (l !! b = None) as Hl.
    { apply eq_None_not_Some. intros [[n w] Hw]. apply Hlive in Hw as [_ Hw]. congruence. }
    eexists _, _. split_and!; [done|done|]. split_and!; simpl.
    + done.
    + rewrite E. set_solver.
    + intros q n w. rewrite !lookup_insert_Some. intros [[-> [= <- <-]]|[Hne Hq]].
      * split; [lia|]. by left.
      * apply Hlive in Hq as [? ?]. split; [done|]. by right.
    + intros q i. rewrite !lookup_insert_Some, lookup_insert_is_Some'.
      intros [[-> _]|[Hne Hq]]; [by right; left|]. apply Hall in Hq as [?|?]; [by left|by right; right].
Qed.

(** Changing the count of a live box. *)
Lemma sim_recount this l p n v n' :
  sim this l -> l !! p = Some (n, v) -> 0 <= n' ->
  sim (MkFreeList (<[p := MkFrc n' v]> (boxes this)) (free this)) (<[p := (n', v)]> l).
Proof.
  intros (Hnd & Hfree & Hlive & Hall) Hp Hn'. split_and!; simpl.
  - done.
  - intros q Hq. destruct (Hfree q Hq) as (Hl & Hv).
    rewrite !lookup_insert_ne by congruence. done.
  - intros q m w. rewrite !lookup_insert_Some. intros [[-> [= <- <-]]|[Hne Hq]].
    + split; [done|]. by left.
    + apply Hlive in Hq as [? ?]. split; [done|]. by right.
  - intros q i. rewrite !lookup_insert_Some, lookup_insert_is_Some'.
    intros [[-> _]|[Hne Hq]]; [by right; left|]. apply Hall in Hq as [?|?]; [by left|by right; right].
Qed.

Lemma sim_release this l p v :
  sim this l -> l !! p = Some (0, v) -> sim (MkFreeList (boxes this) (free this ++ [p])) (delete p l).
Proof.
  intros (Hnd & Hfree & Hlive & Hall) Hp. split_and!; simpl.
  - apply NoDup_app. split_and!; [done| |apply NoDup_singleton].
    intros q [Hl _]%Hfree Hqp%list_elem_of_singleton. congruence.
  - intros q [Hq|Hqp%list_elem_of_singleton]%elem_of_app; [|subst q].
    + destruct (Hfree q Hq) as (? & ?). split; [|done]. rewrite lookup_delete_ne; [done|congruence].
    + rewrite lookup_delete_eq. split; [done|]. exists v. by apply (Hlive p 0 v).
  - intros q n w [_ Hq]%lookup_delete_Some. by apply Hlive.
  - intros q i Hq. destruct (decide (q = p)) as [->|Hne].
    + left. set_solver.
    + apply Hall in Hq as [?|?]; [left; set_solver|right]. by rewrite lookup_delete_ne.
Qed.

Lemma fl_step_sim this l o :
  sim this l -> op_ok this l o ->
  exists p v s l', fl_step this o = Ok (p, v, s) /\ live_step l o (p, v) l' /\ sim s l'.
Proof.
  intros Hsim Hok. pose proof Hsim as (Hnd & Hfree & Hlive & Hall).
  destruct o as [b v|p|p|p]; simpl in *.
  - destruct (alloc_sim this l b v Hsim Hok) as (p & s & -> & Hl & Hs). simpl.
    eexists _, _, _, _. split_and!; [done|by constructor|done].
  - destruct Hok as (n & v & Hp & Hn). destruct (Hlive p n v Hp) as [H0 Hb].
    unfold clone_frc. rewrite Hb. simpl. rewrite add64_ok by lia. simpl.
    eexists _, _, _, _. split_and!; [done|by econstructor|]. eapply sim_recount; [done..|lia].
  - destruct Hok as [[n v] Hp]. destruct (Hlive p n v Hp) as [H0 Hb].
    unfold drop_frc. rewrite Hb. simpl. destruct (Z.leb_spec 1 n); simpl; eexists _, _, _, _.
    + split_and!; [done|eapply live_drop_more; [done|lia]|]. eapply sim_recount; [done..|lia].
    + assert (n = 0) as -> by lia. split_and!; [done|by eapply live_drop_last|by eapply sim_release].
  - destruct Hok as [[n v] Hp]. destruct (Hlive p n v Hp) as [H0 Hb].
    unfold deref. rewrite Hb. simpl. eexists _, _, _, _. split_and!; [done|by econstructor|done].
Qed.

(** A client's run, with the live values the specification gives it. *)
Inductive fl_run : FreeList -> Live -> list op -> FreeList -> Live -> Prop :=
  | fl_nil s l : fl_run s l [] s l
  | fl_cons s l o r s1 l1 os s2 l2 : op_ok s l o -> fl_step s o = Ok (r, s1) ->
      live_step l o r l1 -> fl_run s1 l1 os s2 l2 -> fl_run s l (o :: os) s2 l2.

Lemma live_step_fun l o r l1 l2 : live_step l o r l1 -> live_step l o r l2 -> l1 = l2.
Proof. intros H1 H2. inversion H1; subst; inversion H2; subst; congruence || (simplify_eq; lia). Qed.

Lemma fl_run_sim s l os s' l' : fl_run s l os s' l' -> sim s l -> sim s' l'.
Proof.
  induction 1 as [|s l o r s1 l1 os s2 l2 Hok Hst Hl _ IH]; intros Hsim; [done|].
  destruct (fl_step_sim s l o Hsim Hok) as (p & v & s1' & l1' & Hst' & Hl' & Hsim').
  rewrite Hst in Hst'. injection Hst' as -> <-.
  by rewrite (live_step_fun _ _ _ _ _ Hl Hl') in IH; apply IH.
Qed.
End FreeList.

Section Shared.
Context {T : Type}.

(** ** Handles to the pool itself

    [FreeList] is an [Rc] to the pool: the client has handles to it and so has
    every box ([FrcInner.list]). *)

(** The pool and the strong count of its [Rc]. *)
Record Shared := MkShared { pool : @FreeList T; strong : Z }.

Definition shared_new : Shared := MkShared freelist_new 1.

(** [Clone for FreeList] *)
Definition clone_list (this : Shared) : res Shared :=
  let! n := add64 (strong this) 1 in
  Ok (MkShared (pool this) n).

(** [FreeList::alloc]: a new box clones [self]. *)
Definition shared_alloc (box : Z) (v : T) (this : Shared) : res (Z * Shared) :=
  let! (p, s) := alloc box v (pool this) in
  match free (pool this) with
  | [] => let! this := clone_list (MkShared s (strong this)) in Ok (p, this)
  | _ :: _ => Ok (p, MkShared s (strong this))
  end.

(** [Drop for FreeListInner]: the boxes on the free list go back to the global
    allocator. *)
Definition drop_inner (this : @FreeList T) : @FreeList T :=
  MkFreeList (foldr (fun p m => delete p m) (boxes this) (free this)) (free this).

(** Dropping a handle to the pool; the last one drops the pool. *)
Definition drop_list (this : Shared) : Shared :=
  let n := strong this - 1 in
  if n =? 0 then MkShared (drop_inner (pool this)) n else MkShared (pool this) n.

Inductive list_op := Slot (o : @op T) | CloneList | DropList.

Definition shared_step (this : Shared) (o : list_op) : res Shared :=
  match o with
  | Slot (Alloc b v) => let! (_, this) := shared_alloc b v this in Ok this
  | Slot o => let! (_, s) := fl_step (pool this) o in Ok (MkShared s (strong this))
  | CloneList => clone_list this
  | DropList => Ok (drop_list this)
  end.

(** A client's run, with the live values and the number of handles to the pool
    that the client has. *)
Definition list_op_ok (this : Shared) (l : gmap Z (Z * T)) (h : Z) (o : list_op) : Prop :=
  match o with
  | Slot (Alloc b _ as o) => op_ok (pool this) l o /\ 0 < h /\ strong this + 1 < 2 ^ 64
  | Slot o => op_ok (pool this) l o
  | CloneList => 0 < h /\ strong this + 1 < 2 ^ 64
  | DropList => 0 < h
  end.

Definition handles (h : Z) (o : list_op) : Z :=
  match o with Slot _ => h | CloneList => h + 1 | DropList => h - 1 end.

Inductive shared_run : Shared -> gmap Z (Z * T) -> Z -> list list_op -> Shared -> gmap Z (Z * T) -> Z -> Prop :=
  | sr_nil s l h : shared_run s l h [] s l h
  | sr_slot s l h o r s1 s2 l1 os s3 l3 h3 : list_op_ok s l h (Slot o) ->
      fl_step (pool s) o = Ok (r, s1) -> live_step l o r l1 -> shared_step s (Slot o) = Ok s2 ->
      shared_run s2 l1 h os s3 l3 h3 -> shared_run s l h (Slot o :: os) s3 l3 h3
  | sr_list s l h o s2 os s3 l3 h3 : list_op_ok s l h o -> match o with Slot _ => False | _ => True end ->
      shared_step s o = Ok s2 ->
      shared_run s2 l (handles h o) os s3 l3 h3 -> shared_run s l h (o :: os) s3 l3 h3.

(** The strong count is the client's handles and the boxes. *)
Definition shared_ok (s : Shared) (l : gmap Z (Z * T)) (h : Z) : Prop :=
  sim (pool s) l /\ 0 <= h /\ strong s = h + Z.of_nat (size (boxes (pool s))).

Lemma boxes_size_0 s (l : gmap Z (Z * T)) : sim s l -> size (boxes s) = 0%nat -> free s = [].
Proof.
  intros (_ & Hfree & _) Hz. apply map_size_empty_iff in Hz. destruct (free s) as [|p f]; [done|].
  destruct (Hfree p) as (_ & v & Hv); [constructor|]. by rewrite Hz in Hv.
Qed.

Lemma insert_boxes_size (m : gmap Z (@FrcInner T)) p i : is_Some (m !! p) -> size (<[p := i]> m) = size m.
Proof. intros [j Hj]. rewrite map_size_insert, Hj. done. Qed.

(** A call on a slot makes a box if it is an [alloc] that finds no free one. *)
Lemma fl_step_boxes s (l : gmap Z (Z * T)) o r s1 :
  sim s l -> op_ok s l o -> fl_step s o = Ok (r, s1) ->
  size (boxes s1) = (size (boxes s) +
    match o with Alloc _ _ => match free s with [] => 1 | _ => 0 end | _ => 0 end)%nat /\
  (forall p, is_Some (boxes s !! p) -> is_Some (boxes s1 !! p)).
Proof.
  assert (forall (m : gmap Z (@FrcInner T)) p i q, is_Some (m !! q) -> is_Some (<[p := i]> m !! q)) as Hins
    by (intros *; rewrite lookup_insert_is_Some'; by right).
  intros Hsim Hok. unfold fl_step, alloc, clone_frc, drop_frc, deref.
  destruct o as [b v|p|p|p]; simpl in *.
  - destruct (vec_pop (free s)) as [[p f]|] eqn:E; intros H; res_inv.
    + apply vec_pop_Some in E. destruct (free s) as [|? ?]; [by destruct f|].
      rewrite insert_boxes_size by done. split; [lia|auto].
    + apply vec_pop_None in E. rewrite E, map_size_insert, Hok. split; [simpl; lia|auto].
  - intros H; res_inv. rewrite insert_boxes_size by done. split; [lia|auto].
  - intros H; res_inv. destruct (1 <=? _); res_inv; rewrite ?insert_boxes_size by done; split; (lia || auto).
  - intros H; res_inv. split; [lia|auto].
Qed.

Lemma shared_step_ok s l h o :
  shared_ok s l h -> list_op_ok s l h o ->
  exists s', shared_step s o = Ok s' /\
    (forall p, is_Some (boxes (pool s) !! p) -> is_Some (boxes (pool s') !! p)) /\
    match o with
    | Slot o => forall r s1 l1, fl_step (pool s) o = Ok (r, s1) -> live_step l o r l1 -> shared_ok s' l1 h
    | _ => shared_ok s' l (handles h o)
    end.
Proof.
  intros (Hsim & Hh & Hst) Hok. destruct o as [o| |].
  - assert (op_ok (pool s) l o) as Ho by (destruct o; apply Hok).
    destruct (fl_step_sim _ _ _ Hsim Ho) as (p & v & s1 & l1 & Hs1 & Hl1 & Hsim1).
    destruct (fl_step_boxes _ _ _ _ _ Hsim Ho Hs1) as [Hsz Hdom].
    assert (shared_step s (Slot o) = Ok (MkShared s1 (h + Z.of_nat (size (boxes s1))))) as ->.
    { destruct o as [b w| | |]; simpl in *; [|rewrite Hs1; simpl; do 2 f_equal; lia..].
      unfold shared_alloc. destruct (alloc b w (pool s)) as [[q s2]|]; simpl in *; [|done].
      injection Hs1 as _ _ ->. destruct (free (pool s)); simpl; [|do 2 f_equal; lia].
      unfold clone_list. simpl. destruct Hok as (_ & _ & Hlt). rewrite add64_ok by lia. simpl.
      do 2 f_equal. lia. }
    eexists. split; [done|]. split; [exact Hdom|].
    intros r s1' l1' Hs1' Hl1'. rewrite Hs1 in Hs1'. injection Hs1' as <- <-.
    rewrite (live_step_fun _ _ _ _ _ Hl1' Hl1). done.
  - simpl in *. unfold clone_list. rewrite add64_ok by lia. simpl. eexists. split; [done|].
    split; [done|]. split_and!; simpl; [done|lia|lia].
  - simpl in *. eexists. split; [done|]. unfold drop_list.
    destruct (Z.eqb_spec (strong s - 1) 0); simpl.
    + assert (size (boxes (pool s)) = 0%nat) as Hz by lia.
      unfold drop_inner. rewrite (boxes_size_0 _ _ Hsim Hz). simpl.
      pose proof (boxes_size_0 _ _ Hsim Hz) as Hf. split; [done|].
      split_and!; simpl; [|lia|lia]. rewrite <- Hf. by destruct (pool s).
    + split; [done|]. split_and!; simpl; [done|lia|lia].
Qed.

Lemma shared_run_ok s l h os s' l' h' :
  shared_run s l h os s' l' h' -> shared_ok s l h ->
  shared_ok s' l' h' /\ (forall p, is_Some (boxes (pool s) !! p) -> is_Some (boxes (pool s') !! p)).
Proof.
  induction 1 as [|s l h o r s1 s2 l1 os s3 l3 h3 Hok Hs1 Hl1 Hs2 _ IH|s l h o s2 os s3 l3 h3 Hok Ho Hs2 _ IH];
    intros Hs; [done|..];
    destruct (shared_step_ok _ _ _ _ Hs Hok) as (s2' & Hs2' & Hdom & Hnext);
    rewrite Hs2 in Hs2'; injection Hs2' as <-.
  - destruct (IH (Hnext _ _ _ Hs1 Hl1)) as [? Hdom']. split; [done|auto].
  - destruct o; [done|..]; destruct (IH Hnext) as [? Hdom']; (split; [done|auto]).
Qed.

Lemma shared_new_ok : shared_ok shared_new ∅ 1.
Proof. split; [exact sim_new|]. simpl. rewrite map_size_empty. lia. Qed.
End Shared.
Arguments FreeList T : clear implicits.
Arguments op T : clear implicits.
Arguments Shared T : clear implicits.
Arguments list_op T : clear implicits.

(** The pool refines the heap of live values. Along every run of allocs,
    clones, drops and reads through existing handles, the next call succeeds,
    an [alloc] never hands out a slot that a handle still points to, reads give
    the value the slot was allocated with, and a slot is on the free list
    exactly when its last handle is gone. *)
Theorem freelist_refines_live {T} (os : list (op T)) (s : FreeList T) (l : gmap Z (Z * T)) (o : op T)
    (Hrun : fl_run freelist_new ∅ os s l) (Ho : op_ok s l o) :
  (exists p v s' l', fl_step s o = Ok (p, v, s') /\ live_step l o (p, v) l' /\ sim s' l') /\
  NoDup (free s) /\
  (forall p, p ∈ free s <-> is_Some (boxes s !! p) /\ l !! p = None).
Proof.
  pose proof (fl_run_sim _ _ _ _ _ Hrun sim_new) as Hsim. split; [by apply fl_step_sim|].
  destruct Hsim as (Hnd & Hfree & Hlive & Hall). split; [done|]. intros p. split.
  - intros (? & v & Hv)%Hfree. by rewrite Hv.
  - intros [[i Hi] Hl]. apply Hall in Hi as [?|[x Hx]]; [done|congruence].
Qed.

Lemma freelist_refines_live_witness :
  let os := [Alloc 100 7; Alloc 101 8; CloneFrc 100; DropFrc 101] in
  exists s l, fl_run (T := Z) freelist_new ∅ os s l /\
    (exists p v s' l', fl_step s (Alloc 102 9) = Ok (p, v, s') /\
       live_step l (Alloc 102 9) (p, v) l' /\ sim s' l') /\
    NoDup (free s) /\ (forall p, p ∈ free s <-> is_Some (boxes s !! p) /\ l !! p = None).
Proof.
  intros os.
  assert (exists s l, fl_run (T := Z) freelist_new ∅ os s l /\ boxes s !! 102 = None) as (s & l & Hr & Hb).
  { eexists _, _. split.
    - eapply fl_cons; [vm_compute; reflexivity|vm_compute; reflexivity|by apply live_alloc|].
      eapply fl_cons; [vm_compute; reflexivity|vm_compute; reflexivity|by apply live_alloc|].
      eapply fl_cons; [exists 0, 7; by vm_compute|vm_compute; reflexivity|by eapply live_clone|].
      eapply fl_cons; [eexists; vm_compute; reflexivity|vm_compute; reflexivity|by eapply live_drop_last|].
      apply fl_nil.
    - vm_compute. reflexivity. }
  exists s, l. split; [exact Hr|]. exact (freelist_refines_live os s l (Alloc 102 9) Hr Hb).
Defined.

(** C28: a pool that has ever made a slot is never dropped: every box holds a
    handle to the pool, so that the strong count stays above the number of boxes even
    when the client has dropped all its handles to slots and to the pool, the loop of
    [Drop for FreeListInner] has nothing to free, and the boxes stay. *)
Theorem pool_is_never_freed {T} (os os' : list (list_op T)) s l h s' l' h'
    (Hrun : shared_run shared_new ∅ 1 os s l h) (Hmore : shared_run s l h os' s' l' h') :
  (forall o, list_op_ok s l h o -> exists s2, shared_step s o = Ok s2) /\
  strong s = h + Z.of_nat (size (boxes (pool s))) /\
  (forall p, is_Some (boxes (pool s) !! p) -> is_Some (boxes (pool s') !! p) /\ 0 < strong s').
Proof.
  destruct (shared_run_ok _ _ _ _ _ _ _ Hrun shared_new_ok) as [Hs _].
  destruct (shared_run_ok _ _ _ _ _ _ _ Hmore Hs) as [Hs' Hdom].
  split_and!; [|apply Hs|].
  - intros o Ho. destruct (shared_step_ok _ _ _ _ Hs Ho) as (s2 & -> & _). by exists s2.
  - intros p Hp. pose proof (Hdom p Hp) as Hp'. split; [done|].
    destruct Hs' as (_ & Hh & ->). destruct (decide (size (boxes (pool s')) = 0%nat)) as [Hz|]; [|lia].
    apply map_size_empty_iff in Hz. rewrite Hz in Hp'. by destruct Hp'.
Qed.

(** The source's unit test [test_freelist_hanging]: the slot outlives every
    handle. *)
Lemma pool_is_never_freed_witness :
  exists s l s' l', shared_run (T := Z) shared_new ∅ 1 [Slot (Alloc 100 7)] s l 1 /\
    shared_run s l 1 [DropList; Slot (DropFrc 100)] s' l' 0 /\
    is_Some (boxes (pool s') !! 100) /\ strong s' = 1.
Proof.
  eexists _, _, _, _.
  assert (shared_run (T := Z) shared_new ∅ 1 [Slot (Alloc 100 7)] (MkShared (MkFreeList {[100 := MkFrc 0 7]} []) 2)
            {[100 := (0, 7)]} 1) as H1.
  { eapply sr_slot; [simpl; split_and!; [done|lia|lia]|vm_compute; reflexivity|by apply live_alloc|
      vm_compute; reflexivity|apply sr_nil]. }
  assert (shared_run (MkShared (MkFreeList {[100 := MkFrc 0 7]} []) 2) {[100 := (0, 7)]} 1
            [DropList; Slot (DropFrc 100)] (MkShared (MkFreeList {[100 := MkFrc 0 7]} [100]) 1) ∅ 0) as H2.
  { eapply sr_list; [simpl; lia|done|vm_compute; reflexivity|].
    eapply sr_slot; [eexists; vm_compute; reflexivity|vm_compute; reflexivity|
      by eapply live_drop_last|vm_compute; reflexivity|].
    apply sr_nil. }
  split; [exact H1|]. split; [exact H2|].
  split; [|reflexivity].
  destruct (pool_is_never_freed _ _ _ _ _ _ _ _ H1 H2) as (_ & _ & H). by apply (H 100).
Defined.
