(* ===== verification/Recursor.v ===== *)
(** * Recursor: src/src/util/recursor.rs, src/src/util/lazy.rs

    Two helpers the decoder is built on. The [Recursor] runs deeply nested
    asynchronous calls on a stack of frames of its own, so that polling never
    nests; it is shown to compute what plain recursion computes. [Lazy] runs its
    producer at most once and reports recursive forcing as an error. *)

From S2P Require Import Prelude.

(** ** The recursor *)

Section Recursor.
Context {T : Type}.

(** An asynchronous body run by [Recursor::spawn]: it ends, it spawns a child
    and awaits it, or it is pending once on something else. *)
Inductive Fut :=
  | Done (output : T)
  | Call (child : Fut) (k : T -> Fut)
  | Pause (k : Fut).

(** [struct Frame]: its future, or the future's continuation while it awaits the
    [FrameWaiter] of the frame above, whose [output] slot arrives as [option T]. *)
Inductive Frame :=
  | Running (future : Fut)
  | Awaiting (k : T -> Fut).

(** The stack of frames (the top first) and the output the frame popped last
    left for the frame below. *)
Record RecursorInner := MkRecursor { stack : list Frame; output : option T }.

(** What one [poll] of the top frame does to the stack: [Frame::poll] runs the
    body, [spawn] pushes, [FrameWaiter::poll] takes the output. *)
Inductive outcome := Ready | Blocked | Spawned.

Definition poll_top (this : RecursorInner) : option (outcome * RecursorInner) :=
  match stack this with
  | [] => None
  | Running (Done v) :: st => Some (Ready, MkRecursor st (Some v))
  | Running (Call c k) :: st => Some (Spawned, MkRecursor (Running c :: Awaiting k :: st) (output this))
  | Running (Pause k) :: st => Some (Blocked, MkRecursor (Running k :: st) (output this))
  | Awaiting k :: st =>
      match output this with
      | Some v => Some (Spawned, MkRecursor (Running (k v) :: st) None)
      | None => Some (Blocked, this)
      end
  end.

(** [Recursor::poll] with fuel: [Some (true, _)] is [Poll::Ready], [Some
    (false, _)] is [Poll::Pending], [None] means the fuel ran out. *)
Fixpoint poll (fuel : nat) (this : RecursorInner) : option (bool * RecursorInner) :=
  match fuel with
  | O => None
  | S fuel =>
      match poll_top this with
      | None => Some (true, this)
      | Some (Blocked, s) => Some (false, s)
      | Some (_, s) => poll fuel s
      end
  end.

(** Polling again after each [Pending], [n] times at most. *)
Fixpoint poll_until_ready (fuel n : nat) (this : RecursorInner) : option (nat * RecursorInner) :=
  match poll fuel this with
  | Some (true, s) => Some (O, s)
  | Some (false, s) =>
      match n with
      | O => None
      | S n => match poll_until_ready fuel n s with Some (p, s) => Some (S p, s) | None => None end
      end
  | None => None
  end.

(** ** The specification: plain recursion *)

Fixpoint eval (f : Fut) : T :=
  match f with
  | Done v => v
  | Call c k => eval (k (eval c))
  | Pause k => eval k
  end.

Fixpoint pauses (f : Fut) : nat :=
  match f with
  | Done _ => O
  | Call c k => pauses c + pauses (k (eval c))
  | Pause k => S (pauses k)
  end.

(** The number of polls of frames the body takes. *)
Fixpoint cost (f : Fut) : nat :=
  match f with
  | Done _ => 1
  | Call c k => S (cost c + S (cost (k (eval c))))
  | Pause k => S (cost k)
  end.

(** [reaches s p c s']: polling goes from [s] to [s'] in [c] polls of frames and
    returns [Pending] [p] times on the way. *)
Inductive reaches : RecursorInner -> nat -> nat -> RecursorInner -> Prop :=
  | reaches_refl s : reaches s 0 0 s
  | reaches_step s o s1 p c s2 : poll_top s = Some (o, s1) -> o <> Blocked ->
      reaches s1 p c s2 -> reaches s p (S c) s2
  | reaches_pause s s1 p c s2 : poll_top s = Some (Blocked, s1) ->
      reaches s1 p c s2 -> reaches s (S p) (S c) s2.

Lemma reaches_trans s1 p c s2 q d s3 :
  reaches s1 p c s2 -> reaches s2 q d s3 -> reaches s1 (p + q) (c + d) s3.
Proof. induction 1; intros; [done|eapply reaches_step; eauto|simpl; eapply reaches_pause; eauto]. Qed.

Lemma eval_reaches f st :
  reaches (MkRecursor (Running f :: st) None) (pauses f) (cost f) (MkRecursor st (Some (eval f))).
Proof.
  revert st. induction f as [v|c IHc k IHk|k IH]; intros st; simpl.
  - eapply reaches_step; [done|done|apply reaches_refl].
  - eapply reaches_step; [done|done|].
    eapply reaches_trans; [apply IHc|]. eapply reaches_step; [done|done|]. apply IHk.
  - eapply reaches_pause; [done|]. apply IH.
Qed.

Lemma poll_mono fuel fuel' s r : (fuel <= fuel')%nat -> poll fuel s = Some r -> poll fuel' s = Some r.
Proof.
  revert fuel' s. induction fuel as [|fuel IH]; intros fuel' s Hle; [done|].
  destruct fuel' as [|fuel']; [lia|]. simpl. destruct (poll_top s) as [[[] s1]|]; try done;
    apply IH; lia.
Qed.

Lemma poll_enough s p c s2 fuel :
  reaches s p c s2 -> poll_top s2 = None -> (c < fuel)%nat -> is_Some (poll fuel s).
Proof.
  intros H Hn. revert fuel. induction H as [s|s o s1 p c s2 Ht Ho _ IH|s s1 p c s2 Ht _ IH];
    intros [|fuel] Hf; try lia; simpl.
  - by rewrite Hn.
  - rewrite Ht. destruct o; [apply IH; [done|lia]|done|apply IH; [done|lia]].
  - by rewrite Ht.
Qed.

Lemma poll_unfold fuel s o s1 p c s2 :
  poll_top s = Some (o, s1) -> o <> Blocked -> reaches s1 p c s2 -> poll_top s2 = None ->
  (c < fuel)%nat -> poll (S fuel) s = poll (S fuel) s1.
Proof.
  intros Ht Ho Hr Hn Hf. destruct (poll_enough s1 p c s2 fuel Hr Hn Hf) as [r Hp].
  rewrite (poll_mono fuel (S fuel) s1 r) by (lia || done). cbn [poll]. rewrite Ht. by destruct o.
Qed.

Lemma poll_until_ready_enough s p c s2 fuel :
  reaches s p c s2 -> poll_top s2 = None -> (c < fuel)%nat ->
  poll_until_ready fuel p s = Some (p, s2).
Proof.
  intros H Hn Hf. revert s2 H Hn. destruct fuel as [|fuel]; [lia|]. intros s2 H.
  induction H as [s|s o s1 p c s2 Ht Ho Hr IH|s s1 p c s2 Ht Hr IH]; intros Hn.
  - cbn [poll_until_ready poll]. by rewrite Hn.
  - rewrite <- IH by (done || lia). destruct p; cbn [poll_until_ready];
      rewrite (poll_unfold fuel s o s1 _ c s2 Ht Ho Hr Hn) by lia; done.
  - cbn [poll_until_ready poll]. rewrite Ht. rewrite IH by (done || lia). done.
Qed.
End Recursor.
Arguments Fut T : clear implicits.

(** The recursor computes what plain recursion computes. Polled with any
    fuel above the body's number of polls, a spawned body of any nesting depth
    returns [Pending] exactly once per pause of the body, then [Ready] with an
    empty stack and the value of the recursive evaluation. *)
Theorem recursor_computes {T} (f : Fut T) (fuel : nat) (Hf : (cost f < fuel)%nat) :
  poll_until_ready fuel (pauses f) (MkRecursor [Running f] None) =
  Some (pauses f, MkRecursor [] (Some (eval f))).
Proof. eapply poll_until_ready_enough; [apply eval_reaches|done|done]. Qed.

(** The Fibonacci of the source's unit test, pausing once at each leaf. *)
Fixpoint fibonacci_rec (n : nat) : Fut nat :=
  match n with
  | O => Pause (Done 0%nat)
  | S O => Pause (Done 1%nat)
  | S (S m as n1) =>
      Call (fibonacci_rec n1) (fun a => Call (fibonacci_rec m) (fun b => Done (a + b)%nat))
  end.

Lemma recursor_computes_witness :
  eval (fibonacci_rec 7) = 13%nat /\ pauses (fibonacci_rec 7) = 21%nat /\
  poll_until_ready 200 (pauses (fibonacci_rec 7)) (MkRecursor [Running (fibonacci_rec 7)] None) =
    Some (pauses (fibonacci_rec 7), MkRecursor [] (Some (eval (fibonacci_rec 7)))).
Proof.
  split; [vm_compute; reflexivity|]. split; [vm_compute; reflexivity|].
  apply (recursor_computes (fibonacci_rec 7) 200). apply Nat.ltb_lt. vm_compute. reflexivity.
Defined.

(** ** Lazy values: src/src/util/lazy.rs *)

Section Lazy.
(** [P] is the type of producers; [produce] runs one in the state it sees,
    which contains the cell itself: a producer may force the cell again. *)
Context {T P : Type}.

Record Lazy := MkLazy { producer : option P; cell : option T }.

(** [Lazy::new], [From<T> for Lazy] *)
Definition lazy_new (f : P) : Lazy := MkLazy (Some f) None.
Definition lazy_from (x : T) : Lazy := MkLazy None (Some x).

Variable produce : P -> Lazy -> res (T * Lazy).

(** [force]; [None] is [Err(RecursiveError)]. *)
Definition force (this : Lazy) : res (option T * Lazy) :=
  match cell this with
  | Some value => Ok (Some value, this)
  | None =>
      match producer this with
      | Some p =>
          let! (v, this) := produce p (MkLazy None (cell this)) in
          match cell this with
          | None => Ok (Some v, MkLazy (producer this) (Some v))
          | Some _ => Panic AssertFailed
          end
      | None => Ok (None, this)
      end
  end.

(** Forced from inside its own producer, a cell reports the recursion and is
    left alone. *)
Lemma force_recursive : force (MkLazy None None) = Ok (None, MkLazy None None).
Proof. done. Qed.

(** Once forced, a cell keeps its value and never runs a producer again. *)
Lemma force_once (Hp : forall p l v l', produce p l = Ok (v, l') -> l' = l) l v l' :
  force l = Ok (Some v, l') -> cell l' = Some v /\ force l' = Ok (Some v, l').
Proof.
  unfold force. destruct (cell l) as [u|] eqn:E; [intros [= <- <-]; by rewrite E|].
  destruct (producer l) as [p|]; [|done]. intros ((u & l1) & Hpr & H)%bind_Ok.
  apply Hp in Hpr as ->. simpl in H. by injection H as <- <-.
Qed.
End Lazy.
