(* ===== verification/Frames.v ===== *)
(** * Frames: src/src/util/recursor.rs, its heap of frames

    [Recursor] has the frames on the stack itself. Here they are where the source
    has them: a frame is a box, the stack and the waiters ([FrameWaiter]) hold
    raw pointers to it, a body may spawn several frames before it awaits one,
    and the waiter that takes an output frees the frame. What goes wrong with
    raw pointers is a result: [Dangling] is a use after free. *)

From S2P Require Import Prelude Recursor.

(** ** Results *)

Inductive run (A : Type) := Val (a : A) | Panics (p : panic) | Dangling | NoFuel.
Arguments Val {A} a.
Arguments Panics {A} p.
Arguments Dangling {A}.
Arguments NoFuel {A}.

Definition rbind {A B} (m : run A) (f : A -> run B) : run B :=
  match m with Val a => f a | Panics p => Panics p | Dangling => Dangling | NoFuel => NoFuel end.

Notation "'let?' p := m 'in' k" := (rbind m (fun p => k))
  (at level 10, p pattern, m at level 100, k at level 200) : res_scope.

Section Frames.
Context {T : Type}.

(** A body: it ends, spawns a frame and goes on with its waiter (a pointer to the
    frame), awaits a waiter, or is pending once on something else. *)
Inductive Body :=
  | BReady (v : T)
  | BSpawn (child : Body) (k : Z -> Body)
  | BAwait (waiter : Z) (k : T -> Body)
  | BPause (k : Body).

(** [struct Frame], and the recursor with the boxes there are; the head of
    [stack] is the end of the [Vec]. *)
Record Frame := MkFrame { output : option T; future : Body }.
Record RecursorInner := MkRecursor { frames : gmap Z Frame; stack : list Z }.

(** [Recursor::new] *)
Definition recursor_new : RecursorInner := MkRecursor ∅ [].

(** The address of a new box. *)
Variable box : gmap Z Frame -> Z.

(** [push], [pop], [peek] *)
Definition push (frame : Z) (this : RecursorInner) : RecursorInner := MkRecursor (frames this) (frame :: stack this).
Definition pop (this : RecursorInner) : option Z * RecursorInner :=
  match stack this with [] => (None, this) | p :: st => (Some p, MkRecursor (frames this) st) end.
Definition peek (this : RecursorInner) : option Z := head (stack this).

(** [Recursor::spawn]; the waiter is the pointer. *)
Definition spawn (fut : Body) (this : RecursorInner) : Z * RecursorInner :=
  let frame := box (frames this) in
  (frame, push frame (MkRecursor (<[frame := MkFrame None fut]> (frames this)) (stack this))).

(** [FrameWaiter::poll]: [None] is [Pending]. *)
Definition waiter_poll (waiter : Z) (this : RecursorInner) : run (option T * RecursorInner) :=
  match frames this !! waiter with
  | None => Dangling
  | Some f =>
      match output f with
      | Some result => Val (Some result, MkRecursor (delete waiter (frames this)) (stack this))
      | None => Val (None, this)
      end
  end.

(** Polling a body: its output if it is ready, and what is left of it. *)
Fixpoint body_poll (f : Body) (this : RecursorInner) : run (option T * Body * RecursorInner) :=
  match f with
  | BReady v => Val (Some v, f, this)
  | BSpawn child k => let (w, this) := spawn child this in body_poll (k w) this
  | BAwait w k =>
      let? (o, this) := waiter_poll w this in
      match o with Some v => body_poll (k v) this | None => Val (None, f, this) end
  | BPause k => Val (None, k, this)
  end.

(** [Frame::poll]; [true] is [Ready]. *)
Definition frame_poll (p : Z) (this : RecursorInner) : run (bool * RecursorInner) :=
  match frames this !! p with
  | None => Dangling
  | Some f =>
      match output f with
      | Some _ => Panics AssertFailed
      | None =>
          let? (o, fut, this) := body_poll (future f) this in
          match frames this !! p with
          | None => Dangling
          | Some _ => Val (match o with Some _ => true | None => false end,
                           MkRecursor (<[p := MkFrame o fut]> (frames this)) (stack this))
          end
      end
  end.

(** The loop of [Recursor::poll], one turn: over, once more, or pending. *)
Inductive turn := Over | Again | Suspend.

Definition poll_turn (this : RecursorInner) : run (turn * RecursorInner) :=
  match peek this with
  | None => Val (Over, this)
  | Some top =>
      let? (ready, this) := frame_poll top this in
      if ready then
        match pop this with
        | (Some top2, this) => if top =? top2 then Val (Again, this) else Panics AssertFailed
        | (None, _) => Panics UnwrapFailed
        end
      else
        match peek this with
        | Some top2 => if top =? top2 then Val (Suspend, this) else Val (Again, this)
        | None => Panics UnwrapFailed
        end
  end.

(** [Recursor::poll]; [true] is [Ready]. *)
Fixpoint poll (fuel : nat) (this : RecursorInner) : run (bool * RecursorInner) :=
  match fuel with
  | O => NoFuel
  | S fuel =>
      let? (t, this) := poll_turn this in
      match t with Over => Val (true, this) | Again => poll fuel this | Suspend => Val (false, this) end
  end.

(** [recursor.await] of a task that is polled again after each [Pending]: how
    often it was pending, [n] times at most. *)
Fixpoint await (fuel n : nat) (this : RecursorInner) : run (nat * RecursorInner) :=
  let? (ready, this) := poll fuel this in
  if ready then Val (O, this)
  else match n with
       | O => NoFuel
       | S n => let? (p, this) := await fuel n this in Val (S p, this)
       end.

(** [Thread::new] and [fibonacci] run a body so: it is spawned, the recursor is
    awaited, then the waiter. *)
Definition run_body (fuel n : nat) (f : Body) : run (nat * option T * RecursorInner) :=
  let (w, this) := spawn f recursor_new in
  let? (p, this) := await fuel n this in
  let? (o, this) := waiter_poll w this in
  Val (p, o, this).

(** ** The specification: what a body computes

    [means env f v n c]: the body [f], which has yet to await the waiters of [env],
    which stand for these values, awaits each of them and each it spawns, and
    ends with [v]; it pauses [n] times, its children included, and takes [c]
    steps. A spawned body counts as run when it is spawned. *)
Inductive means : gmap Z T -> Body -> T -> nat -> nat -> Prop :=
  | means_ready v : means ∅ (BReady v) v 0 1
  | means_spawn env child k u v n1 c1 n2 c2 : means ∅ child u n1 c1 ->
      (forall w, env !! w = None -> means (<[w := u]> env) (k w) v n2 c2) ->
      means env (BSpawn child k) v (n1 + n2) (S (c1 + c2))
  | means_await env w k u v n c : env !! w = Some u -> means (delete w env) (k u) v n c ->
      means env (BAwait w k) v n (S (S c))
  | means_pause env k v n c : means env k v n c -> means env (BPause k) v (S n) (S c).

(** ** Runs of the loop *)

(** [goes s n c s']: polling gets from [s] to [s'] in at most [c] turns of the loop
    and is pending at most [n] times on the way. *)
Inductive goes : RecursorInner -> nat -> nat -> RecursorInner -> Prop :=
  | goes_refl s n c : goes s n c s
  | goes_again s s1 n c s2 : poll_turn s = Val (Again, s1) -> goes s1 n c s2 -> goes s n (S c) s2
  | goes_suspend s s1 n c s2 : poll_turn s = Val (Suspend, s1) -> goes s1 n c s2 -> goes s (S n) (S c) s2.

Lemma goes_mono s n c s' n' c' : goes s n c s' -> (n <= n')%nat -> (c <= c')%nat -> goes s n' c' s'.
Proof.
  intros H. revert n' c'. induction H as [s n c|s s1 n c s2 Ht _ IH|s s1 n c s2 Ht _ IH]; intros n' c' Hn Hc.
  - apply goes_refl.
  - destruct c' as [|c']; [lia|]. apply (goes_again _ s1); [done|]. apply IH; lia.
  - destruct c' as [|c']; [lia|]. destruct n' as [|n']; [lia|]. apply (goes_suspend _ s1); [done|]. apply IH; lia.
Qed.

Lemma goes_trans s1 n c s2 n' c' s3 : goes s1 n c s2 -> goes s2 n' c' s3 -> goes s1 (n + n') (c + c') s3.
Proof.
  induction 1 as [s n c|s s1 n c s2 Ht _ IH|s s1 n c s2 Ht _ IH]; intros H3.
  - eapply goes_mono; [done|lia..].
  - apply (goes_again _ s1); auto.
  - apply (goes_suspend _ s1); auto.
Qed.

Lemma goes_poll s n c s2 fuel : goes s n c s2 -> stack s2 = [] -> (c < fuel)%nat ->
  poll fuel s = Val (true, s2) \/
  exists s1 n1, poll fuel s = Val (false, s1) /\ (n1 < n)%nat /\ goes s1 n1 c s2.
Proof.
  intros H Hs. revert fuel. induction H as [s n c|s s1 n c s2 Ht H IH|s s1 n c s2 Ht H IH];
    intros [|fuel] Hf; try lia; cbn [poll].
  - left. unfold poll_turn, peek. by rewrite Hs.
  - rewrite Ht. cbn [rbind]. destruct (IH Hs fuel ltac:(lia)) as [?|(s3 & n1 & Hp & Hn & Hg)]; [by left|right].
    exists s3, n1. split_and!; [done|done|]. eapply goes_mono; [done|lia..].
  - rewrite Ht. right. exists s1, n. split_and!; [done|lia|]. eapply goes_mono; [done|lia..].
Qed.

Lemma goes_await s n c s2 fuel : goes s n c s2 -> stack s2 = [] -> (c < fuel)%nat ->
  exists m, (m <= n)%nat /\ await fuel n s = Val (m, s2).
Proof.
  intros H Hs Hf. revert s H. induction n as [|n IH]; intros s H;
    destruct (goes_poll _ _ _ _ fuel H Hs Hf) as [Hp|(s1 & n1 & Hp & Hn & Hg)]; try lia.
  - exists O. split; [lia|]. cbn [await]. by rewrite Hp.
  - exists O. split; [lia|]. cbn [await]. by rewrite Hp.
  - destruct (IH s1) as (m & Hm & Ha); [eapply goes_mono; [done|lia..]|].
    exists (S m). split; [lia|]. cbn [await]. rewrite Hp. cbn [rbind]. by rewrite Ha.
Qed.

(** ** Frames that have run *)

Definition ended (v : T) : Frame := MkFrame (Some v) (BReady v).
Definition all_ended (env : gmap Z T) : gmap Z Frame := ended <$> env.

(** A spawned body runs to its end, whatever else is in the heap and on the stack. *)
Definition completes (f : Body) v n c : Prop := forall H st p, H !! p = Some (MkFrame None f) ->
  goes (MkRecursor H (p :: st)) n c (MkRecursor (<[p := ended v]> H) st).

(** A frame above another on the stack, still to be run. *)
Record Child := MkChild { ch_ptr : Z; ch_body : Body; ch_val : T; ch_n : nat; ch_c : nat }.

Definition ptrs (cs : list Child) : list Z := ch_ptr <$> cs.
Definition total (f : Child -> nat) (cs : list Child) : nat := sum_list_with f cs.

(** The children of a body: those of [env] have ended, but for [cs]. *)
Record children_ok (env : gmap Z T) (H : gmap Z Frame) (cs : list Child) : Prop := {
  ck_dup : NoDup (ptrs cs);
  ck_run d : d ∈ cs -> env !! ch_ptr d = Some (ch_val d) /\ H !! ch_ptr d = Some (MkFrame None (ch_body d)) /\
    completes (ch_body d) (ch_val d) (ch_n d) (ch_c d);
  ck_ended w u : env !! w = Some u -> w ∈ ptrs cs \/ H !! w = Some (ended u)
}.

Lemma run_children env cs : forall H st, children_ok env H cs ->
  goes (MkRecursor H (ptrs cs ++ st)) (total ch_n cs) (total ch_c cs) (MkRecursor (all_ended env ∪ H) st).
Proof.
  induction cs as [|d cs IH]; intros H st [Hd Hr He].
  - replace (all_ended env ∪ H) with H; [apply goes_refl|]. apply map_eq. intros w. unfold all_ended.
    destruct (env !! w) as [u|] eqn:Hw.
    + rewrite (lookup_union_Some_l _ _ _ (ended u)) by (by rewrite lookup_fmap, Hw).
      destruct (He w u Hw) as [Hx|Hx]; [by apply elem_of_nil in Hx|done].
    + rewrite lookup_union_r; [done|]. by rewrite lookup_fmap, Hw.
  - cbn [ptrs fmap list_fmap total sum_list_with] in *. apply NoDup_cons in Hd as [Hn Hd].
    destruct (Hr d ltac:(by left)) as (Hd1 & Hd2 & Hd3).
    eapply goes_trans; [by apply Hd3|].
    replace (all_ended env ∪ H) with (all_ended env ∪ <[ch_ptr d := ended (ch_val d)]> H).
    { apply IH. split; [done| |].
      - intros e Hin. destruct (Hr e ltac:(by right)) as (H1 & H2 & H3). split_and!; [done| |done].
        rewrite lookup_insert_ne; [done|]. intros Heq. apply Hn. rewrite Heq. by apply list_elem_of_fmap_2.
      - intros w u Hw. destruct (decide (ch_ptr d = w)) as [<-|Hne].
        + right. rewrite lookup_insert_eq. congruence.
        + rewrite lookup_insert_ne by done. destruct (He w u Hw) as [Hx|Hx]; [|by right].
          apply elem_of_cons in Hx as [Hx|Hx]; [congruence|by left]. }
    apply map_eq. intros w. destruct (decide (ch_ptr d = w)) as [<-|Hne].
    + rewrite !(lookup_union_Some_l _ _ _ (ended (ch_val d))); [done|unfold all_ended; by rewrite lookup_fmap, Hd1..].
    + destruct (all_ended env !! w) as [x|] eqn:Hw.
      * by rewrite !(lookup_union_Some_l _ _ _ x).
      * rewrite !lookup_union_r by done. by rewrite lookup_insert_ne.
Qed.

(** What polling the body of the frame [p] leads to: it ends with [v] and nothing
    above [p], or it is suspended, or there are frames above it; in the last
    two cases polling on gets to [target], in [c] turns with this one. *)
Inductive polled (p : Z) (st : list Z) (v : T) (target : RecursorInner) (n : nat) : nat -> option T * Body * RecursorInner -> Prop :=
  | polled_ready H c : is_Some (H !! p) -> MkRecursor (<[p := ended v]> H) st = target ->
      polled p st v target n (S c) (Some v, BReady v, MkRecursor H (p :: st))
  | polled_pause H f n' c : is_Some (H !! p) -> (n' < n)%nat ->
      goes (MkRecursor (<[p := MkFrame None f]> H) (p :: st)) n' c target ->
      polled p st v target n (S c) (None, f, MkRecursor H (p :: st))
  | polled_wait H f q qs c : is_Some (H !! p) -> q <> p ->
      goes (MkRecursor (<[p := MkFrame None f]> H) (q :: qs ++ p :: st)) n c target ->
      polled p st v target n (S c) (None, f, MkRecursor H (q :: qs ++ p :: st)).

Lemma polled_mono p st v target n c r n' c' :
  polled p st v target n c r -> (n <= n')%nat -> (c <= c')%nat -> polled p st v target n' c' r.
Proof.
  intros [H c0 Hp Ht|H f m c0 Hp Hm Hg|H f q qs c0 Hp Hq Hg] Hn Hc; (destruct c' as [|c']; [lia|]).
  - by apply polled_ready.
  - apply (polled_pause _ _ _ _ _ _ _ m); [done|lia|]. eapply goes_mono; [done|lia..].
  - apply polled_wait; [done|done|]. eapply goes_mono; [done|lia..].
Qed.

Lemma polled_goes p st v target n c H f r :
  H !! p = Some (MkFrame None f) -> body_poll f (MkRecursor H (p :: st)) = Val r -> polled p st v target n c r ->
  goes (MkRecursor H (p :: st)) n c target.
Proof.
  intros Hp Hb Hr.
  assert (poll_turn (MkRecursor H (p :: st)) =
    (let '(o, fut, this) := r in
     let? (ready, this) := match frames this !! p with None => Dangling | Some _ =>
       Val (match o with Some _ => true | None => false end, MkRecursor (<[p := MkFrame o fut]> (frames this)) (stack this)) end in
     if ready then match pop this with
       | (Some top2, this) => if p =? top2 then Val (Again, this) else Panics AssertFailed
       | (None, _) => Panics UnwrapFailed end
     else match peek this with
       | Some top2 => if p =? top2 then Val (Suspend, this) else Val (Again, this)
       | None => Panics UnwrapFailed end)) as Ht.
  { unfold poll_turn, frame_poll. cbn [peek head stack frames]. rewrite Hp. cbn [output future].
    rewrite Hb. by destruct r as [[o fut] this]. }
  destruct Hr as [H1 c [x Hx] <-|H1 f1 n' c [x Hx] Hn Hg|H1 f1 q qs c [x Hx] Hq Hg];
    cbn [frames stack] in Ht; rewrite Hx in Ht; cbn [rbind pop peek head stack frames] in Ht.
  - rewrite Z.eqb_refl in Ht. eapply goes_again; [exact Ht|apply goes_refl].
  - rewrite Z.eqb_refl in Ht. destruct n as [|n]; [lia|]. eapply goes_suspend; [exact Ht|]. eapply goes_mono; [done|lia..].
  - replace (p =? q) with false in Ht by lia. eapply goes_again; [exact Ht|done].
Qed.

(** Polling a body whose children above its frame are [cs]. *)
Definition resumes_with (cs : list Child) (f : Body) (env : gmap Z T) v n c : Prop := forall H st p,
  is_Some (H !! p) -> env !! p = None -> children_ok env H cs ->
  exists r, body_poll f (MkRecursor H (ptrs cs ++ p :: st)) = Val r /\
    polled p st v (MkRecursor (<[p := ended v]> (H ∖ all_ended env)) st) (n + total ch_n cs) (c + total ch_c cs) r.

Definition resumes f env v n c : Prop := forall cs, resumes_with cs f env v n c.

Lemma minus_insert_p p fr (H : gmap Z (Frame)) env v :
  env !! p = None -> <[p := ended v]> ((<[p := fr]> H) ∖ all_ended env) = <[p := ended v]> (H ∖ all_ended env).
Proof.
  intros Hp. apply map_eq. intros w. destruct (decide (p = w)) as [<-|Hne]; [by rewrite !lookup_insert_eq|].
  rewrite !lookup_insert_ne by done. rewrite !lookup_difference. by rewrite lookup_insert_ne.
Qed.

Lemma minus_ended (H : gmap Z (Frame)) env : (all_ended env ∪ H) ∖ all_ended env = H ∖ all_ended env.
Proof.
  apply map_eq. intros w. rewrite !lookup_difference. destruct (all_ended env !! w) as [x|] eqn:Hw; [done|].
  by rewrite lookup_union_r.
Qed.

(** A body that is left pending when it is polled goes on when its children have ended. *)
Lemma resumes_later f env v n c H st p cs :
  resumes_with [] f env v n c -> is_Some (H !! p) -> env !! p = None -> children_ok env H cs ->
  goes (MkRecursor (<[p := MkFrame None f]> H) (ptrs cs ++ p :: st)) (n + total ch_n cs) (c + total ch_c cs)
    (MkRecursor (<[p := ended v]> (H ∖ all_ended env)) st).
Proof.
  intros Hf Hp Hep Hc. set (H1 := <[p := MkFrame None f]> H).
  assert (children_ok env H1 cs) as Hc1.
  { destruct Hc as [C1 C2 C3]. split; [done| |].
    - intros d Hd. destruct (C2 d Hd) as (? & ? & ?). split_and!; [done| |done].
      unfold H1. rewrite lookup_insert_ne; [done|]. intros ->. congruence.
    - intros w u Hw. unfold H1. rewrite lookup_insert_ne by (intros ->; congruence). by apply C3. }
  rewrite (Nat.add_comm n), (Nat.add_comm c).
  eapply goes_trans; [by apply run_children|].
  set (H2 := all_ended env ∪ H1).
  assert (H2 !! p = Some (MkFrame None f)) as Hp2.
  { unfold H2. rewrite lookup_union_r by (unfold all_ended; by rewrite lookup_fmap, Hep). unfold H1. by rewrite lookup_insert_eq. }
  assert (children_ok env H2 []) as Hc2.
  { split; [constructor|by intros d ?%elem_of_nil|]. intros w u Hw. right. unfold H2.
    apply lookup_union_Some_l. unfold all_ended. by rewrite lookup_fmap, Hw. }
  destruct (Hf H2 st p ltac:(by eexists) Hep Hc2) as (r & Hb & Hr).
  pose proof (polled_goes _ _ _ _ _ _ _ _ _ Hp2 Hb Hr) as Hg.
  assert (<[p := ended v]> (H2 ∖ all_ended env) = <[p := ended v]> (H ∖ all_ended env)) as Heq
    by (unfold H2; rewrite minus_ended; by apply minus_insert_p). rewrite Heq in Hg.
  cbn [total sum_list_with] in Hg. by rewrite !Nat.add_0_r in Hg.
Qed.

Hypothesis box_fresh : forall H, H !! box H = None.

Lemma children_spawn env H cs child u n c :
  completes child u n c -> children_ok env H cs ->
  env !! box H = None /\
  children_ok (<[box H := u]> env) (<[box H := MkFrame None child]> H) (MkChild (box H) child u n c :: cs).
Proof.
  intros Hch [C1 C2 C3]. pose proof (box_fresh H) as Hw. set (w := box H) in *.
  assert (w ∉ ptrs cs) as Hcs.
  { intros (d & Heq & Hd)%list_elem_of_fmap. destruct (C2 d Hd) as (_ & Hx & _). congruence. }
  assert (env !! w = None) as Hew.
  { destruct (env !! w) as [x|] eqn:E; [|done]. destruct (C3 w x E) as [?|?]; [done|congruence]. }
  split; [done|]. split.
  - by apply NoDup_cons.
  - intros d [->|Hd]%elem_of_cons; [by rewrite !lookup_insert_eq|].
    destruct (C2 d Hd) as (? & ? & ?). by rewrite !lookup_insert_ne by congruence.
  - intros x y. destruct (decide (w = x)) as [<-|Hne]; [intros _; by left; left|].
    rewrite !lookup_insert_ne by done. intros Hx. destruct (C3 x y Hx) as [?|?]; [left; by right|by right].
Qed.

Lemma children_take env H cs w u :
  H !! w = Some (ended u) -> children_ok env H cs -> children_ok (delete w env) (delete w H) cs.
Proof.
  intros Hw [C1 C2 C3].
  split; [done| |].
  - intros d Hd. destruct (C2 d Hd) as (? & ? & ?). rewrite !lookup_delete_ne; [done|..]; intros ->; unfold ended in *; congruence.
  - intros x y. destruct (decide (w = x)) as [<-|Hne]; [by rewrite lookup_delete_eq|].
    rewrite !lookup_delete_ne by done. apply C3.
Qed.

(** A waiter whose frame has ended gives its output and frees the frame. *)
Lemma await_ended env w k u v n c H st p cs :
  env !! w = Some u -> resumes (k u) (delete w env) v n c -> is_Some (H !! p) -> env !! p = None ->
  H !! w = Some (ended u) -> children_ok env H cs ->
  exists r, body_poll (BAwait w k) (MkRecursor H (ptrs cs ++ p :: st)) = Val r /\
  polled p st v (MkRecursor (<[p := ended v]> (H ∖ all_ended env)) st) (n + total ch_n cs) (S c + total ch_c cs) r.
Proof.
  intros Hw IH Hp Hep Hx Hc. cbn [body_poll]. unfold waiter_poll. cbn [frames stack]. rewrite Hx. cbn [output ended rbind].
  assert (w <> p) as Hne by congruence.
  destruct (IH cs (delete w H) st p) as (r & Hb & Hr);
    [by rewrite lookup_delete_ne|by rewrite lookup_delete_ne|by eapply children_take|].
  exists r. split; [exact Hb|].
  replace (H ∖ all_ended env) with (delete w H ∖ all_ended (delete w env)); [eapply polled_mono; [exact Hr|lia..]|].
  unfold all_ended. apply map_eq. intros x. rewrite !lookup_difference, !lookup_fmap.
  destruct (decide (w = x)) as [<-|Hx']; [by rewrite !lookup_delete_eq, Hw|by rewrite !lookup_delete_ne].
Qed.

Lemma means_resumes env f v n c : means env f v n c -> resumes f env v n c.
Proof.
  induction 1 as [v|env child k u v n1 c1 n2 c2 _ IHc Hk IHk|env w k u v n c Hw _ IH|env k v n c _ IH];
    intros cs H st p Hp Hep Hc.
  - destruct cs as [|d cs]; [|by destruct (ck_run _ _ _ Hc d ltac:(by left)) as (? & _)].
    eexists. split; [reflexivity|]. apply (polled_ready _ _ _ _ _ H 0); [done|].
    f_equal. unfold all_ended. by rewrite fmap_empty, map_difference_empty.
  - assert (completes child u n1 c1) as Hch.
    { intros H1 st1 q Hq.
      assert (children_ok ∅ H1 []) as Hn by (split; [constructor|by intros d ?%elem_of_nil|done]).
      destruct (IHc [] H1 st1 q ltac:(by eexists) (lookup_empty q) Hn) as (r & Hb & Hr).
      unfold all_ended in Hr. rewrite fmap_empty, map_difference_empty in Hr.
      rewrite !Nat.add_0_r in Hr. by apply (polled_goes _ _ _ _ _ _ _ _ _ Hq Hb Hr). }
    destruct (children_spawn _ _ _ _ _ _ _ Hch Hc) as [Hew Hc1]. pose proof (box_fresh H) as Hw.
    set (w := box H) in *. assert (w <> p) as Hne by (intros ->; rewrite Hw in Hp; by destruct Hp).
    destruct (IHk w Hew (MkChild w child u n1 c1 :: cs) (<[w := MkFrame None child]> H) st p) as (r & Hb & Hr);
      [by rewrite lookup_insert_ne|by rewrite lookup_insert_ne|done|].
    exists r. split; [exact Hb|].
    replace (H ∖ all_ended env) with (<[w := MkFrame None child]> H ∖ all_ended (<[w := u]> env)).
    { cbn [total sum_list_with ch_n ch_c] in Hr. eapply polled_mono; [exact Hr|unfold total; lia..]. }
    unfold all_ended. apply map_eq. intros x. rewrite !lookup_difference, !lookup_fmap.
    destruct (decide (w = x)) as [<-|Hx]; [by rewrite lookup_insert_eq, Hew, Hw|by rewrite !lookup_insert_ne].
  - assert (resumes_with [] (BAwait w k) env v n (S c)) as Hidle.
    { intros H1 st1 q Hq Heq H1c. destruct (ck_ended _ _ _ H1c w u Hw) as [Hx|Hx]; [by apply elem_of_nil in Hx|].
      by apply (await_ended env w k u). }
    destruct (ck_ended _ _ _ Hc w u Hw) as [Hin|Hx]; [|destruct (await_ended env w k u v n c H st p cs) as (r & Hb & Hr);
      [done..|exists r; split; [exact Hb|eapply polled_mono; [exact Hr|lia..]]]].
    pose proof (resumes_later _ env v n (S c) H st p cs Hidle Hp Hep Hc) as Hg.
    apply list_elem_of_fmap in Hin as (d & Hwd & Hd). destruct (ck_run _ _ _ Hc d Hd) as (_ & Hx & _).
    exists (None, BAwait w k, MkRecursor H (ptrs cs ++ p :: st)). split.
    { cbn [body_poll]. unfold waiter_poll. cbn [frames stack]. by rewrite Hwd, Hx. }
    destruct cs as [|e cs]; [by apply elem_of_nil in Hd|].
    apply (polled_wait _ _ _ _ _ _ _ (ch_ptr e) (ptrs cs)); [done| |exact Hg].
    intros <-. destruct (ck_run _ _ _ Hc e ltac:(by left)) as (? & _). congruence.
  - pose proof (resumes_later k env v n c H st p cs (IH []) Hp Hep Hc) as Hg.
    eexists. split; [reflexivity|]. destruct cs as [|d cs].
    + apply (polled_pause _ _ _ _ _ _ _ n); [done|unfold total; simpl; lia|].
      unfold total in *. simpl in *. rewrite !Nat.add_0_r in *. exact Hg.
    + apply (polled_wait _ _ _ _ _ _ _ (ch_ptr d) (ptrs cs)); [done| |eapply goes_mono; [exact Hg|apply Nat.add_le_mono_r; lia|apply le_n]].
      intros <-. destruct (ck_run _ _ _ Hc d ltac:(by left)) as (? & _). congruence.
Qed.

Lemma run_body_spec f v n c fuel : means ∅ f v n c -> (c < fuel)%nat ->
  exists m, (m <= n)%nat /\ run_body fuel n f = Val (m, Some v, recursor_new).
Proof.
  intros Hm Hf. unfold run_body, spawn, push, recursor_new. cbn [frames stack]. set (p := box ∅).
  set (H := <[p := MkFrame None f]> (∅ : gmap Z Frame)).
  assert (H !! p = Some (MkFrame None f)) as Hp by apply lookup_insert_eq.
  assert (children_ok ∅ H []) as Hn by (split; [constructor|by intros d ?%elem_of_nil|done]).
  destruct (means_resumes _ _ _ _ _ Hm [] H [] p ltac:(by eexists) (lookup_empty p) Hn) as (r & Hb & Hr).
  pose proof (polled_goes _ _ _ _ _ _ _ _ _ Hp Hb Hr) as Hg.
  unfold all_ended in Hg. rewrite fmap_empty, map_difference_empty, !Nat.add_0_r in Hg.
  destruct (goes_await _ _ _ _ fuel Hg eq_refl Hf) as (m & Hmn & Ha). exists m. split; [done|].
  rewrite Ha. cbn [rbind]. unfold waiter_poll. cbn [frames stack]. rewrite lookup_insert_eq. cbn [output ended rbind].
  unfold H. by rewrite delete_insert_eq, delete_insert_id by apply lookup_empty.
Qed.
End Frames.
Arguments Body T : clear implicits.
Arguments Frame T : clear implicits.
Arguments RecursorInner T : clear implicits.

(** ** What the recursor promises *)

(** C29: Running a body with [Recursor]: whatever addresses the boxes get, a body that
    awaits every frame it spawns, in any order and after spawning others, gets
    its result; no assertion fails, no freed frame is used, the recursor is
    pending at most as often as the body and its children pause, and every
    frame is freed and popped in the end. *)
Theorem frames_compute {T} (box : gmap Z (Frame T) -> Z) (f : Body T) (v : T) (n c fuel : nat)
    (Hb : forall H, H !! box H = None) (Hm : means ∅ f v n c) (Hf : (c < fuel)%nat) :
  exists m, (m <= n)%nat /\ run_body box fuel n f = Val (m, Some v, recursor_new).
Proof. by apply (run_body_spec box Hb f v n c). Qed.

(** A body that ends without awaiting a frame it has spawned stops the program. *)
Theorem unawaited_frame_panics {T} (box : gmap Z (Frame T) -> Z) (child : Body T) (u v : T) (fuel n : nat) :
  (forall H, H !! box H = None) ->
  run_body box (S fuel) n (BSpawn child (fun _ => BReady v)) = Panics AssertFailed.
Proof.
  intros Hb. unfold run_body, spawn, push, recursor_new. cbn [frames stack]. set (p := box ∅).
  set (H := <[p := _]> ∅). pose proof (Hb H) as Hw.
  assert (H !! p = Some (MkFrame None (BSpawn child (fun _ => BReady v)))) as Hp by apply lookup_insert_eq.
  assert (poll box (S fuel) (MkRecursor H [p]) = Panics AssertFailed) as Hx.
  { cbn [poll]. unfold poll_turn, frame_poll. cbn [peek head stack frames]. rewrite Hp.
    cbn [output future body_poll spawn push frames stack rbind].
    rewrite lookup_insert_ne by congruence. rewrite Hp. cbn [rbind pop stack].
    by replace (p =? box H) with false by (symmetry; apply Z.eqb_neq; congruence). }
  destruct n; cbn [await]; by rewrite Hx.
Qed.

(** The bodies of [Recursor], which await each frame when they spawn it. *)
Fixpoint of_calls {T} (f : Fut T) : Body T :=
  match f with
  | Done v => BReady v
  | Call child k => BSpawn (of_calls child) (fun w => BAwait w (fun u => of_calls (k u)))
  | Pause k => BPause (of_calls k)
  end.

Fixpoint steps {T} (f : Fut T) : nat :=
  match f with
  | Done _ => 1
  | Call child k => S (steps child + S (S (steps (k (eval child)))))
  | Pause k => S (steps k)
  end.

Lemma of_calls_means {T} (f : Fut T) : means ∅ (of_calls f) (eval f) (pauses f) (steps f).
Proof.
  induction f as [v|child IHc k IHk|k IH]; cbn [of_calls eval pauses steps].
  - apply means_ready.
  - apply (means_spawn _ _ _ (eval child)); [apply IHc|]. intros w Hw.
    apply (means_await _ _ _ (eval child)); [by rewrite lookup_insert_eq|].
    rewrite delete_insert_id by done. apply IHk.
  - by apply means_pause.
Qed.

(** Two frames spawned before either is awaited, the older one first. *)
Definition both : Body nat :=
  BSpawn (of_calls (fibonacci_rec 5)) (fun a => BSpawn (of_calls (fibonacci_rec 6)) (fun b =>
    BAwait a (fun x => BAwait b (fun y => BReady (x + y)%nat)))).

Lemma both_means : means ∅ both 13%nat 21 (S (steps (fibonacci_rec 5) + S (steps (fibonacci_rec 6) + 5))).
Proof.
  apply (means_spawn _ _ _ 5%nat _ 8 _ 13); [exact (of_calls_means (fibonacci_rec 5))|]. intros a Ha.
  apply (means_spawn _ _ _ 8%nat _ 13 _ 0); [exact (of_calls_means (fibonacci_rec 6))|]. intros b Hb.
  assert (a <> b) as Hne by (intros ->; by rewrite lookup_insert_eq in Hb).
  apply (means_await _ _ _ 5%nat); [by rewrite lookup_insert_ne, lookup_insert_eq|].
  apply (means_await _ _ _ 8%nat); [by rewrite lookup_delete_ne, lookup_insert_eq|].
  rewrite delete_insert_ne, delete_insert_eq, delete_insert_eq by done. rewrite (delete_id ∅ a), (delete_id ∅ b) by apply lookup_empty.
  apply means_ready.
Qed.

Lemma frames_compute_witness : exists m, (m <= 21)%nat /\
  run_body (fun H => fresh (dom H)) 1000 21 both = Val (m, Some 13%nat, recursor_new).
Proof.
  apply (frames_compute _ both 13%nat 21 (S (steps (fibonacci_rec 5) + S (steps (fibonacci_rec 6) + 5))) 1000).
  - intros H. apply not_elem_of_dom. apply is_fresh.
  - exact both_means.
  - apply Nat.ltb_lt. vm_compute. reflexivity.
Defined.
