(* ===== verification/Tests.v ===== *)
(** * Tests: the unit tests of the utilities

    The tests the repository keeps with its utilities, run on the models. The
    randomized test of [RangeMap] (src/src/util/rangemap.rs) compares it with a
    plain map of points after every operation; what the generator draws is a
    parameter, and the test is shown to pass whatever is drawn. *)

From S2P Require Import Prelude RangeMap Mutex FreeList Recursor.

(** ** rangemap.rs *)

(** [test_range] of [test] *)
Definition test_range (table : RangeMap Z) (start end_ : Z) (exp : list (Z * Z * Z)) : res unit :=
  let! l := range start end_ table in
  assert! bool_decide (l = exp) or AssertFailed in Ok tt.

Definition rangemap_test : res unit :=
  let table := new in
  let! _ := test_range table 0 0 [] in
  let! _ := test_range table U64_MAX U64_MAX [] in
  let! table := insert 10 20 1 table in
  let! _ := test_range table 0 U64_MAX [(10, 20, 1)] in
  let! _ := test_range table 10 20 [(10, 20, 1)] in
  let! _ := test_range table 10 30 [(10, 20, 1)] in
  let! _ := test_range table 10 18 [(10, 18, 1)] in
  let! _ := test_range table 12 20 [(12, 20, 1)] in
  let! _ := test_range table 12 18 [(12, 18, 1)] in
  let! table := insert 9 12 2 table in
  let! _ := test_range table 0 U64_MAX [(9, 12, 2); (12, 20, 1)] in
  let! table := insert 19 22 3 table in
  let! _ := test_range table 0 U64_MAX [(9, 12, 2); (12, 19, 1); (19, 22, 3)] in
  let! table := insert 15 16 4 table in
  test_range table 0 U64_MAX [(9, 12, 2); (12, 15, 1); (15, 16, 4); (16, 19, 1); (19, 22, 3)].

Example rangemap_test_passes : rangemap_test = Ok tt.
Proof. vm_compute. reflexivity. Qed.

(** A [BTreeMap] of points. *)
Definition set_points (start end_ value : Z) (m : gmap Z Z) : gmap Z Z :=
  fold_left (fun m k => <[k := value]> m) (seqZ start (end_ - start)) m.

(** [ranges.iter().tuple_windows()] *)
Fixpoint windows_differ (l : list (Z * Z * Z)) : bool :=
  match l with
  | r1 :: ((r2 :: _) as l) => (negb (r1.1.2 =? r2.1.1) || negb (r1.2 =? r2.2)) && windows_differ l
  | _ => true
  end.

(** The first block of the loop of [random_test]: a range is read back. *)
Definition random_read (start end_ : Z) (table : RangeMap Z) (expected : gmap Z Z) : res unit :=
  let! ranges := range start end_ table in
  assert! forallb (fun r => (start <=? r.1.1) && (r.1.2 <=? end_)) ranges or AssertFailed in
  assert! windows_differ ranges or AssertFailed in
  let actual := fold_left (fun m r => set_points r.1.1 r.1.2 r.2 m) ranges ∅ in
  assert! forallb (fun k => bool_decide (actual !! k = expected !! k)) (seqZ start (end_ - start)) or AssertFailed in
  Ok tt.

(** The second block: a range is written. *)
Definition random_write (start end_ value : Z) (x : RangeMap Z * gmap Z Z) : res (RangeMap Z * gmap Z Z) :=
  let '(table, expected) := x in
  let! table := insert start end_ value table in
  Ok (table, set_points start end_ value expected).

(** The loop, with the starts and ends it draws, from round [value] on. *)
Fixpoint random_rounds (value : Z) (draws : list ((Z * Z) * (Z * Z))) (x : RangeMap Z * gmap Z Z) : res unit :=
  match draws with
  | [] => Ok tt
  | ((s1, e1), (s2, e2)) :: draws =>
      let! _ := random_read s1 e1 x.1 x.2 in
      let! x := random_write s2 e2 value x in
      random_rounds (value + 1) draws x
  end.

(** One seed of [random_test]. *)
Definition random_test (draws : list ((Z * Z) * (Z * Z))) : res unit := random_rounds 0 draws (new, ∅).

Lemma lookup_set_points start end_ value m k :
  set_points start end_ value m !! k = if (start <=? k) && (k <? end_) then Some value else m !! k.
Proof.
  unfold set_points. destruct (Z.le_gt_cases end_ start) as [Hle|Hlt].
  { rewrite seqZ_nil by lia. simpl. destruct (Z.leb_spec start k), (Z.ltb_spec k end_); simpl; done || lia. }
  remember (Z.to_nat (end_ - start)) as n eqn:Hn. revert start m Hlt Hn.
  induction n as [|n IH]; intros start m Hlt Hn; [lia|].
  rewrite seqZ_cons by lia. cbn [fold_left]. destruct (decide (end_ = start + 1)) as [->|Hne].
  - rewrite seqZ_nil by lia. simpl. destruct (decide (k = start)) as [->|Hk].
    + rewrite lookup_insert_eq. destruct (Z.leb_spec start start), (Z.ltb_spec start (start + 1)); simpl; done || lia.
    + rewrite lookup_insert_ne by done. destruct (Z.leb_spec start k), (Z.ltb_spec k (start + 1)); simpl; done || lia.
  - replace (Z.pred (end_ - start)) with (end_ - Z.succ start) by lia. rewrite (IH (Z.succ start)) by lia.
    destruct (decide (k = start)) as [->|Hk].
    + rewrite lookup_insert_eq.
      destruct (Z.leb_spec (Z.succ start) start), (Z.leb_spec start start), (Z.ltb_spec start end_); simpl; done || lia.
    + rewrite lookup_insert_ne by done.
      destruct (Z.leb_spec (Z.succ start) k), (Z.leb_spec start k), (Z.ltb_spec k end_); simpl; done || lia.
Qed.

(** *** Touching ranges *)

(** Entries that touch have different values, and all values are below [n]. *)
Record separated (n : Z) (m : RangeMap Z) : Prop := {
  sep_touch : forall x y, x ∈ m -> y ∈ m -> x.1 = y.2.1 -> x.2.2 <> y.2.2;
  sep_below : forall x, x ∈ m -> x.2.2 < n
}.

Lemma erase_step_separated n s e m m' :
  s < e -> wf m -> separated n m -> erase_step s e m = Some (Ok m') -> separated n m'.
Proof.
  intros Hse Hwf [Ht Hb] Hst. pose proof (erase_step_entries s e m ltac:(lia) Hwf) as H. rewrite Hst in H.
  destruct H as (m1 & ve & vs & v & [= <-] & Hin & Hlt & Hle & _ & _ & Hel). apply wf_alt in Hwf as (Hs & Hne & Hd).
  unfold erase_pieces in Hel. pose proof (Hne _ Hin) as Hne0. simpl in Hne0.
  assert (forall x, x ∈ m -> x.1 <> ve -> x.1 <= vs \/ ve <= x.2.1) as Hout.
  { intros x Hx Hxe. pose proof (Hd _ _ Hx Hin). pose proof (Hd _ _ Hin Hx). pose proof (Hne _ Hx). simpl in *. lia. }
  split.
  - intros x y Hx%Hel Hy%Hel.
    destruct Hx as [[Hx Hxe]|[[Hx ->]|[Hx ->]]], Hy as [[Hy Hye]|[[Hy ->]|[Hy ->]]]; simpl; intros Heq; try lia.
    + by apply Ht.
    + apply (Ht x (ve, (vs, v))); [done|done|exact Heq].
    + destruct (Hout _ Hx Hxe); pose proof (Hne _ Hx); lia.
    + destruct (Hout _ Hy Hye); pose proof (Hne _ Hy); lia.
    + apply (Ht (ve, (vs, v)) y); [done|done|exact Heq].
  - intros x [[Hx _]|[[_ ->]|[_ ->]]]%Hel; simpl; [by apply Hb|exact (Hb _ Hin)..].
Qed.

Lemma erase_loop_separated n fuel s e m m' :
  s < e -> wf m -> separated n m -> erase_loop fuel s e m = Some (Ok m') -> separated n m'.
Proof.
  revert m. induction fuel as [|fuel IH]; intros m Hse Hwf Hsep; simpl; [done|].
  destruct (erase_step s e m) as [r|] eqn:Hst; [|by intros [= <-]].
  destruct (erase_step_spec s e m r ltac:(lia) Hwf Hst) as (m1 & -> & Hwf1 & _).
  apply IH; [done|done|exact (erase_step_separated _ _ _ _ _ Hse Hwf Hsep Hst)].
Qed.

(** A new value keeps touching entries apart. *)
Lemma insert_separated n s e m m' :
  wf m -> separated n m -> insert s e n m = Ok m' -> separated (n + 1) m'.
Proof.
  intros Hwf Hsep. unfold insert. destruct (Z.leb_spec e s) as [Hle|Hlt].
  { intros [= <-]. destruct Hsep as [Ht Hb]. split; [done|]. intros x Hx. specialize (Hb x Hx). lia. }
  intros (m1 & He & [= <-])%bind_Ok. destruct (erase_spec s e m ltac:(lia) Hwf) as (m2 & He2 & Hwf1 & _).
  rewrite He in He2. injection He2 as <-. unfold erase in He.
  destruct (erase_loop (erase_fuel m) s e m) as [r|] eqn:Hl; [|done]. subst r.
  destruct (erase_loop_separated n _ s e m m1 Hlt Hwf Hsep Hl) as [Ht Hb].
  assert (forall x, x ∈ bt_insert e (s, n) m1 -> x = (e, (s, n)) \/ x ∈ m1) as Hel.
  { intros x. rewrite bt_elem_insert by (by apply wf_sorted). tauto. }
  split.
  - intros x y [->|Hx]%Hel [->|Hy]%Hel; simpl; intros Heq; [lia| | |by apply Ht].
    + specialize (Hb y Hy). lia.
    + specialize (Hb x Hx). lia.
  - intros x [->|Hx]%Hel; simpl; [lia|]. specialize (Hb x Hx). lia.
Qed.

(** The pieces of a range, from the entries they are cut from. *)
Lemma range_pieces s e (m : RangeMap Z) ps :
  wf m -> range s e m = Ok ps ->
  forall lo hi v, (lo, hi, v) ∈ ps ->
    exists ve vs, (ve, (vs, v)) ∈ m /\ lo = Z.max s vs /\ hi = Z.min e ve /\ lo < hi.
Proof.
  intros Hwf Hr lo hi v Hin. unfold range, range_bounds in Hr. cbn [bind] in Hr.
  destruct (wf_above m s Hwf) as [Hs Hne].
  destruct (map_while_clip_spec s e m (bt_above s m) Hs Hne) as (ps' & Hps & _ & Hel).
  { intros x Hx%bt_elem_above. done. }
  rewrite Hps in Hr. injection Hr as ->.
  apply Hel in Hin as (ve & vs & Hx & Hlo & Hhi & Hlt). exists ve, vs. split_and!; [|done..].
  by apply bt_elem_above in Hx as [??].
Qed.

Lemma range_windows n s e m ps :
  wf m -> separated n m -> range s e m = Ok ps -> windows_differ ps = true.
Proof.
  intros Hwf [Ht _] Hr. pose proof (range_pieces s e m ps Hwf Hr) as Hp. clear Hr.
  induction ps as [|[[lo hi] v] ps IH]; [done|]. destruct ps as [|[[lo' hi'] v'] ps]; [done|].
  change (windows_differ _) with ((negb (hi =? lo') || negb (v =? v')) && windows_differ ((lo', hi', v') :: ps)).
  rewrite IH by (intros lo1 hi1 v1 H1; apply Hp; by right). rewrite andb_true_r.
  destruct (Z.eqb_spec hi lo') as [->|]; [|done]. destruct (Z.eqb_spec v v') as [->|]; [|done]. exfalso.
  destruct (Hp lo lo' v') as (ve & vs & H1 & -> & Hlo & Hlt); [by left|].
  destruct (Hp lo' hi' v') as (ve' & vs' & H2 & Hlo' & -> & Hlt'); [by right; left|].
  apply (Ht (ve, (vs, v')) (ve', (vs', v'))); [done|done| |done]. simpl. lia.
Qed.

Lemma actual_points (ps : list (Z * Z * Z)) m0 k :
  fold_left (fun m r => set_points r.1.1 r.1.2 r.2 m) ps m0 !! k =
  fold_left (fun o r => if (r.1.1 <=? k) && (k <? r.1.2) then Some r.2 else o) ps (m0 !! k).
Proof. revert m0. induction ps as [|r ps IH]; intros m0; [done|]. cbn [fold_left]. by rewrite IH, lookup_set_points. Qed.

(** What is read back is what the points say. *)
Lemma read_ok n s e m expected :
  wf m -> separated n m -> (forall k, get m k = expected !! k) -> random_read s e m expected = Ok tt.
Proof.
  intros Hwf Hsep Hex. unfold random_read.
  destruct (collect_range m s e Hwf) as (ps & p & Hr & Hp & _ & Hget). rewrite Hr. cbn [bind].
  destruct (range_spec s e m Hwf) as (ps' & Hr' & _ & Hsound & _). rewrite Hr in Hr'. injection Hr' as <-.
  assert (forallb (fun r => (s <=? r.1.1) && (r.1.2 <=? e)) ps = true) as ->.
  { apply forallb_forall. intros [[lo hi] v] Hin%list_elem_of_In. destruct (Hsound lo hi v Hin) as (? & ? & ? & _).
    apply andb_true_intro. split; apply Z.leb_le; simpl; lia. }
  cbn [guard_ bind]. rewrite (range_windows n s e m ps Hwf Hsep Hr). cbn [guard_ bind].
  match goal with |- context [forallb ?f ?l] => assert (forallb f l = true) as ->; [|done] end.
  apply forallb_forall. intros k Hk%list_elem_of_In%elem_of_seqZ. apply bool_decide_eq_true.
  rewrite actual_points, lookup_empty, <- Hex.
  assert (get p k = get m k) as <- by (rewrite Hget; destruct (Z.leb_spec s k), (Z.ltb_spec k e); simpl; done || lia).
  destruct (from_iter_from ps new wf_new) as (p' & Hp' & _ & Hg). unfold from_iter in Hp. rewrite Hp in Hp'.
  injection Hp' as <-. by rewrite Hg.
Qed.

Lemma rounds_ok value draws x :
  wf x.1 -> separated value x.1 -> (forall k, get x.1 k = x.2 !! k) -> random_rounds value draws x = Ok tt.
Proof.
  revert value x. induction draws as [|[[s1 e1] [s2 e2]] draws IH]; intros value [m expected] Hwf Hsep Hex; [done|].
  cbn [random_rounds fst snd] in *. rewrite (read_ok value) by done. cbn [bind random_write].
  destruct (rs_insert s2 e2 value m Hwf) as (m' & Hins & Hwf' & Hget). rewrite Hins. cbn [bind].
  apply IH; [done|exact (insert_separated _ _ _ _ _ Hwf Hsep Hins)|]. intros k. simpl. by rewrite Hget, lookup_set_points, Hex.
Qed.

(** C18: The randomized test of [RangeMap] passes whatever is drawn: after any
    sequence of insertions of numbered values over any ranges, empty ones
    included, reading any range gives the values a plain map of points has there
    and nothing outside it, and never cuts a range in two. *)
Theorem random_test_passes (draws : list ((Z * Z) * (Z * Z))) : random_test draws = Ok tt.
Proof.
  apply rounds_ok; [apply wf_new| |done]. split; [intros x y Hx|intros x Hx]; by apply elem_of_nil in Hx.
Qed.

(** ** mutex.rs *)

Module Tester.
(** What the futures given to [Tester::add] do, call by call, with their mutex
    and condition variable; [Acquire] is the second half of [wait]: the task
    goes on when its sender has been dropped, that is when it holds the mutex. *)
Inductive Call :=
  | CLock (a : Z) | CUnlock (a : Z) | CWait (c a : Z) | CNotify (c : Z) | Acquire (a : Z).

(** [struct Tester] and [struct TesterState], with the futures that have not
    finished and the mutexes they share. *)
Record Tester := MkTester {
  next : Z;
  set : gset Z;
  pool : gmap Z (list Call);
  sync : Sync
}.

Definition tester_new : Tester := MkTester 0 ∅ ∅ sync_new.

Definition add (x : list Call) (this : Tester) : Z * Tester :=
  (next this, MkTester (next this + 1) (set this) (<[next this := x]> (pool this)) (sync this)).

(** One call of task [t]: what is left of the task afterwards, if it can go on. *)
Definition call (t : Z) (x : Call) (xs : list Call) (s : Sync) : res (option (list Call * Sync)) :=
  match x with
  | CLock a => Ok (Some (Acquire a :: xs, do_lock t a s))
  | CUnlock a => let! s := do_unlock t a s in Ok (Some (xs, s))
  | CWait c a => let! s := wait t c a s in Ok (Some (Acquire a :: xs, s))
  | CNotify c => Ok (Some (xs, notify c s))
  | Acquire a => Ok (if bool_decide ((a, t) ∈ holding s) then Some (xs, s) else None)
  end.

(** A future is polled until it waits or returns; when it has returned its key
    is put in the set. *)
Fixpoint poll_task (fuel : nat) (t : Z) (xs : list Call) (this : Tester) : res Tester :=
  match fuel, xs with
  | _, [] => Ok (MkTester (next this) ({[t]} ∪ set this) (delete t (pool this)) (sync this))
  | O, _ => Ok (MkTester (next this) (set this) (<[t := xs]> (pool this)) (sync this))
  | S fuel, x :: xs' =>
      let! r := call t x xs' (sync this) in
      match r with
      | Some (xs', s) => poll_task fuel t xs' (MkTester (next this) (set this) (pool this) s)
      | None => Ok (MkTester (next this) (set this) (<[t := xs]> (pool this)) (sync this))
      end
  end.

(** A call takes at most two steps. *)
Definition poll (this : Tester) (t : Z) : res Tester :=
  match pool this !! t with
  | Some xs => poll_task (2 * length xs) t xs this
  | None => Ok this
  end.

(** The executor has stalled: every future waits. *)
Definition waits (s : Sync) (t : Z) (xs : list Call) : bool :=
  match xs with Acquire a :: _ => negb (bool_decide ((a, t) ∈ holding s)) | _ => false end.
Definition stalled (this : Tester) : bool :=
  forallb (fun p => waits (sync this) p.1 p.2) (map_to_list (pool this)).

(** [run_and_expect]: [polls] are the futures [run_until_stalled] polls, after
    which none of them can go on. *)
Definition run_and_expect (polls : list Z) (ks : list Z) (this : Tester) : res Tester :=
  let! this := foldM (fun this t => poll this t) this polls in
  assert! stalled this or AssertFailed in
  assert! bool_decide (set this = list_to_set ks) or AssertFailed in
  Ok (MkTester (next this) ∅ (pool this) (sync this)).

(** [test_mutex]; the mutex is at 0. *)
Definition test_mutex (polls1 polls2 : list Z) : res unit :=
  let '(l1, this) := add [CLock 0] tester_new in
  let '(l2, this) := add [CLock 0] this in
  let! this := run_and_expect polls1 [l1] this in
  let! s := do_unlock l1 0 (sync this) in
  let! _ := run_and_expect polls2 [l2] (MkTester (next this) (set this) (pool this) s) in
  Ok tt.

(** [test_condvar]; the condition variable is at 1. *)
Definition test_condvar (polls1 polls2 : list Z) : res unit :=
  let '(l1, this) := add [CLock 0; CWait 1 0; CUnlock 0] tester_new in
  let! this := run_and_expect polls1 [] this in
  let '(l2, this) := add [CLock 0; CNotify 1; CUnlock 0] this in
  let! _ := run_and_expect polls2 [l1; l2] this in
  Ok tt.

(** The tests pass with the polls of an executor that polls the futures in the
    order they were spawned and woken, and with useless polls in between. *)
Example test_mutex_passes : test_mutex [0; 1] [1] = Ok tt /\ test_mutex [0; 1; 0; 1] [0; 1; 0] = Ok tt.
Proof. vm_compute. done. Qed.
Example test_condvar_passes : test_condvar [0] [1; 0] = Ok tt /\ test_condvar [0; 0] [0; 1; 0; 1] = Ok tt.
Proof. vm_compute. done. Qed.
End Tester.

(** ** freelist.rs *)

(** [test_freelist]: the addresses of [foo], [bar] and [baz]; the last box is
    not needed. *)
Definition test_freelist (box1 box2 box3 : Z) (foo bar baz : list Z) : res (Z * Z * Z) :=
  let freelist := freelist_new in
  let! (fooptr, freelist) := alloc box1 foo freelist in
  let! _ := deref fooptr freelist in
  let! (barptr, freelist) := alloc box2 bar freelist in
  let! _ := deref barptr freelist in
  let! freelist := drop_frc fooptr freelist in
  let! (bazptr, freelist) := alloc box3 baz freelist in
  let! _ := deref bazptr freelist in
  Ok (fooptr, barptr, bazptr).

(** The two assertions that are commented out hold: the slot of [foo] is reused. *)
Lemma test_freelist_passes box1 box2 box3 foo bar baz :
  box1 <> box2 ->
  exists fooptr barptr bazptr, test_freelist box1 box2 box3 foo bar baz = Ok (fooptr, barptr, bazptr) /\
    fooptr = bazptr /\ fooptr <> barptr.
Proof.
  intros Hne. exists box1, box2, box1. split; [|done].
  unfold test_freelist, freelist_new, alloc, deref, drop_frc. cbn.
  repeat (rewrite ?lookup_insert_eq, ?lookup_insert_ne by done; cbn). done.
Qed.

(** [test_freelist_hanging]: a slot outlives the client's handle to the pool. *)
Definition test_freelist_hanging (box : Z) (foo : list (list Z)) : res (Shared (list (list Z))) :=
  let freelist := shared_new in
  let! (foo, freelist) := shared_alloc box foo freelist in
  let freelist := drop_list freelist in
  let! s := drop_frc foo (pool freelist) in
  Ok (MkShared s (strong freelist)).

(** Its slot goes to a free list that nothing but the slot itself keeps alive. *)
Lemma test_freelist_hanging_leaks box foo :
  exists s, test_freelist_hanging box foo = Ok s /\ strong s = 1 /\ free (pool s) = [box].
Proof.
  unfold test_freelist_hanging, shared_alloc, shared_new, alloc, clone_list, drop_list, drop_frc. cbn.
  rewrite add64_ok by lia. cbn. change (1 + 1 - 1 =? 0) with false. cbn. rewrite lookup_insert_eq. cbn. eexists. split; [done|]. done.
Qed.

(** ** recursor.rs *)

(** [fibonacci_rec] and [fibonacci] of [test_recursor]; [block_on] polls until
    the recursor is ready. *)
Fixpoint fibonacci_rec (n : nat) : Fut nat :=
  match n with
  | O => Done 0%nat
  | S O => Done 1%nat
  | S (S m as n1) =>
      Call (fibonacci_rec n1) (fun a => Call (fibonacci_rec m) (fun b => Done (a + b)%nat))
  end.

Definition fibonacci (fuel n : nat) : res nat :=
  match Recursor.poll fuel (MkRecursor [Running (fibonacci_rec n)] None) with
  | Some (true, s) => unwrap (output s)
  | _ => Panic AssertFailed
  end.

Definition test_recursor (fuel : nat) : res unit :=
  foldM (fun _ p => let! x := fibonacci fuel p.2 in assert! (x =? p.1)%nat or AssertFailed in Ok tt) tt
    [(0, 0); (1, 1); (1, 2); (2, 3)]%nat.

Example test_recursor_passes : test_recursor 100 = Ok tt.
Proof. vm_compute. reflexivity. Qed.

(** Any two consecutive Fibonacci numbers, and what the recursor makes of them. *)
Fixpoint fib_pair (n : nat) : nat * nat :=
  match n with O => (0, 1)%nat | S n => let '(a, b) := fib_pair n in (b, (a + b)%nat) end.

Lemma fibonacci_rec_eval n : eval (fibonacci_rec n) = (fib_pair n).1 /\ eval (fibonacci_rec (S n)) = (fib_pair n).2.
Proof.
  induction n as [|n [IH1 IH2]]; [done|]. split; [by simpl; destruct (fib_pair n)|].
  change (eval (fibonacci_rec (S (S n)))) with (eval (fibonacci_rec (S n)) + eval (fibonacci_rec n))%nat.
  rewrite IH1, IH2. simpl. destruct (fib_pair n). simpl. lia.
Qed.
