(* ===== verification/Classes.v ===== *)
(** * Classes: src/src/compile/class.rs

    The classes of LLVM types: layouts, kinds and element offsets. [TypeMap]
    hands out one class per type; a class is a lazy cell whose kind and layout
    are computed when first needed, so that recursive types can refer to
    themselves through pointers. The state of the cells is explicit ([cells]);
    [tlayout] is the layout of a type by plain recursion, which the lazily
    computed layouts are shown to equal. *)

From S2P Require Import Prelude Layout.

(** ** Types: the part of llvm_ir's [Type] the source matches on *)

Inductive FPType := Half | Single | Double | FP128 | X86_FP80 | PPC_FP128.

Inductive Typ :=
  | VoidType
  | MetadataType
  | IntegerType (bits : Z)
  | PointerType (pointee : Typ)
  | FPTypeT (fptype : FPType)
  | FuncType (result : Typ) (params : list Typ) (is_var_arg : bool)
  | VectorType (element : Typ) (num_elements : Z)
  | ArrayType (element : Typ) (num_elements : Z)
  | StructType (elements : list Typ) (is_packed : bool)
  | NamedStructType (name : string)
  | OtherType.

#[export] Instance FPType_eq_dec : EqDecision FPType.
Proof. solve_decision. Defined.

#[export] Instance Typ_eq_dec : EqDecision Typ.
Proof.
  refine (fix go (x y : Typ) {struct x} : {x = y} + {x <> y} := _).
  assert (forall l1 l2 : list Typ, {l1 = l2} + {l1 <> l2}) as gol.
  { refine (fix gol l1 l2 := match l1, l2 with
      | [], [] => left eq_refl
      | a :: l1, b :: l2 => match go a b, gol l1 l2 with
                            | left H1, left H2 => left _
                            | _, _ => right _
                            end
      | _, _ => right _
      end); congruence. }
  destruct x, y; try (right; discriminate); try (left; reflexivity).
  - destruct (Z.eq_dec bits bits0); [left|right]; congruence.
  - destruct (go x y); [left|right]; congruence.
  - destruct (decide (fptype = fptype0)); [left|right]; congruence.
  - destruct (go x y), (gol params params0), (bool_dec is_var_arg is_var_arg0);
      [left; congruence|right; congruence..].
  - destruct (go x y), (Z.eq_dec num_elements num_elements0); [left; congruence|right; congruence..].
  - destruct (go x y), (Z.eq_dec num_elements num_elements0); [left; congruence|right; congruence..].
  - destruct (gol elements elements0), (bool_dec is_packed is_packed0);
      [left; congruence|right; congruence..].
  - destruct (String.string_dec name name0); [left|right]; congruence.
Defined.

(** ** Classes *)

(** A [Class] is the identity of its [Rc]; [ClassWeak] the same, since the table
    keeps every class alive. *)
Definition Class := Z.

Record Element := MkElement { e_class : Class; bit_offset : Z }.

Inductive ClassKind :=
  | VoidClass
  | IntegerClass (bits : Z)
  | PointerClass (pointee : Class)
  | FPClass (fptype : FPType)
  | FuncClass (result : Class) (params : list Class) (is_var_arg : bool)
  | VectorClass (element : Class) (len : Z)
  | ArrayClass (element : Class) (len : Z)
  | StructClass (fields : list Element) (layout : Layout).

Record ClassInner := MkClassInner { id : Z; typ : Typ; kind : ClassKind; layout : Layout }.

(** [Lazy<ClassInner>] with the producer [move || self2.get_inner(typ2)]: not
    yet run, running, or run. The type is kept while the producer runs, as
    ghost state. *)
Inductive Cell := Unforced (t : Typ) | Forcing (t : Typ) | Forced (i : ClassInner).

(** [struct TypeMapInner]; [fresh] supplies the identities of new classes. *)
Record TypeMap := MkTypeMap {
  table : list (Typ * Class);
  cells : gmap Class Cell;
  ptr_bits : Z;
  next_id : Z;
  fresh : Class
}.

Definition typemap_new (ptr_bits : Z) : TypeMap := MkTypeMap [] ∅ ptr_bits 0 0.

(** [HashMap::get] and [HashMap::insert] on the table. *)
Fixpoint assoc (t : Typ) (l : list (Typ * Class)) : option Class :=
  match l with
  | [] => None
  | (t', c) :: l => if decide (t = t') then Some c else assoc t l
  end.

Definition table_insert (t : Typ) (c : Class) (this : TypeMap) : TypeMap :=
  MkTypeMap ((t, c) :: table this) (cells this) (ptr_bits this) (next_id this) (fresh this).

Definition set_cell (c : Class) (x : Cell) (this : TypeMap) : TypeMap :=
  MkTypeMap (table this) (<[c := x]> (cells this)) (ptr_bits this) (next_id this) (fresh this).

(** [TypeMap::get] *)
Definition get (t : Typ) (this : TypeMap) : Class * TypeMap :=
  match assoc t (table this) with
  | Some result => (result, this)
  | None =>
      let result := fresh this in
      (result, MkTypeMap ((t, result) :: table this) (<[result := Unforced t]> (cells this))
                 (ptr_bits this) (next_id this) (fresh this + 1))
  end.

Definition get_all (ts : list Typ) (this : TypeMap) : list Class * TypeMap :=
  fold_left (fun '(cs, tm) t => let '(c, tm) := get t tm in (cs ++ [c], tm)) ts ([], this).

Definition fp_layout (f : FPType) : res Layout :=
  match f with
  | Half => of_int 16
  | Single => of_int 32
  | Double => of_int 64
  | FP128 => of_int 128
  | X86_FP80 => from_bits 80 128
  | PPC_FP128 => of_int 128
  end.

Section GetInner.
(** [class.layout()], which forces the class. *)
Variable class_layout : Class -> TypeMap -> res (Layout * TypeMap).

(** The loop of the [StructType] case. *)
Fixpoint struct_fields (packing : Packing) (ts : list Typ) (fields : list Element) (l : Layout)
    (this : TypeMap) : res (list Element * Layout * TypeMap) :=
  match ts with
  | [] => Ok (fields, l, this)
  | t :: ts =>
      let '(c, this) := get t this in
      let! (cl, this) := class_layout c this in
      let! (l, offset) := extend l packing cl in
      struct_fields packing ts (fields ++ [MkElement c offset]) l this
  end.

(** The [match] of [get_inner]: kind and layout. *)
Definition kind_layout (t : Typ) (this : TypeMap) : res (ClassKind * Layout * TypeMap) :=
  match t with
  | VoidType | MetadataType => let! l := from_bytes 0 1 in Ok (VoidClass, l, this)
  | IntegerType b => let! l := of_int b in Ok (IntegerClass b, l, this)
  | PointerType p =>
      let '(c, this) := get p this in
      let! l := of_int (ptr_bits this) in Ok (PointerClass c, l, this)
  | FPTypeT f => let! l := fp_layout f in Ok (FPClass f, l, this)
  | FuncType r ps v =>
      let '(c, this) := get r this in
      let '(cs, this) := get_all ps this in
      let! l := of_func in Ok (FuncClass c cs v, l, this)
  | VectorType e n =>
      let '(c, this) := get e this in
      let! (el, this) := class_layout c this in
      let! l := repeat_ el PBit n in Ok (VectorClass c n, l, this)
  | ArrayType e n =>
      let '(c, this) := get e this in
      let! (el, this) := class_layout c this in
      let! l := repeat_ el PNone n in Ok (VectorClass c n, l, this)
  | StructType ts packed =>
      let! l := of_int 0 in
      let! (fields, l, this) := struct_fields (packing_from_bool packed) ts [] l this in
      let! l := pad_to_align l in Ok (StructClass fields l, l, this)
  | NamedStructType _ | OtherType => Panic Todo
  end.

Definition get_inner (t : Typ) (this : TypeMap) : res (ClassInner * TypeMap) :=
  let! (kind, layout, this) := kind_layout t this in
  let! n := add64 (next_id this) 1 in
  Ok (MkClassInner (next_id this) t kind layout,
      MkTypeMap (table this) (cells this) (ptr_bits this) n (fresh this)).
End GetInner.

(** [self.0.0.force().unwrap()]. Fuel bounds the nesting of producers. *)
Fixpoint force (fuel : nat) (c : Class) (this : TypeMap) : res (ClassInner * TypeMap) :=
  match fuel with
  | O => Panic UnreachableCode
  | S fuel =>
      match cells this !! c with
      | Some (Forced i) => Ok (i, this)
      | Some (Unforced t) =>
          let class_layout c this := let! (i, this) := force fuel c this in Ok (layout i, this) in
          let! (i, this) := get_inner class_layout t (set_cell c (Forcing t) this) in
          Ok (i, set_cell c (Forced i) this)
      | Some (Forcing _) | None => Panic UnwrapFailed
      end
  end.

(** [Class::layout], [Class::kind] *)
Definition class_layout (fuel : nat) (c : Class) (this : TypeMap) : res (Layout * TypeMap) :=
  let! (i, this) := force fuel c this in Ok (layout i, this).
Definition class_kind (fuel : nat) (c : Class) (this : TypeMap) : res (ClassKind * TypeMap) :=
  let! (i, this) := force fuel c this in Ok (kind i, this).

(** [TypeMap::add_module], for the defined named structs of the module. *)
Definition add_module (defs : list (string * Typ)) (this : TypeMap) : TypeMap :=
  fold_left (fun tm d => let '(c, tm) := get d.2 tm in table_insert (NamedStructType d.1) c tm)
    defs this.

(** llvm-ir's [NamedStructDef], and [TypeMap::add_module] for all of them. *)
Inductive NamedStructDef := Opaque_ | Defined_ (typ : Typ).

Fixpoint add_structs (structs : list (string * NamedStructDef)) (this : TypeMap) : res TypeMap :=
  match structs with
  | [] => Ok this
  | (_, Opaque_) :: _ => Panic Todo
  | (name, Defined_ t) :: structs => add_structs structs (add_module [(name, t)] this)
  end.

(** [Class::element] *)
Definition element (fuel : nat) (c : Class) (index : Z) (this : TypeMap)
    : res (Element * TypeMap) :=
  let! (k, this) := class_kind fuel c this in
  match k with
  | VoidClass | IntegerClass _ | FPClass _ | FuncClass _ _ _ => Panic Explicit
  | PointerClass pointee =>
      let! (l, this) := class_layout fuel pointee this in
      let! l := pad_to_align l in
      let! off := chk_s 64 (to_signed 64 (bits l) * index) in
      Ok (MkElement pointee off, this)
  | VectorClass e _ =>
      let! (l, this) := class_layout fuel e this in
      assert! bit_align l mod 8 =? 0 or AssertFailed in
      let! off := chk_s 64 (to_signed 64 (bits l) * index) in
      Ok (MkElement e off, this)
  | ArrayClass e _ =>
      let! (l, this) := class_layout fuel e this in
      let! l := pad_to_align l in
      let! off := chk_s 64 (to_signed 64 (bits l) * index) in
      Ok (MkElement e off, this)
  | StructClass fields _ =>
      let! e := Prelude.index fields (wrap 64 index) in Ok (e, this)
  end.

(** [Class::element_rec] *)
Fixpoint element_rec_from (fuel : nat) (c : Class) (off : Z) (indices : list Z) (this : TypeMap)
    : res (Element * TypeMap) :=
  match indices with
  | [] => Ok (MkElement c off, this)
  | i :: is_ =>
      let! (e, this) := element fuel c i this in
      let! off := chk_s 64 (off + bit_offset e) in
      element_rec_from fuel (e_class e) off is_ this
  end.
Definition element_rec (fuel : nat) (c : Class) (indices : list Z) (this : TypeMap)
    : res (Element * TypeMap) :=
  element_rec_from fuel c 0 indices this.

(** ** Classes from classes: [TypeMap::int] .. [TypeMap::struc] *)

(** [Class::typ] *)
Definition class_typ (fuel : nat) (c : Class) (this : TypeMap) : res (Typ * TypeMap) :=
  let! (i, this) := force fuel c this in Ok (typ i, this).

(** [iter().map(|c| c.typ().clone())] *)
Fixpoint class_typs (fuel : nat) (cs : list Class) (this : TypeMap) : res (list Typ * TypeMap) :=
  match cs with
  | [] => Ok ([], this)
  | c :: cs =>
      let! (t, this) := class_typ fuel c this in
      let! (ts, this) := class_typs fuel cs this in
      Ok (t :: ts, this)
  end.

Definition void (this : TypeMap) : Class * TypeMap := get VoidType this.
Definition int (bits : Z) (this : TypeMap) : Class * TypeMap := get (IntegerType (wrap 32 bits)) this.
(** [TypeMap::bool] *)
Definition bool_class (this : TypeMap) : Class * TypeMap := int 1 this.
Definition size (this : TypeMap) : Class * TypeMap := int (ptr_bits this) this.
Definition float (fptype : FPType) (this : TypeMap) : Class * TypeMap := get (FPTypeT fptype) this.

Definition ptr (fuel : nat) (pointee : Class) (this : TypeMap) : res (Class * TypeMap) :=
  let! (t, this) := class_typ fuel pointee this in Ok (get (PointerType t) this).
Definition func (fuel : nat) (result : Class) (params : list Class) (is_var_arg : bool) (this : TypeMap)
    : res (Class * TypeMap) :=
  let! (r, this) := class_typ fuel result this in
  let! (ps, this) := class_typs fuel params this in
  Ok (get (FuncType r ps is_var_arg) this).
Definition vector (fuel : nat) (element : Class) (len : Z) (this : TypeMap) : res (Class * TypeMap) :=
  let! (t, this) := class_typ fuel element this in Ok (get (VectorType t len) this).
Definition array (fuel : nat) (element : Class) (len : Z) (this : TypeMap) : res (Class * TypeMap) :=
  let! (t, this) := class_typ fuel element this in Ok (get (ArrayType t len) this).
Definition struc (fuel : nat) (elements : list Class) (is_packed : bool) (this : TypeMap)
    : res (Class * TypeMap) :=
  let! (ts, this) := class_typs fuel elements this in Ok (get (StructType ts is_packed) this).

(** [TypeMap::named_struct]; [named] is llvm-ir's [Types::named_struct], and
    [None] stands for the error message. *)
Definition named_struct (named : string -> option Typ) (name : string) (this : TypeMap) : option (Class * TypeMap) :=
  match named name with Some t => Some (get t this) | None => None end.

(** [Class::as_vector], [Class::target] *)
Definition as_vector (fuel : nat) (c : Class) (this : TypeMap) : res (option (Class * Z) * TypeMap) :=
  let! (k, this) := class_kind fuel c this in
  Ok (match k with VectorClass e n => Some (e, n) | _ => None end, this).
Definition target (fuel : nat) (c : Class) (this : TypeMap) : res (Class * TypeMap) :=
  let! (e, this) := element fuel c (-1) this in Ok (e_class e, this).

(** Modules whose named structs are all defined are registered; an opaque one
    stops the program. *)
Lemma add_structs_defined (defs : list (string * Typ)) this :
  add_structs ((fun d => (d.1, Defined_ d.2)) <$> defs) this = Ok (add_module defs this).
Proof. revert this. induction defs as [|[n t] defs IH]; intros this; [done|apply IH]. Qed.

Lemma add_structs_opaque structs name this :
  (name, Opaque_) ∈ structs -> add_structs structs this = Panic Todo.
Proof.
  revert this. induction structs as [|[n [|t]] structs IH]; intros this Hin; [by apply elem_of_nil in Hin|done|].
  apply elem_of_cons in Hin as [|Hin]; [done|by apply IH].
Qed.

(** ** The layout of a type by plain recursion *)

(** The offsets and the unpadded layout of a sequence of fields. *)
Fixpoint extend_all (packing : Packing) (l : Layout) (ls : list Layout) : res (list Z * Layout) :=
  match ls with
  | [] => Ok ([], l)
  | x :: ls =>
      let! (l, o) := extend l packing x in
      let! (os, l) := extend_all packing l ls in
      Ok (o :: os, l)
  end.

Section Spec.
(** The named structs of the modules, and the width of pointers. *)
Variable env : gmap string Typ.
Variable pb : Z.

Fixpoint tlayout (fuel : nat) (t : Typ) : res Layout :=
  match fuel with
  | O => Panic UnreachableCode
  | S fuel =>
      match t with
      | VoidType | MetadataType => from_bytes 0 1
      | IntegerType b => of_int b
      | PointerType _ => of_int pb
      | FPTypeT f => fp_layout f
      | FuncType _ _ _ => of_func
      | VectorType e n => let! l := tlayout fuel e in repeat_ l PBit n
      | ArrayType e n => let! l := tlayout fuel e in repeat_ l PNone n
      | StructType ts packed =>
          let! l := of_int 0 in
          let! ls := mapM (tlayout fuel) ts in
          let! (_, l) := extend_all (packing_from_bool packed) l ls in
          pad_to_align l
      | NamedStructType n => match env !! n with Some t => tlayout fuel t | None => Panic Todo end
      | OtherType => Panic Todo
      end
  end.

(** The number of classes the layout may force. *)
Fixpoint tcost (fuel : nat) (t : Typ) : Z :=
  match fuel with
  | O => 0
  | S fuel =>
      match t with
      | VectorType e _ | ArrayType e _ => 1 + tcost fuel e
      | StructType ts _ => 1 + foldr (fun t z => tcost fuel t + z) 0 ts
      | NamedStructType n => match env !! n with Some t => tcost fuel t | None => 0 end
      | _ => 1
      end
  end.

Lemma mapM_mono {A B} (f g : A -> res B) l bs :
  (forall a b, a ∈ l -> f a = Ok b -> g a = Ok b) -> mapM f l = Ok bs -> mapM g l = Ok bs.
Proof.
  intros H. rewrite !mapM_Ok_Forall2. intros Hf. induction Hf as [|a b l bs Hb _ IH]; constructor.
  - apply H; [by left|done].
  - apply IH. intros. apply H; [by right|done].
Qed.

Lemma tlayout_mono n m t l : (n <= m)%nat -> tlayout n t = Ok l -> tlayout m t = Ok l.
Proof.
  revert m t l. induction n as [|n IH]; intros m t l Hle; [done|].
  destruct m as [|m]; [lia|].
  assert (forall t l, tlayout n t = Ok l -> tlayout m t = Ok l) as IH' by (intros; apply IH; [lia|done]).
  cbn [tlayout]. destruct t as [| | | | | |e k|e k|ts packed|s|]; try done.
  - intros (el & He & ?)%bind_Ok. by rewrite (IH' _ _ He).
  - intros (el & He & ?)%bind_Ok. by rewrite (IH' _ _ He).
  - intros (l0 & H0 & (ls & Hls & H)%bind_Ok)%bind_Ok. rewrite H0. cbn [bind].
    by rewrite (mapM_mono _ (tlayout m) _ _ (fun t l _ => IH' t l) Hls).
  - destruct (env !! s); [|done]. apply IH'.
Qed.

Lemma tlayout_fun n m t l l' : tlayout n t = Ok l -> tlayout m t = Ok l' -> l = l'.
Proof.
  intros H1 H2. apply (tlayout_mono _ (n + m)) in H1, H2; [congruence|lia..].
Qed.

Lemma tcost_nonneg n t : 0 <= tcost n t.
Proof.
  revert t. induction n as [|n IH]; intros t; simpl; [lia|].
  destruct t as [| | | | | |e k|e k|ts packed|s|]; try lia.
  - specialize (IH e). lia.
  - specialize (IH e). lia.
  - assert (0 <= foldr (fun t z => tcost n t + z) 0 ts); [|lia].
    clear - IH. induction ts as [|t ts IHts]; simpl; [lia|]. specialize (IH t). lia.
  - by destruct (env !! s).
Qed.

Lemma tcost_mono n m t : (n <= m)%nat -> tcost n t <= tcost m t.
Proof.
  revert m t. induction n as [|n IH]; intros m t Hle; [apply tcost_nonneg|].
  destruct m as [|m]; [lia|]. assert (forall t, tcost n t <= tcost m t) as IH' by (intros; apply IH; lia).
  simpl. destruct t as [| | | | | |e k|e k|ts packed|s|]; try lia.
  - specialize (IH' e). lia.
  - specialize (IH' e). lia.
  - clear IH Hle. induction ts as [|t ts IHts]; simpl; [lia|]. specialize (IH' t). lia.
  - destruct (env !! s); [apply IH'|lia].
Qed.

(** The least fuel that gives a type its layout. *)
Lemma tlayout_least n t l :
  tlayout n t = Ok l ->
  exists k, (S k <= n)%nat /\ tlayout (S k) t = Ok l /\ forall l', tlayout k t <> Ok l'.
Proof.
  induction n as [|n IH]; intros H; [done|].
  destruct (tlayout n t) as [l'|p] eqn:E.
  - rewrite (tlayout_fun n (S n) t l' l E H) in *.
    destruct (IH eq_refl) as (k & ? & ? & ?). exists k. split_and!; [lia|done|done].
  - exists n. split_and!; [lia|done|]. intros l' ?. congruence.
Qed.

(** ** The invariant of the class table *)

Definition cell_typ (x : Cell) : Typ :=
  match x with Unforced t | Forcing t => t | Forced i => typ i end.

Definition resolve (t : Typ) : Typ :=
  match t with NamedStructType n => default t (env !! n) | _ => t end.

(** [c] is a class of type [t]. *)
Definition has_typ (tm : TypeMap) (c : Class) (t : Typ) : Prop :=
  exists x, cells tm !! c = Some x /\ cell_typ x = resolve t.

Definition kind_ok (tm : TypeMap) (t : Typ) (k : ClassKind) : Prop :=
  match t with
  | VoidType | MetadataType => k = VoidClass
  | IntegerType b => k = IntegerClass b
  | PointerType p => exists c, k = PointerClass c /\ has_typ tm c p
  | FPTypeT f => k = FPClass f
  | FuncType r ps v =>
      exists c cs, k = FuncClass c cs v /\ has_typ tm c r /\ Forall2 (has_typ tm) cs ps
  | VectorType e n | ArrayType e n => exists c, k = VectorClass c n /\ has_typ tm c e
  | StructType ts packed =>
      exists fields l, k = StructClass fields l /\
        Forall2 (fun f t => has_typ tm (e_class f) t) fields ts /\
        exists n ls l0 l1, of_int 0 = Ok l0 /\ mapM (tlayout n) ts = Ok ls /\
          extend_all (packing_from_bool packed) l0 ls = Ok (bit_offset <$> fields, l1) /\
          pad_to_align l1 = Ok l
  | NamedStructType _ | OtherType => False
  end.

Definition cell_ok (tm : TypeMap) (x : Cell) : Prop :=
  match x with
  | Forced i => (exists n, tlayout n (typ i) = Ok (layout i)) /\ kind_ok tm (typ i) (kind i)
  | _ => True
  end.

Definition tm_ok (tm : TypeMap) : Prop :=
  ptr_bits tm = pb /\
  (forall c, fresh tm <= c -> cells tm !! c = None) /\
  (forall t c, assoc t (table tm) = Some c -> has_typ tm c t) /\
  (forall n t, env !! n = Some t -> exists ts p, t = StructType ts p) /\
  (forall n t, env !! n = Some t -> is_Some (assoc (NamedStructType n) (table tm))) /\
  (forall c x, cells tm !! c = Some x -> cell_ok tm x) /\
  0 <= next_id tm.

(** Table and cells only grow; a producer that runs is not disturbed. *)
Definition ext (tm tm' : TypeMap) : Prop :=
  (forall t c, assoc t (table tm) = Some c -> assoc t (table tm') = Some c) /\
  (forall c x, cells tm !! c = Some x -> exists x', cells tm' !! c = Some x' /\
     cell_typ x' = cell_typ x /\
     match x with Unforced _ => True | _ => x' = x end) /\
  (forall c t, cells tm' !! c = Some (Forcing t) -> cells tm !! c = Some (Forcing t)).

Lemma ext_refl tm : ext tm tm.
Proof. split_and!; [done| |done]. intros c x Hx. exists x. split_and!; [done..|]. by destruct x. Qed.

Lemma ext_trans tm1 tm2 tm3 : ext tm1 tm2 -> ext tm2 tm3 -> ext tm1 tm3.
Proof.
  intros (H1 & H2 & H3) (G1 & G2 & G3). split_and!; [auto| |auto].
  intros c x (x' & Hx' & Ht & Hm)%H2. apply G2 in Hx' as (x'' & Hx'' & Ht' & Hm').
  exists x''. split_and!; [done|congruence|]. destruct x; [done|by subst x'..].
Qed.

Lemma has_typ_ext tm tm' c t : ext tm tm' -> has_typ tm c t -> has_typ tm' c t.
Proof.
  intros (_ & He & _) (x & Hx & Ht). apply He in Hx as (x' & Hx' & Hx't & _).
  exists x'. split; [done|congruence].
Qed.

Lemma kind_ok_map tm tm' t k :
  (forall c t, has_typ tm c t -> has_typ tm' c t) -> kind_ok tm t k -> kind_ok tm' t k.
Proof.
  intros Hh. destruct t; simpl; try done.
  - intros (c & -> & ?). eauto.
  - intros (c & cs & -> & ? & ?). exists c, cs. split_and!; [done|auto|]. by eapply Forall2_impl.
  - intros (c & -> & ?). eauto.
  - intros (c & -> & ?). eauto.
  - intros (fs & l & -> & ? & ?). exists fs, l. split_and!; [done| |done].
    eapply Forall2_impl; [done|]. simpl. auto.
Qed.

Lemma kind_ok_ext tm tm' t k : ext tm tm' -> kind_ok tm t k -> kind_ok tm' t k.
Proof. intros He. apply kind_ok_map. intros. by eapply has_typ_ext. Qed.

Lemma cell_ok_ext tm tm' x : ext tm tm' -> cell_ok tm x -> cell_ok tm' x.
Proof. intros He. destruct x; simpl; try done. intros [? ?]. split; [done|by eapply kind_ok_ext]. Qed.

(** ** The operations keep the invariant *)

(** Entering a class: new entries and cells that agree with the old ones. *)
Lemma tm_ok_grow tm tm' :
  tm_ok tm -> ext tm tm' -> ptr_bits tm' = ptr_bits tm -> 0 <= next_id tm' ->
  (forall c, fresh tm' <= c -> cells tm' !! c = None) ->
  (forall t c, assoc t (table tm') = Some c -> assoc t (table tm) = Some c \/ has_typ tm' c t) ->
  (forall c x, cells tm' !! c = Some x -> cells tm !! c = Some x \/ cell_ok tm' x) ->
  tm_ok tm'.
Proof.
  intros (Hp & Hf & Ht & Hs & Hn & Hc & Hid) He Hp' Hid' Hf' Ht' Hc'.
  split_and!; [congruence|done| |done| | |done].
  - intros t c [H|H]%Ht'; [|done]. eapply has_typ_ext; [done|by apply Ht].
  - intros n t H. apply Hn in H as [c H]. exists c. by apply He.
  - intros c x [H|H]%Hc'; [|done]. eapply cell_ok_ext; [done|by eapply Hc].
Qed.

Lemma assoc_named_resolve tm t : tm_ok tm -> assoc t (table tm) = None -> resolve t = t.
Proof.
  intros (_ & _ & _ & _ & Hn & _) H. destruct t; simpl; try done.
  destruct (env !! name) as [t|] eqn:E; [|done]. apply Hn in E as [c E]. congruence.
Qed.

Lemma get_spec t tm :
  tm_ok tm ->
  exists c tm', get t tm = (c, tm') /\ tm_ok tm' /\ ext tm tm' /\ next_id tm' = next_id tm /\
    assoc t (table tm') = Some c /\ has_typ tm' c t.
Proof.
  intros Hok. unfold get. destruct (assoc t (table tm)) as [c|] eqn:E.
  { exists c, tm. split_and!; [done|done|apply ext_refl|done|done|]. by apply Hok. }
  pose proof Hok as (Hp & Hf & Ht & _ & _ & _ & Hid).
  assert (cells tm !! fresh tm = None) as Hnone by (apply Hf; lia).
  eexists _, _. split; [done|].
  set (tm' := MkTypeMap _ _ _ _ _).
  assert (ext tm tm') as He.
  { split_and!; simpl.
    - intros u c Hu. destruct (decide (u = t)); [congruence|done].
    - intros c x Hx. exists x. rewrite lookup_insert_ne by congruence. split_and!; [done..|]. by destruct x.
    - intros c u. rewrite lookup_insert_Some. naive_solver. }
  assert (has_typ tm' (fresh tm) t) as Hh.
  { exists (Unforced t). simpl. rewrite lookup_insert_eq. split; [done|].
    symmetry. by eapply assoc_named_resolve. }
  split_and!; [|done|done|by simpl; rewrite decide_True|done].
  apply (tm_ok_grow tm); try done.
  - intros c Hc. simpl in *. rewrite lookup_insert_ne by lia. apply Hf. lia.
  - intros u c. simpl. destruct (decide (u = t)) as [->|]; [|auto]. intros [= <-]. by right.
  - intros c x Hx. simpl in Hx. apply lookup_insert_Some in Hx as [[_ <-]|[_ ?]]; [by right|by left].
Qed.

Lemma get_all_spec ts tm :
  tm_ok tm ->
  exists cs tm', get_all ts tm = (cs, tm') /\ tm_ok tm' /\ ext tm tm' /\ next_id tm' = next_id tm /\
    Forall2 (has_typ tm') cs ts.
Proof.
  unfold get_all. intros Hok.
  assert (forall us cs tm, tm_ok tm -> Forall2 (has_typ tm) cs us ->
    exists cs' tm', fold_left (fun '(cs, tm) t => let '(c, tm) := get t tm in (cs ++ [c], tm)) ts (cs, tm)
        = (cs', tm') /\ tm_ok tm' /\ ext tm tm' /\ next_id tm' = next_id tm /\
      Forall2 (has_typ tm') cs' (us ++ ts)) as H.
  { clear Hok tm. induction ts as [|t ts IH]; intros us cs tm Hok Hcs; cbn [fold_left].
    - exists cs, tm. rewrite app_nil_r. split_and!; [done|done|apply ext_refl|done|done].
    - destruct (get_spec t tm Hok) as (c & tm1 & -> & Hok1 & He1 & Hid1 & _ & Hc).
      destruct (IH (us ++ [t]) (cs ++ [c]) tm1 Hok1) as (cs' & tm' & -> & Hok' & He' & Hid' & Hcs').
      { apply Forall2_app; [|by repeat constructor]. eapply Forall2_impl; [done|].
        intros; by eapply has_typ_ext. }
      exists cs', tm'. rewrite <- app_assoc in Hcs'.
      split_and!; [done|done|by eapply ext_trans|congruence|done]. }
  apply (H [] [] tm Hok). constructor.
Qed.

(** Writing a cell: starting and finishing a producer. *)
Lemma set_cell_forcing tm c t :
  tm_ok tm -> cells tm !! c = Some (Unforced t) ->
  let tm' := set_cell c (Forcing t) tm in
  tm_ok tm' /\
  (forall d u, cells tm' !! d = Some (Forcing u) -> cells tm !! d = Some (Forcing u) \/ u = t).
Proof.
  intros Hok Hc. pose proof Hok as (Hp & Hf & Ht & Hs & Hn & Hcs & Hid).
  assert (forall d u, has_typ tm d u -> has_typ (set_cell c (Forcing t) tm) d u) as Hh.
  { intros d u (x & Hx & Hxt). unfold has_typ. simpl. destruct (decide (c = d)) as [->|].
    - exists (Forcing t). rewrite lookup_insert_eq. split; [done|].
      rewrite Hc in Hx. by injection Hx as <-.
    - exists x. by rewrite lookup_insert_ne. }
  split.
  - split_and!; simpl; try done.
    + intros d Hd. rewrite lookup_insert_ne; [auto|]. intros ->. rewrite Hf in Hc; done.
    + intros u d Hd. by apply Hh, Ht.
    + intros d x [[_ <-]|[_ Hx]]%lookup_insert_Some; [done|]. specialize (Hcs d x Hx).
      destruct x as [| |i]; try done. destruct Hcs as [Hl Hk]. split; [done|].
      by eapply kind_ok_map.
  - intros d u. simpl. rewrite lookup_insert_Some. naive_solver.
Qed.

Lemma set_cell_forced tm c t i :
  tm_ok tm -> cells tm !! c = Some (Forcing t) -> typ i = t ->
  (exists n, tlayout n t = Ok (layout i)) -> kind_ok tm t (kind i) ->
  tm_ok (set_cell c (Forced i) tm).
Proof.
  intros Hok Hc Hit Hl Hk. pose proof Hok as (Hp & Hf & Ht & Hs & Hn & Hcs & Hid).
  assert (forall d u, has_typ tm d u -> has_typ (set_cell c (Forced i) tm) d u) as Hh.
  { intros d u (x & Hx & Hxt). unfold has_typ. simpl. destruct (decide (c = d)) as [->|].
    - exists (Forced i). rewrite lookup_insert_eq. split; [done|].
      rewrite Hc in Hx. injection Hx as <-. simpl in *. congruence.
    - exists x. by rewrite lookup_insert_ne. }
  pose proof (fun u k => kind_ok_map _ _ u k Hh) as Hkk.
  split_and!; simpl; try done.
  - intros d Hd. rewrite lookup_insert_ne; [auto|]. intros ->. rewrite Hf in Hc; done.
  - intros u d Hd. by apply Hh, Ht.
  - intros d x [[_ <-]|[_ Hx]]%lookup_insert_Some; simpl.
    + rewrite Hit. auto.
    + specialize (Hcs d x Hx). destruct x as [| |j]; try done. destruct Hcs as [? ?]. split; auto.
Qed.

(** ** Forcing a class computes [tlayout] *)

(** No running producer's type has a layout within fuel [k]: a type whose
    layout is finite is not being forced already. *)
Definition no_forcing (k : nat) (tm : TypeMap) : Prop :=
  forall c t l, cells tm !! c = Some (Forcing t) -> tlayout k t <> Ok l.

Lemma no_forcing_ext k tm tm' : ext tm tm' -> no_forcing k tm -> no_forcing k tm'.
Proof. intros (_ & _ & He) H c t l Hc. eapply H. by apply He. Qed.

Lemma no_forcing_le k k' tm : (k <= k')%nat -> no_forcing k' tm -> no_forcing k tm.
Proof. intros Hle H c t l Hc Ht. eapply H; [done|]. by eapply tlayout_mono. Qed.

(** The layout function [lay] is right for the types of fuel [k]. *)
Definition lay_ok (k : nat) (lay : Class -> TypeMap -> res (Layout * TypeMap)) : Prop :=
  forall t l c tm, tlayout k t = Ok l -> tm_ok tm -> has_typ tm c t -> no_forcing k tm ->
    next_id tm + tcost k t < 2 ^ 64 ->
    exists tm', lay c tm = Ok (l, tm') /\ tm_ok tm' /\ ext tm tm' /\
      next_id tm' <= next_id tm + tcost k t.

(** Getting a class and asking for its layout. *)
Lemma get_layout_spec k lay t l tm :
  lay_ok k lay -> tlayout k t = Ok l -> tm_ok tm -> no_forcing k tm ->
  next_id tm + tcost k t < 2 ^ 64 ->
  exists c tm1 tm', get t tm = (c, tm1) /\ lay c tm1 = Ok (l, tm') /\ tm_ok tm' /\ ext tm tm' /\
    has_typ tm' c t /\ next_id tm' <= next_id tm + tcost k t.
Proof.
  intros Hlay Ht Hok Hnf Hid.
  destruct (get_spec t tm Hok) as (c & tm1 & Hg & Hok1 & He1 & Hid1 & _ & Hc).
  destruct (Hlay t l c tm1 Ht Hok1 Hc) as (tm' & Hl & Hok' & He' & Hid');
    [by eapply no_forcing_ext|lia|].
  exists c, tm1, tm'. split_and!; [done..|by eapply ext_trans|by eapply has_typ_ext|lia].
Qed.

Lemma struct_fields_spec k lay packing ts ls l0 os l1 fields tm :
  lay_ok k lay -> mapM (tlayout k) ts = Ok ls -> extend_all packing l0 ls = Ok (os, l1) ->
  tm_ok tm -> no_forcing k tm ->
  next_id tm + foldr (fun t z => tcost k t + z) 0 ts < 2 ^ 64 ->
  exists fs tm', struct_fields lay packing ts fields l0 tm = Ok (fields ++ fs, l1, tm') /\
    tm_ok tm' /\ ext tm tm' /\ next_id tm' <= next_id tm + foldr (fun t z => tcost k t + z) 0 ts /\
    Forall2 (fun f t => has_typ tm' (e_class f) t) fs ts /\ bit_offset <$> fs = os.
Proof.
  intros Hlay. revert ls l0 os fields tm. induction ts as [|t ts IH]; intros ls l0 os fields tm Hls Hex Hok Hnf Hid.
  - simpl in Hls. injection Hls as <-. simpl in Hex. injection Hex as <- <-. simpl.
    exists [], tm. rewrite app_nil_r. split_and!; [done|done|apply ext_refl|lia|done|done].
  - cbn [mapM] in Hls. apply bind_Ok in Hls as (l & Hl & (ls' & Hls & [= <-])%bind_Ok).
    cbn [extend_all] in Hex. apply bind_Ok in Hex as ([l2 o] & Hl2 & ([os' l3] & Hex & [= <- <-])%bind_Ok).
    cbn [foldr] in Hid.
    assert (0 <= foldr (fun t z => tcost k t + z) 0 ts) as Hpos.
    { clear. induction ts as [|u ts IH]; simpl; [lia|]. pose proof (tcost_nonneg k u). lia. }
    pose proof (tcost_nonneg k t).
    destruct (get_layout_spec k lay t l tm Hlay Hl Hok Hnf) as (c & tm1 & tm2 & Hg & Hc & Hok2 & He2 & Ht & Hid2); [lia|].
    destruct (IH ls' l2 os' (fields ++ [MkElement c o]) tm2 Hls Hex Hok2)
      as (fs & tm' & Hst & Hok' & He' & Hid' & Hfs & Hos); [by eapply no_forcing_ext|lia|].
    exists (MkElement c o :: fs), tm'. cbn [struct_fields]. rewrite Hg, Hc. cbn [bind]. rewrite Hl2. cbn [bind].
    rewrite Hst, <- app_assoc. split_and!; [done|done|by eapply ext_trans|cbn [foldr]; lia| |].
    + constructor; [|done]. by eapply has_typ_ext.
    + rewrite fmap_cons, Hos. done.
Qed.

Lemma kind_layout_spec k lay t l tm :
  lay_ok k lay -> tlayout (S k) t = Ok l -> (forall s, t <> NamedStructType s) ->
  tm_ok tm -> no_forcing k tm -> next_id tm + tcost (S k) t < 2 ^ 64 ->
  exists kd tm', kind_layout lay t tm = Ok (kd, l, tm') /\ kind_ok tm' t kd /\ tm_ok tm' /\
    ext tm tm' /\ next_id tm' + 1 <= next_id tm + tcost (S k) t.
Proof.
  intros Hlay Ht Hns Hok Hnf Hid. destruct t as [| |b|p|f|r ps v|e n|e n|ts packed|s|];
    cbn [tlayout tcost kind_layout] in *; try done.
  - rewrite Ht. simpl. eexists _, tm. split_and!; [done..|apply ext_refl|lia].
  - rewrite Ht. simpl. eexists _, tm. split_and!; [done..|apply ext_refl|lia].
  - rewrite Ht. simpl. eexists _, tm. split_and!; [done..|apply ext_refl|lia].
  - destruct (get_spec p tm Hok) as (c & tm1 & -> & Hok1 & He1 & Hid1 & _ & Hc).
    assert (ptr_bits tm1 = pb) as -> by apply Hok1. rewrite Ht. cbn [bind].
    eexists _, tm1. split_and!; [done|by exists c|done|done|lia].
  - rewrite Ht. simpl. eexists _, tm. split_and!; [done..|apply ext_refl|lia].
  - destruct (get_spec r tm Hok) as (c & tm1 & -> & Hok1 & He1 & Hid1 & _ & Hc).
    destruct (get_all_spec ps tm1 Hok1) as (cs & tm2 & -> & Hok2 & He2 & Hid2 & Hcs).
    rewrite Ht. cbn [bind]. eexists _, tm2.
    split_and!; [done| |done|by eapply ext_trans|lia].
    exists c, cs. split_and!; [done|by eapply has_typ_ext|done].
  - apply bind_Ok in Ht as (el & He & Hr).
    destruct (get_layout_spec k lay e el tm Hlay He Hok Hnf) as (c & tm1 & tm2 & -> & -> & Hok2 & He2 & Hc & Hid2);
      [lia|]. cbn [bind]. rewrite Hr. cbn [bind].
    eexists _, tm2. split_and!; [done|by exists c|done|done|lia].
  - apply bind_Ok in Ht as (el & He & Hr).
    destruct (get_layout_spec k lay e el tm Hlay He Hok Hnf) as (c & tm1 & tm2 & -> & -> & Hok2 & He2 & Hc & Hid2);
      [lia|]. cbn [bind]. rewrite Hr. cbn [bind].
    eexists _, tm2. split_and!; [done|by exists c|done|done|lia].
  - apply bind_Ok in Ht as (l0 & H0 & (ls & Hls & ([os l1] & Hex & Hpad)%bind_Ok)%bind_Ok).
    rewrite H0. cbn [bind].
    destruct (struct_fields_spec k lay (packing_from_bool packed) ts ls l0 os l1 [] tm Hlay Hls Hex Hok Hnf)
      as (fs & tm' & -> & Hok' & He' & Hid' & Hfs & Hos); [lia|].
    cbn [bind app]. rewrite Hpad. cbn [bind].
    eexists _, tm'. split_and!; [done| |done|done|lia].
    exists fs, l. split_and!; [done|done|]. exists k, ls, l0, l1. rewrite Hos. done.
  - by destruct (Hns s).
Qed.

Lemma set_cell_ext tm tm2 c t i :
  cells tm !! c = Some (Unforced t) -> ext (set_cell c (Forcing t) tm) tm2 -> typ i = t ->
  ext tm (set_cell c (Forced i) tm2).
Proof.
  intros Hc (He1 & He2 & He3) Hi. split_and!; simpl in *.
  - done.
  - intros d x Hd. destruct (decide (c = d)) as [->|Hne].
    + exists (Forced i). rewrite lookup_insert_eq. rewrite Hc in Hd. injection Hd as <-. done.
    + rewrite lookup_insert_ne by done. apply He2. by rewrite lookup_insert_ne.
  - intros d u. destruct (decide (c = d)) as [->|Hne]; [by rewrite lookup_insert_eq|].
    rewrite lookup_insert_ne by done. intros Hd. apply He3 in Hd. by rewrite lookup_insert_ne in Hd.
Qed.

(** Running the producer of a class. *)
Lemma force_unforced_spec k lay t l c tm :
  lay_ok k lay -> tlayout (S k) t = Ok l -> (forall l', tlayout k t <> Ok l') ->
  (forall s, t <> NamedStructType s) -> tm_ok tm -> no_forcing k tm ->
  cells tm !! c = Some (Unforced t) -> next_id tm + tcost (S k) t < 2 ^ 64 ->
  exists i tm', get_inner lay t (set_cell c (Forcing t) tm) = Ok (i, tm') /\ layout i = l /\
    tm_ok (set_cell c (Forced i) tm') /\ ext tm (set_cell c (Forced i) tm') /\
    next_id tm' <= next_id tm + tcost (S k) t.
Proof.
  intros Hlay Ht Hk Hns Hok Hnf Hc Hid.
  destruct (set_cell_forcing tm c t Hok Hc) as [Hok0 Hf0].
  destruct (kind_layout_spec k lay t l (set_cell c (Forcing t) tm) Hlay Ht Hns Hok0)
    as (kd & tm2 & Hkl & Hkd & Hok2 & He2 & Hid2); [|done|].
  { intros d u l' [Hd| ->]%Hf0; [by eapply Hnf|done]. }
  cbn [set_cell next_id] in Hid2. pose proof Hok2 as (Hp & Hfr & Htb & Hs & Hn & Hcs & Hid0).
  unfold get_inner. rewrite Hkl. cbn [bind]. rewrite add64_ok by lia. cbn [bind].
  eexists _, _. split; [done|]. split; [done|].
  set (i := MkClassInner _ _ _ _). set (tm3 := MkTypeMap _ _ _ _ _).
  assert (cells tm3 !! c = Some (Forcing t)) as Hc3.
  { destruct He2 as (_ & He2 & _). destruct (He2 c (Forcing t)) as (x' & Hx' & _ & ->); [|done].
    simpl. apply lookup_insert_eq. }
  split_and!.
  - apply (set_cell_forced tm3 c t i); [|done|done|by exists (S k)|exact Hkd].
    split_and!; try done. unfold tm3. cbn [next_id]. lia.
  - by eapply set_cell_ext.
  - unfold tm3. cbn [set_cell next_id]. lia.
Qed.

Lemma force_lay_ok n fuel : (n <= fuel)%nat -> lay_ok n (class_layout fuel).
Proof.
  revert fuel. induction (lt_wf n) as [n _ IHn]. intros fuel Hle t l c tm Ht Hok Hc Hnf Hid.
  assert ((exists s, t = NamedStructType s) \/ ~ exists s, t = NamedStructType s) as [[s ->]|Hns].
  { destruct t; [right; naive_solver..|left; by eexists|right; naive_solver]. }
  - destruct n as [|n]; [done|]. cbn [tlayout tcost] in Ht, Hid |- *.
    destruct (env !! s) as [u|] eqn:Eu; [|done].
    assert (has_typ tm c u) as Hcu.
    { destruct Hc as (x & Hx & Hxt). exists x. split; [done|]. rewrite Hxt. simpl. rewrite Eu.
      destruct Hok as (_ & _ & _ & Hs & _). by destruct (Hs _ _ Eu) as (? & ? & ->). }
    apply (IHn n ltac:(lia) fuel ltac:(lia) u l c tm); try done.
    eapply no_forcing_le; [|done]. lia.
  - destruct Hc as (x & Hx & Hxt).
    assert (resolve t = t) as Hrt by (destruct t; try done; destruct Hns; eauto).
    rewrite Hrt in Hxt. destruct fuel as [|fuel]; [destruct n; [done|lia]|].
    unfold class_layout. cbn [force]. rewrite Hx.
    destruct x as [u|u|i]; simpl in Hxt; subst.
    + destruct (tlayout_least n t l Ht) as (k & Hkn & Hk & Hmin).
      pose proof (tcost_mono (S k) n t Hkn).
      destruct (force_unforced_spec k (class_layout fuel) t l c tm) as (i & tm' & Hg & Hl & Hok' & He & Hid');
        [apply IHn; lia|done|done|by intros s ->; destruct Hns; exists s|done| |done|lia|].
      { eapply no_forcing_le; [|done]. lia. }
      unfold class_layout in Hg. rewrite Hg. cbn [bind]. rewrite Hl.
      eexists. split_and!; [done..|]. simpl. lia.
    + by destruct (Hnf c t l Hx).
    + pose proof Hok as (_ & _ & _ & _ & _ & Hcs & _).
      destruct (Hcs c _ Hx) as [[m Hm] _]. exists tm. rewrite (tlayout_fun _ _ _ _ _ Ht Hm).
      split_and!; [done|done|apply ext_refl|]. pose proof (tcost_nonneg n (typ i)). lia.
Qed.
End Spec.

(** ** Registering modules *)

(** After [add_module] and before any class is forced. *)
Definition registered (env : gmap string Typ) (pb : Z) (tm : TypeMap) : Prop :=
  ptr_bits tm = pb /\ next_id tm = 0 /\
  (forall c, fresh tm <= c -> cells tm !! c = None) /\
  (forall c x, cells tm !! c = Some x -> exists t, x = Unforced t) /\
  (forall t c, assoc t (table tm) = Some c -> cells tm !! c = Some (Unforced (resolve env t))) /\
  (forall n, is_Some (assoc (NamedStructType n) (table tm)) <-> is_Some (env !! n)) /\
  (forall n t, env !! n = Some t -> exists ts p, t = StructType ts p).

Lemma registered_ok env pb tm : registered env pb tm -> tm_ok env pb tm.
Proof.
  intros (Hp & Hid & Hf & Hu & Ht & Hn & Hs). split_and!; try done.
  - intros t c H%Ht. by eexists.
  - intros n t H. apply Hn. by eexists.
  - intros c x [t ->]%Hu. done.
  - lia.
Qed.

Lemma registered_add env pb tm n ts p :
  registered env pb tm -> env !! n = None ->
  let '(c, tm') := get (StructType ts p) tm in
  registered (<[n := StructType ts p]> env) pb (table_insert (NamedStructType n) c tm').
Proof.
  intros (Hp & Hid & Hf & Hu & Ht & Hn & Hs) Hfree.
  assert (forall t c, assoc t (table tm) = Some c -> resolve (<[n := StructType ts p]> env) t = resolve env t) as Hres.
  { intros t c Hc. destruct t as [| | | | | | | | |s|]; try done. simpl.
    destruct (decide (n = s)) as [->|]; [|by rewrite lookup_insert_ne].
    destruct (proj1 (Hn s)) as [? ?]; [by eexists|congruence]. }
  unfold get. destruct (assoc (StructType ts p) (table tm)) as [c|] eqn:E.
  - split_and!; simpl; try done.
    + intros t d. destruct (decide (t = NamedStructType n)) as [->|].
      * intros [= <-]. simpl. rewrite lookup_insert_eq. by apply (Ht _ _ E).
      * intros Hd. rewrite (Hres _ _ Hd). by apply Ht.
    + intros m. destruct (decide (NamedStructType m = NamedStructType n)) as [[= ->]|Hne].
      * rewrite lookup_insert_eq. split; by eexists.
      * rewrite lookup_insert_ne by congruence. apply Hn.
    + intros m t [[_ <-]|[_ H]]%lookup_insert_Some; [by do 2 eexists|by eapply Hs].
  - assert (cells tm !! fresh tm = None) as Hnone by (apply Hf; lia).
    split_and!; simpl; try done.
    + intros d Hd. rewrite lookup_insert_ne by lia. apply Hf. lia.
    + intros d x [[_ <-]|[_ Hx]]%lookup_insert_Some; [by eexists|by eapply Hu].
    + intros t d. destruct (decide (t = NamedStructType n)) as [->|].
      * intros [= <-]. simpl. by rewrite !lookup_insert_eq.
      * destruct (decide (t = StructType ts p)) as [->|].
        { intros [= <-]. by rewrite lookup_insert_eq. }
        intros Hd. rewrite (Hres _ _ Hd). apply Ht in Hd. rewrite lookup_insert_ne by congruence. done.
    + intros m. destruct (decide (NamedStructType m = NamedStructType n)) as [[= ->]|Hne].
      * rewrite lookup_insert_eq. split; by eexists.
      * rewrite lookup_insert_ne by congruence. apply Hn.
    + intros m t [[_ <-]|[_ H]]%lookup_insert_Some; [by do 2 eexists|by eapply Hs].
Qed.

Lemma registered_add_all defs env pb tm :
  registered env pb tm -> NoDup defs.*1 -> (forall n, n ∈ defs.*1 -> env !! n = None) ->
  Forall (fun d => exists ts p, d.2 = StructType ts p) defs ->
  exists env', registered env' pb (add_module defs tm) /\
    forall n t, env' !! n = Some t <-> (n, t) ∈ defs \/ env !! n = Some t.
Proof.
  revert env tm. induction defs as [|[n t] defs IH]; intros env tm Hr Hnd Hfree Hall.
  { exists env. split; [done|]. set_solver. }
  apply NoDup_cons in Hnd as [Hnin Hnd]. apply Forall_cons in Hall as [(ts & p & Ht) Hall].
  simpl in Ht. subst t.
  pose proof (registered_add env pb tm n ts p Hr ltac:(apply Hfree; by left)) as Hr1.
  unfold add_module. cbn [fold_left snd fst].
  destruct (get (StructType ts p) tm) as [c tm1].
  destruct (IH _ _ Hr1 Hnd) as (env' & Hr' & Henv'); [|done|].
  { intros m Hm. rewrite lookup_insert_ne; [apply Hfree; by right|]. intros ->. by apply Hnin. }
  exists env'. split; [done|]. intros m u. rewrite Henv', lookup_insert_Some, elem_of_cons.
  assert (n = m -> env !! m = None) by (intros <-; apply Hfree; by left).
  naive_solver.
Qed.

Lemma registered_new pb : registered ∅ pb (typemap_new pb).
Proof.
  split_and!; simpl; try done.
  intros n. rewrite lookup_empty. split; intros [? H]; done.
Qed.

(** A client asking for the layouts of types one after the other. *)
Fixpoint query (fuel : nat) (ts : list Typ) (tm : TypeMap) : res (list Layout * TypeMap) :=
  match ts with
  | [] => Ok ([], tm)
  | t :: ts =>
      let '(c, tm) := get t tm in
      let! (l, tm) := class_layout fuel c tm in
      let! (ls, tm) := query fuel ts tm in
      Ok (l :: ls, tm)
  end.

Lemma query_spec env pb n fuel ts ls tm :
  (n <= fuel)%nat -> mapM (tlayout env pb n) ts = Ok ls -> tm_ok env pb tm ->
  (forall c t, cells tm !! c <> Some (Forcing t)) ->
  next_id tm + foldr (fun t z => tcost env n t + z) 0 ts < 2 ^ 64 ->
  exists tm', query fuel ts tm = Ok (ls, tm') /\ tm_ok env pb tm' /\
    (forall c t, cells tm' !! c <> Some (Forcing t)).
Proof.
  intros Hn. revert ls tm. induction ts as [|t ts IH]; intros ls tm Hls Hok Hnf Hid.
  { injection Hls as <-. exists tm. by split_and!. }
  cbn [mapM] in Hls. apply bind_Ok in Hls as (l & Hl & (ls' & Hls & [= <-])%bind_Ok).
  cbn [foldr] in Hid.
  assert (0 <= foldr (fun t z => tcost env n t + z) 0 ts) as Hpos.
  { clear. induction ts as [|u ts IH]; simpl; [lia|]. pose proof (tcost_nonneg env n u). lia. }
  destruct (get_layout_spec env pb n (class_layout fuel) t l tm) as (c & tm1 & tm2 & Hg & Hc & Hok2 & He2 & _ & Hid2);
    [by apply force_lay_ok|done|done| |lia|].
  { intros c u l' Hc. by apply Hnf in Hc. }
  destruct (IH ls' tm2 Hls Hok2) as (tm' & Hq & Hok' & Hnf'); [|lia|].
  { intros d u Hd. destruct He2 as (_ & _ & He2). by apply He2, Hnf in Hd. }
  exists tm'. cbn [query]. rewrite Hg, Hc. cbn [bind]. rewrite Hq. by split_and!.
Qed.

(** ** Struct layouts *)

(** How much room the fields of a struct can take. *)
Definition room (ls : list Layout) : Z := foldr (fun l z => bits l + bit_align l + z) 0 ls.

Lemma room_nonneg ls : Forall wf ls -> 0 <= room ls.
Proof.
  induction 1 as [|l ls (Hb & Ha & _) _ IH]; simpl; [lia|]. fold (room ls). lia.
Qed.

(** Where the field of layout [x] sits in a struct. *)
Definition field_ok (packed : bool) (o : Z) (x : Layout) : Prop :=
  0 <= o /\ (8 | o) /\ (packed = false -> (bit_align x | o)).

Lemma extend_spec packed l x :
  wf l -> wf x -> bits l + bits x + bit_align x < 2 ^ 63 ->
  exists l' o, extend l (packing_from_bool packed) x = Ok (l', o) /\ wf l' /\ field_ok packed o x /\
    bits l <= o /\ bits l' = o + bits x /\ bits l' <= bits l + bits x + bit_align x /\
    (packed = false -> bit_align l' = Z.max (bit_align l) (bit_align x)) /\
    (packed = true -> bit_align l' = 8).
Proof.
  intros Hl Hx Hlt. pose proof Hl as (Hb & _). pose proof Hx as (Hxb & Hxa & Hxp).
  destruct packed; simpl.
  - destruct (extend_byte_spec l x Hl Hx) as (l' & o & He & Hl' & Ho & Hd & Hb' & Ha'); [lia|].
    exists l', o. unfold field_ok. split_and!; try done; lia.
  - destruct (extend_none_spec l x Hl Hx) as (l' & o & He & Hl' & Ho & Hd & Hb' & Ha'); [lia|].
    exists l', o. unfold field_ok. split_and!; try done; try lia.
    etrans; [|done]. by apply pow2_divide_8.
Qed.

Lemma extend_all_spec packed ls l :
  wf l -> Forall wf ls -> bits l + room ls < 2 ^ 63 ->
  exists os l', extend_all (packing_from_bool packed) l ls = Ok (os, l') /\ wf l' /\
    bits l <= bits l' <= bits l + room ls /\ bit_align l' <= Z.max (bit_align l) (room ls) /\
    Forall2 (fun o x => field_ok packed o x /\ bits l <= o /\ o + bits x <= bits l') os ls /\
    StronglySorted (fun a b => a.1 + bits a.2 <= b.1) (zip os ls) /\
    (packed = false -> Forall (fun x => bit_align x <= bit_align l') ls /\ bit_align l <= bit_align l').
Proof.
  revert l. induction ls as [|x ls IH]; intros l Hl Hls Hroom.
  { exists [], l. simpl. split_and!; first [done|lia|constructor|intros _; split; [constructor|lia]]. }
  apply Forall_cons in Hls as [Hx Hls]. cbn [room foldr] in Hroom. fold (room ls) in Hroom.
  pose proof (room_nonneg ls Hls). pose proof Hx as (Hxb & Hxa & _).
  destruct (extend_spec packed l x Hl Hx) as (l1 & o & He & Hl1 & Hf & Ho & Hb1 & Hle & Ha1 & Ha1'); [lia|].
  destruct (IH l1 Hl1 Hls) as (os & l' & Hes & Hl' & Hb' & Hal & Hfs & Hso & Ha'); [lia|].
  cbn [extend_all]. rewrite He. cbn [bind]. rewrite Hes. cbn [bind room foldr]. fold (room ls).
  exists (o :: os), l'. split_and!; [done|done|lia..| | | |].
  - destruct packed; [rewrite Ha1' in Hal by done|rewrite Ha1 in Hal by done]; destruct Hl as (_ & ? & _); lia.
  - constructor; [split_and!; [done|lia|lia]|]. eapply Forall2_impl; [done|].
    simpl. intros o' x' (? & ? & ?). split_and!; [done|lia|done].
  - cbn [zip]. apply StronglySorted_cons. split; [|done]. apply Forall_forall. intros [o' x'] Hin. simpl.
    assert (bits l1 <= o'); [|lia]. clear - Hfs Hin.
    induction Hfs as [|a b os ls (_ & ? & _) _ IH]; [by apply elem_of_nil in Hin|].
    apply elem_of_cons in Hin as [[= -> ->]|Hin]; [done|auto].
  - intros Hp. destruct (Ha' Hp) as [Hall Hge]. rewrite (Ha1 Hp) in Hge. split; [|lia].
    constructor; [lia|done].
Qed.

(** ** Theorems *)

(** The layout the code gives a struct with fields of layouts [ls]. *)
Definition struct_layout (packed : bool) (ls : list Layout) : res (list Z * Layout) :=
  let! l0 := of_int 0 in
  let! (os, l) := extend_all (packing_from_bool packed) l0 ls in
  let! l := pad_to_align l in
  Ok (os, l).

Lemma struct_layout_fields (packed : bool) (ls : list Layout)
    (Hls : Forall wf ls) (Hroom : 16 + 2 * room ls < 2 ^ 63) :
  exists os l, struct_layout packed ls = Ok (os, l) /\ wf l /\ bits l < 2 ^ 63 /\
    Forall2 (fun o x => field_ok packed o x /\ o + bits x <= bits l) os ls /\
    StronglySorted (fun a b => a.1 + bits a.2 <= b.1) (zip os ls) /\
    (bit_align l | bits l) /\
    (packed = false -> Forall (fun x => bit_align x <= bit_align l) ls).
Proof.
  pose proof (room_nonneg ls Hls).
  assert (wf (MkLayout 0 8)) as H0 by (split_and!; simpl; [lia..|apply pow2_8]).
  destruct (extend_all_spec packed ls (MkLayout 0 8) H0 Hls) as (os & l & He & Hl & Hb & Ha & Hf & Hs & Hal);
    [simpl; lia|].
  unfold struct_layout. change (of_int 0) with (Ok (MkLayout 0 8)). cbn [bind]. rewrite He. cbn [bind].
  simpl in Hb, Ha. pose proof Hl as (_ & Ha8 & Hp2).
  rewrite (pad_to_align_spec l Hl) by lia. cbn [bind].
  destruct (round_up_spec (bits l) (bit_align l)) as [Hr Hd]; [lia|].
  exists os. eexists. split; [done|]. split_and!; simpl; try done.
  - split_and!; simpl; [lia|lia|done].
  - lia.
  - eapply Forall2_impl; [exact Hf|]. simpl. intros o x (? & _ & ?). split; [done|lia].
  - intros Hp. by apply Hal.
Qed.

(** Struct layouts. Fields keep their order and never overlap, start at
    byte boundaries inside the struct and, unless it is packed, where their own
    layout asks; the struct's size is a multiple of its alignment, which is at
    least that of every field, so that arrays of it stay aligned. *)
Theorem struct_layout_disjoint (packed : bool) (ls : list Layout)
    (Hls : Forall wf ls) (Hroom : 16 + 2 * room ls < 2 ^ 63) :
  exists os l, struct_layout packed ls = Ok (os, l) /\ wf l /\
    Forall2 (fun o x => field_ok packed o x /\ o + bits x <= bits l) os ls /\
    StronglySorted (fun a b => a.1 + bits a.2 <= b.1) (zip os ls) /\
    (bit_align l | bits l) /\
    (packed = false -> Forall (fun x => bit_align x <= bit_align l) ls).
Proof.
  destruct (struct_layout_fields packed ls Hls Hroom) as (os & l & ? & ? & _ & ?). by exists os, l.
Qed.

(** C36: lazy classes compute the recursive layouts. After the named structs of
    a module are registered, any sequence of layout queries succeeds with the
    layouts given by plain recursion over the types, whatever was forced
    before, provided these are finite; the fuel need only cover their nesting.
    In particular a struct that refers to itself through pointers is laid out
    without forcing itself. *)
Theorem class_layouts_correct (pb : Z) (defs : list (string * Typ)) (n fuel : nat) (ts : list Typ)
    (ls : list Layout)
    (Hnd : NoDup defs.*1) (Hs : Forall (fun d => exists us p, d.2 = StructType us p) defs)
    (Hn : (n <= fuel)%nat)
    (Hls : mapM (tlayout (list_to_map defs) pb n) ts = Ok ls)
    (Hcost : foldr (fun t z => tcost (list_to_map defs) n t + z) 0 ts < 2 ^ 64) :
  exists tm, query fuel ts (add_module defs (typemap_new pb)) = Ok (ls, tm) /\
    tm_ok (list_to_map defs) pb tm.
Proof.
  destruct (registered_add_all defs ∅ pb (typemap_new pb) (registered_new pb) Hnd) as (env & Hr & Henv);
    [intros; apply lookup_empty|done|].
  assert (env = list_to_map defs) as ->.
  { apply map_eq. intros m. apply option_eq. intros t. rewrite Henv, lookup_empty.
    rewrite <- elem_of_list_to_map by done. naive_solver. }
  destruct (query_spec (list_to_map defs) pb n fuel ts ls (add_module defs (typemap_new pb)) Hn Hls)
    as (tm & Hq & Hok & _); [by apply registered_ok| | |by exists tm].
  - intros c t Hc. destruct Hr as (_ & _ & _ & Hu & _). by apply Hu in Hc as [? ?].
  - destruct Hr as (_ & -> & _). lia.
Qed.

(** The class of an array type, forced in a new table. *)
Definition array_class (t : Typ) : res (Class * Layout * TypeMap) :=
  let '(c, tm) := get t (typemap_new 64) in
  let! (l, tm) := class_layout 3 c tm in Ok (c, l, tm).

(** Arrays are given the class of vectors, so their elements are spaced by
    the element's size and not by its padded size: in [2 x i1] the layout holds
    16 bits, with room for the second element at bit 8, but indexing puts it at
    bit 1, and in [2 x x86_fp80] at bit 80 instead of 128. *)
Theorem array_stride_not_padded :
  (exists c tm tm' e, array_class (ArrayType (IntegerType 1) 2) = Ok (c, MkLayout 16 8, tm) /\
     element 3 c 1 tm = Ok (MkElement e 1, tm')) /\
  (exists c tm tm' e, array_class (ArrayType (FPTypeT X86_FP80) 2) = Ok (c, MkLayout 256 128, tm) /\
     element 3 c 1 tm = Ok (MkElement e 80, tm')).
Proof.
  split; (do 4 eexists; split; [vm_compute; reflexivity|vm_compute; reflexivity]).
Qed.

(** ** Concrete runs *)

Lemma struct_layout_disjoint_witness :
  let ls := [MkLayout 8 8; MkLayout 64 64; MkLayout 16 16] in
  struct_layout false ls = Ok ([0; 64; 128], MkLayout 192 64) /\
  exists os l, struct_layout false ls = Ok (os, l) /\ wf l /\
    Forall2 (fun o x => field_ok false o x /\ o + bits x <= bits l) os ls /\
    StronglySorted (fun a b => a.1 + bits a.2 <= b.1) (zip os ls) /\
    (bit_align l | bits l) /\
    (false = false -> Forall (fun x => bit_align x <= bit_align l) ls).
Proof.
  intros ls. split; [vm_compute; reflexivity|]. apply (struct_layout_disjoint false ls).
  - repeat constructor; simpl; try lia; [by exists 3|by exists 6|by exists 4].
  - vm_compute. reflexivity.
Defined.

(** A linked list: { i32, i8*, %list* }. *)
Definition list_def : list (string * Typ) :=
  [("list"%string, StructType [IntegerType 32; PointerType (IntegerType 8);
                               PointerType (NamedStructType "list")] false)].

Lemma class_layouts_correct_witness :
  let ts := [ArrayType (NamedStructType "list") 3; NamedStructType "list"; IntegerType 1] in
  let ls := [MkLayout 576 64; MkLayout 192 64; MkLayout 1 8] in
  exists tm, query 4 ts (add_module list_def (typemap_new 64)) = Ok (ls, tm) /\
    tm_ok (list_to_map list_def) 64 tm.
Proof.
  intros ts ls. apply (class_layouts_correct 64 list_def 4 4 ts ls).
  - apply (bool_decide_unpack _). vm_compute. exact I.
  - constructor; [|constructor]. by eexists _, _.
  - lia.
  - vm_compute. reflexivity.
  - vm_compute. reflexivity.
Defined.
