(* ===== verification/ClassText.v ===== *)
(** * ClassText: what is printed of a class (src/src/compile/class.rs)

    [Debug] of classes and of their kinds. A class prints the classes its kind
    refers to, among them possibly itself: [reentrant_debug] is borrowed while a
    class is being printed, and a class that finds it borrowed prints its number
    alone. Printing forces what has not been forced yet. The theorem says that
    this is enough for printing to end. *)

From S2P Require Import Prelude Text Layout Classes.

#[local] Open Scope string_scope.

(** Printing a class can panic, change the table and, as far as the model knows,
    go on for ever: [None] is out of fuel. *)
Definition Printer (A : Type) : Type := TypeMap -> option (res (A * TypeMap)).

Definition pret {A} (a : A) : Printer A := fun tm => Some (Ok (a, tm)).
Definition pbind {A B} (m : Printer A) (f : A -> Printer B) : Printer B := fun tm =>
  match m tm with
  | Some (Ok (a, tm)) => f a tm
  | Some (Panic p) => Some (Panic p)
  | None => None
  end.
Definition plift {A} (f : TypeMap -> res (A * TypeMap)) : Printer A := fun tm => Some (f tm).

Notation "'print!' x := m 'in' k" := (pbind m (fun x => k))
  (at level 10, x name, m at level 100, k at level 200).

Section ClassText.
(** [Display] of llvm-ir's [FPType]. *)
Variable fp_display : FPType -> text.
(** The nesting of the producers, for [force]. *)
Variable depth : nat.

Section Kind.
(** How a class is printed, and whether it has a kind ([Lazy::force] returned
    [Ok]). *)
Variable show : Class -> Printer (bool * text).

(** [Debug for Class] *)
Definition class_debug (c : Class) : Printer text := print! r := show c in pret r.2.

(** [Debug for ClassWeak]: an [Option<Rc<Lazy<..>>>]. *)
Definition weak_debug (c : Class) : Printer text :=
  print! r := show c in pret ("Some(" +:+ (if r.1 then "Ok(" else "Err(") +:+ r.2 +:+ "))").

(** A list of things that are printed. *)
Fixpoint all_debug {A} (f : A -> Printer text) (l : list A) : Printer (list text) :=
  match l with
  | [] => pret []
  | a :: l => print! s := f a in print! ss := all_debug f l in pret (s :: ss)
  end.
Definition list_debug {A} (f : A -> Printer text) (l : list A) : Printer text :=
  print! ss := all_debug f l in pret ("[" +:+ String.concat ", " ss +:+ "]").

(** [Debug for Element] *)
Definition element_debug (e : Element) : Printer text :=
  print! s := class_debug (e_class e) in pret ("Element { class: " +:+ s +:+ ", bit_offset: " +:+ dec (bit_offset e) +:+ " }").

(** [Debug for ClassKind], [VoidClass], [IntegerClass], .. *)
Definition kind_debug (k : ClassKind) : Printer text :=
  match k with
  | VoidClass => pret "void"
  | IntegerClass bits => pret ("i" +:+ dec bits)
  | PointerClass pointee => print! s := weak_debug pointee in pret ("Pointer(" +:+ s +:+ ")")
  | FPClass fptype => pret ("f" +:+ fp_display fptype)
  | FuncClass result params is_var_arg =>
      print! r := class_debug result in
      print! ps := list_debug class_debug params in
      pret ("FuncClass { result: " +:+ r +:+ ", params: " +:+ ps +:+ ", is_var_arg: " +:+ (if is_var_arg then "true" else "false") +:+ " }")
  | VectorClass element len =>
      print! s := class_debug element in pret ("VectorClass { element: " +:+ s +:+ ", len: " +:+ dec len +:+ " }")
  | ArrayClass element len =>
      print! s := class_debug element in pret ("ArrayClass { element: " +:+ s +:+ ", len: " +:+ dec len +:+ " }")
  | StructClass fields layout =>
      print! s := list_debug element_debug fields in
      pret ("StructClass { fields: " +:+ s +:+ ", layout: " +:+ Layout.debug layout +:+ " }")
  end.
End Kind.

(** [Debug for ClassInner]; [open] are the classes whose [reentrant_debug] is
    borrowed. *)
Definition inner_debug (show : list Class -> Class -> Printer (bool * text)) (open : list Class) (c : Class)
    (v : ClassInner) : Printer text :=
  if bool_decide (c ∈ open) then pret ("Class { id: " +:+ dec (id v) +:+ " }")
  else
    print! k := kind_debug (show (c :: open)) (kind v) in
    pret ("Class { id: " +:+ dec (id v) +:+ ", layout: " +:+ Layout.debug (layout v) +:+ ", kind: " +:+ k +:+ " }").

(** [self.0.0.force()], and what it returns, printed. *)
Fixpoint show (fuel : nat) (open : list Class) (c : Class) : Printer (bool * text) :=
  match fuel with
  | O => fun _ => None
  | S fuel => fun tm =>
      match cells tm !! c with
      | Some (Forcing _) => Some (Ok ((false, "RecursiveError"), tm))
      | _ =>
          (print! v := plift (force depth c) in
           print! s := inner_debug (show fuel) open c v in pret (true, s)) tm
      end
  end.

(** ["{:?}"] of a class. *)
Definition debug (fuel : nat) (c : Class) : Printer text := class_debug (show fuel []) c.

(** ** Printing ends *)

(** The classes a kind refers to. *)
Definition mentioned (k : ClassKind) : list Class :=
  match k with
  | VoidClass | IntegerClass _ | FPClass _ => []
  | PointerClass c | VectorClass c _ | ArrayClass c _ => [c]
  | FuncClass c cs _ => c :: cs
  | StructClass fields _ => e_class <$> fields
  end.

(** Every class of the table has its kind, which refers to classes of the table. *)
Definition all_forced (tm : TypeMap) : Prop :=
  forall c x, cells tm !! c = Some x ->
    exists v, x = Forced v /\ forall d, d ∈ mentioned (kind v) -> is_Some (cells tm !! d).

(** A printer prints something and leaves the table alone. *)
Definition prints {A} (m : Printer A) (tm : TypeMap) : Prop := exists a, m tm = Some (Ok (a, tm)).

Lemma prints_ret {A} (a : A) tm : prints (pret a) tm.
Proof. by exists a. Qed.

Lemma prints_bind {A B} (m : Printer A) (f : A -> Printer B) tm :
  prints m tm -> (forall a, prints (f a) tm) -> prints (pbind m f) tm.
Proof. intros [a Ha] Hf. unfold prints, pbind. rewrite Ha. apply Hf. Qed.

Lemma prints_list {A} (f : A -> Printer text) l tm : (forall a, a ∈ l -> prints (f a) tm) -> prints (list_debug f l) tm.
Proof.
  intros Hf. apply prints_bind; [|intros; apply prints_ret]. induction l as [|a l IH]; [apply prints_ret|].
  apply prints_bind; [apply Hf; by left|]. intros s. apply prints_bind; [|intros; apply prints_ret].
  apply IH. intros x Hx. apply Hf. by right.
Qed.

Lemma prints_kind (show : Class -> Printer (bool * text)) k tm :
  (forall d, d ∈ mentioned k -> prints (show d) tm) -> prints (kind_debug show k) tm.
Proof.
  intros Hs. assert (forall d, d ∈ mentioned k -> prints (class_debug show d) tm) as Hc.
  { intros d Hd. apply prints_bind; [by apply Hs|intros; apply prints_ret]. }
  destruct k as [|b|p|f|r ps va|e n|e n|fields l]; cbn [kind_debug mentioned] in *; try apply prints_ret;
    (apply prints_bind; [|intros]); try apply prints_ret; try (apply Hc; by left).
  - apply prints_bind; [|intros; apply prints_ret]. apply Hs. by left.
  - apply prints_bind; [|intros; apply prints_ret]. apply prints_list. intros d Hd. apply Hc. by right.
  - apply prints_list. intros e He. apply prints_bind; [|intros; apply prints_ret].
    apply Hc. apply list_elem_of_fmap. by exists e.
Qed.

(** What is left to print: the classes that are not being printed. *)
Definition unopened (tm : TypeMap) (open : list Class) : nat := base.size (dom (cells tm) ∖ list_to_set open).

Lemma unopened_cons tm open c :
  is_Some (cells tm !! c) -> c ∉ open -> (unopened tm (c :: open) < unopened tm open)%nat.
Proof.
  intros Hc Ho. apply subset_size. split.
  - intros d. rewrite !elem_of_difference, !elem_of_list_to_set. intros [? ?]. split; [done|]. intros ?. set_solver.
  - intros Hsub. specialize (Hsub c). rewrite !elem_of_difference, !elem_of_list_to_set in Hsub.
    apply elem_of_dom in Hc. destruct Hsub as [_ []]; [done|]. by left.
Qed.

Lemma show_prints tm : all_forced tm -> (0 < depth)%nat ->
  forall fuel open c, is_Some (cells tm !! c) -> (unopened tm open < fuel)%nat -> prints (show fuel open c) tm.
Proof.
  intros Hall Hd. induction fuel as [|fuel IH]; intros open c [x Hx] Hlt; [lia|].
  destruct (Hall c x Hx) as (v & -> & Hm). unfold prints. cbn [show]. rewrite Hx.
  change (prints (print! v := plift (force depth c) in print! s := inner_debug (show fuel) open c v in pret (true, s)) tm).
  unfold prints, pbind at 1, plift. destruct depth as [|n]; [lia|]. cbn [force]. rewrite Hx.
  apply prints_bind; [|intros; apply prints_ret]. unfold inner_debug.
  destruct (bool_decide_reflect (c ∈ open)) as [|Ho]; [apply prints_ret|].
  apply prints_bind; [|intros; apply prints_ret]. apply prints_kind. intros d Hd'. apply IH; [by apply Hm|].
  pose proof (unopened_cons tm open c (ex_intro _ _ Hx) Ho). lia.
Qed.
End ClassText.

(** C37: Classes can always be shown: in a table whose classes have all been forced,
    whatever refers to whatever, printing a class ends, without a panic and
    without changing the table, with no more nested classes than the table has.
    A class that refers to itself through its fields or a pointer is cut where it
    would be printed a second time. *)
Theorem class_debug_ends (fp_display : FPType -> text) (depth fuel : nat) (tm : TypeMap) (c : Class)
    (Hall : all_forced tm) (Hc : is_Some (cells tm !! c)) (Hdepth : (0 < depth)%nat)
    (Hfuel : (base.size (cells tm) < fuel)%nat) :
  exists s, debug fp_display depth fuel c tm = Some (Ok (s, tm)).
Proof.
  apply prints_bind; [|intros; apply prints_ret]. apply show_prints; [done..|].
  unfold unopened. rewrite <- size_dom in Hfuel.
  replace (dom (cells tm) ∖ list_to_set []) with (dom (cells tm)) by set_solver. done.
Qed.

(** The linked list of [Classes.list_def], printed once so that it is forced, and
    printed again. *)
Definition list_classes : option (res (text * TypeMap)) :=
  let '(c, tm) := get (NamedStructType "list") (add_module list_def (typemap_new 64)) in
  debug (fun _ => String.EmptyString) 5 10 c tm.

Definition forced_all (tm : TypeMap) : bool :=
  forallb (fun p => match p.2 with
                    | Forced v => forallb (fun d => bool_decide (is_Some (cells tm !! d))) (mentioned (kind v))
                    | _ => false
                    end) (map_to_list (cells tm)).

Lemma forced_all_ok tm : forced_all tm = true -> all_forced tm.
Proof.
  intros H c x Hx. unfold forced_all in H. rewrite forallb_forall in H.
  specialize (H (c, x)). rewrite <- list_elem_of_In, elem_of_map_to_list in H. specialize (H Hx). simpl in H.
  destruct x as [|t|v]; [done..|]. exists v. split; [done|]. intros d Hd.
  rewrite forallb_forall in H. apply list_elem_of_In, H, bool_decide_eq_true in Hd. done.
Qed.

Definition list_shown : text :=
  "Class { id: 3, layout: b192/64, kind: StructClass { fields: [" +:+
  "Element { class: Class { id: 0, layout: b32/32, kind: i32 }, bit_offset: 0 }, " +:+
  "Element { class: Class { id: 1, layout: b64/64, kind: Pointer(Some(Ok(Class { id: 4, layout: b8/8, kind: i8 }))) }, bit_offset: 64 }, " +:+
  "Element { class: Class { id: 2, layout: b64/64, kind: Pointer(Some(Ok(Class { id: 3 }))) }, bit_offset: 128 }], " +:+
  "layout: b192/64 } }".

Lemma class_debug_ends_witness :
  exists tm, list_classes = Some (Ok (list_shown, tm)) /\
    exists s, debug (fun _ => String.EmptyString) 5 10 0 tm = Some (Ok (s, tm)).
Proof.
  assert (match list_classes with
          | Some (Ok (s, tm)) => forced_all tm && bool_decide (is_Some (cells tm !! 0)) && (base.size (cells tm) <? 10)%nat
          | _ => false
          end = true) as H by (vm_compute; reflexivity).
  assert (match list_classes with Some (Ok (s, tm)) => Some s | _ => None end = Some list_shown) as Hs
    by (vm_compute; reflexivity).
  destruct list_classes as [[[s tm]|]|] eqn:E; [|discriminate H..]. injection Hs as ->.
  apply andb_prop in H as [[Ha Hc]%andb_prop Hz]. exists tm. split; [reflexivity|].
  apply (class_debug_ends _ 5 10 tm 0);
    [exact (forced_all_ok tm Ha)|exact (bool_decide_eq_true_1 _ Hc)|lia|exact (proj1 (Nat.ltb_lt _ _) Hz)].
Defined.
