(* ===== verification/Operation.v ===== *)
(** * Operation: src/src/compile/operation.rs

    The instructions that compute: their compilation (operand classes to result
    class) and their meaning on values, scalar by scalar and lane by lane for
    vectors, with the class-indexed accessors of src/src/value.rs. Classes are
    used through the interface [ClassView]; [view] implements it on a class
    table. Floating point operations are [todo!()] in the source. *)

From S2P Require Import Prelude Layout Bitvec Value Classes.

(** ** Names of operations *)

Inductive CIntPredicate := EQ | NE | UGT | UGE | ULT | ULE | SGT | SGE | SLT | SLE.

Inductive CFPPredicate :=
  | FFalse | FOEQ | FOGT | FOGE | FOLT | FOLE | FONE | FORD
  | FUNO | FUEQ | FUGT | FUGE | FULT | FULE | FUNE | FTrue.

(** llvm_ir's predicates, and their conversions. *)
Inductive IntPredicate :=
  | IntEQ | IntNE | IntUGT | IntUGE | IntULT | IntULE | IntSGT | IntSGE | IntSLT | IntSLE.

Inductive FPPredicate :=
  | FPFalse | FPOEQ | FPOGT | FPOGE | FPOLT | FPOLE | FPONE | FPORD
  | FPUNO | FPUEQ | FPUGT | FPUGE | FPULT | FPULE | FPUNE | FPTrue.

(** [impl From<IntPredicate> for CIntPredicate] *)
Definition from_int_predicate (predicate : IntPredicate) : CIntPredicate :=
  match predicate with
  | IntEQ => EQ
  | IntNE => NE
  | IntUGT => UGT
  | IntUGE => UGE
  | IntULT => ULT
  | IntULE => ULE
  | IntSGT => SGT
  | IntSGE => SGE
  | IntSLT => SLT
  | IntSLE => SLE
  end.

(** [impl From<FPPredicate> for CFPPredicate] *)
Definition from_fp_predicate (predicate : FPPredicate) : CFPPredicate :=
  match predicate with
  | FPFalse => FFalse
  | FPOEQ => FOEQ
  | FPOGT => FOGT
  | FPOGE => FOGE
  | FPOLT => FOLT
  | FPOLE => FOLE
  | FPONE => FONE
  | FPORD => FORD
  | FPUNO => FUNO
  | FPUEQ => FUEQ
  | FPUGT => FUGT
  | FPUGE => FUGE
  | FPULT => FULT
  | FPULE => FULE
  | FPUNE => FUNE
  | FPTrue => FTrue
  end.

Inductive COperationName :=
  | Xchg | Add | Sub | Mul | UDiv | SDiv | URem | SRem | And | Or | Xor | Shl | LShr | AShr
  | FAdd | FSub | FMul | FDiv | FRem | FNeg
  | ICmp (p : CIntPredicate)
  | FCmp (p : CFPPredicate)
  | GetElementPtr
  | ExtractElement
  | ExtractValue (indices : list Z)
  | InsertElement
  | InsertValue (indices : list Z)
  | Shuffle (indices : list Z)
  | Trunc (c : Class) | ZExt (c : Class) | SExt (c : Class)
  | FPTrunc (c : Class) | FPExt (c : Class) | FPToUI (c : Class) | FPToSI (c : Class)
  | UIToFP (c : Class) | SIToFP (c : Class)
  | BitCast (c : Class)
  | Select
  | Aggregate (c : Class).

(** [struct COperation] *)
Record COperation := MkOp { name : COperationName; input : list Class; output : Class }.

(** ** What the operations ask of classes *)

(** [Class::kind], [Class::layout] and [Class::element]. *)
Class ClassView := {
  cv_kind : Class -> res ClassKind;
  cv_layout : Class -> res Layout;
  cv_element : Class -> Z -> res Element
}.

(** The classes of a table. *)
Definition view (fuel : nat) (tm : TypeMap) : ClassView := {|
  cv_kind c := let! (k, _) := class_kind fuel c tm in Ok k;
  cv_layout c := let! (l, _) := class_layout fuel c tm in Ok l;
  cv_element c i := let! (e, _) := element fuel c i tm in Ok e
|}.

(** ** Compilation *)

(** [all_equal] *)
Definition all_equal (cs : list Class) : bool :=
  match cs with [] => true | c :: cs => forallb (fun d => d =? c) cs end.

(** The class a new type gets in the table: [type_map().vector(..)], [.bool()]. *)
Definition vector_class (fuel : nat) (e : Class) (len : Z) (tm : TypeMap) : res (Class * TypeMap) :=
  let! (i, tm) := force fuel e tm in Ok (get (VectorType (typ i) len) tm).
Definition bool_class (tm : TypeMap) : Class * TypeMap := get (IntegerType 1) tm.

(** [OperCompiler::compile_operation] *)
Definition compile_operation (fuel : nat) (name : COperationName) (operands : list Class)
    (tm : TypeMap) : res (COperation * TypeMap) :=
  let! (output, tm) :=
    match name with
    | Xchg | Add | Sub | Mul | UDiv | SDiv | URem | SRem | And | Or | Xor | Shl | LShr | AShr
    | FAdd | FSub | FMul | FDiv | FRem | FNeg =>
        assert! all_equal operands or AssertFailed in
        let! c := index operands 0 in Ok (c, tm)
    | ZExt target | SExt target | Trunc target | FPTrunc target | FPExt target
    | FPToUI target | FPToSI target | UIToFP target | SIToFP target =>
        let! c := index operands 0 in
        let! (k, tm) := class_kind fuel c tm in
        match k with
        | VectorClass _ len => vector_class fuel target len tm
        | _ => Ok (target, tm)
        end
    | ICmp _ | FCmp _ =>
        let! c := index operands 0 in
        let! (k, tm) := class_kind fuel c tm in
        match k with
        | VectorClass _ len => let '(b, tm) := bool_class tm in vector_class fuel b len tm
        | _ => Ok (bool_class tm)
        end
    | BitCast to_ => Ok (to_, tm)
    | GetElementPtr => Panic Todo
    | ExtractElement =>
        let! c := index operands 0 in
        let! (e, tm) := element fuel c (-1) tm in Ok (e_class e, tm)
    | ExtractValue indices =>
        let! c := index operands 0 in
        let! (e, tm) := element_rec fuel c indices tm in Ok (e_class e, tm)
    | InsertElement | InsertValue _ => let! c := index operands 0 in Ok (c, tm)
    | Shuffle indices =>
        let! c := index operands 0 in
        let! (k, tm) := class_kind fuel c tm in
        match k with
        | VectorClass e _ => vector_class fuel e (zlen indices) tm
        | _ => Panic UnwrapFailed
        end
    | Select =>
        let! c1 := index operands 1 in
        let! c2 := index operands 2 in
        assert! c1 =? c2 or AssertFailed in
        Ok (c1, tm)
    | Aggregate output => Ok (output, tm)
    end in
  Ok (MkOp name operands output, tm).

(** ** Machine arithmetic of the closures *)

(** [wrapping_div], [wrapping_rem] on uN and iN, [<<] on uN and [>>] on iN. *)
Definition div_u (x y : Z) : res Z := if y =? 0 then Panic DivByZero else Ok (x / y).
Definition rem_u (x y : Z) : res Z := if y =? 0 then Panic DivByZero else Ok (x mod y).
Definition div_s (w x y : Z) : res Z :=
  if y =? 0 then Panic DivByZero else Ok (to_signed w (Z.quot x y)).
Definition rem_s (x y : Z) : res Z := if y =? 0 then Panic DivByZero else Ok (Z.rem x y).
Definition shl_u (w x y : Z) : res Z := if y <? w then Ok (wrap w (Z.shiftl x y)) else Panic Overflow.
Definition shr_s (w x y : Z) : res Z :=
  if (0 <=? y) && (y <? w) then Ok (Z.shiftr x y) else Panic Overflow.

Section Scalar.
Context {BV : Bitvec}.

(** The closures on 8 to 128 bits are [f w]; [f1] is the one on booleans. *)
Definition call_scalar_binop_unsigned (v1 v2 : Value) (f1 : bool -> bool -> res Value)
    (f : Z -> Z -> Z -> res Value) : res Value :=
  let at_width w := let! x := unwrap_u w v1 in let! y := unwrap_u w v2 in f w x y in
  match Value.bits v1, Value.bits v2 with
  | 1, 1 => let! x := unwrap_bool v1 in let! y := unwrap_bool v2 in f1 x y
  | 8, 8 => at_width 8
  | 16, 16 => at_width 16
  | 32, 32 => at_width 32
  | 64, 64 => at_width 64
  | 128, 128 => at_width 128
  | _, _ => Panic Todo
  end.

Definition call_scalar_binop_signed (v1 v2 : Value) (f : Z -> Z -> Z -> res Value) : res Value :=
  let at_width w := let! x := unwrap_i w v1 in let! y := unwrap_i w v2 in f w x y in
  match Value.bits v1, Value.bits v2 with
  | 8, 8 => at_width 8
  | 16, 16 => at_width 16
  | 32, 32 => at_width 32
  | 64, 64 => at_width 64
  | 128, 128 => at_width 128
  | _, _ => Panic Todo
  end.

Definition call_scalar_lshr (v1 v2 : Value) : res Value :=
  let width := Value.bits v1 in
  let shift := as_u64 v2 in
  let! output := Value.zero width in
  let! n := sub64 width shift in
  copy_bits output 0 n v1 shift width.

Definition todo_bool (_ _ : bool) : res Value := Panic Todo.
(** A closure with an integer result, one that may panic, one with a boolean result. *)
Definition int_fn (g : Z -> Z -> Z -> Z) (w x y : Z) : res Value := from_int w (g w x y).
Definition int_fn_res (g : Z -> Z -> Z -> res Z) (w x y : Z) : res Value :=
  let! r := g w x y in from_int w r.
Definition cmp_fn (g : Z -> Z -> bool) (_ x y : Z) : res Value := from_bool (g x y).

Definition call_scalar_binop (op : COperationName) (v1 v2 : Value) : res Value :=
  match op with
  | Xchg => Ok v2
  | Add => call_scalar_binop_unsigned v1 v2 todo_bool (int_fn (fun w x y => wrap w (x + y)))
  | Sub => call_scalar_binop_unsigned v1 v2 todo_bool (int_fn (fun w x y => wrap w (x - y)))
  | Mul => call_scalar_binop_unsigned v1 v2 todo_bool (int_fn (fun w x y => wrap w (x * y)))
  | UDiv => call_scalar_binop_unsigned v1 v2 todo_bool (int_fn_res (fun _ => div_u))
  | SDiv => call_scalar_binop_signed v1 v2 (int_fn_res div_s)
  | URem => call_scalar_binop_unsigned v1 v2 todo_bool (int_fn_res (fun _ => rem_u))
  | SRem => call_scalar_binop_signed v1 v2 (int_fn_res (fun _ => rem_s))
  | Xor => call_scalar_binop_unsigned v1 v2 (fun x y => from_bool (xorb x y)) (int_fn (fun _ => Z.lxor))
  | And => call_scalar_binop_unsigned v1 v2 (fun x y => from_bool (x && y)) (int_fn (fun _ => Z.land))
  | Or => call_scalar_binop_unsigned v1 v2 (fun x y => from_bool (x || y)) (int_fn (fun _ => Z.lor))
  | Shl => call_scalar_binop_unsigned v1 v2 todo_bool (int_fn_res shl_u)
  | LShr => call_scalar_lshr v1 v2
  | AShr => call_scalar_binop_signed v1 v2 (int_fn_res shr_s)
  | FAdd | FSub | FMul | FDiv | FRem | FNeg => Panic Todo
  | ICmp p =>
      match p with
      | EQ => call_scalar_binop_unsigned v1 v2 todo_bool (cmp_fn Z.eqb)
      | NE => call_scalar_binop_unsigned v1 v2 todo_bool (cmp_fn (fun x y => negb (x =? y)))
      | UGT => call_scalar_binop_unsigned v1 v2 todo_bool (cmp_fn Z.gtb)
      | UGE => call_scalar_binop_unsigned v1 v2 todo_bool (cmp_fn Z.geb)
      | ULT => call_scalar_binop_unsigned v1 v2 todo_bool (cmp_fn Z.ltb)
      | ULE => call_scalar_binop_unsigned v1 v2 todo_bool (cmp_fn Z.leb)
      | SGT => call_scalar_binop_signed v1 v2 (cmp_fn Z.gtb)
      | SGE => call_scalar_binop_signed v1 v2 (cmp_fn Z.geb)
      | SLT => call_scalar_binop_signed v1 v2 (cmp_fn Z.ltb)
      | SLE => call_scalar_binop_signed v1 v2 (cmp_fn Z.leb)
      end
  | _ => Panic UnreachableCode
  end.

Definition call_scalar_sext (v1 : Value) (bits : Z) : res Value :=
  if Value.bits v1 =? bits then Ok v1
  else
    let from w := let! x := unwrap_i w v1 in from_int bits x in
    match Value.bits v1, bits with
    | 8, 16 | 8, 32 | 8, 64 => from 8
    | 16, 32 | 16, 64 => from 16
    | 32, 64 => from 32
    | _, _ => Panic Todo
    end.

Context {CV : ClassView}.

Definition call_scalar (this : COperation) (inputs : list Value) : res Value :=
  match name this with
  | Xchg | Add | Sub | Mul | UDiv | SDiv | URem | SRem | And | Or | Xor | Shl | LShr | AShr
  | FAdd | FSub | FMul | FDiv | FRem | FNeg | ICmp _ =>
      let! v1 := index inputs 0 in
      let! v2 := index inputs 1 in
      call_scalar_binop (name this) v1 v2
  | SExt output =>
      let! v := index inputs 0 in
      let! l := cv_layout output in call_scalar_sext v (Layout.bits l)
  | ZExt output | Trunc output =>
      let! v := index inputs 0 in
      let! l := cv_layout output in ucast v l
  | FPTrunc _ | FPExt _ | FPToUI _ | FPToSI _ | UIToFP _ | SIToFP _ => Panic Todo
  | _ => Panic UnreachableCode
  end.

(** ** The accessors of src/src/value.rs that take a class *)

(** [Value::extract] *)
Definition extract (self : Value) (c : Class) (i : Z) : res Value :=
  let! e := cv_element c i in
  let! l := cv_layout (e_class e) in
  extract_bits self (bit_offset e) (Layout.bits l).

(** [Value::insert] *)
Definition insert (self : Value) (c : Class) (i : Z) (value : Value) : res Value :=
  let! e := cv_element c i in
  let! l := cv_layout (e_class e) in
  assert! Layout.bits l =? Value.bits value or AssertFailed in
  insert_bits self (bit_offset e) value.

(** A list with its positions: [enumerate]. *)
Definition enumerate {A} (l : list A) : list (Z * A) := zip (Z.of_nat <$> seq 0 (length l)) l.

(** [Value::aggregate] *)
Definition aggregate (c : Class) (vs : list Value) : res Value :=
  let! l := cv_layout c in
  let! result := Value.zero (Layout.bits l) in
  foldM (fun result iv =>
    let! e := cv_element c iv.1 in insert_bits result (bit_offset e) iv.2) result (enumerate vs).

(** [Class::element_rec] through the interface. *)
Fixpoint element_at (c : Class) (off : Z) (indices : list Z) : res Element :=
  match indices with
  | [] => Ok (MkElement c off)
  | i :: is_ =>
      let! e := cv_element c i in
      let! off := chk_s 64 (off + bit_offset e) in
      element_at (e_class e) off is_
  end.

(** ** [COperation::call_operation] *)

(** One lane of a vector operation. *)
Definition call_lane (this : COperation) (inputs : list Value) (vector : Value) (i : Z) : res Value :=
  let! lane := mapM (fun cs => extract cs.2 cs.1 i) (zip (input this) inputs) in
  let! scalar := call_scalar this lane in
  insert vector (output this) i scalar.

Definition call_simple (this : COperation) (inputs : list Value) : res Value :=
  let! k := cv_kind (output this) in
  match k with
  | IntegerClass _ | PointerClass _ | FPClass _ => call_scalar this inputs
  | VectorClass _ len =>
      let! l := cv_layout (output this) in
      let! vector := Value.zero (Layout.bits l) in
      foldM (call_lane this inputs) vector (Z.of_nat <$> seq 0 (Z.to_nat (to_signed 64 len)))
  | _ => Panic Todo
  end.

Definition call_shuffle (this : COperation) (indices : list Z) (inputs : list Value) : res Value :=
  let! c0 := index (input this) 0 in
  let! c1 := index (input this) 1 in
  let! k0 := cv_kind c0 in
  let! k1 := cv_kind c1 in
  match k0, k1 with
  | VectorClass _ len, VectorClass _ _ =>
      let! l := cv_layout (output this) in
      let! result := Value.zero (Layout.bits l) in
      foldM (fun result wr =>
        let '(wi, ri) := wr in
        let! v0 := index inputs 0 in
        let! e := if ri <? to_signed 64 len then extract v0 c0 ri
                  else let! ri' := chk_s 64 (ri - to_signed 64 len) in extract v0 c0 ri' in
        insert result (output this) wi e) result (enumerate indices)
  | _, _ => Panic UnwrapFailed
  end.

Definition call_operation (this : COperation) (inputs : list Value) : res Value :=
  match name this with
  | Xchg | Add | Sub | Mul | UDiv | SDiv | URem | SRem | And | Or | Xor | Shl | LShr | AShr
  | FAdd | FSub | FMul | FDiv | FRem | FNeg | ICmp _ | FCmp _
  | SExt _ | ZExt _ | Trunc _ | FPTrunc _ | FPExt _ | FPToUI _ | FPToSI _ | UIToFP _ | SIToFP _ =>
      call_simple this inputs
  | BitCast x =>
      let! v := index inputs 0 in
      let! l := cv_layout x in ucast v l
  | GetElementPtr =>
      let! c := index (input this) 0 in
      let! v := index inputs 0 in
      let! is_ := mapM as_i64 (tail inputs) in
      let! e := element_at c 0 is_ in
      assert! Z.rem (bit_offset e) 8 =? 0 or AssertFailed in
      let! l := cv_layout (output this) in
      let! a := add_u64_i64 (as_u64 v) (Z.quot (bit_offset e) 8) in
      Value.new (Layout.bits l) a
  | ExtractElement =>
      let! c := index (input this) 0 in
      let! v := index inputs 0 in
      let! i := index inputs 1 in
      let! i := as_i64 i in
      let! e := cv_element c i in
      let! l := cv_layout (e_class e) in
      extract_bits v (bit_offset e) (Layout.bits l)
  | ExtractValue indices =>
      let! c := index (input this) 0 in
      let! v := index inputs 0 in
      let! e := element_at c 0 indices in
      let! l := cv_layout (e_class e) in
      extract_bits v (bit_offset e) (Layout.bits l)
  | InsertElement =>
      let! c := index (input this) 0 in
      let! i := index inputs 2 in
      let! i := as_i64 i in
      let! e := cv_element c i in
      let! v := index inputs 0 in
      let! x := index inputs 1 in
      insert_bits v (bit_offset e) x
  | InsertValue indices =>
      let! c := index (input this) 0 in
      let! e := element_at c 0 indices in
      let! v := index inputs 0 in
      let! x := index inputs 1 in
      insert_bits v (bit_offset e) x
  | Shuffle indices => call_shuffle this indices inputs
  | Select =>
      let! b := index inputs 0 in
      let! b := unwrap_bool b in
      if b then index inputs 1 else index inputs 2
  | Aggregate c => aggregate c inputs
  end.
End Scalar.

(** ** The meaning of the integer operations *)

(** LLVM's meaning of an operation on two [w]-bit integers, given unsigned; [None]
    where the Language Reference makes the behaviour undefined or the result
    poison: division by 0, the overflowing INT_MIN / -1 and its remainder, and a
    shift by the width or more. [Xchg] gives the value that atomicrmw stores. *)
Definition llvm_binop (op : COperationName) (w x y : Z) : option Z :=
  let sx := to_signed w x in
  let sy := to_signed w y in
  let overflows := (sx =? - 2 ^ (w - 1)) && (sy =? -1) in
  match op with
  | Xchg => Some y
  | Add => Some ((x + y) mod 2 ^ w)
  | Sub => Some ((x - y) mod 2 ^ w)
  | Mul => Some ((x * y) mod 2 ^ w)
  | UDiv => if y =? 0 then None else Some (x / y)
  | URem => if y =? 0 then None else Some (x mod y)
  | SDiv => if (y =? 0) || overflows then None else Some (Z.quot sx sy mod 2 ^ w)
  | SRem => if (y =? 0) || overflows then None else Some (Z.rem sx sy mod 2 ^ w)
  | And => Some (Z.land x y)
  | Or => Some (Z.lor x y)
  | Xor => Some (Z.lxor x y)
  | Shl => if y <? w then Some ((x * 2 ^ y) mod 2 ^ w) else None
  | LShr => if y <? w then Some (x / 2 ^ y) else None
  | AShr => if y <? w then Some ((sx / 2 ^ y) mod 2 ^ w) else None
  | ICmp EQ => Some (Z.b2z (x =? y))
  | ICmp NE => Some (Z.b2z (negb (x =? y)))
  | ICmp UGT => Some (Z.b2z (y <? x))
  | ICmp UGE => Some (Z.b2z (y <=? x))
  | ICmp ULT => Some (Z.b2z (x <? y))
  | ICmp ULE => Some (Z.b2z (x <=? y))
  | ICmp SGT => Some (Z.b2z (sy <? sx))
  | ICmp SGE => Some (Z.b2z (sy <=? sx))
  | ICmp SLT => Some (Z.b2z (sx <? sy))
  | ICmp SLE => Some (Z.b2z (sx <=? sy))
  | _ => None
  end.

(** What the simulator returns all the same where LLVM defines nothing: INT_MIN
    for INT_MIN / -1, 0 for the remainder, and a logical shift by an amount that
    is at most the width once it is cut to 64 bits. *)
Definition beyond_llvm (op : COperationName) (w x y : Z) : option Z :=
  match op with
  | SDiv => if y =? 0 then None else Some (2 ^ (w - 1))
  | SRem => if y =? 0 then None else Some 0
  | LShr => if wrap 64 y <=? w then Some (x / 2 ^ wrap 64 y) else None
  | _ => None
  end.

(** The widths, of 1 to 128 bits, at which the simulator has an operation: the
    integer widths of Rust; logic on booleans; [Xchg] and [LShr] at any. *)
Definition supported (op : COperationName) (w : Z) : bool :=
  match op with
  | Xchg | LShr => true
  | And | Or | Xor => int_width w || (w =? 1)
  | Add | Sub | Mul | UDiv | SDiv | URem | SRem | Shl | AShr | ICmp _ => int_width w
  | _ => false
  end.

(** Both together, at the widths of Rust. *)
Definition binop_code (op : COperationName) (w x y : Z) : option Z :=
  let sx := to_signed w x in
  let sy := to_signed w y in
  match op with
  | Xchg => Some y
  | Add => Some ((x + y) mod 2 ^ w)
  | Sub => Some ((x - y) mod 2 ^ w)
  | Mul => Some ((x * y) mod 2 ^ w)
  | UDiv => if y =? 0 then None else Some (x / y)
  | URem => if y =? 0 then None else Some (x mod y)
  | SDiv => if sy =? 0 then None else Some (Z.quot sx sy mod 2 ^ w)
  | SRem => if sy =? 0 then None else Some (Z.rem sx sy mod 2 ^ w)
  | And => Some (Z.land x y)
  | Or => Some (Z.lor x y)
  | Xor => Some (Z.lxor x y)
  | Shl => if y <? w then Some ((x * 2 ^ y) mod 2 ^ w) else None
  | LShr => if wrap 64 y <=? w then Some (x / 2 ^ wrap 64 y) else None
  | AShr => if (0 <=? sy) && (sy <? w) then Some ((sx / 2 ^ sy) mod 2 ^ w) else None
  | ICmp EQ => Some (Z.b2z (x =? y))
  | ICmp NE => Some (Z.b2z (negb (x =? y)))
  | ICmp UGT => Some (Z.b2z (y <? x))
  | ICmp UGE => Some (Z.b2z (y <=? x))
  | ICmp ULT => Some (Z.b2z (x <? y))
  | ICmp ULE => Some (Z.b2z (x <=? y))
  | ICmp SGT => Some (Z.b2z (sy <? sx))
  | ICmp SGE => Some (Z.b2z (sy <=? sx))
  | ICmp SLT => Some (Z.b2z (sx <? sy))
  | ICmp SLE => Some (Z.b2z (sx <=? sy))
  | _ => None
  end.

Definition result_width (op : COperationName) (w : Z) : Z :=
  match op with ICmp _ => 1 | _ => w end.

Lemma int_width_bounds w : int_width w -> 8 <= w <= 128.
Proof. intros H%bool_decide_unpack. set_unfold in H. lia. Qed.

Section BinopLemmas.
Context `{BVL : BitvecLaws}.

(** A result of [w] bits with the integer [z]. *)
Definition int_result (r : res Value) (w z : Z) : Prop :=
  exists v, r = Ok v /\ canonical v /\ Value.bits v = w /\ as_u128 v = z.

Lemma from_int_result w x z : 0 <= w <= 128 -> wrap w x = z -> int_result (from_int w x) w z.
Proof. intros Hw <-. by apply from_int_spec. Qed.

Lemma from_bool_result b : int_result (from_bool b) 1 (Z.b2z b).
Proof.
  unfold from_bool. destruct (new_int 1 (Z.b2z b)) as (v & Hv & Hc & Hb & Hi);
    [lia|destruct b; simpl; lia|].
  exists v. split_and!; [done..|]. rewrite Hi. by destruct b.
Qed.

Lemma unsigned_eq w v1 v2 f1 f :
  int_width w -> canonical v1 -> canonical v2 -> Value.bits v1 = w -> Value.bits v2 = w ->
  call_scalar_binop_unsigned v1 v2 f1 f = f w (as_u128 v1) (as_u128 v2).
Proof.
  intros Hw H1 H2 Hb1 Hb2. pose proof (int_width_bounds w Hw).
  pose proof (as_u128_canonical v1 H1 ltac:(lia)) as B1.
  pose proof (as_u128_canonical v2 H2 ltac:(lia)) as B2. rewrite Hb1 in B1. rewrite Hb2 in B2.
  assert (forall v, Value.bits v = w -> 0 <= as_u128 v < 2 ^ w -> unwrap_u w v = Ok (as_u128 v)) as Hu.
  { intros v Hb Hv. unfold unwrap_u, unwrap_int. rewrite Hb, Z.eqb_refl. simpl. by rewrite wrap_small. }
  unfold call_scalar_binop_unsigned. rewrite Hb1, Hb2.
  apply bool_decide_unpack in Hw. set_unfold in Hw.
  destruct Hw as [->|[->|[->|[->|[->|[]]]]]]; by rewrite !Hu.
Qed.

Lemma signed_eq w v1 v2 f :
  int_width w -> Value.bits v1 = w -> Value.bits v2 = w ->
  call_scalar_binop_signed v1 v2 f = f w (to_signed w (as_u128 v1)) (to_signed w (as_u128 v2)).
Proof.
  intros Hw Hb1 Hb2.
  assert (forall v, Value.bits v = w -> unwrap_i w v = Ok (to_signed w (as_u128 v))) as Hu.
  { intros v Hb. unfold unwrap_i, unwrap_int. by rewrite Hb, Z.eqb_refl. }
  unfold call_scalar_binop_signed. rewrite Hb1, Hb2.
  apply bool_decide_unpack in Hw. set_unfold in Hw.
  destruct Hw as [->|[->|[->|[->|[->|[]]]]]]; by rewrite !Hu.
Qed.

Lemma lshr_result w v1 v2 :
  0 < w <= 128 -> canonical v1 -> Value.bits v1 = w ->
  match (if wrap 64 (as_u128 v2) <=? w then Some (as_u128 v1 / 2 ^ wrap 64 (as_u128 v2)) else None) with
  | Some z => int_result (call_scalar_lshr v1 v2) w z
  | None => call_scalar_lshr v1 v2 = Panic Overflow
  end.
Proof.
  intros Hw H1 Hb1. unfold call_scalar_lshr, as_u64.
  set (s := wrap 64 (as_u128 v2)). pose proof (wrap_bounds 64 (as_u128 v2) ltac:(lia)) as Hs. fold s in Hs.
  rewrite Hb1. destruct (zero_spec w) as (z & -> & Hz & Hzb & Hzbit); [lia|lia|]. cbn [bind].
  destruct (Z.leb_spec s w) as [Hle|Hgt].
  - rewrite sub64_ok by lia. cbn [bind].
    destruct (copy_bits_spec z 0 (w - s) v1 s w) as (r & -> & Hr & Hrb & Hrl & Hbit);
      [auto with sim|auto with sim|lia..|].
    assert (forall i, 0 <= i -> vbit r i = if i <? w - s then vbit v1 (s + i) else false) as Hvb.
    { intros i Hi. rewrite Hbit by done. destruct (Z.leb_spec 0 i); [|lia]. simpl.
      destruct (i <? w - s); [f_equal; lia|apply Hzbit]. }
    exists r. split_and!; [done| |lia|].
    + split; [done|]. intros i Hi. pose proof Hr as (? & _). rewrite Hvb by lia.
      destruct (Z.ltb_spec i (w - s)); [lia|done].
    + pose proof (as_u128_canonical v1 H1 ltac:(lia)) as B1. rewrite Hb1 in B1.
      assert (2 ^ w <= 2 ^ 128) by (apply Z.pow_le_mono_r; lia).
      rewrite <- Z.shiftr_div_pow2 by lia.
      apply as_u128_eq; [done| |].
      * rewrite Z.shiftr_div_pow2 by lia. split; [apply Z.div_pos; lia|].
        apply Z.div_lt_upper_bound; [lia|]. nia.
      * intros i Hi. rewrite Hvb by lia. rewrite Z.shiftr_spec by lia.
        rewrite as_u128_testbit by (auto with sim || lia). rewrite (Z.add_comm i s).
        destruct (Z.ltb_spec i (w - s)).
        -- by destruct (Z.ltb_spec (s + i) 128); [|lia].
        -- destruct (s + i <? 128); [|done]. symmetry. apply canonical_vbit; [done|lia].
  - unfold sub64, chk_u, in_u. destruct (Z.leb_spec 0 (w - s)); [lia|done].
Qed.

Lemma bitwise_bounds w x y :
  0 <= w -> 0 <= x < 2 ^ w -> 0 <= y < 2 ^ w ->
  wrap w (Z.land x y) = Z.land x y /\ wrap w (Z.lor x y) = Z.lor x y /\ wrap w (Z.lxor x y) = Z.lxor x y.
Proof.
  intros Hw Hx Hy. unfold wrap. rewrite <- !Z.land_ones by done.
  assert (forall z, 0 <= z < 2 ^ w -> Z.land z (Z.ones w) = z) as Hz.
  { intros z Hz. rewrite Z.land_ones by done. by apply Z.mod_small. }
  pose proof (Hz x Hx) as Ex. pose proof (Hz y Hy) as Ey. split_and!.
  - by rewrite <- Z.land_assoc, Ey.
  - by rewrite Z.land_lor_distr_l, Ex, Ey.
  - rewrite <- Z.bits_inj_iff. intros i. rewrite Z.land_spec, !Z.lxor_spec.
    rewrite <- Ex, <- Ey, !Z.land_spec.
    by destruct (Z.testbit x i), (Z.testbit y i), (Z.testbit (Z.ones w) i).
Qed.
End BinopLemmas.

Lemma scalar_binop_at `{BVL : BitvecLaws} (op : COperationName) (w : Z) (v1 v2 : Value)
    (Hw : int_width w) (H1 : canonical v1) (H2 : canonical v2)
    (Hb1 : Value.bits v1 = w) (Hb2 : Value.bits v2 = w) :
  match binop_code op w (as_u128 v1) (as_u128 v2) with
  | Some z => exists r, call_scalar_binop op v1 v2 = Ok r /\ canonical r /\
      Value.bits r = result_width op w /\ as_u128 r = z
  | None => is_ok (call_scalar_binop op v1 v2) = false
  end.
Proof.
  pose proof (int_width_bounds w Hw) as Hwb.
  pose proof (as_u128_canonical v1 H1 ltac:(lia)) as B1.
  pose proof (as_u128_canonical v2 H2 ltac:(lia)) as B2. rewrite Hb1 in B1. rewrite Hb2 in B2.
  pose proof (lshr_result w v1 v2 ltac:(lia) H1 Hb1) as HL.
  pose proof (fun f1 f => unsigned_eq w v1 v2 f1 f Hw H1 H2 Hb1 Hb2) as HU.
  pose proof (fun f => signed_eq w v1 v2 f Hw Hb1 Hb2) as HS.
  pose proof (bitwise_bounds w _ _ ltac:(lia) B1 B2) as (Hand & Hor & Hxor).
  set (x := as_u128 v1) in *. set (y := as_u128 v2) in *.
  assert (forall z, int_result (from_int w (wrap w z)) w (z mod 2 ^ w)) as Hwrap.
  { intros z. apply from_int_result; [lia|]. rewrite wrap_wrap by lia. done. }
  destruct op;
    cbn [binop_code call_scalar_binop result_width]; rewrite ?HU, ?HS; unfold int_fn, int_fn_res, cmp_fn;
    try done.
  - by exists v2.
  - apply Hwrap.
  - apply Hwrap.
  - apply Hwrap.
  - unfold div_u. destruct (Z.eqb_spec y 0); [done|]. apply from_int_result; [lia|].
    apply wrap_small. pose proof (Z.div_pos x y ltac:(lia) ltac:(lia)).
    pose proof (Z.div_le_upper_bound x y x ltac:(lia) ltac:(nia)). lia.
  - unfold div_s. destruct (Z.eqb_spec (to_signed w y) 0); [done|]. cbn [bind].
    apply from_int_result; [lia|]. by rewrite to_signed_wrap by lia.
  - unfold rem_u. destruct (Z.eqb_spec y 0); [done|]. apply from_int_result; [lia|].
    apply wrap_small. pose proof (Z.mod_pos_bound x y ltac:(lia)). lia.
  - unfold rem_s. destruct (Z.eqb_spec (to_signed w y) 0); [done|]. cbn [bind].
    by apply from_int_result; [lia|].
  - apply from_int_result; [lia|done].
  - apply from_int_result; [lia|done].
  - apply from_int_result; [lia|done].
  - unfold shl_u. destruct (Z.ltb_spec y w); [|done]. cbn [bind].
    rewrite Z.shiftl_mul_pow2 by lia. apply Hwrap.
  - destruct (wrap 64 y <=? w); [exact HL|by rewrite HL].
  - unfold shr_s. destruct (_ && _) eqn:E; [|done]. cbn [bind]. zb.
    rewrite Z.shiftr_div_pow2 by done. by apply from_int_result; [lia|].
  - destruct p; cbn [result_width]; rewrite ?HU, ?HS, ?Z.gtb_ltb, ?Z.geb_leb; apply from_bool_result.
Qed.

(** [binop_code] is LLVM's meaning where it has one. *)
Lemma binop_code_llvm op w x y :
  1 <= w <= 128 -> 0 <= x < 2 ^ w -> 0 <= y < 2 ^ w ->
  binop_code op w x y = match llvm_binop op w x y with Some z => Some z | None => beyond_llvm op w x y end.
Proof.
  intros Hw Hx Hy. assert (2 ^ w = 2 * 2 ^ (w - 1)) as H2 by (rewrite <- Z.pow_succ_r by lia; f_equal; lia).
  assert (w <= 2 ^ (w - 1)) as Hlt by (pose proof (Z.pow_gt_lin_r 2 (w - 1)); lia).
  assert (to_signed w y = if y <? 2 ^ (w - 1) then y else y - 2 ^ w) as Hsy by (unfold to_signed; by rewrite wrap_small).
  assert ((to_signed w y =? 0) = (y =? 0)) as Hzero.
  { rewrite Hsy. destruct (Z.ltb_spec y (2 ^ (w - 1))), (Z.eqb_spec y 0); lia. }
  assert ((to_signed w x =? - 2 ^ (w - 1)) && (to_signed w y =? -1) = true ->
    Z.quot (to_signed w x) (to_signed w y) mod 2 ^ w = 2 ^ (w - 1) /\ Z.rem (to_signed w x) (to_signed w y) mod 2 ^ w = 0) as Hov.
  { intros [->%Z.eqb_eq ->%Z.eqb_eq]%andb_true_iff. change (-1) with (- (1)).
    rewrite Z.quot_opp_opp, Z.rem_opp_opp, Z.quot_1_r, Z.rem_1_r by lia. split; [|done]. apply Z.mod_small. lia. }
  unfold binop_code, llvm_binop, beyond_llvm. rewrite Hzero. destruct op; try done.
  - by destruct (y =? 0).
  - destruct (y =? 0); [done|]. cbn [orb]. destruct (_ && _) eqn:E; [|done]. by rewrite (proj1 (Hov eq_refl)).
  - by destruct (y =? 0).
  - destruct (y =? 0); [done|]. cbn [orb]. destruct (_ && _) eqn:E; [|done]. by rewrite (proj2 (Hov eq_refl)).
  - by destruct (y <? w).
  - destruct (Z.ltb_spec y w); [|done]. rewrite wrap_small by lia. by rewrite (proj2 (Z.leb_le y w)) by lia.
  - rewrite Hsy. destruct (Z.ltb_spec y (2 ^ (w - 1))), (Z.ltb_spec y w), (Z.leb_spec 0 y); cbn [andb]; try lia; try done.
    all: destruct (Z.leb_spec 0 (y - 2 ^ w)); [lia|done].
  - by destruct p.
Qed.

(** At other widths only a few operations are there. *)
Lemma unsigned_todo v1 v2 w f1 f :
  Value.bits v1 = w -> Value.bits v2 = w -> int_width w = false -> w <> 1 -> call_scalar_binop_unsigned v1 v2 f1 f = Panic Todo.
Proof.
  intros H1 H2 Hw Hne. unfold call_scalar_binop_unsigned. rewrite H1, H2. unfold int_width in Hw.
  apply bool_decide_eq_false in Hw. rewrite !not_elem_of_cons in Hw. repeat case_match; done || lia.
Qed.

Lemma signed_todo v1 v2 w f :
  Value.bits v1 = w -> Value.bits v2 = w -> int_width w = false -> call_scalar_binop_signed v1 v2 f = Panic Todo.
Proof.
  intros H1 H2 Hw. unfold call_scalar_binop_signed. rewrite H1, H2. unfold int_width in Hw.
  apply bool_decide_eq_false in Hw. rewrite !not_elem_of_cons in Hw. repeat case_match; done || lia.
Qed.

Lemma unsigned_bool `{BVL : BitvecLaws} v1 v2 f1 f :
  canonical v1 -> canonical v2 -> Value.bits v1 = 1 -> Value.bits v2 = 1 ->
  exists b1 b2, as_u128 v1 = Z.b2z b1 /\ as_u128 v2 = Z.b2z b2 /\ call_scalar_binop_unsigned v1 v2 f1 f = f1 b1 b2.
Proof.
  intros H1 H2 Hb1 Hb2.
  assert (forall v, canonical v -> Value.bits v = 1 -> exists b, as_u128 v = Z.b2z b /\ unwrap_bool v = Ok b) as Hu.
  { intros v Hv Hb. pose proof (as_u128_canonical v Hv ltac:(lia)) as Hr. rewrite Hb in Hr.
    exists (negb (as_u128 v =? 0)). unfold unwrap_bool, unwrap_int. rewrite Hb. cbn. split; [|done].
    destruct (Z.eqb_spec (as_u128 v) 0); simpl; lia. }
  destruct (Hu v1 H1 Hb1) as (b1 & E1 & U1), (Hu v2 H2 Hb2) as (b2 & E2 & U2).
  exists b1, b2. split_and!; [done..|]. unfold call_scalar_binop_unsigned. rewrite Hb1, Hb2, U1. cbn [bind]. by rewrite U2.
Qed.

Lemma scalar_binop_all `{BVL : BitvecLaws} op w v1 v2 :
  1 <= w <= 128 -> canonical v1 -> canonical v2 -> Value.bits v1 = w -> Value.bits v2 = w ->
  if supported op w then
    match (match llvm_binop op w (as_u128 v1) (as_u128 v2) with
           | Some z => Some z | None => beyond_llvm op w (as_u128 v1) (as_u128 v2) end) with
    | Some z => int_result (call_scalar_binop op v1 v2) (result_width op w) z
    | None => is_ok (call_scalar_binop op v1 v2) = false
    end
  else is_ok (call_scalar_binop op v1 v2) = false.
Proof.
  intros Hw H1 H2 Hb1 Hb2.
  pose proof (as_u128_canonical v1 H1 ltac:(lia)) as B1. pose proof (as_u128_canonical v2 H2 ltac:(lia)) as B2.
  rewrite Hb1 in B1. rewrite Hb2 in B2. rewrite <- (binop_code_llvm op w _ _ Hw B1 B2).
  destruct (int_width w) eqn:Hiw.
  { pose proof (scalar_binop_at op w v1 v2 ltac:(by rewrite Hiw) H1 H2 Hb1 Hb2) as Hat.
    unfold supported. rewrite Hiw. cbn [orb]. by destruct op. }
  pose proof (lshr_result w v1 v2 ltac:(lia) H1 Hb1) as HL. unfold supported. rewrite Hiw. cbn [orb].
  assert (forall f, call_scalar_binop_signed v1 v2 f = Panic Todo) as HS by (intros f; by apply (signed_todo _ _ w)).
  destruct (Z.eqb_spec w 1) as [->|Hne].
  - assert (forall f1 f, exists b1 b2, as_u128 v1 = Z.b2z b1 /\ as_u128 v2 = Z.b2z b2 /\
      call_scalar_binop_unsigned v1 v2 f1 f = f1 b1 b2) as HU by (intros; by apply unsigned_bool).
    destruct op; cbn [call_scalar_binop binop_code result_width]; rewrite ?HS; try done;
      try match goal with |- context [call_scalar_binop_unsigned v1 v2 ?f1 ?f] =>
        destruct (HU f1 f) as (b1 & b2 & E1 & E2 & ->); rewrite ?E1, ?E2; try done end.
    + by exists v2.
    + destruct b1, b2; apply from_bool_result.
    + destruct b1, b2; apply from_bool_result.
    + destruct b1, b2; apply from_bool_result.
    + destruct (_ <=? _); [exact HL|by rewrite HL].
    + destruct p; rewrite ?HS; try done; match goal with |- context [call_scalar_binop_unsigned v1 v2 ?f1 ?f] =>
        by destruct (HU f1 f) as (? & ? & _ & _ & ->) end.
  - assert (forall f1 f, call_scalar_binop_unsigned v1 v2 f1 f = Panic Todo) as HU
      by (intros; by apply (unsigned_todo _ _ w)).
    destruct op; cbn [call_scalar_binop binop_code result_width]; rewrite ?HS, ?HU; try done.
    + by exists v2.
    + destruct (_ <=? _); [exact HL|by rewrite HL].
    + by destruct p; rewrite ?HS, ?HU.
Qed.

(** ** Writing several parts of a value *)

Section Parts.
Context `{BVL : BitvecLaws}.

(** Disjoint parts written in order are all there afterwards. *)
Lemma insert_all_spec (ws : list (Z * Value)) r :
  Value.wf r -> Forall (fun w => 0 <= w.1 /\ Value.wf w.2 /\ w.1 + Value.bits w.2 <= Value.bits r) ws ->
  StronglySorted (fun a b => a.1 + Value.bits a.2 <= b.1) ws ->
  exists r', foldM (fun r w => insert_bits r w.1 w.2) r ws = Ok r' /\ Value.wf r' /\
    Value.bits r' = Value.bits r /\ zlen (imp r') = zlen (imp r) /\
    (forall w i, w ∈ ws -> 0 <= i < Value.bits w.2 -> vbit r' (w.1 + i) = vbit w.2 i) /\
    (forall i, 0 <= i -> (forall w, w ∈ ws -> i < w.1) -> vbit r' i = vbit r i).
Proof.
  revert r. induction ws as [|[o v] ws IH]; intros r Hr Hws Hs; cbn [foldM].
  { exists r. split_and!; [done..|set_solver|done]. }
  apply Forall_cons in Hws as [(Ho & Hv & Hle) Hws]. simpl in Ho, Hv, Hle.
  apply StronglySorted_cons in Hs as [Hsv Hs]. rewrite Forall_forall in Hsv. simpl in Hsv.
  destruct (insert_bits_spec r o v Hr Hv Ho Hle) as (r1 & Hr1 & Hwf1 & Hb1 & Hl1 & Hbit1).
  simpl. rewrite Hr1. cbn [bind].
  destruct (IH r1 Hwf1) as (r' & -> & Hwf' & Hb' & Hl' & Hin & Hout); [by rewrite Hb1|done|].
  exists r'. split_and!; [done|done|congruence|congruence| |].
  - intros w i [->|Hw]%elem_of_cons Hi; simpl in *; [|by apply Hin].
    rewrite Hout by (lia || (intros w Hw; specialize (Hsv w Hw); lia)).
    rewrite Hbit1 by lia.
    destruct (Z.leb_spec o (o + i)), (Z.ltb_spec (o + i) (o + Value.bits v)); simpl; try lia. f_equal. lia.
  - intros i Hi Hlt. rewrite Hout by (done || (intros w Hw; apply Hlt; by right)).
    specialize (Hlt (o, v) ltac:(by left)). simpl in Hlt. rewrite Hbit1 by done.
    by destruct (Z.leb_spec o i); [lia|].
Qed.

Lemma extract_bits_at r o v :
  Value.wf r -> canonical v -> 0 <= o -> o + Value.bits v <= Value.bits r -> Value.bits r < 2 ^ 63 ->
  (forall i, 0 <= i < Value.bits v -> vbit r (o + i) = vbit v i) ->
  extract_bits r o (Value.bits v) = Ok v.
Proof.
  intros Hr Hv Ho Hle Hlt Hbit. pose proof Hv as [(Hv0 & _) _].
  destruct (extract_bits_spec r o (Value.bits v) Hr Ho Hv0 Hle Hlt) as (x & -> & Hx & Hxb & Hxv).
  f_equal. apply value_ext; [done|done|congruence|]. intros i Hi. rewrite Hxv by lia.
  destruct (Z.ltb_spec i (Value.bits v)); [|lia]. apply Hbit. lia.
Qed.

Context {CV : ClassView}.

(** The parts of a class: classes, offsets and layouts of its elements, in
    order and disjoint, as vectors and structs have them. *)
Record has_fields (c : Class) (l : Layout) (fs : list (Class * Z * Layout)) : Prop := {
  hf_layout : cv_layout c = Ok l;
  hf_size : 0 <= Layout.bits l < 2 ^ 63;
  hf_element : forall i e o el, fs !! i = Some (e, o, el) ->
    cv_element c (Z.of_nat i) = Ok (MkElement e o) /\ cv_layout e = Ok el;
  hf_inside : Forall (fun f => 0 <= f.1.2 /\ 0 <= Layout.bits f.2 /\
                f.1.2 + Layout.bits f.2 <= Layout.bits l) fs;
  hf_sorted : StronglySorted (fun a b => a.1.2 + Layout.bits a.2 <= b.1.2) fs
}.

(** Values for a prefix of the fields. *)
Definition fits (fs : list (Class * Z * Layout)) (vs : list Value) : Prop :=
  Forall2 (fun f v => canonical v /\ Value.bits v = Layout.bits f.2) fs vs.

Definition writes (fs : list (Class * Z * Layout)) (vs : list Value) : list (Z * Value) :=
  zip_with (fun f v => (f.1.2, v)) fs vs.

Lemma writes_ok fs vs n :
  fits fs vs ->
  Forall (fun f => 0 <= f.1.2 /\ 0 <= Layout.bits f.2 /\ f.1.2 + Layout.bits f.2 <= n) fs ->
  StronglySorted (fun a b => a.1.2 + Layout.bits a.2 <= b.1.2) fs ->
  Forall (fun w => 0 <= w.1 /\ Value.wf w.2 /\ w.1 + Value.bits w.2 <= n) (writes fs vs) /\
  StronglySorted (fun a b => a.1 + Value.bits a.2 <= b.1) (writes fs vs) /\
  (forall z, Forall (fun f => z <= f.1.2) fs -> Forall (fun w => z <= w.1) (writes fs vs)).
Proof.
  intros Hfit. induction Hfit as [|f v fs vs (Hc & Hb) _ IH]; intros Hin Hs.
  { split_and!; [constructor|constructor|intros; constructor]. }
  apply Forall_cons in Hin as [(? & ? & ?) Hin]. apply StronglySorted_cons in Hs as [Ha Hs].
  destruct (IH Hin Hs) as (W1 & W2 & W3). cbn [writes zip_with]. split_and!.
  - constructor; [|done]. simpl. split_and!; [done|auto with sim|lia].
  - apply StronglySorted_cons. split; [|done]. simpl. rewrite Hb. by apply W3.
  - intros z [? ?]%Forall_cons. constructor; [done|by apply W3].
Qed.

(** [insert] and [insert_bits] at the fields from the [k]th on. *)
Lemma fold_fields (c : Class) l (all : list (Class * Z * Layout)) fs vs k r
    (step : Value -> Z * Value -> res Value) :
  has_fields c l all ->
  (forall j f, fs !! j = Some f -> all !! (k + j)%nat = Some f) -> fits fs vs ->
  (forall r i v f, fs !! i = Some f -> Value.bits v = Layout.bits f.2 ->
     step r (Z.of_nat (k + i), v) = insert_bits r f.1.2 v) ->
  foldM step r (zip (Z.of_nat <$> seq k (length vs)) vs) =
  foldM (fun r w => insert_bits r w.1 w.2) r (writes fs vs).
Proof.
  intros Hf Hall Hfit. revert k r Hall. induction Hfit as [|f v fs vs (Hc & Hb) _ IH]; intros k r Hall Hstep; [done|].
  cbn [length seq fmap list_fmap zip zip_with foldM writes fst snd].
  pose proof (Hstep r 0%nat v f eq_refl Hb) as H0. rewrite Nat.add_0_r in H0. rewrite H0.
  destruct (insert_bits r f.1.2 v) as [r1|]; [|done]. cbn [bind]. apply IH.
  - intros j g Hj. specialize (Hall (S j) g Hj). by rewrite Nat.add_succ_r in Hall.
  - intros r' i u g Hi Hu. specialize (Hstep r' (S i) u g Hi Hu). by rewrite Nat.add_succ_r in Hstep.
Qed.

(** A value assembled from canonical parts gives the parts back. *)
Lemma assemble_spec (c : Class) l fs vs step :
  has_fields c l fs -> fits fs vs ->
  (forall r i v f, fs !! i = Some f -> Value.bits v = Layout.bits f.2 ->
     step r (Z.of_nat i, v) = insert_bits r f.1.2 v) ->
  exists z r, Value.zero (Layout.bits l) = Ok z /\
    foldM step z (enumerate vs) = Ok r /\ Value.wf r /\ Value.bits r = Layout.bits l /\
    forall i v, vs !! i = Some v -> extract r c (Z.of_nat i) = Ok v.
Proof.
  intros Hf Hfit Hstep. pose proof Hf as [Hl Hsz Hel Hin Hs].
  destruct (zero_spec (Layout.bits l)) as (z & Hz & Hzc & Hzb & _); [lia|lia|].
  destruct (writes_ok fs vs (Layout.bits l) Hfit Hin Hs) as (Hw & Hws & _).
  destruct (insert_all_spec (writes fs vs) z) as (r & Hr & Hwf & Hb & _ & Hbits & _);
    [auto with sim|by rewrite Hzb|done|].
  exists z, r. unfold enumerate. rewrite (fold_fields c l fs fs vs 0 z step Hf); [|done|done|done].
  split_and!; [done|done|done|congruence|]. intros i v Hv.
  destruct (Forall2_lookup_r _ _ _ _ _ Hfit Hv) as ([[e o] el] & Hfi & Hc & Hbv). simpl in Hbv.
  destruct (Hel i e o el Hfi) as [He Hle]. unfold extract. rewrite He. cbn [bind e_class bit_offset].
  rewrite Hle. cbn [bind]. rewrite <- Hbv.
  rewrite Forall_lookup in Hin. destruct (Hin i _ Hfi) as (? & ? & ?). simpl in *.
  apply extract_bits_at; [done|done|done|lia|lia|]. intros j Hj.
  apply (Hbits (o, v) j); [|done]. apply list_elem_of_lookup. exists i.
  unfold writes. by rewrite lookup_zip_with, Hfi, Hv.
Qed.
End Parts.


(** ** Struct classes of a table have fields *)

Lemma sorted_fields fields (ls : list Layout) :
  StronglySorted (fun a b => a.1 + Layout.bits a.2 <= b.1) (zip (bit_offset <$> fields) ls) ->
  StronglySorted (fun a b => a.1.2 + Layout.bits a.2 <= b.1.2)
    (zip ((fun e => (e_class e, bit_offset e)) <$> fields) ls).
Proof.
  revert ls. induction fields as [|f fields IH]; intros [|x ls] Hs; try apply SSorted_nil.
  change (zip (bit_offset <$> f :: fields) (x :: ls))
    with ((bit_offset f, x) :: zip (bit_offset <$> fields) ls) in Hs.
  change (zip ((fun e => (e_class e, bit_offset e)) <$> f :: fields) (x :: ls))
    with ((e_class f, bit_offset f, x) :: zip ((fun e => (e_class e, bit_offset e)) <$> fields) ls).
  apply StronglySorted_cons in Hs as [Ha Hs]. apply StronglySorted_cons. split; [|by apply IH].
  apply Forall_forall. intros [[e o] y] Hin. simpl. rewrite Forall_forall in Ha.
  apply (Ha (o, y)). apply list_elem_of_lookup in Hin as [j Hj]. apply list_elem_of_lookup. exists j.
  rewrite lookup_zip_with, list_lookup_fmap in Hj. rewrite lookup_zip_with, list_lookup_fmap.
  destruct (fields !! j) as [g|], (ls !! j) as [x'|]; simpl in *; by simplify_eq.
Qed.

Section View.
Context (env : gmap string Typ) (pb : Z) (tm : TypeMap) (n fuel : nat).
Hypothesis Hok : tm_ok env pb tm.
Hypothesis Hnf : forall c t, cells tm !! c <> Some (Forcing t).
Hypothesis Hfuel : (n < fuel)%nat.

Lemma view_layout c t l :
  has_typ env tm c t -> tlayout env pb n t = Ok l -> next_id tm + tcost env n t < 2 ^ 64 ->
  @cv_layout (view fuel tm) c = Ok l.
Proof.
  intros Hc Hl Hid. simpl.
  destruct (force_lay_ok env pb n fuel ltac:(lia) t l c tm Hl Hok Hc) as (tm' & -> & _); [|done|done].
  intros d u l' Hd. by apply Hnf in Hd.
Qed.

Lemma view_forced c i :
  cells tm !! c = Some (Forced i) ->
  @cv_layout (view fuel tm) c = Ok (layout i) /\ @cv_kind (view fuel tm) c = Ok (kind i) /\
  class_kind fuel c tm = Ok (kind i, tm).
Proof.
  intros Hc. simpl. unfold class_layout, class_kind. destruct fuel as [|f]; [lia|]. cbn [force].
  rewrite Hc. done.
Qed.

Lemma tcost_in t ts : t ∈ ts -> tcost env n t <= foldr (fun t z => tcost env n t + z) 0 ts.
Proof.
  induction ts as [|u ts IH]; [set_solver|]. simpl.
  assert (0 <= foldr (fun t z => tcost env n t + z) 0 ts) as Hpos.
  { clear. induction ts as [|u ts IH]; simpl; [lia|]. pose proof (tcost_nonneg env n u). lia. }
  pose proof (tcost_nonneg env n u). intros [->|?%IH]%elem_of_cons; lia.
Qed.

Lemma struct_view c i ts packed ls :
  cells tm !! c = Some (Forced i) -> typ i = StructType ts packed ->
  mapM (tlayout env pb n) ts = Ok ls -> next_id tm + foldr (fun t z => tcost env n t + z) 0 ts < 2 ^ 64 ->
  Forall Layout.wf ls -> 16 + 2 * room ls < 2 ^ 63 -> zlen ts < 2 ^ 64 ->
  exists fields l os, kind i = StructClass fields l /\ struct_layout packed ls = Ok (os, l) /\
    has_fields (CV := view fuel tm) c l (zip (zip (e_class <$> fields) os) ls) /\
    length fields = length ts /\ length os = length ts /\ length ls = length ts.
Proof.
  intros Hc Ht Hls Hid Hwf Hroom Hlen.
  destruct (view_forced c i Hc) as (Hvl & Hvk & Hck).
  pose proof Hok as (_ & _ & _ & _ & _ & Hcs & _). destruct (Hcs c _ Hc) as [[m Hm] Hk].
  rewrite Ht in Hm, Hk. destruct Hk as (fields & l & Hk & Hfs & m' & ls' & l0 & l1 & H0 & Hls' & Hex & Hpad).
  assert (ls' = ls) as ->.
  { apply (mapM_mono _ (tlayout env pb (m' + n))) in Hls'; [|intros; eapply tlayout_mono; [|done]; lia].
    apply (mapM_mono _ (tlayout env pb (m' + n))) in Hls; [|intros; eapply tlayout_mono; [|done]; lia].
    congruence. }
  assert (struct_layout packed ls = Ok (bit_offset <$> fields, l)) as Hsl.
  { unfold struct_layout. rewrite H0. cbn [bind]. rewrite Hex. cbn [bind]. by rewrite Hpad. }
  assert (layout i = l) as Hli.
  { assert (tlayout env pb (S m') (StructType ts packed) = Ok l) as Hl.
    { cbn [tlayout]. rewrite H0. cbn [bind]. rewrite Hls'. cbn [bind]. by rewrite Hex. }
    by eapply tlayout_fun. }
  destruct (struct_layout_fields packed ls Hwf Hroom) as (os & l2 & Hsl2 & Hl2 & Hb2 & Hin & Hso & _).
  rewrite Hsl in Hsl2. injection Hsl2 as <- <-.
  pose proof (Forall2_length _ _ _ Hfs) as Hflen. pose proof (mapM_length _ _ _ Hls) as Hllen.
  exists fields, l, (bit_offset <$> fields). split_and!; [done|done| |done|by rewrite length_fmap, Hflen|done].
  assert (zip (e_class <$> fields) (bit_offset <$> fields) = (fun e => (e_class e, bit_offset e)) <$> fields) as Hz.
  { clear. induction fields as [|f fields IH]; [done|]. simpl. by f_equal. }
  rewrite Hz. constructor.
  - by rewrite Hvl, Hli.
  - destruct Hl2. lia.
  - intros j e o el Hj. rewrite lookup_zip_with in Hj.
    rewrite list_lookup_fmap in Hj. destruct (fields !! j) as [f|] eqn:Ef; [|done].
    destruct (ls !! j) as [x|] eqn:Ex; [|done]. simpl in Hj. injection Hj as <- <- <-.
    apply lookup_lt_Some in Ef as Hjlt. unfold zlen in Hlen.
    destruct (Forall2_lookup_l _ _ _ _ _ Hfs Ef) as (t & Htj & Hft).
    apply mapM_Ok_Forall2 in Hls as Hls2.
    destruct (Forall2_lookup_l _ _ _ _ _ Hls2 Htj) as (x' & Hx' & Htx).
    rewrite Ex in Hx'. injection Hx' as <-. split.
    + simpl. unfold element. rewrite Hck. cbn [bind]. rewrite Hk. unfold index, zget.
      rewrite wrap_small by lia. destruct (Z.leb_spec 0 (Z.of_nat j)); [|lia].
      rewrite Nat2Z.id, Ef. cbn [bind]. by destruct f.
    + eapply view_layout; [done|done|].
      pose proof (tcost_in t ts ltac:(by eapply list_elem_of_lookup_2)). lia.
  - apply Forall_lookup. intros j [[e o] x] Hj. rewrite lookup_zip_with in Hj.
    destruct (((fun e => (e_class e, bit_offset e)) <$> fields) !! j) as [[e' o']|] eqn:Ef; [|done].
    destruct (ls !! j) as [x'|] eqn:Ex; [|done]. simpl in Hj. injection Hj as <- <- <-.
    rewrite list_lookup_fmap in Ef. destruct (fields !! j) as [f|] eqn:Efj; [|done]. injection Ef as <- <-.
    assert ((bit_offset <$> fields) !! j = Some (bit_offset f)) as Hoj by by rewrite list_lookup_fmap, Efj.
    destruct (Forall2_lookup_lr _ _ _ _ _ _ Hin Hoj Ex) as [(? & _) ?].
    rewrite Forall_lookup in Hwf. destruct (Hwf _ _ Ex). simpl. split_and!; done.
  - by apply sorted_fields.
Qed.
End View.

(** The widths [call_scalar_sext] extends between. *)
Definition sext_ok (w b : Z) : bool :=
  bool_decide ((w, b) ∈ [(8, 16); (8, 32); (8, 64); (16, 32); (16, 64); (32, 64)]).

(** Sign extension keeps the signed value, between all the pairs of widths
    the source lists; same-width extension is the identity; every other pair of
    widths (extensions of i1 and extensions to 128 bits among them) stops the
    program. *)
Theorem sext_preserves_signed `{BVL : BitvecLaws} (v : Value) (b : Z) (Hv : canonical v) :
  (Value.bits v = b -> call_scalar_sext v b = Ok v) /\
  (sext_ok (Value.bits v) b -> exists r, call_scalar_sext v b = Ok r /\ canonical r /\
     Value.bits r = b /\ to_signed b (as_u128 r) = to_signed (Value.bits v) (as_u128 v)) /\
  (Value.bits v <> b -> ~ sext_ok (Value.bits v) b -> call_scalar_sext v b = Panic Todo).
Proof.
  unfold call_scalar_sext. split_and!.
  - intros ->. by rewrite Z.eqb_refl.
  - intros Hok. apply bool_decide_unpack in Hok.
    assert (0 < Value.bits v < b /\ b <= 64) as Hb by (set_unfold in Hok; naive_solver lia).
    destruct (Z.eqb_spec (Value.bits v) b); [lia|].
    set (s := to_signed (Value.bits v) (as_u128 v)).
    pose proof (to_signed_bounds (Value.bits v) (as_u128 v) ltac:(lia)) as Hs. fold s in Hs.
    destruct (from_int_spec b s) as (r & Hr & Hc & Hrb & Hri); [lia|].
    assert (to_signed b (as_u128 r) = s) as Hts.
    { rewrite Hri. assert (2 ^ (Value.bits v - 1) <= 2 ^ (b - 1)) by (apply Z.pow_le_mono_r; lia).
      rewrite <- (to_signed_small b s) at 2 by lia. unfold to_signed. by rewrite wrap_wrap by lia. }
    exists r. split_and!; [|done..]. unfold s in Hr.
    unfold unwrap_i, unwrap_int. set_unfold in Hok.
    destruct_or? Hok; injection Hok as E ->; rewrite E in *; exact Hr.
  - intros Hne Hno. destruct (Z.eqb_spec (Value.bits v) b); [done|].
    unfold sext_ok in Hno. rewrite bool_decide_spec in Hno.
    destruct (Value.bits v) as [|p|p]; [done| |done].
    do 6 try (destruct p as [p|p|]; try done); (destruct b as [|q|q]; [done| |done]);
      do 7 try (destruct q as [q|q|]; try done); exfalso; apply Hno; set_solver.
Qed.

(** Building a value from canonical parts and extracting any of them. *)
Lemma aggregate_fields `{BVL : BitvecLaws} {CV : ClassView} (c : Class) (l : Layout)
    (fs : list (Class * Z * Layout)) (vs : list Value)
    (Hf : has_fields c l fs) (Hfit : fits fs vs) :
  exists r, aggregate c vs = Ok r /\ Value.wf r /\ Value.bits r = Layout.bits l /\
    forall i v, vs !! i = Some v -> extract r c (Z.of_nat i) = Ok v.
Proof.
  destruct (assemble_spec c l fs vs
    (fun r iv => let! e := cv_element c iv.1 in insert_bits r (bit_offset e) iv.2) Hf Hfit)
    as (z & r & Hz & Hr & Hwf & Hb & Hex).
  { intros r i v [[e o] el] Hi _. simpl. by destruct (hf_element _ _ _ Hf i e o el Hi) as [-> _]. }
  exists r. unfold aggregate. rewrite (hf_layout _ _ _ Hf). cbn [bind].
  rewrite Hz. cbn [bind]. by split_and!.
Qed.

Lemma aggregate_extract `{BVL : BitvecLaws} {CV : ClassView} (c : Class) (l : Layout)
    (fs : list (Class * Z * Layout)) (vs : list Value) (cs : list Class)
    (Hf : has_fields c l fs) (Hfit : fits fs vs) :
  exists r, call_operation (MkOp (Aggregate c) cs c) vs = Ok r /\ Value.wf r /\
    Value.bits r = Layout.bits l /\
    forall i v e, vs !! i = Some v ->
      call_operation (MkOp (ExtractValue [Z.of_nat i]) [c] e) [r] = Ok v.
Proof.
  destruct (aggregate_fields c l fs vs Hf Hfit) as (r & Hr & Hwf & Hb & Hex).
  exists r. cbn [call_operation name]. split_and!; [done..|].
  intros i v e Hv. specialize (Hex i v Hv). unfold extract in Hex.
  destruct (Forall2_lookup_r _ _ _ _ _ Hfit Hv) as ([[e' o] el] & Hfi & _).
  destruct (hf_element _ _ _ Hf i e' o el Hfi) as [He _].
  pose proof (hf_inside _ _ _ Hf) as Hin. rewrite Forall_lookup in Hin.
  destruct (Hin i _ Hfi) as (Ho & ? & ?). pose proof (hf_size _ _ _ Hf). simpl in *.
  rewrite He in *. cbn [bind e_class bit_offset] in *.
  unfold chk_s, in_s. rewrite Z.add_0_l.
  destruct (Z.leb_spec (- 2 ^ (64 - 1)) o), (Z.ltb_spec o (2 ^ (64 - 1))); simpl in *; try lia. exact Hex.
Qed.

(** The operations that [call_operation] maps over the lanes of a vector. *)
Definition is_simple (n : COperationName) : bool :=
  match n with
  | BitCast _ | GetElementPtr | ExtractElement | ExtractValue _ | InsertElement | InsertValue _
  | Shuffle _ | Select | Aggregate _ => false
  | _ => true
  end.

(** C39: vector operations are lane-wise. When the scalar operation on the
    [i]-th lanes of the operands gives [rs !! i], for every lane, the vector
    operation succeeds and its [i]-th lane is [rs !! i]. *)
Theorem vector_lanewise `{BVL : BitvecLaws} {CV : ClassView} (this : COperation) (inputs : list Value)
    (e : Class) (l : Layout) (fs : list (Class * Z * Layout)) (rs : list Value)
    (Hop : is_simple (name this))
    (Hk : cv_kind (output this) = Ok (VectorClass e (zlen fs))) (Hn : zlen fs < 2 ^ 63)
    (Hf : has_fields (output this) l fs) (Hfit : fits fs rs)
    (Hlane : forall i r, rs !! i = Some r -> exists lane,
       mapM (fun cs => extract cs.2 cs.1 (Z.of_nat i)) (zip (input this) inputs) = Ok lane /\
       call_scalar this lane = Ok r) :
  exists v, call_operation this inputs = Ok v /\ Value.wf v /\ Value.bits v = Layout.bits l /\
    forall i r, rs !! i = Some r -> extract v (output this) (Z.of_nat i) = Ok r.
Proof.
  destruct (assemble_spec (output this) l fs rs
    (fun r iv => insert r (output this) iv.1 iv.2) Hf Hfit) as (z & v & Hz & Hv & Hwf & Hb & Hex).
  { intros r i x [[c o] el] Hi Hx. unfold insert. simpl in *.
    destruct (hf_element _ _ _ Hf i c o el Hi) as [-> Hl]. cbn [bind e_class bit_offset].
    rewrite Hl. cbn [bind]. by rewrite Hx, Z.eqb_refl. }
  exists v. split_and!; [|done..].
  assert (call_operation this inputs = call_simple this inputs) as ->.
  { unfold call_operation. by destruct (name this). }
  unfold call_simple. rewrite Hk, (hf_layout _ _ _ Hf). cbn [bind]. rewrite Hz. cbn [bind].
  rewrite <- Hv. unfold enumerate.
  assert (to_signed 64 (zlen fs) = Z.of_nat (length rs)) as ->.
  { rewrite to_signed_small by (pose proof (zlen_nonneg fs); lia). unfold zlen.
    by rewrite (Forall2_length _ _ _ Hfit). }
  rewrite Nat2Z.id. clear - Hlane.
  assert (forall k us w, (forall i r, us !! i = Some r -> rs !! (k + i)%nat = Some r) ->
    foldM (call_lane this inputs) w (Z.of_nat <$> seq k (length us)) =
    foldM (fun r iv => insert r (output this) iv.1 iv.2) w (zip (Z.of_nat <$> seq k (length us)) us)) as Hfold.
  { intros k us. revert k. induction us as [|u us IH]; intros k w Hus; [done|].
    cbn [length seq fmap list_fmap zip zip_with foldM fst snd].
    assert (call_lane this inputs w (Z.of_nat k) = insert w (output this) (Z.of_nat k) u) as ->.
    { unfold call_lane. destruct (Hlane k u) as (lane & -> & Hs).
      - rewrite <- (Nat.add_0_r k). by apply Hus.
      - cbn [bind]. by rewrite Hs. }
    destruct (insert w (output this) (Z.of_nat k) u); [|done]. cbn [bind]. apply IH.
    intros i r Hi. rewrite Nat.add_succ_comm. by apply Hus. }
  by apply Hfold.
Qed.

(** C40: struct values. Once a struct class of a table is forced, building a
    value of it from canonical fields succeeds and extracting any field gives
    that field back: the offsets the class table computes are the ones the
    operations need. *)
Theorem struct_values_roundtrip `{BVL : BitvecLaws} (env : gmap string Typ) (pb : Z) (tm : TypeMap)
    (n fuel : nat) (c : Class) (i : ClassInner) (ts : list Typ) (packed : bool) (ls : list Layout)
    (vs : list Value) (cs : list Class)
    (Hok : tm_ok env pb tm) (Hnf : forall c t, cells tm !! c <> Some (Forcing t))
    (Hfuel : (n < fuel)%nat) (Hc : cells tm !! c = Some (Forced i)) (Ht : typ i = StructType ts packed)
    (Hls : mapM (tlayout env pb n) ts = Ok ls)
    (Hid : next_id tm + foldr (fun t z => tcost env n t + z) 0 ts < 2 ^ 64)
    (Hwf : Forall Layout.wf ls) (Hroom : 16 + 2 * room ls < 2 ^ 63) (Hlen : zlen ts < 2 ^ 64)
    (Hvs : Forall2 (fun l v => canonical v /\ Value.bits v = Layout.bits l) ls vs) :
  exists r, call_operation (CV := view fuel tm) (MkOp (Aggregate c) cs c) vs = Ok r /\ Value.wf r /\
    forall j v e, vs !! j = Some v ->
      call_operation (CV := view fuel tm) (MkOp (ExtractValue [Z.of_nat j]) [c] e) [r] = Ok v.
Proof.
  destruct (struct_view env pb tm n fuel Hok Hnf Hfuel c i ts packed ls Hc Ht Hls Hid Hwf Hroom Hlen)
    as (fields & l & os & _ & _ & Hf & Hl1 & Hl2 & Hl3).
  destruct (aggregate_extract (CV := view fuel tm) c l _ vs cs Hf) as (r & Hr & Hwfr & _ & Hex);
    [|by exists r].
  unfold fits. apply Forall2_same_length_lookup. split.
  - apply Forall2_length in Hvs. rewrite !length_zip_with, length_fmap. lia.
  - intros j f v Hj Hv. rewrite lookup_zip_with in Hj.
    destruct (zip (e_class <$> fields) os !! j) as [x|]; [|done].
    destruct (ls !! j) as [y|] eqn:Ey; [|done]. simpl in Hj. injection Hj as <-.
    by apply (Forall2_lookup_lr _ _ _ _ _ _ Hvs Ey Hv).
Qed.

(** The table with the class of <2 x i8> forced. *)
Definition vec_table : TypeMap :=
  let '(c, tm) := get (VectorType (IntegerType 8) 2) (typemap_new 64) in
  match class_layout 3 c tm with Ok (_, tm) => tm | Panic _ => tm end.
#[local] Instance vec_view : ClassView := view 3 vec_table.

(** Shufflevector never reads its second operand: indices past the first
    vector select from the first vector again. Shuffling <1, 2> and <3, 4>
    with indices <2, 3> gives <1, 2>, where LLVM asks for <3, 4>. *)
Theorem shuffle_ignores_second_operand :
  (forall (this : COperation) (is_ : list Z) (v0 v1 v1' : Value),
     name this = Shuffle is_ -> call_operation this [v0; v1] = call_operation this [v0; v1']) /\
  call_operation (MkOp (Shuffle [2; 3]) [0; 0] 0) [MkValue [1; 2] 16; MkValue [3; 4] 16] =
    Ok (MkValue [1; 2] 16).
Proof.
  split; [|vm_compute; reflexivity]. intros this is_ v0 v1 v1' Hn.
  unfold call_operation. rewrite Hn. reflexivity.
Qed.

(** ** Concrete runs *)


Lemma sext_preserves_signed_witness :
  call_scalar_sext (int_value 8 (-2)) 32 = Ok (int_value 32 (-2)) /\
  (8 = 32 -> call_scalar_sext (int_value 8 (-2)) 32 = Ok (int_value 8 (-2))) /\
  (sext_ok 8 32 -> exists r, call_scalar_sext (int_value 8 (-2)) 32 = Ok r /\ canonical r /\
     Value.bits r = 32 /\ to_signed 32 (as_u128 r) = to_signed 8 (as_u128 (int_value 8 (-2)))) /\
  (8 <> 32 -> ~ sext_ok 8 32 -> call_scalar_sext (int_value 8 (-2)) 32 = Panic Todo).
Proof.
  split; [vm_compute; reflexivity|].
  apply (sext_preserves_signed (int_value 8 (-2)) 32). apply int_value_canonical. lia.
Defined.

Lemma vec_fields : has_fields 0 (MkLayout 16 8) [(1, 0, MkLayout 8 8); (1, 8, MkLayout 8 8)].
Proof.
  constructor.
  - vm_compute. reflexivity.
  - simpl. lia.
  - intros [|[|i]] e o el H; try done; simpl in H; simplify_eq; vm_compute; done.
  - repeat constructor; simpl; lia.
  - repeat constructor; simpl; lia.
Qed.

Lemma vector_lanewise_witness :
  let this := MkOp Add [0; 0] 0 in
  let inputs := [MkValue [250; 3] 16; MkValue [10; 4] 16] in
  call_operation this inputs = Ok (MkValue [4; 7] 16) /\
  exists v, call_operation this inputs = Ok v /\ Value.wf v /\
    Value.bits v = Layout.bits (MkLayout 16 8) /\
    forall i r, [int_value 8 4; int_value 8 7] !! i = Some r -> extract v 0 (Z.of_nat i) = Ok r.
Proof.
  intros this inputs. split; [vm_compute; reflexivity|].
  apply (vector_lanewise this inputs 1 (MkLayout 16 8) [(1, 0, MkLayout 8 8); (1, 8, MkLayout 8 8)]).
  - vm_compute. exact I.
  - vm_compute. reflexivity.
  - vm_compute. reflexivity.
  - apply vec_fields.
  - constructor; [|constructor; [|constructor]]; (split; [apply int_value_canonical; lia|vm_compute; reflexivity]).
  - intros [|[|i]] r H; [injection H as <-..|done]; (eexists; split; [vm_compute; reflexivity|vm_compute; reflexivity]).
Defined.

(** The table of the linked list struct, with its class forced. *)
Definition list_table : TypeMap :=
  match query 3 [NamedStructType "list"] (add_module list_def (typemap_new 64)) with
  | Ok (_, tm) => tm
  | Panic _ => typemap_new 64
  end.

Lemma list_table_ok :
  tm_ok (list_to_map list_def) 64 list_table /\ (forall c t, cells list_table !! c <> Some (Forcing t)).
Proof.
  destruct (registered_add_all list_def ∅ 64 (typemap_new 64) (registered_new 64)) as (env & Hr & Henv).
  - apply (bool_decide_unpack _). vm_compute. exact I.
  - intros. apply lookup_empty.
  - constructor; [by eexists _, _|constructor].
  - assert (env = list_to_map list_def) as ->.
    { apply map_eq. intros m. apply option_eq. intros t. rewrite Henv, lookup_empty.
      rewrite <- elem_of_list_to_map; [naive_solver|]. apply (bool_decide_unpack _). vm_compute. exact I. }
    destruct (query_spec (list_to_map list_def) 64 3 3 [NamedStructType "list"] [MkLayout 192 64]
      (add_module list_def (typemap_new 64))) as (tm & Hq & Hok & Hnf).
    + lia.
    + vm_compute. reflexivity.
    + by apply registered_ok.
    + intros c t Hc. destruct Hr as (_ & _ & _ & Hu & _). by apply Hu in Hc as [? ?].
    + vm_compute. reflexivity.
    + assert (list_table = tm) as -> by (unfold list_table; rewrite Hq; reflexivity).
      exact (conj Hok Hnf).
Qed.

Lemma struct_values_roundtrip_witness :
  let vs := [int_value 32 5; int_value 64 1000; int_value 64 (-1)] in
  exists r, call_operation (CV := view 3 list_table) (MkOp (Aggregate 0) [] 0) vs = Ok r /\ Value.wf r /\
    forall j v e, vs !! j = Some v ->
      call_operation (CV := view 3 list_table) (MkOp (ExtractValue [Z.of_nat j]) [0] e) [r] = Ok v.
Proof.
  intros vs. destruct list_table_ok as [Hok Hnf].
  assert (exists i, cells list_table !! 0 = Some (Forced i) /\
    typ i = StructType [IntegerType 32; PointerType (IntegerType 8); PointerType (NamedStructType "list")] false)
    as (i & Hc & Ht) by (eexists; split; [vm_compute; reflexivity|reflexivity]).
  apply (struct_values_roundtrip (list_to_map list_def) 64 list_table 2 3 0 i _ false
    [MkLayout 32 32; MkLayout 64 64; MkLayout 64 64] vs [] Hok Hnf ltac:(lia) Hc Ht).
  - vm_compute. reflexivity.
  - vm_compute. reflexivity.
  - clear. repeat constructor; simpl; try lia; [by exists 5|by exists 6|by exists 6].
  - vm_compute. reflexivity.
  - vm_compute. reflexivity.
  - clear. constructor; [|constructor; [|constructor; [|constructor]]];
      (split; [apply int_value_canonical; lia|vm_compute; reflexivity]).
Defined.
