(* ===== verification/Data.v ===== *)
(** * Data: src/src/data.rs, src/src/backtrace.rs

    The data-flow queue of a thread. Decoding an instruction creates a [Thunk]:
    its dependencies, the address it accesses, its memory ordering and the
    computation to run when its arguments are known. [step_pure] walks the
    queue in program order, runs what cannot be observed by other threads and
    offers the atomic operations that may go next. The heap of thunks and the
    process state the computations see are explicit; the pool the thunks live
    in is [FreeList]. [TRACING] is on: decoding and running a thunk print it,
    which panics when a value has a width that [Debug] does not know. *)

From S2P Require Import Prelude Text RangeMap MemOrdering Layout Bitvec Value Memory.

(** ** Backtraces: src/src/backtrace.rs *)

Record BacktraceFrame := MkFrame { ip : Z; loc : string }.

(** [BacktraceInner]: a shared cons list. *)
Definition Backtrace := list BacktraceFrame.
Definition bt_empty : Backtrace := [].
Definition bt_prepend (self : Backtrace) (frame : BacktraceFrame) : Backtrace := frame :: self.
(** [Iter::next] *)
Definition bt_next (self : Backtrace) : option (BacktraceFrame * Backtrace) :=
  match self with [] => None | f :: next => Some (f, next) end.

(** ** Thunks *)

Section Data.
(** What a computation may change besides the memory: the rest of the process. *)
Context {X : Type}.

Record World := MkWorld { w_memory : MemoryInner; w_rest : X }.

(** [Box<dyn FnOnce(&ComputeCtx, &[&Value]) -> Value>]; the context is the
    thread and the process. *)
Definition Compute := Z -> list Value -> World -> res (Value * World).

Inductive ThunkState := Pending (compute : Compute) | Ready (v : Value) | Sandbag.

(** [struct ThunkInner]; a [Thunk] is the address of its slot. *)
Record ThunkInner := MkThunk {
  t_thread : Z;
  t_seq : Z;
  t_deps : list Z;
  t_address : option (Z * Layout);
  t_atomicity : Ordering;
  t_backtrace : Backtrace;
  t_value : ThunkState;
  t_wakers : list Z;
  t_tracing : bool
}.

(** The thunks, the process and the wakers that were called. *)
Record State := MkState { heap : gmap Z ThunkInner; world : World; woken : list Z }.

Definition set_value (x : ThunkState) (i : ThunkInner) : ThunkInner :=
  MkThunk (t_thread i) (t_seq i) (t_deps i) (t_address i) (t_atomicity i) (t_backtrace i) x
    (t_wakers i) (t_tracing i).
Definition set_wakers (ws : list Z) (i : ThunkInner) : ThunkInner :=
  MkThunk (t_thread i) (t_seq i) (t_deps i) (t_address i) (t_atomicity i) (t_backtrace i) (t_value i)
    ws (t_tracing i).

(** [*t]: a handle always points to a slot. *)
Definition deref (st : State) (t : Z) : res ThunkInner :=
  match heap st !! t with Some i => Ok i | None => Panic UnreachableCode end.

(** [Thunk::constant]; [t] is the slot of its own new pool. *)
Definition thunk_constant (t : Z) (value : Value) (st : State) : State :=
  MkState (<[t := MkThunk 0 0 [] None ONone bt_empty (Ready value) [] false]> (heap st))
    (world st) (woken st).

Definition try_get (st : State) (t : Z) : res (option Value) :=
  let! i := deref st t in
  match t_value i with
  | Pending _ => Ok None
  | Ready value => Ok (Some value)
  | Sandbag => Panic UnreachableCode
  end.

(** [impl Debug for Thunk] *)
Definition inner_debug (i : ThunkInner) : res text :=
  match t_value i with
  | Pending _ => Ok (dec (t_thread i) +:+ "#" +:+ dec (t_seq i))
  | Ready value => Value.debug value
  | Sandbag => Ok "Sandbag"
  end.
Definition thunk_debug (st : State) (t : Z) : res text := let! i := deref st t in inner_debug i.

(** [deps.iter().map(|d| d.try_get()).collect::<Option<_>>()] *)
Fixpoint get_args (st : State) (deps : list Z) : res (option (list Value)) :=
  match deps with
  | [] => Ok (Some [])
  | d :: deps =>
      let! o := try_get st d in
      match o with
      | None => Ok None
      | Some v =>
          let! r := get_args st deps in
          Ok (match r with Some vs => Some (v :: vs) | None => None end)
      end
  end.

(** [Thunk::step]; [TRACING] is [true], so it prints what it runs. *)
Definition step (t : Z) (st : State) : res (bool * State) :=
  let! i := deref st t in
  let! args := get_args st (t_deps i) in
  match args with
  | None => Ok (false, st)
  | Some args =>
      match t_value i with
      | Ready _ => Ok (false, st)
      | Sandbag => Panic UnreachableCode
      | Pending compute =>
          let! _ := print (let! s := inner_debug i in Ok ("res " +:+ pad 10 s +:+ " = ")) in
          let! (v, w) := compute (t_thread i) args (world st) in
          let! _ := print (inner_debug (set_value (Ready v) i)) in
          Ok (true, MkState (<[t := set_wakers [] (set_value (Ready v) i)]> (heap st)) w
                      (woken st ++ t_wakers i))
      end
  end.

(** [Future::poll] for a thunk, by the task [waker]; [known] tells whether the
    scheduler still has a thread, since the blocker is recorded there. *)
Definition poll (known : Z -> bool) (waker : Z) (t : Z) (st : State) : res (option Value * State) :=
  let! i := deref st t in
  let! o := try_get st t in
  match o with
  | Some v => assert! known (t_thread i) or UnwrapFailed in Ok (Some v, st)
  | None =>
      assert! known (t_thread i) or UnwrapFailed in
      Ok (None, MkState (<[t := set_wakers (t_wakers i ++ [waker]) i]> (heap st)) (world st) (woken st))
  end.

(** ** What can be printed *)

(** Whether the debug output of a thunk can be written. *)
Definition shown (i : ThunkInner) : bool :=
  match t_value i with Ready v => printable v | _ => true end.

Lemma inner_debug_shown i : shown i = true -> exists s, inner_debug i = Ok s.
Proof. unfold shown, inner_debug. destruct (t_value i); [by eexists|apply debug_printable|by eexists]. Qed.

Lemma inner_debug_not_shown i : shown i = false -> inner_debug i = Panic AssertFailed.
Proof. unfold shown, inner_debug. destruct (t_value i); [done|apply debug_unprintable|done]. Qed.

Lemma inner_debug_Ok i s : inner_debug i = Ok s -> shown i = true.
Proof. intros H. destruct (shown i) eqn:E; [done|]. by rewrite (inner_debug_not_shown i E) in H. Qed.

(** ... of the thunk [t]. *)
Definition can_show (st : State) (t : Z) : Prop := exists i, heap st !! t = Some i /\ shown i = true.

Lemma thunk_debug_Ok st t : (exists s, thunk_debug st t = Ok s) <-> can_show st t.
Proof.
  unfold thunk_debug, deref, can_show. split.
  - intros (s & (i & Hi & Hs)%bind_Ok). exists i. apply inner_debug_Ok in Hs.
    by destruct (heap st !! t); simplify_eq.
  - intros (i & -> & Hs). by apply inner_debug_shown.
Qed.

(** ** The queue of a thread *)

Definition PIPELINE_SIZE : Z := 1000.

(** [struct DataFlowInner]; [thunks] is the [IndexSet] in insertion order. *)
Record DataFlow := MkDataFlow {
  df_thread : Z;
  df_seq : Z;
  df_thunks : list Z;
  df_tracing : bool
}.

(** [DataFlow::new] *)
Definition df_new (threadid : Z) : DataFlow := MkDataFlow threadid 0 [] false.

(** [DataFlow::set_tracing], [DataFlow::tracing], [Thunk::tracing] *)
Definition set_tracing (tracing : bool) (this : DataFlow) : DataFlow :=
  MkDataFlow (df_thread this) (df_seq this) (df_thunks this) tracing.
Definition tracing (this : DataFlow) : bool := df_tracing this.
Definition thunk_tracing (st : State) (t : Z) : bool := from_option t_tracing false (heap st !! t).

(** [DataFlow::len] *)
Definition df_len (this : DataFlow) : Z := zlen (df_thunks this).

(** What is printed of a new thunk. *)
Definition declared (st : State) (i : ThunkInner) : res text :=
  let! id := inner_debug i in
  let! deps := mapM (thunk_debug st) (t_deps i) in
  let loc := match bt_next (t_backtrace i) with Some (x, _) => loc x | None => "" end in
  let! address := match t_address i with Some (t, l) => thunk_debug st t | None => Ok "" end in
  let layout := match t_address i with Some (t, l) => Layout.debug l | None => "" end in
  let order := MemOrdering.debug (t_atomicity i) in
  Ok ("dec " +:+ pad 10 id +:+ " = [" +:+ pad 40 (String.concat ", " deps) +:+ " >= " +:+ pad 60 loc +:+ "] " +:+
      pad 20 address +:+ " " +:+ pad 10 layout +:+ " " +:+ pad 10 order).

(** The thunks whose values are printed when [i] is decoded. *)
Definition mentions (i : ThunkInner) : list Z :=
  t_deps i ++ match t_address i with Some (t, _) => [t] | None => [] end.

Lemma declared_Ok st i :
  (exists s, declared st i = Ok s) <-> shown i = true /\ forall d, d ∈ mentions i -> can_show st d.
Proof.
  unfold declared, mentions. split.
  - intros (s & (x & Hx & (l & Hl & (a & Ha & _)%bind_Ok)%bind_Ok)%bind_Ok).
    split; [by eapply inner_debug_Ok|]. intros d [Hd|Hd]%elem_of_app.
    + apply mapM_Ok_Forall2 in Hl. apply list_elem_of_lookup in Hd as [n Hn].
      destruct (Forall2_lookup_l _ _ _ _ _ Hl Hn) as (y & _ & Hy). apply thunk_debug_Ok. by exists y.
    + destruct (t_address i) as [[t l']|]; [|by apply not_elem_of_nil in Hd].
      apply list_elem_of_singleton in Hd as ->. apply thunk_debug_Ok. by exists a.
  - intros [Hi Hd]. destruct (inner_debug_shown i Hi) as [x ->]. cbn [bind].
    assert (exists l, mapM (thunk_debug st) (t_deps i) = Ok l) as [l ->].
    { clear Hi. induction (t_deps i) as [|d ds IH]; [by eexists|]. cbn [mapM].
      destruct (proj2 (thunk_debug_Ok st d)) as [y ->]; [apply Hd; by left|].
      destruct IH as [l ->]; [|by eexists]. intros e He. apply Hd. by right. }
    cbn [bind]. destruct (t_address i) as [[t l']|]; [|by eexists].
    destruct (proj2 (thunk_debug_Ok st t)) as [y ->]; [|by eexists]. apply Hd, elem_of_app. right. by left.
Qed.

(** [thunk_impl]; [None] while the pipeline is full and the decoder waits. [t]
    is the slot the pool hands out; the thread must be in the scheduler. *)
Definition thunk_impl (known : Z -> bool) (t : Z) (backtrace : Backtrace) (address : option (Z * Layout))
    (atomicity : Ordering) (deps : list Z) (compute : Compute) (this : DataFlow) (st : State)
    : res (option (Z * DataFlow * State)) :=
  assert! known (df_thread this) or UnwrapFailed in
  if PIPELINE_SIZE <=? df_len this then Ok None
  else
    let seq := df_seq this in
    let! seq' := add64 seq 1 in
    let thunk := MkThunk (df_thread this) seq deps address atomicity backtrace (Pending compute) []
                   (df_tracing this) in
    let st := MkState (<[t := thunk]> (heap st)) (world st) (woken st) in
    let! _ := print (declared st thunk) in
    Ok (Some (t, MkDataFlow (df_thread this) seq' (df_thunks this ++ [t]) (df_tracing this), st)).

(** [DataFlow::thunk] *)
Definition thunk (known : Z -> bool) (t : Z) (backtrace : Backtrace) (deps : list Z) (compute : Compute) :=
  thunk_impl known t backtrace None ONone deps compute.

(** [DataFlow::constant] *)
Definition constant (known : Z -> bool) (t : Z) (backtrace : Backtrace) (v : Value) :=
  thunk known t backtrace [] (fun _ _ w => Ok (v, w)).

Section Accesses.
Context {BV : Bitvec}.

(** The closures of [store] and [load]. *)
Definition store_compute (threadid : Z) (atomicity : Ordering) : Compute := fun _ args w =>
  let! a := index args 0 in
  let! v := index args 1 in
  let! m := store_impl threadid (as_u64 a) v atomicity (w_memory w) in
  let! u := from_unit in
  Ok (u, MkWorld m (w_rest w)).

Definition load_compute (threadid : Z) (layout : Layout) (atomicity : Ordering) : Compute :=
  fun _ args w =>
  let! a := index args 0 in
  let! v := load_impl threadid (as_u64 a) layout atomicity (w_memory w) in
  Ok (v, w).

(** [DataFlow::store], [DataFlow::load] *)
Definition store (known : Z -> bool) (t : Z) (backtrace : Backtrace) (address : Z) (layout : Layout) (value : Z)
    (atomicity : Ordering) (this : DataFlow) (st : State) :=
  thunk_impl known t backtrace (Some (address, layout)) atomicity [address; value]
    (store_compute (df_thread this) atomicity) this st.

Definition load (known : Z -> bool) (t : Z) (backtrace : Backtrace) (address : Z) (layout : Layout)
    (atomicity : Ordering) (this : DataFlow) (st : State) :=
  thunk_impl known t backtrace (Some (address, layout)) atomicity [address]
    (load_compute (df_thread this) layout atomicity) this st.
End Accesses.

(** ** [DataFlow::step_pure] *)

(** [this.thunks.retain(|t| t.try_get().is_none())] *)
Fixpoint retain_pending (st : State) (ts : list Z) : res (list Z) :=
  match ts with
  | [] => Ok []
  | t :: ts =>
      let! o := try_get st t in
      let! r := retain_pending st ts in
      Ok (match o with None => t :: r | Some _ => r end)
  end.

(** The [for] loop: the ranges accessed so far, the operations offered, whether
    a thunk was run. *)
Fixpoint step_loop (ts : list Z) (pending : RangeMap unit) (resolvable : list Z) (progress : bool)
    (st : State) : res (bool * list Z * State) :=
  match ts with
  | [] => Ok (progress, resolvable, st)
  | t :: ts =>
      let! i := deref st t in
      match t_address i with
      | None =>
          let! (b, st) := step t st in
          step_loop ts pending resolvable (progress || b) st
      | Some (address, layout) =>
          let! o := try_get st address in
          match o with
          | None => Ok (progress, resolvable, st)
          | Some address =>
              let! len := Layout.bytes layout in
              let! hi := add64 (as_u64 address) len in
              let! aliases := RangeMap.range (as_u64 address) hi pending in
              match aliases with
              | _ :: _ => step_loop ts pending resolvable progress st
              | [] =>
                  let! pending := RangeMap.insert (as_u64 address) hi tt pending in
                  match t_atomicity i with
                  | ONone =>
                      let! (b, st) := step t st in
                      step_loop ts pending resolvable (progress || b) st
                  | Relaxed => step_loop ts pending (resolvable ++ [t]) progress st
                  | Release =>
                      step_loop ts pending
                        (match resolvable with [] => [t] | _ => resolvable end) progress st
                  | Acquire | AcqRel | SeqCst => Ok (progress, resolvable ++ [t], st)
                  end
              end
          end
      end
  end.

Definition step_pure (this : DataFlow) (resolvable : list Z) (st : State)
    : res (bool * list Z * DataFlow * State) :=
  let! ts := retain_pending st (df_thunks this) in
  let! (p, r, st) := step_loop ts RangeMap.new resolvable false st in
  Ok (p, r, MkDataFlow (df_thread this) (df_seq this) ts (df_tracing this), st).
End Data.
Arguments World X : clear implicits.
Arguments State X : clear implicits.
Arguments Compute X : clear implicits.
Arguments ThunkInner X : clear implicits.
Arguments ThunkState X : clear implicits.
