(* ===== verification/Dependencies.v ===== *)
(** * Dependencies: the search of src/src/data.rs for what a thunk depends on

    [Thunk::all_deps], which [full_debug] shows when a computation panics: a
    depth-first search over the dependencies that collects the thunks it meets
    in a [BTreeSet], ordered by sequence number and then by address. *)

From Stdlib Require Import Sorting.Sorted.
From S2P Require Import Prelude Text RangeMap MemOrdering Layout Bitvec Value Memory Data.

Section Dependencies.
Context {X : Type}.
Implicit Types (st : State X) (x y t : Z) (all frontier : list Z).

(** [self.0.seq]; every handle points to a slot. *)
Definition seq_of st x : Z := from_option t_seq 0 (heap st !! x).
Definition deps_of st x : list Z := from_option t_deps [] (heap st !! x).

(** [Ord for Thunk] *)
Definition cmp st x y : comparison :=
  match seq_of st x ?= seq_of st y with Eq => x ?= y | c => c end.

(** [BTreeSet::insert], on the elements in their order. *)
Fixpoint bt_insert st x (all : list Z) : bool * list Z :=
  match all with
  | [] => (true, [x])
  | y :: rest =>
      match cmp st x y with
      | Lt => (true, x :: all)
      | Eq => (false, all)
      | Gt => let (fresh, rest) := bt_insert st x rest in (fresh, y :: rest)
      end
  end.

(** The [while] loop of [all_deps]; the head of [frontier] is the end of the
    [Vec]. [None] when the fuel runs out. *)
Fixpoint search (fuel : nat) st (frontier all : list Z) : option (list Z) :=
  match fuel with
  | O => None
  | S fuel =>
      match frontier with
      | [] => Some all
      | next :: frontier =>
          let (fresh, all) := bt_insert st next all in
          if fresh then search fuel st (rev (deps_of st next) ++ frontier) all
          else search fuel st frontier all
      end
  end.

(** [Thunk::all_deps] *)
Definition all_deps (fuel : nat) st t : option (list Z) := search fuel st [t] [].

(** The number of dependencies of the thunks not yet in the set. *)
Definition left_over st all : nat :=
  sum_list_with (fun p => if decide (p.1 ∈ all) then 0%nat else length (t_deps p.2)) (map_to_list (heap st)).

(** The fuel of the search from one thunk. *)
Definition search_bound st : nat := S (S (left_over st [])).

(** What [full_debug] writes: the thunk, those it depends on, and the frames of
    its backtrace. How [{:#?}] sets them out is left out. *)
Definition frame_debug (frame : BacktraceFrame) : text * text := (dec (ip frame), loc frame).
Definition full_debug st t : res (text * list text * list (text * text)) :=
  let! self := thunk_debug st t in
  let! deps := mapM (thunk_debug st) (default [] (all_deps (search_bound st) st t)) in
  let! i := deref st t in
  Ok (self, deps, frame_debug <$> t_backtrace i).

(** [impl Debug for DataFlow] *)
Definition dataflow_debug st (this : DataFlow) : res (text * list text * text) :=
  let! thunks := mapM (thunk_debug st) (df_thunks this) in
  Ok (dec (df_thread this), thunks, dec (df_seq this)).

(** ** The order of thunks *)

Definition thunk_lt st x y : Prop := cmp st x y = Lt.

Lemma cmp_spec st x y : CompareSpec (x = y) (thunk_lt st x y) (thunk_lt st y x) (cmp st x y).
Proof.
  unfold thunk_lt, cmp. rewrite (Z.compare_antisym (seq_of st x) (seq_of st y)), (Z.compare_antisym x y).
  destruct (Z.compare_spec (seq_of st x) (seq_of st y)); simpl; try by constructor.
  destruct (Z.compare_spec x y); simpl; by constructor.
Qed.

Lemma thunk_lt_iff st x y :
  thunk_lt st x y <-> seq_of st x < seq_of st y \/ (seq_of st x = seq_of st y /\ x < y).
Proof.
  unfold thunk_lt, cmp. destruct (Z.compare_spec (seq_of st x) (seq_of st y)); rewrite ?Z.compare_lt_iff;
    intuition (done || lia).
Qed.

#[export] Instance thunk_lt_strict st : StrictOrder (thunk_lt st).
Proof.
  split.
  - intros x. unfold complement. rewrite thunk_lt_iff. lia.
  - intros x y z. rewrite !thunk_lt_iff. lia.
Qed.

Lemma thunk_lt_irrefl st x : ~ thunk_lt st x x.
Proof. apply (irreflexivity (thunk_lt st)). Qed.

(** ** The set *)

Definition bt_ok st all : Prop := StronglySorted (thunk_lt st) all.

Lemma bt_insert_elem st x y all : y ∈ (bt_insert st x all).2 <-> y = x \/ y ∈ all.
Proof.
  induction all as [|z all IH]; simpl; [set_solver|].
  destruct (cmp_spec st x z) as [->| |]; simpl; [set_solver|set_solver|].
  destruct (bt_insert st x all). set_solver.
Qed.

Lemma bt_insert_ok st x all : bt_ok st all -> bt_ok st (bt_insert st x all).2.
Proof.
  unfold bt_ok. induction 1 as [|z all Hs IH Hz]; simpl; [repeat constructor|].
  destruct (cmp_spec st x z) as [->|Hlt|Hlt]; simpl; [by constructor| |].
  - constructor; [by constructor|]. constructor; [done|].
    eapply Forall_impl; [exact Hz|]. intros. by etrans.
  - pose proof (fun y => bt_insert_elem st x y all) as He. destruct (bt_insert st x all) as [b l].
    constructor; [done|]. apply Forall_forall. intros y [->|Hy]%He; [done|].
    by eapply Forall_forall in Hz.
Qed.

Lemma bt_insert_fresh st x all : bt_ok st all -> (bt_insert st x all).1 = true <-> x ∉ all.
Proof.
  unfold bt_ok. induction 1 as [|z all Hs IH Hz]; simpl; [set_solver|].
  destruct (cmp_spec st x z) as [->|Hlt|Hlt]; simpl; [set_solver| |].
  - split; [|done]. intros _ [->|Hx]%elem_of_cons; [by apply thunk_lt_irrefl in Hlt|].
    eapply Forall_forall in Hz; [|done]. apply (thunk_lt_irrefl st x). by etrans.
  - destruct (bt_insert st x all) as [b l]. simpl in *. rewrite IH, not_elem_of_cons.
    split; [|by intros [_ ?]]. split; [|done]. intros ->. by apply thunk_lt_irrefl in Hlt.
Qed.

(** ** Reachability and the measure of the search *)

Definition dep st x y : Prop := y ∈ deps_of st x.

Lemma sum_list_with_le {A} (f g : A -> nat) l :
  (forall a, a ∈ l -> (f a <= g a)%nat) -> (sum_list_with f l <= sum_list_with g l)%nat.
Proof.
  induction l as [|a l IH]; intros H; simpl; [done|].
  pose proof (H a ltac:(constructor)). specialize (IH ltac:(intros; apply H; by constructor)). lia.
Qed.

Lemma sum_list_with_drop {A} (f g : A -> nat) l a n :
  a ∈ l -> (forall b, b ∈ l -> (f b <= g b)%nat) -> (f a + n <= g a)%nat ->
  (sum_list_with f l + n <= sum_list_with g l)%nat.
Proof.
  induction l as [|b l IH]; intros Ha H Hn; [by apply elem_of_nil in Ha|]. simpl.
  apply elem_of_cons in Ha as [->|Ha].
  - pose proof (sum_list_with_le f g l ltac:(intros; apply H; by constructor)). lia.
  - pose proof (H b ltac:(constructor)).
    specialize (IH Ha ltac:(intros; apply H; by constructor) Hn). lia.
Qed.

Lemma left_over_insert st x all all' :
  (forall y, y ∈ all' <-> y = x \/ y ∈ all) -> x ∉ all ->
  (left_over st all' + length (deps_of st x) <= left_over st all)%nat.
Proof.
  intros Hall Hx. unfold left_over, deps_of. destruct (heap st !! x) as [i|] eqn:Hi; simpl.
  - eapply sum_list_with_drop with (a := (x, i)); [by apply elem_of_map_to_list|..]; simpl.
    + intros [y j] _. simpl. repeat case_decide; set_solver || lia.
    + rewrite decide_True by set_solver. by rewrite decide_False.
  - rewrite Nat.add_0_r. apply sum_list_with_le. intros [y j] _. simpl. repeat case_decide; set_solver || lia.
Qed.

Lemma search_enough fuel st frontier all :
  bt_ok st all -> (length frontier + left_over st all < fuel)%nat -> is_Some (search fuel st frontier all).
Proof.
  revert frontier all. induction fuel as [|fuel IH]; intros frontier all Hok Hf; [lia|]. simpl.
  destruct frontier as [|next frontier]; [done|]. simpl in Hf.
  pose proof (bt_insert_ok st next all Hok) as Hok'.
  pose proof (bt_insert_fresh st next all Hok) as Hfresh.
  pose proof (fun y => bt_insert_elem st next y all) as Hel.
  destruct (bt_insert st next all) as [[] all']; simpl in *; apply IH; try done.
  - pose proof (left_over_insert st next all all' Hel (proj1 Hfresh eq_refl)).
    rewrite length_app, length_rev. lia.
  - enough (left_over st all' <= left_over st all)%nat by lia.
    apply sum_list_with_le. intros [y j] _. simpl. repeat case_decide; set_solver || lia.
Qed.

Lemma elem_of_rev (x : Z) l : x ∈ rev l <-> x ∈ l.
Proof. by rewrite <- Permutation_rev. Qed.

(** The search keeps what it has met reachable, and the dependencies of what
    is in the set in the set or ahead. *)
Lemma search_spec fuel st t frontier all r :
  search fuel st frontier all = Some r -> bt_ok st all ->
  (forall x, x ∈ all \/ x ∈ frontier -> rtc (dep st) t x) ->
  (forall x y, x ∈ all -> dep st x y -> y ∈ all \/ y ∈ frontier) ->
  bt_ok st r /\ (forall x, x ∈ r -> rtc (dep st) t x) /\
  (forall x y, x ∈ r -> dep st x y -> y ∈ r) /\ (forall x, x ∈ all \/ x ∈ frontier -> x ∈ r).
Proof.
  revert frontier all. induction fuel as [|fuel IH]; intros frontier all; [done|]. simpl.
  destruct frontier as [|next frontier].
  - intros [= <-] Hok Hr Hc. split_and!; [done|by auto| |set_solver].
    intros x y Hx Hd. destruct (Hc x y Hx Hd); set_solver.
  - pose proof (bt_insert_fresh st next all) as Hfresh. pose proof (bt_insert_ok st next all) as Hok'.
    pose proof (fun y => bt_insert_elem st next y all) as Hel.
    destruct (bt_insert st next all) as [[] all']; simpl in *; intros Hs Hok Hr Hc.
    + destruct (IH _ _ Hs (Hok' Hok)) as (H1 & H2 & H3 & H4).
      * intros x [Hx|[Hx|Hx]%elem_of_app]; [apply Hr; set_solver| |apply Hr; set_solver].
        rewrite elem_of_rev in Hx. eapply rtc_r; [apply Hr; right; constructor|exact Hx].
      * intros x y [->|Hx]%Hel Hd; [right; apply elem_of_app; left; by apply elem_of_rev|].
        destruct (Hc x y Hx Hd); set_solver.
      * split_and!; [done..|]. intros x Hx. apply H4. set_solver.
    + assert (next ∈ all) as Hn.
      { destruct (decide (next ∈ all)) as [|Hn]; [done|]. by apply (Hfresh Hok) in Hn. }
      destruct (IH _ _ Hs (Hok' Hok)) as (H1 & H2 & H3 & H4).
      * intros x Hx. apply Hr. set_solver.
      * intros x y [->|Hx]%Hel Hd; [destruct (Hc next y Hn Hd)|destruct (Hc x y Hx Hd)]; set_solver.
      * split_and!; [done..|]. intros x Hx. apply H4. set_solver.
Qed.

Lemma search_from fuel st t l :
  search fuel st [t] [] = Some l -> bt_ok st l /\ (forall x, x ∈ l -> rtc (dep st) t x) /\
  (forall x y, x ∈ l -> dep st x y -> y ∈ l) /\ t ∈ l.
Proof.
  intros Hl. destruct (search_spec fuel st t [t] [] l Hl) as (H1 & H2 & H3 & H4); [constructor| |set_solver|].
  - intros x Hx. assert (x = t) as -> by set_solver. done.
  - split_and!; [done..|]. apply H4. set_solver.
Qed.

(** What is found is the thunk itself or what another depends on. *)
Lemma all_deps_dep fuel st t x : x ∈ default [] (all_deps fuel st t) -> x = t \/ exists y, dep st y x.
Proof.
  destruct (all_deps fuel st t) as [l|] eqn:Hl; [|by intros ?%not_elem_of_nil]. simpl. intros Hx.
  destruct (search_from _ _ _ _ Hl) as (_ & Hr & _). apply Hr in Hx.
  apply rtc_inv_r in Hx as [->|(y & _ & Hy)]; [by left|right; by exists y].
Qed.
End Dependencies.

(** C30: the search ends, and gives every thunk that the given one depends on, directly or
    not, and itself, once each, in the order of their sequence numbers (of their
    addresses where those are equal); whatever the dependencies are, cycles included. *)
Theorem all_deps_reachable {X} (st : State X) (t : Z) (fuel : nat) (Hf : (search_bound st <= fuel)%nat) :
  exists l, all_deps fuel st t = Some l /\
    (forall x, x ∈ l <-> rtc (dep st) t x) /\ StronglySorted (thunk_lt st) l /\ NoDup l.
Proof.
  destruct (search_enough fuel st [t] []) as [l Hl]; [constructor|unfold search_bound in Hf; simpl; lia|].
  exists l. split; [exact Hl|].
  destruct (search_from fuel st t l Hl) as (Hok & Hr & Hc & Ht). split_and!; [|done|].
  - intros x. split; [apply Hr|]. revert x.
    apply (rtc_ind_r (fun x => x ∈ l)); [set_solver|eauto].
  - clear -Hok. induction Hok as [|x l Hs IH Hx]; constructor; [|done]. intros Hin.
    eapply Forall_forall in Hx; [|done]. by apply thunk_lt_irrefl in Hx.
Qed.

(** A diamond whose top also reaches a thunk of another thread. *)
Definition diamond : State unit :=
  let i seq deps := MkThunk (X := unit) 1 seq deps None ONone bt_empty Sandbag [] false in
  MkState (list_to_map [(40, i 0 []); (30, i 1 [40]); (20, i 2 [40; 50]); (10, i 3 [20; 30]); (50, i 1 [])])
    (MkWorld mem_new tt) [].

Lemma all_deps_reachable_witness :
  all_deps (search_bound diamond) diamond 10 = Some [40; 30; 50; 20; 10] /\ rtc (dep diamond) 10 50.
Proof.
  destruct (all_deps_reachable diamond 10 (search_bound diamond)) as (l & Hl & Hr & _); [done|].
  assert (all_deps (search_bound diamond) diamond 10 = Some [40; 30; 50; 20; 10]) as E
    by (vm_compute; reflexivity).
  split; [exact E|]. apply Hr. rewrite E in Hl. injection Hl as <-. set_solver.
Defined.
