(* ===== verification/Local.v ===== *)
(** * Local: computations that touch only the bytes of their access

    A thunk that accesses memory does so at one range of addresses. [local_to R]
    says of a computation that it reads and writes only the bytes of [R]: on any
    memory that agrees on them it gives the same value and the same bytes, and
    leaves the others alone. Loads, stores and pure computations of [Data] are
    local; [Flow] adds the atomic read-modify-write operations. [Pipeline] asks
    nothing else of the thunks it reorders. *)

From S2P Require Import Prelude RangeMap MemOrdering Layout Bitvec Value Memory Data.

Section Local.
Context {X : Type}.
Implicit Types (w : World X) (R : Z -> Prop).

(** A run of a computation on given arguments. *)
Definition Run : Type := World X -> res (Value * World X).

Definition local_to R (run : Run) : Prop :=
  forall w v w1, run w = Ok (v, w1) -> mem_ok (w_memory w) ->
  forall w', mem_ok (w_memory w') -> (forall b, R b -> byte_at (w_memory w') b = byte_at (w_memory w) b) ->
  exists w1', run w' = Ok (v, w1') /\ mem_ok (w_memory w1') /\ w_rest w1' = w_rest w' /\
    (forall b, R b -> byte_at (w_memory w1') b = byte_at (w_memory w1) b) /\
    (forall b, ~ R b -> byte_at (w_memory w1') b = byte_at (w_memory w') b).

(** The bytes of an access. *)
Definition in_access (p n b : Z) : Prop := p <= b < p + n.

Lemma local_to_iff R R' run : (forall b, R b <-> R' b) -> local_to R run -> local_to R' run.
Proof.
  intros HR Hl w v w1 Hrun Hm w' Hm' Heq.
  destruct (Hl w v w1 Hrun Hm w' Hm') as (w1' & ? & ? & ? & Hb & Hnb); [intros b Hb; apply Heq; by apply HR|].
  exists w1'. split_and!; [done..|intros b ?; apply Hb; by apply HR|intros b Hb'; apply Hnb; by rewrite HR].
Qed.

(** A computation that neither reads nor changes the process. *)
Definition pure_run (run : Run) : Prop :=
  forall w v w1, run w = Ok (v, w1) -> w1 = w /\ forall w', run w' = Ok (v, w').

Lemma pure_local R run : pure_run run -> local_to R run.
Proof.
  intros Hp w v w1 Hrun Hm w' Hm' Heq. destruct (Hp w v w1 Hrun) as [-> Hall].
  exists w'. by split_and!.
Qed.

(** ** Loads and stores *)

Lemma load_impl_inv th p l o m v :
  load_impl th p l o m = Ok v ->
  exists n, Layout.bytes l = Ok n /\ n = (Layout.bits l + 7) / 8 /\ 0 <= Layout.bits l + 7 < 2 ^ 64 /\ p + n < 2 ^ 64.
Proof.
  unfold load_impl. intros (n & Hn & (hi & Hhi & _)%bind_Ok)%bind_Ok. exists n.
  unfold add64 in Hhi. apply chk_u_Ok in Hhi as [_ Hhi]. pose proof Hn as Hn'.
  unfold Layout.bytes in Hn'. apply bind_Ok in Hn' as (b & Hb & [= <-]).
  apply chk_u_Ok in Hb as [-> Hb]. split_and!; [done|done|lia..].
Qed.

Lemma store_impl_inv th p v o m m' : store_impl th p v o m = Ok m' -> p + zlen (imp v) < 2 ^ 64.
Proof.
  unfold store_impl, as_bytes. intros (hi & Hhi & _)%bind_Ok.
  apply chk_u_Ok in Hhi as [_ Hhi]. lia.
Qed.

(** A load gives the same value on memories that agree on its bytes. *)
Lemma load_same th p l o m m' v n :
  load_impl th p l o m = Ok v -> Layout.bytes l = Ok n -> 0 <= p -> 0 <= Layout.bits l -> mem_ok m -> mem_ok m' ->
  (forall b, in_access p n b -> byte_at m' b = byte_at m b) -> load_impl th p l o m' = Ok v.
Proof.
  intros Hld Hn Hp0 Hl Hm Hm' Heq.
  destruct (load_impl_inv _ _ _ _ _ _ Hld) as (n' & Hn' & Hdiv & Hb & Hp). rewrite Hn in Hn'. injection Hn' as <-.
  subst n.
  destruct (load_bytes th p l o m Hm Hp0 Hl) as (r & Hr & Hwf & Hbits & Hget); [lia|lia|].
  destruct (load_bytes th p l o m' Hm' Hp0 Hl) as (r' & Hr' & Hwf' & Hbits' & Hget'); [lia|lia|].
  rewrite Hld in Hr. injection Hr as <-. rewrite Hr'. f_equal.
  destruct r' as [ri' rb'], v as [ri rb]. simpl in *. subst rb rb'. f_equal.
  pose proof Hwf as (_ & _ & Hrl & _). pose proof Hwf' as (_ & _ & Hrl' & _). simpl in Hrl, Hrl'.
  apply zget_ext; [lia|]. intros j Hj. rewrite Hget, Hget' by lia. f_equal. apply Heq. unfold in_access. lia.
Qed.

(** A store of the same value makes the same bytes. *)
Lemma store_same th p v o m m1 m' :
  store_impl th p v o m = Ok m1 -> Forall is_byte (imp v) -> 0 <= p -> mem_ok m -> mem_ok m' ->
  exists m1', store_impl th p v o m' = Ok m1' /\ mem_ok m1' /\
    (forall b, in_access p (zlen (imp v)) b -> byte_at m1' b = byte_at m1 b) /\
    (forall b, ~ in_access p (zlen (imp v)) b -> byte_at m1' b = byte_at m' b).
Proof.
  intros Hst Hby Hp0 Hm Hm'. pose proof (store_impl_inv _ _ _ _ _ _ Hst) as Hp.
  destruct (store_bytes th p v o m Hm Hby Hp0 Hp) as (m2 & Hst2 & _ & _ & Hb2 & _).
  rewrite Hst in Hst2. injection Hst2 as <-.
  destruct (store_bytes th p v o m' Hm' Hby Hp0 Hp) as (m3 & Hst3 & _ & Hm3 & Hb3 & _).
  exists m3. split_and!; [done|done|..]; unfold in_access; intros b Hb; rewrite Hb3, ?Hb2;
    destruct (Z.leb_spec p b), (Z.ltb_spec b (p + zlen (imp v))); simpl; done || lia.
Qed.

Lemma as_u64_nonneg v : 0 <= as_u64 v.
Proof. apply wrap_bounds. lia. Qed.

Section Accesses.
Context {BV : Bitvec}.

Lemma load_local th th' l o a n :
  Layout.bytes l = Ok n -> 0 <= Layout.bits l ->
  local_to (in_access (as_u64 a) n) (load_compute th l o th' [a]).
Proof.
  intros Hn Hl w v w1 Hrun Hm w' Hm' Heq. unfold load_compute in *.
  change (index [a] 0) with (Ok a) in *. cbn [bind] in *. apply bind_Ok in Hrun as (r & Hld & [= <- <-]).
  rewrite (load_same _ _ _ _ _ _ _ _ Hld Hn (as_u64_nonneg a) Hl Hm Hm' Heq). exists w'. by split_and!.
Qed.

Lemma store_local th th' o a v :
  Forall is_byte (imp v) -> local_to (in_access (as_u64 a) (zlen (imp v))) (store_compute th o th' [a; v]).
Proof.
  intros Hby w u w1 Hrun Hm w' Hm' Heq. unfold store_compute in *.
  change (index [a; v] 0) with (Ok a) in *. change (index [a; v] 1) with (Ok v) in *.
  cbn [bind] in *. apply bind_Ok in Hrun as (m1 & Hst & (x & Hx & [= <- <-])%bind_Ok).
  destruct (store_same _ _ _ _ _ _ _ Hst Hby (as_u64_nonneg a) Hm Hm') as (m1' & -> & Hm1 & Hb & Hnb).
  cbn [bind]. rewrite Hx. cbn [bind]. eexists. split; [done|]. by split_and!.
Qed.
End Accesses.
End Local.
Arguments Run X : clear implicits.
