(* ===== verification/Pipeline.v ===== *)
(** * Pipeline: what the data-flow queue guarantees

    Theorems about [Data.step_pure]. The thunks of a thread are run out of
    order; the reference is to run them one by one in program order
    ([in_order]). [ooo] is the discipline under which the two agree: a thunk
    runs only when no earlier, unfinished memory operation of its thread touches
    a byte it touches. [step_pure] keeps that discipline when any two accesses
    of a thread touch the same bytes or none in common; without it, or across
    an acquire operation that aliases an earlier one, it does not. *)

From S2P Require Import Prelude Text RangeMap MemOrdering Layout Bitvec Value Memory Data Local.

Section Order.
Context {BV : Bitvec} {X : Type}.
Implicit Types (st : State X) (t u d : Z).

(** ** Values of thunks *)

Definition val st t : option Value :=
  match heap st !! t with
  | Some i => match t_value i with Ready v => Some v | _ => None end
  | None => None
  end.

Lemma try_get_val st t v : try_get st t = Ok (Some v) <-> val st t = Some v.
Proof.
  unfold try_get, deref, val. destruct (heap st !! t) as [i|]; simpl; [|done].
  destruct (t_value i); naive_solver.
Qed.

Lemma try_get_none st t : try_get st t = Ok None -> val st t = None.
Proof.
  unfold try_get, deref, val. destruct (heap st !! t) as [i|]; simpl; [|done].
  destruct (t_value i); naive_solver.
Qed.

Lemma get_args_val st ds vs :
  get_args st ds = Ok (Some vs) <-> Forall2 (fun d v => val st d = Some v) ds vs.
Proof.
  revert vs. induction ds as [|d ds IH]; intros vs; cbn [get_args].
  - split; [intros [= <-]; constructor|by inversion 1].
  - split.
    + intros (o & Ho & H)%bind_Ok. destruct o as [v|]; [|done].
      apply bind_Ok in H as ([vs'|] & Hvs & H); [|done]. injection H as <-.
      constructor; [by apply try_get_val|by apply IH].
    + inversion 1 as [|? v ? vs' Hv Hvs]; subst. apply try_get_val in Hv. apply IH in Hvs.
      by rewrite Hv, Hvs.
Qed.

(** Running a thunk: what [step] returning [true] means. *)
Lemma step_true t st st' :
  step t st = Ok (true, st') <->
  exists i args compute v w,
    heap st !! t = Some i /\ Forall2 (fun d v => val st d = Some v) (t_deps i) args /\
    t_value i = Pending compute /\ compute (t_thread i) args (world st) = Ok (v, w) /\ printable v = true /\
    st' = MkState (<[t := set_wakers [] (set_value (Ready v) i)]> (heap st)) w (woken st ++ t_wakers i).
Proof.
  unfold step, deref. split.
  - intros (i & Hi & (o & Ho & H)%bind_Ok)%bind_Ok.
    destruct (heap st !! t) as [j|] eqn:E; [|done]. injection Hi as ->.
    destruct o as [args|]; [|done]. apply get_args_val in Ho.
    destruct (t_value i) as [compute| |] eqn:Ev; [|done|done].
    apply bind_Ok in H as (? & _ & ([v w] & Hc & (? & (x & Hx)%print_Ok & H)%bind_Ok)%bind_Ok).
    injection H as <-. eexists _, _, _, _, _. split_and!; [done..| |done].
    by apply inner_debug_Ok in Hx.
  - intros (i & args & compute & v & w & Hi & Hargs & Hv & Hc & Hp & ->).
    apply get_args_val in Hargs. rewrite Hi. simpl. rewrite Hargs. simpl. rewrite Hv.
    unfold inner_debug at 1. rewrite Hv. cbn [bind print]. rewrite Hc. cbn [bind].
    destruct (inner_debug_shown (set_value (Ready v) i) Hp) as [x ->]. done.
Qed.

Lemma step_false t st st' : step t st = Ok (false, st') -> st' = st.
Proof.
  unfold step. intros (i & _ & ([args|] & _ & H)%bind_Ok)%bind_Ok; [|by injection H].
  destruct (t_value i); [|by injection H|done].
  by apply bind_Ok in H as (? & _ & ([v w] & _ & (? & _ & ?)%bind_Ok)%bind_Ok).
Qed.

Lemma val_insert st t u v i w ws :
  heap st !! t = Some i ->
  val (MkState (<[t := set_wakers [] (set_value (Ready v) i)]> (heap st)) w ws) u =
  if decide (u = t) then Some v else val st u.
Proof.
  intros Hi. unfold val. simpl. destruct (decide (u = t)) as [->|].
  - by rewrite lookup_insert_eq.
  - by rewrite lookup_insert_ne.
Qed.

(** ** A program: the queue of a thread, all pending *)

(** The part of a thunk that running thunks never changes. *)
Definition same_thunk (i j : ThunkInner X) : Prop :=
  t_thread i = t_thread j /\ t_deps i = t_deps j /\ t_address i = t_address j /\
  t_atomicity i = t_atomicity j.

(** What polling the tasks does to a state: wakers are registered, and those
    that were called are forgotten. *)
Definition same_but_wakers st st' : Prop :=
  set_wakers [] <$> heap st = set_wakers [] <$> heap st' /\ world st = world st'.

Lemma same_but_wakers_heap st st' t i :
  same_but_wakers st st' -> heap st !! t = Some i ->
  exists i', heap st' !! t = Some i' /\ same_thunk i' i /\ t_value i' = t_value i.
Proof.
  intros [Hh _] Hi. assert ((set_wakers [] <$> heap st') !! t = Some (set_wakers [] i)) as Ht
    by (by rewrite <- Hh, lookup_fmap, Hi).
  rewrite lookup_fmap in Ht. destruct (heap st' !! t) as [i'|]; [|done]. injection Ht as E1 _ E2 E3 E4 _ E5 _.
  exists i'. by split_and!.
Qed.

Lemma same_but_wakers_sym st st' : same_but_wakers st st' -> same_but_wakers st' st.
Proof. by intros [? ?]. Qed.

Lemma same_but_wakers_val st st' t : same_but_wakers st st' -> val st' t = val st t.
Proof.
  intros Hs. unfold val. destruct (heap st !! t) as [i|] eqn:Hi.
  - destruct (same_but_wakers_heap _ _ _ _ Hs Hi) as (i' & -> & _ & ->). done.
  - destruct (heap st' !! t) as [i'|] eqn:Hi'; [|done].
    destruct (same_but_wakers_heap _ _ _ _ (same_but_wakers_sym _ _ Hs) Hi') as (? & ? & _). congruence.
Qed.

(** Running the thunks in program order. *)
Definition in_order_step st t : res (State X) :=
  let! (b, st) := step t st in assert! b or AssertFailed in Ok st.
Definition in_order (ts : list Z) st : res (State X) := foldM in_order_step st ts.

Lemma in_order_step_Ok st t st' : in_order_step st t = Ok st' <-> step t st = Ok (true, st').
Proof.
  unfold in_order_step. split.
  - intros ([[] s] & Hs & H)%bind_Ok; simpl in H; [by injection H as ->|done].
  - intros ->. done.
Qed.

Variable st0 : State X.
Variable prog : list Z.
Variable stn : State X.

(** The bytes an operation touches, with the addresses of the run in order. *)
Definition access t : option (Z * Z) :=
  match heap st0 !! t with
  | Some i =>
      match t_address i with
      | Some (a, l) =>
          match val stn a, Layout.bytes l with
          | Some v, Ok n => Some (as_u64 v, n)
          | _, _ => None
          end
      | None => None
      end
  | None => None
  end.

Definition touches t b : Prop :=
  match access t with Some (a, n) => a <= b < a + n | None => False end.

(** The thunks of a queue: all pending, their dependencies decoded before or
    known, computations that touch only their access, and a run in order that
    succeeds. *)
Record program : Prop := {
  prog_nodup : NoDup prog;
  prog_pending : forall t, t ∈ prog -> exists i c, heap st0 !! t = Some i /\ t_value i = Pending c;
  prog_deps : forall t i d, t ∈ prog -> heap st0 !! t = Some i -> d ∈ t_deps i ->
    is_Some (heap st0 !! d) /\ (d ∈ prog \/ is_Some (val st0 d));
  prog_address : forall t i a l, t ∈ prog -> heap st0 !! t = Some i -> t_address i = Some (a, l) ->
    a ∈ t_deps i;
  prog_mem : mem_ok (w_memory (world st0));
  prog_run : in_order prog st0 = Ok stn;
  prog_range : forall t i a l v, t ∈ prog -> heap st0 !! t = Some i -> t_address i = Some (a, l) ->
    val stn a = Some v -> exists n, Layout.bytes l = Ok n /\ add64 (as_u64 v) n = Ok (as_u64 v + n);
  prog_local : forall t i c args, t ∈ prog -> heap st0 !! t = Some i -> t_value i = Pending c ->
    Forall2 (fun d v => val stn d = Some v) (t_deps i) args -> local_to (touches t) (c (t_thread i) args)
}.

Hypothesis Hprog : program.

(** ** The states of the run in order *)

Definition s (n : nat) : State X := match in_order (take n prog) st0 with Ok st => st | Panic _ => st0 end.

Lemma s_run n : in_order (take n prog) st0 = Ok (s n).
Proof.
  unfold s. pose proof (prog_run Hprog) as Hr. rewrite <- (take_drop n prog) in Hr.
  unfold in_order in *. rewrite foldM_app in Hr. by apply bind_Ok in Hr as (st & -> & _).
Qed.

Lemma s_0 : s 0 = st0.
Proof. done. Qed.

Lemma s_len : s (length prog) = stn.
Proof. unfold s. rewrite take_ge by done. by rewrite (prog_run Hprog). Qed.

Lemma s_step n t : prog !! n = Some t -> step t (s n) = Ok (true, s (S n)).
Proof.
  intros Ht. apply in_order_step_Ok. pose proof (s_run (S n)) as H.
  rewrite (take_S_r _ _ _ Ht) in H. unfold in_order in H. rewrite foldM_app in H.
  fold (in_order (take n prog) st0) in H. rewrite s_run in H. cbn [bind foldM] in H.
  by apply bind_Ok in H as (st & Hst & [= ->]).
Qed.

(** The heap after [n] steps: the first [n] thunks have their values. *)
Lemma s_heap n t i :
  (n <= length prog)%nat -> heap st0 !! t = Some i ->
  exists i', heap (s n) !! t = Some i' /\ same_thunk i' i /\
    ((exists k, (k < n)%nat /\ prog !! k = Some t) \/ t_value i' = t_value i).
Proof.
  intros Hn Hi. induction n as [|n IH].
  { exists i. split_and!; [done|by split_and!|by right]. }
  destruct IH as (i' & Hi' & Hsame & Hv); [lia|].
  destruct (lookup_lt_is_Some_2 prog n) as [u Hu]; [lia|].
  pose proof (s_step n u Hu) as (j & args & c & v & w & Hj & _ & _ & _ & _ & Hs)%step_true.
  rewrite Hs. simpl. destruct (decide (u = t)) as [->|Hne].
  - rewrite lookup_insert_eq. rewrite Hi' in Hj. injection Hj as <-.
    eexists. split_and!; [done|done|]. left. exists n. split; [lia|done].
  - rewrite lookup_insert_ne by done. exists i'. split_and!; [done|done|].
    destruct Hv as [(k & ? & ?)|?]; [left; exists k; split; [lia|done]|by right].
Qed.

Lemma s_val_step n t v : (n < length prog)%nat -> val (s n) t = Some v -> val (s (S n)) t = Some v.
Proof.
  intros Hn Hv. destruct (lookup_lt_is_Some_2 prog n) as [u Hu]; [lia|].
  pose proof (s_step n u Hu) as (j & args & c & v' & w & Hj & _ & Hc & _ & _ & Hs)%step_true.
  rewrite Hs, (val_insert _ _ _ _ _ _ _ Hj). destruct (decide (t = u)) as [->|]; [|done].
  unfold val in Hv. by rewrite Hj, Hc in Hv.
Qed.

Lemma s_val_mono n m t v : (n <= m)%nat -> (m <= length prog)%nat -> val (s n) t = Some v -> val (s m) t = Some v.
Proof.
  intros Hle Hm Hv. induction m as [|m IH]; [by assert (n = 0)%nat as -> by lia|].
  destruct (decide (n = S m)) as [->|]; [done|]. apply s_val_step; [lia|]. apply IH; lia.
Qed.

Lemma s_val_final n t v : (n <= length prog)%nat -> val (s n) t = Some v -> val stn t = Some v.
Proof. intros Hn Hv. rewrite <- s_len. by eapply s_val_mono. Qed.

(** What a thunk does in the run in order. *)
Lemma s_op n t i c :
  prog !! n = Some t -> heap st0 !! t = Some i -> t_value i = Pending c ->
  exists args v w, Forall2 (fun d v => val stn d = Some v) (t_deps i) args /\
    Forall2 (fun d v => val (s n) d = Some v) (t_deps i) args /\
    c (t_thread i) args (world (s n)) = Ok (v, w) /\ val stn t = Some v /\ world (s (S n)) = w.
Proof.
  intros Ht Hi Hc. pose proof (lookup_lt_Some _ _ _ Ht) as Hlt.
  pose proof (s_step n t Ht) as (j & args & c' & v & w & Hj & Hargs & Hc' & Hv & _ & Hs)%step_true.
  destruct (s_heap n t i) as (i' & Hi' & (H1 & H2 & _ & _) & Hor); [lia|done|].
  rewrite Hi' in Hj. injection Hj as <-.
  destruct Hor as [(k & Hk & Hkt)|Heq].
  { pose proof (NoDup_lookup _ _ _ _ (prog_nodup Hprog) Ht Hkt). lia. }
  assert (c' = c) as -> by congruence. rewrite H1, H2 in *.
  exists args, v, w. split_and!; [|done|done| |by rewrite Hs].
  - eapply Forall2_impl; [exact Hargs|]. intros d x Hd. apply (s_val_final n); [lia|exact Hd].
  - eapply (s_val_final (S n)); [lia|]. rewrite Hs, (val_insert _ _ _ _ _ _ _ Hi').
    by rewrite decide_True.
Qed.

(** What the run in order computes can be printed. *)
Lemma s_printable n t v : prog !! n = Some t -> val stn t = Some v -> printable v = true.
Proof.
  intros Ht Hv. pose proof (lookup_lt_Some _ _ _ Ht) as Hlt.
  pose proof (s_step n t Ht) as (j & args & c & x & w & Hj & _ & _ & _ & Hp & Hs)%step_true.
  assert (val stn t = Some x) as Hx.
  { eapply (s_val_final (S n)); [lia|]. rewrite Hs, (val_insert _ _ _ _ _ _ _ Hj). by rewrite decide_True. }
  congruence.
Qed.

(** ** What the operations do to memory *)

Definition mem st : MemoryInner := w_memory (world st).

(** The memory of the run in order. *)
Lemma s_mem n :
  (n <= length prog)%nat -> mem_ok (mem (s n)) /\ w_rest (world (s n)) = w_rest (world st0) /\
  forall k t b, S k = n -> prog !! k = Some t -> ~ touches t b -> byte_at (mem (s n)) b = byte_at (mem (s k)) b.
Proof.
  induction n as [|n IH]; intros Hn; [by split_and!; [apply (prog_mem Hprog)|..]|].
  destruct IH as (Hm & Hr & _); [lia|].
  destruct (lookup_lt_is_Some_2 prog n) as [t Ht]; [lia|].
  destruct (prog_pending Hprog t) as (i & c & Hi & Hc); [by eapply list_elem_of_lookup_2|].
  destruct (s_op n t i c Ht Hi Hc) as (args & v & w & Hargs & _ & Hrun & _ & Hw).
  destruct (prog_local Hprog t i c args (list_elem_of_lookup_2 _ _ _ Ht) Hi Hc Hargs _ v w Hrun Hm _ Hm)
    as (w1 & Hrun1 & Hm1 & Hr1 & _ & Hb1); [done|]. rewrite Hrun in Hrun1. injection Hrun1 as <-.
  unfold mem. rewrite Hw. split_and!; [done|congruence|].
  intros k u b Hk' Hu Hnt. assert (k = n) as -> by lia. rewrite Ht in Hu. injection Hu as <-. by apply Hb1.
Qed.

Lemma s_bytes n m b :
  (n <= m)%nat -> (m <= length prog)%nat ->
  (forall k t, (n <= k < m)%nat -> prog !! k = Some t -> ~ touches t b) ->
  byte_at (mem (s m)) b = byte_at (mem (s n)) b.
Proof.
  intros Hle Hm H. induction m as [|m IH]; [by assert (n = 0)%nat as -> by lia|].
  destruct (decide (n = S m)) as [->|]; [done|].
  destruct (lookup_lt_is_Some_2 prog m) as [t Ht]; [lia|].
  destruct (s_mem (S m)) as (_ & _ & Hb); [done|].
  rewrite (Hb m t b eq_refl Ht); [|eapply H; [|done]; lia].
  apply IH; [lia|lia|]. intros k u Hk. apply H. lia.
Qed.

(** ** Out of order *)

(** Thunk [n] of the program may run: no earlier, unfinished one touches a byte
    it touches. *)
Definition may_run st n t : Prop :=
  forall k u, (k < n)%nat -> prog !! k = Some u -> val st u = None ->
    forall b, touches t b -> touches u b -> False.

Inductive ooo : State X -> Prop :=
  | ooo_start : ooo st0
  | ooo_poll st st' : ooo st -> same_but_wakers st st' -> ooo st'
  | ooo_step st n t st' : ooo st -> prog !! n = Some t -> may_run st n t ->
      step t st = Ok (true, st') -> ooo st'.

Record inv st : Prop := {
  inv_heap : forall t i, heap st0 !! t = Some i -> exists i', heap st !! t = Some i' /\
    same_thunk i' i /\
    (t_value i' = t_value i \/ (t ∈ prog /\ exists v, t_value i' = Ready v /\ val stn t = Some v));
  inv_order : forall j k u t b, (j < k)%nat -> prog !! j = Some u -> prog !! k = Some t ->
    val st u = None -> val st t <> None -> touches u b -> touches t b -> False;
  inv_mem : mem_ok (mem st);
  inv_rest : w_rest (world st) = w_rest (world st0);
  inv_bytes : forall b n, (n <= length prog)%nat ->
    (forall k u, prog !! k = Some u -> touches u b -> ((k < n)%nat <-> val st u <> None)) ->
    byte_at (mem st) b = byte_at (mem (s n)) b
}.

Lemma prog_val0 t : t ∈ prog -> val st0 t = None.
Proof.
  intros Ht. destruct (prog_pending Hprog t Ht) as (i & c & Hi & Hc). unfold val. by rewrite Hi, Hc.
Qed.

Lemma inv_start : inv st0.
Proof.
  constructor.
  - intros t i Hi. exists i. split_and!; [done|by split_and!|by left].
  - intros j k u t b _ _ Ht _ Hv. destruct Hv. apply prog_val0. by eapply list_elem_of_lookup_2.
  - apply (prog_mem Hprog).
  - done.
  - intros b n Hn Hb. symmetry. rewrite <- s_0. apply s_bytes; [lia|done|].
    intros k t Hk Ht Htb. pose proof (proj1 (Hb k t Ht Htb) ltac:(lia)) as Hv. apply Hv, prog_val0.
    by eapply list_elem_of_lookup_2.
Qed.

(** A finished thunk has the value of the run in order. *)
Lemma inv_val st t v : inv st -> is_Some (heap st0 !! t) -> val st t = Some v -> val stn t = Some v.
Proof.
  intros Hinv [i Hi] Hv. destruct (inv_heap _ Hinv t i Hi) as (i' & Hi' & _ & [Heq|(_ & v' & Hv' & Hn)]).
  - apply (s_val_final 0); [lia|]. rewrite s_0. unfold val in *. rewrite Hi.
    rewrite Hi' in Hv. by rewrite <- Heq.
  - unfold val in Hv. rewrite Hi', Hv' in Hv. congruence.
Qed.

Lemma inv_args st t i args :
  inv st -> t ∈ prog -> heap st0 !! t = Some i ->
  Forall2 (fun d v => val st d = Some v) (t_deps i) args ->
  Forall2 (fun d v => val stn d = Some v) (t_deps i) args.
Proof.
  intros Hinv Ht Hi Hargs. assert (forall d, d ∈ t_deps i -> is_Some (heap st0 !! d)) as Hd.
  { intros d Hd. by apply (prog_deps Hprog t i d Ht Hi). }
  induction Hargs as [|d v ds vs Hv _ IH]; constructor.
  - eapply inv_val; [done|apply Hd; by left|done].
  - apply IH. intros e He. apply Hd. by right.
Qed.

Lemma args_functional (ds : list Z) (f : Z -> option Value) xs ys :
  Forall2 (fun d v => f d = Some v) ds xs -> Forall2 (fun d v => f d = Some v) ds ys -> xs = ys.
Proof.
  intros H. revert ys. induction H as [|d x ds xs Hx _ IH]; intros ys.
  - by inversion 1.
  - inversion 1 as [|? y ? ys' Hy Hys]; subst. f_equal; [congruence|by apply IH].
Qed.

(** Running thunk [n] out of order does to its bytes what it does in order. *)
Lemma inv_exec st n t i c args :
  inv st -> prog !! n = Some t -> may_run st n t -> val st t = None ->
  heap st0 !! t = Some i -> t_value i = Pending c ->
  Forall2 (fun d v => val st d = Some v) (t_deps i) args ->
  exists v w1, c (t_thread i) args (world st) = Ok (v, w1) /\ val stn t = Some v /\
    mem_ok (w_memory w1) /\ w_rest w1 = w_rest (world st) /\
    (forall b, touches t b -> byte_at (w_memory w1) b = byte_at (mem (s (S n))) b) /\
    (forall b, ~ touches t b -> byte_at (w_memory w1) b = byte_at (mem st) b).
Proof.
  intros Hinv Ht Hmay Hvt Hi Hc Hargs.
  pose proof (list_elem_of_lookup_2 _ _ _ Ht) as Hin. pose proof (lookup_lt_Some _ _ _ Ht) as Hlt.
  pose proof (inv_args st t i args Hinv Hin Hi Hargs) as Hargsn.
  destruct (s_op n t i c Ht Hi Hc) as (args' & vn & wn & Hargs' & _ & Hrunn & Hvn & Hwn).
  rewrite (args_functional _ _ _ _ Hargs' Hargsn) in Hrunn.
  destruct (s_mem n) as (Hmn & _ & _); [lia|].
  assert (forall b, touches t b -> byte_at (mem st) b = byte_at (mem (s n)) b) as Hpre.
  { intros b Hb. apply (inv_bytes _ Hinv); [lia|]. intros k u Hu Hub. split.
    - intros Hk' Hnone. by eapply (Hmay k u).
    - intros Hsome. destruct (decide (k < n)%nat) as [|Hge]; [done|]. exfalso.
      destruct (decide (k = n)) as [->|]; [congruence|].
      apply (inv_order _ Hinv n k t u b); [lia|done..]. }
  destruct (prog_local Hprog t i c args Hin Hi Hc Hargsn _ vn wn Hrunn Hmn (world st) (inv_mem _ Hinv) Hpre)
    as (w1 & Hrun1 & Hm1 & Hr1 & Hb1 & Hb1').
  exists vn, w1. unfold mem. rewrite Hwn. by split_and!.
Qed.

Lemma inv_step st n t st' :
  inv st -> prog !! n = Some t -> may_run st n t -> step t st = Ok (true, st') -> inv st'.
Proof.
  intros Hinv Ht Hmay (i' & args & c' & v & w & Hi' & Hargs & Hc' & Hrun & _ & ->)%step_true.
  pose proof (list_elem_of_lookup_2 _ _ _ Ht) as Hin. pose proof (lookup_lt_Some _ _ _ Ht) as Hlt.
  destruct (prog_pending Hprog t Hin) as (i & c & Hi & Hc).
  destruct (inv_heap _ Hinv t i Hi) as (j & Hj & (E1 & E2 & E3 & E4) & Hor).
  rewrite Hi' in Hj. injection Hj as <-.
  assert (c' = c) as -> by (destruct Hor as [?|(_ & ? & ? & _)]; congruence).
  rewrite E1, E2 in *.
  assert (val st t = None) as Hvt by (unfold val; by rewrite Hi', Hc').
  destruct (inv_exec st n t i c args Hinv Ht Hmay Hvt Hi Hc Hargs)
    as (vn & w1 & Hrun1 & Hvn & Hm1 & Hr1 & Hb1 & Hb1').
  rewrite Hrun in Hrun1. injection Hrun1 as -> <-.
  set (st' := MkState _ _ _).
  assert (forall u, val st' u = if decide (u = t) then Some vn else val st u) as Hval
    by (intros u; apply val_insert, Hi').
  constructor.
  - intros u j Hj. simpl. destruct (decide (t = u)) as [<-|Hne].
    + rewrite lookup_insert_eq. rewrite Hi in Hj. injection Hj as <-.
      eexists. split_and!; [done|by split_and!|]. right. split; [done|]. by exists vn.
    + rewrite lookup_insert_ne by done. by apply (inv_heap _ Hinv).
  - intros j k u x b Hjk Hu Hx. rewrite !Hval. destruct (decide (u = t)) as [|Hut]; [done|].
    destruct (decide (x = t)) as [->|Hxt].
    + intros Hnone _ Hub Htb. assert (k = n) as -> by (eapply NoDup_lookup; [apply (prog_nodup Hprog)|done..]).
      by eapply (Hmay j u).
    + exact (inv_order _ Hinv j k u x b Hjk Hu Hx).
  - done.
  - simpl. rewrite Hr1. apply (inv_rest _ Hinv).
  - intros b m Hm Hb. change (mem st') with (w_memory w).
    assert (touches t b \/ ~ touches t b) as [Htb|Htb].
    { unfold touches. destruct (access t) as [[a l]|]; [lia|right; tauto]. }
    + assert (n < m)%nat as Hnm by (apply (proj2 (Hb n t Ht Htb)); rewrite Hval, decide_True by done; discriminate).
      rewrite (Hb1 b Htb). symmetry. apply s_bytes; [lia|done|].
      intros k u Hk' Hu Hub. apply (inv_order _ Hinv n k t u b); [lia|done|done|done| |done|done].
      specialize (proj1 (Hb k u Hu Hub) ltac:(lia)). rewrite Hval.
      destruct (decide (u = t)) as [->|]; [|done].
      assert (k = n) as -> by (eapply NoDup_lookup; [apply (prog_nodup Hprog)|done..]). lia.
    + rewrite (Hb1' b Htb). apply (inv_bytes _ Hinv); [done|]. intros k u Hu Hub.
      rewrite (Hb k u Hu Hub), Hval. destruct (decide (u = t)) as [->|]; [by destruct Htb|done].
Qed.

Lemma inv_poll st st' : inv st -> same_but_wakers st st' -> inv st'.
Proof.
  intros Hinv Hs. assert (forall u, val st' u = val st u) as Hv by (intros; by apply same_but_wakers_val).
  pose proof Hs as [_ Hw]. constructor.
  - intros t i Hi. destruct (inv_heap _ Hinv t i Hi) as (j & Hj & (E1 & E2 & E3 & E4) & Hor).
    destruct (same_but_wakers_heap _ _ _ _ Hs Hj) as (j' & Hj' & (F1 & F2 & F3 & F4) & F5).
    exists j'. rewrite F5. split_and!; [done|split_and!; congruence|done].
  - intros j k u t b. rewrite !Hv. apply (inv_order _ Hinv).
  - unfold mem. rewrite <- Hw. apply (inv_mem _ Hinv).
  - rewrite <- Hw. apply (inv_rest _ Hinv).
  - intros b n Hn Hb. unfold mem. rewrite <- Hw. apply (inv_bytes _ Hinv); [done|].
    intros k u Hu Hub. rewrite <- Hv. eauto.
Qed.

Lemma ooo_inv st : ooo st -> inv st.
Proof. induction 1; [apply inv_start|by eapply inv_poll|by eapply inv_step]. Qed.

(** When everything has run, nothing tells the run from the one in order. *)
Lemma ooo_final st :
  ooo st -> (forall t, t ∈ prog -> val st t <> None) ->
  (forall t, t ∈ prog -> val st t = val stn t) /\
  (forall b, byte_at (mem st) b = byte_at (mem stn) b) /\
  w_rest (world st) = w_rest (world stn).
Proof.
  intros Hooo Hdone. apply ooo_inv in Hooo as Hinv. split_and!.
  - intros t Ht. destruct (val st t) as [v|] eqn:E; [|by destruct (Hdone t Ht)]. symmetry.
    eapply inv_val; [done| |done]. destruct (prog_pending Hprog t Ht) as (i & ? & -> & _). by eexists.
  - intros b. rewrite <- s_len. apply (inv_bytes _ Hinv); [done|]. intros k u Hu _. split.
    + intros _. apply Hdone. by eapply list_elem_of_lookup_2.
    + intros _. by eapply lookup_lt_Some.
  - rewrite <- s_len. destruct (s_mem (length prog)) as (_ & -> & _); [done|]. apply (inv_rest _ Hinv).
Qed.

(** ** [step_pure] runs thunks that may run *)

(** Two accesses of the program touch the same bytes or none in common. *)
Definition uniform : Prop :=
  forall t u b, t ∈ prog -> u ∈ prog -> touches t b -> touches u b -> access t = access u.

Lemma step_val_mono t st b st' u : step t st = Ok (b, st') -> val st' u = None -> val st u = None.
Proof.
  destruct b; intros Hst; [|by apply step_false in Hst as ->].
  apply step_true in Hst as (i & args & c & v & w & Hi & _ & _ & _ & _ & ->).
  rewrite (val_insert _ _ _ _ _ _ _ Hi). by destruct (decide (u = t)).
Qed.

(** The value of a thunk of the program, or of one it depends on. *)
Lemma try_get_total st d :
  inv st -> is_Some (heap st0 !! d) -> d ∈ prog \/ is_Some (val st0 d) -> try_get st d = Ok (val st d).
Proof.
  intros Hinv [i Hi] Hd. destruct (inv_heap _ Hinv d i Hi) as (i' & Hi' & _ & Hor).
  unfold try_get, deref, val. rewrite Hi'. simpl.
  destruct Hor as [Heq|(_ & v & -> & _)]; [|done]. rewrite Heq.
  destruct Hd as [Hd|[v Hv]].
  - destruct (prog_pending Hprog d Hd) as (j & c & Hj & Hc). rewrite Hi in Hj. injection Hj as <-.
    by rewrite Hc.
  - unfold val in Hv. rewrite Hi in Hv. by destruct (t_value i).
Qed.

Lemma get_args_total st ds :
  (forall d, d ∈ ds -> try_get st d = Ok (val st d)) ->
  exists o, get_args st ds = Ok o /\ ((forall d, d ∈ ds -> val st d <> None) -> is_Some o).
Proof.
  induction ds as [|d ds IH]; intros H; cbn [get_args]; [by eexists|].
  rewrite (H d) by (by left). destruct IH as (o & -> & Ho); [intros; apply H; by right|].
  cbn [bind]. destruct (val st d) as [v|] eqn:E; cbn [bind].
  - eexists. split; [done|]. intros Hall. destruct Ho as [vs ->]; [|done].
    intros e He. apply Hall. by right.
  - eexists. split; [done|]. intros Hall. destruct (Hall d); [by left|done].
Qed.

Lemma step_total st n t :
  inv st -> prog !! n = Some t -> may_run st n t ->
  exists b st', step t st = Ok (b, st') /\
    (val st t = None -> (forall i d, heap st0 !! t = Some i -> d ∈ t_deps i -> val st d <> None) -> b = true).
Proof.
  intros Hinv Ht Hmay. pose proof (list_elem_of_lookup_2 _ _ _ Ht) as Hin.
  pose proof (lookup_lt_Some _ _ _ Ht) as Hlt.
  destruct (prog_pending Hprog t Hin) as (i & c & Hi & Hc).
  destruct (inv_heap _ Hinv t i Hi) as (i' & Hi' & (E1 & E2 & E3 & E4) & Hor).
  destruct (get_args_total st (t_deps i)) as (o & Ho & Hall).
  { intros d Hd. destruct (prog_deps Hprog t i d Hin Hi) as [? ?]; [done|].
    by apply try_get_total. }
  destruct o as [args|].
  2: { exists false, st. unfold step, deref. rewrite Hi'. cbn [bind]. rewrite E2, Ho. split; [done|].
       intros _ Hd. destruct Hall as [? ?]; [|done]. intros. by eapply Hd. }
  destruct Hor as [Heq|(_ & v & Hv & _)].
  2: { exists false, st. unfold step, deref. rewrite Hi'. cbn [bind]. rewrite E2, Ho. cbn [bind]. rewrite Hv.
       split; [done|]. intros Hnone. unfold val in Hnone. by rewrite Hi', Hv in Hnone. }
  apply get_args_val in Ho.
  assert (val st t = None) as Hvt by (unfold val; by rewrite Hi', Heq, Hc).
  destruct (inv_exec st n t i c args Hinv Ht Hmay Hvt Hi Hc Ho) as (v & w1 & Hrun & Hv & _).
  exists true. eexists. split; [|done]. apply step_true.
  exists i', args, c, v, w1. split_and!; [done|by rewrite E2|congruence|by rewrite E1| |reflexivity].
  by eapply s_printable.
Qed.

Lemma before_in_queue ts pre t post n k u :
  ts = pre ++ t :: post -> sublist ts prog -> prog !! n = Some t -> prog !! k = Some u -> (k < n)%nat ->
  u ∈ ts -> u ∈ pre.
Proof.
  intros -> Hsub Ht Hu Hkn Hin. apply sublist_app_l in Hsub as (k1 & k2 & Hp & _ & H2).
  apply sublist_cons_l in H2 as (k3 & k4 & -> & H4). pose proof (prog_nodup Hprog) as Hnd.
  assert (prog !! length (k1 ++ k3) = Some t) as Ht'.
  { rewrite Hp, app_assoc. apply list_lookup_middle. done. }
  pose proof (NoDup_lookup _ _ _ _ Hnd Ht Ht') as ->.
  apply elem_of_app in Hin as [?|[->|Hpost]%elem_of_cons]; [done| |]; exfalso.
  - pose proof (NoDup_lookup _ _ _ _ Hnd Ht Hu). lia.
  - assert (u ∈ k4) as [m Hm]%list_elem_of_lookup by (by eapply elem_of_sublist).
    assert (prog !! (length (k1 ++ k3) + S m)%nat = Some u) as Hu'.
    { rewrite Hp, app_assoc, lookup_app_r by lia.
      replace (length (k1 ++ k3) + S m - length (k1 ++ k3))%nat with (S m) by lia. done. }
    pose proof (NoDup_lookup _ _ _ _ Hnd Hu Hu'). lia.
Qed.

(** The range the queue computes for an operation whose address is known. *)
Lemma access_known t i a l v :
  t ∈ prog -> heap st0 !! t = Some i -> t_address i = Some (a, l) -> val stn a = Some v ->
  exists len, Layout.bytes l = Ok len /\ access t = Some (as_u64 v, len) /\
    add64 (as_u64 v) len = Ok (as_u64 v + len).
Proof.
  intros Ht Hi Ha Hv. destruct (prog_range Hprog t i a l v Ht Hi Ha Hv) as (n & Hn & Hadd).
  exists n. split_and!; [done| |done]. unfold access. by rewrite Hi, Ha, Hv, Hn.
Qed.

Lemma may_run_mono st st' n t :
  may_run st n t -> (forall u, val st' u = None -> val st u = None) -> may_run st' n t.
Proof. intros Hm Hmono k u Hk Hu Hnone. eapply Hm; eauto. Qed.

Lemma ooo_step_any st n t b st' :
  ooo st -> prog !! n = Some t -> may_run st n t -> step t st = Ok (b, st') -> ooo st'.
Proof.
  intros Ho Ht Hm Hst. destruct b; [by eapply ooo_step|]. by apply step_false in Hst as ->.
Qed.

(** The ranges recorded by the loop are the bytes of the thunks passed. *)
Definition covered (pre : list Z) (pend : RangeMap unit) : Prop :=
  RangeMap.wf pend /\
  (forall u b, u ∈ pre -> touches u b -> is_Some (get pend b)) /\
  (forall b, is_Some (get pend b) -> exists u, u ∈ pre /\ touches u b).

(** What the rest [out] of the loop does from a state. *)
Definition loop_ok (out : Prelude.res (bool * list Z * State X)) (res : list Z) (prg : bool) st : Prop :=
  exists p r st', out = Ok (p, res ++ r, st') /\ ooo st' /\
    (forall u, val st' u = None -> val st u = None) /\
    (forall t, t ∈ r -> exists n, prog !! n = Some t /\ may_run st' n t) /\
    (prg = true -> p = true) /\ (p = false -> st' = st).

Lemma loop_ok_end res prg st : ooo st -> loop_ok (Ok (prg, res, st)) res prg st.
Proof. intros Ho. exists prg, [], st. rewrite app_nil_r. split_and!; [done..|set_solver|done|done]. Qed.

(** After running a thunk, and after offering one that may run. *)
Lemma loop_ok_step out res prg st t b st1 :
  loop_ok out res (prg || b) st1 -> step t st = Ok (b, st1) -> loop_ok out res prg st.
Proof.
  intros (p & r & st' & Hl & Ho & Hmono & Hr & Hp & Hf) Hst. exists p, r, st'. split_and!; [done|done| |done| |].
  - intros u Hu. eapply step_val_mono; [done|auto].
  - intros ->. by apply Hp.
  - intros Hpf. rewrite (Hf Hpf). destruct b; [|by eapply step_false].
    assert (p = true) by (apply Hp, orb_true_r). congruence.
Qed.

Lemma loop_ok_offer out res prg st n t :
  loop_ok out (res ++ [t]) prg st -> prog !! n = Some t -> may_run st n t -> loop_ok out res prg st.
Proof.
  intros (p & r & st' & Hl & Ho & Hmono & Hr & Hp & Hf) Ht Hmay. exists p, (t :: r), st'.
  rewrite <- app_assoc in Hl. split_and!; [done|done|done| |done|done].
  intros u [->|Hu]%elem_of_cons; [|by apply Hr]. exists n. split; [done|]. by eapply may_run_mono.
Qed.

Lemma covered_snoc pre pend t :
  covered pre pend -> (forall b, touches t b -> is_Some (get pend b)) -> covered (pre ++ [t]) pend.
Proof.
  intros (Hwf & H1 & H2) Ht. split_and!; [done| |].
  - intros u b [Hu|Hu%list_elem_of_singleton]%elem_of_app Hub; [eauto|subst u; auto].
  - intros b (u & Hu & Hub)%H2. exists u. split; [set_solver|done].
Qed.

Lemma covered_insert pre pend pend' t a n :
  covered pre pend -> access t = Some (a, n) -> RangeMap.wf pend' ->
  (forall b, get pend' b = if (a <=? b) && (b <? a + n) then Some tt else get pend b) ->
  covered (pre ++ [t]) pend'.
Proof.
  intros (Hwf & H1 & H2) Ha Hwf' Hg.
  assert (forall b, touches t b <-> a <= b < a + n) as Ht by (intros b; unfold touches; by rewrite Ha).
  assert (forall b, (a <=? b) && (b <? a + n) = true <-> touches t b) as Hb.
  { intros b. rewrite Ht, andb_true_iff, Z.leb_le, Z.ltb_lt. done. }
  split_and!; [done| |].
  - intros u b Hu Hub. rewrite Hg. destruct (_ && _) eqn:E; [done|].
    apply elem_of_app in Hu as [Hu|Hu%list_elem_of_singleton]; [eauto|]. subst u.
    apply Hb in Hub. congruence.
  - intros b. rewrite Hg. destruct (_ && _) eqn:E.
    + intros _. apply Hb in E. exists t. split; [set_solver|done].
    + intros (u & Hu & Hub)%H2. exists u. split; [set_solver|done].
Qed.

(** What precedes a thunk decoded so far is decoded. *)
Lemma visible_before vis n k t u :
  vis `prefix_of` prog -> prog !! n = Some t -> t ∈ vis -> prog !! k = Some u -> (k < n)%nat -> u ∈ vis.
Proof.
  intros [rest Hp] Ht [m Hm]%list_elem_of_lookup Hu Hk. pose proof (lookup_lt_Some _ _ _ Hm) as Hlt.
  assert (prog !! m = Some t) as Ht' by (rewrite Hp; by apply lookup_app_l_Some).
  pose proof (NoDup_lookup _ _ _ _ (prog_nodup Hprog) Ht Ht') as ->.
  apply (list_elem_of_lookup_2 _ k). by rewrite Hp, lookup_app_l in Hu by lia.
Qed.

Lemma may_run_covered vis pre t post pend st n :
  vis `prefix_of` prog -> covered pre pend -> sublist (pre ++ t :: post) vis ->
  (forall u, u ∈ vis -> val st u = None -> u ∈ pre ++ t :: post) -> prog !! n = Some t ->
  (forall b, touches t b -> get pend b = None) -> may_run st n t.
Proof.
  intros Hvis (_ & H1 & _) Hsub Hpend Ht Hb k u Hk Hu Hnone b Htb Hub.
  assert (t ∈ vis) as Htv by (eapply elem_of_sublist; [|exact Hsub]; set_solver).
  assert (u ∈ pre) as Hpre.
  { eapply before_in_queue; [done|etrans; [exact Hsub|by apply prefix_sublist]|exact Ht|exact Hu|done|].
    apply Hpend; [by apply (visible_before vis n k t u)|done]. }
  destruct (H1 u b Hpre Hub) as [x Hx]. rewrite Hb in Hx; done.
Qed.

Lemma step_loop_ok vis ts pre pend res prg st :
  uniform -> vis `prefix_of` prog -> ooo st -> sublist (pre ++ ts) vis ->
  (forall u, u ∈ vis -> val st u = None -> u ∈ pre ++ ts) -> covered pre pend ->
  loop_ok (step_loop ts pend res prg st) res prg st.
Proof.
  intros Huni Hvis. revert pre pend res prg st.
  induction ts as [|t ts IH]; intros pre pend res prg st Hooo Hsub Hpend Hcov; [by apply loop_ok_end|].
  pose proof (ooo_inv st Hooo) as Hinv. pose proof (prefix_sublist _ _ Hvis) as Hvs.
  assert (t ∈ prog) as Hin by (apply (elem_of_sublist (pre ++ t :: ts) prog); [set_solver|by etrans]).
  pose proof Hin as [n Ht]%list_elem_of_lookup.
  destruct (prog_pending Hprog t Hin) as (i & c & Hi & Hc).
  destruct (inv_heap _ Hinv t i Hi) as (i' & Hi' & (E1 & E2 & E3 & E4) & _).
  assert (forall pend' res' prg' st', ooo st' -> (forall u, val st' u = None -> val st u = None) ->
    covered (pre ++ [t]) pend' -> loop_ok (step_loop ts pend' res' prg' st') res' prg' st') as Hnext.
  { intros pend' res' prg' st' Ho' Hm' Hc'. apply (IH (pre ++ [t])); rewrite <- ?app_assoc; auto. }
  assert (forall pend', covered (pre ++ [t]) pend' -> may_run st n t ->
    loop_ok (let! (b, st) := step t st in step_loop ts pend' res (prg || b) st) res prg st) as Hstep.
  { intros pend' Hc' Hmay. destruct (step_total st n t Hinv Ht Hmay) as (b & st1 & Hst & _).
    rewrite Hst. cbn [bind]. eapply loop_ok_step; [|done]. apply Hnext; [by eapply ooo_step_any| |done].
    intros u. by eapply step_val_mono. }
  cbn [step_loop]. unfold deref. rewrite Hi'. cbn [bind]. rewrite E3, E4.
  destruct (t_address i) as [[a l]|] eqn:Ea.
  - destruct (prog_deps Hprog t i a Hin Hi) as [Hah Had]; [by eapply prog_address|].
    rewrite (try_get_total st a Hinv Hah Had). cbn [bind].
    destruct (val st a) as [v|] eqn:Eva; [|by apply loop_ok_end].
    pose proof (inv_val st a v Hinv Hah Eva) as Hvn.
    destruct (access_known t i a l v Hin Hi Ea Hvn) as (len & -> & Hacc & Hadd).
    cbn [bind]. rewrite Hadd. cbn [bind].
    pose proof Hcov as (Hwf & Hcov1 & Hcov2).
    destruct (rs_range (as_u64 v) (as_u64 v + len) pend Hwf) as (ps & -> & _ & Hsound & Hcompl). cbn [bind].
    destruct ps as [|[[lo hi] x] ps].
    + assert (may_run st n t) as Hmay.
      { eapply (may_run_covered vis); [done..|]. intros b. unfold touches. rewrite Hacc. intros Hb.
        destruct (get pend b) as [x|] eqn:Ex; [|done].
        destruct (Hcompl b x Hb Ex) as (lo & hi & Hlh & _). by apply elem_of_nil in Hlh. }
      destruct (rs_insert (as_u64 v) (as_u64 v + len) tt pend Hwf) as (pend' & -> & Hwf' & Hg). cbn [bind].
      pose proof (covered_insert pre pend pend' t _ _ Hcov Hacc Hwf' Hg) as Hcov'.
      destruct (t_atomicity i).
      * by apply Hstep.
      * eapply loop_ok_offer; [by apply Hnext|done|done].
      * eapply loop_ok_offer; [by apply loop_ok_end|done|done].
      * destruct res; [|by apply Hnext]. eapply (loop_ok_offer _ []); [by apply Hnext|done|done].
      * eapply loop_ok_offer; [by apply loop_ok_end|done|done].
      * eapply loop_ok_offer; [by apply loop_ok_end|done|done].
    + apply Hnext; [done|done|]. apply covered_snoc; [done|]. intros b Hb.
      destruct (Hsound lo hi x) as (H1 & H2 & H3 & H4); [by left|].
      destruct (Hcov2 lo) as (u & Hu & Hulo); [by rewrite H4 by lia|].
      assert (touches t lo) as Htlo by (unfold touches; rewrite Hacc; lia).
      apply (Hcov1 u b Hu). unfold touches. rewrite <- (Huni t u lo); [exact Hb|done| |done|done].
      eapply elem_of_sublist; [exact Hu|]. etrans; [|exact Hvs]; etrans; [|exact Hsub]. apply sublist_inserts_r. done.
  - apply Hstep.
    + apply covered_snoc; [done|]. intros b. unfold touches, access. by rewrite Hi, Ea.
    + intros k u _ _ _ b. unfold touches at 1. unfold access. by rewrite Hi, Ea.
Qed.

(** ** Runs of the queue *)

(** A thread alone: thunks decoded in program order, polls of tasks, which
    register wakers, passes of [step_pure], and operations a pass has offered
    that are then run (as [Process::step] does with the one it chooses), in any
    order. The first argument is what has been decoded. The slots of later thunks are in the heap from the start, where
    nothing refers to them before they are decoded. *)
Inductive pipe : list Z -> DataFlow -> State X -> Prop :=
  | pipe_start df : df_thunks df = [] -> pipe [] df st0
  | pipe_decode vis df st t df' : pipe vis df st -> (vis ++ [t]) `prefix_of` prog ->
      df_thunks df' = df_thunks df ++ [t] -> pipe (vis ++ [t]) df' st
  | pipe_poll vis df st st' : pipe vis df st -> same_but_wakers st st' -> pipe vis df st'
  | pipe_pass vis df st p r df' st' : pipe vis df st -> step_pure df [] st = Ok (p, r, df', st') ->
      pipe vis df' st'
  | pipe_pick vis df st p r df' st' t st'' : pipe vis df st -> step_pure df [] st = Ok (p, r, df', st') ->
      t ∈ r -> step t st' = Ok (true, st'') -> pipe vis df' st''.

(** The queue holds, in order, the decoded thunks that are not finished. *)
Definition queue_ok (vis : list Z) (df : DataFlow) st : Prop :=
  vis `prefix_of` prog /\ sublist (df_thunks df) vis /\
  forall u, u ∈ vis -> val st u = None -> u ∈ df_thunks df.

(** All of the program decoded before the first pass. *)
Lemma pipe_decoded df vis : vis `prefix_of` prog -> df_thunks df = vis -> pipe vis df st0.
Proof.
  revert df. induction vis as [|t vis IH] using rev_ind; intros df Hp Hdf; [by apply pipe_start|].
  eapply (pipe_decode vis (MkDataFlow (df_thread df) (df_seq df) vis (df_tracing df))).
  - apply IH; [|done]. etrans; [|exact Hp]. by apply prefix_app_r.
  - done.
  - by rewrite Hdf.
Qed.

Lemma retain_pending_spec st ts :
  (forall t, t ∈ ts -> try_get st t = Ok (val st t)) ->
  exists r, retain_pending st ts = Ok r /\ sublist r ts /\
    (forall t, t ∈ r <-> t ∈ ts /\ val st t = None).
Proof.
  induction ts as [|t ts IH]; intros H; cbn [retain_pending].
  { exists []. split_and!; [done|constructor|]. set_solver. }
  rewrite (H t) by (by left). destruct IH as (r & -> & Hsub & Hr); [intros; apply H; by right|].
  cbn [bind]. destruct (val st t) as [v|] eqn:E.
  - exists r. split_and!; [done|by constructor|]. intros u. rewrite Hr, elem_of_cons.
    split; [naive_solver|]. intros [[->|?] ?]; [congruence|done].
  - exists (t :: r). split_and!; [done|by constructor|]. intros u. rewrite !elem_of_cons, Hr.
    naive_solver.
Qed.

(** A pass never panics, keeps the discipline, and offers only operations that
    may run. *)
Lemma step_pure_ok vis df st :
  uniform -> ooo st -> queue_ok vis df st ->
  exists p r df' st' ts, step_pure df [] st = Ok (p, r, df', st') /\ ooo st' /\ queue_ok vis df' st' /\
    (forall t, t ∈ r -> exists n, prog !! n = Some t /\ may_run st' n t) /\
    (p = false -> st' = st) /\ df_thunks df' = ts /\ (forall t, t ∈ ts <-> t ∈ vis /\ val st t = None) /\
    step_loop ts RangeMap.new [] false st = Ok (p, r, st').
Proof.
  intros Huni Hooo (Hvis & Hsub & Hall). pose proof (ooo_inv st Hooo) as Hinv.
  pose proof (prefix_sublist _ _ Hvis) as Hvs.
  destruct (retain_pending_spec st (df_thunks df)) as (ts & Hts & Hsub' & Hin).
  { intros t Ht. assert (t ∈ prog) as Hp by (eapply elem_of_sublist; [done|by etrans]).
    destruct (prog_pending Hprog t Hp) as (i & c & Hi & _). apply try_get_total; [done|by eexists|by left]. }
  assert (sublist ts vis) as Hs by by etrans.
  destruct (step_loop_ok vis ts [] RangeMap.new [] false st Huni Hvis Hooo Hs) as (p & r & st' & Hl & Ho & Hm & Hr & _ & Hf).
  - intros u Hu Hnone. apply Hin. auto.
  - split_and!; [apply wf_new|set_solver|]. intros b [x Hx]. done.
  - exists p, r. eexists _, st', ts. unfold step_pure. rewrite Hts. cbn [bind]. rewrite Hl. cbn [bind app].
    split_and!; [done|done| |done|done|done| |done].
    + split_and!; [done|done|]. intros u Hu Hnone. apply Hin. auto.
    + intros t. rewrite Hin. split; [intros [? ?]; split; [by eapply elem_of_sublist|done]|].
      intros [? ?]. auto.
Qed.

Lemma pipe_ok vis df st : uniform -> pipe vis df st -> ooo st /\ queue_ok vis df st.
Proof.
  intros Huni. induction 1 as [df Hdf|vis df st t df' _ [Ho Hq] Hp Hdf|vis df st st' _ [Ho Hq] Hs|vis df st p r df' st' _ [Ho Hq] Hst|
    vis df st p r df' st' t st'' _ [Ho Hq] Hst Ht Hstep].
  - split; [constructor|]. split_and!; [apply prefix_nil|by rewrite Hdf|by intros u ?%elem_of_nil].
  - split; [done|]. destruct Hq as (_ & Hsub & Hall). split_and!; [done|rewrite Hdf; by apply sublist_app|].
    intros u [Hu|Hu]%elem_of_app Hn; rewrite Hdf; apply elem_of_app; [left; auto|by right].
  - split; [by eapply ooo_poll|]. destruct Hq as (? & ? & Hall). split_and!; [done..|].
    intros u Hu. rewrite (same_but_wakers_val st st' u Hs). auto.
  - destruct (step_pure_ok vis df st Huni Ho Hq) as (p1 & r1 & df1 & st1 & ts & H & Ho1 & Hq1 & _).
    rewrite Hst in H. by injection H as <- <- <- <-.
  - destruct (step_pure_ok vis df st Huni Ho Hq) as (p1 & r1 & df1 & st1 & ts & H & Ho1 & Hq1 & Hr1 & _).
    rewrite Hst in H. injection H as <- <- <- <-. destruct (Hr1 t Ht) as (n & Hn & Hmay).
    split; [by eapply ooo_step|]. destruct Hq1 as (? & ? & Hall). split_and!; [done|done|].
    intros u Hu Hnone. apply Hall; [done|]. by eapply step_val_mono.
Qed.

(** ** Progress *)

Lemma step_loop_progress ts pend res prg st p r st' :
  step_loop ts pend res prg st = Ok (p, r, st') -> (prg = true -> p = true) /\ (forall t, t ∈ res -> t ∈ r).
Proof.
  revert pend res prg st. induction ts as [|t ts IH]; intros pend res prg st; cbn [step_loop].
  { intros [= -> -> ->]. done. }
  intros (i & _ & H)%bind_Ok. destruct (t_address i) as [[a l]|].
  - apply bind_Ok in H as (o & _ & H). destruct o as [v|]; [|by injection H as -> -> ->].
    apply bind_Ok in H as (len & _ & (hi & _ & (al & _ & H)%bind_Ok)%bind_Ok).
    destruct al; [|by apply IH in H]. apply bind_Ok in H as (pend' & _ & H).
    destruct (t_atomicity i); try (injection H as -> <- ->; split; [done|set_solver]).
    + apply bind_Ok in H as ([b st1] & _ & [H1 H2]%IH). split; [|done]. intros ->. by apply H1.
    + apply IH in H as [? H2]. split; [done|]. intros u Hu. apply H2. set_solver.
    + apply IH in H as [? H2]. split; [done|]. intros u Hu. apply H2. by destruct res; [set_solver|].
  - apply bind_Ok in H as ([b st1] & _ & [H1 H2]%IH). split; [|done]. intros ->. by apply H1.
Qed.

(** The dependencies of a thunk come before it. *)
Lemma dep_before n t i d :
  prog !! n = Some t -> heap st0 !! t = Some i -> d ∈ t_deps i ->
  (exists k, (k < n)%nat /\ prog !! k = Some d) \/ is_Some (val st0 d).
Proof.
  intros Ht Hi Hd. pose proof (list_elem_of_lookup_2 _ _ _ Ht) as Hin. pose proof (lookup_lt_Some _ _ _ Ht) as Hlt.
  destruct (prog_pending Hprog t Hin) as (j & c & Hj & Hc). rewrite Hi in Hj. injection Hj as <-.
  destruct (s_op n t i c Ht Hi Hc) as (args & v & w & _ & Hargs & _).
  destruct (prog_deps Hprog t i d Hin Hi) as [[di Hdi] _]; [done|].
  apply list_elem_of_lookup in Hd as [m Hm]. destruct (Forall2_lookup_l _ _ _ _ _ Hargs Hm) as (x & _ & Hx).
  destruct (s_heap n d di) as (i' & Hi' & _ & [(k & ? & ?)|Heq]); [lia|done|left; by exists k|].
  right. unfold val in Hx |- *. rewrite Hi' in Hx. rewrite Hdi, <- Heq. by exists x.
Qed.

Lemma inv_known st d : inv st -> is_Some (val st0 d) -> val st d <> None.
Proof.
  intros Hinv [v Hv]. unfold val in *. destruct (heap st0 !! d) as [i|] eqn:Hi; [|done].
  destruct (inv_heap _ Hinv d i Hi) as (i' & -> & _ & [->|(_ & w & -> & _)]); [|done].
  by destruct (t_value i).
Qed.

(** The oldest unfinished thunk has everything it waits for. *)
Lemma oldest_ready st n t :
  inv st -> prog !! n = Some t -> (forall k u, (k < n)%nat -> prog !! k = Some u -> val st u <> None) ->
  forall i d, heap st0 !! t = Some i -> d ∈ t_deps i -> val st d <> None.
Proof.
  intros Hinv Ht Hold i d Hi Hd. destruct (dep_before n t i d Ht Hi Hd) as [(k & ? & ?)|?]; [by eapply Hold|].
  by apply inv_known.
Qed.

(** A pass that runs nothing offers the oldest unfinished thunk. *)
Lemma step_loop_oldest n t ts st p r st' :
  inv st -> prog !! n = Some t -> may_run st n t -> val st t = None ->
  (forall i d, heap st0 !! t = Some i -> d ∈ t_deps i -> val st d <> None) ->
  step_loop (t :: ts) RangeMap.new [] false st = Ok (p, r, st') -> p = true \/ t ∈ r.
Proof.
  intros Hinv Ht Hmay Hvt Hdeps Hl. pose proof (list_elem_of_lookup_2 _ _ _ Ht) as Hin.
  destruct (prog_pending Hprog t Hin) as (i & c & Hi & Hc).
  destruct (inv_heap _ Hinv t i Hi) as (i' & Hi' & (E1 & E2 & E3 & E4) & _).
  destruct (step_total st n t Hinv Ht Hmay) as (b & st1 & Hst & Hb). rewrite (Hb Hvt Hdeps) in Hst.
  cbn [step_loop] in Hl. unfold deref in Hl. rewrite Hi' in Hl. cbn [bind] in Hl. rewrite E3, E4 in Hl.
  destruct (t_address i) as [[a l]|] eqn:Ea.
  - assert (a ∈ t_deps i) as Had by (by eapply prog_address).
    destruct (prog_deps Hprog t i a Hin Hi) as [Hah Hor]; [done|].
    rewrite (try_get_total st a Hinv Hah Hor) in Hl. cbn [bind] in Hl.
    destruct (val st a) as [v|] eqn:Ev; [|by destruct (Hdeps i a Hi Had)].
    apply bind_Ok in Hl as (len & _ & (hi & _ & (al & Hal & Hl)%bind_Ok)%bind_Ok).
    assert (al = []) as -> by (unfold RangeMap.range, range_bounds in Hal; simpl in Hal; by injection Hal as <-).
    apply bind_Ok in Hl as (pend & _ & Hl).
    destruct (t_atomicity i); try (injection Hl as <- <- <-; right; set_solver).
    + left. rewrite Hst in Hl. cbn [bind] in Hl. apply step_loop_progress in Hl as [Hp _]. by apply Hp.
    + right. apply step_loop_progress in Hl as [_ Hr]. apply Hr. set_solver.
    + right. apply step_loop_progress in Hl as [_ Hr]. apply Hr. set_solver.
  - left. rewrite Hst in Hl. cbn [bind] in Hl. apply step_loop_progress in Hl as [Hp _]. by apply Hp.
Qed.

(** A pass that runs something finishes a thunk of the queue. *)
Lemma step_finishes t st st' : step t st = Ok (true, st') -> val st t = None /\ val st' t <> None.
Proof.
  intros (i & args & c & v & w & Hi & _ & Hc & _ & _ & ->)%step_true.
  rewrite (val_insert _ _ _ _ _ _ _ Hi), decide_True by done. split; [|done].
  unfold val. by rewrite Hi, Hc.
Qed.

Lemma step_loop_finishes ts pend res prg st p r st' :
  step_loop ts pend res prg st = Ok (p, r, st') ->
  (forall u, val st' u = None -> val st u = None) /\
  (p = true -> prg = true \/ exists u, u ∈ ts /\ val st u = None /\ val st' u <> None).
Proof.
  revert pend res prg st. induction ts as [|t ts IH]; intros pend res prg st; cbn [step_loop].
  { intros [= -> _ ->]. split; [done|by left]. }
  intros (i & _ & H)%bind_Ok.
  assert (forall pend', (let! (b, st) := step t st in step_loop ts pend' res (prg || b) st) = Ok (p, r, st') ->
    (forall u, val st' u = None -> val st u = None) /\
    (p = true -> prg = true \/ exists u, u ∈ t :: ts /\ val st u = None /\ val st' u <> None)) as Hrun.
  { intros pend' ([b st1] & Hst & [H1 H2]%IH)%bind_Ok.
    assert (forall u, val st1 u = None -> val st u = None) as Hm by (intros u; by eapply step_val_mono).
    split; [auto|]. intros Hp. destruct (H2 Hp) as [Hb|(u & Hu & Hn & Hs)].
    - destruct prg; [by left|]. simpl in Hb. subst b. apply step_finishes in Hst as [Hn Hs].
      right. exists t. split_and!; [by left|done|auto].
    - right. exists u. split_and!; [by right|auto|done]. }
  assert (forall pend' res', step_loop ts pend' res' prg st = Ok (p, r, st') ->
    (forall u, val st' u = None -> val st u = None) /\
    (p = true -> prg = true \/ exists u, u ∈ t :: ts /\ val st u = None /\ val st' u <> None)) as Hskip.
  { intros pend' res' [H1 H2]%IH. split; [done|]. intros Hp.
    destruct (H2 Hp) as [?|(u & ? & ?)]; [by left|]. right. exists u. split; [by right|done]. }
  destruct (t_address i) as [[a l]|]; [|by eapply Hrun].
  apply bind_Ok in H as (o & _ & H). destruct o as [v|]; [|injection H as -> _ ->; split; [done|by left]].
  apply bind_Ok in H as (len & _ & (hi & _ & (al & _ & H)%bind_Ok)%bind_Ok).
  destruct al; [|by eapply Hskip]. apply bind_Ok in H as (pend' & _ & H).
  destruct (t_atomicity i); try (injection H as -> _ ->; split; [done|by left]);
    [by eapply Hrun|by eapply Hskip..].
Qed.

(** The number of thunks still to run. *)
Definition unfinished st : nat := length (filter (fun t => val st t = None) prog).

Lemma unfinished_lt st st' u :
  (forall u, val st' u = None -> val st u = None) -> u ∈ prog -> val st u = None -> val st' u <> None ->
  (unfinished st' < unfinished st)%nat.
Proof. intros Hmono. by apply (filter_length_lt (fun t => val st' t = None) (fun t => val st t = None) Hmono). Qed.

Lemma unfinished_0 st : unfinished st = 0%nat <-> forall t, t ∈ prog -> val st t <> None.
Proof.
  unfold unfinished. rewrite length_zero_iff_nil. split.
  - intros He t Ht Hn. apply (elem_of_nil (A := Z) t). rewrite <- He. by apply list_elem_of_filter.
  - intros H. destruct (filter _ _) as [|x l] eqn:E; [done|]. destruct (H x).
    + eapply elem_of_sublist; [|apply (sublist_filter (fun t => val st t = None))]. rewrite E. by left.
    + assert (x ∈ filter (fun t => val st t = None) prog) as [? _]%list_elem_of_filter; [|done].
      rewrite E. by left.
Qed.
(** A pass that runs nothing offers a thunk that can be run, if one is left. *)
Lemma queue_offers vis df st r df' :
  uniform -> ooo st -> queue_ok vis df st -> step_pure df [] st = Ok (false, r, df', st) ->
  (exists t, t ∈ vis /\ val st t = None) ->
  exists t st'', t ∈ r /\ step t st = Ok (true, st'') /\ (unfinished st'' < unfinished st)%nat.
Proof.
  intros Huni Hooo Hq Hst (t0 & Hin0 & Hn0). pose proof (ooo_inv st Hooo) as Hinv.
  pose proof Hq as (Hvis & _). pose proof (prefix_sublist _ _ Hvis) as Hvs.
  destruct (step_pure_ok vis df st Huni Hooo Hq) as (p & r' & df1 & st1 & ts & Hst1 & _ & Hq1 & _ & _ & Hdf & Hts & Hl).
  rewrite Hst in Hst1. injection Hst1 as <- <- <- <-.
  destruct ts as [|t ts]; [exfalso; apply (elem_of_nil t0), Hts; done|].
  destruct (proj1 (Hts t)) as [Hinv' Hn]; [by left|].
  assert (t ∈ prog) as Hin by (by eapply elem_of_sublist). pose proof Hin as [n Ht]%list_elem_of_lookup.
  assert (forall k u, (k < n)%nat -> prog !! k = Some u -> val st u <> None) as Hold.
  { intros k u Hk Hu Hnone. apply (elem_of_nil (A := Z) u).
    apply (before_in_queue (t :: ts) [] t ts n k u); [done| |done..|].
    - rewrite <- Hdf. etrans; [apply Hq1|exact Hvs].
    - apply Hts. split; [by apply (visible_before vis n k t u)|done]. }
  assert (may_run st n t) as Hmay by (intros k u Hk Hu Hnone; by destruct (Hold k u)).
  pose proof (oldest_ready st n t Hinv Ht Hold) as Hready.
  destruct (step_loop_oldest n t ts st _ _ _ Hinv Ht Hmay Hn Hready Hl) as [?|Hr]; [done|].
  destruct (step_total st n t Hinv Ht Hmay) as (b & st2 & Hs & Hb). rewrite (Hb Hn Hready) in Hs.
  exists t, st2. split_and!; [done|done|]. apply (unfinished_lt st st2 t); [|done..|].
  - intros u. by eapply step_val_mono.
  - by apply step_finishes in Hs as [_ ?].
Qed.
(** A pass that runs something leaves fewer thunks unfinished, some of which were
    in the queue. *)
Lemma pass_progress vis df st r df' st' :
  uniform -> ooo st -> queue_ok vis df st -> step_pure df [] st = Ok (true, r, df', st') ->
  (unfinished st' < unfinished st)%nat /\ df_thunks df' <> [].
Proof.
  intros Huni Hooo Hq Hst.
  destruct (step_pure_ok vis df st Huni Hooo Hq) as (b & r1 & df1 & st1 & ts & Hst1 & _ & Hq1 & _ & _ & Hdf & Hts & Hl).
  rewrite Hst in Hst1. injection Hst1 as <- <- <- <-.
  destruct (step_loop_finishes _ _ _ _ _ _ _ _ Hl) as [Hm [?|(u & Hin & Hn & Hs)]]; [done|done|]. split.
  - apply (unfinished_lt st st' u); [done| |done..].
    apply (elem_of_sublist vis prog); [by apply Hts|]. apply prefix_sublist, Hq.
  - rewrite Hdf. intros ->. by apply elem_of_nil in Hin.
Qed.

(** What a pass that runs nothing offers is in the queue and atomic; no
    computation before it in the queue could run. *)
Definition idle_before st (pre : list Z) : Prop :=
  forall u i, u ∈ pre -> heap st !! u = Some i -> t_address i = None -> step u st = Ok (false, st).

Definition offered_from st (ts : list Z) t : Prop :=
  exists pre post i, ts = pre ++ t :: post /\ heap st !! t = Some i /\ t_atomicity i <> ONone /\ idle_before st pre.

Lemma offered_cons st t ts i u :
  heap st !! t = Some i -> (t_address i = None -> step t st = Ok (false, st)) ->
  offered_from st ts u -> offered_from st (t :: ts) u.
Proof.
  intros Hi Ht (pre & post & j & -> & Hj & Ha & Hb). exists (t :: pre), post, j. split_and!; [done..|].
  intros x k [->|Hx]%elem_of_cons Hk Hn; [|by eapply Hb]. rewrite Hi in Hk. injection Hk as <-. by apply Ht.
Qed.

Lemma step_loop_offers ts pend res st r st' :
  step_loop ts pend res false st = Ok (false, r, st') ->
  forall t, t ∈ r -> t ∈ res \/ offered_from st ts t.
Proof.
  revert pend res. induction ts as [|t ts IH]; intros pend res; cbn [step_loop].
  { intros [= <- _] t Ht. by left. }
  unfold deref. destruct (heap st !! t) as [i|] eqn:Hi; cbn [bind]; [|done].
  assert (t_atomicity i <> ONone -> offered_from st (t :: ts) t) as Hhead.
  { intros Ha. exists [], ts, i. split_and!; [done..|]. by intros ? ? ?%elem_of_nil. }
  assert (forall pend', (let! (b, st) := step t st in step_loop ts pend' res b st) = Ok (false, r, st') ->
    forall u, u ∈ r -> u ∈ res \/ offered_from st (t :: ts) u) as Hrun.
  { intros pend' ([[] st1] & Hst & H)%bind_Ok.
    - by apply step_loop_progress in H as [H _]; specialize (H eq_refl).
    - pose proof (step_false _ _ _ Hst) as ->. intros u Hu. destruct (IH _ _ H u Hu) as [?|?]; [by left|].
      right. by eapply offered_cons. }
  assert (forall pend' res', t_address i <> None -> step_loop ts pend' res' false st = Ok (false, r, st') ->
    (forall u, u ∈ res' -> u ∈ res \/ (u = t /\ t_atomicity i <> ONone)) ->
    forall u, u ∈ r -> u ∈ res \/ offered_from st (t :: ts) u) as Hskip.
  { intros pend' res' Hadr H Hres u Hu. destruct (IH _ _ H u Hu) as [[?|[-> ?]]%Hres|?]; [by left|by right; apply Hhead|].
    right. by eapply offered_cons. }
  assert (Ok (false, res ++ [t], st) = Ok (false, r, st') -> t_atomicity i <> ONone ->
    forall u, u ∈ r -> u ∈ res \/ offered_from st (t :: ts) u) as Hend.
  { intros [= <- _] Ha u [Hu| ->%list_elem_of_singleton]%elem_of_app; [by left|]. right. by apply Hhead. }
  destruct (t_address i) as [[a l]|]; [|by apply Hrun].
  intros (o & _ & H)%bind_Ok. destruct o as [v|]; [|injection H as <- _; by left].
  apply bind_Ok in H as (len & _ & (hi & _ & (al & _ & H)%bind_Ok)%bind_Ok).
  destruct al; [|by apply (Hskip _ _ ltac:(done) H); left]. apply bind_Ok in H as (pend' & _ & H).
  destruct (t_atomicity i) eqn:Ea; [by apply (Hrun _ H)|..]; try by apply Hend.
  - apply (Hskip _ _ ltac:(done) H). intros u [?| ->%list_elem_of_singleton]%elem_of_app; [by left|by right].
  - apply (Hskip _ _ ltac:(done) H). intros u. destruct res; [|by left]. intros ->%list_elem_of_singleton. by right.
Qed.

(** The values of a thunk that a pass computes by itself: those known from the
    start and the computations on them. *)
Inductive computable : Z -> Prop :=
  | computable_known d : is_Some (val st0 d) -> computable d
  | computable_pure d i : d ∈ prog -> heap st0 !! d = Some i -> t_address i = None ->
      (forall e, e ∈ t_deps i -> computable e) -> computable d.

(** Computations before an offered thunk are done. *)
Lemma computable_done vis df st pre t post n d :
  ooo st -> queue_ok vis df st -> df_thunks df = pre ++ t :: post -> idle_before st pre ->
  prog !! n = Some t -> t ∈ vis -> computable d ->
  (exists k, (k < n)%nat /\ prog !! k = Some d) \/ is_Some (val st0 d) -> val st d <> None.
Proof.
  intros Hooo Hq Hdf Hidle Ht Htv. pose proof (ooo_inv st Hooo) as Hinv. pose proof Hq as (Hvis & Hsub & Hall).
  induction 1 as [d Hd|d i Hin Hi Ha _ IH]; intros Hor; [by apply inv_known|].
  destruct Hor as [(k & Hk & Hkd)|?]; [|by apply inv_known]. intros Hn.
  assert (d ∈ pre) as Hpre.
  { apply (before_in_queue (pre ++ t :: post) pre t post n k d eq_refl); [|done..|]; rewrite <- Hdf.
    - etrans; [exact Hsub|by apply prefix_sublist].
    - apply Hall; [|done]. by apply (visible_before vis n k t d). }
  destruct (inv_heap _ Hinv d i Hi) as (i' & Hi' & (_ & _ & E3 & _) & _).
  assert (step d st = Ok (false, st)) as Hf by (eapply Hidle; [done|exact Hi'|congruence]).
  destruct (step_total st k d Hinv Hkd) as (b & st' & Hs & Hb).
  { intros m u _ _ _ b. unfold touches at 1, access. by rewrite Hi, Ha. }
  rewrite Hf in Hs. injection Hs as <- <-. enough (false = true) by done. apply Hb; [done|].
  intros j e Hj He. rewrite Hi in Hj. injection Hj as <-. apply IH; [done|].
  destruct (dep_before k d i e Hkd Hi He) as [(m & ? & ?)|?]; [left; exists m; split; [lia|done]|by right].
Qed.
(** The operands of the operations that may be offered do not wait for memory. *)
Definition atomics_ready : Prop :=
  forall t i d, t ∈ prog -> heap st0 !! t = Some i -> t_atomicity i <> ONone -> d ∈ t_deps i -> computable d.

Lemma offered_runs vis df st r df' t :
  uniform -> atomics_ready -> pipe vis df st -> step_pure df [] st = Ok (false, r, df', st) -> t ∈ r ->
  t ∈ vis /\ t ∈ df_thunks df' /\
  exists st', step t st = Ok (true, st') /\ pipe vis df' st' /\ (unfinished st' < unfinished st)%nat.
Proof.
  intros Huni Hready Hpipe Hst Ht. destruct (pipe_ok _ _ _ Huni Hpipe) as [Hooo Hq].
  pose proof (ooo_inv st Hooo) as Hinv.
  destruct (step_pure_ok _ _ _ Huni Hooo Hq) as (b1 & r1 & df1 & st1 & ts & Hst1 & _ & Hq1 & Hr & _ & Hdf1 & Hts & Hl).
  rewrite Hst in Hst1. injection Hst1 as <- <- <- <-.
  destruct (step_loop_offers _ _ _ _ _ _ Hl t Ht) as [Hnil|(pre & post & i & Heq & Hi & Ha & Hidle')];
    [by apply elem_of_nil in Hnil|].
  assert (t ∈ ts) as Htt by (rewrite Heq; set_solver). pose proof Htt as [Hin Hn]%Hts. destruct (Hr t Ht) as (n & Hnt & Hmay).
  destruct (step_total st n t Hinv Hnt Hmay) as (b & st' & Hs & Hb).
  assert (b = true) as ->.
  { apply Hb; [done|]. intros j d Hj Hd. destruct (inv_heap _ Hinv t j Hj) as (i' & Hi' & (_ & _ & _ & E4) & _).
    rewrite Hi in Hi'. injection Hi' as <-. rewrite E4 in Ha.
    apply (computable_done vis df' st pre t post n d Hooo Hq1); [by rewrite Hdf1|done|done|done| |].
    - eapply Hready; [by eapply list_elem_of_lookup_2|done..].
    - by eapply dep_before. }
  split; [done|]. split; [by rewrite Hdf1|]. exists st'. split_and!; [done|by eapply pipe_pick|].
  apply (unfinished_lt st st' t); [intros u; by eapply step_val_mono|by eapply list_elem_of_lookup_2|done|by apply step_finishes in Hs as [_ ?]].
Qed.

(** Thunks decoded while tracing is off. *)
Definition untraced : Prop := forall t i, t ∈ prog -> heap st0 !! t = Some i -> t_tracing i = false.

Lemma ooo_tracing st t i :
  ooo st -> heap st0 !! t = Some i -> exists i', heap st !! t = Some i' /\ t_tracing i' = t_tracing i.
Proof.
  intros Ho Hi. induction Ho as [|st st' _ (i' & Hi' & Ht) Hs|st n u st' _ (i' & Hi' & Ht) _ _ Hs]; [by exists i| |].
  - assert ((set_wakers [] <$> heap st') !! t = Some (set_wakers [] i')) as H
      by (by rewrite <- (proj1 Hs), lookup_fmap, Hi').
    rewrite lookup_fmap in H. destruct (heap st' !! t) as [j|]; [|done]. exists j. split; [done|].
    injection H as _ _ _ _ _ _ _ E. congruence.
  - apply step_true in Hs as (j & args & c & v & w & Hj & _ & _ & _ & _ & ->). simpl.
    destruct (decide (t = u)) as [->|]; [|exists i'; by rewrite lookup_insert_ne].
    rewrite lookup_insert_eq. eexists. split; [done|]. simpl. congruence.
Qed.

Lemma offers_untraced vis df st r df' :
  uniform -> pipe vis df st -> step_pure df [] st = Ok (false, r, df', st) -> untraced ->
  existsb (thunk_tracing st) r = false.
Proof.
  intros Huni Hpipe Hst Hunt. destruct (pipe_ok _ _ _ Huni Hpipe) as [Hooo Hq].
  destruct (step_pure_ok _ _ _ Huni Hooo Hq) as (b1 & r1 & df1 & st1 & ts & Hst1 & _ & _ & Hr & _).
  rewrite Hst in Hst1. injection Hst1 as <- <- <- <-.
  apply not_true_is_false. intros (t & Ht & Htr)%existsb_exists. apply list_elem_of_In in Ht.
  destruct (Hr t Ht) as (n & Hn & _). apply list_elem_of_lookup_2 in Hn.
  destruct (prog_pending Hprog t Hn) as (i & _ & Hi & _). destruct (ooo_tracing st t i Hooo Hi) as (i' & Hi' & He).
  unfold thunk_tracing in Htr. rewrite Hi' in Htr. simpl in Htr. by rewrite He, (Hunt t i Hn Hi) in Htr.
Qed.
End Order.

Section Claims.
Context {BV : Bitvec} {X : Type}.
Implicit Types (st stn : State X) (prog : list Z).

(** C4: [step_pure] runs the thunks of a thread out of order, yet nobody can
    tell: if the accesses of the thread are to the same bytes or to disjoint
    ones, every thunk that is finished has the value it has when the thunks are
    run one by one in program order; and once all are finished, every byte of
    memory and the rest of the process are as after the run in program order. *)
Theorem pipeline_refines_program_order st0 stn prog vis df st :
  program st0 prog stn -> uniform st0 prog stn -> pipe st0 prog vis df st ->
  (forall t v, t ∈ prog -> val st t = Some v -> val stn t = Some v) /\
  ((forall t, t ∈ prog -> val st t <> None) ->
    (forall t, t ∈ prog -> val st t = val stn t) /\
    (forall b, byte_at (mem st) b = byte_at (mem stn) b) /\
    w_rest (world st) = w_rest (world stn)).
Proof.
  intros Hp Hu [Hooo _]%(pipe_ok _ _ _ Hp _ _ _ Hu). split.
  - intros t v Ht. destruct (prog_pending _ _ _ Hp t Ht) as (i & c & Hi & _).
    apply (inv_val st0 prog stn Hp st); [by apply (ooo_inv _ _ _ Hp)|by exists i].
  - by apply (ooo_final st0 prog stn Hp).
Qed.

(** C5: The queue never gets stuck. In every state a thread reaches, a pass of
    [step_pure] succeeds (no assertion, index or overflow panics). If the pass
    reports progress then fewer thunks are unfinished than before. If it does
    not, it changed nothing, and while a thunk is unfinished it offers one
    whose [step] succeeds, which also leaves fewer unfinished. *)
Theorem pipeline_no_stall st0 stn prog vis df st :
  program st0 prog stn -> uniform st0 prog stn -> pipe st0 prog vis df st ->
  exists p r df' st', step_pure df [] st = Ok (p, r, df', st') /\
    (p = true -> (unfinished prog st' < unfinished prog st)%nat) /\
    (p = false -> st' = st /\
      ((exists t, t ∈ vis /\ val st t = None) ->
       exists t st'', t ∈ r /\ step t st' = Ok (true, st'') /\ (unfinished prog st'' < unfinished prog st)%nat)).
Proof.
  intros Hp Hu [Hooo Hq]%(pipe_ok _ _ _ Hp _ _ _ Hu).
  destruct (step_pure_ok _ _ _ Hp vis df st Hu Hooo Hq) as (p & r & df' & st' & ts & Hst & _ & _ & _ & Hf & Hdf & Hts & Hl).
  exists p, r, df', st'. split_and!; [done| |].
  - intros ->. by apply (pass_progress _ _ _ Hp vis df st r df' st' Hu Hooo Hq Hst).
  - intros ->. specialize (Hf eq_refl). subst st'. split; [done|]. intros Hex.
    by apply (queue_offers _ _ _ Hp vis df st r df' Hu Hooo Hq).
Qed.
End Claims.

(** ** A thread with two stores, a load and an addition *)

Definition addr_value (x : Z) : Value := MkValue [x; 0; 0; 0; 0; 0; 0; 0] 64.

(** Constants: the addresses 200, 201, 202 and the values 7 and 7, 7. *)
Definition sample_consts : State unit :=
  foldr (fun tv st => thunk_constant tv.1 tv.2 st) (MkState ∅ (MkWorld mem_new tt) [])
    [(1, addr_value 200); (2, addr_value 201); (3, addr_value 202); (4, MkValue [7] 8);
     (5, MkValue [7; 7] 16)].

Definition Decoder : Type := DataFlow * State unit -> res (DataFlow * State unit).

Definition decoded (o : res (option (Z * DataFlow * State unit))) : res (DataFlow * State unit) :=
  let! r := o in match r with Some (_, df, st) => Ok (df, st) | None => Panic Todo end.
Definition d_store (t address value bits : Z) (o : Ordering) : Decoder := fun x =>
  decoded (store (fun _ => true) t [] address (MkLayout bits 8) value o x.1 x.2).
Definition d_load (t address bits : Z) (o : Ordering) : Decoder := fun x =>
  decoded (load (fun _ => true) t [] address (MkLayout bits 8) o x.1 x.2).
Definition d_pure (t : Z) (deps : list Z) (c : Compute unit) : Decoder := fun x =>
  decoded (thunk (fun _ => true) t [] deps c x.1 x.2).

Definition decode_from (x : DataFlow * State unit) (ds : list Decoder) : DataFlow * State unit :=
  match foldM (fun x d => d x) x ds with Ok y => y | Panic _ => x end.
Definition decode_all (ds : list Decoder) : DataFlow * State unit := decode_from (df_new 0, sample_consts) ds.

Definition sample_add : Compute unit := fun _ args w =>
  let! x := index args 0 in
  let! v := from_int 8 (as_u64 x + 1) in
  Ok (v, w).

Definition ended (ts : list Z) (st : State unit) : State unit :=
  match in_order ts st with Ok st => st | Panic _ => st end.

(** [*200 = 7] (relaxed); [*201 = 7]; [x = *200] (relaxed); [x + 1]. *)
Definition sample_prog : list Z := [10; 11; 12; 13].
Definition sample_code : DataFlow * State unit :=
  decode_all [d_store 10 1 4 8 Relaxed; d_store 11 2 4 8 ONone; d_load 12 1 8 Relaxed; d_pure 13 [12] sample_add].
Definition sample_df : DataFlow := sample_code.1.
Definition sample_st0 : State unit := sample_code.2.
Definition sample_stn : State unit := ended sample_prog sample_st0.

Definition value_ok (v : Value) : bool :=
  (0 <=? bits v) && (bits v + 7 <? 2 ^ 64) && (zlen (imp v) =? (bits v + 7) / 8) &&
  forallb (fun b => (0 <=? b) && (b <? 256)) (imp v).

Lemma value_ok_wf v : value_ok v = true -> wf v.
Proof.
  unfold value_ok, wf. rewrite !andb_true_iff, Z.leb_le, Z.ltb_lt, Z.eqb_eq, forallb_forall.
  intros [[[? ?] ?] Hby]. split_and!; [done..|]. apply List.Forall_forall. intros b Hb%Hby.
  apply andb_true_iff in Hb as [?%Z.leb_le ?%Z.ltb_lt]. by split.
Qed.

Definition values_ok (st : State unit) : bool :=
  forallb (fun p : Z * ThunkInner unit => match t_value p.2 with Ready v => value_ok v | _ => true end)
    (map_to_list (heap st)).

Lemma values_ok_wf st t v : values_ok st = true -> val st t = Some v -> wf v.
Proof.
  unfold values_ok, val. rewrite forallb_forall. intros H Hv.
  destruct (heap st !! t) as [i|] eqn:E; [|done].
  specialize (H (t, i)). rewrite <- list_elem_of_In in H. apply elem_of_map_to_list in E.
  specialize (H E). simpl in H. destruct (t_value i); try done. injection Hv as <-. by apply value_ok_wf.
Qed.

Ltac each_thunk H :=
  repeat (apply elem_of_cons in H as [->|H]); [..|by apply elem_of_nil in H].

Lemma sample_add_pure th args : pure_run (sample_add th args).
Proof.
  intros w v w' (x & Hx & (y & Hy & [= <- <-])%bind_Ok)%bind_Ok. split; [done|]. intros w2.
  unfold sample_add. by rewrite Hx; cbn [bind]; rewrite Hy.
Qed.

(** What the sample thunks are. *)
Inductive op_kind (i : ThunkInner unit) : Compute unit -> Prop :=
  | kind_pure c : t_address i = None -> (forall th args, pure_run (c th args)) -> op_kind i c
  | kind_load a l th o : t_address i = Some (a, l) -> t_deps i = [a] -> 0 <= Layout.bits l ->
      op_kind i (load_compute th l o)
  | kind_store a l v th o : t_address i = Some (a, l) -> t_deps i = [a; v] ->
      op_kind i (store_compute th o).

Definition known_in (st : State unit) (prog : list Z) (d : Z) : bool :=
  bool_decide (is_Some (heap st !! d)) && (bool_decide (d ∈ prog) || bool_decide (is_Some (val st d))).

Definition deps_ok (st : State unit) (prog : list Z) (t : Z) : bool :=
  match heap st !! t with
  | Some i => forallb (known_in st prog) (t_deps i) &&
      match t_address i with Some (a, _) => bool_decide (a ∈ t_deps i) | None => true end
  | None => true
  end.

Lemma deps_ok_spec st prog t i :
  deps_ok st prog t = true -> heap st !! t = Some i ->
  (forall d, d ∈ t_deps i -> is_Some (heap st !! d) /\ (d ∈ prog \/ is_Some (val st d))) /\
  (forall a l, t_address i = Some (a, l) -> a ∈ t_deps i).
Proof.
  unfold deps_ok. intros H Hi. rewrite Hi, andb_true_iff, forallb_forall in H. destruct H as [H1 H2]. split.
  - intros d Hd%list_elem_of_In%H1. unfold known_in in Hd.
    by rewrite andb_true_iff, orb_true_iff, !bool_decide_eq_true in Hd.
  - intros a l Ha. rewrite Ha in H2. by apply bool_decide_eq_true in H2.
Qed.

(** The range of an access fits, and a store has the size of its value. *)
Definition size_ok (st0 stn : State unit) (t : Z) : bool :=
  match heap st0 !! t with
  | Some i =>
      match t_address i with
      | Some (a, l) =>
          match val stn a, Layout.bytes l with
          | Some v, Ok n => bool_decide (add64 (as_u64 v) n = Ok (as_u64 v + n)) &&
              match t_deps i with
              | [_; x] => match val stn x with Some w => n =? zlen (imp w) | None => true end
              | _ => true
              end
          | None, _ => true
          | _, _ => false
          end
      | None => true
      end
  | None => true
  end.

Lemma size_ok_spec st0 stn t i a l v :
  size_ok st0 stn t = true -> heap st0 !! t = Some i -> t_address i = Some (a, l) -> val stn a = Some v ->
  exists n, Layout.bytes l = Ok n /\ add64 (as_u64 v) n = Ok (as_u64 v + n) /\
    (forall b, touches st0 stn t b <-> in_access (as_u64 v) n b) /\
    (forall x w, t_deps i = [a; x] -> val stn x = Some w -> n = zlen (imp w)).
Proof.
  unfold size_ok, touches, access. intros H Hi Ha Hv. rewrite Hi, Ha, Hv in *.
  destruct (Layout.bytes l) as [n|]; [|done]. apply andb_true_iff in H as [H1%bool_decide_eq_true H2].
  exists n. split_and!; [done..|]. intros x w Hd Hw. rewrite Hd, Hw in H2. by apply Z.eqb_eq in H2.
Qed.

Lemma kind_local st0 stn t i c args :
  size_ok st0 stn t = true -> (forall d v, val stn d = Some v -> wf v) -> heap st0 !! t = Some i -> op_kind i c ->
  Forall2 (fun d v => val stn d = Some v) (t_deps i) args -> local_to (touches st0 stn t) (c (t_thread i) args).
Proof.
  intros Hs Hwf Hi Hk Hargs. destruct Hk as [c Ha Hp|a l th o Ha Hd Hl|a l x th o Ha Hd].
  - by apply pure_local.
  - rewrite Hd in Hargs. inversion Hargs as [|? v ? ? Hv Hnil]; subst. inversion Hnil; subst.
    destruct (size_ok_spec _ _ _ _ _ _ _ Hs Hi Ha Hv) as (n & Hn & _ & Ht & _).
    eapply local_to_iff; [intros b; symmetry; apply Ht|]. by apply load_local.
  - rewrite Hd in Hargs. inversion Hargs as [|? v ? l1 Hv Hl1]; subst.
    inversion Hl1 as [|? w ? l2 Hw Hnil]; subst. inversion Hnil; subst.
    destruct (size_ok_spec _ _ _ _ _ _ _ Hs Hi Ha Hv) as (n & Hn & _ & Ht & Hx).
    rewrite (Hx x w Hd Hw) in Ht. eapply local_to_iff; [intros b; symmetry; apply Ht|].
    apply store_local. by destruct (Hwf x w Hw) as (_ & _ & _ & ?).
Qed.

(** A decoded program is one, with what can be computed of it computed. *)
Lemma decoded_program st0 stn prog :
  bool_decide (NoDup prog) = true ->
  (forall t, t ∈ prog -> exists i c, heap st0 !! t = Some i /\ t_value i = Pending c /\ op_kind i c) ->
  forallb (deps_ok st0 prog) prog = true -> mem_ok (w_memory (world st0)) ->
  in_order prog st0 = Ok stn -> values_ok stn = true -> forallb (size_ok st0 stn) prog = true ->
  program st0 prog stn.
Proof.
  rewrite bool_decide_eq_true, !forallb_forall. intros H1 H2 H3 H4 H5 H6 H7.
  assert (forall t, t ∈ prog -> size_ok st0 stn t = true) as Hs by (intros t Ht; apply H7; by apply list_elem_of_In).
  assert (forall t, t ∈ prog -> deps_ok st0 prog t = true) as Hd by (intros t Ht; apply H3; by apply list_elem_of_In).
  constructor; [done| |intros t i d Ht Hi; by apply (deps_ok_spec _ _ _ _ (Hd t Ht) Hi)
    |intros t i a l Ht Hi; by apply (deps_ok_spec _ _ _ _ (Hd t Ht) Hi)|done|done|..].
  - intros t Ht. destruct (H2 t Ht) as (i & c & Hi & Hc & _). by exists i, c.
  - intros t i a l v Ht Hi Ha Hv. destruct (size_ok_spec _ _ _ _ _ _ _ (Hs t Ht) Hi Ha Hv) as (n & ? & ? & _). by exists n.
  - intros t i c args Ht Hi Hc. destruct (H2 t Ht) as (j & d & Hj & Hdc & Hk).
    assert (j = i) as -> by congruence. assert (d = c) as -> by congruence.
    apply kind_local; [by apply Hs| |done|done]. intros x v. by apply values_ok_wf.
Qed.

Ltac thunk_kind :=
  eexists _, _; (split; [reflexivity|]); (split; [reflexivity|]);
  first [by eapply kind_store | eapply kind_load; [done|done|simpl; lia]
        | apply kind_pure; [done|intros ? ?; apply sample_add_pure]].
Ltac prove_program :=
  apply decoded_program;
  [ vm_compute; reflexivity
  | let t := fresh "t" in let Ht := fresh in intros t Ht; each_thunk Ht; thunk_kind
  | vm_compute; reflexivity | apply mem_new_ok | vm_compute; reflexivity.. ].

Lemma sample_program : program sample_st0 sample_prog sample_stn.
Proof. prove_program. Qed.

Lemma sample_access t :
  t ∈ sample_prog -> access sample_st0 sample_stn t ∈ [Some (200, 1); Some (201, 1); None].
Proof.
  intros Ht.
  assert (forall o, bool_decide (o ∈ [Some (200, 1); Some (201, 1); None]) = true ->
    o ∈ [Some (200, 1); Some (201, 1); None]) as Hdec by (by intros o ?%bool_decide_eq_true).
  each_thunk Ht; apply Hdec; vm_compute; reflexivity.
Qed.

Lemma sample_uniform : uniform sample_st0 sample_prog sample_stn.
Proof.
  intros t u b Ht%sample_access Hu%sample_access. unfold touches. revert Ht Hu.
  generalize (access sample_st0 sample_stn t) (access sample_st0 sample_stn u).
  intros x y Hx Hy. each_thunk Hx; each_thunk Hy; done || lia.
Qed.

(** A pass, and then the operation [t] if it was offered. *)
Definition round (t : option Z) (x : DataFlow * State unit) : option (DataFlow * State unit) :=
  match step_pure x.1 [] x.2, t with
  | Ok (_, r, df, st), None => Some (df, st)
  | Ok (_, r, df, st), Some t =>
      if bool_decide (t ∈ r) then match step t st with Ok (true, st) => Some (df, st) | _ => None end else None
  | Panic _, _ => None
  end.

Fixpoint rounds (ts : list (option Z)) (x : DataFlow * State unit) : option (DataFlow * State unit) :=
  match ts with [] => Some x | t :: ts => match round t x with Some x => rounds ts x | None => None end end.

Lemma rounds_pipe st0 prog ts x y :
  pipe st0 prog prog x.1 x.2 -> rounds ts x = Some y -> pipe st0 prog prog y.1 y.2.
Proof.
  revert x. induction ts as [|t ts IH]; intros x Hx; simpl; [by intros [= <-]|].
  destruct (round t x) as [z|] eqn:E; [|done]. apply IH. unfold round in E.
  destruct (step_pure x.1 [] x.2) as [[[[p r] df] st]|] eqn:Es; [|done].
  destruct t as [t|]; [|injection E as <-; by eapply pipe_pass].
  destruct (bool_decide_reflect (t ∈ r)); [|done].
  destruct (step t st) as [[[] st2]|] eqn:Et; [|done..]. injection E as <-. by eapply pipe_pick.
Qed.

(** Two passes with a choice, and the passes that find nothing left. *)
Definition sample_rounds : list (option Z) := [None; Some 10; Some 12; None].
Definition sample_end : DataFlow * State unit :=
  match rounds sample_rounds (sample_df, sample_st0) with Some x => x | None => (sample_df, sample_st0) end.

Lemma sample_start_pipe : pipe sample_st0 sample_prog sample_prog sample_df sample_st0.
Proof. apply pipe_decoded; [done|]. vm_compute. reflexivity. Qed.

Lemma sample_end_pipe : pipe sample_st0 sample_prog sample_prog sample_end.1 sample_end.2.
Proof.
  unfold sample_end. destruct (rounds sample_rounds (sample_df, sample_st0)) as [x|] eqn:E.
  - exact (rounds_pipe _ _ _ (sample_df, sample_st0) _ sample_start_pipe E).
  - apply sample_start_pipe.
Qed.

Definition done_all (ts : list Z) (st : State unit) : bool :=
  forallb (fun t => match val st t with Some _ => true | None => false end) ts.

Lemma done_all_spec ts st t : done_all ts st = true -> t ∈ ts -> val st t <> None.
Proof.
  unfold done_all. rewrite forallb_forall. intros H Ht%list_elem_of_In%H. by destruct (val st t).
Qed.

Lemma sample_end_done t : t ∈ sample_prog -> val sample_end.2 t <> None.
Proof. apply done_all_spec. vm_compute. reflexivity. Qed.

Lemma pipeline_refines_program_order_witness :
  (forall t, t ∈ sample_prog -> val sample_end.2 t = val sample_stn t) /\
  val sample_stn 13 = Some (MkValue [8] 8) /\ byte_at (mem sample_end.2) 201 = 7.
Proof.
  split; [|split; vm_compute; reflexivity].
  exact (proj1 (proj2 (pipeline_refines_program_order _ _ _ _ _ _ sample_program sample_uniform sample_end_pipe)
                  sample_end_done)).
Defined.

Lemma pipeline_no_stall_witness :
  exists p r df' st', step_pure sample_df [] sample_st0 = Ok (p, r, df', st') /\
    (p = true -> (unfinished sample_prog st' < unfinished sample_prog sample_st0)%nat) /\
    (p = false -> st' = sample_st0 /\
      ((exists t, t ∈ sample_prog /\ val sample_st0 t = None) ->
       exists t st'', t ∈ r /\ step t st' = Ok (true, st'') /\
         (unfinished sample_prog st'' < unfinished sample_prog sample_st0)%nat)).
Proof.
  exact (pipeline_no_stall _ _ _ _ _ _ sample_program sample_uniform sample_start_pipe).
Defined.

(** ** Where the queue departs from program order *)

Definition alias_prog : list Z := [10; 11; 12].
Definition alias_code : DataFlow * State unit :=
  decode_all [d_store 10 1 5 16 Relaxed; d_store 11 2 5 16 ONone; d_load 12 3 8 ONone].
Definition alias_stn : State unit := ended alias_prog alias_code.2.

Lemma alias_program : program alias_code.2 alias_prog alias_stn.
Proof. prove_program. Qed.

Definition alias_end : DataFlow * State unit := default alias_code (rounds [None] alias_code).

Lemma alias_end_pipe : pipe alias_code.2 alias_prog alias_prog alias_end.1 alias_end.2.
Proof.
  assert (pipe alias_code.2 alias_prog alias_prog alias_code.1 alias_code.2) as H
    by (apply pipe_decoded; [done|vm_compute; reflexivity]).
  unfold alias_end. destruct (rounds [None] alias_code) as [x|] eqn:E; [|done].
  exact (rounds_pipe _ _ _ alias_code _ H E).
Qed.

(** Without the condition on the accesses the values differ ([Order] has the
    general statement, [skipped_access_overtaken]): a two-byte store at 200 waits
    to be chosen, a two-byte store at 201 is skipped for it, and a load of byte
    202, which only the second store writes, then runs at once and reads 0. In
    program order it reads 7. *)
Example alias_reads_stale :
  program alias_code.2 alias_prog alias_stn /\ pipe alias_code.2 alias_prog alias_prog alias_end.1 alias_end.2 /\
  val alias_end.2 12 = Some (MkValue [0] 8) /\ val alias_stn 12 = Some (MkValue [7] 8).
Proof.
  split; [apply alias_program|]. split; [apply alias_end_pipe|]. split; vm_compute; reflexivity.
Qed.

Definition offers (x : DataFlow * State unit) : list Z :=
  match step_pure x.1 [] x.2 with Ok (_, r, _, _) => r | Panic _ => [] end.

(** An acquire operation that aliases an earlier pending one is skipped
    before its ordering is looked at, so the operations after it are offered
    before it has run; without the earlier operation it is offered alone. *)
Theorem aliased_acquire_bypassed :
  let acquire := [d_load 11 1 8 Acquire; d_load 12 2 8 Relaxed] in
  offers (decode_all acquire) = [11] /\
  offers (decode_all (d_store 10 1 4 8 Relaxed :: acquire)) = [10; 12].
Proof. split; vm_compute; reflexivity. Qed.
