(* ===== verification/Order.v ===== *)
(** * Order: what one pass over a queue never reorders

    [Pipeline] relates a thread that runs alone to its program order. The
    theorem here is about any thread in any process: whatever the memory and
    the other threads did before, what a pass of [step_pure] runs and offers
    respects the order of the accesses to each location and the barriers. *)

From S2P Require Import Prelude RangeMap MemOrdering Layout Bitvec Value Memory Data Pipeline.

Section Order.
Context {X : Type}.
Implicit Types (st : State X) (t u : Z) (ts res : list Z) (pend : RangeMap unit).

(** What running thunks leaves alone: all of a thunk but its value and its
    wakers, and the values there are. *)
Record keeps st st' : Prop := {
  kp_thunk t i : heap st !! t = Some i -> exists i', heap st' !! t = Some i' /\
    t_address i' = t_address i /\ t_atomicity i' = t_atomicity i;
  kp_val t v : val st t = Some v -> val st' t = Some v;
  kp_code t i : heap st !! t = Some i -> exists i', heap st' !! t = Some i' /\
    t_deps i' = t_deps i /\ t_thread i' = t_thread i /\ (t_value i <> Sandbag -> t_value i' <> Sandbag)
}.

Lemma keeps_refl st : keeps st st.
Proof. split; [|done|]; intros t i Hi; by exists i. Qed.

Lemma keeps_trans st1 st2 st3 : keeps st1 st2 -> keeps st2 st3 -> keeps st1 st3.
Proof.
  intros [T1 V1 C1] [T2 V2 C2]. split; [|auto|]; intros t i Hi.
  - destruct (T1 t i Hi) as (i1 & Hi1 & <- & <-). apply (T2 t i1 Hi1).
  - destruct (C1 t i Hi) as (i1 & Hi1 & <- & <- & Hs). destruct (C2 t i1 Hi1) as (i2 & ? & ? & ? & ?).
    exists i2. split_and!; auto.
Qed.

Lemma step_keeps t st b st1 : Data.step t st = Ok (b, st1) -> keeps st st1 /\ forall u, u <> t -> val st1 u = val st u.
Proof.
  destruct b; intros Hst; [|apply step_false in Hst as ->; split; [apply keeps_refl|done]].
  apply step_true in Hst as (i & args & c & v & w & Hi & _ & Hc & _ & _ & ->). split; [split|].
  - intros u j Hj. simpl. destruct (decide (u = t)) as [->|].
    + rewrite lookup_insert_eq. eexists. split; [done|]. rewrite Hi in Hj. by injection Hj as <-.
    + rewrite lookup_insert_ne by done. by exists j.
  - intros u x Hu. rewrite (val_insert _ _ _ _ _ _ _ Hi). destruct (decide (u = t)) as [->|]; [|done].
    unfold val in Hu. by rewrite Hi, Hc in Hu.
  - intros u j Hj. simpl. destruct (decide (u = t)) as [->|].
    + rewrite lookup_insert_eq. eexists. split; [done|]. rewrite Hi in Hj. by injection Hj as <-.
    + rewrite lookup_insert_ne by done. by exists j.
  - intros u Hu. rewrite (val_insert _ _ _ _ _ _ _ Hi). by rewrite decide_False.
Qed.

(** The range a thunk accesses, with the addresses known in the end. *)
Lemma access_keeps st st1 st' t : keeps st st1 -> is_Some (heap st !! t) -> access st st' t = access st1 st' t.
Proof.
  intros [Ht _ _] [i Hi]. destruct (Ht t i Hi) as (i' & Hi' & Ha & _). unfold access. rewrite Hi, Hi'. by rewrite Ha.
Qed.

(** What a pass does with a thunk: it runs it, or offers it. *)
Definition acted st st' (res r : list Z) t : Prop :=
  (val st t = None /\ val st' t <> None) \/ exists r1, r = res ++ r1 /\ t ∈ r1.

Definition acquires (o : Ordering) : Prop := o = Acquire \/ o = AcqRel \/ o = SeqCst.

(** One turn of the loop, for the thunk at the head: it is passed over, or it is
    run or offered, and then nothing follows an acquire. *)
Inductive turn t ts pend res prg st p r st' : Prop :=
  | turn_pure i b st1 : heap st !! t = Some i -> t_address i = None -> Data.step t st = Ok (b, st1) ->
      step_loop ts pend res (prg || b) st1 = Ok (p, r, st') -> turn t ts pend res prg st p r st'
  | turn_stop i a l : heap st !! t = Some i -> t_address i = Some (a, l) ->
      r = res -> st' = st -> turn t ts pend res prg st p r st'
  | turn_skip i a l v n b : heap st !! t = Some i -> t_address i = Some (a, l) -> val st a = Some v ->
      Layout.bytes l = Ok n -> as_u64 v <= b < as_u64 v + n -> get pend b <> None ->
      step_loop ts pend res prg st = Ok (p, r, st') -> turn t ts pend res prg st p r st'
  | turn_act i a l v n pend1 res1 prg1 st1 b : heap st !! t = Some i -> t_address i = Some (a, l) -> val st a = Some v ->
      Layout.bytes l = Ok n -> (forall b, as_u64 v <= b < as_u64 v + n -> get pend b = None) -> RangeMap.insert (as_u64 v) (as_u64 v + n) tt pend = Ok pend1 ->
      ~ acquires (t_atomicity i) -> (res1 = res \/ res1 = res ++ [t]) ->
      (t_atomicity i = Release -> res1 = res \/ res = []) ->
      (st1 = st \/ Data.step t st = Ok (b, st1)) ->
      step_loop ts pend1 res1 prg1 st1 = Ok (p, r, st') -> turn t ts pend res prg st p r st'
  | turn_acquire i a l v n : heap st !! t = Some i -> t_address i = Some (a, l) -> val st a = Some v ->
      Layout.bytes l = Ok n -> (forall b, as_u64 v <= b < as_u64 v + n -> get pend b = None) ->
      acquires (t_atomicity i) -> r = res ++ [t] -> st' = st ->
      turn t ts pend res prg st p r st'.

Lemma step_loop_turn t ts pend res prg st p r st' :
  RangeMap.wf pend -> step_loop (t :: ts) pend res prg st = Ok (p, r, st') -> turn t ts pend res prg st p r st'.
Proof.
  intros Hpend. cbn [step_loop]. unfold deref. destruct (heap st !! t) as [i|] eqn:Hi; [|done]. cbn [bind].
  destruct (t_address i) as [[a l]|] eqn:Ha.
  - intros (o & Ho & H)%bind_Ok. destruct o as [v|].
    2: { injection H as -> -> ->. by eapply turn_stop. }
    apply try_get_val in Ho. apply bind_Ok in H as (n & Hn & (hi & Hhi & (al & Hal & H)%bind_Ok)%bind_Ok).
    apply chk_u_Ok in Hhi as [-> _].
    destruct (rs_range (as_u64 v) (as_u64 v + n) pend Hpend) as (ps & Hps & _ & Hin & Hall).
    rewrite Hal in Hps. injection Hps as <-. destruct al as [|[[lo hi] u] al].
    + apply bind_Ok in H as (pend1 & Hins & H).
      assert (forall b, as_u64 v <= b < as_u64 v + n -> get pend b = None) as Hfree.
      { intros b Hb. destruct (get pend b) as [u|] eqn:Hg; [|done].
        destruct (Hall b u Hb Hg) as (lo & hi & Hx & _). by apply elem_of_nil in Hx. }
      assert (forall res1 prg1 st1 b, ~ acquires (t_atomicity i) -> (res1 = res \/ res1 = res ++ [t]) ->
        (t_atomicity i = Release -> res1 = res \/ res = []) -> (st1 = st \/ Data.step t st = Ok (b, st1)) ->
        step_loop ts pend1 res1 prg1 st1 = Ok (p, r, st') -> turn t ts pend res prg st p r st') as Hact
        by (intros; by eapply (turn_act _ _ _ _ _ _ _ _ _ i a l v n)).
      destruct (t_atomicity i) eqn:Ho'.
      * apply bind_Ok in H as ([b st1] & Hst & H). apply (Hact res (prg || b) st1 b); auto. by intros [|[]].
      * apply (Hact (res ++ [t]) prg st false); auto; [by intros [|[]]|done].
      * injection H as -> <- <-. eapply turn_acquire; eauto. by left.
      * destruct res as [|x res].
        -- apply (Hact [t] prg st false); auto. by intros [|[]].
        -- apply (Hact (x :: res) prg st false); auto. by intros [|[]].
      * injection H as -> <- <-. eapply turn_acquire; eauto. right; by left.
      * injection H as -> <- <-. eapply turn_acquire; eauto. by right; right.
    + destruct (Hin lo hi u ltac:(by left)) as (? & ? & ? & Hg).
      eapply (turn_skip _ _ _ _ _ _ _ _ _ i a l v n lo); eauto; [lia|]. rewrite Hg by lia. done.
  - intros ([b st1] & Hst & H)%bind_Ok. by eapply turn_pure.
Qed.

Lemma insert_spec_get s e pend pend1 :
  RangeMap.wf pend -> RangeMap.insert s e tt pend = Ok pend1 ->
  RangeMap.wf pend1 /\ forall b, get pend1 b = if (s <=? b) && (b <? e) then Some tt else get pend b.
Proof. intros Hw Hi. destruct (rs_insert s e tt pend Hw) as (m & Hm & Hw' & Hg). rewrite Hi in Hm. injection Hm as <-. done. Qed.

Lemma acted_nothing st st' res r t : acted st st' res r t -> val st' t = val st t -> (forall r1, r = res ++ r1 -> t ∉ r1) -> False.
Proof. intros [[H1 H2]|(r1 & Hr & Ht)] Hv Hn; [congruence|by apply (Hn r1)]. Qed.

(** The loop keeps what is known, offers thunks of its list only, and changes no other. *)
Lemma loop_keeps ts pend res prg st p r st' :
  RangeMap.wf pend -> step_loop ts pend res prg st = Ok (p, r, st') ->
  keeps st st' /\ (exists r1, r = res ++ r1 /\ forall x, x ∈ r1 -> x ∈ ts) /\ (forall u, u ∉ ts -> val st' u = val st u).
Proof.
  assert (forall A (l : list A), exists r1, l = l ++ r1 /\ forall x, x ∈ r1 -> False) as Hnil.
  { intros A l. exists []. rewrite app_nil_r. split; [done|]. by intros x ?%elem_of_nil. }
  revert pend res prg st. induction ts as [|t ts IH]; intros pend res prg st Hw Hl.
  { injection Hl as -> -> ->. split_and!; [apply keeps_refl| |done]. destruct (Hnil _ r) as (r1 & ? & ?). naive_solver. }
  destruct (step_loop_turn _ _ _ _ _ _ _ _ _ Hw Hl) as
    [i b st1 Hi Ha Hst H|i a l Hi Ha -> ->|i a l v n b Hi Ha Hv Hn Hb Hg H
    |i a l v n pend1 res1 prg1 st1 b Hi Ha Hv Hn Hfree Hins Hacq Hres Hrel Hst H|i a l v n Hi Ha Hv Hn Hfree Hacq -> ->].
  - destruct (step_keeps _ _ _ _ Hst) as [K1 V1]. destruct (IH _ _ _ _ Hw H) as (K2 & (r1 & -> & Hr1) & V2).
    split_and!; [by eapply keeps_trans|exists r1; split; [done|set_solver]|].
    intros u [Hne Hu]%not_elem_of_cons. by rewrite V2, V1.
  - split_and!; [apply keeps_refl| |done]. destruct (Hnil _ res) as (r1 & ? & ?). naive_solver.
  - destruct (IH _ _ _ _ Hw H) as (K2 & (r1 & -> & Hr1) & V2).
    split_and!; [done|exists r1; split; [done|set_solver]|]. intros u [Hne Hu]%not_elem_of_cons. by apply V2.
  - destruct (insert_spec_get _ _ _ _ Hw Hins) as [Hw1 _]. destruct (IH _ _ _ _ Hw1 H) as (K2 & (r1 & -> & Hr1) & V2).
    assert (keeps st st1 /\ forall u, u <> t -> val st1 u = val st u) as [K1 V1].
    { destruct Hst as [->|Hst]; [split; [apply keeps_refl|done]|by apply (step_keeps _ _ _ _ Hst)]. }
    split_and!; [by eapply keeps_trans| |].
    + destruct Hres as [->| ->]; [exists r1; split; [done|set_solver]|].
      exists (t :: r1). rewrite <- app_assoc. split; [done|set_solver].
    + intros u [Hne Hu]%not_elem_of_cons. by rewrite V2, V1.
  - split_and!; [apply keeps_refl| |done]. exists [t]. split; [done|set_solver].
Qed.

(** What happens to a thunk after the head, seen from the rest of the loop. *)
Lemma acted_tail h t st st1 st' res res1 r :
  acted st st' res r t -> t <> h -> val st1 t = val st t -> (res1 = res \/ res1 = res ++ [h]) -> (exists r1, r = res1 ++ r1) ->
  acted st1 st' res1 r t.
Proof.
  intros [[H1 H2]|(r1 & Hr & Ht)] Hne Hv Hres [r2 Hr2]; [left; by rewrite Hv|right].
  exists r2. split; [done|]. destruct Hres as [->| ->].
  - rewrite Hr2 in Hr. by apply app_inv_head in Hr as ->.
  - rewrite Hr2, <- app_assoc in Hr. apply app_inv_head in Hr as <-. set_solver.
Qed.

Lemma access_at st st' t i a l v n :
  heap st !! t = Some i -> t_address i = Some (a, l) -> val st' a = Some v -> Layout.bytes l = Ok n ->
  access st st' t = Some (as_u64 v, n).
Proof. intros Hi Ha Hv Hn. unfold access. by rewrite Hi, Ha, Hv, Hn. Qed.

Lemma touches_at st st' t a n b : access st st' t = Some (a, n) -> touches st st' t b <-> a <= b < a + n.
Proof. unfold touches. by intros ->. Qed.

(** The head is not met again. *)
Lemma acted_head h ts pend res prg st p r st' :
  RangeMap.wf pend -> h ∉ ts -> step_loop ts pend res prg st = Ok (p, r, st') -> ~ acted st st' res r h.
Proof.
  intros Hw Hh Hl Ha. destruct (loop_keeps _ _ _ _ _ _ _ _ Hw Hl) as (_ & (r1 & -> & Hr1) & Hv).
  eapply acted_nothing; [exact Ha|by apply Hv|]. intros r2 ->%app_inv_head Hx. by apply Hh, Hr1.
Qed.

Lemma acted_stop st res t : ~ acted st st res res t.
Proof.
  intros [[H1 H2]|(r1 & Hr & Ht)]; [done|]. rewrite <- (app_nil_r res) in Hr at 1.
  apply app_inv_head in Hr as <-. by apply elem_of_nil in Ht.
Qed.

Lemma acted_acquire st res h t : acted st st res (res ++ [h]) t -> t = h.
Proof.
  intros [[H1 H2]|(r1 & Hr & Ht)]; [done|]. apply app_inv_head in Hr as <-. by apply list_elem_of_singleton in Ht.
Qed.

(** The rest of the loop, from the state it starts in. *)
Lemma rest_starts h st st1 b : (st1 = st \/ Data.step h st = Ok (b, st1)) ->
  keeps st st1 /\ forall u, u <> h -> val st1 u = val st u.
Proof. intros [->|Hst]; [split; [apply keeps_refl|done]|by apply (step_keeps _ _ _ _ Hst)]. Qed.

(** What is run or offered has a known address and was free of everything before it. *)
Definition free_in st st' pend t : Prop :=
  exists a n, access st st' t = Some (a, n) /\ forall b, a <= b < a + n -> get pend b = None.

Lemma loop_free ts pend res prg st p r st' t i0 :
  RangeMap.wf pend -> NoDup ts -> step_loop ts pend res prg st = Ok (p, r, st') ->
  t ∈ ts -> heap st !! t = Some i0 -> t_address i0 <> None -> acted st st' res r t -> free_in st st' pend t.
Proof.
  revert pend res prg st i0. induction ts as [|h ts IH]; intros pend res prg st i0 Hw Hnd Hl Ht Hi0 Hai0 Hac.
  { by apply elem_of_nil in Ht. }
  apply NoDup_cons in Hnd as [Hh Hnd].
  assert (forall st1 pend1 res1 prg1, RangeMap.wf pend1 -> keeps st st1 -> (forall u, u <> h -> val st1 u = val st u) ->
    (res1 = res \/ res1 = res ++ [h]) -> step_loop ts pend1 res1 prg1 st1 = Ok (p, r, st') -> t <> h ->
    free_in st st' pend1 t) as Hrest.
  { intros st1 pend1 res1 prg1 Hw1 K Hv1 Hres1 H Hne. destruct (loop_keeps _ _ _ _ _ _ _ _ Hw1 H) as (_ & (r1 & Hr1 & _) & _).
    destruct (kp_thunk _ _ K t i0 Hi0) as (i1 & Hi1 & Ha1 & _). unfold free_in.
    rewrite (access_keeps st st1 st' t K ltac:(by exists i0)). apply (IH pend1 res1 prg1 st1 i1); try done.
    - by apply elem_of_cons in Ht as [?|?].
    - congruence.
    - apply (acted_tail h t st st1 st' res res1 r); [done|done|by apply Hv1|done|by exists r1]. }
  destruct (step_loop_turn _ _ _ _ _ _ _ _ _ Hw Hl) as
    [i bb st1 Hi Ha Hst H|i a0 l Hi Ha -> ->|i a0 l v m0 c Hi Ha Hv Hn Hc Hg H
    |i a0 l v m0 pend1 res1 prg1 st1 bb Hi Ha Hv Hn Hfree Hins Hacq Hres Hrel Hst H|i a0 l v m0 Hi Ha Hv Hn Hfree Hacq -> ->].
  - destruct (decide (t = h)) as [->|Hne]; [congruence|].
    destruct (step_keeps _ _ _ _ Hst) as [K V]. apply (Hrest st1 pend res (prg || bb)); auto.
  - by apply acted_stop in Hac.
  - destruct (decide (t = h)) as [->|Hne]; [by apply (acted_head _ _ _ _ _ _ _ _ _ Hw Hh H) in Hac|].
    eapply (Hrest st pend res); eauto using keeps_refl.
  - destruct (insert_spec_get _ _ _ _ Hw Hins) as [Hw1 Hg1]. destruct (rest_starts _ _ _ _ Hst) as [K V].
    destruct (decide (t = h)) as [->|Hne].
    + destruct (loop_keeps _ _ _ _ _ _ _ _ Hw1 H) as ([_ K2 _] & _ & _). exists (as_u64 v), m0. split; [|done].
      apply (access_at _ _ _ _ _ _ _ _ Hi Ha (K2 _ _ (kp_val _ _ K _ _ Hv)) Hn).
    + destruct (Hrest st1 pend1 res1 prg1 Hw1 K V Hres H Hne) as (a & n & Hacc & Hx). exists a, n. split; [done|].
      intros b Hb. specialize (Hx b Hb). rewrite Hg1 in Hx. by destruct ((as_u64 v <=? b) && (b <? as_u64 v + m0)).
  - apply acted_acquire in Hac as ->. exists (as_u64 v), m0. split; [|done]. apply (access_at _ _ _ _ _ _ _ _ Hi Ha Hv Hn).
Qed.

(** What may be said of [u] when a later access [t] was run or offered. *)
Definition before st st' (r : list Z) u t : Prop :=
  forall i, heap st !! u = Some i -> t_address i <> None ->
    access st st' u <> None /\ (forall b, touches st st' u b -> touches st st' t b -> False) /\
    (acquires (t_atomicity i) -> u ∉ r).

(** The head was passed over, since it shares a byte with something pending. *)
Lemma skip_before ts pend st st' r u t i a l v n c :
  heap st !! u = Some i -> t_address i = Some (a, l) -> val st' a = Some v -> Layout.bytes l = Ok n ->
  as_u64 v <= c < as_u64 v + n -> get pend c <> None -> free_in st st' pend t -> uniform st ts st' ->
  u ∈ ts -> t ∈ ts -> u ∉ r -> before st st' r u t.
Proof.
  intros Hi Ha Hv Hb Hc Hg (a' & len & Hacc & Hf) Huni Hu Ht Hr j _ _.
  pose proof (access_at _ _ _ _ _ _ _ _ Hi Ha Hv Hb) as Hacu. split_and!; [by rewrite Hacu| |done].
  intros b Hbu Hbt. assert (access st st' u = access st st' t) as Heq by (by apply (Huni u t b)).
  rewrite Hacu, Hacc in Heq. injection Heq as <- <-. by apply Hg, Hf.
Qed.

(** The head was run or offered, and its bytes are pending from then on. *)
Lemma act_before pend pend1 st st' r u t i a l v n :
  heap st !! u = Some i -> t_address i = Some (a, l) -> val st' a = Some v -> Layout.bytes l = Ok n ->
  (forall b, get pend1 b = if (as_u64 v <=? b) && (b <? as_u64 v + n) then Some tt else get pend b) ->
  free_in st st' pend1 t -> ~ acquires (t_atomicity i) -> before st st' r u t.
Proof.
  intros Hi Ha Hv Hb Hg (a' & len & Hacc & Hf) Hacq j Hj _.
  pose proof (access_at _ _ _ _ _ _ _ _ Hi Ha Hv Hb) as Hacu. split_and!.
  - by rewrite Hacu.
  - intros b Hbu Hbt. rewrite (touches_at _ _ _ _ _ _ Hacu) in Hbu. rewrite (touches_at _ _ _ _ _ _ Hacc) in Hbt.
    specialize (Hf b Hbt). rewrite Hg in Hf.
    by replace ((as_u64 v <=? b) && (b <? as_u64 v + n)) with true in Hf by lia.
  - intros Hx. by assert (j = i) as -> by congruence.
Qed.

Lemma loop_order ts pend res prg st p r st' m n u t i0 :
  RangeMap.wf pend -> NoDup ts -> step_loop ts pend res prg st = Ok (p, r, st') ->
  (forall u, u ∈ ts -> is_Some (heap st !! u)) -> uniform st ts st' -> (forall x, x ∈ res -> x ∉ ts) ->
  (m < n)%nat -> ts !! m = Some u -> ts !! n = Some t -> heap st !! t = Some i0 -> t_address i0 <> None ->
  acted st st' res r t -> before st st' r u t.
Proof.
  revert m n pend res prg st i0. induction ts as [|h ts IH];
    intros m n pend res prg st i0 Hw Hnd Hl Hp Huni Hdis Hmn Hm Hn Hi0 Hai0 Hac; [done|].
  apply NoDup_cons in Hnd as [Hh Hnd]. destruct n as [|n]; [lia|]. simpl in Hn.
  assert (t ∈ ts) as Ht by (by eapply list_elem_of_lookup_2). assert (t <> h) as Hne by congruence.
  assert (forall st1 pend1 res1 prg1, RangeMap.wf pend1 -> keeps st st1 -> (forall u, u <> h -> val st1 u = val st u) ->
    (res1 = res \/ res1 = res ++ [h]) -> step_loop ts pend1 res1 prg1 st1 = Ok (p, r, st') ->
    free_in st st' pend1 t /\ (h <> u -> before st st' r u t)) as Hrest.
  { intros st1 pend1 res1 prg1 Hw1 K V Hres1 H.
    destruct (loop_keeps _ _ _ _ _ _ _ _ Hw1 H) as (_ & (r1 & Hr1 & _) & _).
    assert (forall x, x ∈ h :: ts -> access st st' x = access st1 st' x) as Hsame
      by (intros x Hx; by apply access_keeps, Hp).
    assert (acted st1 st' res1 r t) as Hac1 by (apply (acted_tail h t st st1 st' res res1 r); eauto).
    destruct (kp_thunk _ _ K t i0 Hi0) as (i2 & Hi2 & Ha2 & _). assert (t_address i2 <> None) as Hai2 by congruence.
    split.
    { unfold free_in. rewrite Hsame by (by right). by apply (loop_free _ _ _ _ _ _ _ _ _ i2 Hw1 Hnd H). }
    intros Hhu i Hi Hai. destruct m as [|m]; simpl in Hm; [by injection Hm as ->|].
    assert (u ∈ ts) as Hu by (by eapply list_elem_of_lookup_2).
    destruct (kp_thunk _ _ K _ _ Hi) as (i1 & Hi1 & Ha1 & Ho1).
    assert (before st1 st' r u t) as B.
    { apply (IH m n pend1 res1 prg1 st1 i2); try done.
      - intros x Hx. destruct (Hp x ltac:(by right)) as [j Hj]. destruct (kp_thunk _ _ K x j Hj) as (j' & ? & _). by exists j'.
      - intros x y b Hx Hy. unfold touches. rewrite <- !Hsame by (by right). apply Huni; by right.
      - intros x Hx Hxt. destruct Hres1 as [->| ->]; [apply (Hdis x Hx); by right|].
        apply elem_of_app in Hx as [Hx|Hx%list_elem_of_singleton]; [apply (Hdis x Hx); by right|congruence].
      - lia. }
    destruct (B i1 Hi1 ltac:(congruence)) as (B1 & B2 & B3). rewrite Ho1 in B3. unfold touches in *.
    rewrite !Hsame by (by right). done. }
  destruct (step_loop_turn _ _ _ _ _ _ _ _ _ Hw Hl) as
    [i bb st1 Hi Ha Hst H|i a0 l Hi Ha -> ->|i a0 l v m0 c Hi Ha Hv Hb Hc Hg H
    |i a0 l v m0 pend1 res1 prg1 st1 bb Hi Ha Hv Hb Hfree Hins Hacq Hres Hrel Hst H|i a0 l v m0 Hi Ha Hv Hb Hfree Hacq -> ->].
  - destruct (rest_starts _ _ _ _ (or_intror Hst)) as [K V].
    destruct (Hrest st1 pend res _ Hw K V (or_introl eq_refl) H) as (_ & B).
    destruct (decide (h = u)) as [->|]; [|by apply B]. intros j Hj. congruence.
  - by apply acted_stop in Hac.
  - destruct (Hrest st pend res prg Hw (keeps_refl st) (fun u _ => eq_refl) (or_introl eq_refl) H) as (Hf & B).
    destruct (decide (h = u)) as [->|]; [|by apply B].
    destruct (loop_keeps _ _ _ _ _ _ _ _ Hw H) as ([_ K2 _] & (r1 & -> & Hr1) & _).
    apply (skip_before (u :: ts) pend _ _ _ _ _ i a0 l v m0 c); auto; [by left|by right|].
    intros [Hx|Hx]%elem_of_app; [apply (Hdis u Hx); by left|by apply Hh, Hr1].
  - destruct (insert_spec_get _ _ _ _ Hw Hins) as [Hw1 Hg1]. destruct (rest_starts _ _ _ _ Hst) as [K V].
    destruct (Hrest st1 pend1 res1 prg1 Hw1 K V Hres H) as (Hf & B).
    destruct (decide (h = u)) as [->|]; [|by apply B].
    destruct (loop_keeps _ _ _ _ _ _ _ _ Hw1 H) as ([_ K2 _] & _ & _).
    apply (act_before pend pend1 _ _ _ _ _ i a0 l v m0); auto. apply K2, (kp_val _ _ K), Hv.
  - apply acted_acquire in Hac. congruence.
Qed.

(** A release is offered alone, before anything else of its thread. *)
Lemma loop_release ts pend res prg st p r st' t i r1 :
  RangeMap.wf pend -> NoDup ts -> step_loop ts pend res prg st = Ok (p, r, st') ->
  heap st !! t = Some i -> t_atomicity i = Release -> r = res ++ r1 -> t ∈ r1 -> res = [] /\ head r1 = Some t.
Proof.
  revert pend res prg st i r1. induction ts as [|h ts IH]; intros pend res prg st i r1 Hw Hnd Hl Hi Ho Hr Ht.
  { injection Hl as _ -> _. rewrite <- (app_nil_r r) in Hr at 1. apply app_inv_head in Hr as <-. by apply elem_of_nil in Ht. }
  apply NoDup_cons in Hnd as [Hh Hnd].
  assert (forall r, res = res ++ r -> r = []) as Hnil.
  { intros r0 Hx. rewrite <- (app_nil_r res) in Hx at 1. by apply app_inv_head in Hx as <-. }
  destruct (step_loop_turn _ _ _ _ _ _ _ _ _ Hw Hl) as
    [j bb st1 Hj Ha Hst H|j a0 l Hj Ha -> ->|j a0 l v m0 c Hj Ha Hv Hb Hc Hg H
    |j a0 l v m0 pend1 res1 prg1 st1 bb Hj Ha Hv Hb Hfree Hins Hacq Hres Hrel Hst H|j a0 l v m0 Hj Ha Hv Hb Hfree Hacq -> ->].
  - destruct (rest_starts _ _ _ _ (or_intror Hst)) as [K V]. destruct (kp_thunk _ _ K _ _ Hi) as (i1 & Hi1 & Ha1 & Ho1).
    eapply (IH _ _ _ _ i1); eauto; congruence.
  - apply Hnil in Hr as ->. by apply elem_of_nil in Ht.
  - by eapply (IH _ _ _ _ i).
  - destruct (insert_spec_get _ _ _ _ Hw Hins) as [Hw1 _]. destruct (rest_starts _ _ _ _ Hst) as [K V].
    destruct (kp_thunk _ _ K _ _ Hi) as (i1 & Hi1 & Ha1 & Ho1).
    destruct Hres as [->| ->]; [eapply (IH _ _ _ _ i1); eauto; congruence|].
    destruct (loop_keeps _ _ _ _ _ _ _ _ Hw1 H) as (_ & (r2 & Hr2 & Hin) & _).
    rewrite Hr2, <- app_assoc in Hr. apply app_inv_head in Hr as <-. apply elem_of_cons in Ht as [->|Ht].
    + assert (j = i) as -> by congruence. destruct (Hrel Ho) as [Hx|Hx]; [|by subst].
      symmetry in Hx. apply (f_equal length) in Hx. rewrite length_app in Hx. simpl in Hx. lia.
    + destruct (IH pend1 (res ++ [h]) prg1 st1 i1 r2) as [Hx _]; auto; [congruence|].
      by destruct res.
  - apply app_inv_head in Hr as <-. apply list_elem_of_singleton in Ht as ->.
    assert (j = i) as -> by congruence. unfold acquires in Hacq. rewrite Ho in Hacq. by destruct Hacq as [|[]].
Qed.

Lemma retained st ts ts1 :
  retain_pending st ts = Ok ts1 -> sublist ts1 ts /\ forall u, u ∈ ts -> is_Some (heap st !! u).
Proof.
  revert ts1. induction ts as [|t ts IH]; intros ts1; cbn [retain_pending].
  { intros [= <-]. split; [constructor|]. by intros u ?%elem_of_nil. }
  intros (o & Ho & (r & Hr & [= <-])%bind_Ok)%bind_Ok. destruct (IH r Hr) as [Hsub Hp]. split.
  - destruct o; by constructor.
  - intros u [->|Hu]%elem_of_cons; [|by apply Hp]. unfold try_get, deref in Ho.
    destruct (heap st !! t) as [i|]; [by exists i|done].
Qed.

(** C6: What a pass of [step_pure] runs or offers respects, whatever other threads
    did to the memory and to the operations offered so far, the order of the
    thread's pending accesses: every earlier access has a known address and
    touches none of the bytes of one that is run or offered, no operation is
    run or offered past an acquire that is offered, and a release is offered
    only when nothing was offered before it, before anything else of its
    thread. The accesses of the thread must be to the same bytes or to
    disjoint ones. *)
Theorem pass_keeps_order df res st p r df' st' :
  NoDup (df_thunks df) -> (forall x, x ∈ res -> x ∉ df_thunks df) ->
  step_pure df res st = Ok (p, r, df', st') -> uniform st (df_thunks df) st' ->
  (forall m n u t i, (m < n)%nat -> df_thunks df' !! m = Some u -> df_thunks df' !! n = Some t ->
    heap st !! t = Some i -> t_address i <> None -> acted st st' res r t -> before st st' r u t) /\
  (exists r1, r = res ++ r1 /\ forall t, t ∈ r1 -> t ∈ df_thunks df' /\
    forall i, heap st !! t = Some i -> t_atomicity i = Release -> res = [] /\ head r = Some t).
Proof.
  intros Hnd Hdis H Huni. apply bind_Ok in H as (ts & Hts & ([[p1 r1] st1] & Hl & [= -> -> <- ->])%bind_Ok). cbn [df_thunks].
  destruct (retained _ _ _ Hts) as [Hsub Hp]. pose proof (sublist_NoDup _ _ Hnd Hsub) as Hnd1.
  assert (forall x, x ∈ ts -> x ∈ df_thunks df) as Hin by (intros x; by apply (sublist_subseteq _ _ Hsub)).
  pose proof (wf_new (V := unit)) as Hw. split.
  - intros m n u t i Hmn Hm Hn Hi Hai Hac. apply (loop_order _ _ _ _ _ _ _ _ m n u t i Hw Hnd1 Hl); auto.
    + intros x y b Hx Hy. apply Huni; auto.
    + intros x Hx Hxt. apply (Hdis x Hx); auto.
  - destruct (loop_keeps _ _ _ _ _ _ _ _ Hw Hl) as (_ & (r1 & -> & Hr1) & _). exists r1. split; [done|].
    intros t Ht. split; [by apply Hr1|]. intros i Hi Ho.
    destruct (loop_release _ _ _ _ _ _ _ _ t i r1 Hw Hnd1 Hl Hi Ho eq_refl Ht) as [-> Hh]. done.
Qed.
(** What the loop does with a thunk whose access is known. *)
Lemma step_loop_access t ts pend res prg st a n out :
  RangeMap.wf pend -> access st st t = Some (a, n) -> step_loop (t :: ts) pend res prg st = Ok out ->
  exists i, heap st !! t = Some i /\
    ((exists b, a <= b < a + n /\ get pend b <> None /\ step_loop ts pend res prg st = Ok out) \/
     exists pend1, RangeMap.wf pend1 /\
       (forall b, get pend1 b = if (a <=? b) && (b <? a + n) then Some tt else get pend b) /\
       (forall b, a <= b < a + n -> get pend b = None) /\
       (t_atomicity i = Relaxed -> step_loop ts pend1 (res ++ [t]) prg st = Ok out) /\
       (t_atomicity i = ONone -> exists b st1, Data.step t st = Ok (b, st1) /\
          step_loop ts pend1 res (prg || b) st1 = Ok out)).
Proof.
  intros Hw Ha. cbn [step_loop]. unfold access, deref in *. destruct (heap st !! t) as [i|]; [|done]. cbn [bind].
  destruct (t_address i) as [[x l]|]; [|done]. destruct (val st x) as [v|] eqn:Hv; [|done].
  destruct (Layout.bytes l) as [m|]; [|done]. injection Ha as <- <-. rewrite (proj2 (try_get_val st x v) Hv). cbn [bind].
  intros (hi & Hhi & (al & Hal & H)%bind_Ok)%bind_Ok. apply chk_u_Ok in Hhi as [-> _]. exists i. split; [done|].
  destruct (rs_range (as_u64 v) (as_u64 v + m) pend Hw) as (ps & Hps & _ & Hin & Hall).
  rewrite Hal in Hps. injection Hps as <-. destruct al as [|[[lo hi] u] al].
  - right. apply bind_Ok in H as (pend1 & Hins & H). destruct (insert_spec_get _ _ _ _ Hw Hins) as [Hw1 Hg].
    exists pend1. split_and!; [done|done| | |].
    + intros b Hb. destruct (get pend b) as [u|] eqn:Hu; [|done].
      destruct (Hall b u Hb Hu) as (lo & hi & Hx & _). by apply elem_of_nil in Hx.
    + intros Ho. by rewrite Ho in H.
    + intros Ho. rewrite Ho in H. apply bind_Ok in H as ([b st1] & Hst & H). by exists b, st1.
  - left. destruct (Hin lo hi u ltac:(by left)) as (? & ? & ? & Hg). exists lo. split_and!; [lia|lia| |done].
    by rewrite Hg by lia.
Qed.

Lemma touches_inv st st' t b :
  touches st st' t b -> exists a n, access st st' t = Some (a, n) /\ a <= b < a + n.
Proof. unfold touches. destruct (access st st' t) as [[a n]|]; [|done]. by exists a, n. Qed.

Lemma access_final st st' t a n : keeps st st' -> access st st t = Some (a, n) -> access st st' t = Some (a, n).
Proof.
  intros K. unfold access. destruct (heap st !! t) as [i|]; [|done]. destruct (t_address i) as [[x l]|]; [|done].
  destruct (val st x) as [v|] eqn:Hv; [|done]. by rewrite (kp_val _ _ K _ _ Hv).
Qed.

(** A thunk whose operands are known is run. *)
Lemma step_ready st t i c args b st' :
  heap st !! t = Some i -> t_value i = Pending c -> Forall2 (fun d v => val st d = Some v) (t_deps i) args ->
  Data.step t st = Ok (b, st') ->
  exists v w, c (t_thread i) args (world st) = Ok (v, w) /\ val st' t = Some v.
Proof.
  intros Hi Hc Hargs. apply get_args_val in Hargs. unfold Data.step, deref. rewrite Hi. cbn [bind]. rewrite Hargs. cbn [bind].
  rewrite Hc. intros (? & _ & ([v w] & Hrun & (? & _ & [= _ <-])%bind_Ok)%bind_Ok)%bind_Ok. exists v, w. split; [done|].
  rewrite (val_insert _ _ _ _ _ _ _ Hi). by rewrite decide_True.
Qed.

(** C25: An operation that is skipped because it aliases an earlier one is not
    itself recorded as pending. In every pass over a queue that starts with a
    pending relaxed operation [t1], an operation [t2] that shares a byte with it,
    and a non-atomic one [t3] that is ready and shares a byte with [t2] but none
    with [t1], the third overtakes the second: it is run in the memory the pass
    found, while [t2] is still pending. That is what [pass_keeps_order] excludes,
    under its condition on the accesses. *)
Theorem skipped_access_overtaken df res st p r df' st' t1 t2 t3 ts i1 i3 c args b1 b2 :
  step_pure df res st = Ok (p, r, df', st') -> NoDup (df_thunks df) -> df_thunks df = t1 :: t2 :: t3 :: ts ->
  val st t1 = None -> val st t2 = None ->
  heap st !! t1 = Some i1 -> t_atomicity i1 = Relaxed ->
  heap st !! t3 = Some i3 -> t_atomicity i3 = ONone -> t_value i3 = Pending c ->
  Forall2 (fun d v => val st d = Some v) (t_deps i3) args ->
  touches st st t1 b1 -> touches st st t2 b1 ->
  touches st st t2 b2 -> touches st st t3 b2 -> (forall b, touches st st t1 b -> touches st st t3 b -> False) ->
  val st' t2 = None /\
  (exists v w, c (t_thread i3) args (world st) = Ok (v, w) /\ val st' t3 = Some v) /\
  acted st st' res r t3 /\ ~ before st st' r t2 t3.
Proof.
  intros H Hnd Hq V1 V2 Hi1 Ho1 Hi3 Ho3 Hc3 Hargs T11 T21 T22 T32 Hdis.
  apply bind_Ok in H as (q & Hts & ([[p1 r1] st1] & Hl & [= -> -> _ ->])%bind_Ok). rewrite Hq in Hts, Hnd.
  assert (val st t3 = None) as V3 by (unfold val; by rewrite Hi3, Hc3).
  destruct (retained _ _ _ Hts) as [Hsub _]. cbn [retain_pending] in Hts. res_inv.
  repeat match goal with E : try_get st ?t = Ok ?o |- _ => destruct o as [?|]; [apply try_get_val in E; congruence|clear E] end.
  apply (sublist_NoDup _ _ Hnd), NoDup_cons in Hsub as [_ [Hn2 [Hn3 _]%NoDup_cons]%NoDup_cons].
  apply touches_inv in T11 as (a1 & n1 & A1 & T11). apply touches_inv in T21 as (a2 & n2 & A2 & T21).
  rewrite (touches_at _ _ _ _ _ _ A2) in T22. apply touches_inv in T32 as (a3 & n3 & A3 & T32).
  destruct (step_loop_access _ _ _ _ _ _ _ _ _ wf_new A1 Hl) as (j & Hj & [(b & _ & [] & _)|(pend & Hw & Hg & _ & Hr & _)]);
    [done|]. assert (j = i1) as -> by congruence. specialize (Hr Ho1).
  destruct (step_loop_access _ _ _ _ _ _ _ _ _ Hw A2 Hr) as (j & _ & [(_ & _ & _ & H2)|(? & _ & _ & Hx & _)]).
  2: { specialize (Hx b1 T21). rewrite Hg in Hx. by replace ((a1 <=? b1) && (b1 <? a1 + n1)) with true in Hx by lia. }
  destruct (step_loop_access _ _ _ _ _ _ _ _ _ Hw A3 H2) as (j3 & Hj3 & [(b & Hb & Hgb & _)|(pend2 & Hw2 & _ & _ & _ & H3)]).
  { rewrite Hg in Hgb. destruct ((a1 <=? b) && (b <? a1 + n1)) eqn:Hin; [|done].
    exfalso. apply (Hdis b); [rewrite (touches_at _ _ _ _ _ _ A1)|rewrite (touches_at _ _ _ _ _ _ A3)]; lia. }
  assert (j3 = i3) as -> by congruence. destruct (H3 Ho3) as (b & st2 & Hst & Hl4).
  destruct (step_ready _ _ _ _ _ _ _ Hi3 Hc3 Hargs Hst) as (v & w & Hrun & Hv3).
  destruct (step_keeps _ _ _ _ Hst) as [K2 V23]. destruct (loop_keeps _ _ _ _ _ _ _ _ Hw2 Hl4) as (K4 & _ & V4).
  pose proof (keeps_trans _ _ _ K2 K4) as K.
  assert (val st' t3 = Some v) as Hv by (by apply (kp_val _ _ K4)).
  split_and!.
  - rewrite V4, V23; [done|set_solver|set_solver].
  - by exists v, w.
  - left. by rewrite Hv.
  - destruct (heap st !! t2) as [i2|] eqn:Hi2; [|unfold access in A2; by rewrite Hi2 in A2].
    intros B. destruct (B i2 Hi2) as (_ & B2 & _); [unfold access in A2; rewrite Hi2 in A2; by destruct (t_address i2)|].
    apply (B2 b2); rewrite touches_at; [|by apply (access_final _ _ _ _ _ K)| |by apply (access_final _ _ _ _ _ K)]; done.
Qed.
End Order.

(** A store, an acquiring load and a load: the first two are offered. *)
Definition order_code : DataFlow * State unit :=
  decode_all [d_store 10 1 4 8 Relaxed; d_load 11 2 8 Acquire; d_load 12 3 8 Relaxed].

Definition order_end : DataFlow * State unit :=
  match step_pure order_code.1 [] order_code.2 with Ok (_, _, df, st) => (df, st) | Panic _ => order_code end.

Lemma order_access t :
  t ∈ [10; 11; 12] -> access order_code.2 order_end.2 t ∈ [Some (200, 1); Some (201, 1); Some (202, 1)].
Proof.
  intros Ht. assert (forall o, bool_decide (o ∈ [Some (200, 1); Some (201, 1); Some (202, 1)]) = true ->
    o ∈ [Some (200, 1); Some (201, 1); Some (202, 1)]) as Hdec by (by intros o ?%bool_decide_eq_true).
  each_thunk Ht; apply Hdec; vm_compute; reflexivity.
Qed.

Lemma order_uniform : uniform order_code.2 [10; 11; 12] order_end.2.
Proof.
  intros t u b Ht%order_access Hu%order_access. unfold touches. revert Ht Hu.
  generalize (access order_code.2 order_end.2 t) (access order_code.2 order_end.2 u).
  intros x y Hx Hy. each_thunk Hx; each_thunk Hy; done || lia.
Qed.

Lemma order_offers : exists p, step_pure order_code.1 [] order_code.2 = Ok (p, [10; 11], order_end.1, order_end.2).
Proof.
  assert (offers order_code = [10; 11]) as Ho by (vm_compute; reflexivity).
  unfold offers, order_end in *. destruct (step_pure order_code.1 [] order_code.2) as [[[[p r] df] st]|]; [|discriminate Ho].
  exists p. rewrite Ho. reflexivity.
Qed.

Lemma order_queue : df_thunks order_code.1 = [10; 11; 12] /\ df_thunks order_end.1 = [10; 11; 12].
Proof. split; vm_compute; reflexivity. Qed.

Lemma order_addressed : exists i, heap order_code.2 !! 11 = Some i /\ t_address i <> None.
Proof.
  assert (match heap order_code.2 !! 11 with Some i => bool_decide (is_Some (t_address i)) | None => false end = true) as H
    by (vm_compute; reflexivity).
  destruct (heap order_code.2 !! 11) as [i|]; [|discriminate H]. exists i. split; [reflexivity|].
  intros Hn. rewrite Hn in H. discriminate H.
Qed.

Lemma pass_keeps_order_witness :
  exists p, step_pure order_code.1 [] order_code.2 = Ok (p, [10; 11], order_end.1, order_end.2) /\
  before order_code.2 order_end.2 [10; 11] 10 11.
Proof.
  destruct order_offers as [p H]. exists p. split; [exact H|].
  destruct order_queue as [Q1 Q2]. destruct order_addressed as (i & Hi & Hai).
  pose proof order_uniform as Hu. rewrite <- Q1 in Hu.
  assert (NoDup (df_thunks order_code.1)) as Hnd.
  { rewrite Q1. apply (bool_decide_unpack _). vm_compute. exact I. }
  assert (forall x : Z, x ∈ [] -> x ∉ df_thunks order_code.1) as Hdis by (intros x Hx; by apply elem_of_nil in Hx).
  destruct (pass_keeps_order _ _ _ _ _ _ _ Hnd Hdis H Hu) as [B _]. rewrite Q2 in B.
  apply (B 0%nat 1%nat 10 11 i (Nat.lt_succ_diag_r 0) eq_refl eq_refl Hi Hai).
  right. exists [10; 11]. split; [reflexivity|]. right; left.
Defined.

(** The queue of [alias_reads_stale]: the load overtakes the second store. *)
Lemma alias_thunk t : t ∈ alias_prog -> exists i c, heap alias_code.2 !! t = Some i /\ t_value i = Pending c.
Proof. apply (prog_pending _ _ _ alias_program). Qed.

Lemma alias_access :
  access alias_code.2 alias_code.2 10 = Some (200, 2) /\ access alias_code.2 alias_code.2 11 = Some (201, 2) /\
  access alias_code.2 alias_code.2 12 = Some (202, 1).
Proof. split_and!; vm_compute; reflexivity. Qed.

Lemma skipped_access_overtaken_witness :
  exists p r df' st', step_pure alias_code.1 [] alias_code.2 = Ok (p, r, df', st') /\
    val st' 11 = None /\ val st' 12 <> None /\ ~ before alias_code.2 st' r 11 12.
Proof.
  assert (df_thunks alias_code.1 = [10; 11; 12]) as Hq by (vm_compute; reflexivity).
  assert (is_ok (step_pure alias_code.1 [] alias_code.2) = true) as Hok by (vm_compute; reflexivity).
  destruct (step_pure alias_code.1 [] alias_code.2) as [[[[p r] df'] st']|] eqn:H; [|discriminate Hok].
  exists p, r, df', st'. split; [reflexivity|].
  destruct (alias_thunk 10 ltac:(left)) as (i1 & c1 & Hi1 & Hc1).
  destruct (alias_thunk 12 ltac:(right; right; left)) as (i3 & c3 & Hi3 & Hc3).
  assert (option_map t_atomicity (heap alias_code.2 !! 10) = Some Relaxed /\
    option_map t_atomicity (heap alias_code.2 !! 12) = Some ONone /\ option_map t_deps (heap alias_code.2 !! 12) = Some [3])
    as (Ho1 & Ho3 & Hd3) by (split_and!; vm_compute; reflexivity).
  rewrite Hi1 in Ho1. rewrite Hi3 in Ho3, Hd3. injection Ho1 as Ho1. injection Ho3 as Ho3. injection Hd3 as Hd3.
  destruct alias_access as (A1 & A2 & A3).
  destruct (skipped_access_overtaken _ _ _ _ _ _ _ 10 11 12 [] i1 i3 c3 [addr_value 202] 201 202 H) as (V2 & (v & w & _ & V3) & _ & B);
    try assumption.
  - rewrite Hq. apply (bool_decide_unpack _). vm_compute. exact I.
  - vm_compute. reflexivity.
  - vm_compute. reflexivity.
  - rewrite Hd3. constructor; [vm_compute; reflexivity|constructor].
  - unfold touches. rewrite A1. lia.
  - unfold touches. rewrite A2. lia.
  - unfold touches. rewrite A2. lia.
  - unfold touches. rewrite A3. lia.
  - intros b. unfold touches. rewrite A1, A3. lia.
  - split; [exact V2|]. split; [|exact B]. rewrite V3. discriminate.
Defined.
