(* ===== verification/Process.v ===== *)
(** * Process: src/src/process.rs, src/src/scheduler.rs, src/src/thread.rs

    The process: the scheduler's table of threads, the thunks and the memory
    they compute with, and [step], which lets every thread run what it can and
    then performs one atomic operation. The executor of the decoding tasks
    ([futures]' [LocalPool]) and the random generator ([rand]) are parameters:
    [run_until_stalled] polls the tasks, which decode more thunks, start
    threads and send join values ([Executor]); [choose] picks an index. The mutexes and
    condition variables of the scheduler are in [Mutex]. *)

From S2P Require Import Prelude RangeMap MemOrdering Layout Bitvec Value Memory Symbols Data Dependencies Pipeline.

(** ** [BTreeMap] as a list sorted by key *)

Section BTreeMap.
Context {V : Type}.
Implicit Types (m : list (Z * V)).

Fixpoint bt_get (k : Z) m : option V :=
  match m with [] => None | (j, v) :: m => if j =? k then Some v else bt_get k m end.

Fixpoint bt_insert (k : Z) (v : V) m : list (Z * V) :=
  match m with
  | [] => [(k, v)]
  | (j, w) :: m' => if k <? j then (k, v) :: m else if k =? j then (k, v) :: m' else (j, w) :: bt_insert k v m'
  end.

Definition bt_remove (k : Z) m : list (Z * V) := filter (fun p => p.1 <> k) m.
Definition bt_retain (f : Z -> V -> bool) m : list (Z * V) := filter (fun p => f p.1 p.2 = true) m.
(** A change through a shared handle to an entry. *)
Definition bt_alter (f : V -> V) (k : Z) m : list (Z * V) :=
  map (fun p => if p.1 =? k then (p.1, f p.2) else p) m.

Definition bt_sorted m : Prop := StronglySorted (fun p q => p.1 < q.1) m.
End BTreeMap.

(** ** Threads and the scheduler *)

(** The one-shot channel a thread's result is sent through. *)
Inductive Join := JoinPending | JoinSent (v : Z) | JoinCanceled.

(** [struct ThreadInner]; the blocker is only shown in debug output. *)
Record Thread := MkThread { th_id : Z; th_data : DataFlow; th_locals : gmap Z Z; th_join : Join }.

(** [struct SchedulerInner] *)
Record Scheduler := MkScheduler { sched_threads : list (Z * Thread); next_threadid : Z }.

(** [Scheduler::new] *)
Definition scheduler_new : Scheduler := MkScheduler [] 0.

Definition new_threadid (this : Scheduler) : res (Z * Scheduler) :=
  let! n := add64 (next_threadid this) 1 in
  Ok (next_threadid this, MkScheduler (sched_threads this) n).

(** [Scheduler::add_thread] *)
Definition sched_add_thread (t : Thread) (this : Scheduler) : res Scheduler :=
  assert! bool_decide (bt_get (th_id t) (sched_threads this) = None) or AssertFailed in
  Ok (MkScheduler (bt_insert (th_id t) t (sched_threads this)) (next_threadid this)).

Definition remove_thread (id : Z) (this : Scheduler) : Scheduler :=
  MkScheduler (bt_remove id (sched_threads this)) (next_threadid this).

(** [Scheduler::thread] *)
Definition sched_thread (id : Z) (this : Scheduler) : option Thread := bt_get id (sched_threads this).

(** [Scheduler::threads]: the values in key order; the keys are the ids. *)
Definition threads (this : Scheduler) : list (Z * Thread) := sched_threads this.

(** [Thread::alive]; a canceled channel is an error, which is ready too. *)
Definition alive (t : Thread) : bool :=
  match th_join t with JoinPending => true | _ => 0 <? df_len (th_data t) end.

Definition reap_threads (this : Scheduler) : Scheduler :=
  MkScheduler (bt_retain (fun _ t => alive t) (sched_threads this)) (next_threadid this).

(** [Scheduler::cancel] *)
Definition cancel (this : Scheduler) : Scheduler := MkScheduler [] (next_threadid this).

Definition set_data (d : DataFlow) (t : Thread) : Thread := MkThread (th_id t) d (th_locals t) (th_join t).
Definition set_locals (l : gmap Z Z) (t : Thread) : Thread := MkThread (th_id t) (th_data t) l (th_join t).

(** ** The process *)

Section Process.
Context {BV : Bitvec} {X : Type}.
(** The tasks of the executor, the state of the generator, functions. *)
Context {E R F : Type}.

(** [struct ProcessInner]; the memory is in the world of [p_state]. *)
Record Process := MkProcess {
  p_state : State X;
  p_sched : Scheduler;
  p_symbols : SymbolTable;
  p_defs : Definitions F;
  p_pool : E;
  p_rng : R
}.

Definition set_state (st : State X) (p : Process) : Process :=
  MkProcess st (p_sched p) (p_symbols p) (p_defs p) (p_pool p) (p_rng p).
Definition set_sched (s : Scheduler) (p : Process) : Process :=
  MkProcess (p_state p) s (p_symbols p) (p_defs p) (p_pool p) (p_rng p).
Definition set_rng (r : R) (p : Process) : Process :=
  MkProcess (p_state p) (p_sched p) (p_symbols p) (p_defs p) (p_pool p) r.

(** The future [Thread::new] returns is given to the executor as what it will
    run: the thread, its function and its parameters. *)
Variable spawn_local : Z -> F -> list Value -> E -> E.
Variable run_until_stalled : Process -> res Process.
(** [IteratorRandom::choose] over a list of that many elements. *)
Variable choose : Z -> R -> Z * R.

Definition ptr_bits : Z := 64.

Definition addr (x : Z) : res Value :=
  assert! x <=? 2 ^ 64 - 1 or AssertFailed in from_int 64 x.

(** [Process::thread] *)
Definition thread (id : Z) (p : Process) : option Thread := sched_thread id (p_sched p).

(** [Thread::new] *)
Definition thread_new (threadid main : Z) (params : list Value) (p : Process) : res (Thread * E) :=
  let! f := unwrap (reverse_lookup_fun main (p_defs p)) in
  Ok (MkThread threadid (df_new threadid) ∅ JoinPending, spawn_local threadid f params (p_pool p)).

(** [Process::add_thread] *)
Definition add_thread (fun_ : Z) (params : list Value) (p : Process) : res (Z * Process) :=
  let! (threadid, s) := new_threadid (p_sched p) in
  let! (t, e) := thread_new threadid fun_ params p in
  let! s := sched_add_thread t s in
  Ok (threadid, MkProcess (p_state p) s (p_symbols p) (p_defs p) e (p_rng p)).

Definition add_main (p : Process) : res Process :=
  let! d := lookup_symbol (External "main") (p_symbols p) in
  let! fun_ := unwrap (global d) in
  let! a := Value.new 32 0 in
  let! b := Value.new ptr_bits 0 in
  let! (_, p) := add_thread fun_ [a; b] p in
  Ok p.

(** [Thread::thread_local]: the address is allocated and initialised once. *)
Definition thread_local (key : Z) (t : Thread) (p : Process) : res (Z * Thread * Process) :=
  match th_locals t !! key with
  | Some ptr => Ok (ptr, t, p)
  | None =>
      let! (layout, value) := thread_local_init key (p_defs p) in
      let w := world (p_state p) in
      let! (ptr, m) := Memory.alloc (th_id t) layout (w_memory w) in
      let! m := store_impl (th_id t) ptr value ONone m in
      Ok (ptr, set_locals (<[key := ptr]> (th_locals t)) t,
          set_state (MkState (heap (p_state p)) (MkWorld m (w_rest w)) (woken (p_state p))) p)
  end.

(** The [for] over the threads. *)
Fixpoint step_threads (ths : list (Z * Thread)) (resolvable : list Z) (progress : bool) (p : Process)
    : res (bool * list Z * Process) :=
  match ths with
  | [] => Ok (progress, resolvable, p)
  | (id, t) :: ths =>
      let! (b, resolvable, df, st) := step_pure (th_data t) resolvable (p_state p) in
      let s := p_sched p in
      step_threads ths resolvable (progress || b)
        (set_sched (MkScheduler (bt_alter (set_data df) id (sched_threads s)) (next_threadid s))
           (set_state st p))
  end.

(** The [loop] of [Process::step], with fuel. *)
Fixpoint step_decode (fuel : nat) (p : Process) : option (res (list Z * Process)) :=
  match fuel with
  | O => None
  | S fuel =>
      match
        let! p := run_until_stalled p in
        step_threads (threads (p_sched p)) [] false p
      with
      | Panic e => Some (Panic e)
      | Ok (progress, resolvable, p) =>
          let p := set_sched (reap_threads (p_sched p)) p in
          if progress then step_decode fuel p else Some (Ok (resolvable, p))
      end
  end.

(** What a race is shown as when one of its operations is traced: the operations
    and the queues of all threads. Their blockers, which name thunks they wait
    for, are left out. *)
Definition race_debug (resolvable : list Z) (p : Process) : res unit :=
  let! _ := mapM (full_debug (p_state p)) resolvable in
  let! _ := mapM (fun t => dataflow_debug (p_state p) (th_data t)) (sched_threads (p_sched p)).*2 in
  Ok tt.

(** [assert!(thunk.step())] *)
Definition step_resolvable (t : Z) (p : Process) : res (bool * Process) :=
  let! (b, st) := Data.step t (p_state p) in
  assert! b or AssertFailed in
  Ok (true, set_state st p).

Definition step_choose (resolvable : list Z) (p : Process) : res (bool * Process) :=
  match resolvable with
  | [] => assert! bool_decide (length (threads (p_sched p)) = 0%nat) or AssertFailed in Ok (false, p)
  | [t] => step_resolvable t p
  | _ =>
      let! _ := if existsb (thunk_tracing (p_state p)) resolvable then race_debug resolvable p else Ok tt in
      let '(i, rng) := choose (zlen resolvable) (p_rng p) in
      let! t := index resolvable i in
      step_resolvable t (set_rng rng p)
  end.

(** [Process::step] *)
Definition step (fuel : nat) (p : Process) : option (res (bool * Process)) :=
  match step_decode fuel p with
  | Some (Ok (resolvable, p)) => Some (step_choose resolvable p)
  | Some (Panic e) => Some (Panic e)
  | None => None
  end.

(** The loop of [main]: until [step] returns false; [n] bounds the calls. *)
Fixpoint run (n fuel : nat) (p : Process) : option (res Process) :=
  match n with
  | O => None
  | S n =>
      match step fuel p with
      | Some (Ok (true, p)) => run n fuel p
      | Some (Ok (false, p)) => Some (Ok p)
      | Some (Panic e) => Some (Panic e)
      | None => None
      end
  end.
End Process.
Arguments Process X E R F : clear implicits.

(** ** The scheduler's table *)

(** Sorted by id, every thread under its own id, all ids already handed out. *)
Definition sched_ok (s : Scheduler) : Prop :=
  bt_sorted (sched_threads s) /\
  (forall id t, (id, t) ∈ sched_threads s -> th_id t = id /\ 0 <= id < next_threadid s) /\
  0 <= next_threadid s.

Lemma bt_insert_last {V} (k : Z) (v : V) m :
  (forall p, p ∈ m -> p.1 < k) -> bt_insert k v m = m ++ [(k, v)] /\ bt_get k m = None.
Proof.
  induction m as [|[j w] m IH]; intros H; simpl; [done|].
  assert (j < k) by (apply (H (j, w)); by left). destruct IH as [-> ->]; [intros p Hp; apply H; by right|].
  destruct (Z.ltb_spec k j), (Z.eqb_spec k j), (Z.eqb_spec j k); done || lia.
Qed.

Lemma bt_get_app {V} (k : Z) (m m' : list (Z * V)) :
  bt_get k (m ++ m') = match bt_get k m with Some v => Some v | None => bt_get k m' end.
Proof. induction m as [|[j w] m IH]; simpl; [done|]. by destruct (j =? k). Qed.

Lemma bt_sorted_sublist {V} (m m' : list (Z * V)) : sublist m m' -> bt_sorted m' -> bt_sorted m.
Proof.
  unfold bt_sorted. induction 1 as [|x m m' Hs IH|x m m' Hs IH]; [done|..];
    inversion 1 as [|? ? Hst Hall]; subst; [|auto].
  constructor; [auto|]. rewrite Forall_forall in *. intros y Hy. apply Hall. by eapply elem_of_sublist.
Qed.

Lemma sched_ok_sublist s m n :
  sched_ok s -> sublist m (sched_threads s) -> next_threadid s <= n -> sched_ok (MkScheduler m n).
Proof.
  intros (Hs & Hid & Hn) Hm Hle. split_and!; simpl; [by eapply bt_sorted_sublist| |lia].
  intros id t Ht. destruct (Hid id t); [by eapply elem_of_sublist|]. lia.
Qed.

(** A use of the scheduler; [OpStart] is the scheduler's part of
    [Process::add_thread], [OpStep] a change to a thread. *)
Inductive sched_op :=
  | OpStart (make : Z -> Thread) | OpRemove (id : Z) | OpReap | OpCancel | OpStep (id : Z) (df : DataFlow).

Definition sched_step (s : Scheduler) (o : sched_op) : res Scheduler :=
  match o with
  | OpStart make => let! (id, s) := new_threadid s in sched_add_thread (make id) s
  | OpRemove id => Ok (remove_thread id s)
  | OpReap => Ok (reap_threads s)
  | OpCancel => Ok (cancel s)
  | OpStep id df => Ok (MkScheduler (bt_alter (set_data df) id (sched_threads s)) (next_threadid s))
  end.

Lemma start_ok s t :
  sched_ok s -> next_threadid s + 1 < 2 ^ 64 -> th_id t = next_threadid s ->
  sched_ok (MkScheduler (sched_threads s ++ [(next_threadid s, t)]) (next_threadid s + 1)) /\
  sched_add_thread t (MkScheduler (sched_threads s) (next_threadid s + 1)) =
    Ok (MkScheduler (sched_threads s ++ [(next_threadid s, t)]) (next_threadid s + 1)).
Proof.
  intros (Hs & Hid & Hn) Hlt Ht.
  assert (forall p, p ∈ sched_threads s -> p.1 < next_threadid s) as Hb
    by (intros [j u] Hj; apply Hid in Hj; simpl; lia).
  destruct (bt_insert_last (next_threadid s) t (sched_threads s) Hb) as [Hins Hget]. split.
  - split_and!; simpl; [|intros id u [Hu|[= -> ->]%list_elem_of_singleton]%elem_of_app; [|lia]|lia].
    + apply StronglySorted_app. split_and!; [|done|by repeat constructor].
      intros p q Hp ->%list_elem_of_singleton. by apply Hb.
    + apply Hid in Hu as [? ?]. lia.
  - unfold sched_add_thread. simpl. rewrite Ht, Hget, Hins. by rewrite bool_decide_true.
Qed.

Lemma alter_ok s id df :
  sched_ok s -> sched_ok (MkScheduler (bt_alter (set_data df) id (sched_threads s)) (next_threadid s)).
Proof.
  intros (Hs & Hid & Hn). split_and!; simpl; [|intros j t (p & Hp & Hin)%list_elem_of_In%List.in_map_iff|done].
  - unfold bt_sorted, bt_alter in *. induction Hs as [|p m Hm IH Hall]; simpl; [constructor|].
    constructor; [apply IH; intros j t Hj; apply Hid; by right|].
    rewrite Forall_forall in *. intros q (r & <- & Hr)%list_elem_of_In%List.in_map_iff.
    apply list_elem_of_In, Hall in Hr. by destruct (p.1 =? id), (r.1 =? id).
  - apply list_elem_of_In in Hin. destruct p as [k u]. apply Hid in Hin as [Hu Hk].
    simpl in Hp. destruct (k =? id); injection Hp as <- <-; [|done]. by split.
Qed.

Lemma sched_step_ok s o s' : sched_ok s -> (forall m, o = OpStart m -> forall id, th_id (m id) = id) ->
  sched_step s o = Ok s' -> sched_ok s'.
Proof.
  intros Hok Hm. destruct o as [m|id| | |id df]; simpl.
  - unfold new_threadid. intros ([id s1] & (n & [-> Hn]%chk_u_Ok & [= <- <-])%bind_Ok & H)%bind_Ok.
    destruct (start_ok s (m (next_threadid s)) Hok) as [Hok' Heq]; [lia|by apply Hm|].
    rewrite H in Heq. by injection Heq as ->.
  - intros [= <-]. eapply sched_ok_sublist; [done| |done]. apply sublist_filter.
  - intros [= <-]. eapply sched_ok_sublist; [done| |done]. apply sublist_filter.
  - intros [= <-]. eapply sched_ok_sublist; [done|apply sublist_nil_l|done].
  - intros [= <-]. by apply alter_ok.
Qed.

Lemma scheduler_new_ok : sched_ok scheduler_new.
Proof. split_and!; simpl; [constructor|by intros ? ? ?%elem_of_nil|done]. Qed.

Definition makes_ids (ops : list sched_op) : Prop := forall m, OpStart m ∈ ops -> forall id, th_id (m id) = id.

Lemma sched_run_ok ops s s' : sched_ok s -> makes_ids ops -> foldM sched_step s ops = Ok s' -> sched_ok s'.
Proof.
  revert s. induction ops as [|o ops IH]; intros s Hok Hm; [by intros [= <-]|].
  intros (s1 & H1 & H2)%bind_Ok. eapply IH; [|intros m Hin; apply Hm; by right|exact H2].
  eapply sched_step_ok; [done| |done]. intros m ->. apply Hm. by left.
Qed.

(** Thread ids are never reused. However threads have been started, reaped,
    removed or cancelled, the table is sorted and holds every thread under its
    own id, below the counter; and starting one more (with fewer than 2^64 - 1
    started so far) does not trip the assertion of [add_thread], changes no other
    entry, and puts the new thread last in the order [step] visits them. *)
Theorem thread_ids_fresh ops s (make : Z -> Thread) :
  foldM sched_step scheduler_new ops = Ok s -> makes_ids ops -> (forall id, th_id (make id) = id) ->
  sched_ok s /\
  (next_threadid s + 1 < 2 ^ 64 ->
   exists id s', sched_step s (OpStart make) = Ok s' /\ sched_ok s' /\ new_threadid s = Ok (id, MkScheduler (sched_threads s) (id + 1)) /\
     threads s' = threads s ++ [(id, make id)] /\ sched_thread id s = None /\
     sched_thread id s' = Some (make id) /\ (forall j, j <> id -> sched_thread j s' = sched_thread j s)).
Proof.
  intros Hrun Hm Hid. pose proof (sched_run_ok ops _ _ scheduler_new_ok Hm Hrun) as Hok.
  split; [done|]. intros Hlt. pose proof Hok as (_ & Hids & Hn).
  destruct (start_ok s (make (next_threadid s)) Hok Hlt (Hid _)) as [Hok' Hadd].
  assert (new_threadid s = Ok (next_threadid s, MkScheduler (sched_threads s) (next_threadid s + 1))) as Hnew.
  { unfold new_threadid. by rewrite add64_ok by lia. }
  assert (bt_get (next_threadid s) (sched_threads s) = None) as Hget.
  { apply (bt_insert_last (next_threadid s) (make 0)). intros [j u] Hj. apply Hids in Hj. simpl. lia. }
  exists (next_threadid s). eexists. simpl. rewrite Hnew. cbn [bind]. rewrite Hadd.
  split_and!; [done|done|done|done|done| |].
  - unfold sched_thread. simpl. rewrite bt_get_app, Hget. simpl. by rewrite Z.eqb_refl.
  - intros j Hj. unfold sched_thread. simpl. rewrite bt_get_app. simpl.
    destruct (bt_get j (sched_threads s)); [done|]. destruct (Z.eqb_spec (next_threadid s) j); [congruence|done].
Qed.

(** ** A thread alone *)

Section Single.
Context {BV : Bitvec} {X E R F : Type}.
Implicit Types (p : Process X E R F) (st : State X) (df : DataFlow).
Variable run_until_stalled : Process X E R F -> res (Process X E R F).
Variable choose : Z -> R -> Z * R.
Variable st0 : State X.
Variable prog : list Z.
Variable stn : State X.
Hypothesis Hprog : program st0 prog stn.
Hypothesis Huni : uniform st0 prog stn.
(** Every task has decoded all it had to. *)
Hypothesis Hidle : forall p, run_until_stalled p = Ok p.
Hypothesis Hchoose : forall n r, 0 < n -> 0 <= (choose n r).1 < n.

(** The process has one thread, whose result has been sent. *)
Definition single df p : Prop :=
  exists id t, threads (p_sched p) = [(id, t)] /\ th_data t = df /\ th_join t <> JoinPending.

Lemma pass_single df p b r df' st' :
  single df p -> step_pure df [] (p_state p) = Ok (b, r, df', st') ->
  exists p', step_threads (threads (p_sched p)) [] false p = Ok (b, r, p') /\
    p_state p' = st' /\ single df' p'.
Proof.
  intros (id & t & Hth & Hdf & Hj) Hst. rewrite Hth. cbn [step_threads]. rewrite Hdf, Hst. cbn [bind orb].
  eexists. split; [done|]. split; [done|]. exists id, (set_data df' t). simpl.
  split; [|done]. unfold threads in *. cbn [p_sched set_sched set_state sched_threads].
  etransitivity; [exact (f_equal (bt_alter (set_data df') id) Hth)|]. simpl. by rewrite Z.eqb_refl.
Qed.

Lemma reap_single df p :
  single df p -> let s := reap_threads (p_sched p) in
  (df_thunks df = [] -> threads s = []) /\ (df_thunks df <> [] -> single df (set_sched s p)).
Proof.
  intros (id & t & Hth & Hdf & Hj). unfold threads, reap_threads in *. cbn [sched_threads].
  rewrite Hth. unfold bt_retain.
  assert (alive t = true <-> df_thunks df <> []) as Ha.
  { unfold alive, df_len, zlen. rewrite Hdf. destruct (th_join t); [done|..]; rewrite Z.ltb_lt;
      (destruct (df_thunks df); simpl; [split; [lia|done]|split; [done|lia]]). }
  split; intros He.
  - rewrite filter_cons_False; [done|]. simpl. rewrite Ha. tauto.
  - exists id, t. split; [|done]. cbn [p_sched set_sched sched_threads].
    by rewrite filter_cons_True by (by apply Ha).
Qed.

(** The decoding loop ends, with the offers of a pass that changed nothing. *)
Lemma step_decode_single n df p :
  (unfinished prog (p_state p) < n)%nat -> single df p -> pipe st0 prog prog df (p_state p) ->
  exists df0 r df' p', step_decode run_until_stalled n p = Some (Ok (r, p')) /\
    pipe st0 prog prog df0 (p_state p') /\ step_pure df0 [] (p_state p') = Ok (false, r, df', p_state p') /\
    (unfinished prog (p_state p') <= unfinished prog (p_state p))%nat /\
    (df_thunks df' = [] -> threads (p_sched p') = []) /\ (df_thunks df' <> [] -> single df' p').
Proof.
  revert df p. induction n as [|n IH]; intros df p Hn Hs Hpipe; [lia|].
  destruct (pipe_ok _ _ _ Hprog _ _ _ Huni Hpipe) as [Hooo Hq].
  destruct (step_pure_ok _ _ _ Hprog _ _ _ Huni Hooo Hq) as (b & r & df' & st' & ts & Hst & _ & _ & _ & Hf & Hdf & Hts & Hl).
  destruct (pass_single df p b r df' st' Hs Hst) as (p1 & Hp1 & Hst1 & Hs1).
  destruct (reap_single df' p1 Hs1) as [Hnone Hsome].
  cbn [step_decode]. rewrite Hidle. cbn [bind]. rewrite Hp1. destruct b.
  - destruct (pass_progress _ _ _ Hprog _ _ _ _ _ _ Huni Hooo Hq Hst) as [Hlt Hne].
    destruct (IH df' (set_sched (reap_threads (p_sched p1)) p1)) as (df0 & r1 & df1 & p2 & H1 & H2 & H3 & H4 & H5).
    + simpl. rewrite Hst1. lia.
    + by apply Hsome.
    + simpl. rewrite Hst1. by eapply pipe_pass.
    + exists df0, r1, df1, p2. split_and!; [done..| |apply H5|apply H5]. simpl in H4. rewrite Hst1 in H4. lia.
  - rewrite (Hf eq_refl) in *. exists df, r, df'. eexists. split; [done|]. simpl. rewrite Hst1.
    split_and!; [done..|]. exact Hsome.
Qed.

Hypothesis Hready : atomics_ready st0 prog.
Hypothesis Huntraced : untraced st0 prog.

(** One call of [Process::step]. *)
Lemma step_single n df p :
  (unfinished prog (p_state p) < n)%nat -> single df p -> pipe st0 prog prog df (p_state p) ->
  exists b p', step run_until_stalled choose n p = Some (Ok (b, p')) /\
    if b then exists df', single df' p' /\ pipe st0 prog prog df' (p_state p') /\
      (unfinished prog (p_state p') < unfinished prog (p_state p))%nat
    else threads (p_sched p') = [] /\ exists df', pipe st0 prog prog df' (p_state p') /\
      forall t, t ∈ prog -> val (p_state p') t <> None.
Proof.
  intros Hn Hs Hpipe. destruct (step_decode_single n df p Hn Hs Hpipe)
    as (df0 & r & df' & p1 & H1 & Hp1 & Hst & Hle & Hnil & Hcons).
  unfold step. rewrite H1.
  assert (forall t q, t ∈ r -> p_state q = p_state p1 -> p_sched q = p_sched p1 ->
    exists p', step_resolvable t q = Ok (true, p') /\ exists df', single df' p' /\ pipe st0 prog prog df' (p_state p') /\
      (unfinished prog (p_state p') < unfinished prog (p_state p))%nat) as Hrun.
  { intros t q Ht Hq1 Hq2. destruct (offered_runs st0 prog stn Hprog prog df0 _ r df' t Huni Hready Hp1 Hst Ht) as (_ & Htd & st' & Hs' & Hp' & Hlt).
    unfold step_resolvable. rewrite Hq1, Hs'. cbn [bind]. eexists. split; [done|]. exists df'. simpl.
    split_and!; [|done|lia]. destruct (decide (df_thunks df' = [])) as [He|He]; [by rewrite He in Htd; apply elem_of_nil in Htd|].
    destruct (Hcons He) as (id & th & Hth & ?). exists id, th. unfold threads in *. simpl. by rewrite Hq2. }
  destruct r as [|t [|u r]]; cbn [step_choose].
  - destruct (pipe_ok _ _ _ Hprog _ _ _ Huni Hp1) as [Hooo Hq].
    assert (forall t, t ∈ prog -> val (p_state p1) t <> None) as Hdone.
    { intros t Ht Hnone. destruct (queue_offers _ _ _ Hprog prog df0 _ [] df' Huni Hooo Hq Hst) as (x & ? & Hx & _).
      - by exists t.
      - by apply elem_of_nil in Hx. }
    assert (threads (p_sched p1) = []) as Hth.
    { apply Hnil. destruct (step_pure_ok _ _ _ Hprog _ _ _ Huni Hooo Hq) as (b1 & r1 & df1 & st1 & ts & Hst1 & _ & _ & _ & _ & Hdf & Hts & _).
      rewrite Hst in Hst1. injection Hst1 as <- <- <- <-. rewrite Hdf. destruct ts as [|x ts]; [done|].
      destruct (proj1 (Hts x)) as [Hx Hxn]; [by left|]. by destruct (Hdone x Hx). }
    rewrite Hth. eexists false, _. split; [done|]. split; [done|]. by exists df0.
  - destruct (Hrun t p1) as (p' & -> & H); [by left|done..|]. by exists true, p'.
  - rewrite (offers_untraced _ _ _ Hprog prog df0 _ _ df' Huni Hp1 Hst Huntraced). cbn [bind].
    destruct (choose _ _) as [i rng] eqn:Ec.
    assert (0 <= i < zlen (t :: u :: r)) as Hi.
    { change i with (i, rng).1. rewrite <- Ec. apply Hchoose. unfold zlen. simpl. lia. }
    destruct (zget_in_bounds (t :: u :: r) i Hi) as [x Hx]. unfold index. rewrite Hx. cbn [bind].
    destruct (Hrun x (set_rng rng p1)) as (p' & -> & H); [|done..|by exists true, p'].
    eapply list_elem_of_lookup_2. unfold zget in Hx. destruct (0 <=? i); [exact Hx|done].
Qed.

Lemma run_single m n df p :
  (unfinished prog (p_state p) < n)%nat -> (unfinished prog (p_state p) < m)%nat ->
  single df p -> pipe st0 prog prog df (p_state p) ->
  exists p', run run_until_stalled choose m n p = Some (Ok p') /\ threads (p_sched p') = [] /\
    exists df', pipe st0 prog prog df' (p_state p') /\ forall t, t ∈ prog -> val (p_state p') t <> None.
Proof.
  revert df p. induction m as [|m IH]; intros df p Hn Hm Hs Hpipe; [lia|]. cbn [run].
  destruct (step_single n df p Hn Hs Hpipe) as ([] & p' & -> & H).
  - destruct H as (df' & Hs' & Hp' & Hlt). apply (IH df' p'); [lia|lia|done..].
  - exists p'. split; [done|]. destruct H as [Hth H]. split; [exact Hth|exact H].
Qed.
End Single.

(** ** Thread-local variables *)

Section Claims.
Context {BV : Bitvec} {X E R F : Type}.
Implicit Types (p : Process X E R F).

Definition p_memory p : MemoryInner := w_memory (world (p_state p)).

(** Running a process with one thread that has been decoded, whose accesses
    are to equal or disjoint bytes and whose atomic operations have operands
    that do not wait for memory: the loop of [main] ends after at most one call of [Process::step]
    per thunk and one more, whichever operations the random generator picks; no
    call panics; the thread is then reaped, and the values, the memory and the
    rest of the process are those of running the thunks in program order. *)
Theorem process_runs_program (run_until_stalled : Process X E R F -> res (Process X E R F))
    (choose : Z -> R -> Z * R) prog stn df p :
  program (p_state p) prog stn -> uniform (p_state p) prog stn -> atomics_ready (p_state p) prog ->
  untraced (p_state p) prog ->
  (forall q, run_until_stalled q = Ok q) -> (forall n r, 0 < n -> 0 <= (choose n r).1 < n) ->
  single df p -> df_thunks df = prog ->
  exists p', run run_until_stalled choose (S (length prog)) (S (length prog)) p = Some (Ok p') /\
    threads (p_sched p') = [] /\
    (forall t, t ∈ prog -> val (p_state p') t = val stn t) /\
    (forall b, byte_at (p_memory p') b = byte_at (w_memory (world stn)) b) /\
    w_rest (world (p_state p')) = w_rest (world stn).
Proof.
  intros Hp Hu Ha Hunt Hidle Hchoose Hs Hdf.
  assert (unfinished prog (p_state p) <= length prog)%nat as Hle.
  { unfold unfinished. apply sublist_length, sublist_filter. }
  destruct (run_single run_until_stalled choose (p_state p) prog stn Hp Hu Hidle Hchoose Ha Hunt
              (S (length prog)) (S (length prog)) df p) as (p' & Hrun & Hth & df' & Hpipe & Hdone);
    [lia|lia|done|by apply pipe_decoded|].
  exists p'. split; [done|]. split; [done|].
  destruct (pipe_ok _ _ _ Hp _ _ _ Hu Hpipe) as [Hooo _]. by apply (ooo_final _ _ _ Hp).
Qed.

(** The first use of a thread-local variable by a thread allocates an aligned
    block beyond everything allocated before, stores the initial value there
    and changes no byte elsewhere; the address then loads that value. Every
    later use by the same thread returns the same address and changes nothing,
    whatever has happened to the process since. *)
Theorem thread_local_once key (t : Thread) p l v :
  thread_local_inits (p_defs p) !! key = Some (l, v) -> th_locals t !! key = None ->
  mem_ok (p_memory p) -> 0 <= next (p_memory p) -> Layout.wf l -> Value.wf v -> bits v = Layout.bits l ->
  next (p_memory p) + demand l < 2 ^ 64 ->
  exists ptr t' p', thread_local key t p = Ok (ptr, t', p') /\
    next (p_memory p) <= ptr /\ (Layout.bit_align l / 8 | ptr) /\
    ptr + zlen (imp v) + HEAP_GUARD = next (p_memory p') /\ mem_ok (p_memory p') /\
    (forall id a o, load_impl id ptr (MkLayout (bits v) a) o (p_memory p') = Ok v) /\
    (forall b, ~ ptr <= b < ptr + zlen (imp v) -> byte_at (p_memory p') b = byte_at (p_memory p) b) /\
    (forall q : Process X E R F, thread_local key t' q = Ok (ptr, t', q)) /\
    (forall k, k <> key -> th_locals t' !! k = th_locals t !! k).
Proof.
  intros Hi Ht Hm Hn Hl Hv Hb Hd. pose proof Hv as (Hb0 & Hb64 & Hlen & Hby).
  unfold p_memory in *.
  destruct (alloc_spec (th_id t) l _ Hl ltac:(lia) Hn Hd) as (ptr & m & Hal & Hcells & Hp & Hal8 & Hnext & Hle).
  assert (mem_ok m) as Hm1 by (unfold mem_ok in *; by rewrite Hcells).
  rewrite <- Hb, <- Hlen in Hnext. unfold HEAP_GUARD in *.
  destruct (store_bytes (th_id t) ptr v ONone m Hm1 Hby) as (m2 & Hst & Hn2 & Hm2 & Hbytes & _); [lia|lia|].
  exists ptr. eexists _, _. split.
  { unfold thread_local. rewrite Ht. unfold thread_local_init, unwrap. rewrite Hi. cbn [bind].
    rewrite Hal. cbn [bind]. rewrite Hst. cbn [bind]. reflexivity. }
  simpl. split_and!; [done|done|lia|done| | | |].
  - intros id a o. apply (load_stored m (th_id t) ptr v ONone); [done|done|lia|lia|done].
  - intros b Hnb. rewrite Hbytes. unfold byte_at. rewrite Hcells.
    destruct (Z.leb_spec ptr b), (Z.ltb_spec b (ptr + zlen (imp v))); simpl; done || lia.
  - intros q. unfold thread_local. simpl. by rewrite lookup_insert_eq.
  - intros k Hk. by rewrite lookup_insert_ne.
Qed.
End Claims.

(** ** What can be printed *)

Lemma addr_printable {BV : Bitvec} p v : addr p = Ok v -> printable v = true.
Proof. unfold addr. intros (u & _ & H)%bind_Ok. by apply from_int_printable in H. Qed.

(** The values of a thunk and of what it depends on can be printed. *)
Ltac prints :=
  cbn [forallb]; repeat (apply andb_true_intro; split);
  first [ reflexivity | assumption | eapply addr_printable; eassumption
        | eapply from_int_printable; [|eassumption]; reflexivity | eapply from_unit_printable; eassumption
        | apply printable_bytes; congruence ].

(** ** Samples *)

Definition sample_process (dfs : list (Z * DataFlow)) (st : State unit) : Process unit unit unit unit :=
  MkProcess st
    (MkScheduler (map (fun p => (p.1, MkThread p.1 p.2 ∅ (JoinSent 0))) dfs) (zlen dfs))
    symbols_new (MkDefs ∅ {[5 := (MkLayout 16 16, MkValue [3; 4] 16)]}) tt tt.

Definition pick_first (n : Z) (r : unit) : Z * unit := (0, r).
Definition pick_last (n : Z) (r : unit) : Z * unit := (n - 1, r).

Lemma sample_atomics_ready : atomics_ready sample_st0 sample_prog.
Proof.
  intros t i d Ht Hi Ha Hd. apply computable_known. assert (val sample_st0 d <> None) as Hv; [|by destruct (val sample_st0 d); [eexists|]].
  apply (f_equal (fmap (fun i => (t_deps i, t_atomicity i)))) in Hi.
  each_thunk Ht; vm_compute in Hi; apply (inj Some) in Hi; unfold t_deps, t_atomicity in Hd, Ha;
    injection Hi as Hi1 Hi2; rewrite <- Hi1 in Hd; rewrite <- Hi2 in Ha; try done;
    each_thunk Hd; vm_compute; discriminate.
Qed.

Lemma sample_untraced : untraced sample_st0 sample_prog.
Proof.
  intros t i Ht Hi. apply (f_equal (fmap t_tracing)) in Hi.
  each_thunk Ht; vm_compute in Hi; apply (inj Some) in Hi; exact (eq_sym Hi).
Qed.

Lemma process_runs_program_witness :
  exists p', run Ok pick_last 5 5 (sample_process [(0, sample_df)] sample_st0) = Some (Ok p') /\
    threads (p_sched p') = [] /\
    (forall t, t ∈ sample_prog -> val (p_state p') t = val sample_stn t) /\
    (forall b, byte_at (p_memory p') b = byte_at (w_memory (world sample_stn)) b) /\
    w_rest (world (p_state p')) = w_rest (world sample_stn).
Proof.
  refine (process_runs_program Ok pick_last sample_prog sample_stn sample_df
            (sample_process [(0, sample_df)] sample_st0) sample_program sample_uniform sample_atomics_ready sample_untraced
            _ _ _ _).
  - intros q. reflexivity.
  - intros n r Hn. cbn. lia.
  - eexists _, _. split; [reflexivity|]. split; [reflexivity|discriminate].
  - vm_compute. reflexivity.
Defined.

Definition sample_starts : list sched_op :=
  [OpStart (fun id => MkThread id (df_new id) ∅ (JoinSent 1));
   OpStart (fun id => MkThread id (df_new id) ∅ JoinPending); OpReap].

Lemma sample_starts_ids : makes_ids sample_starts.
Proof.
  intros m Hm id. unfold sample_starts in Hm.
  repeat (apply elem_of_cons in Hm as [Hm|Hm]; [first [discriminate Hm|by injection Hm as ->]|]). by apply elem_of_nil in Hm.
Qed.

Lemma thread_ids_fresh_witness :
  let make := fun id => MkThread id (df_new id) ∅ JoinPending in
  let s := MkScheduler [(1, MkThread 1 (df_new 1) ∅ JoinPending)] 2 in
  foldM sched_step scheduler_new sample_starts = Ok s /\
  exists id s', sched_step s (OpStart make) = Ok s' /\ sched_ok s' /\
    new_threadid s = Ok (id, MkScheduler (sched_threads s) (id + 1)) /\
    threads s' = threads s ++ [(id, make id)] /\ sched_thread id s = None /\
    sched_thread id s' = Some (make id) /\ (forall j, j <> id -> sched_thread j s' = sched_thread j s).
Proof.
  intros make s. assert (foldM sched_step scheduler_new sample_starts = Ok s) as Hrun by (vm_compute; reflexivity).
  split; [exact Hrun|]. apply (proj2 (thread_ids_fresh sample_starts s make Hrun sample_starts_ids ltac:(reflexivity))).
  reflexivity.
Defined.

Lemma thread_local_once_witness :
  let t := MkThread 0 (df_new 0) ∅ JoinPending in
  let p := sample_process [] (MkState ∅ (MkWorld mem_new tt) []) in
  exists ptr t' p', thread_local 5 t p = Ok (ptr, t', p') /\
    next (p_memory p) <= ptr /\ (Layout.bit_align (MkLayout 16 16) / 8 | ptr) /\
    ptr + zlen (imp (MkValue [3; 4] 16)) + HEAP_GUARD = next (p_memory p') /\ mem_ok (p_memory p') /\
    (forall id a o, load_impl id ptr (MkLayout 16 a) o (p_memory p') = Ok (MkValue [3; 4] 16)) /\
    (forall b, ~ ptr <= b < ptr + zlen (imp (MkValue [3; 4] 16)) -> byte_at (p_memory p') b = byte_at (p_memory p) b) /\
    (forall q : Process unit unit unit unit, thread_local 5 t' q = Ok (ptr, t', q)) /\
    (forall k, k <> 5 -> th_locals t' !! k = th_locals t !! k).
Proof.
  intros t p. apply (thread_local_once 5 t p (MkLayout 16 16) (MkValue [3; 4] 16)).
  - reflexivity.
  - reflexivity.
  - apply mem_new_ok.
  - vm_compute. discriminate.
  - split; [simpl; lia|]. split; [simpl; lia|]. by exists 4.
  - apply value_ok_wf. reflexivity.
  - reflexivity.
  - vm_compute. reflexivity.
Defined.

(** ** Where [step] fails *)

(** A load of 200 and a store of the loaded value to 201, both relaxed. *)
Definition copy_code : DataFlow * State unit :=
  decode_all [d_load 10 1 8 Relaxed; d_store 11 2 10 8 Relaxed].

Definition outcome (o : option (res (bool * Process unit unit unit unit))) : option (res bool) :=
  match o with Some (Ok (b, _)) => Some (Ok b) | Some (Panic e) => Some (Panic e) | None => None end.

(** [step_pure] offers the store although its value is not known yet; if the random
    generator picks it, the process dies ([Barriers] has the general statement). *)
Example copy_picked :
  offers copy_code = [10; 11] /\
  outcome (step Ok pick_first 3 (sample_process [(0, copy_code.1)] copy_code.2)) = Some (Ok true) /\
  outcome (step Ok pick_last 3 (sample_process [(0, copy_code.1)] copy_code.2)) = Some (Panic AssertFailed).
Proof. split; [|split]; vm_compute; reflexivity. Qed.

(** Thread 0 is about to load 200, thread 1 to store to 201 with release. *)
Definition race_reader : DataFlow * State unit := decode_all [d_load 10 1 8 Relaxed].
Definition race_writer : DataFlow * State unit := decode_from (df_new 1, race_reader.2) [d_store 20 2 4 8 Release].

Definition offered (dfs : list (Z * DataFlow)) : option (list Z) :=
  match step_decode Ok 3 (sample_process dfs race_writer.2) with Some (Ok (r, _)) => Some r | _ => None end.

(** Whether a release operation is offered depends on the operations of the
    other threads: the vector of offers that [step_pure] tests is the one all
    threads share. A thread whose only pending operation is a release store is
    not offered while a thread before it has any operation to offer, and is
    when it comes first. *)
Theorem release_waits_for_other_threads :
  offered [(1, race_writer.1)] = Some [20] /\
  offered [(0, race_reader.1); (1, race_writer.1)] = Some [10] /\
  offered [(0, race_writer.1); (1, race_reader.1)] = Some [20; 10].
Proof. split; [|split]; vm_compute; reflexivity. Qed.
