(* ===== verification/Barriers.v ===== *)
(** * Barriers: what a process with any number of threads offers

    [Order] is about one pass over one queue. Here the passes are those of
    [Process::step], over the queues of all threads, while the tasks decode and
    wait as they like: when the loop of [main] picks an operation, what a release
    and an acquire of its thread had to wait for has been performed. *)

From S2P Require Import Prelude Text RangeMap MemOrdering Layout Bitvec Value Memory Symbols Mutex Classes Operation.
From S2P Require Import Data Local Pipeline Order Process.

(** ** The queue of a thread *)

Section Queues.
Context {X : Type}.
Implicit Types (st : State X) (t u : Z) (ts res : list Z).

(** Thunks wait only for what was decoded before them. *)
Fixpoint deps_before st (seen ts : list Z) : Prop :=
  match ts with
  | [] => True
  | t :: ts => (forall i d, heap st !! t = Some i -> d ∈ t_deps i -> val st d <> None \/ d ∈ seen) /\ deps_before st (t :: seen) ts
  end.

Definition thunk_wf st (id t : Z) : Prop := exists i, heap st !! t = Some i /\
  t_thread i = id /\ t_value i <> Sandbag /\ (forall a l, t_address i = Some (a, l) -> a ∈ t_deps i).

(** The queue of the thread [id]: its own thunks, each once, in an order the
    dependencies respect. *)
Record queue_wf st (id : Z) ts : Prop := {
  qw_dup : NoDup ts;
  qw_thunk t : t ∈ ts -> thunk_wf st id t;
  qw_deps : deps_before st [] ts
}.

Lemma thunk_wf_keeps st st' id t : keeps st st' -> thunk_wf st id t -> thunk_wf st' id t.
Proof.
  intros [K1 _ K3] (i & Hi & Hid & Hs & Ha). destruct (K1 t i Hi) as (i1 & Hi1 & Ha1 & _).
  destruct (K3 t i Hi) as (i2 & Hi2 & Hd & Ht & Hs2). assert (i2 = i1) as -> by congruence.
  exists i1. split_and!; [done|congruence|auto|]. intros a l. rewrite Ha1, Hd. apply Ha.
Qed.

Lemma deps_before_keeps st st' seen ts : keeps st st' -> (forall t, t ∈ ts -> is_Some (heap st !! t)) ->
  deps_before st seen ts -> deps_before st' seen ts.
Proof.
  intros K. revert seen. induction ts as [|t ts IH]; intros seen Hp; [done|]. intros [H1 H2]. split.
  - intros i' d Hi' Hd. destruct (Hp t ltac:(by left)) as [i Hi].
    destruct (kp_code _ _ K t i Hi) as (i2 & Hi2 & Hd2 & _). assert (i2 = i') as -> by congruence.
    rewrite Hd2 in Hd. destruct (H1 i d Hi Hd) as [Hv|]; [left|by right].
    destruct (val st d) as [v|] eqn:Ev; [|done]. by rewrite (kp_val _ _ K d v Ev).
  - apply IH; [|done]. intros u Hu. apply Hp. by right.
Qed.

Lemma queue_wf_keeps st st' id ts : keeps st st' -> queue_wf st id ts -> queue_wf st' id ts.
Proof.
  intros K [Q1 Q2 Q3]. split; [done|intros t Ht; by eapply thunk_wf_keeps, Q2|].
  apply (deps_before_keeps st); [done| |done]. intros t Ht. destruct (Q2 t Ht) as (i & Hi & _). by exists i.
Qed.

(** The passes leave the thunks that have no value yet. *)
Lemma retained_filter st ts ts1 : retain_pending st ts = Ok ts1 -> ts1 = filter (fun t => val st t = None) ts.
Proof.
  revert ts1. induction ts as [|t ts IH]; intros ts1; cbn [retain_pending]; [by intros [= <-]|].
  intros (o & Ho & (r & Hr & [= <-])%bind_Ok)%bind_Ok. rewrite filter_cons, (IH r Hr). destruct o as [v|].
  - apply try_get_val in Ho. by rewrite decide_False by congruence.
  - apply try_get_none in Ho. by rewrite decide_True.
Qed.

Lemma deps_before_filter st seen seen' ts : (forall d, d ∈ seen -> val st d <> None \/ d ∈ seen') ->
  deps_before st seen ts -> deps_before st seen' (filter (fun t => val st t = None) ts).
Proof.
  revert seen seen'. induction ts as [|t ts IH]; intros seen seen' Hs; [done|]. intros [H1 H2]. rewrite filter_cons.
  destruct (decide (val st t = None)) as [Ht|Ht].
  - split.
    + intros i d Hi Hd. destruct (H1 i d Hi Hd) as [?|Hin]; [by left|by apply Hs].
    + apply (IH (t :: seen)); [|done]. intros d [->|Hd]%elem_of_cons; [right; by left|].
      destruct (Hs d Hd) as [?|?]; [by left|right; by right].
  - apply (IH (t :: seen)); [|done]. intros d [->|Hd]%elem_of_cons; [by left|by apply Hs].
Qed.

Lemma queue_wf_retained st id ts ts1 : retain_pending st ts = Ok ts1 -> queue_wf st id ts ->
  queue_wf st id ts1 /\ forall t, t ∈ ts1 -> val st t = None.
Proof.
  intros ->%retained_filter [Q1 Q2 Q3]. split; [split|].
  - by apply NoDup_filter.
  - intros t [_ Ht]%list_elem_of_filter. by apply Q2.
  - by apply (deps_before_filter _ []); [intros d ?%elem_of_nil|].
  - by intros t [? _]%list_elem_of_filter.
Qed.

(** Decoding a thunk whose operands exist, in a slot nothing refers to, keeps the
    queue. *)
Lemma deps_before_snoc st seen ts t : deps_before st seen ts ->
  (forall i d, heap st !! t = Some i -> d ∈ t_deps i -> val st d <> None \/ d ∈ seen \/ d ∈ ts) -> deps_before st seen (ts ++ [t]).
Proof.
  revert seen. induction ts as [|u ts IH]; intros seen; simpl.
  - intros _ Ht. split; [|done]. intros i d Hi Hd. destruct (Ht i d Hi Hd) as [?|[?|?%elem_of_nil]]; [by left|by right|done].
  - intros [H1 H2] Ht. split; [done|]. apply IH; [done|]. intros i d Hi Hd. set_solver.
Qed.

Lemma fresh_keeps st t i w wk : heap st !! t = None -> keeps st (MkState (<[t := i]> (heap st)) w wk).
Proof.
  intros Ht. assert (forall u j, heap st !! u = Some j -> <[t := i]> (heap st) !! u = Some j) as Hu.
  { intros u j Hj. rewrite lookup_insert_ne; [done|]. intros ->. congruence. }
  split.
  - intros u j Hj. exists j. split; [by apply Hu|done].
  - unfold val. simpl. intros u v. destruct (heap st !! u) as [j|] eqn:Hj; [|done]. by rewrite (Hu u j Hj).
  - intros u j Hj. exists j. split; [by apply Hu|done].
Qed.

Lemma decode_queue_wf known t bt address o deps c this st t' df' st' :
  heap st !! t = None -> queue_wf st (df_thread this) (df_thunks this) ->
  (forall d, d ∈ deps -> val st d <> None \/ d ∈ df_thunks this) -> (forall a l, address = Some (a, l) -> a ∈ deps) ->
  thunk_impl known t bt address o deps c this st = Ok (Some (t', df', st')) ->
  keeps st st' /\ queue_wf st' (df_thread df') (df_thunks df').
Proof.
  intros Ht Hq Hd Ha. unfold thunk_impl. intros (u & _ & H)%bind_Ok. destruct (PIPELINE_SIZE <=? df_len this); [done|].
  apply bind_Ok in H as (seq' & _ & (line & _ & [= <- <- <-])%bind_Ok). cbn [df_thread df_thunks].
  pose proof (fresh_keeps st t (MkThunk (df_thread this) (df_seq this) deps address o bt (Pending c) [] (df_tracing this))
    (world st) (woken st) Ht) as K. split; [done|].
  destruct (queue_wf_keeps _ _ _ _ K Hq) as [Q1 Q2 Q3]. split.
  - apply NoDup_app. split_and!; [done| |apply NoDup_singleton]. intros x Hx ->%list_elem_of_singleton.
    destruct (qw_thunk _ _ _ Hq t Hx) as (i & Hi & _). congruence.
  - intros x [Hx|Hx%list_elem_of_singleton]%elem_of_app; [by apply Q2|subst x].
    eexists. simpl. rewrite lookup_insert_eq. by split_and!.
  - apply deps_before_snoc; [done|]. simpl. rewrite lookup_insert_eq. intros i d [= <-] Hdep. simpl in Hdep.
    destruct (Hd d Hdep) as [Hv|Hin]; [left|by right; right].
    destruct (val st d) as [v|] eqn:Ev; [|done]. by rewrite (kp_val _ _ K d v Ev).
Qed.

(** ** A pass that runs nothing *)

Lemma progress_stays ts pend res st p r st' : step_loop ts pend res true st = Ok (p, r, st') -> p = true.
Proof.
  revert pend res st. induction ts as [|t ts IH]; intros pend res st; cbn [step_loop]; [by intros [= <-]|].
  intros (i & _ & H)%bind_Ok. destruct (t_address i) as [[a l]|].
  2: { apply bind_Ok in H as ([b st1] & _ & H). by apply IH in H. }
  apply bind_Ok in H as (o & _ & H). destruct o as [v|]; [|by injection H].
  apply bind_Ok in H as (len & _ & (hi & _ & (al & _ & H)%bind_Ok)%bind_Ok).
  destruct al; [|by eapply IH]. apply bind_Ok in H as (pend' & _ & H).
  destruct (t_atomicity i); try (by injection H); try (by apply IH in H).
  apply bind_Ok in H as ([b st1] & _ & H). by apply IH in H.
Qed.

Lemma loop_quiet ts pend res prg st r st' : step_loop ts pend res prg st = Ok (false, r, st') -> prg = false /\ st' = st.
Proof.
  intros H. assert (prg = false) as Hp.
  { destruct prg; [|done]. by apply progress_stays in H. }
  split; [done|]. subst prg. revert pend res H. induction ts as [|t ts IH]; intros pend res; cbn [step_loop]; [by intros [= _ ->]|].
  intros (i & _ & H)%bind_Ok.
  assert (forall pend res, (let! (b, st) := Data.step t st in step_loop ts pend res (false || b) st) = Ok (false, r, st') -> st' = st) as Hrun.
  { intros pend1 res1 ([b st1] & Hs & H1)%bind_Ok. destruct b.
    - by apply progress_stays in H1.
    - apply step_false in Hs as ->. by eapply IH. }
  destruct (t_address i) as [[a l]|]; [|by eapply Hrun].
  apply bind_Ok in H as (o & _ & H). destruct o as [v|]; [|by injection H].
  apply bind_Ok in H as (len & _ & (hi & _ & (al & _ & H)%bind_Ok)%bind_Ok).
  destruct al; [|by eapply IH]. apply bind_Ok in H as (pend' & _ & H).
  destruct (t_atomicity i); first [by eapply Hrun|by eapply IH|by injection H].
Qed.

(** The oldest thunk has all it waits for, so it is an operation that is offered. *)
Lemma quiet_head h ts res st r st' i :
  heap st !! h = Some i -> val st h = None -> t_value i <> Sandbag -> (forall d, d ∈ t_deps i -> val st d <> None) ->
  (forall a l, t_address i = Some (a, l) -> a ∈ t_deps i) ->
  step_loop (h :: ts) RangeMap.new res false st = Ok (false, r, st') ->
  exists r1, (if bool_decide (t_atomicity i = Release) then res = [] -> r = h :: r1 else r = res ++ h :: r1).
Proof.
  intros Hi Hv Hsb Hdeps Haddr H.
  assert (forall b st1, Data.step h st = Ok (b, st1) -> b = true) as Hruns.
  { intros b st1. unfold Data.step, deref. rewrite Hi. cbn [bind]. intros (o & Ho & Hx)%bind_Ok. destruct o as [args|].
    - unfold val in Hv. rewrite Hi in Hv. destruct (t_value i); [|done..].
      apply bind_Ok in Hx as (? & _ & ([v w] & _ & (? & _ & [= <- _])%bind_Ok)%bind_Ok). done.
    - exfalso. clear -Ho Hdeps. revert Ho. induction (t_deps i) as [|d ds IH]; cbn [get_args]; [done|].
      intros (o & Ho & Hx)%bind_Ok. destruct o as [v|]; [|apply try_get_none in Ho; by apply (Hdeps d ltac:(by left))].
      apply bind_Ok in Hx as ([vs|] & Hvs & Hx); [done|]. apply IH; [|done]. intros e He. apply Hdeps. by right. }
  cbn [step_loop] in H. unfold deref in H. rewrite Hi in H. cbn [bind] in H.
  destruct (t_address i) as [[a l]|] eqn:Ha.
  2: { apply bind_Ok in H as ([b st1] & Hs & H). rewrite (Hruns _ _ Hs) in H. by apply loop_quiet in H as [? _]. }
  apply bind_Ok in H as (o & Ho & H). destruct o as [v|].
  2: { apply try_get_none in Ho. by destruct (Hdeps a (Haddr a l eq_refl)). }
  apply bind_Ok in H as (len & _ & (hi & _ & (al & Hal & H)%bind_Ok)%bind_Ok).
  assert (al = []) as -> by (unfold RangeMap.range, range_bounds in Hal; simpl in Hal; by injection Hal as <-).
  apply bind_Ok in H as (pend1 & Hins & H).
  assert (RangeMap.wf pend1) as Hw1 by (by apply (insert_spec_get _ _ _ _ (wf_new (V := unit)) Hins)).
  destruct (t_atomicity i) eqn:Hoo; rewrite ?bool_decide_false, ?bool_decide_true by congruence.
  - apply bind_Ok in H as ([b st1] & Hs & H). rewrite (Hruns _ _ Hs) in H. by apply loop_quiet in H as [? _].
  - destruct (loop_keeps _ _ _ _ _ _ _ _ Hw1 H) as (_ & (r1 & -> & _) & _). exists r1. by rewrite <- app_assoc.
  - injection H as <- _. by exists [].
  - destruct res as [|x res]; [|exists []; done].
    destruct (loop_keeps _ _ _ _ _ _ _ _ Hw1 H) as (_ & (r1 & -> & _) & _). by exists r1.
  - injection H as <- _. by exists [].
  - injection H as <- _. by exists [].
Qed.

(** Nothing after an acquire that is offered is offered. *)
Lemma loop_acquire ts pend res prg st p r st' pre t post i r1 :
  RangeMap.wf pend -> NoDup ts -> step_loop ts pend res prg st = Ok (p, r, st') -> ts = pre ++ t :: post ->
  heap st !! t = Some i -> acquires (t_atomicity i) -> r = res ++ r1 -> t ∈ r1 -> forall u, u ∈ post -> u ∉ r1.
Proof.
  revert pend res prg st pre i r1. induction ts as [|h ts IH]; intros pend res prg st pre i r1 Hw Hnd Hl Hts Hi Hacq Hr Ht u Hu.
  { by destruct pre. }
  apply NoDup_cons in Hnd as [Hh Hnd].
  assert (h = t /\ ts = post \/ exists pre', ts = pre' ++ t :: post) as Hpos.
  { destruct pre as [|x pre]; injection Hts as -> ->; [by left|right; by exists pre]. }
  assert (forall pend1 res1 prg1 st1 x, RangeMap.wf pend1 -> keeps st st1 -> step_loop ts pend1 res1 prg1 st1 = Ok (p, r, st') ->
    res1 = res ++ x -> (forall y, y ∈ x -> y = h) -> (x <> [] -> h <> t) -> u ∉ r1) as Hrest.
  { intros pend1 res1 prg1 st1 x Hw1 K H Hres1 Hx Hht. destruct (kp_thunk _ _ K t i Hi) as (i1 & Hi1 & _ & Ho1).
    destruct (loop_keeps _ _ _ _ _ _ _ _ Hw1 H) as (_ & (r2 & Hr2 & Hin) & _).
    assert (r1 = x ++ r2) as -> by (rewrite Hr2, Hres1, <- app_assoc in Hr; by apply app_inv_head in Hr).
    assert (t ∈ r2) as Ht2 by (apply elem_of_app in Ht as [Ht|]; [|done]; pose proof (Hx t Ht); destruct x; [by apply elem_of_nil in Ht|by destruct Hht]).
    assert (exists pre', ts = pre' ++ t :: post) as [pre' Hpre'] by (destruct Hpos as [[-> _]|?]; [by destruct Hh; apply Hin|done]).
    assert (u ∈ ts) as Huts by (rewrite Hpre'; set_solver).
    intros [Hux|Hu2]%elem_of_app; [by apply Hh; rewrite <- (Hx u Hux)|].
    eapply (IH pend1 res1 prg1 st1 pre' i1 r2); eauto. congruence. }
  assert (forall y : Z, y ∈ [] -> y = h) as Hno by (by intros y ?%elem_of_nil).
  destruct (step_loop_turn _ _ _ _ _ _ _ _ _ Hw Hl) as
    [j b st1 Hj Ha Hst H|j a l Hj Ha -> ->|j a l v n b Hj Ha Hv Hn Hb Hg H
    |j a l v n pend1 res1 prg1 st1 b Hj Ha Hv Hn Hfree Hins Hna Hres Hrel Hst H|j a l v n Hj Ha Hv Hn Hfree Ha' -> ->].
  - exact (Hrest pend res (prg || b) st1 [] Hw (proj1 (rest_starts _ _ _ _ (or_intror Hst))) H (eq_sym (app_nil_r res)) Hno (fun n => match n eq_refl with end)).
  - rewrite <- (app_nil_r res) in Hr at 1. apply app_inv_head in Hr as <-. by apply elem_of_nil in Ht.
  - exact (Hrest pend res prg st [] Hw (keeps_refl st) H (eq_sym (app_nil_r res)) Hno (fun n => match n eq_refl with end)).
  - destruct (insert_spec_get _ _ _ _ Hw Hins) as [Hw1 _]. destruct (rest_starts _ _ _ _ Hst) as [K _].
    destruct Hres as [->| ->].
    + exact (Hrest pend1 res prg1 st1 [] Hw1 K H (eq_sym (app_nil_r res)) Hno (fun n => match n eq_refl with end)).
    + apply (Hrest pend1 (res ++ [h]) prg1 st1 [h] Hw1 K H eq_refl); [by intros y ?%list_elem_of_singleton|].
      intros _ ->. by assert (j = i) as -> by congruence.
  - apply app_inv_head in Hr as <-. apply list_elem_of_singleton in Ht as ->.
    destruct Hpos as [[_ ->]|[pre' ->]]; [|set_solver]. by intros ->%list_elem_of_singleton.
Qed.

(** What a pass that runs nothing offers of a well-formed queue. *)
Lemma quiet_pass df res st r df' st' :
  queue_wf st (df_thread df) (df_thunks df) -> step_pure df res st = Ok (false, r, df', st') ->
  st' = st /\ exists r1, r = res ++ r1 /\ (forall t, t ∈ r1 -> t ∈ df_thunks df') /\
  forall pre t post i, df_thunks df' = pre ++ t :: post -> heap st !! t = Some i -> t ∈ r1 ->
    (t_atomicity i = Release -> pre = [] /\ res = [] /\ head r1 = Some t) /\
    (acquires (t_atomicity i) -> forall u, u ∈ post -> u ∉ r1).
Proof.
  intros Hq H. apply bind_Ok in H as (ts & Hts & ([[p1 r0] st1] & Hl & [= -> -> <- ->])%bind_Ok). cbn [df_thunks].
  destruct (loop_quiet _ _ _ _ _ _ _ Hl) as [_ ->]. split; [done|].
  destruct (queue_wf_retained _ _ _ _ Hts Hq) as [[Q1 Q2 Q3] Hpend]. pose proof (wf_new (V := unit)) as Hw.
  destruct (loop_keeps _ _ _ _ _ _ _ _ Hw Hl) as (_ & (r1 & -> & Hr1) & _). exists r1. split_and!; [done|done|].
  intros pre t post i Hpre Hi Ht. split; [|by intros; eapply (loop_acquire ts RangeMap.new)].
  intros Ho. destruct (loop_release _ _ _ _ _ _ _ _ t i r1 Hw Q1 Hl Hi Ho eq_refl Ht) as [-> Hh].
  split_and!; [|done|done]. destruct ts as [|h ts]; [by destruct pre|].
  destruct (Q2 h ltac:(by left)) as (j & Hj & _ & Hs & Ha). destruct Q3 as [Hd _].
  destruct (quiet_head h ts [] st ([] ++ r1) st j Hj (Hpend h ltac:(by left)) Hs) as [r2 Hr2]; [|done|done|].
  { intros d Hdd. by destruct (Hd j d Hj Hdd) as [?|?%elem_of_nil]. }
  assert (h = t) as ->.
  { simpl in *. destruct (bool_decide _); [rewrite (Hr2 eq_refl) in Hh|rewrite Hr2 in Hh]; by injection Hh. }
  destruct pre as [|x pre]; [done|]. injection Hpre as <- ->. apply NoDup_cons in Q1 as [Q1 _]. destruct Q1. set_solver.
Qed.
End Queues.

(** ** The passes of a process *)

Section Process.
Context {X E R F : Type}.
Implicit Types (p : Process X E R F) (st : State X) (ths : list (Z * Thread)) (res r : list Z).

Definition queue (t : Thread) : list Z := df_thunks (th_data t).

(** The threads of a process, under different ids, with well-formed queues. *)
Definition threads_wf st ths : Prop :=
  NoDup ths.*1 /\ forall id t, (id, t) ∈ ths -> df_thread (th_data t) = id /\ queue_wf st id (queue t).

Definition process_wf p : Prop := threads_wf (p_state p) (threads (p_sched p)).

Lemma threads_wf_keeps st st' ths : keeps st st' -> threads_wf st ths -> threads_wf st' ths.
Proof.
  intros K [Hd Hq]. split; [done|]. intros id t Ht. destruct (Hq id t Ht). split; [done|by eapply queue_wf_keeps].
Qed.

Lemma threads_wf_sublist st ths ths' : sublist ths' ths -> threads_wf st ths -> threads_wf st ths'.
Proof.
  intros Hs [Hd Hq]. split; [|intros id t Ht; apply Hq; by eapply elem_of_sublist].
  eapply sublist_NoDup; [exact Hd|]. clear -Hs. induction Hs; simpl; by constructor.
Qed.

(** The [for] over the threads, with the queues they are left with. *)
Inductive passes : list (Z * Thread) -> list Z -> bool -> State X -> bool -> list Z -> State X -> list (Z * Thread) -> Prop :=
  | passes_nil res prg st : passes [] res prg st prg res st []
  | passes_cons id t ths res prg st b res1 df st1 prg' r st' ths' : step_pure (th_data t) res st = Ok (b, res1, df, st1) ->
      passes ths res1 (prg || b) st1 prg' r st' ths' ->
      passes ((id, t) :: ths) res prg st prg' r st' ((id, set_data df t) :: ths').

Lemma alter_other id df ths : id ∉ (ths.*1) -> bt_alter (set_data df) id ths = ths.
Proof.
  unfold bt_alter. induction ths as [|[j t] ths IH]; intros Hn; [done|]. apply not_elem_of_cons in Hn as [Hj Hn]. simpl in *.
  rewrite (IH Hn). by replace (j =? id) with false by lia.
Qed.

Lemma step_threads_passes ths res prg p prg' r p' ths0 :
  step_threads ths res prg p = Ok (prg', r, p') -> threads (p_sched p) = ths0 ++ ths -> NoDup ((ths0 ++ ths).*1) ->
  exists ths', passes ths res prg (p_state p) prg' r (p_state p') ths' /\ threads (p_sched p') = ths0 ++ ths'.
Proof.
  revert res prg p ths0. induction ths as [|[id t] ths IH]; intros res prg p ths0; cbn [step_threads].
  - intros [= <- <- <-] Hth _. exists []. by split; [constructor|].
  - intros ([[[b res1] df] st1] & Hs & H)%bind_Ok Hth Hnd.
    assert ((id ∉ ths0.*1) /\ (id ∉ ths.*1)) as [Hn0 Hn1].
    { rewrite fmap_app in Hnd. apply NoDup_app in Hnd as (_ & Hx & Hnd). apply NoDup_cons in Hnd as [? _].
      split; [|done]. intros Hin. apply (Hx id Hin). by left. }
    destruct (IH _ _ _ (ths0 ++ [(id, set_data df t)]) H) as (ths' & Hp & Hths).
    + unfold threads in *. cbn [p_sched set_sched set_state sched_threads]. rewrite Hth. unfold bt_alter.
      rewrite map_app. simpl. rewrite Z.eqb_refl, <- app_assoc. simpl.
      pose proof (alter_other id df ths0 Hn0) as A0. pose proof (alter_other id df ths Hn1) as A1. unfold bt_alter in *. by rewrite A0, A1.
    + rewrite <- app_assoc. by rewrite !fmap_app in *.
    + exists ((id, set_data df t) :: ths'). split; [by econstructor|]. by rewrite Hths, <- app_assoc.
Qed.

Lemma step_pure_keeps df res st b r df' st' :
  step_pure df res st = Ok (b, r, df', st') -> queue_wf st (df_thread df) (df_thunks df) ->
  keeps st st' /\ df_thread df' = df_thread df /\ queue_wf st (df_thread df) (df_thunks df').
Proof.
  intros (ts & Hts & ([[p1 r0] st1] & Hl & [= -> -> <- ->])%bind_Ok)%bind_Ok Hq. cbn [df_thunks df_thread].
  split_and!; [|done|by apply (queue_wf_retained _ _ _ _ Hts Hq)].
  by apply (loop_keeps _ _ _ _ _ _ _ _ (wf_new (V := unit)) Hl).
Qed.

Lemma passes_wf ths res prg st prg' r st' ths' :
  passes ths res prg st prg' r st' ths' -> threads_wf st ths -> keeps st st' /\ threads_wf st' ths' /\ ths'.*1 = ths.*1.
Proof.
  induction 1 as [res prg st|id t ths res prg st b res1 df st1 prg' r st' ths' Hs _ IH]; intros Hwf.
  { split_and!; [apply keeps_refl|done|done]. }
  destruct Hwf as [Hd Hq]. destruct (Hq id t ltac:(by left)) as [Hid Hqt].
  rewrite <- Hid in Hqt. destruct (step_pure_keeps _ _ _ _ _ _ _ Hs Hqt) as (K & Hdf & Hq1).
  assert (threads_wf st1 ths) as Hwf1.
  { apply (threads_wf_keeps st); [done|]. apply (threads_wf_sublist _ ((id, t) :: ths)); [by constructor|done]. }
  destruct (IH Hwf1) as (K2 & [Hd2 Hq2] & Hk). split_and!; [by eapply keeps_trans| |by rewrite !fmap_cons, Hk].
  split; [by rewrite !fmap_cons, Hk|]. intros j u [[= -> ->]|Hu]%elem_of_cons; [|by apply Hq2].
  split; [simpl; congruence|]. rewrite <- Hid. unfold queue. cbn [th_data set_data].
  eapply queue_wf_keeps; [|exact Hq1]. by eapply keeps_trans.
Qed.

(** The thread that decoded a thunk. *)
Definition owner st x : option Z := t_thread <$> heap st !! x.

Lemma queue_owner st id ts x : queue_wf st id ts -> x ∈ ts -> owner st x = Some id.
Proof. intros Hq Hx. destruct (qw_thunk _ _ _ Hq x Hx) as (i & Hi & Ht & _). unfold owner. rewrite Hi. simpl. by rewrite Ht. Qed.

Lemma passes_progress ths res st prg' r st' ths' : passes ths res true st prg' r st' ths' -> prg' = true.
Proof.
  remember true as prg eqn:Hp. intros H. revert Hp.
  induction H as [res prg st|id t ths res prg st b res1 df st1 prg' r st' ths' _ _ IH]; intros ->; [done|by apply IH].
Qed.

(** The passes in which no thread ran anything. *)
Lemma passes_quiet ths res prg st prg' r st' ths' :
  passes ths res prg st prg' r st' ths' -> prg = false -> prg' = false -> threads_wf st ths ->
  st' = st /\ exists rest, r = res ++ rest /\ forall x, x ∈ rest -> exists id th, (id, th) ∈ ths' /\ x ∈ queue th /\ owner st x = Some id.
Proof.
  induction 1 as [res prg st|id t ths res prg st b res1 df st1 prg' r st' ths' Hs H IH]; intros Hp Hp' Hwf; subst.
  { split; [done|]. exists []. rewrite app_nil_r. split; [done|]. by intros x ?%elem_of_nil. }
  destruct b; [apply passes_progress in H; discriminate H|]. destruct Hwf as [Hd Hq]. destruct (Hq id t ltac:(by left)) as [Hid Hqt].
  pose proof Hs as Hs1. unfold queue in Hqt. rewrite <- Hid in Hqt.
  destruct (quiet_pass _ _ _ _ _ _ Hqt Hs) as (-> & r1 & -> & Hin & _).
  destruct (step_pure_keeps _ _ _ _ _ _ _ Hs Hqt) as (_ & _ & Hq1). rewrite Hid in Hq1.
  destruct IH as (-> & rest & -> & Hrest); [done|done|by apply (threads_wf_sublist _ ((id, t) :: ths)); [constructor|split]|].
  split; [done|]. exists (r1 ++ rest). split; [by rewrite app_assoc|]. intros x [Hx|Hx]%elem_of_app.
  - exists id, (set_data df t). split; [by left|]. split; [by apply Hin|by apply (queue_owner _ _ _ _ Hq1), Hin].
  - destruct (Hrest x Hx) as (j & th & ? & ? & ?). exists j, th. split; [by right|done].
Qed.

(** What a thread offers stands together in the offers of all. *)
Lemma passes_segment ths res prg st prg' r st' ths' id th :
  passes ths res prg st prg' r st' ths' -> prg = false -> prg' = false -> threads_wf st ths -> (id, th) ∈ ths' -> (forall x, x ∈ res -> owner st x <> Some id) ->
  exists t res1 r1 rest, step_pure (th_data t) res1 st = Ok (false, res1 ++ r1, th_data th, st) /\
    df_thread (th_data t) = id /\ queue_wf st id (queue t) /\ r = res1 ++ r1 ++ rest /\
    forall x, x ∈ res1 ++ rest -> owner st x <> Some id.
Proof.
  induction 1 as [res prg st|id0 t ths res prg st b res1 df st1 prg' r st' ths' Hs H IH]; intros Hp Hp' Hwf Hin Hres; subst.
  { by apply elem_of_nil in Hin. }
  destruct b; [apply passes_progress in H; discriminate H|]. pose proof Hwf as [Hd Hq].
  destruct (Hq id0 t ltac:(by left)) as [Hid Hqt].
  assert (threads_wf st ths) as Hwf1 by (by apply (threads_wf_sublist _ ((id0, t) :: ths)); [constructor|]).
  unfold queue in Hqt. rewrite <- Hid in Hqt. destruct (quiet_pass _ _ _ _ _ _ Hqt Hs) as (-> & r1 & -> & Hr1 & _).
  destruct (step_pure_keeps _ _ _ _ _ _ _ Hs Hqt) as (_ & _ & Hq1). rewrite Hid in Hq1, Hqt.
  destruct (passes_wf _ _ _ _ _ _ _ _ H Hwf1) as (_ & Hwf2 & Hkeys).
  apply NoDup_cons in Hd as [Hnot Hd].
  assert (forall j u, (j, u) ∈ ths' -> j <> id0) as Hother.
  { intros j u Hu ->. apply Hnot. change (id0 ∈ ths.*1). rewrite <- Hkeys. by apply (list_elem_of_fmap_2 fst _ (id0, u)). }
  apply elem_of_cons in Hin as [[= -> ->]|Hin].
  - destruct (passes_quiet _ _ _ _ _ _ _ _ H eq_refl eq_refl Hwf1) as (-> & rest & -> & Hrest).
    exists t, res, r1, rest. split_and!; [exact Hs|done|done|by rewrite app_assoc|].
    intros x [Hx|Hx]%elem_of_app; [by apply Hres|]. destruct (Hrest x Hx) as (j & u & Hu & _ & ->).
    intros [= ->]. by apply (Hother _ _ Hu).
  - apply IH; [done|done|done|done|]. intros x [Hx|Hx]%elem_of_app; [by apply Hres|].
    rewrite (queue_owner _ _ _ _ Hq1 (Hr1 x Hx)). intros [= <-]. by apply (Hother _ _ Hin).
Qed.
End Process.

(** ** The loop of [main] *)

Section Loop.
Context {X E R F : Type}.
Implicit Types (p q : Process X E R F).
Variable run_until_stalled : Process X E R F -> res (Process X E R F).
Variable choose : Z -> R -> Z * R.

(** Processes between two calls of [Process::step]. *)
Inductive reached (fuel : nat) p : Process X E R F -> Prop :=
  | reached_start : reached fuel p p
  | reached_step q q' : reached fuel p q -> Process.step run_until_stalled choose fuel q = Some (Ok (true, q')) -> reached fuel p q'.

(** Polling the tasks keeps the queues well-formed ([decode_queue_wf] for one
    thunk). *)
Definition polling_ok : Prop := forall p p', process_wf p -> run_until_stalled p = Ok p' -> process_wf p'.

Lemma reap_wf p : process_wf p -> process_wf (set_sched (reap_threads (p_sched p)) p).
Proof. intros H. eapply threads_wf_sublist; [|exact H]. apply sublist_filter. Qed.

(** The offers [step_decode] ends with are those of passes that ran nothing. *)
Lemma step_decode_passes fuel p r p' : polling_ok -> process_wf p ->
  step_decode run_until_stalled fuel p = Some (Ok (r, p')) ->
  process_wf p' /\ exists ths ths', passes ths [] false (p_state p') false r (p_state p') ths' /\
    threads_wf (p_state p') ths /\ threads (p_sched p') = bt_retain (fun _ => alive) ths'.
Proof.
  intros Hpoll. revert p. induction fuel as [|fuel IH]; intros p Hwf; [done|]. cbn [step_decode].
  destruct (run_until_stalled p) as [p1|e] eqn:Hrun; cbn [bind]; [|done].
  pose proof (Hpoll p p1 Hwf Hrun) as Hwf1.
  destruct (step_threads (threads (p_sched p1)) [] false p1) as [[[prg r2] p2]|e] eqn:Hst; [|done].
  destruct (step_threads_passes _ _ _ _ _ _ _ [] Hst eq_refl (proj1 Hwf1)) as (ths' & Hp & Hths).
  destruct (passes_wf _ _ _ _ _ _ _ _ Hp Hwf1) as (_ & Hwf2 & _).
  assert (process_wf p2) as Hwfp2 by (unfold process_wf; by rewrite Hths).
  destruct prg; [apply IH; by apply reap_wf|]. intros [= <- <-]. split; [by apply reap_wf|].
  destruct (passes_quiet _ _ _ _ _ _ _ _ Hp eq_refl eq_refl Hwf1) as (Heq & _).
  exists (threads (p_sched p1)), ths'. cbn [p_state set_sched p_sched]. rewrite Heq. split_and!.
  - by rewrite Heq in Hp.
  - exact Hwf1.
  - unfold threads, reap_threads in *. cbn [sched_threads]. simpl in Hths. by rewrite Hths.
Qed.

Lemma step_choose_wf r p b p' : process_wf p -> step_choose choose r p = Ok (b, p') -> process_wf p'.
Proof.
  intros Hwf. assert (forall t rng, step_resolvable t (set_rng rng p) = Ok (b, p') -> process_wf p') as Hstep.
  { intros t rng ([c st] & Hs & (u & _ & [= _ <-])%bind_Ok)%bind_Ok. apply (threads_wf_keeps (p_state p)); [|exact Hwf].
    by apply (step_keeps _ _ _ _ Hs). }
  destruct r as [|t [|t' r]]; cbn [step_choose].
  - by intros (u & _ & [= _ <-])%bind_Ok.
  - intros H. apply (Hstep t (p_rng p)). by destruct p.
  - intros (line & _ & H)%bind_Ok. destruct (choose _ _) as [i rng].
    apply bind_Ok in H as (t0 & _ & H). by apply (Hstep t0 rng).
Qed.

Lemma reached_wf fuel p q : polling_ok -> process_wf p -> reached fuel p q -> process_wf q.
Proof.
  intros Hpoll Hwf. induction 1 as [|q q' _ IH Hs]; [done|]. unfold Process.step in Hs.
  destruct (step_decode run_until_stalled fuel q) as [[[r p1]|e]|] eqn:Hd; [|done..].
  destruct (step_decode_passes _ _ _ _ Hpoll IH Hd) as [Hwf1 _]. injection Hs as Hs. by eapply step_choose_wf.
Qed.

(** C7: A process from which [main] picks, however it got there. Everything offered
    is in the queue of a thread. A release is offered only when it is the
    oldest thunk its thread has left: all that the thread decoded before it,
    computations and memory accesses, has been performed; and it is the first
    of all offers. While an acquire is offered, nothing its thread decoded after
    it is. The threads may be any number, and decode and wait as they like, as
    long as decoding appends thunks to their queues that wait for earlier ones. *)
Theorem offers_respect_barriers (fuel fuel' : nat) p q r q' :
  polling_ok -> process_wf p -> reached fuel p q -> step_decode run_until_stalled fuel' q = Some (Ok (r, q')) ->
  (forall t, t ∈ r -> exists id th, (id, th) ∈ threads (p_sched q') /\ t ∈ queue th) /\
  (forall id th pre t post i, (id, th) ∈ threads (p_sched q') -> queue th = pre ++ t :: post -> t ∈ r ->
    heap (p_state q') !! t = Some i ->
    (t_atomicity i = Release -> pre = [] /\ head r = Some t) /\
    (acquires (t_atomicity i) -> forall u, u ∈ post -> u ∉ r)).
Proof.
  intros Hpoll Hp Hr Hd. pose proof (reached_wf _ _ _ Hpoll Hp Hr) as Hq.
  destruct (step_decode_passes _ _ _ _ Hpoll Hq Hd) as (_ & ths & ths' & Hps & Hwf & Hth).
  destruct (passes_wf _ _ _ _ _ _ _ _ Hps Hwf) as (_ & [_ Hwf'] & _). split.
  - intros t Ht. destruct (passes_quiet _ _ _ _ _ _ _ _ Hps eq_refl eq_refl Hwf) as (_ & rest & -> & Hrest).
    destruct (Hrest t Ht) as (id & th & Hin & Hqu & _). exists id, th. split; [|done]. rewrite Hth.
    apply list_elem_of_filter. split; [|done]. simpl. unfold alive, df_len. unfold queue in Hqu.
    assert ((0 <? zlen (df_thunks (th_data th))) = true) as Hl
      by (destruct (df_thunks (th_data th)) as [|x l]; [by apply elem_of_nil in Hqu|apply Z.ltb_lt; unfold zlen; simpl; lia]).
    by destruct (th_join th).
  - intros id th pre t post i Hin Hpre Ht Hi. rewrite Hth in Hin. apply list_elem_of_filter in Hin as [_ Hin].
    assert (t ∈ queue th) as Htq by (rewrite Hpre; set_solver).
    destruct (passes_segment _ _ _ _ _ _ _ _ id th Hps eq_refl eq_refl Hwf Hin) as (t0 & res1 & r1 & rest & Hs & Hid & Hq0 & -> & Hother);
      [by intros x ?%elem_of_nil|].
    assert (forall x, x ∈ queue th -> x ∈ res1 ++ r1 ++ rest -> x ∈ r1) as Hmine.
    { intros x Hx Hxr. pose proof (queue_owner _ _ _ _ (proj2 (Hwf' id th Hin)) Hx) as Hox.
      apply elem_of_app in Hxr as [Hx1|[Hx1|Hx1]%elem_of_app]; [|done|]; destruct (Hother x); [set_solver|done|set_solver|done]. }
    unfold queue in Hq0. rewrite <- Hid in Hq0. destruct (quiet_pass _ _ _ _ _ _ Hq0 Hs) as (_ & r1' & Hr1 & _ & Hpass).
    apply app_inv_head in Hr1 as <-. destruct (Hpass pre t post i Hpre Hi (Hmine t Htq Ht)) as [P1 P2]. split.
    + intros Ho. destruct (P1 Ho) as (-> & -> & Hh). split; [done|]. by destruct r1.
    + intros Ha u Hu Hur. apply (P2 Ha u Hu). apply Hmine; [rewrite Hpre; set_solver|done].
Qed.

(** A dependency that is still pending. *)
Lemma get_args_none (st : State X) a ds :
  val st a = None -> (exists i c, heap st !! a = Some i /\ t_value i = Pending c) -> a ∈ ds ->
  (forall d, d ∈ ds -> val st d <> None \/ d = a) -> get_args st ds = Ok None.
Proof.
  intros Ha (i & c & Hi & Hc) Hin Hds. induction ds as [|d ds IH]; [by apply elem_of_nil in Hin|]. cbn [get_args].
  destruct (decide (d = a)) as [->|Hne].
  - unfold try_get, deref. rewrite Hi. cbn [bind]. by rewrite Hc.
  - destruct (Hds d ltac:(by left)) as [Hd|]; [|done]. destruct (val st d) as [v|] eqn:Hv; [|done].
    rewrite (proj2 (try_get_val st d v) Hv). cbn [bind]. rewrite IH; [done| |].
    + by apply elem_of_cons in Hin as [->|].
    + intros e He. apply Hds. by right.
Qed.

(** A pass over a queue that starts with two relaxed operations on different bytes. *)
Lemma two_relaxed_offered a b ts res prg (st : State X) prg' r st' ia ib :
  step_loop (a :: b :: ts) RangeMap.new res prg st = Ok (prg', r, st') ->
  heap st !! a = Some ia -> t_atomicity ia = Relaxed -> heap st !! b = Some ib -> t_atomicity ib = Relaxed ->
  access st st a <> None -> access st st b <> None ->
  (forall x, touches st st a x -> touches st st b x -> False) -> exists r1, r = res ++ a :: b :: r1.
Proof.
  intros Hl Hia Ha Hib Hb Aa Ab Hdis. destruct (access st st a) as [[xa na]|] eqn:Ea; [|done].
  destruct (access st st b) as [[xb nb]|] eqn:Eb; [|done].
  destruct (step_loop_access _ _ _ _ _ _ _ _ _ wf_new Ea Hl) as (j & Hj & [(x & _ & [] & _)|(pend & Hw & Hg & _ & Hr & _)]); [done|].
  assert (j = ia) as -> by congruence. specialize (Hr Ha).
  destruct (step_loop_access _ _ _ _ _ _ _ _ _ Hw Eb Hr) as (k & Hk & [(x & Hx & Hgx & _)|(pend2 & Hw2 & _ & _ & Hr2 & _)]).
  - rewrite Hg in Hgx. destruct ((xa <=? x) && (x <? xa + na)) eqn:Hin; [|done].
    exfalso. apply (Hdis x); [rewrite (touches_at _ _ _ _ _ _ Ea)|rewrite (touches_at _ _ _ _ _ _ Eb)]; lia.
  - assert (k = ib) as -> by congruence. specialize (Hr2 Hb).
    destruct (loop_keeps _ _ _ _ _ _ _ _ Hw2 Hr2) as (_ & (r1 & -> & _) & _). exists r1. by rewrite <- !app_assoc.
Qed.

(** C26: Operations are offered before their operands are known. Take any process
    of any threads from which [main] picks, however it got there, and a thread
    whose queue starts with two relaxed operations on different bytes, the
    second of which needs the value of the first (say it stores what the first
    loads). Both are offered, and if the random generator picks the second while
    nothing offered is traced, the assertion in [Process::step] that an offered
    operation can be run fails and the process dies. *)
Theorem unready_operation_offered (fuel fuel' : nat) p q r q' id th a b ts ia ib :
  polling_ok -> process_wf p -> reached fuel p q -> step_decode run_until_stalled fuel' q = Some (Ok (r, q')) ->
  (id, th) ∈ threads (p_sched q') -> queue th = a :: b :: ts ->
  heap (p_state q') !! a = Some ia -> t_atomicity ia = Relaxed ->
  heap (p_state q') !! b = Some ib -> t_atomicity ib = Relaxed -> a ∈ t_deps ib ->
  access (p_state q') (p_state q') a <> None -> access (p_state q') (p_state q') b <> None ->
  (forall x, touches (p_state q') (p_state q') a x -> touches (p_state q') (p_state q') b x -> False) ->
  a ∈ r /\ b ∈ r /\
  (index r (choose (zlen r) (p_rng q')).1 = Ok b -> existsb (thunk_tracing (p_state q')) r = false ->
   Process.step run_until_stalled choose fuel' q = Some (Panic AssertFailed)).
Proof.
  intros Hpoll Hp Hr Hd Hin Hqu Hia Ha Hib Hb Hdep Aa Ab Hdis. pose proof (reached_wf _ _ _ Hpoll Hp Hr) as Hq.
  destruct (step_decode_passes _ _ _ _ Hpoll Hq Hd) as (_ & ths & ths' & Hps & Hwf & Hth).
  rewrite Hth in Hin. apply list_elem_of_filter in Hin as [_ Hin].
  destruct (passes_segment _ _ _ _ _ _ _ _ id th Hps eq_refl eq_refl Hwf Hin) as (t0 & res1 & r1 & rest & Hs & Hid & Hq0 & -> & _);
    [by intros x ?%elem_of_nil|].
  apply bind_Ok in Hs as (ts0 & Hts & ([[p1 r0] st1] & Hl & Heq)%bind_Ok). injection Heq as -> -> Hdf ->.
  assert (ts0 = a :: b :: ts) as -> by (unfold queue in Hqu; by rewrite <- Hdf in Hqu).
  destruct (two_relaxed_offered _ _ _ _ _ _ _ _ _ _ _ Hl Hia Ha Hib Hb Aa Ab Hdis) as (r2 & Hr1). apply app_inv_head in Hr1 as ->.
  split_and!; [set_solver|set_solver|]. intros Hpick Htr.
  unfold queue in Hq0. destruct (queue_wf_retained _ _ _ _ Hts Hq0) as [[Q1 Q2 (_ & Q3 & _)] Hpend].
  assert (get_args (p_state q') (t_deps ib) = Ok None) as Hargs.
  { apply (get_args_none _ a); [by apply Hpend; left| |done|].
    - destruct (Q2 a ltac:(by left)) as (i & Hi & _ & Hs & _). assert (i = ia) as -> by congruence. exists ia.
      pose proof (Hpend a ltac:(by left)) as Hv. unfold val in Hv. rewrite Hi in Hv.
      destruct (t_value ia) as [c| |]; [by exists c|done|done].
    - intros d Hdd. destruct (Q3 ib d Hib Hdd) as [?|Hx]; [by left|right]. set_solver. }
  assert (forall rng, step_resolvable b (set_rng rng q') = Panic AssertFailed) as Hres.
  { intros rng. unfold step_resolvable, Data.step, deref. cbn [p_state set_rng]. rewrite Hib. cbn [bind]. by rewrite Hargs. }
  unfold Process.step. rewrite Hd. f_equal. remember (res1 ++ (a :: b :: r2) ++ rest) as r eqn:Er.
  assert (exists x y l, r = x :: y :: l) as (x & y & l & ->).
  { rewrite Er. destruct res1 as [|x [|y l]]; simpl; by do 3 eexists. }
  cbn [step_choose]. rewrite Htr. cbn [bind]. destruct (choose _ _) as [i rng]. simpl in Hpick. rewrite Hpick. cbn [bind].
  apply Hres.
Qed.
End Loop.

(** ** Two threads *)

Definition thunk_check (st : State unit) (id t : Z) : bool :=
  match heap st !! t with
  | Some i => (t_thread i =? id) && match t_value i with Sandbag => false | _ => true end &&
      match t_address i with Some (a, _) => bool_decide (a ∈ t_deps i) | None => true end
  | None => false
  end.

Fixpoint deps_check (st : State unit) (seen ts : list Z) : bool :=
  match ts with
  | [] => true
  | t :: ts =>
      match heap st !! t with
      | Some i => forallb (fun d => bool_decide (d ∈ seen) || bool_decide (is_Some (val st d))) (t_deps i)
      | None => true
      end && deps_check st (t :: seen) ts
  end.

Definition queue_check (st : State unit) (id : Z) (ts : list Z) : bool :=
  bool_decide (NoDup ts) && forallb (thunk_check st id) ts && deps_check st [] ts.

Lemma deps_check_ok st seen ts : deps_check st seen ts = true -> deps_before st seen ts.
Proof.
  revert seen. induction ts as [|t ts IH]; intros seen; cbn [deps_check deps_before]; [done|].
  intros [H1 H2]%andb_prop. split; [|by apply IH]. intros i d Hi Hd. rewrite Hi, forallb_forall in H1.
  apply list_elem_of_In, H1, orb_prop in Hd as [Hd|Hd]; apply bool_decide_eq_true in Hd; [by right|left].
  destruct Hd as [v ->]. done.
Qed.

Lemma queue_check_ok st id ts : queue_check st id ts = true -> queue_wf st id ts.
Proof.
  unfold queue_check. intros [[H1 H2]%andb_prop H3]%andb_prop. split; [by apply bool_decide_eq_true in H1| |by apply deps_check_ok].
  intros t Ht. rewrite forallb_forall in H2. apply list_elem_of_In, H2 in Ht. unfold thunk_check in Ht.
  destruct (heap st !! t) as [i|] eqn:Hi; [|done]. apply andb_prop in Ht as [[Hid Hv]%andb_prop Ha].
  exists i. split_and!; [done|lia|by destruct (t_value i)|]. intros a l Hai. rewrite Hai in Ha. by apply bool_decide_eq_true in Ha.
Qed.

(** Thread 0 is about to store with release; thread 1 to store, to load with
    acquire and to load. *)
Definition releaser : DataFlow * State unit := decode_all [d_store 20 2 4 8 Release].
Definition acquirer : DataFlow * State unit :=
  decode_from (df_new 1, releaser.2) [d_store 10 1 4 8 Relaxed; d_load 11 2 8 Acquire; d_load 12 3 8 Relaxed].
Definition two_threads : Process unit unit unit unit := sample_process [(0, releaser.1); (1, acquirer.1)] acquirer.2.

#[local] Opaque thunk_impl.

Lemma two_threads_wf : process_wf two_threads.
Proof.
  split; [apply (bool_decide_unpack _); vm_compute; exact I|].
  intros id t [[= -> ->]|[[= -> ->]|H%elem_of_nil]%elem_of_cons]%elem_of_cons; [| |done].
  - split; [vm_compute; reflexivity|]. apply queue_check_ok. vm_compute. reflexivity.
  - split; [vm_compute; reflexivity|]. apply queue_check_ok. vm_compute. reflexivity.
Qed.

Definition two_threads_end : list Z * Process unit unit unit unit :=
  match step_decode Ok 3 two_threads with Some (Ok x) => x | _ => ([], two_threads) end.

Lemma two_threads_decode : step_decode Ok 3 two_threads = Some (Ok ([20; 10; 11], two_threads_end.2)).
Proof.
  assert (match step_decode Ok 3 two_threads with Some (Ok (r, _)) => Some r | _ => None end = Some [20; 10; 11]) as Hr
    by (vm_compute; reflexivity).
  unfold two_threads_end. destruct (step_decode Ok 3 two_threads) as [[[r q]|e]|]; [|discriminate Hr..].
  by injection Hr as ->.
Qed.

Lemma two_threads_queues :
  map (fun x => (x.1, queue x.2)) (threads (p_sched two_threads_end.2)) = [(0, [20]); (1, [10; 11; 12])] /\
  option_map t_atomicity (heap (p_state two_threads_end.2) !! 11) = Some Acquire.
Proof. split; vm_compute; reflexivity. Qed.

Lemma offers_respect_barriers_witness :
  step_decode Ok 3 two_threads = Some (Ok ([20; 10; 11], two_threads_end.2)) /\ 12 ∉ [20; 10; 11].
Proof.
  split; [exact two_threads_decode|].
  assert (polling_ok (Ok (A := Process unit unit unit unit))) as Hpoll by (intros p p' Hp Hok; injection Hok as <-; exact Hp).
  destruct (offers_respect_barriers Ok pick_first 3 3 two_threads two_threads _ _ Hpoll two_threads_wf
    (reached_start _ _ _ _) two_threads_decode) as [_ H].
  destruct two_threads_queues as [Hq Ha]. destruct (threads (p_sched two_threads_end.2)) as [|x [|[id th] l]] eqn:Hth; [discriminate Hq..|].
  injection Hq as _ _ -> Hqt _. destruct (heap (p_state two_threads_end.2) !! 11) as [i|] eqn:Hi; [|discriminate Ha].
  injection Ha as Ha. apply (H 1 th [10] 11 [12] i); [|exact Hqt| |exact Hi|left; exact Ha|by left].
  - right; left.
  - right; right; left.
Defined.

(** A load of 200 and a store of what it loads to 201. *)
Definition copier : Process unit unit unit unit := sample_process [(0, copy_code.1)] copy_code.2.

Lemma copier_wf : process_wf copier.
Proof.
  split; [apply (bool_decide_unpack _); vm_compute; exact I|].
  intros id t [[= -> ->]|H%elem_of_nil]%elem_of_cons; [|done].
  split; [vm_compute; reflexivity|]. apply queue_check_ok. vm_compute. reflexivity.
Qed.

(** What the theorem asks of the state it is applied to. *)
Definition copier_check (r : list Z) (q : Process unit unit unit unit) : bool :=
  let st := p_state q in
  bool_decide (r = [10; 11]) && bool_decide (map (fun x => (x.1, queue x.2)) (threads (p_sched q)) = [(0, [10; 11])]) &&
  bool_decide (option_map t_atomicity (heap st !! 10) = Some Relaxed) &&
  bool_decide (option_map t_atomicity (heap st !! 11) = Some Relaxed) &&
  bool_decide (option_map t_deps (heap st !! 11) = Some [2; 10]) &&
  bool_decide (access st st 10 = Some (200, 1)) && bool_decide (access st st 11 = Some (201, 1)) &&
  negb (existsb (thunk_tracing st) r).

Lemma unready_operation_offered_witness :
  (exists q', step_decode Ok 3 copier = Some (Ok ([10; 11], q'))) /\
  Process.step Ok pick_last 3 copier = Some (Panic AssertFailed).
Proof.
  assert (match step_decode Ok 3 copier with Some (Ok (r, q)) => copier_check r q | _ => false end = true) as Hc
    by (vm_compute; reflexivity).
  destruct (step_decode Ok 3 copier) as [[[r q]|e]|] eqn:Hd; [|discriminate Hc..].
  unfold copier_check in Hc. rewrite !andb_true_iff in Hc.
  destruct Hc as [[[[[[[Hr Hq] Ha] Hb] Hdep] Aa] Ab] Htr].
  apply bool_decide_eq_true in Hr, Hq, Ha, Hb, Hdep, Aa, Ab. apply negb_true_iff in Htr. rewrite Hr in Hd, Htr.
  split; [exists q; by rewrite Hr|].
  destruct (threads (p_sched q)) as [|[id th] l] eqn:Hth; [discriminate Hq|]. injection Hq as -> Hqu _.
  destruct (heap (p_state q) !! 10) as [ia|] eqn:Hia; [|discriminate Ha]. injection Ha as Ha.
  destruct (heap (p_state q) !! 11) as [ib|] eqn:Hib; [|discriminate Hb]. injection Hb as Hb. injection Hdep as Hdep.
  assert (polling_ok (Ok (A := Process unit unit unit unit))) as Hpoll by (intros p p' Hp Hok; injection Hok as <-; exact Hp).
  destruct (unready_operation_offered Ok pick_last 3 3 copier copier _ q 0 th 10 11 [] ia ib Hpoll copier_wf
    (reached_start _ _ _ _) Hd) as (_ & _ & H); try assumption.
  - rewrite Hth. left.
  - rewrite Hdep. right; left.
  - rewrite Aa. discriminate.
  - rewrite Ab. discriminate.
  - intros x. unfold touches. rewrite Aa, Ab. lia.
  - apply H; [reflexivity|exact Htr].
Defined.
