(* ===== verification/Flow.v ===== *)
(** * Flow: src/src/flow.rs

    What a decoding task does: it appends thunks to its thread's queue, waits
    for their values and acts on the process. An [async] function of the source
    is a tree of these actions ([Async]); [exec] runs it with every thunk run as
    soon as it is decoded, which is the program order that [Pipeline] takes as
    reference; how the process polls it is in [Executor]. The helpers of
    [FlowCtx] with which native functions use the simulated memory are then
    proved against the flat memory of [Memory]. *)

From S2P Require Import Prelude Text RangeMap MemOrdering Layout Bitvec Value Memory Symbols Classes Operation.
From S2P Require Import Data Local Pipeline Process.

Section Async.
Context {X : Type}.

(** Panics, thunks decoded, thunks awaited, what the task does to the process
    itself, which may have to wait ([None]) for another task, and to the tracing
    of its queue; [Exhausted] is a loop out of fuel. *)
Inductive Async (A : Type) : Type :=
  | Ret (a : A)
  | Raise (e : panic)
  | Exhausted
  | Decode (b : Backtrace) (address : option (Z * Layout)) (o : Ordering) (deps : list Z)
      (c : Compute X) (k : Z -> Async A)
  | Await (t : Z) (k : Value -> Async A)
  | Act (f : World X -> res (option (Z * World X))) (k : Z -> Async A)
  | SetTracing (tracing : bool) (k : Async A).
#[global] Arguments Ret {A} a.
#[global] Arguments Raise {A} e.
#[global] Arguments Exhausted {A}.
#[global] Arguments Decode {A} b address o deps c k.
#[global] Arguments Await {A} t k.
#[global] Arguments Act {A} f k.
#[global] Arguments SetTracing {A} tracing k.

Fixpoint abind {A B} (c : Async A) (f : A -> Async B) : Async B :=
  match c with
  | Ret a => f a
  | Raise e => Raise e
  | Exhausted => Exhausted
  | Decode b address o deps c k => Decode b address o deps c (fun t => abind (k t) f)
  | Await t k => Await t (fun v => abind (k v) f)
  | Act g k => Act g (fun r => abind (k r) f)
  | SetTracing b k => SetTracing b (abind k f)
  end.

(** A loop over a list that collects the results. *)
Fixpoint amapM {A B} (f : A -> Async B) (l : list A) : Async (list B) :=
  match l with
  | [] => Ret []
  | a :: l => abind (f a) (fun b => abind (amapM f l) (fun bs => Ret (b :: bs)))
  end.

Definition lift {A} (r : res A) : Async A := match r with Ok a => Ret a | Panic e => Raise e end.
End Async.
Arguments Async X A : clear implicits.

Declare Scope async_scope.
Notation "'let*' x := c 'in' k" := (abind c (fun x => k))
  (at level 10, x name, c at level 100, k at level 200) : async_scope.
Notation "'let**' x := c 'in' k" := (abind (lift c) (fun x => k))
  (at level 10, x name, c at level 100, k at level 200) : async_scope.
Open Scope async_scope.

(** ** UTF-8: what [String::from_utf8] accepts *)

Definition in_range (lo hi b : Z) : bool := (lo <=? b) && (b <=? hi).
Definition cont (b : Z) : bool := in_range 0x80 0xBF b.

(** The first two bytes of a three-byte and of a four-byte sequence. *)
Definition lead3 (b0 b1 : Z) : bool :=
  ((b0 =? 0xE0) && in_range 0xA0 0xBF b1) || (in_range 0xE1 0xEC b0 && cont b1) ||
  ((b0 =? 0xED) && in_range 0x80 0x9F b1) || (in_range 0xEE 0xEF b0 && cont b1).
Definition lead4 (b0 b1 : Z) : bool :=
  ((b0 =? 0xF0) && in_range 0x90 0xBF b1) || (in_range 0xF1 0xF3 b0 && cont b1) ||
  ((b0 =? 0xF4) && in_range 0x80 0x8F b1).

Fixpoint utf8_valid (l : list Z) : bool :=
  match l with
  | [] => true
  | b0 :: l1 =>
      if b0 <? 0x80 then utf8_valid l1
      else match l1 with
           | [] => false
           | b1 :: l2 =>
               if in_range 0xC2 0xDF b0 then cont b1 && utf8_valid l2
               else match l2 with
                    | [] => false
                    | b2 :: l3 =>
                        if lead3 b0 b1 then cont b2 && utf8_valid l3
                        else match l3 with
                             | [] => false
                             | b3 :: l4 => lead4 b0 b1 && cont b2 && cont b3 && utf8_valid l4
                             end
                    end
           end
  end.

(** [String::from_utf8(bytes).unwrap()]; a [String] is its bytes. *)
Definition from_utf8 (bytes : list Z) : res (list Z) :=
  assert! utf8_valid bytes or UnwrapFailed in Ok bytes.

(** ** [FlowCtx] *)

Section Flow.
Context {BV : Bitvec} {X : Type}.

(** The thread whose queue it is, and the call stack. *)
Record FlowCtx := MkFlow { f_thread : Z; f_backtrace : Backtrace }.
Implicit Types (self : FlowCtx).

Definition with_frame self (frame : BacktraceFrame) : FlowCtx :=
  MkFlow (f_thread self) (bt_prepend (f_backtrace self) frame).

(** [DataFlow::thunk], [constant], [load], [store], as actions. *)
Definition a_thunk self (deps : list Z) (c : Compute X) : Async X Z :=
  Decode (f_backtrace self) None ONone deps c Ret.
Definition constant self (v : Value) : Async X Z := a_thunk self [] (fun _ _ w => Ok (v, w)).
Definition a_load self (address : Z) (layout : Layout) (o : Ordering) : Async X Z :=
  Decode (f_backtrace self) (Some (address, layout)) o [address]
    (load_compute (f_thread self) layout o) Ret.
Definition a_store self (address : Z) (layout : Layout) (value : Z) (o : Ordering) : Async X Z :=
  Decode (f_backtrace self) (Some (address, layout)) o [address; value]
    (store_compute (f_thread self) o) Ret.
Definition await (t : Z) : Async X Value := Await t Ret.

(** The closures of [alloc] and [free]. *)
Definition alloc_compute (threadid : Z) (layout : Layout) : Compute X := fun _ _ w =>
  let! (p, m) := Memory.alloc threadid layout (w_memory w) in
  let! v := addr p in
  Ok (v, MkWorld m (w_rest w)).

Definition free_compute (threadid ptr : Z) : Compute X := fun _ _ w =>
  let! v := from_unit in
  Ok (v, MkWorld (Memory.free threadid ptr (w_memory w)) (w_rest w)).

Definition alloc self (layout : Layout) : Async X Z :=
  let* t := a_thunk self [] (alloc_compute (f_thread self) layout) in
  let* v := await t in
  Ret (as_u64 v).

Definition free self (ptr : Z) (layout : Layout) : Async X unit :=
  let* t := a_thunk self [] (free_compute (f_thread self) ptr) in
  let* _ := await t in
  Ret tt.

Definition load self (address : Z) (layout : Layout) : Async X Value :=
  let** a := addr address in
  let* a := constant self a in
  let* t := a_load self a layout ONone in
  await t.

Definition store self (address : Z) (value : Value) : Async X unit :=
  let** a := addr address in
  let* a := constant self a in
  let** layout := Layout.from_bytes (zlen (as_bytes value)) 1 in
  let* v := constant self value in
  let* t := a_store self a layout v ONone in
  let* _ := await t in
  Ret tt.

(** A [&str] is its bytes. *)
Definition string self (str : list Z) : Async X Z :=
  let cstr := str ++ [0] in
  let** layout := Layout.from_bytes (zlen cstr) 1 in
  let* res := alloc self layout in
  let** v := Value.from_bytes cstr (Layout.bits layout) in
  let* _ := store self res v in
  Ret res.

(** The loop of [strlen], with fuel; [i] counts up without end. *)
Fixpoint strlen_from (fuel : nat) self (str i : Z) : Async X Z :=
  match fuel with
  | O => Exhausted
  | S fuel =>
      let** ptr := add64 str i in
      let** layout := Layout.from_bytes 1 1 in
      let* v := load self ptr layout in
      let** c := unwrap_u 8 v in
      if c =? 0 then Ret i else strlen_from fuel self str (i + 1)
  end.
Definition strlen (fuel : nat) self (str : Z) : Async X Z := strlen_from fuel self str 0.

Definition get_string (fuel : nat) self (str : Z) : Async X (list Z) :=
  let* len := strlen fuel self str in
  let** layout := Layout.from_bytes len 1 in
  let* v := load self str layout in
  lift (from_utf8 (as_bytes v)).

Definition memcpy self (dst src len : Z) : Async X unit :=
  if 0 <? len then
    let** layout := Layout.from_bytes len 1 in
    let* value := load self src layout in
    store self dst value
  else Ret tt.

Definition realloc self (old : Z) (old_layout new_layout : Layout) : Async X Z :=
  let* new := alloc self new_layout in
  let** a := Layout.bytes new_layout in
  let** b := Layout.bytes old_layout in
  let* _ := memcpy self new old (Z.min a b) in
  let* _ := free self old old_layout in
  Ret new.

(** The loop of [invoke] over the arguments. *)
Definition constants self (vs : list Value) : Async X (list Z) := amapM (constant self) vs.

(** [invoke]: [call_imp] is the method of the [Func] the address belongs to;
    [None] is the error [Panic]. *)
Definition invoke {F} (call_imp : F -> FlowCtx -> list Z -> Async X (option Z)) (defs : Definitions F)
    self (fun_ : Z) (fargs : list Value) : Async X (option Value) :=
  let* thunks := constants self fargs in
  let** f := unwrap (reverse_lookup_fun fun_ defs) in
  let* r := call_imp f self thunks in
  match r with
  | Some t => let* v := await t in Ret (Some v)
  | None => Ret None
  end.

(** ** Atomic read-modify-write *)

Section Classes.
Context {CV : ClassView}.

(** The closure of [cmpxchg]; [output] is the class [{class, bool}] of
    [TypeMap::struc]. *)
Definition cmpxchg_compute (output : Class) (layout : Layout) (success failure : Ordering) : Compute X :=
  fun threadid args w =>
  let! a := index args 0 in
  let! current := load_impl threadid (as_u64 a) layout failure (w_memory w) in
  let! expected := index args 1 in
  let changed := bool_decide (current = expected) in
  let! m :=
    if changed then let! v := index args 2 in store_impl threadid (as_u64 a) v success (w_memory w)
    else Ok (w_memory w) in
  let! b := from_bool changed in
  let! v := aggregate output [current; b] in
  Ok (v, MkWorld m (w_rest w)).

(** [layout] is that of the class of the values. *)
Definition cmpxchg self (output : Class) (layout : Layout) (address expected replacement : Z)
    (success failure : Ordering) : Async X Z :=
  Decode (f_backtrace self) (Some (address, layout)) (union success failure)
    [address; expected; replacement] (cmpxchg_compute output layout success failure) Ret.

Definition cmpxchg_u64 self (output : Class) (layout : Layout) (address expected replacement : Z)
    (success failure : Ordering) : Async X (Z * bool) :=
  let** a := addr address in
  let* a := constant self a in
  let** e := from_int 64 expected in
  let* e := constant self e in
  let** r := from_int 64 replacement in
  let* r := constant self r in
  let* t := cmpxchg self output layout a e r success failure in
  let* v := await t in
  let** x := extract v output 0 in
  let** x := unwrap_u 64 x in
  let** b := extract v output 1 in
  let** b := unwrap_bool b in
  Ret (x, b).
End Classes.

Definition atomicrmw_compute (layout : Layout) (atomicity : Ordering) (oper : Value -> Value -> res Value)
    : Compute X := fun threadid args w =>
  let! a := index args 0 in
  let! current := load_impl threadid (as_u64 a) layout atomicity (w_memory w) in
  let! x := index args 1 in
  let! new := oper current x in
  let! m := store_impl threadid (as_u64 a) new atomicity (w_memory w) in
  Ok (current, MkWorld m (w_rest w)).

Definition atomicrmw self (layout : Layout) (address value : Z) (atomicity : Ordering)
    (oper : Value -> Value -> res Value) : Async X Z :=
  Decode (f_backtrace self) (Some (address, layout)) atomicity [address; value]
    (atomicrmw_compute layout atomicity oper) Ret.

(** The read-modify-write operations touch only their access, so [Pipeline]'s
    programs may have them. *)
Lemma cmpxchg_local {CV : ClassView} output layout success failure th a e r n :
  Layout.bytes layout = Ok n -> 0 <= Layout.bits layout -> Forall is_byte (imp r) -> zlen (imp r) = n ->
  local_to (in_access (as_u64 a) n) (cmpxchg_compute output layout success failure th [a; e; r]).
Proof.
  intros Hn Hl Hby Hz w v w1 Hrun Hm w' Hm' Heq. unfold cmpxchg_compute in *.
  change (index [a; e; r] 0) with (Ok a) in *. change (index [a; e; r] 1) with (Ok e) in *.
  change (index [a; e; r] 2) with (Ok r) in *. cbn [bind] in *.
  apply bind_Ok in Hrun as (cur & Hld & Hrun). cbn [bind] in Hrun.
  rewrite (load_same _ _ _ _ _ _ _ _ Hld Hn (as_u64_nonneg a) Hl Hm Hm' Heq). cbn [bind].
  destruct (bool_decide (cur = e)).
  - apply bind_Ok in Hrun as (m1 & Hst & (b & Hb & (x & Hx & [= <- <-])%bind_Ok)%bind_Ok).
    destruct (store_same _ _ _ _ _ _ _ Hst Hby (as_u64_nonneg a) Hm Hm') as (m1' & -> & Hm1 & Hin & Hout).
    rewrite Hz in *. cbn [bind]. rewrite Hb. cbn [bind]. rewrite Hx. cbn [bind]. eexists. split; [done|]. by split_and!.
  - apply bind_Ok in Hrun as (m1 & [= <-] & (b & Hb & (x & Hx & [= <- <-])%bind_Ok)%bind_Ok).
    cbn [bind]. rewrite Hb. cbn [bind]. rewrite Hx. cbn [bind]. eexists. split; [done|]. by split_and!.
Qed.

Lemma atomicrmw_local layout o oper th a x n :
  Layout.bytes layout = Ok n -> 0 <= Layout.bits layout ->
  (forall cur new, oper cur x = Ok new -> Forall is_byte (imp new) /\ zlen (imp new) = n) ->
  local_to (in_access (as_u64 a) n) (atomicrmw_compute layout o oper th [a; x]).
Proof.
  intros Hn Hl Hop w v w1 Hrun Hm w' Hm' Heq. unfold atomicrmw_compute in *.
  change (index [a; x] 0) with (Ok a) in *. change (index [a; x] 1) with (Ok x) in *. cbn [bind] in *.
  apply bind_Ok in Hrun as (cur & Hld & Hrun). cbn [bind] in Hrun.
  rewrite (load_same _ _ _ _ _ _ _ _ Hld Hn (as_u64_nonneg a) Hl Hm Hm' Heq). cbn [bind].
  apply bind_Ok in Hrun as (new & Hnew & (m1 & Hst & [= <- <-])%bind_Ok). rewrite Hnew. cbn [bind].
  destruct (Hop cur new Hnew) as [Hby Hz].
  destruct (store_same _ _ _ _ _ _ _ Hst Hby (as_u64_nonneg a) Hm Hm') as (m1' & -> & Hm1 & Hin & Hout).
  rewrite Hz in *. cbn [bind]. eexists. split; [done|]. by split_and!.
Qed.

(** ** Running in program order *)

(** The queue, the state and the next slot of the pool. *)
Record Seq := MkSeq { q_df : DataFlow; q_state : State X; q_slot : Z }.

(** Whether the scheduler has the thread. *)
Variable known : Z -> bool.

(** A thunk decoded, run and dropped from the queue; [None] if it waits. *)
Definition exec_thunk (b : Backtrace) (address : option (Z * Layout)) (o : Ordering) (deps : list Z)
    (c : Compute X) (s : Seq) : option (res (Z * Seq)) :=
  match thunk_impl known (q_slot s) b address o deps c (q_df s) (q_state s) with
  | Panic e => Some (Panic e)
  | Ok None => None
  | Ok (Some (t, df, st)) =>
      match Data.step t st with
      | Panic e => Some (Panic e)
      | Ok (false, _) => None
      | Ok (true, st) =>
          Some (let! ts := retain_pending st (df_thunks df) in
                Ok (t, MkSeq (MkDataFlow (df_thread df) (df_seq df) ts (df_tracing df)) st (q_slot s + 1)))
      end
  end.

Definition set_world (w : World X) (s : Seq) : Seq :=
  MkSeq (q_df s) (MkState (heap (q_state s)) w (woken (q_state s))) (q_slot s).

Fixpoint exec {A} (c : Async X A) (s : Seq) : option (res (A * Seq)) :=
  match c with
  | Ret a => Some (Ok (a, s))
  | Raise e => Some (Panic e)
  | Exhausted => None
  | Decode b address o deps c k =>
      match exec_thunk b address o deps c s with
      | Some (Ok (t, s)) => exec (k t) s
      | Some (Panic e) => Some (Panic e)
      | None => None
      end
  | Await t k =>
      match poll known 0 t (q_state s) with
      | Ok (Some v, st) => exec (k v) (MkSeq (q_df s) st (q_slot s))
      | Ok (None, _) => None
      | Panic e => Some (Panic e)
      end
  | Act f k =>
      match f (world (q_state s)) with
      | Ok (Some (r, w)) => exec (k r) (set_world w s)
      | Ok None => None
      | Panic e => Some (Panic e)
      end
  | SetTracing b k => exec k (MkSeq (set_tracing b (q_df s)) (q_state s) (q_slot s))
  end.

(** ** Rules of execution *)

Lemma exec_bind {A B} (c : Async X A) (f : A -> Async X B) s :
  exec (abind c f) s =
  match exec c s with
  | Some (Ok (a, s)) => exec (f a) s
  | Some (Panic e) => Some (Panic e)
  | None => None
  end.
Proof.
  revert s. induction c as [a|e| |b address o deps c k IH|t k IH|g k IH|b k IH]; intros s; simpl; try done.
  - destruct (exec_thunk b address o deps c s) as [[[t s1]|]|]; naive_solver.
  - destruct (poll known 0 t (q_state s)) as [[[v|] st]|]; naive_solver.
  - destruct (g (world (q_state s))) as [[[r w]|]|]; naive_solver.
Qed.

Lemma exec_lift {A B} (r : res A) (f : A -> Async X B) s a :
  r = Ok a -> exec (abind (lift r) f) s = exec (f a) s.
Proof. by intros ->. Qed.

Definition q_memory (s : Seq) : MemoryInner := w_memory (world (q_state s)).

(** Between operations: nothing is pending. *)
Definition idle (s : Seq) : Prop := df_thunks (q_df s) = [] /\ known (df_thread (q_df s)) = true /\ 0 <= df_seq (q_df s).

(** From [s] to [s'] with [n] thunks decoded, and memory [m]. *)
Record passed (n : Z) (m : MemoryInner) (s s' : Seq) : Prop := {
  passed_idle : idle s';
  passed_thread : df_thread (q_df s') = df_thread (q_df s);
  passed_seq : df_seq (q_df s') = df_seq (q_df s) + n;
  passed_mem : q_memory s' = m;
  passed_rest : w_rest (world (q_state s')) = w_rest (world (q_state s))
}.

Definition room (n : Z) (s : Seq) : Prop := df_seq (q_df s) + n < 2 ^ 64.

Lemma passed_trans n1 n2 m1 m2 s1 s2 s3 :
  passed n1 m1 s1 s2 -> passed n2 m2 s2 s3 -> passed (n1 + n2) m2 s1 s3.
Proof. intros [] []. constructor; try done; [congruence|lia|congruence]. Qed.

(** A thunk depends on the address it accesses. *)
Definition addr_dep (address : option (Z * Layout)) (deps : list Z) : Prop :=
  forall a l, address = Some (a, l) -> a ∈ deps.

Lemma no_addr deps : addr_dep None deps.
Proof. done. Qed.

Lemma addr_first a l deps : addr_dep (Some (a, l)) (a :: deps).
Proof. intros b k [= -> ->]. by left. Qed.

(** What is printed of a new thunk whose dependencies have values. *)
Lemma declared_vals (st : State X) t i args :
  Forall2 (fun d v => d <> t /\ val st d = Some v) (t_deps i) args -> forallb printable args = true ->
  shown i = true -> addr_dep (t_address i) (t_deps i) ->
  exists line, declared (MkState (<[t := i]> (heap st)) (world st) (woken st)) i = Ok line.
Proof.
  intros Hargs Hp Hi Ha. apply declared_Ok. split; [done|].
  assert (forall d, d ∈ t_deps i -> can_show (MkState (<[t := i]> (heap st)) (world st) (woken st)) d) as Hd.
  { clear Ha Hi. intros d Hd. revert d Hd. induction Hargs as [|d v ds vs [Hne Hv] _ IH]; [by intros d ?%not_elem_of_nil|].
    cbn [forallb] in Hp. apply andb_true_iff in Hp as [Hpv Hp].
    intros e [->|He]%elem_of_cons; [|by apply IH].
    unfold val in Hv. unfold can_show. simpl. rewrite lookup_insert_ne by done.
    destruct (heap st !! d) as [j|] eqn:Hj; [|done]. exists j. split; [done|]. unfold shown.
    destruct (t_value j); by simplify_eq. }
  unfold mentions. intros d [Hin|Hin]%elem_of_app; [by apply Hd|].
  destruct (t_address i) as [[a l]|]; [|by apply not_elem_of_nil in Hin].
  apply list_elem_of_singleton in Hin as ->. apply Hd. by eapply Ha.
Qed.

(** A thunk whose dependencies have values is run at once. *)
Lemma exec_decode {A} b address o deps c (k : Z -> Async X A) s args v w :
  idle s -> room 1 s -> Forall2 (fun d v => d <> q_slot s /\ val (q_state s) d = Some v) deps args ->
  c (df_thread (q_df s)) args (world (q_state s)) = Ok (v, w) ->
  forallb printable (v :: args) = true -> addr_dep address deps ->
  exists s', exec (Decode b address o deps c k) s = exec (k (q_slot s)) s' /\
    q_slot s' = q_slot s + 1 /\ idle s' /\ df_thread (q_df s') = df_thread (q_df s) /\
    df_seq (q_df s') = df_seq (q_df s) + 1 /\ world (q_state s') = w /\
    val (q_state s') (q_slot s) = Some v /\
    (exists i, heap (q_state s') !! q_slot s = Some i /\ t_thread i = df_thread (q_df s)) /\
    (forall d, d <> q_slot s -> heap (q_state s') !! d = heap (q_state s) !! d).
Proof.
  intros (Hts & Hk & Hseq) Hroom Hargs Hc (Hpv & Hpa)%andb_true_iff Ha. unfold room in Hroom.
  cbn [exec]. unfold exec_thunk, thunk_impl. rewrite Hk. unfold df_len. rewrite Hts. 
  change (PIPELINE_SIZE <=? zlen (@nil Z)) with false. cbv iota.
  rewrite add64_ok by lia. cbn [bind app guard_].
  set (i := MkThunk _ _ deps _ _ _ _ _ _). set (st1 := MkState _ _ _).
  destruct (declared_vals (q_state s) (q_slot s) i args Hargs Hpa eq_refl Ha) as [line Hline].
  fold st1 in Hline. rewrite Hline. cbn [bind print].
  assert (Data.step (q_slot s) st1 = Ok (true, MkState (<[q_slot s := set_wakers [] (set_value (Ready v) i)]> (heap st1)) w
    (woken st1 ++ []))) as ->.
  { apply step_true. exists i, args, c, v, w. split_and!; [by simpl; rewrite lookup_insert_eq| |done|done|done|done].
    eapply Forall2_impl; [exact Hargs|]. intros d x [Hne Hd]. unfold val in *. simpl.
    by rewrite lookup_insert_ne. }
  cbn [df_thunks retain_pending]. unfold try_get, deref at 1. simpl. rewrite !lookup_insert_eq. simpl.
  eexists. split; [reflexivity|]. simpl. split_and!; try done.
  - split_and!; simpl; [done|done|lia].
  - unfold val. simpl. by rewrite lookup_insert_eq.
  - eexists. split; [by rewrite lookup_insert_eq|done].
  - intros d Hd. by rewrite !lookup_insert_ne.
Qed.

Lemma exec_await {A} t (k : Value -> Async X A) s i v :
  heap (q_state s) !! t = Some i -> known (t_thread i) = true -> val (q_state s) t = Some v ->
  exec (Await t k) s = exec (k v) s.
Proof.
  intros Hi Hk Hv. cbn [exec]. unfold poll, try_get, deref. unfold val in Hv. rewrite Hi in *. cbn [bind].
  destruct (t_value i); try done. injection Hv as ->. cbn [bind]. rewrite Hk. by destruct s.
Qed.

(** ** The memory operations of [FlowCtx] *)

Section Memory.
Context `{BVL : !BitvecLaws}.
Variable self : FlowCtx.

Lemma addr_spec p : 0 <= p < 2 ^ 64 -> exists v, addr p = Ok v /\ as_u64 v = p.
Proof.
  intros Hp. destruct (from_int_spec 64 p) as (v & Hv & _ & _ & Hi); [lia|].
  exists v. unfold addr. rewrite (proj2 (Z.leb_le p (2 ^ 64 - 1))) by lia. split; [exact Hv|].
  unfold as_u64. rewrite Hi. by rewrite wrap_wrap, wrap_small by lia.
Qed.

(** A thunk that is awaited at once. *)
Lemma exec_decode_await {A} b address o deps c (k : Value -> Async X A) s args v w :
  idle s -> room 1 s -> Forall2 (fun d v => d <> q_slot s /\ val (q_state s) d = Some v) deps args ->
  c (df_thread (q_df s)) args (world (q_state s)) = Ok (v, w) -> w_rest w = w_rest (world (q_state s)) ->
  forallb printable (v :: args) = true -> addr_dep address deps ->
  exists s', exec (Decode b address o deps c (fun t => Await t k)) s = exec (k v) s' /\
    passed 1 (w_memory w) s s'.
Proof.
  intros Hs Hr Hargs Hc Hw Hp Ha. pose proof Hs as (_ & Hk & _).
  destruct (exec_decode b address o deps c (fun t => Await t k) s args v w Hs Hr Hargs Hc Hp Ha)
    as (s' & -> & Hslot & Hs' & Hth & Hseq & Hworld & Hv & (i & Hi & Hti) & _).
  exists s'. split.
  - eapply exec_await; [exact Hi| |exact Hv]. by rewrite Hti.
  - constructor; [done|done|done|by unfold q_memory; rewrite Hworld|by rewrite Hworld].
Qed.

Lemma passed_step n m s s' s'' :
  df_thread (q_df s') = df_thread (q_df s) -> df_seq (q_df s') = df_seq (q_df s) + 1 ->
  world (q_state s') = world (q_state s) -> passed n m s' s'' -> passed (1 + n) m s s''.
Proof. intros H1 H2 H3 []. constructor; try done; [congruence|lia|congruence]. Qed.

Lemma room_step n s s' : room (1 + n) s -> df_seq (q_df s') = df_seq (q_df s) + 1 -> room n s'.
Proof. unfold room. lia. Qed.

Lemma alloc_runs l s p m :
  idle s -> room 1 s -> Memory.alloc (f_thread self) l (q_memory s) = Ok (p, m) -> 0 <= p < 2 ^ 64 ->
  exists s', exec (alloc self l) s = Some (Ok (p, s')) /\ passed 1 m s s'.
Proof.
  intros Hs Hr Hal Hp. destruct (addr_spec p Hp) as (v & Hv & <-).
  unfold alloc, a_thunk, await. cbn [abind].
  edestruct (exec_decode_await (f_backtrace self) None ONone [] (alloc_compute (f_thread self) l) (fun v => Ret (as_u64 v)) s []
    v (MkWorld m (w_rest (world (q_state s)))) Hs Hr (List.Forall2_nil _)) as (s' & -> & Hpass);
    [|done|prints|apply no_addr|by exists s'].
  unfold alloc_compute. fold (q_memory s). rewrite Hal. cbn [bind]. by rewrite Hv.
Qed.

Lemma free_runs l p s :
  idle s -> room 1 s -> exists s', exec (free self p l) s = Some (Ok (tt, s')) /\ passed 1 (q_memory s) s s'.
Proof.
  intros Hs Hr. unfold free, a_thunk, await. cbn [abind].
  assert (exists u, from_unit = Ok u) as [u Hu] by (by eexists).
  edestruct (exec_decode_await (f_backtrace self) None ONone [] (free_compute (f_thread self) p) (fun _ => Ret tt) s []
    u (MkWorld (q_memory s) (w_rest (world (q_state s)))) Hs Hr (List.Forall2_nil _)) as (s' & -> & Hpass);
    [|done|prints|apply no_addr|by exists s'].
  unfold free_compute. by rewrite Hu.
Qed.

Lemma load_runs a l s v :
  idle s -> room 2 s -> 0 <= a < 2 ^ 64 -> load_impl (f_thread self) a l ONone (q_memory s) = Ok v -> printable v = true ->
  exists s', exec (load self a l) s = Some (Ok (v, s')) /\ passed 2 (q_memory s) s s'.
Proof.
  intros Hs Hr Ha Hl Hpv. destruct (addr_spec a Ha) as (av & Hav & <-).
  unfold load, constant, a_thunk, a_load, await. rewrite Hav. cbn [lift abind].
  edestruct (exec_decode (f_backtrace self) None ONone [] (fun _ _ w => Ok (av, w))
    (fun t => Decode (f_backtrace self) (Some (t, l)) ONone [t] (load_compute (f_thread self) l ONone) (fun t => Await t Ret))
    s [] av (world (q_state s)) Hs ltac:(unfold room in *; lia) (List.Forall2_nil _) eq_refl ltac:(prints) (no_addr _))
    as (s1 & -> & Hslot & Hs1 & Hth & Hseq & Hw & Hv1 & _ & _).
  edestruct (exec_decode_await (f_backtrace self) (Some (q_slot s, l)) ONone [q_slot s]
    (load_compute (f_thread self) l ONone) Ret s1 [av] v (world (q_state s1)) Hs1
    ltac:(by apply (room_step 1 s)))
    as (s2 & -> & Hp).
  - constructor; [|constructor]. split; [lia|exact Hv1].
  - unfold load_compute. change (index [av] 0) with (Ok av). cbn [bind]. rewrite Hw.
    fold (q_memory s). rewrite Hl. reflexivity.
  - done.
  - prints.
  - apply addr_first.
  - exists s2. split; [done|]. apply (passed_step 1 _ s s1 s2); [done..|]. rewrite Hw in Hp. exact Hp.
Qed.

Lemma store_runs a v s m :
  idle s -> room 3 s -> 0 <= a < 2 ^ 64 -> zlen (imp v) * 8 < 2 ^ 64 ->
  store_impl (f_thread self) a v ONone (q_memory s) = Ok m -> printable v = true ->
  exists s', exec (store self a v) s = Some (Ok (tt, s')) /\ passed 3 m s s'.
Proof.
  intros Hs Hr Ha Hlen Hst Hpv. destruct (addr_spec a Ha) as (av & Hav & <-).
  unfold store, constant, a_thunk, a_store, await, as_bytes. rewrite Hav. cbn [lift abind].
  assert (Layout.from_bytes (zlen (imp v)) 1 = Ok (MkLayout (zlen (imp v) * 8) 8)) as Hl.
  { unfold Layout.from_bytes. pose proof (zlen_nonneg (imp v)). rewrite mul64_ok by lia. cbn [bind].
    by rewrite mul64_ok by lia. }
  rewrite Hl. cbn [lift abind].
  match goal with |- context [exec (Decode _ None ONone [] _ ?k) s] =>
    destruct (exec_decode (f_backtrace self) None ONone [] (fun _ _ w => Ok (av, w)) k
      s [] av (world (q_state s)) Hs ltac:(unfold room in *; lia) (List.Forall2_nil _) eq_refl ltac:(prints) (no_addr _))
      as (s1 & -> & Hslot & Hs1 & Hth & Hseq & Hw & Hv1 & _ & _) end.
  match goal with |- context [exec (Decode _ None ONone [] _ ?k) s1] =>
    destruct (exec_decode (f_backtrace self) None ONone [] (fun _ _ w => Ok (v, w)) k
      s1 [] v (world (q_state s1)) Hs1 ltac:(unfold room in *; lia) (List.Forall2_nil _) eq_refl ltac:(prints) (no_addr _))
      as (s2 & -> & Hslot2 & Hs2 & Hth2 & Hseq2 & Hw2 & Hv2 & _ & Hkeep) end.
  edestruct (exec_decode_await (f_backtrace self) (Some (q_slot s, MkLayout (zlen (imp v) * 8) 8)) ONone
    [q_slot s; q_slot s1] (store_compute (f_thread self) ONone) (fun _ => Ret tt) s2 [av; v]
    (MkValue [] 0) (MkWorld m (w_rest (world (q_state s)))) Hs2) as (s3 & -> & Hp).
  - unfold room in *. lia.
  - constructor; [|constructor; [|constructor]]; (split; [lia|]); [|exact Hv2].
    unfold val in *. by rewrite Hkeep by lia.
  - unfold store_compute. change (index [av; v] 0) with (Ok av). change (index [av; v] 1) with (Ok v).
    cbn [bind]. rewrite Hw2, Hw. fold (q_memory s). rewrite Hst. reflexivity.
  - simpl. by rewrite Hw2, Hw.
  - prints.
  - apply addr_first.
  - exists s3. split; [done|]. apply (passed_step 2 _ s s1 s3); [done..|].
    by apply (passed_step 1 _ s1 s2 s3).
Qed.

(** ** Bytes *)

(** [n] bytes from [p]. *)
Definition bytes_of (m : MemoryInner) (p n : Z) : list Z := (fun i => byte_at m (p + i)) <$> seqZ 0 n.

Lemma zlen_bytes_of m p n : 0 <= n -> zlen (bytes_of m p n) = n.
Proof. intros Hn. unfold zlen, bytes_of. rewrite length_fmap, length_seqZ. lia. Qed.

Lemma zget_bytes_of m p n i : 0 <= i < n -> zget (bytes_of m p n) i = Some (byte_at m (p + i)).
Proof.
  intros Hi. unfold zget, bytes_of. destruct (Z.leb_spec 0 i); [|lia].
  rewrite list_lookup_fmap, lookup_seqZ_lt by lia. simpl. do 3 f_equal. lia.
Qed.

Lemma load_range t p n al o m :
  mem_ok m -> 0 <= p -> 0 <= n -> 8 * n + 7 < 2 ^ 64 -> p + n < 2 ^ 64 ->
  load_impl t p (MkLayout (n * 8) al) o m = Ok (MkValue (bytes_of m p n) (n * 8)) /\ Forall is_byte (bytes_of m p n).
Proof.
  intros Hm Hp Hn Hn8 Hpn.
  assert ((n * 8 + 7) / 8 = n) as Hdiv by (pose proof (Z.div_mod (n * 8 + 7) 8); pose proof (Z.mod_pos_bound (n * 8 + 7) 8); lia).
  destruct (load_bytes t p (MkLayout (n * 8) al) o m Hm Hp) as (v & Hv & Hwf & Hb & Hg); [simpl; lia..|].
  simpl in Hb. destruct v as [vi vb]. simpl in *. subst vb. destruct Hwf as (_ & _ & Hlen & Hby). simpl in *.
  rewrite Hdiv in Hlen.
  assert (vi = bytes_of m p n) as ->; [|done]. apply zget_ext; [by rewrite zlen_bytes_of|].
  intros i Hi. rewrite Hg by lia. rewrite zget_bytes_of by lia. done.
Qed.

Lemma from_bytes_1 n : 0 <= n -> n * 8 < 2 ^ 64 -> Layout.from_bytes n 1 = Ok (MkLayout (n * 8) 8).
Proof. intros Hn Hn8. unfold Layout.from_bytes. rewrite mul64_ok by lia. cbn [bind]. by rewrite mul64_ok by lia. Qed.

Lemma memcpy_runs dst src len s :
  idle s -> room 5 s -> mem_ok (q_memory s) -> 0 <= src -> 0 <= dst -> 0 <= len ->
  8 * len + 7 < 2 ^ 64 -> src + len < 2 ^ 64 -> dst + len < 2 ^ 64 ->
  exists s', exec (memcpy self dst src len) s = Some (Ok (tt, s')) /\
    passed (if 0 <? len then 5 else 0) (q_memory s') s s' /\ mem_ok (q_memory s') /\
    next (q_memory s') = next (q_memory s) /\
    (forall b, byte_at (q_memory s') b =
      if (dst <=? b) && (b <? dst + len) then byte_at (q_memory s) (src + (b - dst)) else byte_at (q_memory s) b).
Proof.
  intros Hs Hr Hm Hsrc Hdst Hlen H8 Hsl Hdl. unfold memcpy. destruct (Z.ltb_spec 0 len) as [Hpos|Hz].
  2: { assert (len = 0) as -> by lia. exists s. split; [done|]. split_and!; [|done|done|].
       - constructor; try done. lia.
       - intros b. destruct (Z.leb_spec dst b), (Z.ltb_spec b (dst + 0)); simpl; done || lia. }
  rewrite exec_bind, from_bytes_1 by lia. cbn [lift exec]. rewrite exec_bind.
  destruct (load_range (f_thread self) src len 8 ONone _ Hm Hsrc Hlen H8 Hsl) as [Hld Hby].
  destruct (load_runs src (MkLayout (len * 8) 8) s _ Hs ltac:(unfold room in *; lia) ltac:(lia) Hld (printable_mul _ _)) as (s1 & -> & Hp1).
  set (v := MkValue _ _). pose proof (zlen_bytes_of (q_memory s) src len Hlen) as Hzl.
  destruct (store_bytes (f_thread self) dst v ONone (q_memory s) Hm Hby Hdst) as (m & Hst & Hn & Hm' & Hb & _); [simpl; lia|].
  destruct (store_runs dst v s1 m) as (s2 & -> & Hp2).
  - apply Hp1.
  - unfold room in *. rewrite (passed_seq _ _ _ _ Hp1). lia.
  - lia.
  - simpl. lia.
  - by rewrite (passed_mem _ _ _ _ Hp1).
  - apply printable_mul.
  - exists s2. rewrite (passed_mem _ _ _ _ Hp2). split; [done|]. split_and!; [|done|done|].
    + apply (passed_trans 2 3 _ _ _ _ _ Hp1 Hp2).
    + intros b. rewrite Hb. simpl. rewrite Hzl.
      destruct (Z.leb_spec dst b), (Z.ltb_spec b (dst + len)); simpl; try done.
      by rewrite zget_bytes_of by lia.
Qed.

(** ** Strings *)

Lemma unwrap_u8_byte b : is_byte b -> unwrap_u 8 (MkValue [b] 8) = Ok b.
Proof.
  intros Hb. unfold unwrap_u, unwrap_int. cbn [bits]. change (8 =? 8) with true. cbn [guard_ bind].
  unfold as_u128, is_byte in *. simpl. rewrite Z.add_0_r, wrap_small by lia. done.
Qed.

Lemma load_byte_runs p s :
  idle s -> room 2 s -> mem_ok (q_memory s) -> 0 <= p -> p + 1 < 2 ^ 64 ->
  exists s', exec (load self p (MkLayout 8 8)) s = Some (Ok (MkValue [byte_at (q_memory s) p] 8, s')) /\
    passed 2 (q_memory s) s s' /\ is_byte (byte_at (q_memory s) p).
Proof.
  intros Hs Hr Hm Hp Hp1. destruct (load_range (f_thread self) p 1 8 ONone _ Hm Hp) as [Hld Hby]; [lia..|].
  assert (bytes_of (q_memory s) p 1 = [byte_at (q_memory s) p]) as Hb.
  { unfold bytes_of. simpl. by rewrite Z.add_0_r. }
  rewrite Hb in *. destruct (load_runs p (MkLayout 8 8) s _ Hs Hr ltac:(lia) Hld eq_refl) as (s' & He & Hpass).
  exists s'. split_and!; [done|done|]. by inversion Hby.
Qed.

Lemma strlen_runs fuel str i n s :
  (Z.to_nat (n - i) < fuel)%nat -> 0 <= str -> 0 <= i <= n -> str + n + 1 < 2 ^ 64 ->
  idle s -> room (2 * (n - i + 1)) s -> mem_ok (q_memory s) ->
  (forall j, i <= j < n -> byte_at (q_memory s) (str + j) <> 0) -> byte_at (q_memory s) (str + n) = 0 ->
  exists s', exec (strlen_from fuel self str i) s = Some (Ok (n, s')) /\
    passed (2 * (n - i + 1)) (q_memory s) s s'.
Proof.
  revert i s. induction fuel as [|fuel IH]; intros i s Hf Hstr Hi Hlt Hs Hr Hm Hnz Hz; [lia|].
  cbn [strlen_from]. rewrite exec_bind, add64_ok by lia. cbn [lift exec].
  change (Layout.from_bytes 1 1) with (Ok (MkLayout 8 8)). rewrite exec_bind. cbn [lift exec]. rewrite exec_bind.
  destruct (load_byte_runs (str + i) s Hs) as (s1 & -> & Hp1 & Hby); [unfold room in *; lia|done|lia|lia|].
  rewrite exec_bind, unwrap_u8_byte by done. cbn [lift exec].
  destruct (decide (i = n)) as [->|Hne].
  - rewrite Hz. cbn [Z.eqb exec]. exists s1. split; [done|]. by replace (2 * (n - n + 1)) with 2 by lia.
  - destruct (Z.eqb_spec (byte_at (q_memory s) (str + i)) 0) as [E|_]; [by apply Hnz in E; [|lia]|].
    destruct (IH (i + 1) s1) as (s2 & -> & Hp2).
    all: rewrite ?(passed_mem _ _ _ _ Hp1) in *; try done; try lia.
    + apply Hp1.
    + unfold room in *. rewrite (passed_seq _ _ _ _ Hp1). lia.
    + intros j Hj. apply Hnz. lia.
    + exists s2. split; [done|]. replace (2 * (n - i + 1)) with (2 + 2 * (n - (i + 1) + 1)) by lia.
      by apply (passed_trans 2 _ _ _ _ _ _ Hp1 Hp2).
Qed.
End Memory.
End Flow.
Arguments Seq X : clear implicits.

Section Claims.
Context {BV : Bitvec} {BVL : BitvecLaws} {X : Type} (known : Z -> bool).
Implicit Types (s : Seq X) (self : FlowCtx).

(** [memcpy] copies: afterwards each byte of the destination is what the
    byte of the source was before, also when they overlap (so it serves
    memmove), and every other byte is unchanged. It always finishes, decoding
    five thunks, or none when the length is 0. *)
Theorem memcpy_correct self dst src len s :
  idle known s -> room 5 s -> mem_ok (q_memory s) -> 0 <= src -> 0 <= dst -> 0 <= len ->
  8 * len + 7 < 2 ^ 64 -> src + len < 2 ^ 64 -> dst + len < 2 ^ 64 ->
  exists s', exec known (memcpy self dst src len) s = Some (Ok (tt, s')) /\
    idle known s' /\ mem_ok (q_memory s') /\
    df_seq (q_df s') = df_seq (q_df s) + (if 0 <? len then 5 else 0) /\
    w_rest (world (q_state s')) = w_rest (world (q_state s)) /\
    (forall b, byte_at (q_memory s') b =
      if (dst <=? b) && (b <? dst + len) then byte_at (q_memory s) (src + (b - dst)) else byte_at (q_memory s) b).
Proof.
  intros Hs Hr Hm H1 H2 H3 H4 H5 H6.
  destruct (memcpy_runs known self dst src len s Hs Hr Hm H1 H2 H3 H4 H5 H6) as (s' & He & [] & Hm' & _ & Hb).
  by exists s'.
Qed.

Lemma string_runs self bs s :
  idle known s -> room 4 s -> mem_ok (q_memory s) -> 0 <= next (q_memory s) -> Forall is_byte bs ->
  8 * (zlen bs + 1) + 7 < 2 ^ 64 -> next (q_memory s) + demand (MkLayout ((zlen bs + 1) * 8) 8) < 2 ^ 64 ->
  exists p s', exec known (string self bs) s = Some (Ok (p, s')) /\ passed known 4 (q_memory s') s s' /\
    mem_ok (q_memory s') /\ next (q_memory s) <= p /\ p + zlen bs + 1 < 2 ^ 64 /\
    (forall i, 0 <= i < zlen bs + 1 -> byte_at (q_memory s') (p + i) = default 0 (zget (bs ++ [0]) i)) /\
    (forall b, ~ p <= b < p + zlen bs + 1 -> byte_at (q_memory s') b = byte_at (q_memory s) b).
Proof.
  intros Hs Hr Hm Hn Hbs Hlen Hd. pose proof (zlen_nonneg bs) as Hz.
  assert (zlen (bs ++ [0]) = zlen bs + 1) as Hzl by (rewrite zlen_app; done).
  unfold string. rewrite exec_bind, Hzl, from_bytes_1 by lia. cbn [lift exec]. rewrite exec_bind.
  destruct (alloc_spec (f_thread self) (MkLayout ((zlen bs + 1) * 8) 8) (q_memory s))
    as (p & m & Hal & Hcells & Hp & _ & Hnext & Hle); [|simpl; lia|done|done|].
  { split; [simpl; lia|]. split; [simpl; lia|]. by exists 3. }
  unfold HEAP_GUARD in *. simpl in Hnext. rewrite Z.div_add_l, Z.div_small in Hnext by lia.
  destruct (alloc_runs known self _ s p m Hs ltac:(unfold room in *; lia) Hal ltac:(lia)) as (s1 & -> & Hp1).
  rewrite exec_bind. unfold Value.from_bytes. cbn [Layout.bits]. rewrite add64_ok by lia. cbn [bind].
  rewrite Z.div_add_l, Z.div_small, Z.add_0_r, Hzl, Z.eqb_refl by lia. cbn [guard_ bind lift exec].
  rewrite exec_bind. set (v := MkValue _ _).
  assert (mem_ok m) as Hm1 by (unfold mem_ok in *; by rewrite Hcells).
  assert (Forall is_byte (imp v)) as Hby.
  { simpl. apply Forall_app. split; [done|]. constructor; [unfold is_byte; lia|constructor]. }
  destruct (store_bytes (f_thread self) p v ONone m Hm1 Hby) as (m2 & Hst & Hn2 & Hm2 & Hb & _); [lia|simpl; lia|].
  destruct (store_runs known self p v s1 m2) as (s2 & -> & Hp2).
  - apply Hp1.
  - unfold room in *. rewrite (passed_seq _ _ _ _ _ Hp1). lia.
  - lia.
  - simpl. lia.
  - by rewrite (passed_mem _ _ _ _ _ Hp1).
  - apply printable_mul.
  - exists p, s2. cbn [exec]. rewrite (passed_mem _ _ _ _ _ Hp2). split_and!; [done| |done|done|lia| |].
    + apply (passed_trans known 1 3 _ _ _ _ _ Hp1 Hp2).
    + intros i Hi. rewrite Hb. simpl. rewrite Hzl.
      destruct (Z.leb_spec p (p + i)), (Z.ltb_spec (p + i) (p + (zlen bs + 1))); simpl; try lia.
      by replace (p + i - p) with i by lia.
    + intros b Hnb. rewrite Hb. simpl. rewrite Hzl. unfold byte_at at 1. rewrite Hcells.
      destruct (Z.leb_spec p b), (Z.ltb_spec b (p + (zlen bs + 1))); simpl; done || lia.
Qed.

(** Strings survive the simulated memory: [string] puts a UTF-8 string
    without NUL bytes, and a NUL after it, in a fresh block, and [get_string]
    on the address, with fuel for its length, finds its end and gives back the
    string; nothing else in memory changes. *)
Theorem string_roundtrip self fuel bs s :
  idle known s -> room (2 * zlen bs + 8) s -> mem_ok (q_memory s) -> 0 <= next (q_memory s) ->
  Forall is_byte bs -> utf8_valid bs = true -> 0 ∉ bs -> (length bs < fuel)%nat ->
  8 * (zlen bs + 1) + 7 < 2 ^ 64 -> next (q_memory s) + demand (MkLayout ((zlen bs + 1) * 8) 8) < 2 ^ 64 ->
  exists p s', exec known (let* p := string self bs in let* r := get_string fuel self p in Ret (p, r)) s =
      Some (Ok ((p, bs), s')) /\
    idle known s' /\ next (q_memory s) <= p /\
    (forall b, ~ p <= b < p + zlen bs + 1 -> byte_at (q_memory s') b = byte_at (q_memory s) b).
Proof.
  intros Hs Hr Hm Hn Hby Hutf Hnz Hf Hlen Hd. pose proof (zlen_nonneg bs) as Hz.
  destruct (string_runs self bs s Hs ltac:(unfold room in *; lia) Hm Hn Hby Hlen Hd)
    as (p & s1 & He & Hp1 & Hm1 & Hp & Hend & Hbytes & Hother).
  exists p. rewrite exec_bind, He, exec_bind. unfold get_string, strlen.
  assert (forall i b, 0 <= i < zlen bs -> zget bs i = Some b -> byte_at (q_memory s1) (p + i) = b) as Hin.
  { intros i b Hi Hb. rewrite Hbytes, zget_app_l, Hb by lia. done. }
  rewrite exec_bind.
  destruct (strlen_runs known self fuel p 0 (zlen bs) s1) as (s2 & -> & Hp2).
  - unfold zlen. lia.
  - lia.
  - lia.
  - lia.
  - apply Hp1.
  - unfold room in *. rewrite (passed_seq _ _ _ _ _ Hp1). lia.
  - done.
  - intros j Hj. destruct (zget_in_bounds bs j Hj) as [b Hb]. rewrite (Hin j b Hj Hb). intros ->.
    apply Hnz. unfold zget in Hb. destruct (0 <=? j); [|done]. by eapply list_elem_of_lookup_2.
  - rewrite Hbytes, zget_app_r by lia. by rewrite Z.sub_diag.
  - rewrite exec_bind, from_bytes_1 by lia. cbn [lift exec]. rewrite exec_bind.
    destruct (load_range (f_thread self) p (zlen bs) 8 ONone (q_memory s2)) as [Hld _];
      [by rewrite (passed_mem _ _ _ _ _ Hp2)|lia..|].
    assert (bytes_of (q_memory s2) p (zlen bs) = bs) as Hbs.
    { apply zget_ext; [by rewrite zlen_bytes_of|]. intros i Hi. rewrite zlen_bytes_of in Hi by lia.
      rewrite zget_bytes_of by lia. destruct (zget_in_bounds bs i Hi) as [b Hb].
      by rewrite Hb, (passed_mem _ _ _ _ _ Hp2), (Hin i b). }
    rewrite Hbs in Hld.
    destruct (load_runs known self p (MkLayout (zlen bs * 8) 8) s2 (MkValue bs (zlen bs * 8))) as (s3 & -> & Hp3).
    + apply Hp2.
    + unfold room in *. rewrite (passed_seq _ _ _ _ _ Hp2), (passed_seq _ _ _ _ _ Hp1). lia.
    + lia.
    + exact Hld.
    + apply printable_mul.
    + simpl. unfold from_utf8. rewrite Hutf. cbn [guard_ bind lift exec]. exists s3.
      split; [done|]. split; [apply Hp3|]. split; [done|]. intros b Hb.
      by rewrite (passed_mem _ _ _ _ _ Hp3), (passed_mem _ _ _ _ _ Hp2), Hother.
Qed.

(** [realloc] gives a fresh aligned block for the new layout that starts
    with as many bytes of the old one as both have, and changes no byte
    outside those. *)
Theorem realloc_keeps self old old_layout new_layout s :
  let n := Z.min ((Layout.bits new_layout + 7) / 8) ((Layout.bits old_layout + 7) / 8) in
  idle known s -> room 7 s -> mem_ok (q_memory s) -> 0 <= next (q_memory s) -> 0 <= old ->
  Layout.wf new_layout -> Layout.bits new_layout + 14 < 2 ^ 64 ->
  0 <= Layout.bits old_layout -> Layout.bits old_layout + 14 < 2 ^ 64 -> old + n < 2 ^ 64 ->
  next (q_memory s) + demand new_layout < 2 ^ 64 ->
  exists p s', exec known (realloc self old old_layout new_layout) s = Some (Ok (p, s')) /\
    idle known s' /\ mem_ok (q_memory s') /\ next (q_memory s) <= p /\
    (Layout.bit_align new_layout / 8 | p) /\
    p + (Layout.bits new_layout + 7) / 8 + HEAP_GUARD = next (q_memory s') /\
    (forall i, 0 <= i < n -> byte_at (q_memory s') (p + i) = byte_at (q_memory s) (old + i)) /\
    (forall b, ~ p <= b < p + n -> byte_at (q_memory s') b = byte_at (q_memory s) b).
Proof.
  intros n Hs Hr Hm Hn Hold Hwf Hnb Hob0 Hob Hon Hd. pose proof Hwf as (Hnb0 & _).
  destruct (alloc_spec (f_thread self) new_layout (q_memory s) Hwf ltac:(lia) Hn Hd)
    as (p & m & Hal & Hcells & Hp & Hal8 & Hnext & Hle). unfold HEAP_GUARD in *.
  assert (0 <= n /\ n <= (Layout.bits new_layout + 7) / 8 /\ 8 * n + 7 < 2 ^ 64) as (Hn0 & Hnle & Hn8).
  { pose proof (Z.div_pos (Layout.bits new_layout + 7) 8). pose proof (Z.div_pos (Layout.bits old_layout + 7) 8).
    pose proof (Z.mul_div_le (Layout.bits new_layout + 7) 8). lia. }
  unfold realloc. rewrite exec_bind.
  destruct (alloc_runs known self _ s p m Hs ltac:(unfold room in *; lia) Hal ltac:(lia)) as (s1 & -> & Hp1).
  rewrite exec_bind. unfold Layout.bytes at 1. rewrite add64_ok by lia. cbn [bind lift exec].
  rewrite exec_bind. unfold Layout.bytes at 1. rewrite add64_ok by lia. cbn [bind lift exec].
  rewrite exec_bind. fold n.
  destruct (memcpy_runs known self p old n s1) as (s2 & -> & Hp2 & Hm2 & Hn2 & Hb2); try lia.
  - apply Hp1.
  - unfold room in *. rewrite (passed_seq _ _ _ _ _ Hp1). lia.
  - rewrite (passed_mem _ _ _ _ _ Hp1). unfold mem_ok in *. by rewrite Hcells.
  - rewrite exec_bind. destruct (free_runs known self old_layout old s2) as (s3 & -> & Hp3).
    + apply Hp2.
    + unfold room in *. rewrite (passed_seq _ _ _ _ _ Hp2), (passed_seq _ _ _ _ _ Hp1). destruct (0 <? n); lia.
    + assert (forall b, byte_at (q_memory s1) b = byte_at (q_memory s) b) as Hb1.
      { intros b. rewrite (passed_mem _ _ _ _ _ Hp1). unfold byte_at. by rewrite Hcells. }
      exists p, s3. rewrite (passed_mem _ _ _ _ _ Hp3). cbn [exec].
      split_and!; [done|apply Hp3|done|done|done|rewrite Hn2, (passed_mem _ _ _ _ _ Hp1); lia|..].
      * intros i Hi. rewrite Hb2, Hb1. destruct (Z.leb_spec p (p + i)), (Z.ltb_spec (p + i) (p + n)); simpl; try lia.
        f_equal. lia.
      * intros b Hb. rewrite Hb2, Hb1. destruct (Z.leb_spec p b), (Z.ltb_spec b (p + n)); simpl; done || lia.
Qed.

(** ** Compare and swap *)

Lemma range_canonical m p n : 0 <= n -> 8 * n + 7 < 2 ^ 64 -> Forall is_byte (bytes_of m p n) ->
  canonical (MkValue (bytes_of m p n) (n * 8)).
Proof.
  intros Hn Hn8 Hby. apply wf_canonical; [|simpl; apply Z.mod_mul; lia].
  split; [simpl; lia|]. split; [simpl; lia|]. split; [|done]. simpl. rewrite zlen_bytes_of by done.
  pose proof (Z.div_mod (n * 8 + 7) 8). pose proof (Z.mod_pos_bound (n * 8 + 7) 8). lia.
Qed.

Lemma from_bool_spec b : exists v, from_bool b = Ok v /\ canonical v /\ bits v = 1 /\ unwrap_bool v = Ok b.
Proof.
  destruct (new_int 1 (Z.b2z b)) as (v & Hv & Hc & Hb & Hu); [lia|destruct b; simpl; lia|].
  exists v. split_and!; [done..|]. unfold unwrap_bool, unwrap_int. rewrite Hb. cbn [Z.eqb guard_ bind].
  rewrite Hu. by destruct b.
Qed.

(** The number in eight bytes. *)
Definition u64_at (m : MemoryInner) (p : Z) : Z := as_u128 (MkValue (bytes_of m p 8) 64).

(** What is stored is there. *)
Lemma store_value th p v o m :
  mem_ok m -> Forall is_byte (imp v) -> 0 <= p -> p + zlen (imp v) < 2 ^ 64 ->
  exists m', store_impl th p v o m = Ok m' /\ mem_ok m' /\ bytes_of m' p (zlen (imp v)) = imp v /\
    (forall b, ~ p <= b < p + zlen (imp v) -> byte_at m' b = byte_at m b).
Proof.
  intros Hm Hby Hp0 Hp. pose proof (zlen_nonneg (imp v)) as Hz.
  destruct (store_bytes th p v o m Hm Hby) as (m' & Hst & _ & Hm' & Hb & _); [lia|lia|].
  exists m'. split_and!; [done|done| |].
  - apply zget_ext; [by rewrite zlen_bytes_of|]. intros i Hi. rewrite zlen_bytes_of in Hi by lia.
    rewrite zget_bytes_of, Hb by lia.
    destruct (Z.leb_spec p (p + i)), (Z.ltb_spec (p + i) (p + zlen (imp v))); simpl; try lia.
    replace (p + i - p) with i by lia. by destruct (zget_in_bounds (imp v) i) as [b ->]; [lia|].
  - intros b Hnb. rewrite Hb. destruct (Z.leb_spec p b), (Z.ltb_spec b (p + zlen (imp v))); simpl; done || lia.
Qed.

Lemma store_u64 th p v o m :
  mem_ok m -> canonical v -> bits v = 64 -> 0 <= p -> p + 8 < 2 ^ 64 ->
  exists m', store_impl th p v o m = Ok m' /\ mem_ok m' /\ u64_at m' p = as_u128 v /\
    (forall b, ~ p <= b < p + 8 -> byte_at m' b = byte_at m b).
Proof.
  intros Hm Hv Hvb Hp0 Hp. pose proof Hv as (Hwf & _). pose proof Hwf as (_ & _ & Hl & Hby). rewrite Hvb in Hl.
  change ((64 + 7) / 8) with 8 in Hl.
  destruct (store_value th p v o m Hm Hby Hp0) as (m' & Hst & Hm' & Hb & Hk); [lia|]. rewrite Hl in *.
  exists m'. split_and!; [done|done| |done]. unfold u64_at. rewrite Hb. destruct v as [vi vb]. simpl in *. by subst vb.
Qed.

Section Cas.
Context {CV : ClassView}.
Variables (output c64 c1 : Class) (lo : Layout) (o0 o1 al al1 : Z).
Hypothesis Hout : has_fields output lo [(c64, o0, MkLayout 64 al); (c1, o1, MkLayout 1 al1)].

(** The closure of [cmpxchg] on 64-bit values. *)
Lemma cmpxchg_compute_spec th av ev rv success failure (w : World X) :
  mem_ok (w_memory w) -> canonical ev -> bits ev = 64 -> canonical rv -> bits rv = 64 ->
  as_u64 av + 8 < 2 ^ 64 ->
  let cur := u64_at (w_memory w) (as_u64 av) in
  exists v m, cmpxchg_compute output (MkLayout 64 al) success failure th [av; ev; rv] w = Ok (v, MkWorld m (w_rest w)) /\
    bits v = Layout.bits lo /\
    (let! x := extract v output 0 in unwrap_u 64 x) = Ok cur /\
    (let! b := extract v output 1 in unwrap_bool b) = Ok (cur =? as_u128 ev) /\ mem_ok m /\
    (cur = as_u128 ev -> u64_at m (as_u64 av) = as_u128 rv /\
       forall b, ~ as_u64 av <= b < as_u64 av + 8 -> byte_at m b = byte_at (w_memory w) b) /\
    (cur <> as_u128 ev -> m = w_memory w).
Proof.
  intros Hm Hev Hevb Hrv Hrvb Hp cur. pose proof (as_u64_nonneg av) as Hp0. unfold cmpxchg_compute.
  change (index [av; ev; rv] 0) with (Ok av). change (index [av; ev; rv] 1) with (Ok ev).
  change (index [av; ev; rv] 2) with (Ok rv). cbn [bind].
  destruct (load_range th (as_u64 av) 8 al failure (w_memory w) Hm) as [Hld Hby]; [lia..|].
  change (8 * 8) with 64 in Hld. rewrite Hld. cbn [bind].
  pose proof (range_canonical (w_memory w) (as_u64 av) 8 ltac:(lia) ltac:(lia) Hby) as Hcur.
  change (8 * 8) with 64 in Hcur. set (cv := MkValue _ 64) in *.
  assert (bool_decide (cv = ev) = (cur =? as_u128 ev)) as Hchg.
  { apply eq_bool_prop_intro. rewrite bool_decide_spec, Is_true_true, Z.eqb_eq.
    split; [by intros <-|]. intros He. apply canonical_inj; [done|done|by rewrite Hevb|simpl; lia|exact He]. }
  rewrite Hchg. destruct (from_bool_spec (cur =? as_u128 ev)) as (bv & Hbv & Hbc & Hbb & Hub). rewrite Hbv.
  destruct (aggregate_fields output lo _ [cv; bv] Hout) as (v & Hagg & _ & Hvb & Hex).
  { constructor; [by split|]. constructor; [by split|constructor]. }
  cbn [bind]. rewrite Hagg.
  pose proof (Hex 0%nat cv eq_refl) as Hx. pose proof (Hex 1%nat bv eq_refl) as Hy.
  change (Z.of_nat 0) with 0 in Hx. change (Z.of_nat 1) with 1 in Hy.
  assert ((let! x := extract v output 0 in unwrap_u 64 x) = Ok cur) as Hr0.
  { rewrite Hx. cbn [bind]. unfold unwrap_u, unwrap_int. cbn [cv bits Z.eqb Pos.eqb guard_ bind].
    pose proof (as_u128_canonical cv Hcur ltac:(simpl; lia)). by rewrite wrap_small. }
  assert ((let! b := extract v output 1 in unwrap_bool b) = Ok (cur =? as_u128 ev)) as Hr1 by (rewrite Hy; exact Hub).
  destruct (Z.eqb_spec cur (as_u128 ev)) as [Heq|Hne].
  - destruct (store_u64 th (as_u64 av) rv success (w_memory w) Hm Hrv Hrvb Hp0 Hp) as (m & Hst & Hm' & Hu & Hb).
    rewrite Hst. cbn [bind]. eexists v, m. by split_and!.
  - cbn [bind]. eexists v, (w_memory w). by split_and!.
Qed.
End Cas.

Lemma cmpxchg_u64_runs {CV : ClassView} self (output c64 c1 : Class) (lo : Layout) (o0 o1 al al1 : Z)
    p e r success failure s :
  has_fields output lo [(c64, o0, MkLayout 64 al); (c1, o1, MkLayout 1 al1)] -> Layout.bits lo mod 8 = 0 ->
  idle known s -> room 4 s -> mem_ok (q_memory s) -> 0 <= p -> p + 8 < 2 ^ 64 ->
  0 <= e < 2 ^ 64 -> 0 <= r < 2 ^ 64 ->
  let cur := u64_at (q_memory s) p in
  exists m s', exec known (cmpxchg_u64 self output (MkLayout 64 al) p e r success failure) s =
      Some (Ok ((cur, cur =? e), s')) /\
    passed known 4 m s s' /\ mem_ok m /\
    (cur = e -> u64_at m p = r /\ forall b, ~ p <= b < p + 8 -> byte_at m b = byte_at (q_memory s) b) /\
    (cur <> e -> m = q_memory s).
Proof.
  intros Hout Hlo Hs Hr Hm Hp Hp8 He Hrr cur. destruct (addr_spec p ltac:(lia)) as (av & Hav & <-).
  destruct (from_int_spec 64 e ltac:(lia)) as (ev & Hev & Hec & Heb & Heu). rewrite wrap_small in Heu by lia.
  destruct (from_int_spec 64 r ltac:(lia)) as (rv & Hrv & Hrc & Hrb & Hru). rewrite wrap_small in Hru by lia.
  destruct (cmpxchg_compute_spec output c64 c1 lo o0 o1 al al1 Hout (df_thread (q_df s)) av ev rv success failure
    (world (q_state s)) Hm Hec Heb Hrc Hrb Hp8) as (v & m & Hrun & Hvb & H0 & H1 & Hm' & Hswap & Hkeep).
  unfold cmpxchg_u64, constant, a_thunk, cmpxchg, await. rewrite Hav, Hev, Hrv. cbn [lift abind].
  match goal with |- context [exec known (Decode _ None ONone [] _ ?k) s] =>
    destruct (exec_decode known (f_backtrace self) None ONone [] (fun _ _ w => Ok (av, w)) k
      s [] av (world (q_state s)) Hs ltac:(unfold room in *; lia) (List.Forall2_nil _) eq_refl ltac:(prints) (no_addr _))
      as (s1 & -> & Hsl1 & Hs1 & Hth1 & Hseq1 & Hw1 & Hv1 & _ & _) end.
  match goal with |- context [exec known (Decode _ None ONone [] _ ?k) s1] =>
    destruct (exec_decode known (f_backtrace self) None ONone [] (fun _ _ w => Ok (ev, w)) k
      s1 [] ev (world (q_state s1)) Hs1 ltac:(unfold room in *; lia) (List.Forall2_nil _) eq_refl ltac:(prints) (no_addr _))
      as (s2 & -> & Hsl2 & Hs2 & Hth2 & Hseq2 & Hw2 & Hv2 & _ & Hk2) end.
  match goal with |- context [exec known (Decode _ None ONone [] _ ?k) s2] =>
    destruct (exec_decode known (f_backtrace self) None ONone [] (fun _ _ w => Ok (rv, w)) k
      s2 [] rv (world (q_state s2)) Hs2 ltac:(unfold room in *; lia) (List.Forall2_nil _) eq_refl ltac:(prints) (no_addr _))
      as (s3 & -> & Hsl3 & Hs3 & Hth3 & Hseq3 & Hw3 & Hv3 & _ & Hk3) end.
  match goal with |- context [exec known (Decode ?b ?a ?o ?ds ?c (fun t => Await t ?k)) s3] =>
    destruct (exec_decode_await known b a o ds c k s3 [av; ev; rv] v (MkWorld m (w_rest (world (q_state s)))) Hs3)
      as (s4 & -> & Hpass) end.
  - unfold room in *. lia.
  - repeat constructor; try lia; unfold val in *; rewrite ?Hk3, ?Hk2 by lia; done.
  - rewrite Hth3, Hth2, Hth1, Hw3, Hw2, Hw1. exact Hrun.
  - simpl. by rewrite Hw3, Hw2, Hw1.
  - prints.
  - apply addr_first.
  - exists m, s4.
    apply bind_Ok in H0 as (x & Hx & H0). apply bind_Ok in H1 as (y & Hy & H1).
    rewrite exec_bind, Hx. cbn [lift exec]. rewrite exec_bind, H0. cbn [lift exec].
    rewrite exec_bind, Hy. cbn [lift exec]. rewrite exec_bind, H1. cbn [lift exec].
    rewrite Heu, Hru in *. split_and!; [done| |done|exact Hswap|exact Hkeep].
    change 4 with (1 + (1 + (1 + 1))). apply (passed_step known _ _ s s1); [done|done|done|].
    apply (passed_step known _ _ s1 s2); [done|done|done|]. by apply (passed_step known _ _ s2 s3).
Qed.

(** [cmpxchg_u64] is compare-and-swap. It returns the number at the address
    and whether it was the expected one; if it was, the replacement is stored
    there and no other byte changes, and if not, memory is unchanged; all in
    one thunk, so nothing can come between. *)
Theorem cmpxchg_u64_swaps {CV : ClassView} self (output c64 c1 : Class) (lo : Layout) (o0 o1 al al1 : Z)
    p e r success failure s :
  has_fields output lo [(c64, o0, MkLayout 64 al); (c1, o1, MkLayout 1 al1)] -> Layout.bits lo mod 8 = 0 ->
  idle known s -> room 4 s -> mem_ok (q_memory s) -> 0 <= p -> p + 8 < 2 ^ 64 ->
  0 <= e < 2 ^ 64 -> 0 <= r < 2 ^ 64 ->
  let cur := u64_at (q_memory s) p in
  exists s', exec known (cmpxchg_u64 self output (MkLayout 64 al) p e r success failure) s =
      Some (Ok ((cur, cur =? e), s')) /\
    idle known s' /\ mem_ok (q_memory s') /\
    (cur = e -> u64_at (q_memory s') p = r /\
       forall b, ~ p <= b < p + 8 -> byte_at (q_memory s') b = byte_at (q_memory s) b) /\
    (cur <> e -> q_memory s' = q_memory s).
Proof.
  intros Hout Hlo Hs Hr Hm Hp Hp8 He Hrr cur.
  destruct (cmpxchg_u64_runs self output c64 c1 lo o0 o1 al al1 p e r success failure s Hout Hlo Hs Hr Hm Hp Hp8 He Hrr)
    as (m & s' & Hx & Hpass & Hm' & Hswap & Hkeep).
  exists s'. rewrite (passed_mem _ _ _ _ _ Hpass). split_and!; [done|apply Hpass|done..].
Qed.
End Claims.

(** ** Concrete runs *)

Definition flow_start : Seq unit := MkSeq (df_new 0) (MkState ∅ (MkWorld sample_memory tt) []) 0.
Definition flow_self : FlowCtx := MkFlow 0 [].
Definition all_known (id : Z) : bool := true.

Lemma flow_start_idle : idle all_known flow_start.
Proof. split_and!; [done|done|simpl; lia]. Qed.

Lemma memcpy_correct_witness :
  exists s', exec all_known (memcpy flow_self 201 200 6) flow_start = Some (Ok (tt, s')) /\
    idle all_known s' /\ mem_ok (q_memory s') /\
    df_seq (q_df s') = df_seq (q_df flow_start) + 5 /\
    w_rest (world (q_state s')) = w_rest (world (q_state flow_start)) /\
    (forall b, byte_at (q_memory s') b =
      if (201 <=? b) && (b <? 201 + 6) then byte_at (q_memory flow_start) (200 + (b - 201))
      else byte_at (q_memory flow_start) b).
Proof.
  apply (memcpy_correct all_known flow_self 201 200 6 flow_start flow_start_idle); try lia.
  - vm_compute. reflexivity.
  - apply sample_memory_ok.
Defined.

Lemma string_roundtrip_witness :
  exists p s', exec all_known (let* p := string flow_self [104; 195; 169] in
      let* r := get_string 4 flow_self p in Ret (p, r)) flow_start = Some (Ok ((p, [104; 195; 169]), s')) /\
    idle all_known s' /\ next (q_memory flow_start) <= p /\
    (forall b, ~ p <= b < p + zlen [104; 195; 169] + 1 -> byte_at (q_memory s') b = byte_at (q_memory flow_start) b).
Proof.
  apply (string_roundtrip all_known flow_self 4 [104; 195; 169] flow_start flow_start_idle).
  - vm_compute. reflexivity.
  - apply sample_memory_ok.
  - vm_compute. discriminate.
  - repeat constructor; lia.
  - vm_compute. reflexivity.
  - apply (bool_decide_unpack _). vm_compute. exact I.
  - simpl. lia.
  - vm_compute. reflexivity.
  - vm_compute. reflexivity.
Defined.

Lemma realloc_keeps_witness :
  let n := 4 in
  exists p s', exec all_known (realloc flow_self 200 (MkLayout 32 32) (MkLayout 64 64)) flow_start = Some (Ok (p, s')) /\
    idle all_known s' /\ mem_ok (q_memory s') /\ next (q_memory flow_start) <= p /\ (64 / 8 | p) /\
    p + (64 + 7) / 8 + HEAP_GUARD = next (q_memory s') /\
    (forall i, 0 <= i < n -> byte_at (q_memory s') (p + i) = byte_at (q_memory flow_start) (200 + i)) /\
    (forall b, ~ p <= b < p + n -> byte_at (q_memory s') b = byte_at (q_memory flow_start) b).
Proof.
  apply (realloc_keeps all_known flow_self 200 (MkLayout 32 32) (MkLayout 64 64) flow_start flow_start_idle).
  - vm_compute. reflexivity.
  - apply sample_memory_ok.
  - vm_compute. discriminate.
  - lia.
  - split; [simpl; lia|]. split; [simpl; lia|]. by exists 6.
  - simpl. lia.
  - simpl. lia.
  - simpl. lia.
  - vm_compute. reflexivity.
  - vm_compute. reflexivity.
Defined.

(** The table after [types.struc(vec![types.int(64), types.bool()], false)],
    with the class forced, as its layout is asked for. *)
Definition cas_classes : res (Class * TypeMap) :=
  let '(c64, tm) := int 64 (typemap_new 64) in
  let '(c1, tm) := bool_class tm in
  let! (c, tm) := struc 3 [c64; c1] false tm in
  let! (_, tm) := class_layout 3 c tm in
  Ok (c, tm).
Definition cas_table : TypeMap := match cas_classes with Ok (_, tm) => tm | Panic _ => typemap_new 64 end.

Lemma cas_fields :
  has_fields (CV := view 3 cas_table) 2 (MkLayout 128 64) [(0, 0, MkLayout 64 64); (1, 64, MkLayout 1 8)].
Proof.
  constructor.
  - vm_compute. reflexivity.
  - simpl. lia.
  - intros [|[|i]] e o el H; try done; simpl in H; simplify_eq; vm_compute; done.
  - repeat constructor; simpl; lia.
  - repeat constructor; simpl; lia.
Qed.

Lemma cmpxchg_u64_swaps_witness :
  let cur := u64_at sample_memory 200 in
  exists s', exec all_known (cmpxchg_u64 (CV := view 3 cas_table) flow_self 2 (MkLayout 64 64) 200 cur 77 SeqCst Relaxed)
      flow_start = Some (Ok ((cur, cur =? cur), s')) /\
    idle all_known s' /\ mem_ok (q_memory s') /\
    (cur = cur -> u64_at (q_memory s') 200 = 77 /\
       forall b, ~ 200 <= b < 200 + 8 -> byte_at (q_memory s') b = byte_at (q_memory flow_start) b) /\
    (cur <> cur -> q_memory s' = q_memory flow_start).
Proof.
  intros cur.
  apply (cmpxchg_u64_swaps (CV := view 3 cas_table) all_known flow_self 2 0 1 (MkLayout 128 64) 0 64 64 8
    200 cur 77 SeqCst Relaxed flow_start cas_fields eq_refl flow_start_idle).
  - vm_compute. reflexivity.
  - apply sample_memory_ok.
  - lia.
  - vm_compute. reflexivity.
  - split; [vm_compute; discriminate|vm_compute; reflexivity].
  - lia.
Defined.
