(* ===== verification/Sequential.v ===== *)
(** * Sequential: decoding tasks against direct execution

    A decoding task does not compute: it makes thunks, hands them around and
    waits for the values it branches on. [Run] is the direct style, where every
    operation is performed on values at once. [runs] says that a task, run in
    program order ([Flow.exec]), does what a direct computation does; its rules
    follow the constructors of [Async] and the helpers of [FlowCtx]. *)

From S2P Require Import Prelude Text RangeMap MemOrdering Layout Bitvec Value Memory Symbols Classes Operation.
From S2P Require Import Data Local Pipeline Process Flow.

(** ** Direct computations *)

Section Run.
Context {X : Type}.

(** The process, and the number of thunks decoded so far ([DataFlowInner::seq]). *)
Definition DState : Type := World X * Z.

(** A result or a panic; [None] where the computation is stuck or out of fuel. *)
Definition Direct (A : Type) : Type := DState -> option (res (A * DState)).

Definition dret {A} (a : A) : Direct A := fun w => Some (Ok (a, w)).
Definition dlift {A} (r : res A) : Direct A :=
  fun w => match r with Ok a => Some (Ok (a, w)) | Panic e => Some (Panic e) end.
Definition dbind {A B} (m : Direct A) (f : A -> Direct B) : Direct B :=
  fun w => match m w with Some (Ok (a, w)) => f a w | Some (Panic e) => Some (Panic e) | None => None end.
Definition dstuck {A} : Direct A := fun _ => None.
(** The process changes. *)
Definition dact {A} (f : World X -> res (option (A * World X))) : Direct A :=
  fun '(w, n) => match f w with
                 | Ok (Some (a, w)) => Some (Ok (a, (w, n)))
                 | Ok None => None
                 | Panic e => Some (Panic e)
                 end.
(** A closure, run at once; thunks are counted, and their arguments and their
    value are printed. *)
Definition dcompute (c : Compute X) (th : Z) (args : list Value) : Direct Value :=
  fun '(w, n) => Some (
    let! n := add64 n 1 in
    let! _ := mapM Value.debug args in
    let! (v, w) := c th args w in
    let! _ := Value.debug v in
    Ok (v, (w, n))).
(** A thunk that does nothing but hold a value. *)
Definition dconstant (v : Value) : Direct Value := dcompute (fun _ _ w => Ok (v, w)) 0 [].

Fixpoint dmapM {A B} (f : A -> Direct B) (l : list A) : Direct (list B) :=
  match l with
  | [] => dret []
  | a :: l => dbind (f a) (fun b => dbind (dmapM f l) (fun bs => dret (b :: bs)))
  end.
End Run.
Arguments DState X : clear implicits.
Arguments Direct X A : clear implicits.

Notation "'run*' p := c 'in' k" := (dbind c (fun p => k))
  (at level 10, p pattern, c at level 100, k at level 200) : async_scope.
Notation "'run**' p := c 'in' k" := (dbind (dlift c) (fun p => k))
  (at level 10, p pattern, c at level 100, k at level 200) : async_scope.

(** ** Tasks that do what a direct computation does *)

Section Runs.
Context {X : Type} (known : Z -> bool).
Implicit Types (s : Seq X) (t : Z) (v : Value).

Definition dstate s : DState X := (world (q_state s), df_seq (q_df s)).

(** The thunk [t] has the value [v], and its thread can still be told so. *)
Definition live s t v : Prop :=
  exists i, heap (q_state s) !! t = Some i /\ t_value i = Ready v /\ known (t_thread i) = true /\ t < q_slot s.

(** Later in the same task: no value is lost. *)
Record later s s' : Prop := {
  later_idle : idle known s';
  later_thread : df_thread (q_df s') = df_thread (q_df s);
  later_live : forall t v, live s t v -> live s' t v
}.

(** From [s], the task [c] ends as [m] does, in the same process with as many
    thunks decoded, and with results related by [R]. *)
Definition runs {A B} (c : Async X A) (m : Direct X B) (R : A -> B -> Seq X -> Prop) s : Prop :=
  match m (dstate s) with
  | Some (Ok (b, d)) => exists a s', exec known c s = Some (Ok (a, s')) /\ later s s' /\ dstate s' = d /\ R a b s'
  | Some (Panic e) => exec known c s = Some (Panic e)
  | None => True
  end.

Lemma later_refl s : idle known s -> later s s.
Proof. by constructor. Qed.

Lemma later_trans s1 s2 s3 : later s1 s2 -> later s2 s3 -> later s1 s3.
Proof. intros [] []. constructor; [done|congruence|auto]. Qed.

Lemma later_lives s s' ts vs : later s s' -> Forall2 (live s) ts vs -> Forall2 (live s') ts vs.
Proof. intros Hl HF. eapply Forall2_impl; [exact HF|]. intros. by eapply later_live. Qed.

(** ** Rules *)

Lemma runs_ret {A B} (a : A) (b : B) (R : A -> B -> Seq X -> Prop) s : idle known s -> R a b s -> runs (Ret a) (dret b) R s.
Proof. intros Hs HR. exists a, s. split_and!; [done|by apply later_refl|done|done]. Qed.

Lemma runs_raise {A B} e (R : A -> B -> Seq X -> Prop) s : runs (Raise e) (dlift (Panic e)) R s.
Proof. done. Qed.

Lemma runs_lift {A} (r : res A) (R : A -> A -> Seq X -> Prop) s :
  idle known s -> (forall a, r = Ok a -> R a a s) -> runs (lift r) (dlift r) R s.
Proof. intros Hs HR. destruct r as [a|e]; [|done]. apply (runs_ret a a R); auto. Qed.

Lemma runs_bind {A B A' B'} (c : Async X A) (m : Direct X B) R (f : A -> Async X A') (g : B -> Direct X B') R' s :
  runs c m R s ->
  (forall a b s', later s s' -> R a b s' -> runs (f a) (g b) R' s') ->
  runs (abind c f) (dbind m g) R' s.
Proof.
  unfold runs, dbind. intros Hc Hf. rewrite exec_bind.
  destruct (m (dstate s)) as [[[b d]|e]|] eqn:Em; [|by rewrite Hc|done].
  destruct Hc as (a & s1 & -> & Hl & Hd & HR). specialize (Hf a b s1 Hl HR). rewrite Hd in Hf.
  destruct (g b d) as [[[b' d']|e]|]; [|done|done].
  destruct Hf as (a' & s2 & He2 & Hl2 & Hd2 & HR2). exists a', s2. split_and!; [done|by eapply later_trans|done|done].
Qed.

(** The direct computation may be written in another way. *)
Lemma runs_ext {A B} (c : Async X A) (m m' : Direct X B) R s :
  m (dstate s) = m' (dstate s) -> runs c m R s -> runs c m' R s.
Proof. unfold runs. by intros ->. Qed.

(** ... or bracketed in another way. *)
Lemma runs_assoc {A B C D} (c : Async X A) (m : Direct X B) (g : B -> Direct X C) (h : C -> Direct X D) R s :
  runs c (dbind m (fun x => dbind (g x) h)) R s -> runs c (dbind (dbind m g) h) R s.
Proof. apply runs_ext. unfold dbind. by destruct (m _) as [[[b d]|]|]. Qed.

Lemma runs_abind_assoc {A B C D} (c : Async X A) (f : A -> Async X B) (g : B -> Async X C) (m : Direct X D) R s :
  runs (abind c (fun x => abind (f x) g)) m R s -> runs (abind (abind c f) g) m R s.
Proof.
  assert (exec known (abind (abind c f) g) s = exec known (abind c (fun x => abind (f x) g)) s) as He.
  { rewrite !exec_bind. destruct (exec known c s) as [[[a s1]|]|]; [|done..]. by rewrite exec_bind. }
  unfold runs. by rewrite He.
Qed.

Lemma runs_tail {A} (r : res A) (R : A -> A -> Seq X -> Prop) s :
  idle known s -> (forall a, r = Ok a -> R a a s) -> runs (lift r) (dbind (dlift r) dret) R s.
Proof. intros Hs HR. apply (runs_ext _ (dlift r)); [by destruct r|]. by apply runs_lift. Qed.

Lemma runs_weaken {A B} (c : Async X A) (m : Direct X B) (R R' : A -> B -> Seq X -> Prop) s :
  runs c m R s -> (forall a b s', later s s' -> R a b s' -> R' a b s') -> runs c m R' s.
Proof.
  unfold runs. intros Hc HR. destruct (m (dstate s)) as [[[b d]|e]|]; [|done|done].
  destruct Hc as (a & s' & ? & ? & ? & ?). exists a, s'. split_and!; auto.
Qed.

Lemma live_val s t v : live s t v -> t <> q_slot s /\ val (q_state s) t = Some v.
Proof. intros (i & Hi & Hv & _ & Hlt). split; [lia|]. unfold val. by rewrite Hi, Hv. Qed.

Lemma mapM_debug args :
  mapM Value.debug args = (if forallb printable args then mapM Value.debug args else Panic AssertFailed) /\
  (forallb printable args = true -> exists l, mapM Value.debug args = Ok l).
Proof.
  induction args as [|v args IH]; [split; [done|by eexists]|]. cbn [mapM forallb].
  destruct (printable v) eqn:Hv; simpl.
  - destruct (debug_printable v Hv) as [x ->]. cbn [bind]. destruct (forallb printable args); [|by rewrite (proj1 IH)].
    destruct (proj2 IH eq_refl) as [l ->]. split; [done|]. by eexists.
  - by rewrite (debug_unprintable v Hv).
Qed.

(** What is printed of a new thunk whose dependencies have values, one of which
    cannot be printed. *)
Lemma declared_panic (st : State X) t i args :
  Forall2 (fun d v => d <> t /\ val st d = Some v) (t_deps i) args -> forallb printable args = false ->
  shown i = true -> declared (MkState (<[t := i]> (heap st)) (world st) (woken st)) i = Panic AssertFailed.
Proof.
  intros Hargs Hp Hi. unfold declared. destruct (inner_debug_shown i Hi) as [x ->]. cbn [bind].
  assert (mapM (thunk_debug (MkState (<[t := i]> (heap st)) (world st) (woken st))) (t_deps i) = Panic AssertFailed) as ->; [|done].
  clear Hi. induction Hargs as [|d v ds vs [Hne Hv] _ IH]; [done|]. cbn [mapM forallb] in *.
  unfold thunk_debug at 1, deref. simpl. rewrite lookup_insert_ne by done.
  unfold val in Hv. destruct (heap st !! d) as [j|]; [|done]. cbn [bind]. unfold inner_debug.
  destruct (t_value j); [done| |done]. injection Hv as ->.
  destruct (printable v) eqn:E; [|by rewrite (debug_unprintable v E)].
  destruct (debug_printable v E) as [y ->]. cbn [bind]. by rewrite IH.
Qed.

(** A thunk that cannot be counted or printed, or whose closure panics. *)
Lemma exec_decode_panic {A} b address o deps c (k : Z -> Async X A) s args e :
  idle known s -> Forall2 (live s) deps args -> addr_dep address deps ->
  dcompute c (df_thread (q_df s)) args (dstate s) = Some (Panic e) ->
  exec known (Decode b address o deps c k) s = Some (Panic e).
Proof.
  intros (Hts & Hk & Hseq) Hlive Haddr Hc. unfold dcompute, dstate in Hc. injection Hc as Hc.
  cbn [exec]. unfold exec_thunk, thunk_impl.
  rewrite Hk. unfold df_len. rewrite Hts. change (PIPELINE_SIZE <=? zlen (@nil Z)) with false. cbv iota.
  cbn [guard_ bind]. destruct (add64 (df_seq (q_df s)) 1) as [n|e']; cbn [bind] in Hc |- *; [|congruence].
  cbn [app]. set (i := MkThunk _ _ deps _ _ _ _ _ _).
  assert (Forall2 (fun d v => d <> q_slot s /\ val (q_state s) d = Some v) (t_deps i) args) as Hargs
    by (eapply Forall2_impl; [exact Hlive|by intros d v ?%live_val]).
  rewrite (proj1 (mapM_debug args)) in Hc. destruct (forallb printable args) eqn:Hp.
  2: { rewrite (declared_panic (q_state s) (q_slot s) i args Hargs Hp eq_refl). cbn [bind print]. cbn in Hc. congruence. }
  destruct (proj2 (mapM_debug args) Hp) as [l Hl]. rewrite Hl in Hc. cbn [bind] in Hc.
  destruct (declared_vals (q_state s) (q_slot s) i args Hargs Hp eq_refl Haddr) as [line ->]. cbn [bind print].
  unfold Data.step, deref. simpl. rewrite lookup_insert_eq. cbn [bind].
  match goal with |- context [get_args ?st ?d] => assert (get_args st d = Ok (Some args)) as -> end.
  { apply get_args_val. eapply Forall2_impl; [exact Hargs|]. intros d v [Hne Hd]. unfold val in *. simpl.
    by rewrite lookup_insert_ne. }
  cbn [bind i inner_debug t_value t_thread print]. destruct (c _ args _) as [[v w]|e'']; cbn [bind] in Hc |- *; [|congruence].
  destruct (printable v) eqn:Hv.
  - destruct (debug_printable v Hv) as [x Hx]. by rewrite Hx in Hc.
  - rewrite (debug_unprintable v Hv) in Hc. cbn [bind] in Hc.
    rewrite (inner_debug_not_shown (set_value (Ready v) i) Hv). cbn [print bind]. congruence.
Qed.

(** Decoding a thunk is running its closure. *)
Lemma runs_decode b address o deps c s args :
  idle known s -> Forall2 (live s) deps args -> addr_dep address deps ->
  runs (Decode b address o deps c Ret) (dcompute c (df_thread (q_df s)) args) (fun t v s' => live s' t v) s.
Proof.
  intros Hs Hargs Haddr. unfold runs.
  destruct (dcompute c (df_thread (q_df s)) args (dstate s)) as [[[v d]|e]|] eqn:Hc; [|by eapply exec_decode_panic|done].
  unfold dcompute, dstate in Hc. injection Hc as Hc.
  apply bind_Ok in Hc as (n & Hn & (l & Hl & ([v' w] & Hc & (x & Hx%debug_Ok & [= <- <-])%bind_Ok)%bind_Ok)%bind_Ok).
  apply chk_u_Ok in Hn as [-> Hn].
  assert (forallb printable args = true) as Hp.
  { destruct (forallb printable args) eqn:E; [done|]. rewrite (proj1 (mapM_debug args)), E in Hl. done. }
  destruct (exec_decode known b address o deps c Ret s args v' w Hs) as
    (s' & He & Hslot & Hs' & Hth & Hseq & Hw & Hv & (i & Hi & Hti) & Hkeep); [unfold room; lia| |done|by simpl; rewrite Hx|done|].
  { eapply Forall2_impl; [exact Hargs|]. intros. by apply live_val. }
  exists (q_slot s), s'. rewrite He. split_and!; [done| |by unfold dstate; rewrite Hw, Hseq|].
  - constructor; [done|done|]. intros t y (j & Hj & Hy & Hkj & Hlt). exists j.
    rewrite Hkeep by lia. split_and!; [done..|lia].
  - unfold val in Hv. rewrite Hi in Hv. exists i. destruct (t_value i) eqn:E; simplify_eq.
    split_and!; [done|done| |lia]. rewrite Hti. apply Hs.
Qed.

(** Waiting for a value that is there does nothing. *)
Lemma runs_awaited {A B} t v (f : Value -> Async X A) (m : Direct X B) R s :
  live s t v -> runs (f v) m R s -> runs (let* v := await t in f v) m R s.
Proof.
  intros (i & Hi & Hv & Hk & _) Hr. assert (exec known (let* v := await t in f v) s = exec known (f v) s) as He.
  { apply (exec_await known t f s i v); [done|done|]. unfold val. by rewrite Hi, Hv. }
  unfold runs in *. by rewrite He.
Qed.

Lemma runs_act f s : idle known s -> runs (Act f Ret) (dact f) (fun (a b : Z) _ => a = b) s.
Proof.
  intros Hs. unfold runs, dact, dstate. cbn [exec]. destruct (f (world (q_state s))) as [[[r w]|]|e]; [|done|done].
  exists r, (set_world w s). split_and!; [done| |done|done]. constructor; [done|done|]. intros t v Ht. exact Ht.
Qed.

Lemma runs_set_tracing b s : idle known s -> runs (SetTracing b (Ret tt)) (dret tt) (fun _ _ _ => True) s.
Proof.
  intros Hs. exists tt. eexists. split; [reflexivity|]. split_and!; [|done|done].
  constructor; [by destruct Hs as (? & ? & ?)|done|done].
Qed.

(** A loop: related inputs, related results. *)
Lemma runs_mapM {A A' B B'} (f : A -> Async X B) (g : A' -> Direct X B') (P : A -> A' -> Seq X -> Prop)
    (R : B -> B' -> Seq X -> Prop) l l' s :
  (forall s s' a a', later s s' -> P a a' s -> P a a' s') ->
  (forall s s' b b', later s s' -> R b b' s -> R b b' s') ->
  (forall s a a', idle known s -> P a a' s -> a ∈ l -> a' ∈ l' -> runs (f a) (g a') R s) ->
  idle known s -> Forall2 (fun a a' => P a a' s) l l' ->
  runs (amapM f l) (dmapM g l') (fun bs bs' s' => Forall2 (fun b b' => R b b' s') bs bs') s.
Proof.
  intros HP HR Hf Hs HF. revert s Hs HF. revert l' Hf. induction l as [|a l IH]; intros l' Hf s Hs HF.
  - apply Forall2_nil_inv_l in HF as ->. by apply runs_ret.
  - apply Forall2_cons_inv_l in HF as (a' & l1 & Ha & HF & ->). cbn [amapM dmapM].
    eapply runs_bind; [apply Hf; [done|done|by left..]|]. intros b b' s1 Hl Hb.
    eapply runs_bind.
    { apply (IH l1); [|apply Hl|].
      - intros s2 x x' Hs2 HPx Hx Hx'. apply Hf; [done|done|by right..].
      - eapply Forall2_impl; [exact HF|]. intros. by eapply HP. }
    intros bs bs' s2 Hl2 Hbs. apply runs_ret; [apply Hl2|]. constructor; [by eapply HR|done].
Qed.
End Runs.
