(* ===== verification/Native.v ===== *)
(** * Native: src/src/native/llvm.rs, src/src/native/libc.rs

    The functions a simulated program calls by name: the LLVM intrinsics and
    the part of the C library that works on memory. An intrinsic is a
    computation on values ([native_comp!]); a C function is a decoding task
    ([native_fn!], an [Async] of [Flow]). Arguments are converted as the types
    of the source's tuples say ([from_thunk]). *)

From S2P Require Import Prelude RangeMap MemOrdering Layout Bitvec Value Memory Symbols Classes Operation.
From S2P Require Import Data Local Pipeline Process Flow.

(** ** Arguments and results: src/src/native/mod.rs *)

(** The types with a [NativeInput] instance that needs a value. *)
Inductive ArgType := ABool | AU (w : Z) | AI (w : Z) | AAddr | AValue.

Definition arg_sem (t : ArgType) : Type :=
  match t with ABool => bool | AU _ | AI _ | AAddr => Z | AValue => Value end.

Definition from_thunk (t : ArgType) (v : Value) : res (arg_sem t) :=
  match t with
  | ABool => unwrap_bool v
  | AU w => unwrap_u w v
  | AI w => unwrap_i w v
  | AAddr => Ok (as_u64 v)
  | AValue => Ok v
  end.

(** A function of a tuple of these types ([NativeInputs] has the tuples of up to
    six), curried. *)
Fixpoint args_fn (ts : list ArgType) (R : Type) : Type :=
  match ts with [] => R | t :: ts => arg_sem t -> args_fn ts R end.

(** [NativeInputs::from_thunks] from component [i] on, and the call. *)
Fixpoint from_thunks {R} (i : Z) (ts : list ArgType) (vs : list Value) : args_fn ts R -> res R :=
  match ts return args_fn ts R -> res R with
  | [] => fun r => Ok r
  | t :: ts => fun f =>
      let! v := index vs i in
      let! a := from_thunk t v in
      from_thunks (i + 1) ts vs (f a)
  end.

(** A function on values whose arguments are such a tuple. *)
Definition native (ts : list ArgType) (f : args_fn ts (res Value)) (vs : list Value) : res Value :=
  let! r := from_thunks 0 ts vs f in r.

(** ** LLVM intrinsics *)

Inductive ArithOp := OpAdd | OpMul | OpSub.

Definition arith (op : ArithOp) (x y : Z) : Z :=
  match op with OpAdd => x + y | OpMul => x * y | OpSub => x - y end.

(** The Rust integer types [u8] .. [u128], [i8] .. [i128]. *)
Definition int_arg (signed : bool) (w : Z) : ArgType := if signed then AI w else AU w.
Definition in_int (signed : bool) (w z : Z) : bool := if signed then in_s w z else in_u w z.
(** [wrapping_add] and its siblings; [checked_add] fails outside the type. *)
Definition wrap_int (signed : bool) (w z : Z) : Z := if signed then to_signed w z else wrap w z.
Definition int_min (signed : bool) (w : Z) : Z := if signed then - 2 ^ (w - 1) else 0.
Definition int_max (signed : bool) (w : Z) : Z := if signed then 2 ^ (w - 1) - 1 else 2 ^ w - 1.

(** The two integer arguments of a macro's function. *)
Definition int_args (signed : bool) (w : Z) (ts : list Value) : res (Z * Z) :=
  let get v := if signed then unwrap_i w v else unwrap_u w v in
  let! a := index ts 0 in let! x := get a in
  let! b := index ts 1 in let! y := get b in
  Ok (x, y).

Section Llvm.
Context {BV : Bitvec}.

Section Class.
Context {CV : ClassView}.

(** [overflow_binop!]; [class] is [TypeMap::struc] of the integer and bool. *)
Definition overflow_binop (op : ArithOp) (signed : bool) (w : Z) (class : Class) (ts : list Value) : res Value :=
  let! (x, y) := int_args signed w ts in
  let! v1 := from_int w (wrap_int signed w (arith op x y)) in
  let! v2 := from_bool (negb (in_int signed w (arith op x y))) in
  aggregate class [v1; v2].
End Class.

(** [sat_binop!] with [saturating_sub] *)
Definition sat_binop (signed : bool) (w : Z) (ts : list Value) : res Value :=
  let! (x, y) := int_args signed w ts in
  from_int w (Z.max (int_min signed w) (Z.min (int_max signed w) (x - y))).

(** [leading_zeros], [trailing_zeros], [count_ones] of a [w]-bit integer. *)
Definition leading_zeros (w x : Z) : Z := if x =? 0 then w else w - 1 - Z.log2 x.
Definition trailing_zeros (w x : Z) : Z :=
  foldr (fun i r => if Z.testbit x (Z.of_nat i) then Z.of_nat i else r) w (seq 0 (Z.to_nat w)).
Definition count_ones (w x : Z) : Z :=
  foldr (fun i r => Z.b2z (Z.testbit x (Z.of_nat i)) + r) 0 (seq 0 (Z.to_nat w)).

(** [unop!] *)
Definition unop (method : Z -> Z -> Z) (w : Z) : list Value -> res Value :=
  native [AU w] (fun x => from_int w (wrap w (method w x))).

Definition llvm_expect_i1 : list Value -> res Value := native [AValue; AValue] (fun arg _ => Ok arg).
Definition llvm_ctpop_i64 : list Value -> res Value := native [AU 64] (fun x => from_int 64 (count_ones 64 x)).
Definition llvm_assume : list Value -> res Value :=
  native [ABool] (fun arg => assert! arg or AssertFailed in from_unit).
Definition llvm_trap (ts : list Value) : res Value := Panic Explicit.

(** [((((a as u128) << 64 | (b as u128)) << (s as u128)) >> 64) as u64] *)
Definition fshl (a b s : Z) : res Z :=
  assert! s <? 128 or Overflow in
  Ok (wrap 64 (Z.shiftr (wrap 128 (Z.shiftl (Z.lor (Z.shiftl a 64) b) s)) 64)).
Definition llvm_fshl_i64 : list Value -> res Value :=
  native [AU 64; AU 64; AU 64] (fun a b s => let! r := fshl a b s in from_int 64 r).
End Llvm.

(** ** Memory intrinsics and the C library *)

Section Libc.
Context {BV : Bitvec} {X : Type}.
Implicit Types (flow : FlowCtx).

Definition llvm_memcpy flow (dst src cnt : Z) (volatile : bool) : Async X unit := memcpy flow dst src cnt.
Definition llvm_memmove flow (dst src cnt : Z) : Async X unit := memcpy flow dst src cnt.
Definition llvm_memset flow (addr val len : Z) (volatile : bool) : Async X unit :=
  let** v := from_bytes_exact (replicate (Z.to_nat len) val) in
  store flow addr v.

Definition signal (sig handler : Z) : Z := 0.
Definition mmap flow (addr length prot flags fd offset : Z) : Async X Z := Ret addr.
Definition mprotect flow (addr length prot : Z) : Async X Z := Ret 0.
Definition sigaction (signum act oldact : Z) : Z := 0.
Definition sigaltstack (ss old_ss : Z) : Z := 0.
Definition dladdr (addr info : Z) : Z := 1.
Definition strerror_r flow (errno buf len : Z) : Async X Z := Ret (-1).

(** The loop of [memchr]: [n] bytes are left. *)
Fixpoint memchr_from (n : nat) flow (ptr value i : Z) : Async X Z :=
  match n with
  | O => Ret 0
  | S n =>
      let** p := add64 ptr i in
      let** layout := Layout.from_bytes 1 1 in
      let* v := load flow p layout in
      let** c := unwrap_u 8 v in
      if c =? value then Ret p else memchr_from n flow ptr value (i + 1)
  end.
Definition memchr flow (ptr value num : Z) : Async X Z := memchr_from (Z.to_nat num) flow ptr value 0.

Definition strlen (fuel : nat) flow (str : Z) : Async X Z := Flow.strlen fuel flow str.

(** The loop of [memcmp]. *)
Fixpoint memcmp_from (n : nat) flow (ptr1 ptr2 i : Z) : Async X Z :=
  match n with
  | O => Ret 0
  | S n =>
      let** p1 := add64 ptr1 i in
      let** p2 := add64 ptr2 i in
      let** l := Layout.from_bytes 1 1 in
      let* v1 := load flow p1 l in
      let* v2 := load flow p2 l in
      let** c1 := unwrap_u 8 v1 in
      let** c2 := unwrap_u 8 v2 in
      match c1 ?= c2 with
      | Lt => Ret (-1)
      | Eq => memcmp_from n flow ptr1 ptr2 (i + 1)
      | Gt => Ret 1
      end
  end.
Definition memcmp flow (ptr1 ptr2 num : Z) : Async X Z := memcmp_from (Z.to_nat num) flow ptr1 ptr2 0.

(** "RUST_BACKTRACE" and "full" as bytes. *)
Definition RUST_BACKTRACE : list Z := [82; 85; 83; 84; 95; 66; 65; 67; 75; 84; 82; 65; 67; 69].
Definition full : list Z := [102; 117; 108; 108].

Definition getenv (fuel : nat) flow (name : Z) : Async X Z :=
  let* name := get_string fuel flow name in
  if bool_decide (name = RUST_BACKTRACE) then string flow full else Ret 0.

Definition getcwd flow (buf size : Z) : Async X Z :=
  if negb (buf =? 0) then
    if negb (size =? 0) then
      let** v := from_int 8 0 in
      let* _ := store flow buf v in
      Ret buf
    else Ret buf
  else
    let** layout := Layout.of_int 8 in
    let* res := alloc flow layout in
    let** v := from_int 8 0 in
    let* _ := store flow res v in
    Ret res.

Definition getentropy flow (buf len : Z) : Async X Z :=
  let** data := from_bytes_exact (replicate (Z.to_nat len) 4) in
  let* _ := store flow buf data in
  Ret 0.
End Libc.

(** ** What the intrinsics compute *)

Lemma wrap_int_small signed w z : 0 < w -> in_int signed w z = true -> wrap_int signed w z = z.
Proof.
  intros Hw. destruct signed; simpl; unfold in_s, in_u; intros H; zb.
  - apply to_signed_small; lia.
  - apply wrap_small. lia.
Qed.

Section Claims.
Context {BV : Bitvec} {BVL : BitvecLaws}.

Definition unwrap_int_arg (signed : bool) (w : Z) (v : Value) : res Z :=
  if signed then unwrap_i w v else unwrap_u w v.

Lemma from_int_unwrap signed w z :
  0 < w <= 128 -> exists v, from_int w (wrap_int signed w z) = Ok v /\ canonical v /\ bits v = w /\
    unwrap_int_arg signed w v = Ok (wrap_int signed w z).
Proof.
  intros Hw. destruct (from_int_spec w (wrap_int signed w z)) as (v & Hv & Hc & Hb & Hu); [lia|].
  exists v. split_and!; [done..|]. unfold unwrap_int_arg, unwrap_i, unwrap_u, unwrap_int.
  rewrite Hb, Z.eqb_refl. cbn [guard_ bind]. rewrite Hu. destruct signed; simpl; f_equal.
  - pose proof (to_signed_bounds w z ltac:(lia)) as Hb'. transitivity (to_signed w (to_signed w z)).
    + unfold to_signed at 1. unfold to_signed at 2. by rewrite !wrap_wrap by lia.
    + by apply to_signed_small; [lia|].
  - by rewrite !wrap_wrap by lia.
Qed.

(** The [with.overflow] intrinsics. Whatever the arguments, the call
    succeeds; the first part of the pair is the result modulo [2^w], read in
    the type of the arguments, the second tells whether the exact result is
    outside the type; when it is not, the first part is the exact result. *)
Theorem overflow_binop_correct {CV : ClassView} (op : ArithOp) (signed : bool) (w : Z) (class ci cb : Class)
    (l : Layout) (o0 o1 a0 a1 x y : Z) (ts : list Value) :
  0 < w <= 128 -> has_fields class l [(ci, o0, MkLayout w a0); (cb, o1, MkLayout 1 a1)] ->
  int_args signed w ts = Ok (x, y) ->
  exists r, overflow_binop op signed w class ts = Ok r /\ Value.wf r /\
    (let! v := extract r class 0 in unwrap_int_arg signed w v) = Ok (wrap_int signed w (arith op x y)) /\
    (let! v := extract r class 1 in unwrap_bool v) = Ok (negb (in_int signed w (arith op x y))) /\
    (in_int signed w (arith op x y) = true -> wrap_int signed w (arith op x y) = arith op x y).
Proof.
  intros Hw Hf Hargs. unfold overflow_binop. rewrite Hargs. cbn [bind].
  destruct (from_int_unwrap signed w (arith op x y) Hw) as (v1 & Hv1 & Hc1 & Hb1 & Hu1). rewrite Hv1. cbn [bind].
  destruct (from_bool_spec (negb (in_int signed w (arith op x y)))) as (v2 & Hv2 & Hc2 & Hb2 & Hu2).
  rewrite Hv2. cbn [bind].
  destruct (aggregate_fields class l _ [v1; v2] Hf) as (r & Hr & Hwf & _ & Hex).
  { constructor; [by split|]. constructor; [by split|constructor]. }
  exists r. pose proof (Hex 0%nat v1 eq_refl) as H0. pose proof (Hex 1%nat v2 eq_refl) as H1.
  change (Z.of_nat 0) with 0 in H0. change (Z.of_nat 1) with 1 in H1.
  split_and!; [exact Hr|done|by rewrite H0|by rewrite H1|apply wrap_int_small; lia].
Qed.

Lemma fshl_small a b s : 0 <= a < 2 ^ 64 -> 0 <= b < 2 ^ 64 -> 0 <= s < 64 ->
  fshl a b s = Ok ((a * 2 ^ s + b / 2 ^ (64 - s)) mod 2 ^ 64).
Proof.
  intros Ha Hb Hs. unfold fshl. rewrite (proj2 (Z.ltb_lt s 128)) by lia. cbn [guard_ bind]. f_equal.
  assert (Z.lor (Z.shiftl a 64) b = a * 2 ^ 64 + b) as ->.
  { rewrite Z.shiftl_mul_pow2 by lia. assert (Z.land (a * 2 ^ 64) b = 0) as Hl.
    { apply Z.bits_inj'. intros i Hi. rewrite Z.land_spec, Z.bits_0. destruct (Z.ltb_spec i 64).
      - by rewrite Z.mul_pow2_bits_low by lia.
      - rewrite <- (Z.mod_small b (2 ^ 64)), Z.mod_pow2_bits_high, andb_false_r by lia. done. }
    by rewrite Z.add_nocarry_lxor, Z.lxor_lor by done. }
  rewrite Z.shiftl_mul_pow2, Z.shiftr_div_pow2 by lia. unfold wrap.
  replace (2 ^ 128) with (2 ^ 64 * 2 ^ 64) by lia. rewrite Z.rem_mul_r by lia.
  rewrite (Z.mul_comm (2 ^ 64)), Z.div_add, (Z.div_small (_ mod 2 ^ 64)), Z.add_0_l by (lia || (apply Z.mod_pos_bound; lia)).
  rewrite Z.mod_mod by lia. f_equal.
  assert (2 ^ 64 = 2 ^ s * 2 ^ (64 - s)) as E by (rewrite <- Z.pow_add_r by lia; f_equal; lia).
  assert (0 < 2 ^ s /\ 0 < 2 ^ (64 - s)) as [H1 H2] by (split; apply Z.pow_pos_nonneg; lia).
  replace ((a * 2 ^ 64 + b) * 2 ^ s) with (b * 2 ^ s + (a * 2 ^ s) * 2 ^ 64) by ring.
  rewrite Z.div_add by lia. rewrite Z.add_comm. f_equal.
  rewrite E at 1. rewrite Z.mul_comm at 1. by rewrite Z.div_mul_cancel_l by lia.
Qed.

(** [llvm.fshl.i64] returns the upper word of the two words shifted left when
    the shift is less than 64. LLVM takes the shift modulo 64; the source does
    not: from 64 on it keeps shifting, so that a shift by 64 returns the
    second word in place of the first, and from 128 on it panics. *)
Theorem fshl_correct_below_width (a b s : Z) :
  0 <= a < 2 ^ 64 -> 0 <= b < 2 ^ 64 -> 0 <= s ->
  (s < 64 -> fshl a b s = Ok ((a * 2 ^ s + b / 2 ^ (64 - s)) mod 2 ^ 64)) /\
  (s = 64 -> fshl a b s = Ok b) /\ (128 <= s -> fshl a b s = Panic Overflow).
Proof.
  intros Ha Hb Hs. split_and!.
  - intros. by apply fshl_small.
  - intros ->. unfold fshl. change (64 <? 128) with true. cbn [guard_ bind]. f_equal. unfold wrap.
    rewrite Z.shiftr_div_pow2, Z.shiftl_mul_pow2 by lia.
    replace (2 ^ 128) with (2 ^ 64 * 2 ^ 64) by lia. rewrite Z.mul_mod_distr_r by lia.
    rewrite Z.div_mul, Z.mod_mod by lia. rewrite <- Z.land_ones, Z.land_lor_distr_l, !Z.land_ones by lia.
    rewrite (Z.mod_small b) by lia. rewrite Z.shiftl_mul_pow2, Z.mod_mul by lia. apply Z.lor_0_l.
  - intros Hge. unfold fshl. by rewrite (proj2 (Z.ltb_ge s 128)) by lia.
Qed.

(** ** The C library on memory *)

Section Libc.
Context {X : Type} (known : Z -> bool).
Implicit Types (s : Seq X) (flow : FlowCtx).

(** How two blocks compare: the sign of the first difference. *)
Definition compares (f g : Z -> Z) (i n r : Z) : Prop :=
  (r = 0 /\ forall j, i <= j < n -> f j = g j) \/
  (exists k, i <= k < n /\ (forall j, i <= j < k -> f j = g j) /\ ((r = -1 /\ f k < g k) \/ (r = 1 /\ f k > g k))).

Lemma compares_next f g i n r : i < n -> f i = g i -> compares f g (i + 1) n r -> compares f g i n r.
Proof.
  intros Hi Heq [[-> H]|(k & Hk & H & Hr)].
  - left. split; [done|]. intros j Hj. destruct (decide (j = i)) as [->|]; [done|]. apply H. lia.
  - right. exists k. split; [lia|]. split; [|done]. intros j Hj.
    destruct (decide (j = i)) as [->|]; [done|]. apply H. lia.
Qed.

Lemma memcmp_runs n flow p1 p2 i s :
  0 <= p1 -> 0 <= p2 -> 0 <= i -> p1 + (i + Z.of_nat n) < 2 ^ 64 -> p2 + (i + Z.of_nat n) < 2 ^ 64 ->
  idle known s -> room (4 * Z.of_nat n) s -> mem_ok (q_memory s) ->
  exists r s', exec known (memcmp_from n flow p1 p2 i) s = Some (Ok (r, s')) /\ idle known s' /\
    q_memory s' = q_memory s /\
    compares (fun j => byte_at (q_memory s) (p1 + j)) (fun j => byte_at (q_memory s) (p2 + j)) i (i + Z.of_nat n) r.
Proof.
  revert i s. induction n as [|n IH]; intros i s Hp1 Hp2 Hi H1 H2 Hs Hr Hm.
  { exists 0, s. cbn [memcmp_from exec]. split_and!; [done..|]. left. split; [done|]. lia. }
  cbn [memcmp_from]. rewrite exec_bind, add64_ok by lia. cbn [lift exec].
  rewrite exec_bind, add64_ok by lia. cbn [lift exec].
  change (Layout.from_bytes 1 1) with (Ok (MkLayout 8 8)). rewrite exec_bind. cbn [lift exec]. rewrite exec_bind.
  destruct (load_byte_runs known flow (p1 + i) s Hs) as (s1 & -> & Hs1 & Hby1); [unfold room in *; lia|done|lia|lia|].
  rewrite exec_bind.
  destruct (load_byte_runs known flow (p2 + i) s1) as (s2 & -> & Hs2 & Hby2);
    [apply Hs1|unfold room in *; rewrite (passed_seq _ _ _ _ _ Hs1); lia|by rewrite (passed_mem _ _ _ _ _ Hs1)|lia|lia|].
  rewrite (passed_mem _ _ _ _ _ Hs1) in *.
  rewrite exec_bind, unwrap_u8_byte by done. cbn [lift exec].
  rewrite exec_bind, unwrap_u8_byte by done. cbn [lift exec].
  destruct (Z.compare_spec (byte_at (q_memory s) (p1 + i)) (byte_at (q_memory s) (p2 + i))) as [E|E|E].
  - destruct (IH (i + 1) s2) as (r & s3 & He & Hs3 & Hm3 & Hc); try lia.
    + apply Hs2.
    + unfold room in *. rewrite (passed_seq _ _ _ _ _ Hs2), (passed_seq _ _ _ _ _ Hs1). lia.
    + by rewrite (passed_mem _ _ _ _ _ Hs2).
    + exists r, s3. rewrite Hm3. rewrite (passed_mem _ _ _ _ _ Hs2) in *. split_and!; [done..|].
      apply compares_next; [lia|done|]. by replace (i + Z.of_nat (S n)) with (i + 1 + Z.of_nat n) by lia.
  - exists (-1), s2. cbn [exec]. split_and!; [done|apply Hs2|apply Hs2|]. right. exists i.
    split; [lia|]. split; [lia|]. by left.
  - exists 1, s2. cbn [exec]. split_and!; [done|apply Hs2|apply Hs2|]. right. exists i.
    split; [lia|]. split; [lia|]. right. split; [done|lia].
Qed.

(** [memcmp] returns 0 if the blocks are equal and otherwise -1 or 1 as the
    first differing byte of the first block is the smaller or the greater one
    as an unsigned byte. It reads only, stops at the first difference, and
    always finishes. *)
Theorem memcmp_compares flow p1 p2 num s :
  0 <= p1 -> 0 <= p2 -> 0 <= num -> p1 + num < 2 ^ 64 -> p2 + num < 2 ^ 64 ->
  idle known s -> room (4 * num) s -> mem_ok (q_memory s) ->
  exists r s', exec known (memcmp flow p1 p2 num) s = Some (Ok (r, s')) /\ idle known s' /\
    q_memory s' = q_memory s /\
    compares (fun j => byte_at (q_memory s) (p1 + j)) (fun j => byte_at (q_memory s) (p2 + j)) 0 num r.
Proof.
  intros H1 H2 Hn H3 H4 Hs Hr Hm. unfold memcmp.
  destruct (memcmp_runs (Z.to_nat num) flow p1 p2 0 s) as (r & s' & H);
    rewrite ?Z.add_0_l, ?Z2Nat.id by lia; try done.
  exists r, s'. by rewrite Z.add_0_l, Z2Nat.id in H by lia.
Qed.
End Libc.
End Claims.

(** ** Concrete runs *)

Lemma overflow_binop_correct_witness :
  exists r, overflow_binop (CV := view 3 cas_table) OpMul true 64 2
      [int_value 64 (2 ^ 62); int_value 64 (-2)] = Ok r /\ Value.wf r /\
    (let! v := extract (CV := view 3 cas_table) r 2 0 in unwrap_int_arg true 64 v) =
      Ok (wrap_int true 64 (arith OpMul (2 ^ 62) (-2))) /\
    (let! v := extract (CV := view 3 cas_table) r 2 1 in unwrap_bool v) =
      Ok (negb (in_int true 64 (arith OpMul (2 ^ 62) (-2)))) /\
    (in_int true 64 (arith OpMul (2 ^ 62) (-2)) = true ->
       wrap_int true 64 (arith OpMul (2 ^ 62) (-2)) = arith OpMul (2 ^ 62) (-2)).
Proof.
  apply (overflow_binop_correct (CV := view 3 cas_table) OpMul true 64 2 0 1 (MkLayout 128 64) 0 64 64 8
    (2 ^ 62) (-2) [int_value 64 (2 ^ 62); int_value 64 (-2)]).
  - lia.
  - exact cas_fields.
  - vm_compute. reflexivity.
Defined.

Lemma fshl_correct_below_width_witness :
  (4 < 64 -> fshl 1 (2 ^ 63) 4 = Ok ((1 * 2 ^ 4 + 2 ^ 63 / 2 ^ (64 - 4)) mod 2 ^ 64)) /\
  (4 = 64 -> fshl 1 (2 ^ 63) 4 = Ok (2 ^ 63)) /\ (128 <= 4 -> fshl 1 (2 ^ 63) 4 = Panic Overflow).
Proof. apply (fshl_correct_below_width 1 (2 ^ 63) 4); lia. Defined.

Lemma memcmp_compares_witness :
  exists r s', exec all_known (memcmp flow_self 200 202 2) flow_start = Some (Ok (r, s')) /\ idle all_known s' /\
    q_memory s' = q_memory flow_start /\
    compares (fun j => byte_at (q_memory flow_start) (200 + j)) (fun j => byte_at (q_memory flow_start) (202 + j)) 0 2 r.
Proof.
  apply (memcmp_compares all_known flow_self 200 202 2 flow_start); try lia.
  - apply flow_start_idle.
  - vm_compute. reflexivity.
  - apply sample_memory_ok.
Defined.
