(* ===== verification/Expr.v ===== *)
(** * Expr: src/src/compile/expr.rs, and [FlowCtx::evaluate]

    Constants of the program are compiled to expressions ([CExpr]) in which
    everything that does not depend on the address of a thread-local variable
    has been folded, and are evaluated by the thread that uses them. [denote]
    evaluates a constant directly, in one pass; compiling and then evaluating is
    shown to agree with it, and a constant without thread-locals is shown to
    fold completely, which src/src/compile/module.rs relies on. *)

From S2P Require Import Prelude RangeMap MemOrdering Layout Bitvec Value Memory Symbols Classes Operation.
From S2P Require Import Data Local Pipeline Process Flow.

(** ** The type map as its clients see it

    [TypeMap] hands out one class per type and computes it when first needed;
    to the compiler and the interpreter it is a function of types and classes. *)

Class TypeMapView := {
  tv_classes :: ClassView;
  tv_get : Typ -> res Class;
  tv_ptr : Class -> res Class;
  tv_struc : list Class -> bool -> res Class;
  tv_array : Class -> Z -> res Class;
  tv_vector : Class -> Z -> res Class;
  tv_named_struct : String.string -> res Class;
  tv_operation : COperationName -> list Class -> res COperation
}.

(** A table that holds every type that is asked for, so that no query changes
    which classes there are. llvm-ir's [Types::named_struct] is the parameter. *)
Definition type_view (fuel : nat) (named : String.string -> option Typ) (tm : TypeMap) : TypeMapView :=
  let known (t : Typ) : res Class := unwrap (assoc t (table tm)) in
  {| tv_classes := view fuel tm;
     tv_get := known;
     tv_ptr c := let! (t, _) := class_typ fuel c tm in known (PointerType t);
     tv_struc cs packed := let! (ts, _) := class_typs fuel cs tm in known (StructType ts packed);
     tv_array c n := let! (t, _) := class_typ fuel c tm in known (ArrayType t n);
     tv_vector c n := let! (t, _) := class_typ fuel c tm in known (VectorType t n);
     tv_named_struct name := let! t := unwrap (named name) in known t;
     tv_operation name cs := let! (o, _) := compile_operation fuel name cs tm in Ok o |}.

(** ** Constants: the part of llvm_ir's [Constant] the source matches on *)

(** [Name] *)
Inductive Name := NameName (name : String.string) | NameNumber (n : Z).

#[export] Instance Name_eq_dec : EqDecision Name.
Proof. solve_decision. Defined.
#[export] Instance Name_countable : Countable Name.
Proof.
  apply (inj_countable'
    (fun x => match x with NameName s => inl s | NameNumber n => inr n end)
    (fun x => match x with inl s => NameName s | inr n => NameNumber n end)).
  by intros [].
Defined.

(** The conversions and the binary operations, which constants and instructions
    have in common. *)
Inductive CastOp :=
  | CastTrunc | CastZExt | CastSExt | CastFPTrunc | CastFPExt | CastFPToUI | CastFPToSI
  | CastUIToFP | CastSIToFP | CastPtrToInt | CastIntToPtr | CastAddrSpaceCast | CastBitCast.

Inductive BinOp :=
  | BinAdd | BinSub | BinMul | BinUDiv | BinSDiv | BinURem | BinSRem | BinAnd | BinOr | BinXor
  | BinShl | BinLShr | BinAShr | BinFAdd | BinFSub | BinFMul | BinFDiv | BinFRem.

(** [Float]; a number is its bits. *)
Inductive Float :=
  | FloatHalf | FloatSingle (bits : Z) | FloatDouble (bits : Z) | FloatQuadruple | FloatX86_FP80
  | FloatPPC_FP128.

(** [OtherConstant] is any of the constants that are [todo!()]. *)
Inductive Constant :=
  | ConstInt (bits value : Z)
  | ConstCast (op : CastOp) (operand : Constant) (to_type : Typ)
  | ConstGlobalReference (name : Name) (ty : Typ)
  | ConstUndef (typ : Typ)
  | ConstNull (typ : Typ)
  | ConstAggregateZero (typ : Typ)
  | ConstStruct (name : option String.string) (values : list Constant) (is_packed : bool)
  | ConstArray (element_type : Typ) (elements : list Constant)
  | ConstVector (elements : list Constant)
  | ConstGetElementPtr (address : Constant) (indices : list Constant)
  | ConstSelect (condition true_value false_value : Constant)
  | ConstFloat (f : Float)
  | ConstBinOp (op : BinOp) (operand0 operand1 : Constant)
  | ConstICmp (predicate : IntPredicate) (operand0 operand1 : Constant)
  | ConstFCmp (predicate : FPPredicate) (operand0 operand1 : Constant)
  | OtherConstant.

(** ** [CExpr] *)

Inductive CExpr :=
  | EConst (class : Class) (value : Value)
  | EThreadLocal (class : Class) (key : Z)
  | EApply (oper : COperation) (args : list CExpr).

(** [CExpr::class] *)
Definition expr_class (self : CExpr) : Class :=
  match self with
  | EConst c _ | EThreadLocal c _ => c
  | EApply oper _ => output oper
  end.

Definition as_const (self : CExpr) : option (Class * Value) :=
  match self with EConst c v => Some (c, v) | _ => None end.

(** [collect::<Option<Vec<_>>>()] of [as_const] over the arguments. *)
Fixpoint all_const (args : list CExpr) : option (list Value) :=
  match args with
  | [] => Some []
  | a :: args =>
      match as_const a, all_const args with
      | Some (_, v), Some vs => Some (v :: vs)
      | _, _ => None
      end
  end.

(** [ExprCompiler::compile_cast] *)
Definition compile_cast (op : CastOp) (target : Class) : COperationName :=
  match op with
  | CastTrunc => Trunc target
  | CastZExt => ZExt target
  | CastSExt => SExt target
  | CastFPTrunc => FPTrunc target
  | CastFPExt => FPExt target
  | CastFPToUI => FPToUI target
  | CastFPToSI => FPToSI target
  | CastUIToFP => UIToFP target
  | CastSIToFP => SIToFP target
  | CastPtrToInt => ZExt target
  | CastIntToPtr => ZExt target
  | CastAddrSpaceCast => ZExt target
  | CastBitCast => BitCast target
  end.

(** [ExprCompiler::compile_binop] *)
Definition compile_binop (op : BinOp) : COperationName :=
  match op with
  | BinAdd => Add | BinSub => Sub | BinMul => Mul | BinUDiv => UDiv | BinSDiv => SDiv
  | BinURem => URem | BinSRem => SRem | BinAnd => And | BinOr => Or | BinXor => Xor
  | BinShl => Shl | BinLShr => LShr | BinAShr => AShr | BinFAdd => FAdd | BinFSub => FSub
  | BinFMul => FMul | BinFDiv => FDiv | BinFRem => FRem
  end.

(** The casts of constants that are compiled; the others are [todo!()]. *)
Definition const_cast (op : CastOp) : bool :=
  match op with
  | CastBitCast | CastIntToPtr | CastTrunc | CastSExt | CastZExt | CastPtrToInt => true
  | _ => false
  end.

(** ** [ExprCompiler] *)

Section Compile.
Context {BV : Bitvec} {TV : TypeMapView}.
(** The module, and the symbols of the process. *)
Context (moduleid : Z) (symbols : SymbolTable).

(** [CExpr::reduce_root] *)
Definition reduce_root (self : CExpr) : res CExpr :=
  match self with
  | EApply oper args =>
      match all_const args with
      | Some vs => let! value := call_operation oper vs in Ok (EConst (output oper) value)
      | None => Ok self
      end
  | _ => Ok self
  end.

(** [ExprCompiler::apply] *)
Definition apply_ (oper : COperationName) (args : list CExpr) : res CExpr :=
  let! o := tv_operation oper (expr_class <$> args) in Ok (EApply o args).

(** A constant of a type with all bits 0. *)
Definition zero_const (typ : Typ) : res CExpr :=
  let! c := tv_get typ in
  let! l := cv_layout c in
  let! v := Value.zero (Layout.bits l) in
  Ok (EConst c v).

Definition float_const (f : Float) : res CExpr :=
  match f with
  | FloatSingle b =>
      let! c := tv_get (FPTypeT Single) in let! v := from_int 32 b in Ok (EConst c v)
  | FloatDouble b =>
      let! c := tv_get (FPTypeT Double) in let! v := from_int 64 b in Ok (EConst c v)
  | FloatHalf | FloatQuadruple | FloatX86_FP80 | FloatPPC_FP128 => Panic Todo
  end.

Definition global_const (name : Name) (ty : Typ) : res CExpr :=
  let! name := match name with NameName name => Ok name | NameNumber _ => Panic Explicit end in
  let! def := lookup (Some moduleid) name symbols in
  let! c := tv_get ty in
  let! c := tv_ptr c in
  match def with
  | Global g => let! v := addr g in Ok (EConst c v)
  | ThreadLocal key => Ok (EThreadLocal c key)
  end.

(** The index a [getelementptr] is compiled with: -1 where it is not known. *)
Definition const_index (c : CExpr) : res Z :=
  match as_const c with Some (_, v) => as_i64 v | None => Ok (-1) end.

Definition gep_expr (args : list CExpr) : res CExpr :=
  let! a0 := index args 0 in
  let! is_ := mapM const_index (tail args) in
  let! element := element_at (expr_class a0) 0 is_ in
  assert! Z.rem (bit_offset element) 8 =? 0 or AssertFailed in
  let! c := tv_ptr (e_class element) in
  Ok (EApply (MkOp GetElementPtr (expr_class <$> args) c) args).

(** [compile_const_impl]; the recursive calls are to [compile_const]. *)
Fixpoint compile_const_impl (constant : Constant) : res CExpr :=
  let compile_const c := let! r := compile_const_impl c in reduce_root r in
  match constant with
  | ConstInt b v =>
      let! c := tv_get (IntegerType b) in
      let! v := Value.new b v in Ok (EConst c v)
  | ConstCast op operand to_type =>
      if const_cast op then
        let! to_class := tv_get to_type in
        let! inner := compile_const operand in
        apply_ (compile_cast op to_class) [inner]
      else Panic Todo
  | ConstGlobalReference name ty => global_const name ty
  | ConstUndef typ | ConstNull typ | ConstAggregateZero typ => zero_const typ
  | ConstStruct name values is_packed =>
      let! children := mapM compile_const values in
      let! class := match name with
                    | Some name => tv_named_struct name
                    | None => tv_struc (expr_class <$> children) is_packed
                    end in
      apply_ (Aggregate class) children
  | ConstArray element_type elements =>
      let! children := mapM compile_const elements in
      let! e := tv_get element_type in
      let! class := tv_array e (zlen elements) in
      apply_ (Aggregate class) children
  | ConstVector elements =>
      let! children := mapM compile_const elements in
      let! c0 := index children 0 in
      let! class := tv_vector (expr_class c0) (zlen elements) in
      apply_ (Aggregate class) children
  | ConstGetElementPtr address indices =>
      let! address := compile_const address in
      let! indices := mapM compile_const indices in
      gep_expr (address :: indices)
  | ConstSelect condition true_value false_value =>
      let! condition := compile_const condition in
      let! true_value := compile_const true_value in
      let! false_value := compile_const false_value in
      apply_ Select [condition; true_value; false_value]
  | ConstFloat f => float_const f
  | ConstBinOp op operand0 operand1 =>
      let! operand0 := compile_const operand0 in
      let! operand1 := compile_const operand1 in
      apply_ (compile_binop op) [operand0; operand1]
  | ConstICmp predicate operand0 operand1 =>
      let! operand0 := compile_const operand0 in
      let! operand1 := compile_const operand1 in
      apply_ (ICmp (from_int_predicate predicate)) [operand0; operand1]
  | ConstFCmp predicate operand0 operand1 =>
      let! operand0 := compile_const operand0 in
      let! operand1 := compile_const operand1 in
      apply_ (FCmp (from_fp_predicate predicate)) [operand0; operand1]
  | OtherConstant => Panic Todo
  end.

Definition compile_const (constant : Constant) : res CExpr :=
  let! result := compile_const_impl constant in reduce_root result.
End Compile.

(** ** Evaluation *)

Section Evaluate.
Context {BV : Bitvec} {TV : TypeMapView} {X : Type}.

(** [FlowCtx::evaluate], by a decoding task; [thread_local] is
    [Thread::thread_local] of the thread, by thread and key. *)
Context (thread_local : Z -> Z -> World X -> res (option (Z * World X))).

Fixpoint evaluate (flow : FlowCtx) (expr : CExpr) : Async X Value :=
  match expr with
  | EConst _ value => Ret value
  | EThreadLocal _ key => Act (thread_local (f_thread flow) key) (fun p => lift (addr p))
  | EApply oper args =>
      let* x := amapM (evaluate flow) args in
      lift (call_operation oper x)
  end.
End Evaluate.

(** ** What constants mean *)

Section Denote.
Context {BV : Bitvec} {TV : TypeMapView}.
Context (moduleid : Z) (symbols : SymbolTable).
(** The state, and the address of a thread-local in it. *)
Context {W : Type} (tl : Z -> W -> res (Z * W)).

(** The value of an expression. *)
Fixpoint eval (e : CExpr) (w : W) : res (Value * W) :=
  match e with
  | EConst _ v => Ok (v, w)
  | EThreadLocal _ key => let! (p, w) := tl key w in let! v := addr p in Ok (v, w)
  | EApply oper args => let! (vs, w) := smapM eval args w in let! v := call_operation oper vs in Ok (v, w)
  end.

(** A constant that is compiled to no application. *)
Definition denote_leaf (r : res CExpr) (w : W) : res ((Class * Value) * W) :=
  let! e := r in let! (v, w) := eval e w in Ok ((expr_class e, v), w).

Definition denote_op (name : COperationName) (args : list (Class * Value)) (w : W)
    : res ((Class * Value) * W) :=
  let! o := tv_operation name args.*1 in
  let! v := call_operation o args.*2 in Ok ((output o, v), w).

(** The class and the value of a constant, without compiling it. *)
Fixpoint denote (c : Constant) (w : W) : res ((Class * Value) * W) :=
  match c with
  | ConstInt b v =>
      denote_leaf (let! c := tv_get (IntegerType b) in let! v := Value.new b v in Ok (EConst c v)) w
  | ConstCast op operand to_type =>
      if const_cast op then
        let! to_class := tv_get to_type in
        let! (x, w) := denote operand w in
        denote_op (compile_cast op to_class) [x] w
      else Panic Todo
  | ConstGlobalReference name ty => denote_leaf (global_const moduleid symbols name ty) w
  | ConstUndef typ | ConstNull typ | ConstAggregateZero typ => denote_leaf (zero_const typ) w
  | ConstStruct name values is_packed =>
      let! (xs, w) := smapM denote values w in
      let! class := match name with
                    | Some name => tv_named_struct name
                    | None => tv_struc xs.*1 is_packed
                    end in
      denote_op (Aggregate class) xs w
  | ConstArray element_type elements =>
      let! (xs, w) := smapM denote elements w in
      let! e := tv_get element_type in
      let! class := tv_array e (zlen elements) in
      denote_op (Aggregate class) xs w
  | ConstVector elements =>
      let! (xs, w) := smapM denote elements w in
      let! x0 := index xs 0 in
      let! class := tv_vector x0.1 (zlen elements) in
      denote_op (Aggregate class) xs w
  | ConstGetElementPtr address indices =>
      let! (a, w) := denote address w in
      let! (xs, w) := smapM denote indices w in
      let! is_ := mapM as_i64 xs.*2 in
      let! element := element_at a.1 0 is_ in
      assert! Z.rem (bit_offset element) 8 =? 0 or AssertFailed in
      let! c := tv_ptr (e_class element) in
      let! v := call_operation (MkOp GetElementPtr (a.1 :: xs.*1) c) (a.2 :: xs.*2) in
      Ok ((c, v), w)
  | ConstSelect condition true_value false_value =>
      let! (x, w) := denote condition w in
      let! (y, w) := denote true_value w in
      let! (z, w) := denote false_value w in
      denote_op Select [x; y; z] w
  | ConstFloat f => denote_leaf (float_const f) w
  | ConstBinOp op operand0 operand1 =>
      let! (x, w) := denote operand0 w in
      let! (y, w) := denote operand1 w in
      denote_op (compile_binop op) [x; y] w
  | ConstICmp predicate operand0 operand1 =>
      let! (x, w) := denote operand0 w in
      let! (y, w) := denote operand1 w in
      denote_op (ICmp (from_int_predicate predicate)) [x; y] w
  | ConstFCmp predicate operand0 operand1 =>
      let! (x, w) := denote operand0 w in
      let! (y, w) := denote operand1 w in
      denote_op (FCmp (from_fp_predicate predicate)) [x; y] w
  | OtherConstant => Panic Todo
  end.
End Denote.

(** ** Compiling and evaluating agree with the meaning *)

(** Induction over constants, with the children of aggregates. *)
Lemma Constant_nested_ind (P : Constant -> Prop) :
  (forall b v, P (ConstInt b v)) -> (forall op c t, P c -> P (ConstCast op c t)) ->
  (forall n t, P (ConstGlobalReference n t)) -> (forall t, P (ConstUndef t)) -> (forall t, P (ConstNull t)) ->
  (forall t, P (ConstAggregateZero t)) -> (forall n vs p, Forall P vs -> P (ConstStruct n vs p)) ->
  (forall t vs, Forall P vs -> P (ConstArray t vs)) -> (forall vs, Forall P vs -> P (ConstVector vs)) ->
  (forall a is_, P a -> Forall P is_ -> P (ConstGetElementPtr a is_)) ->
  (forall a b c, P a -> P b -> P c -> P (ConstSelect a b c)) -> (forall f, P (ConstFloat f)) ->
  (forall op a b, P a -> P b -> P (ConstBinOp op a b)) -> (forall p a b, P a -> P b -> P (ConstICmp p a b)) ->
  (forall p a b, P a -> P b -> P (ConstFCmp p a b)) -> P OtherConstant -> forall c, P c.
Proof.
  intros H1 H2 H3 H4 H5 H6 H7 H8 H9 H10 H11 H12 H13 H14 H15 H16.
  fix IH 1. assert (forall l, Forall P l) as HL by (fix IHl 1; intros [|c l]; constructor; [apply IH|apply IHl]).
  intros [| op c t| | | | |n vs p|t vs|vs|a is_|a b c| |op a b|p a b|p a b|]; [apply H1|apply H2, IH|apply H3|
    apply H4|apply H5|apply H6|apply H7, HL|apply H8, HL|apply H9, HL|apply H10; [apply IH|apply HL]|
    apply H11; apply IH|apply H12|apply H13; apply IH|apply H14; apply IH|apply H15; apply IH|apply H16].
Qed.

Lemma CExpr_nested_ind (P : CExpr -> Prop) :
  (forall c v, P (EConst c v)) -> (forall c k, P (EThreadLocal c k)) ->
  (forall o args, Forall P args -> P (EApply o args)) -> forall e, P e.
Proof.
  intros H1 H2 H3. fix IH 1. intros [c v|c k|o args]; [apply H1|apply H2|apply H3].
  induction args as [|a args IHa]; constructor; [apply IH|exact IHa].
Qed.

(** What a [getelementptr] relies on: the class of an element does not depend on
    an index that is not known when it is compiled. *)
Class ElementLaws (TV : TypeMapView) :=
  element_class : forall c i e e', cv_element c (-1) = Ok e -> cv_element c i = Ok e' -> e_class e = e_class e'.

(** The structs of a table have fewer fields than indices. *)
Definition small_structs (fuel : nat) (tm : TypeMap) : bool :=
  forallb (fun c => match class_kind fuel c tm with
                    | Ok (StructClass fields _, _) => zlen fields <? 2 ^ 64 - 1
                    | _ => true
                    end) (map_to_list (cells tm)).*1.

Lemma small_structs_spec fuel tm c fields l tm' :
  small_structs fuel tm = true -> class_kind fuel c tm = Ok (StructClass fields l, tm') -> zlen fields < 2 ^ 64 - 1.
Proof.
  unfold small_structs. rewrite forallb_forall. intros Hall Hk. specialize (Hall c). rewrite Hk in Hall.
  apply Z.ltb_lt, Hall, list_elem_of_In. apply list_elem_of_fmap.
  unfold class_kind in Hk. apply bind_Ok in Hk as (i & Hf & _). destruct fuel as [|fuel]; [done|]. cbn [force] in Hf.
  destruct (cells tm !! c) as [x|] eqn:E; [|done]. exists (c, x). split; [done|]. by apply elem_of_map_to_list.
Qed.

(** Pointers, vectors and arrays have elements of one class; -1 is no field. *)
Lemma type_view_elements fuel named tm :
  small_structs fuel tm = true -> ElementLaws (type_view fuel named tm).
Proof.
  intros Hsmall c i e e'. cbn. unfold element. pose proof (fun f l tm' => small_structs_spec fuel tm c f l tm' Hsmall) as Hs.
  clear Hsmall. rename Hs into Hsmall. destruct (class_kind fuel c tm) as [[k tm1]|]; [|done]. cbn [bind] in *.
  destruct k as [| |p| | |x n|x n|fields l]; try done.
  - destruct (class_layout fuel p tm1) as [[lp tm2]|]; [|done]. cbn [bind].
    destruct (pad_to_align lp); [|done]. cbn [bind]. intros H1 H2. by res_inv.
  - destruct (class_layout fuel x tm1) as [[lp tm2]|]; [|done]. cbn [bind].
    destruct (bit_align lp mod 8 =? 0); [|done]. cbn [bind guard_]. intros H1 H2. by res_inv.
  - destruct (class_layout fuel x tm1) as [[lp tm2]|]; [|done]. cbn [bind].
    destruct (pad_to_align lp); [|done]. cbn [bind]. intros H1 H2. by res_inv.
  - intros H1 _. exfalso. specialize (Hsmall fields l tm1 eq_refl).
    change (wrap 64 (-1)) with (2 ^ 64 - 1) in H1. unfold Prelude.index in H1.
    destruct (zget fields (2 ^ 64 - 1)) eqn:E; [|done]. apply zget_Some_bounds in E. lia.
Qed.

Section Correct.
Context {BV : Bitvec} {TV : TypeMapView}.
Context (moduleid : Z) (symbols : SymbolTable) {W : Type} (tl : Z -> W -> res (Z * W)).
Implicit Types (c : Constant) (e : CExpr) (w : W).

(** Arguments that are constants evaluate to their values. *)
Lemma all_const_eval args vs w : all_const args = Some vs -> smapM (eval tl) args w = Ok (vs, w).
Proof.
  revert vs. induction args as [|[c v|c k|o es] args IH]; intros vs; simpl; [by intros [= <-]| |done..].
  destruct (all_const args) as [us|]; [|done]. intros [= <-]. by rewrite (IH us eq_refl).
Qed.

Lemma reduce_root_spec e e' w :
  reduce_root e = Ok e' -> expr_class e' = expr_class e /\ eval tl e' w = eval tl e w.
Proof.
  destruct e as [c v|c k|oper args]; simpl; [by intros [= <-]..|].
  destruct (all_const args) as [vs|] eqn:E; [|by intros [= <-]].
  intros (v & Hv & [= <-])%bind_Ok. simpl. rewrite (all_const_eval _ _ w E). cbn [bind]. by rewrite Hv.
Qed.

Lemma compile_const_inv c e w :
  compile_const moduleid symbols c = Ok e ->
  exists r, compile_const_impl moduleid symbols c = Ok r /\ expr_class e = expr_class r /\ eval tl e w = eval tl r w.
Proof. unfold compile_const. intros (r & Hr & He)%bind_Ok. exists r. split; [done|by apply reduce_root_spec]. Qed.

(** What is shown of a constant. *)
Definition agrees c : Prop := forall e w v w',
  compile_const moduleid symbols c = Ok e -> eval tl e w = Ok (v, w') ->
  denote moduleid symbols tl c w = Ok ((expr_class e, v), w').

Lemma agrees_list cs es w vs w' :
  Forall agrees cs -> mapM (compile_const moduleid symbols) cs = Ok es -> smapM (eval tl) es w = Ok (vs, w') ->
  exists xs, smapM (denote moduleid symbols tl) cs w = Ok (xs, w') /\ xs.*1 = expr_class <$> es /\ xs.*2 = vs.
Proof.
  intros HF. revert es w vs. induction HF as [|c cs Hc HF IH]; intros es w vs; simpl.
  - intros [= <-] [= <- <-]. by exists [].
  - intros (e & He & (es' & Hes & [= <-])%bind_Ok)%bind_Ok. simpl.
    intros ([v w1] & Hv & ([vs' w2] & Hvs & [= <- <-])%bind_Ok)%bind_Ok.
    rewrite (Hc e w v w1 He Hv). cbn [bind]. destruct (IH es' w1 vs' Hes Hvs) as (xs & -> & Hx1 & Hx2).
    eexists. split; [done|]. by rewrite !fmap_cons, Hx1, Hx2.
Qed.

(** Applying an operation, then evaluating. *)
Lemma apply_eval name args e w v w' :
  apply_ name args = Ok e -> eval tl e w = Ok (v, w') ->
  exists o vs, tv_operation name (expr_class <$> args) = Ok o /\ smapM (eval tl) args w = Ok (vs, w') /\
    call_operation o vs = Ok v /\ expr_class e = output o.
Proof.
  unfold apply_. intros (o & Ho & [= <-])%bind_Ok. simpl.
  intros ([vs w1] & Hvs & (x & Hx & [= <- <-])%bind_Ok)%bind_Ok. by exists o, vs.
Qed.

(** The same, for the meaning of the arguments. *)
Lemma apply_denote name cs args e w v w' :
  Forall agrees cs -> mapM (compile_const moduleid symbols) cs = Ok args -> apply_ name args = Ok e ->
  eval tl e w = Ok (v, w') ->
  exists xs, smapM (denote moduleid symbols tl) cs w = Ok (xs, w') /\ xs.*1 = expr_class <$> args /\
    denote_op name xs w' = Ok ((expr_class e, v), w').
Proof.
  intros HF Hargs He Hv. destruct (apply_eval _ _ _ _ _ _ He Hv) as (o & vs & Ho & Hvs & Hc & ->).
  destruct (agrees_list cs args w vs w' HF Hargs Hvs) as (xs & Hxs & H1 & H2).
  exists xs. split_and!; [done|done|]. unfold denote_op. rewrite H1, H2, Ho. cbn [bind]. by rewrite Hc.
Qed.

Lemma agrees_leaf c r :
  compile_const_impl moduleid symbols c = r -> (forall w, denote moduleid symbols tl c w = denote_leaf tl r w) ->
  agrees c.
Proof.
  intros Hr Hd e w v w' He Hv. destruct (compile_const_inv c e w He) as (x & Hx & Hcl & Hev).
  rewrite Hd, <- Hr, Hx. unfold denote_leaf. cbn [bind]. rewrite <- Hev, Hv. cbn [bind]. by rewrite Hcl.
Qed.

Lemma mapM_index_class args vs js w w' :
  mapM (const_index) args = Ok js -> smapM (eval tl) args w = Ok (vs, w') ->
  forall is_, mapM as_i64 vs = Ok is_ -> Forall2 (fun j i => j = i \/ j = -1) js is_.
Proof.
  revert vs js w. induction args as [|a args IH]; intros vs js w; simpl.
  - intros [= <-] [= <- <-] is_ [= <-]. constructor.
  - intros (j & Hj & (js' & Hjs & [= <-])%bind_Ok)%bind_Ok.
    intros ([v w1] & Hv & ([vs' w2] & Hvs & [= <- <-])%bind_Ok)%bind_Ok is_. simpl.
    intros (i & Hi & (is' & His & [= <-])%bind_Ok)%bind_Ok. constructor; [|by eapply IH].
    unfold const_index in Hj.
    destruct a as [c x| |]; simpl in *; [|injection Hj as <-; by right..].
    injection Hv as <- <-. left. rewrite Hi in Hj. by injection Hj.
Qed.

Lemma element_at_class `{!ElementLaws TV} (c : Class) off off' js is_ (e e' : Element) :
  Forall2 (fun j i => j = i \/ j = -1) js is_ ->
  element_at c off js = Ok e -> element_at c off' is_ = Ok e' -> e_class e = e_class e'.
Proof.
  intros HF. revert c off off'. induction HF as [|j i js is_ Hji HF IH]; intros c off off'; simpl.
  - intros [= <-] [= <-]. done.
  - intros (x & Hx & (o & _ & H1)%bind_Ok)%bind_Ok (y & Hy & (o' & _ & H2)%bind_Ok)%bind_Ok.
    assert (e_class x = e_class y) as Hc; [|rewrite Hc in H1; by eapply IH].
    destruct Hji as [-> | ->]; [congruence|by eapply element_class].
Qed.

(** The cases with operands: an operation, whose name may depend on the classes
    of the operands. *)
Lemma agrees_op c cs (name : list Class -> res COperationName) :
  Forall agrees cs ->
  (forall r, compile_const_impl moduleid symbols c = Ok r ->
     exists args n, mapM (compile_const moduleid symbols) cs = Ok args /\
       name (expr_class <$> args) = Ok n /\ apply_ n args = Ok r) ->
  (forall w xs w' n, smapM (denote moduleid symbols tl) cs w = Ok (xs, w') -> name xs.*1 = Ok n ->
     denote moduleid symbols tl c w = denote_op n xs w') ->
  agrees c.
Proof.
  intros HF Hc Hd e w v w' He Hv. destruct (compile_const_inv c e w He) as (r & Hr & Hcl & Hev).
  rewrite Hev in Hv. destruct (Hc r Hr) as (args & n & Hargs & Hn & Hap).
  destruct (apply_denote _ _ _ _ _ _ _ HF Hargs Hap Hv) as (xs & Hxs & H1 & H2).
  rewrite (Hd w xs w' n Hxs), Hcl; [done|by rewrite H1].
Qed.

Lemma agrees_gep `{!ElementLaws TV} a is_ : agrees a -> Forall agrees is_ -> agrees (ConstGetElementPtr a is_).
Proof.
  intros Ha HF e w v w' He Hv. destruct (compile_const_inv _ e w He) as (r & Hr & Hcl & Hev).
  rewrite Hev in Hv. rewrite Hcl. clear e He Hcl Hev. simpl in Hr.
  apply bind_Ok in Hr as (ea & Hea & (es & Hes & Hr)%bind_Ok).
  unfold gep_expr in Hr. cbn [index zget tail] in Hr. apply bind_Ok in Hr as (a0 & Ha0 & Hr).
  injection Ha0 as <-. apply bind_Ok in Hr as (js & Hjs & (el & Hel & Hr)%bind_Ok).
  apply bind_Ok in Hr as ([] & Hrem & (cp & Hcp & [= <-])%bind_Ok).
  cbn [eval] in Hv. apply bind_Ok in Hv as ([vs w1] & Hvs & (x & Hx & [= <- <-])%bind_Ok).
  simpl in Hvs. apply bind_Ok in Hvs as ([va w2] & Hva & ([vs' w3] & Hvs' & [= <- <-])%bind_Ok).
  cbn [denote]. rewrite (Ha ea w va w2 Hea Hva). cbn [bind fst snd].
  destruct (agrees_list is_ es w2 vs' w3 HF Hes Hvs') as (xs & -> & H1 & H2). cbn [bind]. rewrite H1, H2.
  pose proof Hx as Hx'. unfold call_operation in Hx'. cbn [name input] in Hx'. cbn [index zget tail fmap list_fmap bind] in Hx'.
  apply bind_Ok in Hx' as (c0 & Hc0 & Hx'). injection Hc0 as <-.
  apply bind_Ok in Hx' as (v0 & Hv0 & Hx'). injection Hv0 as <-.
  apply bind_Ok in Hx' as (ks & Hks & (el' & Hel' & Hx')%bind_Ok).
  apply bind_Ok in Hx' as ([] & Hrem' & _).
  rewrite Hks. cbn [bind]. rewrite Hel'. cbn [bind]. rewrite Hrem'. cbn [bind].
  pose proof (mapM_index_class es vs' js w2 w3 Hjs Hvs' ks Hks) as Hji.
  rewrite <- (element_at_class _ _ _ _ _ _ _ Hji Hel Hel'). rewrite Hcp. cbn [bind].
  assert (call_operation (MkOp GetElementPtr (expr_class ea :: (expr_class <$> es)) cp) (va :: vs') = Ok x)
    as -> by exact Hx. done.
Qed.
End Correct.

Section Claims.
Context {BV : Bitvec} {TV : TypeMapView} {EL : ElementLaws TV}.
Context (moduleid : Z) (symbols : SymbolTable) {W : Type} (tl : Z -> W -> res (Z * W)).

(** A case of [all_agree] with operands [cs] and a name that is known. *)
Tactic Notation "operands" constr(cs) constr(nm) :=
  apply (agrees_op moduleid symbols tl _ cs (fun _ => Ok nm));
    [rewrite ?Forall_cons; split_and!; try assumption; apply Forall_nil_2| |];
    [ intros r; cbn [compile_const_impl]; fold (compile_const_impl moduleid symbols); unfold compile_const;
      intros Hr; repeat match type of Hr with bind _ _ = _ => apply bind_Ok in Hr as (? & ? & Hr) end; eexists _, _; split_and!; [|done|exact Hr]; simpl;
      repeat match goal with H : _ = Ok _ |- _ => rewrite H; clear H; cbn [bind] end; done
    | intros w xs w' n Hxs [= <-]; cbn [denote]; simpl in Hxs;
      repeat match goal with H : bind _ _ = Ok _ |- _ => apply bind_Ok in H as ([? ?] & ? & H) end; simplify_eq/=;
      repeat match goal with H : _ = Ok _ |- _ => rewrite H; clear H; cbn [bind] end; done ].

Lemma all_agree c : agrees moduleid symbols tl c.
Proof.
  induction c using Constant_nested_ind.
  - by eapply agrees_leaf.
  - apply (agrees_op _ _ _ _ [c] (fun _ => if const_cast op then let! t := tv_get t in Ok (compile_cast op t) else Panic Todo)); [by constructor| |].
    + intros r. simpl. destruct (const_cast op); [|done]. intros (t' & -> & (x & Hx & Hr)%bind_Ok)%bind_Ok.
      exists [x], (compile_cast op t'). unfold compile_const. by rewrite Hx.
    + intros w xs w' n. simpl. destruct (const_cast op); [|done].
      intros ([x w1] & Hx & [= <- <-])%bind_Ok (t' & -> & [= <-])%bind_Ok. cbn [bind]. by rewrite Hx.
  - by eapply agrees_leaf.
  - by eapply agrees_leaf.
  - by eapply agrees_leaf.
  - by eapply agrees_leaf.
  - apply (agrees_op _ _ _ _ vs (fun cs => let! c := match n with Some n => tv_named_struct n | None => tv_struc cs p end in
      Ok (Aggregate c))); [done| |].
    + intros r. simpl. intros (x & Hx & (cl & Hcl & Hr)%bind_Ok)%bind_Ok.
      exists x, (Aggregate cl). by rewrite Hcl.
    + intros w xs w' nm Hxs (cl & Hcl & [= <-])%bind_Ok. simpl. rewrite Hxs. cbn [bind]. by rewrite Hcl.
  - apply (agrees_op _ _ _ _ vs (fun cs => let! e := tv_get t in let! c := tv_array e (zlen vs) in Ok (Aggregate c)));
      [done| |].
    + intros r. simpl. intros (x & Hx & (e & He & (cl & Hcl & Hr)%bind_Ok)%bind_Ok)%bind_Ok.
      exists x, (Aggregate cl). rewrite He. cbn [bind]. by rewrite Hcl.
    + intros w xs w' nm Hxs (e & He & (cl & Hcl & [= <-])%bind_Ok)%bind_Ok. simpl. rewrite Hxs. cbn [bind].
      rewrite He. cbn [bind]. by rewrite Hcl.
  - apply (agrees_op _ _ _ _ vs (fun cs => let! e := index cs 0 in let! c := tv_vector e (zlen vs) in Ok (Aggregate c)));
      [done| |].
    + intros r. simpl. intros (x & Hx & (e & He & (cl & Hcl & Hr)%bind_Ok)%bind_Ok)%bind_Ok.
      exists x, (Aggregate cl). split_and!; [done| |done]. destruct x as [|x0 x]; [done|]. injection He as ->.
      change (index (expr_class <$> e :: x) 0) with (Ok (expr_class e)). cbn [bind]. by rewrite Hcl.
    + intros w xs w' nm Hxs. simpl. rewrite Hxs. cbn [bind]. destruct xs as [|x xs]; [done|].
      change (index (x :: xs).*1 0) with (Ok x.1). change (index (x :: xs) 0) with (Ok x). cbn [bind].
      intros (cl & Hcl & [= <-])%bind_Ok. by rewrite Hcl.
  - by apply agrees_gep.
  - operands [c1; c2; c3] Select.
  - by eapply agrees_leaf.
  - operands [c1; c2] (compile_binop op).
  - operands [c1; c2] (ICmp (from_int_predicate p)).
  - operands [c1; c2] (FCmp (from_fp_predicate p)).
  - intros e w v w' He. done.
Qed.

(** ** Constants without thread-locals fold *)

(** No name of the constant is a thread-local variable. *)
Fixpoint tl_free (c : Constant) : bool :=
  match c with
  | ConstGlobalReference (NameName n) _ =>
      match lookup (Some moduleid) n symbols with Ok (ThreadLocal _) => false | _ => true end
  | ConstCast _ c _ => tl_free c
  | ConstStruct _ cs _ | ConstArray _ cs | ConstVector cs => forallb tl_free cs
  | ConstGetElementPtr a cs => tl_free a && forallb tl_free cs
  | ConstSelect a b c => tl_free a && (tl_free b && tl_free c)
  | ConstBinOp _ a b | ConstICmp _ a b | ConstFCmp _ a b => tl_free a && tl_free b
  | _ => true
  end.

Definition const_pair (x : Class * Value) : CExpr := EConst x.1 x.2.

Definition folds (c : Constant) : Prop :=
  exists d, compile_const moduleid symbols c = (let! x := d in Ok (const_pair x)) /\
    forall w, denote moduleid symbols tl c w = (let! x := d in Ok (x, w)).

Lemma folds_leaf c d :
  compile_const_impl moduleid symbols c = (let! x := d in Ok (const_pair x)) ->
  (forall w, denote moduleid symbols tl c w = denote_leaf tl (compile_const_impl moduleid symbols c) w) -> folds c.
Proof.
  intros Hc Hd. exists d. unfold compile_const at 1. split; [|intros w; rewrite Hd]; rewrite Hc; by destruct d as [[]|].
Qed.

Lemma folds_list cs :
  Forall folds cs -> exists d, mapM (compile_const moduleid symbols) cs = (let! xs := d in Ok (const_pair <$> xs)) /\
    forall w, smapM (denote moduleid symbols tl) cs w = (let! xs := d in Ok (xs, w)).
Proof.
  induction 1 as [|c cs (d & Hc & Hd) HF (ds & Hcs & Hds)]; [by exists (Ok [])|].
  exists (let! x := d in let! xs := ds in Ok (x :: xs)). simpl. rewrite Hc, Hcs.
  split; [|intros w; rewrite Hd]; destruct d as [x|]; [|done| |done]; cbn [bind]; [|rewrite Hds]; by destruct ds.
Qed.

(** An operation on constants. *)
Definition fold_op (name : COperationName) (xs : list (Class * Value)) : res (Class * Value) :=
  let! o := tv_operation name xs.*1 in let! v := call_operation o xs.*2 in Ok (output o, v).

Lemma all_const_fmap (xs : list (Class * Value)) : all_const (const_pair <$> xs) = Some xs.*2.
Proof. induction xs as [|x xs IH]; [done|]. rewrite !fmap_cons. simpl. by rewrite IH. Qed.

Lemma class_fmap (xs : list (Class * Value)) : expr_class <$> (const_pair <$> xs) = xs.*1.
Proof. by rewrite <- list_fmap_compose. Qed.

Lemma apply_fold name xs :
  (let! r := apply_ name (const_pair <$> xs) in reduce_root r) = (let! x := fold_op name xs in Ok (const_pair x)) /\
  forall (w : W), denote_op name xs w = (let! x := fold_op name xs in Ok (x, w)).
Proof.
  unfold apply_, denote_op, fold_op. rewrite class_fmap. destruct (tv_operation name xs.*1) as [o|]; [|done].
  cbn [bind]. unfold reduce_root. rewrite all_const_fmap. by destruct (call_operation o xs.*2).
Qed.

Lemma folds_op {T} c cs (pre : res T) (name : T -> list Class -> res COperationName) :
  Forall folds cs ->
  compile_const_impl moduleid symbols c =
    (let! t := pre in let! args := mapM (compile_const moduleid symbols) cs in
     let! n := name t (expr_class <$> args) in apply_ n args) ->
  (forall w, denote moduleid symbols tl c w =
    (let! t := pre in let! (xs, w) := smapM (denote moduleid symbols tl) cs w in
     let! n := name t xs.*1 in denote_op n xs w)) ->
  folds c.
Proof.
  intros (d & Hcs & Hds)%folds_list Hc Hd.
  exists (let! t := pre in let! xs := d in let! n := name t xs.*1 in fold_op n xs).
  split; [unfold compile_const at 1; rewrite Hc, Hcs|intros w; rewrite Hd, Hds]; destruct pre as [t|]; [|done| |done]; cbn [bind];
    destruct d as [xs|]; [|done| |done]; cbn [bind]; rewrite ?class_fmap; destruct (name t xs.*1) as [n|]; [|done| |done];
    cbn [bind]; apply apply_fold.
Qed.

Lemma zero_const_leaf typ : exists d, zero_const typ = (let! x := d in Ok (const_pair x)).
Proof.
  unfold zero_const. destruct (tv_get typ) as [c|e]; [|by exists (Panic e)]. cbn [bind].
  destruct (cv_layout c) as [l|e]; [|by exists (Panic e)]. cbn [bind].
  destruct (Value.zero _) as [v|e]; [by exists (Ok (c, v))|by exists (Panic e)].
Qed.

Lemma folds_gep a is_ : folds a -> Forall folds is_ -> folds (ConstGetElementPtr a is_).
Proof.
  intros (da & Hca & Hda) (d & Hcs & Hds)%folds_list.
  exists (let! x := da in let! xs := d in let! ks := mapM as_i64 xs.*2 in let! el := element_at x.1 0 ks in
    assert! Z.rem (bit_offset el) 8 =? 0 or AssertFailed in let! c := tv_ptr (e_class el) in
    let! v := call_operation (MkOp GetElementPtr (x.1 :: xs.*1) c) (x.2 :: xs.*2) in Ok (c, v)).
  assert (forall xs, mapM const_index (const_pair <$> xs) = mapM as_i64 xs.*2) as Hidx.
  { induction xs as [|x xs IH]; [done|]. rewrite !fmap_cons. cbn [mapM]. by rewrite IH. }
  unfold compile_const at 1. cbn [compile_const_impl denote]. fold (compile_const moduleid symbols).
  change (fun c => let! r := compile_const_impl moduleid symbols c in reduce_root r) with (compile_const moduleid symbols).
  change (let! r := compile_const_impl moduleid symbols a in reduce_root r) with (compile_const moduleid symbols a).
  rewrite Hca, Hcs. split; [|intros w; rewrite Hda]; (destruct da as [x|]; [|done]); cbn [bind]; rewrite ?Hds;
    (destruct d as [xs|]; [|done]); cbn [bind].
  2: { destruct (mapM as_i64 xs.*2) as [ks|]; [|done]. cbn [bind]. destruct (element_at x.1 0 ks) as [el|]; [|done].
       cbn [bind]. destruct (Z.rem _ _ =? 0); [|done]. cbn [guard_ bind]. destruct (tv_ptr _) as [c|]; [|done].
       cbn [bind]. by destruct (call_operation _ _). }
  unfold gep_expr. change (index (const_pair x :: (const_pair <$> xs)) 0) with (Ok (const_pair x)). cbn [bind tail].
  rewrite Hidx. destruct (mapM as_i64 xs.*2) as [ks|]; [|done]. cbn [bind]. cbn [const_pair expr_class].
  destruct (element_at x.1 0 ks) as [el|]; [|done]. cbn [bind]. destruct (Z.rem _ _ =? 0); [|done]. cbn [guard_ bind].
  destruct (tv_ptr _) as [c|]; [|done]. cbn [bind]. unfold reduce_root.
  change (const_pair x :: (const_pair <$> xs)) with (const_pair <$> (x :: xs)). rewrite all_const_fmap, class_fmap, !fmap_cons.
  by destruct (call_operation _ _).
Qed.

Lemma forall_folds cs : Forall (fun c => tl_free c = true -> folds c) cs -> forallb tl_free cs = true -> Forall folds cs.
Proof. induction 1; simpl; intros Hb; [constructor|]. apply andb_true_iff in Hb as [? ?]. constructor; auto. Qed.

(** A case of [all_fold] with operands [cs] and a name that is known. *)
Tactic Notation "fold_operands" constr(cs) constr(nm) :=
  apply (folds_op _ cs (Ok tt) (fun _ _ => Ok nm));
    [ rewrite ?Forall_cons; split_and!; auto; apply Forall_nil_2
    | simpl; fold (compile_const moduleid symbols); unfold compile_const;
      repeat match goal with |- context [bind (compile_const_impl ?m ?s ?c) ?f] =>
        destruct (bind (compile_const_impl m s c) f); [|done]; cbn [bind] end; done
    | intros w; simpl;
      repeat match goal with |- context [denote ?m ?s ?t ?c ?w] =>
        destruct (denote m s t c w) as [[? ?]|]; [|done]; cbn [bind] end; done ].

Lemma all_fold c : tl_free c = true -> folds c.
Proof.
  induction c using Constant_nested_ind; cbn [tl_free]; intros Hf;
    repeat match goal with H : _ && _ = true |- _ => apply andb_true_iff in H as [? ?] end.
  - apply (folds_leaf _ (let! c := tv_get (IntegerType b) in let! v := Value.new b v in Ok (c, v))); [|done].
    simpl. destruct (tv_get _); [|done]. cbn [bind]. by destruct (Value.new b v).
  - apply (folds_op _ [c] (if const_cast op then tv_get t else Panic Todo) (fun t _ => Ok (compile_cast op t)));
      [by constructor; [auto|constructor]|..]; simpl; [|intros w]; destruct (const_cast op); try done;
      destruct (tv_get t); try done; cbn [bind].
    + unfold compile_const. by destruct (let! r := compile_const_impl _ _ _ in reduce_root r).
    + by destruct (denote _ _ _ _ _) as [[? ?]|].
  - apply (folds_leaf _ (match global_const moduleid symbols n t with Ok (EConst c v) => Ok (c, v) | Ok _ => Panic UnreachableCode | Panic e => Panic e end));
      [|done]. simpl. unfold global_const in *. destruct n as [n|n]; [|done]. cbn [bind].
    destruct (lookup _ n symbols) as [d|]; [|done]. cbn [bind]. destruct (tv_get t); [|done]. cbn [bind].
    destruct (tv_ptr _); [|done]. cbn [bind]. destruct d; [|done]. by destruct (addr address).
  - destruct (zero_const_leaf t) as [d Hd]. by apply (folds_leaf _ d).
  - destruct (zero_const_leaf t) as [d Hd]. by apply (folds_leaf _ d).
  - destruct (zero_const_leaf t) as [d Hd]. by apply (folds_leaf _ d).
  - apply (folds_op _ vs (Ok tt) (fun _ cs => let! c := match n with Some n => tv_named_struct n | None => tv_struc cs p end in
      Ok (Aggregate c))); [by apply forall_folds|..]; simpl; [|intros w].
    + fold (compile_const moduleid symbols). destruct (mapM _ vs); [|done]. cbn [bind].
      destruct n; [by destruct (tv_named_struct _)|by destruct (tv_struc _ _)].
    + destruct (smapM _ vs w) as [[xs w']|]; [|done]. cbn [bind].
      destruct n; [by destruct (tv_named_struct _)|by destruct (tv_struc _ _)].
  - apply (folds_op _ vs (Ok tt) (fun _ cs => let! e := tv_get t in let! c := tv_array e (zlen vs) in Ok (Aggregate c)));
      [by apply forall_folds|..]; simpl; [|intros w].
    + fold (compile_const moduleid symbols). destruct (mapM _ vs); [|done]. cbn [bind].
      destruct (tv_get t); [|done]. cbn [bind]. by destruct (tv_array _ _).
    + destruct (smapM _ vs w) as [[xs w']|]; [|done]. cbn [bind].
      destruct (tv_get t); [|done]. cbn [bind]. by destruct (tv_array _ _).
  - apply (folds_op _ vs (Ok tt) (fun _ cs => let! e := index cs 0 in let! c := tv_vector e (zlen vs) in Ok (Aggregate c)));
      [by apply forall_folds|..]; simpl; [|intros w].
    + fold (compile_const moduleid symbols). destruct (mapM _ vs) as [[|x xs]|]; [done| |done]. cbn [bind].
      change (index (x :: xs) 0) with (Ok x). change (index (expr_class <$> x :: xs) 0) with (Ok (expr_class x)).
      cbn [bind]. by destruct (tv_vector _ _).
    + destruct (smapM _ vs w) as [[[|x xs] w']|]; [done| |done]. cbn [bind].
      change (index (x :: xs) 0) with (Ok x). change (index (x :: xs).*1 0) with (Ok x.1).
      cbn [bind]. by destruct (tv_vector _ _).
  - apply folds_gep; [auto|by apply forall_folds].
  - fold_operands [c1; c2; c3] Select.
  - apply (folds_leaf _ (match float_const f with Ok (EConst c v) => Ok (c, v) | Ok _ => Panic UnreachableCode | Panic e => Panic e end));
      [|done]. cbn [compile_const_impl]. unfold float_const. destruct f; try done; (destruct (tv_get _); [|done]); cbn [bind];
      match goal with |- context [from_int ?n ?b] => by destruct (from_int n b) end.
  - fold_operands [c1; c2] (compile_binop op).
  - fold_operands [c1; c2] (ICmp (from_int_predicate p)).
  - fold_operands [c1; c2] (FCmp (from_fp_predicate p)).
  - by exists (Panic Todo).
Qed.

(** C11: Compiling a constant and evaluating it when it is used gives the value
    and the class it has when evaluated directly: folding computes with the same
    operations, thread-locals are initialised in the same order, and the class
    chosen for a [getelementptr] with an index that is not yet known is the one
    the known index gives. *)
Theorem compile_const_correct (c : Constant) (e : CExpr) (w : W) (v : Value) (w' : W) :
  compile_const moduleid symbols c = Ok e -> eval tl e w = Ok (v, w') ->
  denote moduleid symbols tl c w = Ok ((expr_class e, v), w').
Proof. apply all_agree. Qed.

(** A constant that names no thread-local variable folds completely:
    compiling it is evaluating it, with the same panics, and gives a constant
    expression, so that [as_const().unwrap()] in compile/module.rs and
    function.rs succeeds on it. *)
Theorem constant_folding_complete (c : Constant) (w : W) :
  tl_free c = true ->
  compile_const moduleid symbols c = (let! (x, _) := denote moduleid symbols tl c w in Ok (EConst x.1 x.2)).
Proof. intros Hf. destruct (all_fold c Hf) as (d & -> & ->). by destruct d. Qed.
End Claims.

(** ** Witnesses *)

(** i32, i64, pointers to i32 and the array [3 x i32], in a table. *)
Definition sample_types : TypeMap :=
  fold_left (fun tm t => (get t tm).2)
    [IntegerType 32; IntegerType 64; PointerType (IntegerType 32);
     ArrayType (IntegerType 32) 3; PointerType (ArrayType (IntegerType 32) 3)] (typemap_new 64).
#[local] Instance sample_view : TypeMapView := type_view 3 (fun _ => None) sample_types.

Definition sample_symbols : SymbolTable :=
  MkSymbols {[ External "a" := Global 4096; External "t" := ThreadLocal 0 ]} ∅ 1.

(** Thread-local [key] is at [8192 + key]; the state counts the uses. *)
Definition sample_tl (key w : Z) : res (Z * Z) := Ok (8192 + key, w + 1).

(** [ptrtoint (getelementptr a, 0, 2) + ptrtoint t], in i64. *)
Definition sample_global : Constant :=
  ConstCast CastPtrToInt (ConstGetElementPtr (ConstGlobalReference (NameName "a") (ArrayType (IntegerType 32) 3))
    [ConstInt 64 0; ConstInt 32 2]) (IntegerType 64).
Definition sample_local : Constant :=
  ConstBinOp BinAdd sample_global
    (ConstCast CastPtrToInt (ConstGlobalReference (NameName "t") (IntegerType 32)) (IntegerType 64)).

Lemma sample_elements : ElementLaws sample_view.
Proof. apply type_view_elements. vm_compute. reflexivity. Qed.

Lemma compile_const_correct_witness :
  exists e v, compile_const (BV := bitvec_ref) 0 sample_symbols sample_local = Ok e /\
    eval (BV := bitvec_ref) sample_tl e 0 = Ok (v, 1) /\ as_u64 v = 4096 + 8 + 8192 /\
    denote (BV := bitvec_ref) 0 sample_symbols sample_tl sample_local 0 = Ok ((expr_class e, v), 1).
Proof.
  eexists _, _. split; [vm_compute; reflexivity|]. split; [vm_compute; reflexivity|]. split; [reflexivity|].
  apply (compile_const_correct (BV := bitvec_ref) (EL := sample_elements)); vm_compute; reflexivity.
Defined.

Lemma constant_folding_complete_witness :
  tl_free 0 sample_symbols sample_global = true /\
  compile_const (BV := bitvec_ref) 0 sample_symbols sample_global =
    (let! (x, _) := denote (BV := bitvec_ref) 0 sample_symbols sample_tl sample_global 0 in Ok (EConst x.1 x.2)).
Proof.
  split; [vm_compute; reflexivity|].
  apply (constant_folding_complete (BV := bitvec_ref) 0 sample_symbols sample_tl sample_global 0). vm_compute. reflexivity.
Defined.
