(* ===== verification/Typing.v ===== *)
(** * Typing: every computed value has the width of its class

    The classes of operands and results are computed by the compiler, the values
    by the interpreter; nothing in a [Value] records its class. [typed v c] is
    what the source relies on between the two: [v] is as wide as [c]. Operations
    (compile/operation.rs) and constant expressions (compile/expr.rs) keep it. *)

From S2P Require Import Prelude Layout Bitvec Value Symbols Classes Operation Process Expr.

(** ** What the operations on values keep

    The source asserts and indexes on the way, so a result shows that the
    arguments were in range. *)

Section Values.
Context `{BVL : BitvecLaws}.

Lemma zero_inv b v : Value.zero b = Ok v -> 0 <= b -> wf v /\ bits v = b.
Proof.
  intros Hz Hb. assert (b + 7 < 2 ^ 64) as Hlt by (unfold Value.zero in Hz; res_inv; chk_inv; lia).
  destruct (zero_spec b Hb Hlt) as (v' & Hv & Hc & ? & _). rewrite Hz in Hv. injection Hv as <-. eauto with sim.
Qed.

Lemma sub_ok_inv v lo hi : sub_ok v lo hi = true -> 0 <= lo <= hi /\ hi <= bits v <= 8 * zlen (imp v).
Proof. unfold sub_ok. intros. zb. lia. Qed.

Lemma copy_bits_inv dst dlo dhi src slo shi r :
  copy_bits dst dlo dhi src slo shi = Ok r -> wf dst -> wf src -> wf r /\ bits r = bits dst.
Proof.
  unfold copy_bits. intros Hr Hd Hs. res_inv. zb.
  repeat match goal with H : sub_ok _ _ _ = true |- _ => apply sub_ok_inv in H end.
  destruct Hd as (Hd0 & Hd1 & Hdl & Hdb), Hs as (_ & _ & _ & Hsb).
  destruct (bv_copy_law (imp dst) dlo (imp src) slo (dhi - dlo) Hdb Hsb) as (Hlen & Hb & _); [lia..|].
  split; [split_and!; simpl; [done|done|congruence|done]|done].
Qed.

Lemma from_bits_inv src lo hi r : Value.from_bits src lo hi = Ok r -> wf src -> wf r /\ bits r = hi - lo.
Proof.
  unfold Value.from_bits. intros (u & Hu%guard_Ok%sub_ok_inv & (z & Hz & Hr)%bind_Ok)%bind_Ok Hs.
  destruct (zero_inv _ _ Hz) as [Hzw Hzb]; [lia|]. rewrite <- Hzb. by eapply copy_bits_inv.
Qed.

Lemma new_inv b x v : Value.new b x = Ok v -> 0 <= b -> 0 <= x < 2 ^ 128 -> wf v /\ bits v = b.
Proof.
  intros Hn Hb Hx. assert (b + 7 < 2 ^ 64) as Hlt.
  { unfold Value.new in Hn. apply bind_Ok in Hn as (z & Hz & _). unfold Value.zero in Hz. res_inv. chk_inv. lia. }
  destruct (new_spec b x Hb Hlt Hx) as (v' & Hv & Hc & ? & _). rewrite Hn in Hv. injection Hv as <-. eauto with sim.
Qed.

Lemma from_int_inv b x v : from_int b x = Ok v -> 0 <= b -> wf v /\ bits v = b.
Proof. intros Hn Hb. eapply new_inv; [exact Hn|done|]. by apply wrap_bounds. Qed.

Lemma from_bool_inv b v : from_bool b = Ok v -> wf v /\ bits v = 1.
Proof. intros Hn. eapply new_inv; [exact Hn|done|]. by destruct b. Qed.

Lemma insert_bits_inv self off v r : insert_bits self off v = Ok r -> wf self -> wf v -> wf r /\ bits r = bits self.
Proof. unfold insert_bits. intros (hi & _ & Hr)%bind_Ok. by eapply copy_bits_inv. Qed.

Lemma ucast_inv v l r : ucast v l = Ok r -> wf v -> 0 <= Layout.bits l -> wf r /\ bits r = Layout.bits l.
Proof.
  unfold ucast. intros (z & Hz & Hr)%bind_Ok Hv Hl. destruct (zero_inv _ _ Hz Hl) as [Hzw <-].
  by eapply copy_bits_inv.
Qed.

Lemma slice_inv {A} (l : list A) lo hi s : slice l lo hi = Ok s -> 0 <= lo <= hi /\ hi <= zlen l /\ zlen s = hi - lo.
Proof.
  unfold slice. destruct (_ && _) eqn:E; [|done]. intros [= <-]. zb. unfold zlen in *.
  rewrite length_take, length_drop. lia.
Qed.

Lemma slice_bytes l lo hi s : slice l lo hi = Ok s -> bytes_ok l -> bytes_ok s.
Proof. unfold slice. destruct (_ && _); [|done]. intros [= <-] Hb. by apply Forall_take, Forall_drop. Qed.

Lemma extract_bits_inv self off len r :
  extract_bits self off len = Ok r -> wf self -> 0 <= len < 2 ^ 64 -> wf r /\ bits r = len.
Proof.
  intros Hr Hs Hlen. unfold extract_bits in Hr. destruct (_ && _) eqn:E.
  - apply andb_true_iff in E as [Hoff%Z.eqb_eq Hmod%Z.eqb_eq]. apply bind_Ok in Hr as (hi & Hhi & (s & Hsl & Hr)%bind_Ok). chk_inv.
    pose proof (slice_inv _ _ _ _ Hsl) as (Hlo & Hhil & Hz).
    pose proof (slice_bytes _ _ _ _ Hsl) as Hb. destruct Hs as (Hs0 & Hs1 & Hl & Hby).
    assert (zlen s * 8 = len) as Heq.
    { set (q := Z.quot off 8) in *. set (n := Z.quot (to_signed 64 len) 8) in *.
      pose proof (to_signed_bounds 64 len ltac:(lia)) as Hts.
      assert (to_signed 64 len = 8 * n) as Hn.
      { unfold n. pose proof (Z.quot_rem (to_signed 64 len) 8 ltac:(lia)).
        assert (Z.rem (to_signed 64 len) 8 = 0); [|lia].
        apply Z.rem_divide; [lia|]. apply Z.mod_divide in Hmod; [|lia]. unfold to_signed.
        rewrite wrap_small by lia. zcase; [done|]. apply Z.divide_sub_r; [done|]. by exists (2 ^ 61). }
      assert (Hq : - 2 ^ 63 <= q + n < 2 ^ 63) by exact Hhi.
      assert (zlen (imp self) < 2 ^ 62) as Hzl.
      { rewrite Hl. apply Z.div_lt_upper_bound; lia. }
      assert (wrap 64 q = q) as Hwq.
      { unfold wrap in *. assert (0 <= q \/ q < 0) as [Hq0|Hq0] by lia; [|exfalso].
        - apply Z.mod_small. pose proof (Z.mod_pos_bound q (2 ^ 64) ltac:(lia)). lia.
        - assert (- 2 ^ 64 <= q) by lia. rewrite <- (Z.mod_add q 1) in Hlo by lia.
          rewrite (Z.mod_small (q + 1 * 2 ^ 64)) in Hlo; lia. }
      assert (wrap 64 (q + n) = q + n) as Hwn.
      { unfold wrap in *. assert (0 <= q + n \/ q + n < 0) as [Hq0|Hq0] by lia; [|exfalso].
        - apply Z.mod_small. lia.
        - rewrite <- (Z.mod_add (q + n) 1) in Hhil by lia.
          rewrite (Z.mod_small (q + n + 1 * 2 ^ 64)) in Hhil; lia. }
      assert (to_signed 64 len = len) as Htl; [|lia]. rewrite Hwq, Hwn in Hlo.
      unfold to_signed in Hn |- *. rewrite (wrap_small 64 len) in Hn |- * by lia. revert Hn. zcase; lia. }
    rewrite <- Heq. unfold from_bytes_exact, Value.from_bytes in Hr. pose proof (zlen_nonneg s). res_inv. chk_inv. zb.
    split; [|done]. split_and!; simpl; [lia|lia|done|by apply Hb].
  - apply bind_Ok in Hr as (hi & Hhi & Hr). chk_inv. apply from_bits_inv in Hr as [? ->]; [|done]. split; [done|lia].
Qed.

Lemma unsigned_inv v1 v2 f1 f r (k : Z -> Z) :
  call_scalar_binop_unsigned v1 v2 f1 f = Ok r ->
  (forall x y r, f1 x y = Ok r -> wf r /\ bits r = k 1) ->
  (forall w x y r, 0 <= w -> f w x y = Ok r -> wf r /\ bits r = k w) ->
  wf r /\ bits r = k (bits v1).
Proof.
  unfold call_scalar_binop_unsigned. intros Hr H1 Hf. generalize dependent (bits v2). intros b2.
  generalize dependent (bits v1). intros b1 Hr.
  repeat (match type of Hr with match ?b with _ => _ end = _ => destruct b end; try discriminate Hr);
    apply bind_Ok in Hr as (x & _ & (y & _ & Hr)%bind_Ok); first [by eapply H1|eapply Hf; [|exact Hr]; lia].
Qed.

Lemma signed_inv v1 v2 f r (k : Z -> Z) :
  call_scalar_binop_signed v1 v2 f = Ok r ->
  (forall w x y r, 0 <= w -> f w x y = Ok r -> wf r /\ bits r = k w) ->
  wf r /\ bits r = k (bits v1).
Proof.
  unfold call_scalar_binop_signed. intros Hr Hf. generalize dependent (bits v2). intros b2.
  generalize dependent (bits v1). intros b1 Hr.
  repeat (match type of Hr with match ?b with _ => _ end = _ => destruct b end; try discriminate Hr);
    apply bind_Ok in Hr as (x & _ & (y & _ & Hr)%bind_Ok); (eapply Hf; [|exact Hr]; lia).
Qed.

(** The width of a scalar operation's result. *)
Definition binop_width (op : COperationName) (v1 v2 : Value) : Z :=
  match op with ICmp _ => 1 | Xchg => bits v2 | _ => bits v1 end.

Lemma int_fn_inv g w x y r : 0 <= w -> int_fn g w x y = Ok r -> wf r /\ bits r = w.
Proof. intros Hw Hr. by eapply from_int_inv. Qed.
Lemma int_fn_res_inv g w x y r : 0 <= w -> int_fn_res g w x y = Ok r -> wf r /\ bits r = w.
Proof. intros Hw (z & _ & Hr)%bind_Ok. by eapply from_int_inv. Qed.

Lemma binop_inv op v1 v2 r :
  call_scalar_binop op v1 v2 = Ok r -> wf v1 -> wf v2 -> wf r /\ bits r = binop_width op v1 v2.
Proof.
  intros Hr H1 H2.
  assert (forall f1 f, (forall w x y r, 0 <= w -> f w x y = Ok r -> wf r /\ bits r = w) ->
    (forall x y r, f1 x y = Ok r -> wf r /\ bits r = 1) ->
    call_scalar_binop_unsigned v1 v2 f1 f = Ok r -> wf r /\ bits r = bits v1) as Hu
    by (intros f1 f Hf Hf1 Hc; exact (unsigned_inv v1 v2 f1 f r (fun w => w) Hc Hf1 Hf)).
  assert (forall f, (forall w x y r, 0 <= w -> f w x y = Ok r -> wf r /\ bits r = w) ->
    call_scalar_binop_signed v1 v2 f = Ok r -> wf r /\ bits r = bits v1) as Hs
    by (intros f Hf Hc; exact (signed_inv v1 v2 f r (fun w => w) Hc Hf)).
  destruct op; try discriminate Hr; cbn [call_scalar_binop binop_width] in *;
    try (eapply Hu; [..|exact Hr]; first [apply int_fn_inv|apply int_fn_res_inv|discriminate|intros x y; apply from_bool_inv]);
    try (eapply Hs; [..|exact Hr]; first [apply int_fn_inv|apply int_fn_res_inv]).
  - by injection Hr as ->.
  - unfold call_scalar_lshr in Hr. apply bind_Ok in Hr as (z & Hz & (n & _ & Hr)%bind_Ok).
    destruct (zero_inv _ _ Hz) as [Hzw <-]; [by destruct H1|]. by eapply copy_bits_inv.
  - destruct p; first [refine (unsigned_inv v1 v2 _ _ r (fun _ => 1) Hr _ _)|refine (signed_inv v1 v2 _ r (fun _ => 1) Hr _)];
      try discriminate; intros w x y r' _; apply from_bool_inv.
Qed.

Lemma sext_inv v b r : call_scalar_sext v b = Ok r -> wf v -> wf r /\ bits r = b.
Proof.
  unfold call_scalar_sext. destruct (Z.eqb_spec (bits v) b) as [<-|]; [by intros [= <-]|]. intros Hr Hv.
  assert (forall w, (let! x := unwrap_i w v in from_int b x) = Ok r -> 0 <= b -> wf r /\ bits r = b) as Hf.
  { intros w (x & _ & Hx)%bind_Ok. by apply (from_int_inv b x). }
  generalize dependent (bits v). intros b1 _ Hr.
  repeat (match type of Hr with match ?b with _ => _ end = _ => destruct b end; try discriminate Hr);
    (eapply Hf; [exact Hr|lia]).
Qed.
End Values.

(** ** Typed values and operations *)

Section Typed.
Context {BV : Bitvec} {TV : TypeMapView}.

(** [v] is as wide as the values of class [c]. *)
Definition typed (v : Value) (c : Class) : Prop :=
  exists l, cv_layout c = Ok l /\ wf v /\ bits v = Layout.bits l.

(** [c] has values of [n] bits. *)
Definition has_width (c : Class) (n : Z) : Prop := exists l, cv_layout c = Ok l /\ Layout.bits l = n.

(** No operation is performed on [c] as a scalar. *)
Definition no_scalar (c : Class) : Prop :=
  forall k, cv_kind c = Ok k -> match k with IntegerClass _ | PointerClass _ | FPClass _ => False | _ => True end.

(** How the classes of a compiled operation fit together. *)
Definition op_ok (o : COperation) : Prop :=
  match name o with
  | Xchg | Add | Sub | Mul | UDiv | SDiv | URem | SRem | And | Or | Xor | Shl | LShr | AShr
  | FAdd | FSub | FMul | FDiv | FRem | FNeg => forall c, c ∈ input o -> c = output o
  | ICmp _ | FCmp _ => has_width (output o) 1 \/ no_scalar (output o)
  | Trunc t | ZExt t | SExt t | FPTrunc t | FPExt t | FPToUI t | FPToSI t | UIToFP t | SIToFP t =>
      output o = t \/ no_scalar (output o)
  | BitCast t | Aggregate t => output o = t
  | GetElementPtr | Shuffle _ => True
  | ExtractElement => exists c e, index (input o) 0 = Ok c /\ cv_element c (-1) = Ok e /\ output o = e_class e
  | ExtractValue is_ => exists c e, index (input o) 0 = Ok c /\ element_at c 0 is_ = Ok e /\ output o = e_class e
  | InsertElement | InsertValue _ => index (input o) 0 = Ok (output o)
  | Select => index (input o) 1 = Ok (output o) /\ index (input o) 2 = Ok (output o)
  end.

(** What typing relies on of the class table: widths are [u64], integers,
    floats and pointers are as wide as they say, and [compile_operation] relates
    the classes of an operation as [op_ok] says. *)
Class TypeLaws : Prop := {
  tl_elements :: ElementLaws TV;
  tl_layout : forall c l, cv_layout c = Ok l -> 0 <= Layout.bits l < 2 ^ 64;
  tl_get : forall t c, tv_get t = Ok c -> is_ok (cv_layout c) = true;
  tl_int : forall b c, tv_get (IntegerType b) = Ok c -> has_width c b;
  tl_single : forall c, tv_get (FPTypeT Single) = Ok c -> has_width c 32;
  tl_double : forall c, tv_get (FPTypeT Double) = Ok c -> has_width c 64;
  tl_ptr : forall c p, tv_ptr c = Ok p -> has_width p 64;
  tl_operation : forall name cs o, tv_operation name cs = Ok o -> name <> GetElementPtr -> input o = cs /\ op_ok o
}.
End Typed.
Arguments TypeLaws TV : clear implicits.

Lemma index_Forall2 {A B} (P : A -> B -> Prop) l k i a :
  Forall2 P l k -> index l i = Ok a -> exists b, index k i = Ok b /\ P a b.
Proof.
  unfold index, zget. intros HF. destruct (0 <=? i); [|done].
  destruct (l !! Z.to_nat i) as [x|] eqn:E; [|done]. intros [= <-].
  destruct (Forall2_lookup_l _ _ _ _ _ HF E) as (b & -> & ?). by exists b.
Qed.

Section Preservation.
Context {BV : Bitvec} {BL : BitvecLaws} {TV : TypeMapView} {TL : TypeLaws TV}.
Implicit Types (o : COperation) (vs : list Value) (v r : Value) (c : Class).

Lemma typed_wf v c : typed v c -> wf v.
Proof. by intros (l & _ & ? & _). Qed.

Lemma typed_bits v c l : typed v c -> cv_layout c = Ok l -> bits v = Layout.bits l.
Proof. intros (l' & Hl' & _ & ->) Hl. congruence. Qed.

Lemma typed_width v c n : wf v -> bits v = n -> has_width c n -> typed v c.
Proof. intros Hv Hb (l & Hl & Hn). exists l. split_and!; [done|done|congruence]. Qed.

Lemma typed_zero l v c : cv_layout c = Ok l -> Value.zero (Layout.bits l) = Ok v -> typed v c.
Proof.
  intros Hl Hz. destruct (zero_inv _ _ Hz) as [??]; [by eapply tl_layout|]. by exists l.
Qed.

Lemma typed_list_wf vs cs : Forall2 typed vs cs -> Forall wf vs.
Proof. induction 1; constructor; eauto using typed_wf. Qed.

Lemma index_typed vs cs i v c : Forall2 typed vs cs -> index vs i = Ok v -> index cs i = Ok c -> typed v c.
Proof. intros HF Hv Hc. destruct (index_Forall2 _ _ _ _ _ HF Hv) as (c' & ? & ?). congruence. Qed.

Lemma index_wf vs i v : Forall wf vs -> index vs i = Ok v -> wf v.
Proof.
  unfold index, zget. intros HF. destruct (0 <=? i); [|done]. destruct (vs !! Z.to_nat i) as [x|] eqn:E; [|done].
  intros [= <-]. by eapply Forall_lookup_1.
Qed.

Lemma scalar_wf o vs r : call_scalar o vs = Ok r -> Forall wf vs -> wf r.
Proof.
  intros Hr HF. unfold call_scalar in Hr.
  assert (forall c (f : Value -> Z -> res Value), (forall v l, f v (Layout.bits l) = Ok r -> wf v -> 0 <= Layout.bits l -> wf r) ->
    (let! v := index vs 0 in let! l := cv_layout c in f v (Layout.bits l)) = Ok r -> wf r) as Hcast.
  { intros c f Hf (v & Hv & (l & Hl & Hc)%bind_Ok)%bind_Ok. eapply Hf; [done|by eapply index_wf|by eapply tl_layout]. }
  assert (forall op, (let! v1 := index vs 0 in let! v2 := index vs 1 in call_scalar_binop op v1 v2) = Ok r -> wf r) as Hbin.
  { intros op (v1 & Hv1 & (v2 & Hv2 & Hc)%bind_Ok)%bind_Ok.
    by apply binop_inv in Hc as [? _]; [|eapply index_wf..]. }
  destruct (name o); try discriminate Hr; try (by eapply Hbin).
  - apply bind_Ok in Hr as (v & Hv & (l & Hl & Hc)%bind_Ok).
    eapply ucast_inv in Hc as [? _]; [done|by eapply index_wf|by eapply tl_layout].
  - apply bind_Ok in Hr as (v & Hv & (l & Hl & Hc)%bind_Ok).
    eapply ucast_inv in Hc as [? _]; [done|by eapply index_wf|by eapply tl_layout].
  - apply bind_Ok in Hr as (v & Hv & (l & Hl & Hc)%bind_Ok).
    apply sext_inv in Hc as [? _]; [done|by eapply index_wf].
Qed.

Lemma extract_wf v c i r : extract v c i = Ok r -> wf v -> wf r.
Proof.
  unfold extract. intros (e & He & (l & Hl & Hr)%bind_Ok)%bind_Ok Hv.
  apply extract_bits_inv in Hr as [? _]; [done|done|by eapply tl_layout].
Qed.

Lemma insert_keeps v c i x r n : insert v c i x = Ok r -> wf v /\ bits v = n -> wf x -> wf r /\ bits r = n.
Proof.
  unfold insert. intros (e & He & (l & Hl & (_ & _ & Hr)%bind_Ok)%bind_Ok)%bind_Ok [Hv <-] Hx.
  by eapply insert_bits_inv.
Qed.

(** The fold of the vector, shuffle and aggregate operations from zero bits. *)
Lemma fold_typed {A} (f : Value -> A -> res Value) (l : list A) c lay z r :
  cv_layout c = Ok lay -> Value.zero (Layout.bits lay) = Ok z -> foldM f z l = Ok r ->
  (forall v a r n, a ∈ l -> f v a = Ok r -> wf v /\ bits v = n -> wf r /\ bits r = n) -> typed r c.
Proof.
  intros Hl Hz Hf Hstep. pose proof (typed_zero _ _ _ Hl Hz) as (l' & Hl' & Hw & Hb).
  assert (l' = lay) as -> by congruence. exists lay. split; [done|].
  apply (foldM_ind f (fun v => wf v /\ bits v = Layout.bits lay) l z r); [done| |done].
  intros s a s' Ha Hs Hst. by eapply Hstep.
Qed.

Lemma index_elem {A} (l : list A) i a : index l i = Ok a -> a ∈ l.
Proof.
  unfold index, zget. destruct (0 <=? i); [|done]. destruct (l !! Z.to_nat i) eqn:E; [|done].
  intros [= <-]. by eapply list_elem_of_lookup_2.
Qed.

Lemma binop_typed op o vs r :
  Forall2 typed vs (input o) ->
  (let! v1 := index vs 0 in let! v2 := index vs 1 in call_scalar_binop op v1 v2) = Ok r ->
  match op with ICmp _ => has_width (output o) 1 | _ => forall c, c ∈ input o -> c = output o end ->
  typed r (output o).
Proof.
  intros HF (v1 & Hv1 & (v2 & Hv2 & Hr)%bind_Ok)%bind_Ok Hop.
  destruct (index_Forall2 _ _ _ _ _ HF Hv1) as (c1 & Hc1 & Ht1).
  destruct (index_Forall2 _ _ _ _ _ HF Hv2) as (c2 & Hc2 & Ht2).
  apply binop_inv in Hr as [Hw Hb]; [|by eapply typed_wf..].
  destruct op; simpl in Hb; try (by eapply typed_width);
    rewrite (Hop c1) in Ht1 by (by eapply index_elem);
    try (destruct Ht1 as (l & ? & _ & ?); exists l; split_and!; [done|done|congruence]).
  rewrite (Hop c2) in Ht2 by (by eapply index_elem).
  destruct Ht2 as (l & ? & _ & ?). exists l. split_and!; [done|done|congruence].
Qed.

Lemma scalar_typed o vs r :
  op_ok o -> ~ no_scalar (output o) -> Forall2 typed vs (input o) -> call_scalar o vs = Ok r -> typed r (output o).
Proof.
  intros Hok Hns HF Hr. pose proof (typed_list_wf _ _ HF) as Hwf. unfold call_scalar in Hr. unfold op_ok in Hok.
  destruct (name o) eqn:En; try discriminate Hr;
    try (eapply binop_typed; [exact HF|exact Hr|]; exact Hok);
    try (eapply binop_typed; [exact HF|exact Hr|]; by destruct Hok).
  all: destruct Hok as [->|]; [|done]; apply bind_Ok in Hr as (v & Hv & (l & Hl & Hr)%bind_Ok).
  - apply ucast_inv in Hr as [? ?]; [by exists l|by eapply index_wf|by eapply tl_layout].
  - apply ucast_inv in Hr as [? ?]; [by exists l|by eapply index_wf|by eapply tl_layout].
  - apply sext_inv in Hr as [? ?]; [by exists l|by eapply index_wf].
Qed.

Lemma lanes_wf cs vs i lane :
  mapM (fun x : Class * Value => extract x.2 x.1 i) (zip cs vs) = Ok lane -> Forall wf vs -> Forall wf lane.
Proof.
  intros Hl%mapM_Ok_Forall2 Hwf. revert cs lane Hl.
  induction Hwf as [|v vs Hv HF IH]; intros [|c cs] lane Hl; inversion Hl; subst; constructor.
  - by eapply extract_wf.
  - by eapply IH.
Qed.

Lemma simple_typed o vs r :
  op_ok o -> Forall2 typed vs (input o) -> call_simple o vs = Ok r -> typed r (output o).
Proof.
  intros Hok HF Hr. unfold call_simple in Hr. apply bind_Ok in Hr as (k & Hk & Hr).
  destruct k as [|b|p|f|? ? ?|e n|? ?|? ?]; try discriminate Hr;
    try (apply (scalar_typed o vs r Hok); [intros Hn; apply (Hn _ Hk)|done|done]).
  apply bind_Ok in Hr as (l & Hl & (z & Hz & Hr)%bind_Ok). eapply fold_typed; [exact Hl|exact Hz|exact Hr|].
  intros v i r' m _ Hc Hv. apply bind_Ok in Hc as (lane & Hlane & (x & Hx & Hi)%bind_Ok).
  eapply insert_keeps; [exact Hi|done|]. eapply scalar_wf; [exact Hx|].
  eapply lanes_wf; [exact Hlane|]. by eapply typed_list_wf.
Qed.

Lemma shuffle_typed o is_ vs r : Forall wf vs -> call_shuffle o is_ vs = Ok r -> typed r (output o).
Proof.
  intros Hwf Hr. unfold call_shuffle in Hr.
  apply bind_Ok in Hr as (c0 & _ & (c1 & _ & (k0 & _ & (k1 & _ & Hr)%bind_Ok)%bind_Ok)%bind_Ok).
  destruct k0 as [| | | | |e n| |]; try discriminate Hr. destruct k1; try discriminate Hr.
  apply bind_Ok in Hr as (l & Hl & (z & Hz & Hr)%bind_Ok). eapply fold_typed; [exact Hl|exact Hz|exact Hr|].
  intros v [wi ri] r' m _ Hc Hv. apply bind_Ok in Hc as (v0 & Hv0 & (x & Hx & Hi)%bind_Ok).
  eapply insert_keeps; [exact Hi|done|]. pose proof (index_wf _ _ _ Hwf Hv0).
  destruct (ri <? to_signed 64 n); [by eapply extract_wf|].
  apply bind_Ok in Hx as (ri' & _ & Hx). by eapply extract_wf.
Qed.

Lemma extracted_typed v c off l r :
  wf v -> cv_layout c = Ok l -> extract_bits v off (Layout.bits l) = Ok r -> typed r c.
Proof. intros Hv Hl Hr. apply extract_bits_inv in Hr as [? ?]; [by exists l|done|by eapply tl_layout]. Qed.

Lemma inserted_typed v c off x r : typed v c -> wf x -> insert_bits v off x = Ok r -> typed r c.
Proof. intros (l & Hl & Hv & Hb) Hx Hr. apply insert_bits_inv in Hr as [? Hr]; [exists l; split_and!; [done|done|congruence]|done|done]. Qed.

Lemma aggregate_typed c vs r : Forall wf vs -> aggregate c vs = Ok r -> typed r c.
Proof.
  intros Hwf Hr. unfold aggregate in Hr. apply bind_Ok in Hr as (l & Hl & (z & Hz & Hr)%bind_Ok).
  eapply fold_typed; [exact Hl|exact Hz|exact Hr|]. intros v [i x] r' m Hin Hc [Hv <-].
  apply bind_Ok in Hc as (e & _ & Hi). eapply insert_bits_inv; [exact Hi|done|].
  unfold enumerate in Hin. apply elem_of_zip_r in Hin. rewrite Forall_forall in Hwf. by apply Hwf.
Qed.

(** A result is typed by the output class. *)
Lemma operation_typed o vs r :
  op_ok o -> Forall2 typed vs (input o) -> call_operation o vs = Ok r -> typed r (output o).
Proof.
  intros Hok HF Hr. pose proof (typed_list_wf _ _ HF) as Hwf. unfold call_operation in Hr.
  destruct (name o) eqn:En; try (by eapply simple_typed); unfold op_ok in Hok; rewrite En in Hok.
  - (* getelementptr *)
    apply bind_Ok in Hr as (c & _ & (v & Hv & (js & _ & (e & _ & (u & _ & (l & Hl & (a & Ha & Hr)%bind_Ok)%bind_Ok)%bind_Ok)%bind_Ok)%bind_Ok)%bind_Ok).
    apply new_inv in Hr as [??]; [by exists l|by eapply tl_layout|].
    unfold add_u64_i64 in Ha. destruct (_ <? 0); res_inv; chk_inv; lia.
  - (* extractelement *)
    destruct Hok as (c & e & Hc & He & ->).
    apply bind_Ok in Hr as (c' & Hc' & (v & Hv & (x & _ & (i & Hi & (e' & He' & (l & Hl & Hr)%bind_Ok)%bind_Ok)%bind_Ok)%bind_Ok)%bind_Ok).
    assert (c' = c) as -> by congruence. rewrite (element_class c i e e' He He').
    eapply extracted_typed; [|exact Hl|exact Hr]. by eapply index_wf.
  - (* extractvalue *)
    destruct Hok as (c & e & Hc & He & ->).
    apply bind_Ok in Hr as (c' & Hc' & (v & Hv & (e' & He' & (l & Hl & Hr)%bind_Ok)%bind_Ok)%bind_Ok).
    assert (e' = e) as -> by congruence. eapply extracted_typed; [|exact Hl|exact Hr]. by eapply index_wf.
  - (* insertelement *)
    apply bind_Ok in Hr as (c & Hc & (x & _ & (i & _ & (e & _ & (v & Hv & (y & Hy & Hr)%bind_Ok)%bind_Ok)%bind_Ok)%bind_Ok)%bind_Ok).
    eapply inserted_typed; [|by eapply index_wf|exact Hr]. by eapply index_typed.
  - (* insertvalue *)
    apply bind_Ok in Hr as (c & Hc & (e & _ & (v & Hv & (y & Hy & Hr)%bind_Ok)%bind_Ok)%bind_Ok).
    eapply inserted_typed; [|by eapply index_wf|exact Hr]. by eapply index_typed.
  - by eapply shuffle_typed.
  - (* bitcast *)
    apply bind_Ok in Hr as (v & Hv & (l & Hl & Hr)%bind_Ok). rewrite Hok.
    apply ucast_inv in Hr as [??]; [by exists l|by eapply index_wf|by eapply tl_layout].
  - (* select *)
    apply bind_Ok in Hr as (b & _ & (b' & _ & Hr)%bind_Ok). destruct Hok as [H1 H2].
    destruct b'; by eapply index_typed.
  - rewrite Hok. by eapply aggregate_typed.
Qed.
End Preservation.

(** ** Constants *)

(** The integers of a constant are [u64]s, as in llvm-ir. *)
Fixpoint const_u64 (c : Constant) : bool :=
  match c with
  | ConstInt _ v => in_u 64 v
  | ConstCast _ c _ => const_u64 c
  | ConstStruct _ cs _ | ConstArray _ cs | ConstVector cs => forallb const_u64 cs
  | ConstGetElementPtr a cs => const_u64 a && forallb const_u64 cs
  | ConstSelect a b c => const_u64 a && (const_u64 b && const_u64 c)
  | ConstBinOp _ a b | ConstICmp _ a b | ConstFCmp _ a b => const_u64 a && const_u64 b
  | _ => true
  end.

Section Constants.
Context {BV : Bitvec} {BL : BitvecLaws} {TV : TypeMapView} {TL : TypeLaws TV}.
Context (moduleid : Z) (symbols : SymbolTable).

(** An expression that fits together: its constants are typed, its operations get
    what they are compiled for. *)
Inductive expr_ok : CExpr -> Prop :=
  | ok_const c v : typed v c -> expr_ok (EConst c v)
  | ok_thread_local c key : has_width c 64 -> expr_ok (EThreadLocal c key)
  | ok_apply o args : op_ok o -> input o = expr_class <$> args -> Forall expr_ok args -> expr_ok (EApply o args).

Lemma all_const_typed args vs : all_const args = Some vs -> Forall expr_ok args -> Forall2 typed vs (expr_class <$> args).
Proof.
  intros Ha HF. revert vs Ha. induction HF as [|a args Hok HF IH]; intros vs Ha; simpl in Ha; [injection Ha as <-; constructor|].
  destruct (as_const a) as [[c v]|] eqn:E; [|done]. destruct (all_const args) as [us|]; [|done]. injection Ha as <-.
  destruct a; simplify_eq/=. constructor; [by inversion Hok|by apply IH].
Qed.

Lemma reduce_root_ok e e' : reduce_root e = Ok e' -> expr_ok e -> expr_ok e' /\ expr_class e' = expr_class e.
Proof.
  intros Hr Hok. destruct e as [c v|c k|o args]; [by injection Hr as <-..|]. simpl in Hr.
  destruct (all_const args) as [vs|] eqn:E; [|by injection Hr as <-].
  apply bind_Ok in Hr as (v & Hv & [= <-]). inversion Hok as [| |? ? Ho Hi HF]; subst. split; [|done]. constructor.
  eapply operation_typed; [exact Ho| |exact Hv]. rewrite Hi. by apply all_const_typed.
Qed.

Lemma apply_ok name args e : apply_ name args = Ok e -> name <> GetElementPtr -> Forall expr_ok args -> expr_ok e.
Proof.
  unfold apply_. intros (o & Ho & [= <-])%bind_Ok Hn HF. destruct (tl_operation _ _ _ Ho Hn) as [Hi Hop]. by constructor.
Qed.

Lemma addr_typed p v c : addr p = Ok v -> has_width c 64 -> typed v c.
Proof.
  unfold addr. intros Hv Hc. res_inv.
  repeat match goal with H : Value.from_int _ _ = Ok _ |- _ => apply from_int_inv in H as [??]; [|lia] end.
  by eapply typed_width.
Qed.

Definition const_ok (c : Constant) : Prop :=
  const_u64 c -> forall e, compile_const moduleid symbols c = Ok e -> expr_ok e.

Lemma const_ok_impl c :
  (const_u64 c -> forall e, compile_const_impl moduleid symbols c = Ok e -> expr_ok e) -> const_ok c.
Proof. intros H Hu e (r & Hr & He)%bind_Ok. by eapply reduce_root_ok; [|apply H]. Qed.

Lemma consts_ok cs es :
  Forall const_ok cs -> forallb const_u64 cs -> mapM (compile_const moduleid symbols) cs = Ok es -> Forall expr_ok es.
Proof.
  intros HF Hu Hes%mapM_Ok_Forall2. revert es Hes. induction HF as [|c cs Hc HF IH]; intros es Hes; inversion Hes; subst; constructor.
  - eapply Hc; [|done]. simpl in Hu. by apply andb_prop_elim in Hu as [? _].
  - apply IH; [|done]. simpl in Hu. by apply andb_prop_elim in Hu as [_ ?].
Qed.

Lemma zero_const_ok t e : zero_const t = Ok e -> expr_ok e.
Proof. intros (c & Hc & (l & Hl & (v & Hv & [= <-])%bind_Ok)%bind_Ok)%bind_Ok. constructor. by eapply typed_zero. Qed.

Lemma int_typed b v c : from_int b v = Ok c -> forall k, has_width k b -> typed c k.
Proof.
  intros Hv k Hk. pose proof Hk as (l & Hl & Hb). apply from_int_inv in Hv as [??]; [by eapply typed_width|].
  rewrite <- Hb. by eapply tl_layout.
Qed.

(** Opens the steps of a compilation that returned, and the conjunctions of [const_u64]. *)
Ltac steps :=
  repeat match goal with
  | H : bind (compile_const_impl _ _ ?c) (fun r => reduce_root r) = Ok ?e |- _ =>
      change (compile_const moduleid symbols c = Ok e) in H
  | H : bind _ _ = Ok _ |- _ => apply bind_Ok in H as (? & ? & H)
  | H : Is_true (_ && _) |- _ => apply andb_prop_elim in H as [? ?]
  end;
  repeat match goal with
  | H : const_ok ?c, Hu : Is_true (const_u64 ?c), Hc : compile_const _ _ ?c = Ok ?e |- _ =>
      specialize (H Hu e Hc); clear Hu Hc
  | H : Forall (fun c => const_ok c) ?cs, Hu : Is_true (forallb const_u64 ?cs), Hc : mapM _ ?cs = Ok ?es |- _ =>
      pose proof (consts_ok cs es H Hu Hc); clear H Hu Hc
  end.

Lemma all_ok c : const_ok c.
Proof.
  induction c using Constant_nested_ind; apply const_ok_impl; intros Hu e He; cbn [compile_const_impl const_u64] in *;
    try discriminate He.
  - steps. injection He as <-. constructor. unfold in_u in Hu. apply Is_true_true in Hu. zb.
    pose proof (tl_int _ _ H) as (l & Hl & Hb). apply new_inv in H0 as [??]; [by exists l; split_and!; [..|congruence]| |lia].
    rewrite <- Hb. by eapply tl_layout.
  - destruct (const_cast op) eqn:E; [|done]. steps. eapply apply_ok; [exact He|by destruct op|by constructor].
  - unfold global_const in He. steps. destruct x0 as [g|key]; [|injection He as <-; constructor; by eapply tl_ptr].
    steps. injection He as <-. constructor. eapply addr_typed; [done|]. by eapply tl_ptr.
  - by eapply zero_const_ok.
  - by eapply zero_const_ok.
  - by eapply zero_const_ok.
  - fold (compile_const moduleid symbols) in He. steps. by eapply apply_ok.
  - fold (compile_const moduleid symbols) in He. steps. by eapply apply_ok.
  - fold (compile_const moduleid symbols) in He. steps. by eapply apply_ok.
  - fold (compile_const moduleid symbols) in He. steps. unfold gep_expr in He. steps. injection He as <-.
    constructor; [done|done|by constructor].
  - steps. eapply apply_ok; [done|done|by repeat constructor].
  - unfold float_const in He. destruct f; try discriminate He; steps; injection He as <-; constructor;
      eapply int_typed; try done; [by apply tl_single|by apply tl_double].
  - steps. eapply apply_ok; [done|by destruct op|by repeat constructor].
  - steps. eapply apply_ok; [done|done|by repeat constructor].
  - steps. eapply apply_ok; [done|done|by repeat constructor].
Qed.
End Constants.

(** ** Evaluation *)

Section Evaluation.
Context {BV : Bitvec} {BL : BitvecLaws} {TV : TypeMapView} {TL : TypeLaws TV}.
Context {W : Type} (tl : Z -> W -> res (Z * W)).

Lemma eval_typed e w v w' : expr_ok e -> eval tl e w = Ok (v, w') -> typed v (expr_class e).
Proof.
  revert w v w'. induction e as [c v0|c k|o args IH] using CExpr_nested_ind; intros w v w' Hok He; cbn [eval expr_class] in *.
  - injection He as <- <-. by inversion Hok.
  - apply bind_Ok in He as ([p w1] & _ & (x & Hx & [= <- <-])%bind_Ok). inversion Hok; subst. by eapply addr_typed.
  - apply bind_Ok in He as ([vs w1] & Hvs & (x & Hx & [= <- <-])%bind_Ok).
    inversion Hok as [| |? ? Ho Hi HF]; subst. eapply operation_typed; [exact Ho| |exact Hx]. rewrite Hi.
    clear Hx Ho Hi Hok. revert w vs Hvs HF. induction IH as [|a args Ha _ IHargs]; intros w vs Hvs HF; cbn [smapM] in Hvs.
    { injection Hvs as <- <-. constructor. }
    apply bind_Ok in Hvs as ([y w2] & Hy & ([ys w3] & Hys & [= <- <-])%bind_Ok).
    apply Forall_cons in HF as [Hoka HF]. constructor; [by eapply Ha|by eapply IHargs].
Qed.
End Evaluation.

(** ** A class table satisfies the laws *)

(** Every class has been forced, widths are [u64], and [i1] is there. *)
Definition forced_table (tm : TypeMap) : bool :=
  forallb (fun cx : Class * Cell => match cx.2 with Forced i => in_u 64 (Layout.bits (layout i)) | _ => false end)
    (map_to_list (cells tm)) &&
  match assoc (IntegerType 1) (table tm) with Some _ => true | None => false end.

Section Forced.
Context (env : gmap string Typ) (fuel : nat) (named : string -> option Typ) (tm : TypeMap).
Hypothesis Hok : tm_ok env 64 tm.
Hypothesis Hf : forced_table tm = true.
Implicit Types (c : Class) (t : Typ).
#[local] Instance forced_view : TypeMapView := type_view fuel named tm.

Lemma forced_cell c x : cells tm !! c = Some x -> exists i, x = Forced i /\ 0 <= Layout.bits (layout i) < 2 ^ 64.
Proof.
  intros Hc. unfold forced_table in Hf. apply andb_true_iff in Hf as [Hall _]. rewrite forallb_forall in Hall.
  specialize (Hall (c, x)). simpl in Hall. destruct x as [t|t|i]; [exfalso..|]; try by
    (assert (false = true) by (apply Hall, list_elem_of_In, elem_of_map_to_list, Hc)).
  exists i. split; [done|]. assert (in_u 64 (Layout.bits (layout i)) = true) as Hu.
  { apply Hall, list_elem_of_In, elem_of_map_to_list, Hc. }
  unfold in_u in Hu. zb. lia.
Qed.

Lemma forced_force c i tm' : force fuel c tm = Ok (i, tm') -> cells tm !! c = Some (Forced i) /\ tm' = tm.
Proof.
  destruct fuel as [|f]; [done|]. cbn [force]. destruct (cells tm !! c) as [x|] eqn:E; [|done].
  destruct (forced_cell c x E) as (j & -> & _). by intros [= -> ->].
Qed.

Lemma forced_has c t : (0 < fuel)%nat -> has_typ env tm c t ->
  exists i, force fuel c tm = Ok (i, tm) /\ typ i = resolve env t.
Proof.
  intros Hn (x & Hx & Ht). destruct (forced_cell c x Hx) as (i & -> & _). exists i. split; [|done].
  destruct fuel as [|f]; [lia|]. cbn [force]. by rewrite Hx.
Qed.

Lemma forced_layout c l tm' : class_layout fuel c tm = Ok (l, tm') ->
  exists i, cells tm !! c = Some (Forced i) /\ layout i = l /\ tm' = tm.
Proof. intros ([i tm1] & [Hi ->]%forced_force & [= <- <-])%bind_Ok. by exists i. Qed.

Lemma forced_kind c k tm' : class_kind fuel c tm = Ok (k, tm') ->
  exists i, cells tm !! c = Some (Forced i) /\ kind i = k /\ tm' = tm.
Proof. intros ([i tm1] & [Hi ->]%forced_force & [= <- <-])%bind_Ok. by exists i. Qed.

Lemma forced_element c x e tm' : element fuel c x tm = Ok (e, tm') -> cv_element c x = Ok e /\ tm' = tm.
Proof.
  intros He. split; [cbn; by rewrite He|]. unfold element in He.
  apply bind_Ok in He as ([k tm1] & (i & _ & _ & ->)%forced_kind & He).
  destruct k; try discriminate He;
    try (apply bind_Ok in He as ([l tm2] & (? & _ & _ & ->)%forced_layout & He)); by res_inv.
Qed.

Lemma forced_elements c off is_ e tm' :
  element_rec_from fuel c off is_ tm = Ok (e, tm') -> element_at c off is_ = Ok e /\ tm' = tm.
Proof.
  revert c off. induction is_ as [|x is_ IH]; intros c off He; cbn [element_rec_from element_at] in *.
  { by injection He as <- <-. }
  apply bind_Ok in He as ([e1 tm1] & [-> ->]%forced_element & (o & Ho & He)%bind_Ok).
  cbn [bind]. rewrite Ho. by apply IH.
Qed.

(** A class of a type has what the type says. *)
Lemma typ_class c t i : cells tm !! c = Some (Forced i) -> has_typ env tm c t ->
  typ i = resolve env t /\ (exists n, tlayout env 64 n (resolve env t) = Ok (layout i)) /\ kind_ok env 64 tm (resolve env t) (kind i).
Proof.
  intros Hc (x & Hx & Ht). rewrite Hx in Hc. injection Hc as ->. simpl in Ht. destruct Hok as (_ & _ & _ & _ & _ & Hcells & _).
  destruct (Hcells _ _ Hx) as [Hl Hk]. rewrite Ht in *. done.
Qed.

Lemma typ_width c t n : (0 < fuel)%nat -> has_typ env tm c t -> resolve env t = t ->
  (forall k l, tlayout env 64 k t = Ok l -> Layout.bits l = n) -> has_width c n.
Proof.
  intros Hn Hc Hr Hl. destruct (forced_has c t Hn Hc) as (i & Hi & _). pose proof (forced_force _ _ _ Hi) as [Hci _].
  destruct (typ_class c t i Hci Hc) as (_ & (k & Hk) & _). rewrite Hr in Hk.
  exists (layout i). split; [cbn; unfold class_layout; by rewrite Hi|]. by eapply Hl.
Qed.

Lemma known_typ t c : unwrap (assoc t (table tm)) = Ok c -> has_typ env tm c t.
Proof. intros Hc%unwrap_Ok. destruct Hok as (_ & _ & Ht & _). by apply Ht. Qed.

(** The class of a vector type is not scalar. *)
Lemma vector_no_scalar e n c tm' : vector_class fuel e n tm = Ok (c, tm') -> no_scalar c.
Proof.
  intros ([i tm1] & [Hi ->]%forced_force & Hg)%bind_Ok k Hk. injection Hg as Hg. cbn in Hk.
  apply bind_Ok in Hk as ([k' tm2] & (j & Hj & Hjk & ->)%forced_kind & Hk). injection Hk as ->.
  destruct (get_spec env 64 (VectorType (typ i) n) tm Hok) as (c' & tm3 & Hg' & _ & (_ & He & _) & _ & _ & x & Hx & Hxt).
  rewrite Hg in Hg'. injection Hg' as -> ->. destruct Hok as (_ & _ & _ & _ & _ & Hcells & _).
  destruct (Hcells _ _ Hj) as [_ Hkind]. apply He in Hj as (x' & Hx' & _ & ->).
  rewrite Hx in Hx'. injection Hx' as ->. simpl in Hxt. rewrite Hxt in Hkind. destruct Hkind as (c1 & Hk1 & _).
  rewrite <- Hjk, Hk1. done.
Qed.

Lemma of_int_bits b l : of_int b = Ok l -> Layout.bits l = b.
Proof. unfold of_int, Layout.from_bits. intros H. by res_inv. Qed.

Lemma bool_known : exists c, assoc (IntegerType 1) (table tm) = Some c /\ Operation.bool_class tm = (c, tm).
Proof.
  unfold forced_table in Hf. apply andb_true_iff in Hf as [_ Hb]. unfold Operation.bool_class, get.
  destruct (assoc (IntegerType 1) (table tm)) as [c|]; [|done]. by exists c.
Qed.

Hypothesis Hfuel : (0 < fuel)%nat.

Lemma int_width_class b c : assoc (IntegerType b) (table tm) = Some c -> has_width c b.
Proof.
  intros Hc. apply (typ_width c (IntegerType b) b Hfuel); [|done|].
  - apply known_typ. by rewrite Hc.
  - intros [|k] l Hl; [done|]. by apply of_int_bits.
Qed.

(** [compile_operation] keeps the table and relates the classes. *)
Lemma operation_ok name cs o :
  tv_operation name cs = Ok o -> name <> GetElementPtr -> input o = cs /\ op_ok o.
Proof.
  intros Ho Hn. cbn in Ho. apply bind_Ok in Ho as ([o' tm'] & Ho & [= ->]).
  unfold compile_operation in Ho. apply bind_Ok in Ho as ([out tm1] & Hout & [= <- <-]). split; [done|].
  unfold op_ok. cbn [Operation.name input output].
  assert (forall d : Class, (let! c := index cs 0 in let! (k, tm) := class_kind fuel c tm in
      match k with VectorClass _ len => vector_class fuel d len tm | _ => Ok (d, tm) end) = Ok (out, tm1) ->
      out = d \/ no_scalar out) as Hcast.
  { intros d (c & _ & ([k tm2] & (i & _ & _ & ->)%forced_kind & Hk)%bind_Ok)%bind_Ok.
    destruct k; try (injection Hk as <- _; by left). right. by eapply vector_no_scalar. }
  assert ((let! c := index cs 0 in let! (k, tm) := class_kind fuel c tm in
      match k with
      | VectorClass _ len => let '(b, tm) := Operation.bool_class tm in vector_class fuel b len tm
      | _ => Ok (Operation.bool_class tm)
      end) = Ok (out, tm1) -> has_width out 1 \/ no_scalar out) as Hcmp.
  { intros (c & _ & ([k tm2] & (i & _ & _ & ->)%forced_kind & Hk)%bind_Ok)%bind_Ok.
    destruct bool_known as (b & Hb & Hbc). rewrite Hbc in Hk.
    destruct k; try (injection Hk as <- _; left; by apply int_width_class). right. by eapply vector_no_scalar. }
  assert ((assert! all_equal cs or AssertFailed in let! c := index cs 0 in Ok (c, tm)) = Ok (out, tm1) ->
      forall c, c ∈ cs -> c = out) as Hsame.
  { intros (_ & Heq%guard_Ok & (c & Hc & [= <- _])%bind_Ok)%bind_Ok d Hd. destruct cs as [|c0 cs]; [done|].
    injection Hc as ->. apply elem_of_cons in Hd as [->|Hd]; [done|]. simpl in Heq. rewrite forallb_forall in Heq.
    apply Z.eqb_eq, Heq. by apply list_elem_of_In. }
  destruct name; try done; try (by apply Hsame); try (by apply Hcast); try (by apply Hcmp).
  - apply bind_Ok in Hout as (c & Hc & ([e tm2] & [He ->]%forced_element & Hout)%bind_Ok). injection Hout as <- _.
    by exists c, e.
  - apply bind_Ok in Hout as (c & Hc & ([e tm2] & [He ->]%forced_elements & Hout)%bind_Ok). injection Hout as <- _.
    by exists c, e.
  - by apply bind_Ok in Hout as (c & Hc & [= <- _]).
  - by apply bind_Ok in Hout as (c & Hc & [= <- _]).
  - by injection Hout as <- _.
  - apply bind_Ok in Hout as (c1 & Hc1 & (c2 & Hc2 & (u & ->%guard_Ok%Z.eqb_eq & [= <- _])%bind_Ok)%bind_Ok). done.
  - by injection Hout as <- _.
Qed.

(** The interface holds of any such table. *)
Lemma type_view_typed : small_structs fuel tm = true -> TypeLaws forced_view.
Proof.
  intros Hs. constructor.
  - by apply type_view_elements.
  - intros c l Hl. cbn in Hl. apply bind_Ok in Hl as ([l' tm'] & (i & Hi & <- & _)%forced_layout & Hl). injection Hl as <-.
    destruct (forced_cell _ _ Hi) as (j & Hj & Hb). by injection Hj as <-.
  - intros t c Hc. destruct (forced_has c t Hfuel (known_typ t c Hc)) as (i & Hi & _). cbn. unfold class_layout. by rewrite Hi.
  - intros b c Hc%unwrap_Ok. by apply int_width_class.
  - intros c Hc. apply (typ_width c _ 32 Hfuel (known_typ _ _ Hc) eq_refl). intros [|k] l Hl; [done|]. by apply of_int_bits.
  - intros c Hc. apply (typ_width c _ 64 Hfuel (known_typ _ _ Hc) eq_refl). intros [|k] l Hl; [done|]. by apply of_int_bits.
  - intros c p Hp. cbn in Hp. apply bind_Ok in Hp as ([t tm'] & _ & Hp).
    apply (typ_width p _ 64 Hfuel (known_typ _ _ Hp) eq_refl). intros [|k] l Hl; [done|]. by apply of_int_bits.
  - apply operation_ok.
Qed.
End Forced.

(** A table in which the types [ts] have been used. *)
Definition used_types (ts : list Typ) : TypeMap :=
  match query 5 ts (typemap_new 64) with Ok (_, tm) => tm | Panic _ => typemap_new 64 end.

Lemma used_types_ok ts ls :
  mapM (tlayout ∅ 64 5) ts = Ok ls -> foldr (fun t z => tcost ∅ 5 t + z) 0 ts < 2 ^ 64 -> tm_ok ∅ 64 (used_types ts).
Proof.
  intros Hls Hc. destruct (query_spec ∅ 64 5 5 ts ls (typemap_new 64)) as (tm & Hq & Hok & _); [lia|done| | |done|].
  - apply registered_ok, registered_new.
  - intros c t. simpl. by rewrite lookup_empty.
  - unfold used_types. by rewrite Hq.
Qed.

(** ** Theorems *)

(** C12: Operations keep types. If the classes of a compiled operation fit together
    and the operands are as wide as the input classes say, the result is as wide
    as the output class says, for every operation of the language: scalar and
    lane-wise arithmetic, casts, element access and insertion at any index, and
    aggregates, which never outgrow the value they are written into. *)
Theorem call_operation_typed `{BVL : BitvecLaws} {TV : TypeMapView} {TL : TypeLaws TV}
    (name : COperationName) (o : COperation) (cs : list Class) (vs : list Value) (r : Value) :
  tv_operation name cs = Ok o -> name <> GetElementPtr -> Forall2 typed vs cs ->
  call_operation o vs = Ok r -> typed r (output o).
Proof. intros Ho Hn HF Hr. destruct (tl_operation _ _ _ Ho Hn) as [<- Hok]. by eapply operation_typed. Qed.

(** Constants keep types: whenever a compiled constant, folded or not, is
    evaluated, in whatever state, its value is as wide as the class the compiler
    gave it. *)
Theorem constants_typed `{BVL : BitvecLaws} {TV : TypeMapView} {TL : TypeLaws TV} (moduleid : Z) (symbols : SymbolTable)
    {W : Type} (tl : Z -> W -> res (Z * W)) (c : Constant) (e : CExpr) (w w' : W) (v : Value) :
  const_u64 c -> compile_const moduleid symbols c = Ok e -> eval tl e w = Ok (v, w') -> typed v (expr_class e).
Proof. intros Hu He Hv. eapply eval_typed; [|exact Hv]. by eapply all_ok. Qed.

(** ** Concrete runs *)

(** Vectors of bytes and of booleans, and what addresses of integers need. *)
Definition sample_type_list : list Typ :=
  [IntegerType 1; IntegerType 8; IntegerType 32; IntegerType 64; VectorType (IntegerType 8) 2;
   VectorType (IntegerType 1) 2; PointerType (IntegerType 32)].
Definition sample_typed : TypeMap := used_types sample_type_list.
#[local] Instance sample_typed_view : TypeMapView := type_view 5 (fun _ => None) sample_typed.

Lemma sample_typed_laws : TypeLaws sample_typed_view.
Proof.
  apply (type_view_typed ∅).
  - eapply used_types_ok; [vm_compute; reflexivity|]. vm_compute. reflexivity.
  - vm_compute. reflexivity.
  - lia.
  - vm_compute. reflexivity.
Qed.

Definition byte_vector : Class := match tv_get (VectorType (IntegerType 8) 2) with Ok c => c | Panic _ => 0 end.

(** Comparing <250, 3> with <10, 4>, signed, gives two bits. *)
Lemma call_operation_typed_witness :
  exists o r, tv_operation (ICmp SLT) [byte_vector; byte_vector] = Ok o /\
    call_operation (BV := bitvec_ref) o [MkValue [250; 3] 16; MkValue [10; 4] 16] = Ok r /\
    bits r = 2 /\ imp r = [3] /\ typed r (output o).
Proof.
  eexists _, _. split; [vm_compute; reflexivity|]. split; [vm_compute; reflexivity|].
  split; [reflexivity|]. split; [reflexivity|].
  assert (typed (MkValue [250; 3] 16) byte_vector /\ typed (MkValue [10; 4] 16) byte_vector) as [H1 H2].
  { split; eexists; (split; [vm_compute; reflexivity|]); (split; [|reflexivity]);
      (split_and!; [simpl; lia|simpl; lia|reflexivity|repeat constructor; unfold is_byte; lia]). }
  apply (call_operation_typed (BVL := bitvec_ref_laws) (TL := sample_typed_laws) (ICmp SLT) _ [byte_vector; byte_vector]
    [MkValue [250; 3] 16; MkValue [10; 4] 16]); [vm_compute; reflexivity|discriminate| |vm_compute; reflexivity].
  repeat constructor; assumption.
Defined.

(** The address of a thread-local, as an integer plus 5. *)
Definition sample_typed_const : Constant :=
  ConstBinOp BinAdd (ConstInt 64 5)
    (ConstCast CastPtrToInt (ConstGlobalReference (NameName "t") (IntegerType 32)) (IntegerType 64)).
Definition sample_tls : SymbolTable := MkSymbols {[ External "t" := ThreadLocal 0 ]} ∅ 1.

Lemma constants_typed_witness :
  exists e v, compile_const (BV := bitvec_ref) 0 sample_tls sample_typed_const = Ok e /\ as_const e = None /\
    eval (BV := bitvec_ref) sample_tl e 0 = Ok (v, 1) /\ as_u64 v = 8192 + 5 /\ typed v (expr_class e).
Proof.
  eexists _, _. split; [vm_compute; reflexivity|]. split; [reflexivity|]. split; [vm_compute; reflexivity|].
  split; [reflexivity|].
  apply (constants_typed (BVL := bitvec_ref_laws) (TL := sample_typed_laws) 0 sample_tls sample_tl sample_typed_const _ 0 1);
    [reflexivity|vm_compute; reflexivity|vm_compute; reflexivity].
Defined.
