(* ===== verification/FuncCompiler.v ===== *)
(** * FuncCompiler: src/src/compile/function.rs

    Functions of the program are compiled to blocks whose instructions name
    their values by number ([CLocal]) and whose jumps name blocks by position
    ([CBlockId]). The compiler is a computation on its tables ([St]); constant
    operands become thunks that are ready from the start. The compiled code is
    shown to be the source with every name replaced by its number, instruction by
    instruction and operand by operand. *)

From S2P Require Import Prelude RangeMap MemOrdering Layout Bitvec Value Memory Symbols Classes Operation.
From S2P Require Import Data Local Pipeline Process Flow Expr.

(** ** Functions: the part of llvm_ir the source matches on *)

Inductive Operand :=
  | LocalOperand (name : Name) (ty : Typ)
  | ConstantOperand (c : Constant)
  | MetadataOperand.

Inductive RMWBinOp := RMWXchg | RMWAdd | RMWSub | RMWAnd | RMWOr | RMWXor | RMWFAdd | RMWFSub | OtherRMW.

(** [Phi] is also the record of the instruction. *)
Record Phi := MkPhi { incoming_values : list (Operand * Name); phi_name : Name }.

(** [OtherInstruction] is any instruction that is compiled to [Unknown]; a
    callee is [None] when it is inline assembly. *)
Inductive Instruction :=
  | InstrBinOp (op : BinOp) (operand0 operand1 : Operand) (dest : Name)
  | InstrFNeg (operand : Operand) (dest : Name)
  | InstrCast (op : CastOp) (operand : Operand) (to_type : Typ) (dest : Name)
  | InstrICmp (predicate : IntPredicate) (operand0 operand1 : Operand) (dest : Name)
  | InstrFCmp (predicate : FPPredicate) (operand0 operand1 : Operand) (dest : Name)
  | InstrGetElementPtr (address : Operand) (indices : list Operand) (dest : Name)
  | InstrExtractElement (vector index : Operand) (dest : Name)
  | InstrInsertElement (vector element index : Operand) (dest : Name)
  | InstrShuffleVector (operand0 operand1 : Operand) (dest : Name) (mask : Constant)
  | InstrExtractValue (aggregate : Operand) (indices : list Z) (dest : Name)
  | InstrInsertValue (aggregate element : Operand) (indices : list Z) (dest : Name)
  | InstrSelect (condition true_value false_value : Operand) (dest : Name)
  | InstrPhi (phi : Phi)
  | InstrAlloca (allocated_type : Typ) (num_elements : Operand) (dest : Name) (alignment : Z)
  | InstrLoad (address : Operand) (dest : Name) (atomicity : option Atomicity)
  | InstrStore (address value : Operand) (atomicity : option Atomicity)
  | InstrCmpXchg (address expected replacement : Operand) (dest : Name) (atomicity : Atomicity)
      (failure_memory_ordering : MemoryOrdering) (weak : bool)
  | InstrAtomicRMW (address value : Operand) (dest : Name) (operation : RMWBinOp) (atomicity : Atomicity)
  | InstrFreeze (operand : Operand) (dest : Name)
  | InstrCall (function : option Operand) (arguments : list Operand) (dest : option Name)
  | InstrFence
  | OtherInstruction.

(** [OtherTerminator] is any terminator that is [todo!()]. *)
Inductive Terminator :=
  | TermRet (return_operand : option Operand)
  | TermBr (dest : Name)
  | TermCondBr (condition : Operand) (true_dest false_dest : Name)
  | TermSwitch (operand : Operand) (dests : list (Constant * Name)) (default_dest : Name)
  | TermInvoke (function : option Operand) (arguments : list Operand) (result return_label : Name)
  | TermResume (operand : Operand)
  | TermUnreachable
  | OtherTerminator.

Record BasicBlock := MkBasicBlock { bb_name : Name; bb_instrs : list Instruction; bb_term : Terminator }.

Record Function := MkFunction {
  fn_name : String.string; fn_parameters : list Name; basic_blocks : list BasicBlock
}.

(** ** Compiled functions *)

(** [COperand]; a [CLocal] and a [CBlockId] are their numbers, a thunk its slot. *)
Inductive COperand :=
  | OConstant (class : Class) (thunk : Z)
  | OExpr (e : CExpr)
  | OLocal (class : Class) (local : Z)
  | OInline.

Record CPhi := MkCPhi { phi_dest : Z; phi_mapping : gmap Z COperand }.

Inductive CInstr :=
  | ICompute (dest : Z) (operands : list COperand) (operation : COperation)
  | ICall (dest : option Z) (func : COperand) (arguments : list COperand)
  | IAlloca (dest : Z) (count : COperand) (layout : Layout)
  | ILoad (dest : Z) (address : COperand) (atomicity : Ordering)
  | IStore (address value : COperand) (atomicity : Ordering)
  | ICmpXchg (dest : Z) (address expected replacement : COperand) (success failure : MemoryOrdering)
      (weak : bool)
  | IAtomicRMW (dest : Z) (address value : COperand) (operation : COperation) (atomicity : Ordering)
  | IFreeze
  | IFence
  | IUnknown.

#[export] Instance Value_countable : Countable Value.
Proof.
  apply (inj_countable' (fun v => (imp v, Value.bits v)) (fun x => MkValue x.1 x.2)). by intros [].
Defined.

Inductive CTerm :=
  | TRet (return_operand : COperand)
  | TBr (target : Z)
  | TCondBr (condition : COperand) (true_target false_target : Z)
  | TSwitch (condition : COperand) (targets : gmap Value Z) (default_target : Z)
  | TInvoke (function : COperand) (arguments : list COperand) (dest target : Z)
  | TUnreachable
  | TResume.

Record CBlockInstr := MkBlockInstr { bi_instr : CInstr; bi_frame : BacktraceFrame }.
Record CBlockTerm := MkBlockTerm { bt_term : CTerm; bt_frame : BacktraceFrame }.
Record CBlock := MkBlock {
  blk_id : Z; blk_phis : list CPhi; blk_instrs : list CBlockInstr; blk_term : CBlockTerm
}.

Record CFunc := MkCFunc {
  cf_fp : Z; cf_src : Function; cf_args : list Z; cf_blocks : list CBlock; cf_locals : list Name
}.

(** [COperand::class] *)
Definition operand_class (o : COperand) : res Class :=
  match o with
  | OConstant c _ | OLocal c _ => Ok c
  | OExpr e => Ok (expr_class e)
  | OInline => Panic Todo
  end.

(** ** [FuncCompiler] *)

Section Compile.
Context {BV : Bitvec} {TV : TypeMapView} {X : Type}.
Context (moduleid : Z) (symbols : SymbolTable).
(** The text of an instruction and of a terminator, for the backtrace. *)
Context (show_instr : Instruction -> String.string) (show_term : Terminator -> String.string).

(** The tables of [struct FuncCompiler]; the thunks of constants live in the heap
    of [fc_state], each in a pool of its own, [fc_slot] being the next. *)
Record FuncCompiler := MkFuncCompiler {
  fc_locals : gmap Name Z;
  fc_local_names : list Name;
  fc_block_ids : gmap Name Z;
  fc_state : State X;
  fc_slot : Z
}.

(** [FuncCompiler::new] *)
Definition fc_new (st : State X) (slot : Z) : FuncCompiler := MkFuncCompiler ∅ [] ∅ st slot.

Definition compile_local (name : Name) : St FuncCompiler Z := fun self =>
  match fc_locals self !! name with
  | Some l => Ok (l, self)
  | None =>
      let local := zlen (fc_local_names self) in
      Ok (local, MkFuncCompiler (<[name := local]> (fc_locals self)) (fc_local_names self ++ [name])
                   (fc_block_ids self) (fc_state self) (fc_slot self))
  end.

Definition constant_thunk (value : Value) : St FuncCompiler Z := fun self =>
  let t := fc_slot self in
  Ok (t, MkFuncCompiler (fc_locals self) (fc_local_names self) (fc_block_ids self)
           (thunk_constant t value (fc_state self)) (t + 1)).

(** A loop over a list in the compiler's state. *)
Fixpoint forM {A B} (f : A -> St FuncCompiler B) (l : list A) : St FuncCompiler (list B) :=
  match l with
  | [] => sret []
  | a :: l => let$ b := f a in let$ bs := forM f l in sret (b :: bs)
  end.

Definition unit_operand : St FuncCompiler COperand :=
  let$$ c := tv_get VoidType in
  let$$ u := from_unit in
  let$ t := constant_thunk u in
  sret (OConstant c t).

Definition compile_operand (operand : Operand) : St FuncCompiler COperand :=
  match operand with
  | LocalOperand name ty =>
      let$$ c := tv_get ty in
      let$ l := compile_local name in
      sret (OLocal c l)
  | ConstantOperand expr =>
      let$$ e := compile_const moduleid symbols expr in
      match e with
      | EConst class value => let$ t := constant_thunk value in sret (OConstant class t)
      | cexpr => sret (OExpr cexpr)
      end
  | MetadataOperand => unit_operand
  end.

(** [self.block_ids.get(name).unwrap()] *)
Definition compile_target (name : Name) : St FuncCompiler Z := fun self =>
  match fc_block_ids self !! name with Some b => Ok (b, self) | None => Panic UnwrapFailed end.

(** [HashMap]'s [collect]: of two entries with one key the later stays. *)
Definition collect {K V} `{Countable K} (l : list (K * V)) : gmap K V :=
  fold_left (fun m kv => <[kv.1 := kv.2]> m) l ∅.

Definition compile_phi (phi : Phi) : St FuncCompiler CPhi :=
  let$ dest := compile_local (phi_name phi) in
  let$ mapping := forM (fun '(oper, origin) =>
    let$ b := compile_target origin in
    let$ o := compile_operand oper in
    sret (b, o)) (incoming_values phi) in
  sret (MkCPhi dest (collect mapping)).

(** [FuncCompiler::compile_binop], the name of a binary operation *)
Definition compile_binop (op : BinOp) : COperationName :=
  match op with
  | BinAdd => Add
  | BinSub => Sub
  | BinMul => Mul
  | BinUDiv => UDiv
  | BinSDiv => SDiv
  | BinURem => URem
  | BinSRem => SRem
  | BinAnd => And
  | BinOr => Or
  | BinXor => Xor
  | BinShl => Shl
  | BinLShr => LShr
  | BinAShr => AShr
  | BinFAdd => FAdd
  | BinFSub => FSub
  | BinFMul => FMul
  | BinFDiv => FDiv
  | BinFRem => FRem
  end.

(** [FuncCompiler::compile_cast], the name of a conversion *)
Definition compile_cast (op : CastOp) (target : Class) : COperationName :=
  match op with
  | CastTrunc => Trunc target
  | CastZExt => ZExt target
  | CastSExt => SExt target
  | CastFPTrunc => FPTrunc target
  | CastFPExt => FPExt target
  | CastFPToUI => FPToUI target
  | CastFPToSI => FPToSI target
  | CastUIToFP => UIToFP target
  | CastSIToFP => SIToFP target
  | CastPtrToInt => ZExt target
  | CastIntToPtr => ZExt target
  | CastAddrSpaceCast => ZExt target
  | CastBitCast => BitCast target
  end.

Definition compile_compute (dest : Name) (operands : list Operand) (name : COperationName)
    : St FuncCompiler CInstr :=
  let$ operands := forM compile_operand operands in
  let$$ operand_classes := mapM operand_class operands in
  let$$ operation := tv_operation name operand_classes in
  let$ dest := compile_local dest in
  sret (ICompute dest operands operation).

(** The arm of the binary operations. *)
Definition compile_binop_instr (op : BinOp) (operand0 operand1 : Operand) (dest : Name)
    : St FuncCompiler CInstr :=
  let$ operand0 := compile_operand operand0 in
  let$ operand1 := compile_operand operand1 in
  let$$ class := operand_class operand0 in
  let$$ class1 := operand_class operand1 in
  let$$ _ := guard_ (class =? class1) AssertFailed in
  let$ dest := compile_local dest in
  sret (ICompute dest [operand0; operand1] (MkOp (compile_binop op) [class; class] class)).

(** The loop of [getelementptr] over the indices: the class so far, the operands
    and their classes. *)
Fixpoint gep_operands (indices : list Operand) (output : Class) (operands : list COperand) (input : list Class)
    : St FuncCompiler (Class * list COperand * list Class) :=
  match indices with
  | [] => sret (output, operands, input)
  | index :: indices =>
      let$ operand := compile_operand index in
      let$ output :=
        match operand with
        | OConstant _ c => fun self =>
            match
              let! v := try_get (fc_state self) c in
              let! v := unwrap v in
              let! i := as_i64 v in
              let! e := cv_element output i in Ok (e_class e)
            with Ok c => Ok (c, self) | Panic p => Panic p end
        | OLocal _ _ => slift (let! e := cv_element output (-1) in Ok (e_class e))
        | _ => slift (Panic Todo)
        end in
      let$$ class := operand_class operand in
      gep_operands indices output (operands ++ [operand]) (input ++ [class])
  end.

Definition compile_gep (address : Operand) (indices : list Operand) (dest : Name) : St FuncCompiler CInstr :=
  let$ operand := compile_operand address in
  let$$ class := operand_class operand in
  let$ r := gep_operands indices class [operand] [class] in
  let '(output, operands, input) := r in
  let$ dest := compile_local dest in
  let$$ c := tv_ptr output in
  sret (ICompute dest operands (MkOp GetElementPtr input c)).

(** The indices of a [shufflevector]'s mask. *)
Definition shuffle_indices (mask : Constant) : res (list Z) :=
  let! mask := compile_const moduleid symbols mask in
  let! (mask_class, mask) := unwrap (as_const mask) in
  let! k := cv_kind mask_class in
  match k with
  | VectorClass _ len =>
      mapM (fun i => let! v := extract mask mask_class i in Ok (to_signed 64 (as_u64 v)))
        (Z.of_nat <$> seq 0 (Z.to_nat (to_signed 64 len)))
  | _ => Panic UnwrapFailed
  end.

(** The operation of an [atomicrmw]. *)
Definition rmw_operation (operation : RMWBinOp) : res COperationName :=
  match operation with
  | RMWXchg => Ok Xchg | RMWAdd => Ok Add | RMWSub => Ok Sub | RMWAnd => Ok And | RMWOr => Ok Or
  | RMWXor => Ok Xor | RMWFAdd => Ok FAdd | RMWFSub => Ok FSub
  | OtherRMW => Panic Todo
  end.

Definition compile_func_operand (oper : option Operand) : St FuncCompiler COperand :=
  match oper with None => sret OInline | Some oper => compile_operand oper end.

Definition compile_alloca (allocated_type : Typ) (num_elements : Operand) (dest : Name) (alignment : Z)
    : St FuncCompiler CInstr :=
  let$ dest := compile_local dest in
  let$ count := compile_operand num_elements in
  let$$ c := tv_get allocated_type in
  let$$ l := cv_layout c in
  let$$ a := chk_u 32 (8 * alignment) in
  let$$ l := align_to_bits l a in
  sret (IAlloca dest count l).

Definition compile_load (address : Operand) (dest : Name) (atomicity : option Atomicity) : St FuncCompiler CInstr :=
  let$ dest := compile_local dest in
  let$ address := compile_operand address in
  let$$ o := from_option_atomicity atomicity in
  sret (ILoad dest address o).

Definition compile_store (address value : Operand) (atomicity : option Atomicity) : St FuncCompiler CInstr :=
  let$ address := compile_operand address in
  let$ value := compile_operand value in
  let$$ o := from_option_atomicity atomicity in
  sret (IStore address value o).

Definition compile_cmpxchg (address expected replacement : Operand) (dest : Name) (atomicity : Atomicity)
    (failure_memory_ordering : MemoryOrdering) (weak : bool) : St FuncCompiler CInstr :=
  let$ address := compile_operand address in
  let$ expected := compile_operand expected in
  let$ replacement := compile_operand replacement in
  let$ dest := compile_local dest in
  sret (ICmpXchg dest address expected replacement (mem_ordering atomicity) failure_memory_ordering weak).

Definition compile_atomicrmw (address value : Operand) (dest : Name) (operation : RMWBinOp)
    (atomicity : Atomicity) : St FuncCompiler CInstr :=
  let$ address := compile_operand address in
  let$ value := compile_operand value in
  let$$ class := operand_class value in
  let$$ operation := rmw_operation operation in
  let$$ operation := tv_operation operation [class; class] in
  let$ dest := compile_local dest in
  let$$ o := from_atomicity atomicity in
  sret (IAtomicRMW dest address value operation o).

Definition compile_call (function : option Operand) (arguments : list Operand) (dest : option Name)
    : St FuncCompiler CInstr :=
  let$ dest := match dest with
               | Some dest => let$ d := compile_local dest in sret (Some d)
               | None => sret None
               end in
  let$ func := compile_func_operand function in
  let$ arguments := forM compile_operand arguments in
  sret (ICall dest func arguments).

Definition compile_instr (instr : Instruction) : St FuncCompiler CInstr :=
  match instr with
  | InstrBinOp op operand0 operand1 dest => compile_binop_instr op operand0 operand1 dest
  | InstrFNeg operand dest => compile_compute dest [operand] FNeg
  | InstrCast op operand to_type dest =>
      let$$ target := tv_get to_type in
      compile_compute dest [operand] (compile_cast op target)
  | InstrICmp predicate operand0 operand1 dest => compile_compute dest [operand0; operand1] (ICmp (from_int_predicate predicate))
  | InstrFCmp predicate operand0 operand1 dest => compile_compute dest [operand0; operand1] (FCmp (from_fp_predicate predicate))
  | InstrGetElementPtr address indices dest => compile_gep address indices dest
  | InstrExtractElement vector index dest => compile_compute dest [vector; index] ExtractElement
  | InstrInsertElement vector element index dest => compile_compute dest [vector; element; index] InsertElement
  | InstrShuffleVector operand0 operand1 dest mask =>
      let$$ indices := shuffle_indices mask in
      compile_compute dest [operand0; operand1] (Shuffle indices)
  | InstrExtractValue aggregate indices dest => compile_compute dest [aggregate] (ExtractValue indices)
  | InstrInsertValue aggregate element indices dest =>
      compile_compute dest [aggregate; element] (InsertValue indices)
  | InstrSelect condition true_value false_value dest =>
      compile_compute dest [condition; true_value; false_value] Select
  | InstrPhi _ => slift (Panic UnreachableCode)
  | InstrAlloca allocated_type num_elements dest alignment =>
      compile_alloca allocated_type num_elements dest alignment
  | InstrLoad address dest atomicity => compile_load address dest atomicity
  | InstrStore address value atomicity => compile_store address value atomicity
  | InstrCmpXchg address expected replacement dest atomicity failure weak =>
      compile_cmpxchg address expected replacement dest atomicity failure weak
  | InstrAtomicRMW address value dest operation atomicity =>
      compile_atomicrmw address value dest operation atomicity
  | InstrFreeze _ _ => sret IFreeze
  | InstrCall function arguments dest => compile_call function arguments dest
  | InstrFence => sret IFence
  | OtherInstruction => sret IUnknown
  end.

Definition compile_switch (operand : Operand) (dests : list (Constant * Name)) (default_dest : Name)
    : St FuncCompiler CTerm :=
  let$ condition := compile_operand operand in
  let$ targets := forM (fun '(pat, target) =>
    let$$ e := compile_const moduleid symbols pat in
    let$$ cv := unwrap (as_const e) in
    let$ b := compile_target target in
    sret (cv.2, b)) dests in
  let$ default := compile_target default_dest in
  sret (TSwitch condition (collect targets) default).

Definition compile_invoke (function : option Operand) (arguments : list Operand) (result return_label : Name)
    : St FuncCompiler CTerm :=
  let$$ function := match function with Some f => Ok f | None => Panic UnwrapFailed end in
  let$ function := compile_operand function in
  let$ arguments := forM compile_operand arguments in
  let$ dest := compile_local result in
  let$ target := compile_target return_label in
  sret (TInvoke function arguments dest target).

Definition compile_term (term : Terminator) : St FuncCompiler CTerm :=
  match term with
  | TermRet return_operand =>
      let$ o := match return_operand with Some o => compile_operand o | None => unit_operand end in
      sret (TRet o)
  | TermBr dest => let$ target := compile_target dest in sret (TBr target)
  | TermCondBr condition true_dest false_dest =>
      let$ condition := compile_operand condition in
      let$ true_target := compile_target true_dest in
      let$ false_target := compile_target false_dest in
      sret (TCondBr condition true_target false_target)
  | TermSwitch operand dests default_dest => compile_switch operand dests default_dest
  | TermInvoke function arguments result return_label => compile_invoke function arguments result return_label
  | TermResume _ => sret TResume
  | TermUnreachable => sret TUnreachable
  | OtherTerminator => slift (Panic Todo)
  end.

(** The loop of [compile_block] over the instructions. *)
Fixpoint compile_instrs (loc : Z) (l : list Instruction) (phis : list CPhi) (instrs : list CBlockInstr)
    : St FuncCompiler (list CPhi * list CBlockInstr) :=
  match l with
  | [] => sret (phis, instrs)
  | InstrPhi phi :: l =>
      let$ p := compile_phi phi in
      compile_instrs loc l (phis ++ [p]) instrs
  | instr :: l =>
      let$ i := compile_instr instr in
      compile_instrs loc l phis (instrs ++ [MkBlockInstr i (MkFrame loc (show_instr instr))])
  end.

Definition compile_block (loc id : Z) (block : BasicBlock) : St FuncCompiler CBlock :=
  let$ r := compile_instrs loc (bb_instrs block) [] [] in
  let '(phis, instrs) := r in
  let$ t := compile_term (bb_term block) in
  sret (MkBlock id phis instrs (MkBlockTerm t (MkFrame loc (show_term (bb_term block))))).

(** The first loop: the positions of the blocks. *)
Definition number_blocks (blocks : list BasicBlock) (self : FuncCompiler) : FuncCompiler :=
  MkFuncCompiler (fc_locals self) (fc_local_names self)
    (fold_left (fun m ib => <[bb_name ib.2 := ib.1]> m) (enumerate blocks) (fc_block_ids self))
    (fc_state self) (fc_slot self).

Definition compile_func (loc : Z) (func : Function) : St FuncCompiler CFunc :=
  let$ self := sget in
  let$ _ := sput (number_blocks (basic_blocks func) self) in
  let$ blocks := forM (fun ib => compile_block loc ib.1 ib.2) (enumerate (basic_blocks func)) in
  let$ args := forM compile_local (fn_parameters func) in
  let$ self := sget in
  sret (MkCFunc loc func args blocks (fc_local_names self)).
End Compile.
Arguments FuncCompiler X : clear implicits.

(** ** The compiled code is the source, renamed *)

(** The operations by the names llvm-ir gives the instructions. *)
Definition binop_names : list (BinOp * COperationName) := [
  (BinAdd, Add); (BinSub, Sub); (BinMul, Mul); (BinUDiv, UDiv); (BinSDiv, SDiv); (BinURem, URem); (BinSRem, SRem);
  (BinAnd, And); (BinOr, Or); (BinXor, Xor); (BinShl, Shl); (BinLShr, LShr); (BinAShr, AShr);
  (BinFAdd, FAdd); (BinFSub, FSub); (BinFMul, FMul); (BinFDiv, FDiv); (BinFRem, FRem)].

(** Addresses are integers: converting them extends or truncates. *)
Definition cast_names : list (CastOp * (Class -> COperationName)) := [
  (CastTrunc, Trunc); (CastZExt, ZExt); (CastSExt, SExt); (CastFPTrunc, FPTrunc); (CastFPExt, FPExt);
  (CastFPToUI, FPToUI); (CastFPToSI, FPToSI); (CastUIToFP, UIToFP); (CastSIToFP, SIToFP);
  (CastPtrToInt, ZExt); (CastIntToPtr, ZExt); (CastAddrSpaceCast, ZExt); (CastBitCast, BitCast)].

Definition icmp_names : list (IntPredicate * CIntPredicate) := [
  (IntEQ, EQ); (IntNE, NE); (IntUGT, UGT); (IntUGE, UGE); (IntULT, ULT); (IntULE, ULE);
  (IntSGT, SGT); (IntSGE, SGE); (IntSLT, SLT); (IntSLE, SLE)].

Definition fcmp_names : list (FPPredicate * CFPPredicate) := [
  (FPFalse, FFalse); (FPOEQ, FOEQ); (FPOGT, FOGT); (FPOGE, FOGE); (FPOLT, FOLT); (FPOLE, FOLE); (FPONE, FONE);
  (FPORD, FORD); (FPUNO, FUNO); (FPUEQ, FUEQ); (FPUGT, FUGT); (FPUGE, FUGE); (FPULT, FULT); (FPULE, FULE);
  (FPUNE, FUNE); (FPTrue, FTrue)].

Definition rmw_names : list (RMWBinOp * COperationName) := [
  (RMWXchg, Xchg); (RMWAdd, Add); (RMWSub, Sub); (RMWAnd, And); (RMWOr, Or); (RMWXor, Xor);
  (RMWFAdd, FAdd); (RMWFSub, FSub)].

Definition is_phi (i : Instruction) : option Phi := match i with InstrPhi p => Some p | _ => None end.
Definition is_not_phi (i : Instruction) : bool := match i with InstrPhi _ => false | _ => true end.

Section Rename.
Context {BV : Bitvec} {TV : TypeMapView} {X : Type} (moduleid : Z) (symbols : SymbolTable).
Context (show_instr : Instruction -> String.string) (show_term : Terminator -> String.string).
(** The blocks of the function, its address, and the compiler's tables. *)
Context (blocks : list BasicBlock) (loc : Z) (s : FuncCompiler X).

(** Local [l] stands for the value [n], block [b] for the label [n]. *)
Definition named (l : Z) (n : Name) : Prop := zget (fc_local_names s) l = Some n.
Definition labelled (b : Z) (n : Name) : Prop := exists bb, zget blocks b = Some bb /\ bb_name bb = n.

(** Slot [t] holds a thunk made by [Thunk::constant]: it has its value from the
    start and belongs to thread 0. *)
Definition constant_at (t : Z) (v : Value) : Prop :=
  t < fc_slot s /\ heap (fc_state s) !! t = Some (MkThunk 0 0 [] None ONone [] (Ready v) [] false).

(** A local with the class of its type; a constant with its value, in a thunk if
    it could be folded; metadata as the unit value. *)
Definition operand_renamed (o : COperand) (x : Operand) : Prop :=
  match x with
  | LocalOperand n ty => exists c l, o = OLocal c l /\ tv_get ty = Ok c /\ named l n
  | ConstantOperand k =>
      exists e, compile_const moduleid symbols k = Ok e /\
        match e with
        | EConst c v => exists t, o = OConstant c t /\ constant_at t v
        | _ => o = OExpr e
        end
  | MetadataOperand => exists c t u, o = OConstant c t /\ tv_get VoidType = Ok c /\ from_unit = Ok u /\ constant_at t u
  end.

(** The operation [nm] on the values of [xs], into [d]. *)
Definition computes (c : CInstr) (d : Name) (xs : list Operand) (nm : COperationName) : Prop :=
  exists l os cs oper, c = ICompute l os oper /\ named l d /\ Forall2 operand_renamed os xs /\
    mapM operand_class os = Ok cs /\ tv_operation nm cs = Ok oper.

(** The class that indexing ends in: by the value of a constant, anywhere
    ([-1]) for a local. *)
Inductive indexed : Class -> list COperand -> Class -> Prop :=
  | indexed_nil c : indexed c [] c
  | indexed_const c cl t v i e os c' : constant_at t v -> as_i64 v = Ok i -> cv_element c i = Ok e ->
      indexed (e_class e) os c' -> indexed c (OConstant cl t :: os) c'
  | indexed_local c cl l e os c' : cv_element c (-1) = Ok e ->
      indexed (e_class e) os c' -> indexed c (OLocal cl l :: os) c'.

(** The numbers of a constant vector. *)
Definition numbers (mask : Constant) (is_ : list Z) : Prop :=
  exists mc mv e len, compile_const moduleid symbols mask = Ok (EConst mc mv) /\ cv_kind mc = Ok (VectorClass e len) /\
    length is_ = Z.to_nat (to_signed 64 len) /\
    forall j i, is_ !! j = Some i -> exists v, extract mv mc (Z.of_nat j) = Ok v /\ i = to_signed 64 (as_u64 v).

Definition instr_renamed (c : CInstr) (i : Instruction) : Prop :=
  match i with
  | InstrBinOp op a b d =>
      exists l o1 o2 cl nm, c = ICompute l [o1; o2] (MkOp nm [cl; cl] cl) /\ (op, nm) ∈ binop_names /\ named l d /\
        operand_renamed o1 a /\ operand_renamed o2 b /\ operand_class o1 = Ok cl /\ operand_class o2 = Ok cl
  | InstrFNeg a d => computes c d [a] FNeg
  | InstrCast op a ty d => exists target f, tv_get ty = Ok target /\ (op, f) ∈ cast_names /\ computes c d [a] (f target)
  | InstrICmp p a b d => exists q, (p, q) ∈ icmp_names /\ computes c d [a; b] (ICmp q)
  | InstrFCmp p a b d => exists q, (p, q) ∈ fcmp_names /\ computes c d [a; b] (FCmp q)
  | InstrGetElementPtr a is_ d =>
      exists l o os cl cs out p, c = ICompute l (o :: os) (MkOp GetElementPtr (cl :: cs) p) /\ named l d /\
        operand_renamed o a /\ Forall2 operand_renamed os is_ /\ operand_class o = Ok cl /\ mapM operand_class os = Ok cs /\
        indexed cl os out /\ tv_ptr out = Ok p
  | InstrExtractElement v i d => computes c d [v; i] ExtractElement
  | InstrInsertElement v e i d => computes c d [v; e; i] InsertElement
  | InstrShuffleVector a b d mask => exists is_, numbers mask is_ /\ computes c d [a; b] (Shuffle is_)
  | InstrExtractValue a is_ d => computes c d [a] (ExtractValue is_)
  | InstrInsertValue a e is_ d => computes c d [a; e] (InsertValue is_)
  | InstrSelect cond a b d => computes c d [cond; a; b] Select
  | InstrPhi _ => False
  | InstrAlloca ty n d alignment =>
      exists l o cl lay0 lay, c = IAlloca l o lay /\ named l d /\ operand_renamed o n /\ tv_get ty = Ok cl /\
        cv_layout cl = Ok lay0 /\ 0 <= 8 * alignment < 2 ^ 32 /\ align_to_bits lay0 (8 * alignment) = Ok lay
  | InstrLoad a d atomicity =>
      exists l o ord, c = ILoad l o ord /\ named l d /\ operand_renamed o a /\ from_option_atomicity atomicity = Ok ord
  | InstrStore a v atomicity =>
      exists o1 o2 ord, c = IStore o1 o2 ord /\ operand_renamed o1 a /\ operand_renamed o2 v /\
        from_option_atomicity atomicity = Ok ord
  | InstrCmpXchg a e r d atomicity failure weak =>
      exists l o1 o2 o3, c = ICmpXchg l o1 o2 o3 (mem_ordering atomicity) failure weak /\ named l d /\
        operand_renamed o1 a /\ operand_renamed o2 e /\ operand_renamed o3 r
  | InstrAtomicRMW a v d op atomicity =>
      exists l o1 o2 nm cl oper ord, c = IAtomicRMW l o1 o2 oper ord /\ (op, nm) ∈ rmw_names /\ named l d /\
        operand_renamed o1 a /\ operand_renamed o2 v /\ operand_class o2 = Ok cl /\ tv_operation nm [cl; cl] = Ok oper /\
        from_atomicity atomicity = Ok ord
  | InstrFreeze _ _ => c = IFreeze
  | InstrCall f args d =>
      exists dl fo os, c = ICall dl fo os /\
        match d with Some n => exists l, dl = Some l /\ named l n | None => dl = None end /\
        match f with Some f => operand_renamed fo f | None => fo = OInline end /\ Forall2 operand_renamed os args
  | InstrFence => c = IFence
  | OtherInstruction => c = IUnknown
  end.

(** The entries of a phi, of which the last for a block counts. *)
Definition phi_renamed (c : CPhi) (p : Phi) : Prop :=
  named (phi_dest c) (phi_name p) /\
  exists entries, Forall2 (fun bo xn => labelled bo.1 xn.2 /\ operand_renamed bo.2 xn.1) entries (incoming_values p) /\
    phi_mapping c = list_to_map (rev entries).

Definition term_renamed (c : CTerm) (t : Terminator) : Prop :=
  match t with
  | TermRet x => exists o, c = TRet o /\ operand_renamed o (default MetadataOperand x)
  | TermBr n => exists b, c = TBr b /\ labelled b n
  | TermCondBr x n1 n2 => exists o b1 b2, c = TCondBr o b1 b2 /\ operand_renamed o x /\ labelled b1 n1 /\ labelled b2 n2
  | TermSwitch x cases n =>
      exists o entries b, c = TSwitch o (list_to_map (rev entries)) b /\ operand_renamed o x /\ labelled b n /\
        Forall2 (fun vb pn => labelled vb.2 pn.2 /\ exists cl, compile_const moduleid symbols pn.1 = Ok (EConst cl vb.1))
          entries cases
  | TermInvoke f args d n =>
      exists fo os l b, c = TInvoke fo os l b /\ (exists x, f = Some x /\ operand_renamed fo x) /\
        Forall2 operand_renamed os args /\ named l d /\ labelled b n
  | TermResume _ => c = TResume
  | TermUnreachable => c = TUnreachable
  | OtherTerminator => False
  end.

Record block_renamed (id : Z) (c : CBlock) (b : BasicBlock) : Prop := {
  br_id : blk_id c = id;
  br_phis : Forall2 phi_renamed (blk_phis c) (omap is_phi (bb_instrs b));
  br_instrs : Forall2 (fun ci i => instr_renamed (bi_instr ci) i /\ bi_frame ci = MkFrame loc (show_instr i)) (blk_instrs c)
                (List.filter is_not_phi (bb_instrs b));
  br_term : term_renamed (bt_term (blk_term c)) (bb_term b) /\
            bt_frame (blk_term c) = MkFrame loc (show_term (bb_term b))
}.
End Rename.

(** ** The rules *)

Section Rules.
Context {BV : Bitvec} {TV : TypeMapView} {X : Type} (moduleid : Z) (symbols : SymbolTable).
Context (show_instr : Instruction -> String.string) (show_term : Terminator -> String.string).
Context (blocks : list BasicBlock).
Implicit Types (s : FuncCompiler X).
Abbreviation operand_in := (operand_renamed moduleid symbols).

(** The two tables of locals are inverse; labels are positions of blocks. *)
Definition fc_ok s : Prop :=
  (forall n l, fc_locals s !! n = Some l <-> zget (fc_local_names s) l = Some n) /\
  (forall n b, fc_block_ids s !! n = Some b -> labelled blocks b n).

(** Locals and constants are only added. *)
Definition step s s' : Prop :=
  fc_ok s' /\ fc_local_names s `prefix_of` fc_local_names s' /\ fc_slot s <= fc_slot s' /\
  forall t, t < fc_slot s -> heap (fc_state s') !! t = heap (fc_state s) !! t.

(** From [s], the computation keeps the tables, and [Q] holds of its result. *)
Definition does {A} s (m : St (FuncCompiler X) A) (Q : A -> FuncCompiler X -> Prop) : Prop :=
  forall a s', m s = Ok (a, s') -> step s s' /\ Q a s'.

Lemma step_refl s : fc_ok s -> step s s.
Proof. by split. Qed.

Lemma step_trans s1 s2 s3 : step s1 s2 -> step s2 s3 -> step s1 s3.
Proof.
  intros (_ & H1 & Hs1 & Hh1) (H & H2 & Hs2 & Hh2). split_and!; [done|by etrans|lia|].
  intros t Ht. by rewrite Hh2, Hh1 by lia.
Qed.

Lemma does_bind {A B} s (m : St (FuncCompiler X) A) (f : A -> St (FuncCompiler X) B) Q R :
  does s m Q -> (forall a s1, step s s1 -> Q a s1 -> does s1 (f a) R) -> does s (sbind m f) R.
Proof.
  intros Hm Hf b s2 (a & s1 & H1 & H2)%sbind_Ok. destruct (Hm a s1 H1) as [St1 HQ].
  destruct (Hf a s1 St1 HQ b s2 H2) as [St2 HR]. split; [by eapply step_trans|done].
Qed.

Lemma does_ret {A} s (a : A) (Q : A -> FuncCompiler X -> Prop) : fc_ok s -> Q a s -> does s (sret a) Q.
Proof. intros Hok HQ b s' [<- ->]%sret_Ok. split; [by apply step_refl|done]. Qed.

Lemma does_lift {A} s (r : res A) (Q : A -> FuncCompiler X -> Prop) :
  fc_ok s -> (forall a, r = Ok a -> Q a s) -> does s (slift r) Q.
Proof. intros Hok HQ a s' [Ha ->]%slift_Ok. split; [by apply step_refl|auto]. Qed.

Lemma does_weaken {A} s (m : St (FuncCompiler X) A) (Q R : A -> FuncCompiler X -> Prop) :
  does s m Q -> (forall a s', step s s' -> Q a s' -> R a s') -> does s m R.
Proof. intros Hm HQR a s' H. destruct (Hm a s' H). split; auto. Qed.

(** What is known of names, constants and operands stays true. *)
Lemma named_step s s' l n : step s s' -> named s l n -> named s' l n.
Proof.
  intros (_ & [k Hk] & _) Hn. unfold named in *. rewrite Hk.
  rewrite zget_app_l; [done|]. apply zget_Some_bounds in Hn. lia.
Qed.

Lemma constant_step s s' t v : step s s' -> constant_at s t v -> constant_at s' t v.
Proof. intros (_ & _ & Hs & Hh) [Ht Hv]. split; [lia|]. by rewrite Hh. Qed.

Lemma operand_step s s' o x : step s s' -> operand_in s o x -> operand_in s' o x.
Proof.
  intros St. destruct x as [n ty|k|]; simpl.
  - intros (c & l & -> & Hc & Hn). exists c, l. eauto using named_step.
  - intros (e & He & Ho). exists e. split; [done|]. destruct e; [|done..].
    destruct Ho as (t & -> & Ht). exists t. eauto using constant_step.
  - intros (c & t & u & -> & Hc & Hu & Ht). exists c, t, u. eauto using constant_step.
Qed.

Lemma operands_step s s' os xs : step s s' -> Forall2 (operand_in s) os xs -> Forall2 (operand_in s') os xs.
Proof. intros St HF. eapply Forall2_impl; [exact HF|]. intros. by eapply operand_step. Qed.

Lemma computes_step s s' c d xs nm :
  step s s' -> computes moduleid symbols s c d xs nm -> computes moduleid symbols s' c d xs nm.
Proof.
  intros St (l & os & cs & o & ? & ? & ? & ? & ?). exists l, os, cs, o. eauto 10 using named_step, operands_step.
Qed.

Lemma indexed_step s s' c os c' : step s s' -> indexed s c os c' -> indexed s' c os c'.
Proof. intros St. induction 1; econstructor; eauto using constant_step. Qed.

Ltac carry_over :=
  let H := fresh in intros H; decompose [ex and] H;
  repeat match goal with |- exists _, _ => eexists | |- _ /\ _ => split end;
  eauto using named_step, operand_step, operands_step, computes_step, indexed_step.

Lemma instr_step s s' c i : step s s' -> instr_renamed moduleid symbols s c i -> instr_renamed moduleid symbols s' c i.
Proof.
  intros St. destruct i; simpl; try done; try (by apply computes_step);
    try (carry_over; done).
  intros (dl & fo & os & -> & Hd & Hf & Ha). exists dl, fo, os. split_and!; [done| | |by eapply operands_step].
  - destruct dest; [|done]. destruct Hd as (l & -> & Hl). exists l. eauto using named_step.
  - destruct function; [by eapply operand_step|done].
Qed.

Lemma phi_step s s' c p : step s s' -> phi_renamed moduleid symbols blocks s c p -> phi_renamed moduleid symbols blocks s' c p.
Proof.
  intros St (Hd & es & HF & Hm). split; [by eapply named_step|]. exists es. split; [|done].
  eapply Forall2_impl; [exact HF|]. intros bo xn [??]. eauto using operand_step.
Qed.

Lemma term_step s s' c t : step s s' -> term_renamed moduleid symbols blocks s c t -> term_renamed moduleid symbols blocks s' c t.
Proof.
  intros St. destruct t; simpl; try done;
    carry_over.
Qed.

Lemma does_local s n : fc_ok s -> does s (compile_local n) (fun l s' => named s' l n).
Proof.
  intros [Hok Hb] l s'. unfold compile_local. destruct (fc_locals s !! n) as [l0|] eqn:E.
  - intros [= <- <-]. split; [by apply step_refl|]. by apply Hok.
  - intros [= <- <-]. split; [split_and!; [split| | |]|]; simpl; [|done|by eexists|lia|done|].
    + intros m l. destruct (decide (m = n)) as [->|Hne].
      * rewrite lookup_insert_eq. split.
        -- intros [= <-]. rewrite zget_app_r, Z.sub_diag by lia. done.
        -- intros Hl. destruct (Z.lt_ge_cases l (zlen (fc_local_names s))) as [Hlt|Hge].
           ++ rewrite zget_app_l in Hl by done. apply Hok in Hl. congruence.
           ++ rewrite zget_app_r in Hl by done. apply zget_Some_bounds in Hl. unfold zlen in *. simpl in Hl.
              f_equal. lia.
      * rewrite lookup_insert_ne by done. rewrite Hok. split; intros Hl.
        -- rewrite zget_app_l; [done|]. apply zget_Some_bounds in Hl. lia.
        -- destruct (Z.lt_ge_cases l (zlen (fc_local_names s))) as [Hlt|Hge]; [by rewrite zget_app_l in Hl|].
           rewrite zget_app_r in Hl by done. pose proof (zget_Some_bounds _ _ _ Hl) as Hr. change (zlen [n]) with 1 in Hr.
           replace (l - zlen (fc_local_names s)) with 0 in Hl by lia. by injection Hl as <-.
    + unfold named. simpl. rewrite zget_app_r, Z.sub_diag by lia. done.
Qed.

Lemma does_constant s v : fc_ok s -> does s (constant_thunk v) (fun t s' => constant_at s' t v).
Proof.
  intros Hok t s' [= <- <-]. split; [split_and!; simpl; [done|done|lia|]|].
  - intros t Ht. by rewrite lookup_insert_ne by lia.
  - split; simpl; [lia|]. by rewrite lookup_insert_eq.
Qed.

Lemma does_target s n : fc_ok s -> does s (compile_target n) (fun b _ => labelled blocks b n).
Proof.
  intros Hok b s'. unfold compile_target. destruct (fc_block_ids s !! n) eqn:E; [|done].
  intros [= <- <-]. split; [by apply step_refl|by apply Hok].
Qed.
End Rules.

(** Facts about names move to the latest state; [fc_go] applies the rules. *)
Ltac fc_facts :=
  cbv beta in *;
  repeat match goal with
  | Hs : step _ ?s ?s', H : named ?s _ _ |- _ => apply (named_step _ s s' _ _ Hs) in H
  | Hs : step _ ?s ?s', H : operand_renamed _ _ ?s _ _ |- _ => apply (operand_step _ _ _ s s' _ _ Hs) in H
  | Hs : step _ ?s ?s', H : Forall2 (operand_renamed _ _ ?s) _ _ |- _ => apply (operands_step _ _ _ s s' _ _ Hs) in H
  | Hs : step _ ?s ?s', H : constant_at ?s _ _ |- _ => apply (constant_step _ s s' _ _ Hs) in H
  | Hs : step _ ?s ?s', H : indexed ?s _ _ _ |- _ => apply (indexed_step _ s s' _ _ _ Hs) in H
  end.
Ltac fc_ok_tac := match goal with H : step _ _ ?s |- fc_ok _ ?s => apply H | H : fc_ok _ ?s |- fc_ok _ ?s => exact H end.
Create HintDb fc.
#[export] Hint Extern 1 (fc_ok _ _) => fc_ok_tac : fc.
#[export] Hint Resolve does_local does_constant does_target : fc.
Ltac fc_step :=
  lazymatch goal with
  | |- does _ _ (sbind (slift _) _) _ =>
      eapply does_bind; [eapply (does_lift _ _ _ (fun a _ => _ = Ok a)); [auto with fc|intros ? HH; exact HH]|intros ? ? ? ?]
  | |- does _ _ (sbind _ _) _ => eapply does_bind; [eauto with fc|intros ? ? ? ?]
  | |- does _ _ (sret _) _ => apply does_ret; [auto with fc|fc_facts]
  | |- does _ _ (slift _) _ => apply does_lift; [auto with fc|intros ? ?; fc_facts]
  end.

Section Compiled.
Context {BV : Bitvec} {TV : TypeMapView} {X : Type} (moduleid : Z) (symbols : SymbolTable).
Context (show_instr : Instruction -> String.string) (show_term : Terminator -> String.string).
Context (blocks : list BasicBlock).
Implicit Types (s : FuncCompiler X).
Abbreviation ok := (fc_ok blocks).
Abbreviation doing := (does blocks).
Abbreviation operand_in := (operand_renamed moduleid symbols).

Lemma does_unit s : ok s -> doing s unit_operand (fun o s' => operand_in s' o MetadataOperand).
Proof. intros Hok. unfold unit_operand. repeat fc_step. do 3 eexists. eauto. Qed.

Lemma does_operand s x : ok s -> doing s (compile_operand moduleid symbols x) (fun o s' => operand_in s' o x).
Proof.
  intros Hok. destruct x as [n ty|c|]; cbn [compile_operand]; [| |by apply does_unit].
  - repeat fc_step. do 2 eexists. eauto.
  - fc_step. destruct a as [cl v|cl k|o args]; repeat fc_step; (eexists; split; [done|]); simpl; eauto.
Qed.
Hint Resolve does_unit does_operand : fc.

Lemma does_forM {A B} (f : A -> St (FuncCompiler X) B) (R : B -> A -> FuncCompiler X -> Prop) l s :
  ok s -> (forall s a, ok s -> a ∈ l -> doing s (f a) (fun b s' => R b a s')) ->
  (forall s s' b a, step blocks s s' -> R b a s -> R b a s') ->
  doing s (forM f l) (fun bs s' => Forall2 (fun b a => R b a s') bs l).
Proof.
  intros Hok Hf Hmono. revert s Hok Hf. induction l as [|a l IH]; intros s Hok Hf; simpl.
  - apply does_ret; [done|constructor].
  - eapply does_bind; [apply Hf; [done|by left]|intros b s1 St1 HR].
    eapply does_bind; [apply IH; [apply St1|intros; apply Hf; [done|by right]]|intros bs s2 St2 HRs].
    apply does_ret; [apply St2|]. constructor; [by eapply Hmono|done].
Qed.

Lemma does_operands s xs :
  ok s -> doing s (forM (compile_operand moduleid symbols) xs) (fun os s' => Forall2 (operand_in s') os xs).
Proof.
  intros Hok. apply (does_forM _ (fun o x s => operand_in s o x)); [done| |].
  - intros. by apply does_operand.
  - intros ? ? ? ? Hs Hr. by eapply operand_step.
Qed.
Hint Resolve does_operands : fc.

Definition instr_result (i : Instruction) (ci : CInstr) s : Prop := instr_renamed moduleid symbols s ci i.

Lemma does_compute s d xs n :
  ok s -> doing s (compile_compute moduleid symbols d xs n) (fun ci s' => computes moduleid symbols s' ci d xs n).
Proof. intros Hok. unfold compile_compute. repeat fc_step. do 4 eexists. eauto 10. Qed.

Lemma does_binop s op a b d :
  ok s -> doing s (compile_binop_instr moduleid symbols op a b d) (instr_result (InstrBinOp op a b d)).
Proof.
  intros Hok. unfold compile_binop_instr. repeat fc_step.
  match goal with H : guard_ _ _ = _ |- _ => apply guard_Ok, Z.eqb_eq in H; subst end.
  do 5 eexists. split; [done|]. split; [|by split_and!].
  apply list_elem_of_In. destruct op; simpl; tauto.
Qed.

(** The slot of a constant operand has its value. *)
Lemma constant_operand s c t x : operand_in s (OConstant c t) x -> exists v, constant_at s t v.
Proof.
  destruct x as [n ty|k|]; simpl.
  - by intros (? & ? & ? & _).
  - intros (e & _ & He). destruct e; [|done..]. destruct He as (? & ? & ?). simplify_eq. by eexists.
  - intros (? & ? & ? & ? & _ & _ & ?). simplify_eq. by eexists.
Qed.

Lemma constant_get s t v : constant_at s t v -> try_get (fc_state s) t = Ok (Some v).
Proof. intros [_ Ht]. unfold try_get, deref. by rewrite Ht. Qed.

Lemma indexed_cons s out a c os c' : indexed s out [a] c -> indexed s c os c' -> indexed s out (a :: os) c'.
Proof.
  inversion 1 as [|? ? ? ? ? ? ? ? ? ? ? Hn|? ? ? ? ? ? ? Hn]; subst; inversion Hn; subst; intros Hos.
  - by eapply indexed_const.
  - by eapply indexed_local.
Qed.

Lemma does_gep_operands s is_ out os cs :
  ok s -> doing s (gep_operands moduleid symbols is_ out os cs) (fun r s' =>
    exists os' cs', r.1.2 = os ++ os' /\ r.2 = cs ++ cs' /\ Forall2 (operand_in s') os' is_ /\
      mapM operand_class os' = Ok cs' /\ indexed s' out os' r.1.1).
Proof.
  revert s out os cs. induction is_ as [|x is_ IH]; intros s out os cs Hok; cbn [gep_operands].
  - apply does_ret; [done|]. exists [], []. simpl. rewrite !app_nil_r. split_and!; done || constructor.
  - fc_step. eapply (does_bind _ _ _ _ (fun c s' => indexed s' out [a] c)).
    { cbv beta in *. destruct a as [c t|e|c l|]; try (by apply does_lift; [auto with fc|]).
      - match goal with H : operand_in _ (OConstant c t) _ |- _ => destruct (constant_operand _ _ _ _ H) as [v Hv] end.
        intros c' s2. rewrite (constant_get _ _ _ Hv). cbn [bind unwrap].
        destruct (as_i64 v) as [i|] eqn:Hi; [|done]. cbn [bind]. destruct (cv_element out i) as [e|] eqn:He; [|done].
        intros [= <- <-]. split; [apply step_refl; auto with fc|]. eapply indexed_const; [done..|constructor].
      - apply does_lift; [auto with fc|]. intros c' (e & He & [= <-])%bind_Ok. eapply indexed_local; [done|constructor]. }
    intros c s2 Hs2 Hin. fc_step. eapply does_weaken; [apply IH; auto with fc|].
    intros r s' Hs' (os' & cs' & Hr1 & Hr2 & HF & Hc & Hix). fc_facts.
    exists (a :: os'), (a0 :: cs'). rewrite Hr1, Hr2, <- !app_assoc. split_and!; [done|done|by constructor| |by eapply indexed_cons].
    cbn [mapM]. match goal with H : operand_class a = _ |- _ => rewrite H end. cbn [bind]. by rewrite Hc.
Qed.
Hint Resolve does_gep_operands : fc.

Lemma does_gep s a is_ d :
  ok s -> doing s (compile_gep moduleid symbols a is_ d) (instr_result (InstrGetElementPtr a is_ d)).
Proof.
  intros Hok. unfold compile_gep. do 3 fc_step. destruct a2 as [[out os] cs].
  match goal with H : exists _, _ |- _ => destruct H as (os' & cs' & Hr1 & Hr2 & HF & Hc & Hix) end. simpl in Hr1, Hr2, Hix. subst os cs.
  repeat fc_step. do 7 eexists. split; [done|]. eauto 10.
Qed.

Lemma shuffle_numbers mask is_ : shuffle_indices moduleid symbols mask = Ok is_ -> numbers moduleid symbols mask is_.
Proof.
  unfold shuffle_indices. intros (e & He & ([mc mv] & Hm & (k & Hk & H)%bind_Ok)%bind_Ok)%bind_Ok.
  apply unwrap_Ok in Hm. destruct e as [c v| |]; try done. injection Hm as -> ->. destruct k; try done.
  apply mapM_Ok_Forall2 in H. do 4 eexists. split; [done|]. split; [done|]. split.
  - apply Forall2_length in H. by rewrite <- H, length_fmap, length_seq.
  - intros j i Hj. destruct (Forall2_lookup_r _ _ _ _ _ H Hj) as (x & Hx & (v & Hv & [= <-])%bind_Ok).
    rewrite list_lookup_fmap in Hx. apply fmap_Some in Hx as (y & Hy & ->). apply lookup_seq in Hy as [-> _]. by exists v.
Qed.

(** The name an operation is given is in its table. *)
Ltac in_table := apply list_elem_of_In; simpl; tauto.

Lemma does_alloca s ty n d al : ok s -> doing s (compile_alloca moduleid symbols ty n d al) (instr_result (InstrAlloca ty n d al)).
Proof.
  intros Hok. unfold compile_alloca. repeat fc_step.
  match goal with H : chk_u _ _ = _ |- _ => apply chk_u_Ok in H as [? ?]; subst end.
  do 5 eexists. split; [done|]. eauto 10.
Qed.

Lemma does_atomicrmw s a v d op at_ :
  ok s -> doing s (compile_atomicrmw moduleid symbols a v d op at_) (instr_result (InstrAtomicRMW a v d op at_)).
Proof.
  intros Hok. unfold compile_atomicrmw. repeat fc_step.
  match goal with H : rmw_operation op = Ok ?nm |- _ =>
    assert ((op, nm) ∈ rmw_names) by (destruct op; try done; injection H as <-; in_table) end.
  do 7 eexists. split; [done|]. eauto 10.
Qed.

Lemma does_call s f args d : ok s -> doing s (compile_call moduleid symbols f args d) (instr_result (InstrCall f args d)).
Proof.
  intros Hok. unfold compile_call. eapply (does_bind _ _ _ _ (fun dl s' =>
    match d with Some n => exists l, dl = Some l /\ named s' l n | None => dl = None end)).
  { destruct d; [repeat fc_step; eauto|by apply does_ret]. }
  intros dl s1 St1 Hd. eapply (does_bind _ _ _ _ (fun fo s' =>
    match f with Some f => operand_in s' fo f | None => fo = OInline end)).
  { destruct f as [f|]; simpl; [apply does_operand|apply does_ret]; auto with fc. }
  intros fo s2 St2 Hf. repeat fc_step. do 3 eexists. split; [done|]. split_and!; [| |done].
  - destruct d; [|done]. destruct Hd as (l & -> & Hl). exists l. fc_facts. by fc_facts.
  - destruct f; [by fc_facts|done].
Qed.

Lemma does_instr s i :
  ok s -> is_not_phi i = true -> doing s (compile_instr moduleid symbols i) (instr_result i).
Proof.
  intros Hok Hp. destruct i; try done; cbn [compile_instr]; try (by apply does_compute);
    try (by apply does_ret).
  - by apply does_binop.
  - fc_step. eapply does_weaken; [apply does_compute; auto with fc|intros ci s' _ Hc].
    assert (exists f, (op, f) ∈ cast_names /\ compile_cast op a = f a) as (f & Hf & Heq) by
      (destruct op; eexists; (split; [in_table|done])).
    rewrite Heq in Hc. exists a, f. by split_and!.
  - eapply does_weaken; [by apply does_compute|intros ci s' _ Hc]. eexists. split; [|exact Hc].
    destruct predicate; in_table.
  - eapply does_weaken; [by apply does_compute|intros ci s' _ Hc]. eexists. split; [|exact Hc].
    destruct predicate; in_table.
  - by apply does_gep.
  - fc_step. eapply does_weaken; [apply does_compute; auto with fc|intros ci s' _ Hc].
    exists a. split; [by apply shuffle_numbers|done].
  - by apply does_alloca.
  - unfold compile_load. repeat fc_step. do 3 eexists. eauto.
  - unfold compile_store. repeat fc_step. do 3 eexists. eauto.
  - unfold compile_cmpxchg. repeat fc_step. do 4 eexists. split; [done|]. eauto 10.
  - by apply does_atomicrmw.
  - by apply does_call.
Qed.
Hint Resolve does_instr : fc.

Lemma collect_list {K V} `{Countable K} (l : list (K * V)) : collect l = list_to_map (rev l).
Proof.
  unfold collect. rewrite <- (rev_involutive l) at 1. rewrite <- fold_left_rev_right, rev_involutive.
  induction (rev l) as [|[k v] l' IH]; [done|]. simpl. by rewrite IH.
Qed.

Lemma does_phi s p :
  ok s -> doing s (compile_phi moduleid symbols p) (fun c s' => phi_renamed moduleid symbols blocks s' c p).
Proof.
  intros Hok. unfold compile_phi. fc_step.
  eapply does_bind; [eapply (does_forM _ (fun bo xn s => labelled blocks bo.1 xn.2 /\ operand_in s bo.2 xn.1))|].
  - auto with fc.
  - intros s2 [x n] Hok2 _. repeat fc_step. done.
  - intros s2 s3 b x St [Hl Ho]. split; [done|]. by eapply operand_step.
  - intros m s2 St Hm. fc_facts. apply does_ret; [auto with fc|]. split; [done|].
    exists m. split; [done|]. apply collect_list.
Qed.
Hint Resolve does_phi : fc.

Definition term_result (t : Terminator) (ct : CTerm) s : Prop := term_renamed moduleid symbols blocks s ct t.

Lemma does_switch s o ds d : ok s -> doing s (compile_switch moduleid symbols o ds d) (term_result (TermSwitch o ds d)).
Proof.
  intros Hok. unfold compile_switch. fc_step.
  eapply does_bind; [eapply (does_forM _ (fun vb pn (_ : FuncCompiler X) => labelled blocks vb.2 pn.2 /\
    exists cl, compile_const moduleid symbols pn.1 = Ok (EConst cl vb.1)))|].
  - auto with fc.
  - intros s2 [p n] Hok2 _. do 3 fc_step. apply does_ret; [auto with fc|]. simpl. split; [done|].
    cbv beta in *. destruct a0 as [cl v|cl k|op args]; simpl in *; try done. simplify_eq/=. by exists cl.
  - done.
  - intros m s2 St Hm. fc_step. apply does_ret; [auto with fc|]. fc_facts. rewrite collect_list.
    do 3 eexists. split; [done|]. eauto.
Qed.

Lemma does_invoke s f args r l : ok s -> doing s (compile_invoke moduleid symbols f args r l) (term_result (TermInvoke f args r l)).
Proof.
  intros Hok. unfold compile_invoke. fc_step. destruct f as [f|]; [|done]. cbv beta in *. simplify_eq.
  repeat fc_step. do 4 eexists. split; [done|]. eauto 10.
Qed.

Lemma does_term s t : ok s -> doing s (compile_term moduleid symbols t) (term_result t).
Proof.
  intros Hok. destruct t as [o|d|o d1 d2|o ds d|f args r l|o| |]; cbn [compile_term].
  - eapply (does_bind _ _ _ _ (fun c s' => operand_in s' c (default MetadataOperand o))).
    { destruct o; [by apply does_operand|by apply does_unit]. }
    intros c s1 St Hc. apply does_ret; [auto with fc|]. by exists c.
  - repeat fc_step. by eexists.
  - repeat fc_step. do 3 eexists. eauto.
  - by apply does_switch.
  - by apply does_invoke.
  - by apply does_ret.
  - by apply does_ret.
  - by apply does_lift.
Qed.
Hint Resolve does_term : fc.

Abbreviation instr_in loc := (fun s ci i => instr_result i (bi_instr ci) s /\ bi_frame ci = MkFrame loc (show_instr i)).
Abbreviation block_in loc s := (block_renamed moduleid symbols show_instr show_term blocks loc s).

Lemma does_instrs loc l s phis instrs :
  ok s -> doing s (compile_instrs moduleid symbols show_instr loc l phis instrs) (fun r s' =>
    exists ps is_, r = (phis ++ ps, instrs ++ is_) /\
    Forall2 (phi_renamed moduleid symbols blocks s') ps (omap is_phi l) /\
    Forall2 (instr_in loc s') is_ (List.filter is_not_phi l)).
Proof.
  revert s phis instrs. induction l as [|i l IH]; intros s phis instrs Hok.
  - apply does_ret; [done|]. exists [], []. rewrite !app_nil_r. split_and!; [done|constructor..].
  - destruct (is_phi i) as [p|] eqn:Ep.
    + destruct i; try done. injection Ep as ->. cbn [compile_instrs]. fc_step.
      eapply does_weaken; [apply IH; auto with fc|]. intros r s' St (ps & is_ & -> & HF1 & HF2).
      exists (a :: ps), is_. rewrite <- app_assoc. split_and!; [done| |done]. simpl. constructor; [|done].
      by eapply phi_step.
    + assert (compile_instrs moduleid symbols show_instr loc (i :: l) phis instrs =
        let$ c := compile_instr moduleid symbols i in
        compile_instrs moduleid symbols show_instr loc l phis (instrs ++ [MkBlockInstr c (MkFrame loc (show_instr i))])) as ->
        by (destruct i; done).
      assert (is_not_phi i = true) as Hn by (by destruct i).
      eapply does_bind; [by apply does_instr|intros c s1 St1 Hc].
      eapply does_weaken; [apply IH; auto with fc|]. intros r s' St (ps & is_ & -> & HF1 & HF2).
      exists ps. eexists (_ :: is_). rewrite <- app_assoc. split_and!; [done|cbn [omap list_omap]; by rewrite Ep|].
      simpl. rewrite Hn. constructor; [|done]. split; [by eapply instr_step|done].
Qed.

Lemma does_block loc id b s :
  ok s -> doing s (compile_block moduleid symbols show_instr show_term loc id b) (fun c s' => block_in loc s' id c b).
Proof.
  intros Hok. unfold compile_block. eapply does_bind; [by apply does_instrs|].
  intros r s1 St1 (ps & is_ & -> & HF1 & HF2). simpl. fc_step. apply does_ret; [auto with fc|]. cbv beta in *.
  constructor; simpl; [done| | |done].
  - eapply Forall2_impl; [exact HF1|]. intros c p Hc. by eapply phi_step.
  - eapply Forall2_impl; [exact HF2|]. intros c i [Hc ?]. split; [by eapply instr_step|done].
Qed.

Lemma block_step loc s s' id c b : step blocks s s' -> block_in loc s id c b -> block_in loc s' id c b.
Proof.
  intros St [H1 H2 H3 [H4 H5]]. constructor; [done| | |split; [by eapply term_step|done]].
  - eapply Forall2_impl; [exact H2|]. intros. by eapply phi_step.
  - eapply Forall2_impl; [exact H3|]. intros ? ? [? ?]. split; [by eapply instr_step|done].
Qed.
End Compiled.

Lemma enumerate_lookup {A} (l : list A) (i : nat) (a : A) :
  l !! i = Some a -> enumerate l !! i = Some (Z.of_nat i, a).
Proof.
  intros H. unfold enumerate. rewrite lookup_zip_with, list_lookup_fmap, lookup_seq_lt by (by eapply lookup_lt_Some).
  simpl. by rewrite H.
Qed.

Lemma enumerate_In {A} (l : list A) (x : Z * A) : x ∈ enumerate l -> zget l x.1 = Some x.2.
Proof.
  intros [i Hi]%list_elem_of_lookup. unfold enumerate in Hi. rewrite lookup_zip_with, list_lookup_fmap in Hi.
  destruct (seq 0 (length l) !! i) as [j|] eqn:Ej; [|done]. apply lookup_seq in Ej as [-> Hj]. simpl in Hi.
  destruct (l !! i) as [a|] eqn:E; [|done]. injection Hi as <-. simpl. unfold zget.
  destruct (Z.leb_spec 0 (Z.of_nat i)); [|lia]. by rewrite Nat2Z.id.
Qed.

Section Claims.
Context {BV : Bitvec} {TV : TypeMapView} {X : Type} (moduleid : Z) (symbols : SymbolTable).
Context (show_instr : Instruction -> String.string) (show_term : Terminator -> String.string).
Implicit Types (s : FuncCompiler X).

Lemma number_blocks_ok blocks (st : State X) slot : fc_ok blocks (number_blocks blocks (fc_new st slot)).
Proof.
  split; simpl.
  - intros n l. rewrite lookup_empty. unfold zget. by destruct (0 <=? l).
  - assert (forall l (m : gmap Name Z), (forall x, x ∈ l -> zget blocks x.1 = Some x.2) ->
      (forall n b, m !! n = Some b -> labelled blocks b n) ->
      forall n b, fold_left (fun m ib => <[bb_name ib.2 := ib.1]> m) l m !! n = Some b -> labelled blocks b n) as Hl.
    { induction l as [|x l IH]; intros m Hx Hm; [done|]. simpl. apply IH; [intros y Hy; apply Hx; by right|].
      intros n b. rewrite lookup_insert_Some. intros [[<- <-]|[_ Hb]]; [|by apply Hm].
      exists x.2. split; [|done]. apply Hx. by left. }
    apply Hl; [by intros x ?%enumerate_In|]. intros n b. by rewrite lookup_empty.
Qed.

Lemma fc_ok_NoDup blocks s : fc_ok blocks s -> NoDup (fc_local_names s).
Proof.
  intros [Hok _]. apply NoDup_alt. intros i j n Hi Hj.
  assert (forall k : nat, fc_local_names s !! k = Some n -> fc_locals s !! n = Some (Z.of_nat k)) as Hk.
  { intros k Hk. apply Hok. unfold zget. destruct (Z.leb_spec 0 (Z.of_nat k)); [|lia]. by rewrite Nat2Z.id. }
  apply Hk in Hi, Hj. simplify_eq. lia.
Qed.

End Claims.

(** ** A concrete function *)

Definition func_types : TypeMap :=
  fold_left (fun tm t => (get t tm).2) [VoidType; IntegerType 1; IntegerType 32] (typemap_new 64).
#[local] Instance func_view : TypeMapView := type_view 3 (fun _ => None) func_types.

Definition i32 (n : String.string) : Operand := LocalOperand (NameName n) (IntegerType 32).
Definition i32_const (v : Z) : Operand := ConstantOperand (ConstInt 32 v).

(** Count down from [n]: 0 if [n] is 0, else the sum of [1 .. n]. *)
Definition sum_func : Function :=
  MkFunction "sum" [NameName "n"] [
    MkBasicBlock (NameName "entry") [] (TermBr (NameName "loop"));
    MkBasicBlock (NameName "loop")
      [InstrPhi (MkPhi [(i32 "n", NameName "entry"); (i32 "i1", NameName "body")] (NameName "i"));
       InstrPhi (MkPhi [(i32_const 0, NameName "entry"); (i32 "s1", NameName "body")] (NameName "s"));
       InstrICmp IntEQ (i32 "i") (i32_const 0) (NameName "c")]
      (TermCondBr (LocalOperand (NameName "c") (IntegerType 1)) (NameName "exit") (NameName "body"));
    MkBasicBlock (NameName "body")
      [InstrBinOp BinAdd (i32 "s") (i32 "i") (NameName "s1");
       InstrBinOp BinSub (i32 "i") (i32_const 1) (NameName "i1")]
      (TermBr (NameName "loop"));
    MkBasicBlock (NameName "exit") [] (TermRet (Some (i32 "s")))].

Definition empty_state : State unit := MkState ∅ (MkWorld mem_new tt) [].

Definition sum_compiled : res (CFunc * FuncCompiler unit) :=
  compile_func (BV := bitvec_ref) 0 symbols_new (fun _ => "") (fun _ => "") 4096 sum_func (fc_new empty_state 0).

