(* ===== verification/Interp.v ===== *)
(** * Interp: src/src/interp.rs, src/src/function.rs

    The interpreter of compiled functions, as a decoding task: for each
    instruction it makes a thunk and remembers its handle as the value of the
    destination; it waits for values only to branch, to switch and to call.
    [Direct execution] below is the ordinary interpreter, which keeps values and
    performs every operation at once; decoding is shown to do the same. *)

From S2P Require Import Prelude RangeMap MemOrdering Layout Bitvec Value Memory Symbols Classes Operation.
From S2P Require Import Data Local Pipeline Process Flow Sequential Expr FuncCompiler.

(** ** Functions: src/src/function.rs *)

(** [Rc<dyn Func>]: a compiled function, or a native one by its name. A [Lazy]
    function is forced when it is first called ([Recursor]'s lazy cells). *)
Inductive Func := FnCompiled (f : CFunc) | FnNative (name : String.string).

Section Interp.
Context {BV : Bitvec} {TV : TypeMapView} {X : Type}.
Context (thread_local : Z -> Z -> World X -> res (option (Z * World X))).
(** The functions of the process, by address. *)
Context (defs : Definitions Func).

(** [struct InterpFrame]; nothing is ever pushed on [allocs]. A [VecMap<Thunk>]
    is a map from locals to handles. *)
Record InterpFrame := MkInterpFrame { origin : option Z; temps : gmap Z Z }.

Inductive DecodeResult := Jump (b : Z) | Return (t : Z).

Definition assign (dest thunk : Z) (self : InterpFrame) : InterpFrame :=
  MkInterpFrame (origin self) (<[dest := thunk]> (temps self)).

Definition decode_operand (flow : FlowCtx) (self : InterpFrame) (operand : COperand) : Async X Z :=
  match operand with
  | OConstant _ value => Ret value
  | OLocal _ var => match temps self !! var with Some t => Ret t | None => Raise Explicit end
  | OInline => Raise Todo
  | OExpr expr =>
      let* v := evaluate thread_local flow expr in
      constant flow v
  end.

Definition decode_operands (flow : FlowCtx) (self : InterpFrame) (operands : list COperand) : Async X (list Z) :=
  amapM (decode_operand flow self) operands.

(** The closures of [Compute] and [Alloca]. *)
Definition compute_closure (oper : COperation) : Compute X := fun _ args w =>
  let! v := call_operation oper args in Ok (v, w).
Definition alloca_closure (layout : Layout) : Compute X := fun threadid args w =>
  let! a := index args 0 in
  let! l := repeat_ layout PNone (as_u64 a) in
  let! (p, m) := Memory.alloc threadid l (w_memory w) in
  let! v := addr p in
  Ok (v, MkWorld m (w_rest w)).

(** The class [{class, bool}] of [FlowCtx::cmpxchg]. *)
Definition cmpxchg_output (class : Class) : res Class :=
  let! b := tv_get (IntegerType 1) in tv_struc [class; b] false.

(** [load.address.class().target().layout()] *)
Definition target_layout (address : COperand) : res Layout :=
  let! c := operand_class address in
  let! e := cv_element c (-1) in
  cv_layout (e_class e).
Definition operand_layout (o : COperand) : res Layout := let! c := operand_class o in cv_layout c.

(** The closure [decode_instr] gives to [FlowCtx::atomicrmw]. *)
Definition rmw_closure (oper : COperation) (current operand : Value) : res Value :=
  call_operation oper [current; operand].

Section Call.
(** [call_imp] of a function, by its address; [None] is the error [Panic]. *)
Variable call_address : Z -> FlowCtx -> list Z -> Async X (option Z).

Definition decode_call (flow : FlowCtx) (self : InterpFrame) (func : COperand) (arguments : list COperand)
    : Async X (option Z) :=
  let* f := decode_operand flow self func in
  let* args := decode_operands flow self arguments in
  let* v := await f in
  call_address (as_u64 v) flow args.

Definition decode_instr (flow : FlowCtx) (self : InterpFrame) (instr : CInstr) : Async X (option InterpFrame) :=
  match instr with
  | ICompute dest operands operation =>
      let* deps := decode_operands flow self operands in
      let* result := a_thunk flow deps (compute_closure operation) in
      Ret (Some (assign dest result self))
  | ICall dest func arguments =>
      let* r := decode_call flow self func arguments in
      Ret (match r with
           | Some result => Some (match dest with Some dest => assign dest result self | None => self end)
           | None => None
           end)
  | IAlloca dest count layout =>
      let* count := decode_operand flow self count in
      let* result := a_thunk flow [count] (alloca_closure layout) in
      Ret (Some (assign dest result self))
  | ILoad dest address atomicity =>
      let* a := decode_operand flow self address in
      let** layout := target_layout address in
      let* result := a_load flow a layout atomicity in
      Ret (Some (assign dest result self))
  | IStore address value atomicity =>
      let* a := decode_operand flow self address in
      let* v := decode_operand flow self value in
      let** layout := operand_layout value in
      let* _ := a_store flow a layout v atomicity in
      Ret (Some self)
  | ICmpXchg dest address expected replacement success failure _ =>
      let* a := decode_operand flow self address in
      let* e := decode_operand flow self expected in
      let* r := decode_operand flow self replacement in
      let** class := operand_class expected in
      let** success := from_memory_ordering success in
      let** failure := from_memory_ordering failure in
      let** output := cmpxchg_output class in
      let** layout := cv_layout class in
      let* result := cmpxchg flow output layout a e r success failure in
      Ret (Some (assign dest result self))
  | IAtomicRMW dest address value operation atomicity =>
      let* a := decode_operand flow self address in
      let* v := decode_operand flow self value in
      let** layout := operand_layout value in
      let* result := atomicrmw flow layout a v atomicity (rmw_closure operation) in
      Ret (Some (assign dest result self))
  | IFreeze => Raise Todo
  | IFence => Ret (Some self)
  | IUnknown => Raise Todo
  end.

Definition decode_term (flow : FlowCtx) (self : InterpFrame) (term : CTerm)
    : Async X (option (DecodeResult * InterpFrame)) :=
  match term with
  | TRet o =>
      let* t := decode_operand flow self o in
      Ret (Some (Return t, self))
  | TBr target => Ret (Some (Jump target, self))
  | TCondBr condition true_target false_target =>
      let* t := decode_operand flow self condition in
      let* v := await t in
      let** b := unwrap_bool v in
      Ret (Some (Jump (if b then true_target else false_target), self))
  | TSwitch condition targets default_target =>
      let* t := decode_operand flow self condition in
      let* v := await t in
      Ret (Some (Jump (default default_target (targets !! v)), self))
  | TInvoke function arguments dest target =>
      let* r := decode_call flow self function arguments in
      Ret (match r with Some result => Some (Jump target, assign dest result self) | None => None end)
  | TUnreachable => Raise Explicit
  | TResume => Raise Todo
  end.

(** One phi of [decode]'s first loop. *)
Definition decode_phi (flow : FlowCtx) (self : InterpFrame) (phi : CPhi) : Async X (Z * Z) :=
  let** origin := unwrap (origin self) in
  let** o := unwrap (phi_mapping phi !! origin) in
  let* t := decode_operand flow self o in
  Ret (phi_dest phi, t).

Definition assign_all (l : list (Z * Z)) (self : InterpFrame) : InterpFrame :=
  fold_left (fun self p => assign p.1 p.2 self) l self.

(** The loop of [decode] over the instructions. *)
Fixpoint decode_instrs (flow : FlowCtx) (self : InterpFrame) (l : list CBlockInstr) : Async X (option InterpFrame) :=
  match l with
  | [] => Ret (Some self)
  | i :: l =>
      let* r := decode_instr (with_frame flow (bi_frame i)) self (bi_instr i) in
      match r with
      | Some self => decode_instrs flow self l
      | None => Ret None
      end
  end.

(** [InterpFrame::decode] from block [block], with fuel for the blocks. *)
Fixpoint decode_from (fuel : nat) (flow : FlowCtx) (fun_ : CFunc) (block : CBlock) (self : InterpFrame)
    : Async X (option Z) :=
  match fuel with
  | O => Exhausted
  | S fuel =>
      let* phis := amapM (decode_phi flow self) (blk_phis block) in
      let self := assign_all phis self in
      let* r := decode_instrs flow self (blk_instrs block) in
      match r with
      | None => Ret None
      | Some self =>
          let* r := decode_term (with_frame flow (bt_frame (blk_term block))) self (bt_term (blk_term block)) in
          match r with
          | None => Ret None
          | Some (Return t, _) => Ret (Some t)
          | Some (Jump name, self) =>
              let** next := index (cf_blocks fun_) name in
              decode_from fuel flow fun_ next (MkInterpFrame (Some (blk_id block)) (temps self))
          end
      end
  end.

(** [InterpFrame::decode] *)
Definition decode (fuel : nat) (flow : FlowCtx) (fun_ : CFunc) (self : InterpFrame) : Async X (option Z) :=
  let** block := index (cf_blocks fun_) 0 in
  decode_from fuel flow fun_ block self.

(** [InterpFrame::call_impl]: [zip_eq] panics on lists of different lengths. *)
Definition call_impl (fuel : nat) (flow : FlowCtx) (fun_ : CFunc) (params : list Z) : Async X (option Z) :=
  let** _ := guard_ (Nat.eqb (length (cf_args fun_)) (length params)) Explicit in
  decode fuel flow fun_ (assign_all (zip (cf_args fun_) params) (MkInterpFrame None ∅)).
End Call.

(** The native functions; they may call back, by address and with values. *)
Context (native : String.string -> (FlowCtx -> Z -> list Value -> Async X (option Value)) ->
  FlowCtx -> list Z -> Async X (option Z)).

(** [Func::call_imp]; fuel bounds the depth of calls and the blocks of each. *)
Fixpoint call_imp (fuel : nat) (f : Func) (flow : FlowCtx) (args : list Z) : Async X (option Z) :=
  match fuel with
  | O => Exhausted
  | S fuel =>
      match f with
      | FnCompiled cf =>
          call_impl (fun a flow args => let** f := unwrap (reverse_lookup_fun a defs) in call_imp fuel f flow args)
            fuel flow cf args
      | FnNative n => native n (fun flow a vs => invoke (call_imp fuel) defs flow a vs) flow args
      end
  end.
End Interp.

(** ** Direct execution *)

Section Direct.
Context {BV : Bitvec} {TV : TypeMapView} {X : Type}.
Context (thread_local : Z -> Z -> World X -> res (option (Z * World X))) (defs : Definitions Func).
(** The thread, and the values of the constants in the code. *)
Context (th : Z) (consts : Z -> option Value).

Record Frame := MkDFrame { d_origin : option Z; d_env : gmap Z Value }.
Inductive Next := DJump (b : Z) | DReturn (v : Value).

Definition d_assign (dest : Z) (v : Value) (self : Frame) : Frame :=
  MkDFrame (d_origin self) (<[dest := v]> (d_env self)).

Fixpoint d_eval (e : CExpr) : Direct X Value :=
  match e with
  | EConst _ v => dret v
  | EThreadLocal _ key => run* p := dact (thread_local th key) in dlift (addr p)
  | EApply oper args => run* vs := dmapM d_eval args in dlift (call_operation oper vs)
  end.

Definition d_operand (self : Frame) (operand : COperand) : Direct X Value :=
  match operand with
  | OConstant _ t => match consts t with Some v => dret v | None => dstuck end
  | OLocal _ l => match d_env self !! l with Some v => dret v | None => dlift (Panic Explicit) end
  | OInline => dlift (Panic Todo)
  | OExpr e => run* v := d_eval e in dconstant v
  end.

Section Call.
Variable d_address : Z -> Backtrace -> list Value -> Direct X (option Value).

Definition d_call (bt : Backtrace) (self : Frame) (func : COperand) (arguments : list COperand)
    : Direct X (option Value) :=
  run* f := d_operand self func in
  run* args := dmapM (d_operand self) arguments in
  d_address (as_u64 f) bt args.

Definition d_instr (bt : Backtrace) (self : Frame) (instr : CInstr) : Direct X (option Frame) :=
  match instr with
  | ICompute dest operands operation =>
      run* vs := dmapM (d_operand self) operands in
      run* v := dcompute (compute_closure operation) th vs in
      dret (Some (d_assign dest v self))
  | ICall dest func arguments =>
      run* r := d_call bt self func arguments in
      dret (match r with
            | Some v => Some (match dest with Some dest => d_assign dest v self | None => self end)
            | None => None
            end)
  | IAlloca dest count layout =>
      run* n := d_operand self count in
      run* v := dcompute (alloca_closure layout) th [n] in
      dret (Some (d_assign dest v self))
  | ILoad dest address atomicity =>
      run* a := d_operand self address in
      run** layout := target_layout address in
      run* v := dcompute (load_compute th layout atomicity) th [a] in
      dret (Some (d_assign dest v self))
  | IStore address value atomicity =>
      run* a := d_operand self address in
      run* v := d_operand self value in
      run** _ := operand_layout value in
      run* _ := dcompute (store_compute th atomicity) th [a; v] in
      dret (Some self)
  | ICmpXchg dest address expected replacement success failure _ =>
      run* a := d_operand self address in
      run* e := d_operand self expected in
      run* r := d_operand self replacement in
      run** class := operand_class expected in
      run** success := from_memory_ordering success in
      run** failure := from_memory_ordering failure in
      run** output := cmpxchg_output class in
      run** layout := cv_layout class in
      run* v := dcompute (cmpxchg_compute output layout success failure) th [a; e; r] in
      dret (Some (d_assign dest v self))
  | IAtomicRMW dest address value operation atomicity =>
      run* a := d_operand self address in
      run* v := d_operand self value in
      run** layout := operand_layout value in
      run* v := dcompute (atomicrmw_compute layout atomicity (rmw_closure operation)) th [a; v] in
      dret (Some (d_assign dest v self))
  | IFreeze => dlift (Panic Todo)
  | IFence => dret (Some self)
  | IUnknown => dlift (Panic Todo)
  end.

Definition d_term (bt : Backtrace) (self : Frame) (term : CTerm) : Direct X (option (Next * Frame)) :=
  match term with
  | TRet o => run* v := d_operand self o in dret (Some (DReturn v, self))
  | TBr target => dret (Some (DJump target, self))
  | TCondBr condition true_target false_target =>
      run* v := d_operand self condition in
      run** b := unwrap_bool v in
      dret (Some (DJump (if b then true_target else false_target), self))
  | TSwitch condition targets default_target =>
      run* v := d_operand self condition in
      dret (Some (DJump (default default_target (targets !! v)), self))
  | TInvoke function arguments dest target =>
      run* r := d_call bt self function arguments in
      dret (match r with Some v => Some (DJump target, d_assign dest v self) | None => None end)
  | TUnreachable => dlift (Panic Explicit)
  | TResume => dlift (Panic Todo)
  end.

Definition d_phi (self : Frame) (phi : CPhi) : Direct X (Z * Value) :=
  run** origin := unwrap (d_origin self) in
  run** o := unwrap (phi_mapping phi !! origin) in
  run* v := d_operand self o in
  dret (phi_dest phi, v).

Definition d_assign_all (l : list (Z * Value)) (self : Frame) : Frame :=
  fold_left (fun self p => d_assign p.1 p.2 self) l self.

Fixpoint d_instrs (bt : Backtrace) (self : Frame) (l : list CBlockInstr) : Direct X (option Frame) :=
  match l with
  | [] => dret (Some self)
  | i :: l =>
      run* r := d_instr (bt_prepend bt (bi_frame i)) self (bi_instr i) in
      match r with Some self => d_instrs bt self l | None => dret None end
  end.

Fixpoint d_from (fuel : nat) (bt : Backtrace) (fun_ : CFunc) (block : CBlock) (self : Frame)
    : Direct X (option Value) :=
  match fuel with
  | O => dstuck
  | S fuel =>
      run* phis := dmapM (d_phi self) (blk_phis block) in
      let self := d_assign_all phis self in
      run* r := d_instrs bt self (blk_instrs block) in
      match r with
      | None => dret None
      | Some self =>
          run* r := d_term (bt_prepend bt (bt_frame (blk_term block))) self (bt_term (blk_term block)) in
          match r with
          | None => dret None
          | Some (DReturn v, _) => dret (Some v)
          | Some (DJump name, self) =>
              run** next := index (cf_blocks fun_) name in
              d_from fuel bt fun_ next (MkDFrame (Some (blk_id block)) (d_env self))
          end
      end
  end.

Definition d_func (fuel : nat) (bt : Backtrace) (fun_ : CFunc) (params : list Value) : Direct X (option Value) :=
  run** _ := guard_ (Nat.eqb (length (cf_args fun_)) (length params)) Explicit in
  run** block := index (cf_blocks fun_) 0 in
  d_from fuel bt fun_ block (d_assign_all (zip (cf_args fun_) params) (MkDFrame None ∅)).
End Call.

(** What the native functions do, given what calling back does. *)
Context (native_direct : String.string -> (Backtrace -> Z -> list Value -> Direct X (option Value)) ->
  Backtrace -> list Value -> Direct X (option Value)).

(** A call of a function on values. *)
Fixpoint direct (fuel : nat) (f : Func) (bt : Backtrace) (args : list Value) : Direct X (option Value) :=
  match fuel with
  | O => dstuck
  | S fuel =>
      let address a bt vs := run** f := unwrap (reverse_lookup_fun a defs) in direct fuel f bt vs in
      match f with
      | FnCompiled cf => d_func address fuel bt cf args
      | FnNative n => native_direct n (fun bt a vs => run* us := dmapM dconstant vs in address a bt us) bt args
      end
  end.
End Direct.

(** ** Decoding is direct execution *)

Section Simulation.
Context {BV : Bitvec} {TV : TypeMapView} {X : Type} (known : Z -> bool).
Context (thread_local : Z -> Z -> World X -> res (option (Z * World X))) (defs : Definitions Func).
Context (th : Z) (consts : Z -> option Value).
Implicit Types (s : Seq X) (flow : FlowCtx) (fr : InterpFrame) (d : Frame).

(** Nothing is pending, the thread is [th], the constants of the code are live. *)
Record ready s : Prop := {
  ready_idle : idle known s;
  ready_thread : df_thread (q_df s) = th;
  ready_consts : forall t v, consts t = Some v -> live known s t v
}.

(** The frame of the decoder holds handles of the values of the direct frame. *)
Record frame_rel s fr d : Prop := {
  fr_origin : origin fr = d_origin d;
  fr_temps : forall l, option_Forall2 (live known s) (temps fr !! l) (d_env d !! l)
}.

Lemma ready_later s s' : later known s s' -> ready s -> ready s'.
Proof. intros [] []. constructor; [done|congruence|auto]. Qed.

Lemma frame_later s s' fr d : later known s s' -> frame_rel s fr d -> frame_rel s' fr d.
Proof.
  intros Hl []. constructor; [done|]. intros l. destruct (fr_temps0 l); constructor. by eapply later_live.
Qed.

Lemma frame_assign s fr d dest t v :
  frame_rel s fr d -> live known s t v -> frame_rel s (assign dest t fr) (d_assign dest v d).
Proof.
  intros [Ho Ht] Hl. constructor; [done|]. intros l. simpl. destruct (decide (l = dest)) as [->|Hne].
  - rewrite !lookup_insert_eq. by constructor.
  - by rewrite !lookup_insert_ne.
Qed.

Lemma frame_assign_all s fr d l l' :
  frame_rel s fr d -> Forall2 (fun p q => p.1 = q.1 /\ live known s p.2 q.2) l l' ->
  frame_rel s (assign_all l fr) (d_assign_all l' d).
Proof.
  intros Hf HF. revert fr d Hf. induction HF as [|p q l l' [Hk Hl] HF IH]; intros fr d Hf; [done|].
  apply (IH (assign p.1 p.2 fr) (d_assign q.1 q.2 d)). rewrite Hk. by apply frame_assign.
Qed.

(** Moves what is known to the latest state. *)
Ltac to_later :=
  cbv beta in *;
  repeat match goal with
  | Hl : later known ?s ?s', H : ready ?s |- _ => apply (ready_later s s' Hl) in H
  | Hl : later known ?s ?s', H : frame_rel ?s _ _ |- _ => apply (frame_later s s' _ _ Hl) in H
  | Hl : later known ?s ?s', H : live known ?s _ _ |- _ => apply (later_live _ _ _ Hl) in H
  | Hl : later known ?s ?s', H : Forall2 (live known ?s) _ _ |- _ => apply (later_lives _ _ _ _ _ Hl) in H
  end.

Lemma runs_evaluate flow e s :
  f_thread flow = th -> idle known s -> runs known (evaluate thread_local flow e) (d_eval thread_local th e) (fun a b _ => a = b) s.
Proof.
  intros Hth. revert s. induction e as [c v|c k|o args IH] using CExpr_nested_ind; intros s Hs; simpl.
  - by apply runs_ret.
  - rewrite Hth. change (Act (thread_local th k) (fun p => lift (addr p)))
      with (abind (Act (thread_local th k) Ret) (fun p => lift (addr p)) : Async X Value).
    eapply runs_bind; [by apply runs_act|]. intros a b s' Hl ->. apply runs_lift; [apply Hl|done].
  - eapply runs_bind.
    + apply (runs_mapM known _ _ (fun a b _ => a = b) (fun a b _ => a = b)); [done|done| |done|].
      * intros s1 a a' Hs1 -> Ha _. rewrite Forall_forall in IH. by apply IH.
      * clear IH. induction args; by constructor.
    + intros vs vs' s1 Hl HF. assert (vs = vs') as -> by (by apply list_eq_Forall2 in HF).
      apply runs_lift; [apply Hl|done].
Qed.

(** The rules for the thunks of [FlowCtx]. *)
Lemma runs_thunk b address o deps c s args :
  ready s -> Forall2 (live known s) deps args -> addr_dep address deps ->
  runs known (Decode b address o deps c Ret) (dcompute c th args) (fun t v s' => live known s' t v) s.
Proof. intros Hr Hargs Ha. rewrite <- (ready_thread s Hr). apply runs_decode; [apply Hr|done|done]. Qed.

Lemma runs_constant flow v s :
  ready s -> runs known (Flow.constant flow v) (dconstant v) (fun t v s' => live known s' t v) s.
Proof. intros Hr. exact (runs_thunk _ None ONone [] (fun _ _ w => Ok (v, w)) s [] Hr (List.Forall2_nil _) (no_addr _)). Qed.

Lemma runs_operand flow fr d o s :
  f_thread flow = th -> ready s -> frame_rel s fr d ->
  runs known (decode_operand thread_local flow fr o) (d_operand thread_local th consts d o) (fun t v s' => live known s' t v) s.
Proof.
  intros Hth Hr Hf. destruct o as [c t|e|c l|]; simpl.
  - destruct (consts t) as [v|] eqn:E; [|done]. apply runs_ret; [apply Hr|]. by apply Hr.
  - eapply runs_bind; [apply runs_evaluate; [done|apply Hr]|]. intros v v' s' Hl ->. apply runs_constant.
    by eapply ready_later.
  - destruct (fr_temps s fr d Hf l) as [t v Ht|]; [by apply runs_ret; [apply Hr|]|].
    apply runs_raise.
  - apply runs_raise.
Qed.

Lemma runs_operands flow fr d os s :
  f_thread flow = th -> ready s -> frame_rel s fr d ->
  runs known (decode_operands thread_local flow fr os) (dmapM (d_operand thread_local th consts d) os)
    (fun ts vs s' => Forall2 (live known s') ts vs) s.
Proof.
  intros Hth Hr Hf.
  apply (runs_mapM known _ _ (fun a a' s => a = a' /\ ready s /\ frame_rel s fr d) (fun t v s => live known s t v)).
  - intros s1 s2 a a' Hl (? & ? & ?). to_later. done.
  - intros s1 s2 t v Hl ?. by to_later.
  - intros s1 a a' _ (-> & ? & ?) _ _. by apply runs_operand.
  - apply Hr.
  - clear -Hr Hf. induction os; by constructor.
Qed.

(** The results of an instruction and of a terminator. *)
Definition frame_result (r : option InterpFrame) (r' : option Frame) s : Prop :=
  match r, r' with Some fr, Some d => frame_rel s fr d | None, None => True | _, _ => False end.
Definition value_result (r : option Z) (r' : option Value) s : Prop :=
  match r, r' with Some t, Some v => live known s t v | None, None => True | _, _ => False end.
Definition term_result (r : option (DecodeResult * InterpFrame)) (r' : option (Next * Frame)) s : Prop :=
  match r, r' with
  | Some (Jump b, fr), Some (DJump b', d) => b = b' /\ frame_rel s fr d
  | Some (Return t, _), Some (DReturn v, _) => live known s t v
  | None, None => True
  | _, _ => False
  end.

Section Call.
Context (call_address : Z -> FlowCtx -> list Z -> Async X (option Z)).
Context (d_address : Z -> Backtrace -> list Value -> Direct X (option Value)).
Hypothesis Hcall : forall a flow ts vs s,
  f_thread flow = th -> ready s -> Forall2 (live known s) ts vs ->
  runs known (call_address a flow ts) (d_address a (f_backtrace flow) vs) value_result s.

(** One step of a task: [runs_go L] uses the lemma [L] for the first action. *)
Tactic Notation "go" uconstr(L) :=
  eapply runs_bind; [eapply L; eauto; fail|]; intros ? ? ? ? ?; cbv beta in *; simplify_eq; to_later.
Ltac go_lift := eapply runs_bind; [apply (runs_lift known _ (fun a b _ => a = b)); [match goal with H : ready ?s |- idle _ ?s => apply H end|done]|];
  intros ? ? ? ? ?; cbv beta in *; simplify_eq; to_later.
Ltac go_thunk := unfold a_thunk, a_load, a_store; try match goal with H : f_thread ?f = ?t |- context [f_thread ?f] => rewrite H end; eapply runs_bind; [eapply runs_thunk; [eassumption|first [eassumption|repeat (apply List.Forall2_cons; [eassumption|]); apply List.Forall2_nil]|first [apply no_addr|apply addr_first]]|];
  intros ? ? ? ? ?; to_later.
Ltac go_ret := apply runs_ret; [match goal with H : ready ?s |- idle _ ?s => apply H end|].

Lemma runs_call flow fr d f args s :
  f_thread flow = th -> ready s -> frame_rel s fr d ->
  runs known (decode_call thread_local call_address flow fr f args)
    (d_call thread_local th consts d_address (f_backtrace flow) d f args) value_result s.
Proof.
  intros Hth Hr Hf. unfold decode_call, d_call. go runs_operand. go runs_operands.
  eapply runs_awaited; [eassumption|]. by apply Hcall.
Qed.

Lemma runs_instr flow fr d i s :
  f_thread flow = th -> ready s -> frame_rel s fr d ->
  runs known (decode_instr thread_local call_address flow fr i)
    (d_instr thread_local th consts d_address (f_backtrace flow) d i) frame_result s.
Proof.
  intros Hth Hr Hf. destruct i as [dest os op|dest f args|dest n l|dest a o|a v o|dest a e r succ fail weak|dest a v op o| | |];
    cbn [decode_instr d_instr].
  - go runs_operands. go_thunk. go_ret. by apply frame_assign.
  - go runs_call. go_ret. destruct a as [t|], b as [v|]; try done. simpl. destruct dest; [by apply frame_assign|done].
  - go runs_operand. go_thunk. go_ret. by apply frame_assign.
  - go runs_operand. go_lift. go_thunk. go_ret. by apply frame_assign.
  - go runs_operand. go runs_operand. go_lift. go_thunk. go_ret. done.
  - do 3 go runs_operand. do 5 go_lift. go_thunk. go_ret. by apply frame_assign.
  - do 2 go runs_operand. go_lift. go_thunk. go_ret. by apply frame_assign.
  - apply runs_raise.
  - by go_ret.
  - apply runs_raise.
Qed.

Lemma runs_term flow fr d t s :
  f_thread flow = th -> ready s -> frame_rel s fr d ->
  runs known (decode_term thread_local call_address flow fr t)
    (d_term thread_local th consts d_address (f_backtrace flow) d t) term_result s.
Proof.
  intros Hth Hr Hf. destruct t as [o|b|o b1 b2|o m b|f args dest b| |]; cbn [decode_term d_term].
  - go runs_operand. by go_ret.
  - by go_ret.
  - go runs_operand. eapply runs_awaited; [eassumption|]. go_lift. by go_ret.
  - go runs_operand. eapply runs_awaited; [eassumption|]. by go_ret.
  - go runs_call. go_ret. destruct a as [t|], b0 as [v|]; try done. simpl. split; [done|]. by apply frame_assign.
  - apply runs_raise.
  - apply runs_raise.
Qed.

Lemma runs_phi flow fr d p s :
  f_thread flow = th -> ready s -> frame_rel s fr d ->
  runs known (decode_phi thread_local flow fr p) (d_phi thread_local th consts d p)
    (fun a b s' => a.1 = b.1 /\ live known s' a.2 b.2) s.
Proof.
  intros Hth Hr Hf. unfold decode_phi, d_phi. rewrite (fr_origin _ _ _ Hf). do 2 go_lift. go runs_operand. by go_ret.
Qed.

Lemma runs_phis flow fr d l s :
  f_thread flow = th -> ready s -> frame_rel s fr d ->
  runs known (amapM (decode_phi thread_local flow fr) l) (dmapM (d_phi thread_local th consts d) l)
    (fun a b s' => Forall2 (fun p q => p.1 = q.1 /\ live known s' p.2 q.2) a b) s.
Proof.
  intros Hth Hr Hf.
  apply (runs_mapM known _ _ (fun a a' s => a = a' /\ ready s /\ frame_rel s fr d)
    (fun p q s => p.1 = q.1 /\ live known s p.2 q.2)).
  - intros s1 s2 a a' Hl (? & ? & ?). to_later. done.
  - intros s1 s2 p q Hl [? ?]. by to_later.
  - intros s1 a a' _ (-> & ? & ?) _ _. by apply runs_phi.
  - apply Hr.
  - clear -Hr Hf. induction l; by constructor.
Qed.

Lemma runs_instrs flow fr d l s :
  f_thread flow = th -> ready s -> frame_rel s fr d ->
  runs known (decode_instrs thread_local call_address flow fr l)
    (d_instrs thread_local th consts d_address (f_backtrace flow) d l) frame_result s.
Proof.
  intros Hth. revert fr d s. induction l as [|i l IH]; intros fr d s Hr Hf; cbn [decode_instrs d_instrs]; [by go_ret|].
  eapply runs_bind; [by apply (runs_instr (with_frame flow (bi_frame i)))|]. intros r r' s1 Hl Hres. to_later.
  destruct r as [fr1|], r' as [d1|]; try done; [by apply IH|by go_ret].
Qed.

Lemma runs_from fuel flow cf b fr d s :
  f_thread flow = th -> ready s -> frame_rel s fr d ->
  runs known (decode_from thread_local call_address fuel flow cf b fr)
    (d_from thread_local th consts d_address fuel (f_backtrace flow) cf b d) value_result s.
Proof.
  intros Hth. revert b fr d s. induction fuel as [|fuel IH]; intros b fr d s Hr Hf; cbn [decode_from d_from]; [done|].
  eapply runs_bind; [by apply runs_phis|]. intros ps ps' s1 Hl Hps. to_later.
  assert (frame_rel s1 (assign_all ps fr) (d_assign_all ps' d)) as Hf1 by (by apply frame_assign_all). clear Hf Hps.
  eapply runs_bind; [by apply runs_instrs|]. intros r r' s2 Hl1 Hres. to_later.
  destruct r as [fr2|], r' as [d2|]; try done; [|by go_ret].
  eapply runs_bind; [by apply (runs_term (with_frame flow (bt_frame (blk_term b))))|]. intros r r' s3 Hl2 Ht. to_later.
  destruct r as [[[b1|t] fr3]|], r' as [[[b2|v] d3]|]; try done; [|by go_ret..].
  destruct Ht as [<- Hf3]. go_lift. apply IH; [done|]. destruct Hf3. by constructor.
Qed.

Lemma runs_func fuel flow cf ts vs s :
  f_thread flow = th -> ready s -> Forall2 (live known s) ts vs ->
  runs known (call_impl thread_local call_address fuel flow cf ts)
    (d_func thread_local th consts d_address fuel (f_backtrace flow) cf vs) value_result s.
Proof.
  intros Hth Hr HF. unfold call_impl, d_func, decode. rewrite (Forall2_length _ _ _ HF). do 2 go_lift.
  apply runs_from; [done|done|]. apply frame_assign_all.
  - constructor; [done|]. intros l. constructor.
  - clear -HF. revert vs HF. generalize (cf_args cf) as args. induction ts as [|t ts IH]; intros [|a args] vs HF.
    + constructor.
    + apply Forall2_nil_inv_l in HF as ->. constructor.
    + constructor.
    + apply Forall2_cons_inv_l in HF as (v & vs' & Hv & HF & ->). constructor; [done|by apply IH].
Qed.
End Call.

(** ** Native functions and calls *)

Context (native : String.string -> (FlowCtx -> Z -> list Value -> Async X (option Value)) ->
  FlowCtx -> list Z -> Async X (option Z)).
Context (native_direct : String.string -> (Backtrace -> Z -> list Value -> Direct X (option Value)) ->
  Backtrace -> list Value -> Direct X (option Value)).

(** Each native function does what [native_direct] says, given that calling back does. *)
Definition natives_ok : Prop := forall n invoke d_invoke,
  (forall flow a vs s, f_thread flow = th -> ready s ->
     runs known (invoke flow a vs) (d_invoke (f_backtrace flow) a vs) (fun r r' _ => r = r') s) ->
  forall flow ts vs s, f_thread flow = th -> ready s -> Forall2 (live known s) ts vs ->
    runs known (native n invoke flow ts) (native_direct n d_invoke (f_backtrace flow) vs) value_result s.

Lemma runs_constants flow vs s :
  ready s -> runs known (constants flow vs) (dmapM dconstant vs) (fun ts us s' => Forall2 (live known s') ts us) s.
Proof.
  intros Hr. apply (runs_mapM known _ _ (fun a b s => a = b /\ ready s) (fun t v s => live known s t v)).
  - intros s1 s2 a b Hl [? ?]. by to_later.
  - intros s1 s2 t v Hl ?. by to_later.
  - intros s1 a b _ [-> ?] _ _. by apply runs_constant.
  - apply Hr.
  - clear -Hr. induction vs; by constructor.
Qed.

Lemma runs_invoke flow (call : Func -> FlowCtx -> list Z -> Async X (option Z))
    (d_call : Func -> Backtrace -> list Value -> Direct X (option Value)) a vs s :
  (forall f flow ts vs s, f_thread flow = th -> ready s -> Forall2 (live known s) ts vs ->
     runs known (call f flow ts) (d_call f (f_backtrace flow) vs) value_result s) ->
  f_thread flow = th -> ready s ->
  runs known (invoke call defs flow a vs)
    (run* us := dmapM dconstant vs in
     run** f := unwrap (reverse_lookup_fun a defs) in d_call f (f_backtrace flow) us) (fun r r' _ => r = r') s.
Proof.
  intros Hcall Hth Hr. unfold invoke.
  eapply runs_bind; [by apply runs_constants|]. intros ts us s1 Hl HF. to_later.
  eapply runs_bind; [apply (runs_lift known _ (fun a b _ => a = b)); [apply Hr|done]|]. intros f f' s2 Hl1 ->. to_later.
  apply (runs_ext known _ (run* r := d_call f' (f_backtrace flow) us in dret r)).
  { unfold dbind, dret. by destruct (d_call f' _ us _) as [[[r d]|]|]. }
  eapply runs_bind; [by apply Hcall|]. intros r r' s3 Hl2 Hv. to_later.
  destruct r as [t|], r' as [v|]; try done; [|by apply runs_ret; [apply Hr|]].
  eapply runs_awaited; [exact Hv|]. by apply runs_ret; [apply Hr|].
Qed.

Lemma runs_call_imp fuel f flow ts vs s :
  natives_ok -> f_thread flow = th -> ready s -> Forall2 (live known s) ts vs ->
  runs known (call_imp thread_local defs native fuel f flow ts)
    (direct thread_local defs th consts native_direct fuel f (f_backtrace flow) vs) value_result s.
Proof.
  intros Hn. revert f flow ts vs s. induction fuel as [|fuel IH]; intros f flow ts vs s Hth Hr HF; cbn [call_imp direct]; [done|].
  destruct f as [cf|n].
  - apply runs_func; [|done..]. intros a flow' ts' vs' s' Hth' Hr' HF'. eapply runs_bind;
      [apply (runs_lift known _ (fun a b _ => a = b)); [apply Hr'|done]|]. intros g g' s1 Hl ->. to_later. by apply IH.
  - apply Hn; [|done..]. intros flow' a us s' Hth' Hr'. apply runs_invoke; [|done..]. intros. by apply IH.
Qed.
End Simulation.

Section Claims.
Context {BV : Bitvec} {TV : TypeMapView} {X : Type} (known : Z -> bool).
Context (thread_local : Z -> Z -> World X -> res (option (Z * World X))) (defs : Definitions Func).
Context (th : Z) (consts : Z -> option Value).
Implicit Types (s : Seq X) (flow : FlowCtx).

(** C9: The interpreter of thunks is an interpreter. If calling a function on
    values ([direct]: locals hold values, every instruction is performed at
    once, in order) ends with a result, an unwinding [Err(Panic)] or a panic of
    the simulator, then decoding it on handles of those values ends the same
    way, whatever the control flow, the depth of calls and the call-backs of
    native functions: it leaves the same memory and process, it has decoded
    exactly the thunks that direct execution counts, and the handle it returns
    holds the same value. *)
Theorem decode_is_direct native native_direct (fuel : nat) (f : Func) flow (ts : list Z) (vs : list Value) s
    (r : res (option Value * DState X)) :
  natives_ok known th consts native native_direct ->
  f_thread flow = th -> ready known th consts s -> Forall2 (live known s) ts vs ->
  direct thread_local defs th consts native_direct fuel f (f_backtrace flow) vs (world (q_state s), df_seq (q_df s)) = Some r ->
  match r with
  | Ok (rv, (w, n)) => exists rt s', exec known (call_imp thread_local defs native fuel f flow ts) s = Some (Ok (rt, s')) /\
      idle known s' /\ world (q_state s') = w /\ df_seq (q_df s') = n /\ value_result known rt rv s'
  | Panic e => exec known (call_imp thread_local defs native fuel f flow ts) s = Some (Panic e)
  end.
Proof.
  intros Hn Hth Hr HF Hd. pose proof (runs_call_imp known thread_local defs th consts native native_direct
    fuel f flow ts vs s Hn Hth Hr HF) as H. unfold runs, dstate in H. rewrite Hd in H.
  destruct r as [[rv [w n]]|e]; [|exact H]. destruct H as (rt & s' & He & [] & [= <- <-] & Hv). by exists rt, s'.
Qed.

(** The thunk of a constant. *)
Lemma compile_operand_constant (moduleid : Z) (symbols : SymbolTable) (x : Operand) cs class t cs' :
  compile_operand moduleid symbols x cs = Ok (OConstant class t, cs') ->
  exists v, heap (fc_state cs') !! t = Some (MkThunk (X := X) 0 0 [] None ONone [] (Ready v) [] false).
Proof.
  destruct x as [n ty|k|]; cbn [compile_operand]; intros H.
  - by apply bind_Ok in H as ([c s1] & _ & ([l s2] & _ & [=])%bind_Ok).
  - apply bind_Ok in H as ([e s1] & _ & H). destruct e as [c v| |]; [|done..].
    injection H as _ <- <-. exists v. cbn. by rewrite lookup_insert_eq.
  - apply bind_Ok in H as ([c s1] & _ & ([u s2] & _ & [= _ <- <-])%bind_Ok). exists u. cbn. by rewrite lookup_insert_eq.
Qed.
End Claims.

(** ** Concrete runs *)

#[local] Existing Instance func_view.

(** The compiled [sum_func] called on [n], in a thread that has decoded nothing. *)
Definition sum_start (n : Z) : res (CFunc * Seq unit) :=
  let! (cf, s) := sum_compiled in
  let! v := from_int (BV := bitvec_ref) 32 n in
  Ok (cf, MkSeq (df_new 0) (thunk_constant (fc_slot s) v (fc_state s)) (fc_slot s + 1)).

Definition no_thread_local (th key : Z) (w : World unit) : res (option (Z * World unit)) := Panic UnwrapFailed.
Definition no_native (n : String.string) (_ : FlowCtx -> Z -> list Value -> Async unit (option Value))
  (_ : FlowCtx) (_ : list Z) : Async unit (option Z) := Raise Todo.
Definition no_native_direct (n : String.string) (_ : Backtrace -> Z -> list Value -> Direct unit (option Value))
  (_ : Backtrace) (_ : list Value) : Direct unit (option Value) := dlift (Panic Todo).

Lemma no_natives_ok known th consts :
  natives_ok known th consts no_native no_native_direct.
Proof. intros n inv d_inv _ flow ts vs s _ _ _. apply runs_raise. Qed.

(** The values the thunks of a state have. *)
Definition consts_of (s : Seq unit) (t : Z) : option Value := if t <? q_slot s then val (q_state s) t else None.

Lemma consts_ready th s :
  idle all_known s -> df_thread (q_df s) = th -> ready all_known th (consts_of s) s.
Proof.
  intros Hi Ht. constructor; [done|done|]. intros t v. unfold consts_of, val.
  destruct (Z.ltb_spec t (q_slot s)); [|done]. destruct (heap (q_state s) !! t) as [i|] eqn:E; [|done].
  destruct (t_value i) eqn:Ev; [done| |done]. intros [= ->]. by exists i.
Qed.

(** Executing [sum_func] directly. *)
Definition sum_direct (n : Z) : option (res (option Value * DState unit)) :=
  match sum_start n with
  | Ok (cf, s) =>
      match consts_of s (q_slot s - 1) with
      | Some v => direct (BV := bitvec_ref) no_thread_local defs_new 0 (consts_of s) no_native_direct 20 (FnCompiled cf) []
          [v] (world (q_state s), df_seq (q_df s))
      | None => None
      end
  | Panic _ => None
  end.

Definition sum_value (r : option (res (option Value * DState unit))) : option Z :=
  match r with Some (Ok (Some v, _)) => Some (as_u64 v) | _ => None end.

Lemma decode_is_direct_witness :
  exists cf s v rt s', sum_start 3 = Ok (cf, s) /\
    exec all_known (call_imp (BV := bitvec_ref) no_thread_local defs_new no_native 20 (FnCompiled cf) (MkFlow 0 [])
      [q_slot s - 1]) s = Some (Ok (rt, s')) /\
    value_result all_known rt (Some v) s' /\ as_u64 v = 3 + 2 + 1.
Proof.
  assert (sum_value (sum_direct 3) = Some 6) as Hv by (vm_compute; reflexivity).
  assert (match sum_start 3 with Ok (_, s) => bool_decide (df_thunks (q_df s) = []) && (0 =? df_thread (q_df s)) && (0 =? df_seq (q_df s))
    | _ => false end = true) as Hi by (vm_compute; reflexivity).
  unfold sum_direct in Hv. destruct (sum_start 3) as [[cf s]|] eqn:E; [|discriminate Hv].
  apply andb_true_iff in Hi as [[Hq%bool_decide_eq_true Ht%Z.eqb_eq]%andb_true_iff Hs%Z.eqb_eq].
  destruct (consts_of s (q_slot s - 1)) as [v0|] eqn:E0; [|discriminate Hv].
  destruct (direct _ _ _ _ _ _ _ _ _ _) as [r|] eqn:Ed; [|discriminate Hv].
  assert (ready all_known 0 (consts_of s) s) as Hr by (apply consts_ready; [split_and!; [done|done|lia]|done]).
  pose proof (decode_is_direct (BV := bitvec_ref) all_known no_thread_local defs_new 0 (consts_of s)
    no_native no_native_direct 20 (FnCompiled cf) (MkFlow 0 []) [q_slot s - 1] [v0] s r
    (no_natives_ok _ _ _) eq_refl Hr (List.Forall2_cons _ _ (ready_consts _ _ _ _ Hr _ _ E0) (List.Forall2_nil _)) Ed) as H.
  destruct r as [[[v|] [w n]]|e]; try discriminate Hv. injection Hv as Hv.
  destruct H as (rt & s' & He & _ & _ & _ & Hres). exists cf, s, v, rt, s'. split_and!; [reflexivity|exact He|exact Hres|exact Hv].
Defined.

(** The constant 1 of 32 bits, compiled, and thread 1 in a process whose thread 0
    is gone. *)
Definition compiled_one : res (COperand * FuncCompiler unit) :=
  compile_operand (BV := bitvec_ref) 0 symbols_new (ConstantOperand (ConstInt 32 1)) (fc_new empty_state 5).
Definition reaped (id : Z) : bool := negb (id =? 0).

