(* ===== verification/Tracing.v ===== *)
(** * Tracing: what the debug output does to the simulation

    [TRACING] is a constant [true] in data.rs: every thunk is printed when it is
    decoded, with the values of its dependencies, and when it has been run, with
    its own. The text can be read back; but [Debug for Value] only knows widths
    of 0, 1 and whole bytes, and asserts otherwise, so a program that computes
    anything else, such as the result of comparing two vectors of two lanes,
    kills the simulator. What tracing a thread adds ([set_tracing]) is shown to
    be harmless: it prints nothing that has not been printed before. *)

From S2P Require Import Prelude Text RangeMap MemOrdering Layout Bitvec Value Memory Symbols Classes Operation.
From S2P Require Import Data Dependencies Local Pipeline Process Flow Sequential Expr Typing FuncCompiler Interp.

(** ** Tracing a thread *)

Section Tracing.
Context {BV : Bitvec} {X : Type}.
Implicit Types (st : State X) (t u d : Z).

(** What happens to the thunks of the threads: slots are given to constants and,
    through the queue of a thread, to new thunks; thunks are run and awaited.
    [q] are the thunks that have been put in a queue. *)
Inductive happens : State X * list Z -> State X * list Z -> Prop :=
  | happens_constant st q t v :
      heap st !! t = None -> happens (st, q) (thunk_constant t v st, q)
  | happens_decode st q known t bt address o deps c df t' df' st' :
      heap st !! t = None -> thunk_impl known t bt address o deps c df st = Ok (Some (t', df', st')) ->
      happens (st, q) (st', t' :: q)
  | happens_step st q t b st' : Data.step t st = Ok (b, st') -> happens (st, q) (st', q)
  | happens_poll st q known waker t o st' : Data.poll known waker t st = Ok (o, st') -> happens (st, q) (st', q).

(** Everything in a queue and everything that anything depends on can be shown. *)
Record all_shown st (q : list Z) : Prop := {
  as_queue : forall t, t ∈ q -> can_show st t;
  as_deps : forall t i d, heap st !! t = Some i -> d ∈ t_deps i -> can_show st d
}.

(** A change of one thunk that leaves it as easy to show. *)
Lemma all_shown_insert st q t i w ws :
  (forall j, heap st !! t = Some j -> t_deps i = t_deps j) -> is_Some (heap st !! t) -> shown i = true ->
  all_shown st q -> all_shown (MkState (<[t := i]> (heap st)) w ws) q.
Proof.
  intros Hd [j Hj] Hi [Hq Ha].
  assert (forall u, can_show st u -> can_show (MkState (<[t := i]> (heap st)) w ws) u) as Hc.
  { intros u (k & Hk & Hs). unfold can_show. simpl. destruct (decide (u = t)) as [->|].
    - rewrite lookup_insert_eq. by exists i.
    - rewrite lookup_insert_ne by done. by exists k. }
  split; [by eauto|]. simpl. intros u k d. destruct (decide (u = t)) as [->|].
  - rewrite lookup_insert_eq. intros [= <-] Hin. apply Hc, (Ha t j d Hj). by rewrite <- (Hd j Hj).
  - rewrite lookup_insert_ne by done. eauto.
Qed.

(** A new thunk. *)
Lemma all_shown_new st q t i w ws :
  heap st !! t = None -> (forall d, d ∈ t_deps i -> can_show (MkState (<[t := i]> (heap st)) w ws) d) ->
  all_shown st q -> all_shown (MkState (<[t := i]> (heap st)) w ws) q.
Proof.
  intros Ht Hd [Hq Ha].
  assert (forall u, can_show st u -> can_show (MkState (<[t := i]> (heap st)) w ws) u) as Hc.
  { intros u (k & Hk & Hs). unfold can_show. simpl. rewrite lookup_insert_ne by congruence. by exists k. }
  split; [by eauto|]. simpl. intros u k d. destruct (decide (u = t)) as [->|].
  - rewrite lookup_insert_eq. intros [= <-]. apply Hd.
  - rewrite lookup_insert_ne by done. eauto.
Qed.

Lemma happens_shown x y : happens x y -> all_shown x.1 x.2 -> all_shown y.1 y.2.
Proof.
  intros Hh Hs. destruct Hh as [st q t v Ht|st q known t bt ad o ds c df t' df' st' Ht Hi|st q t b st' Hst|st q known wk t o st' Hp];
    simpl in *.
  - apply all_shown_new; [done|by intros d ?%not_elem_of_nil|done].
  - unfold thunk_impl in Hi. apply bind_Ok in Hi as (? & _ & Hi). destruct (_ <=? _); [done|].
    apply bind_Ok in Hi as (n & _ & ([] & (line & Hl)%print_Ok & [= <- _ <-])%bind_Ok).
    destruct (proj1 (declared_Ok _ _) (ex_intro _ _ Hl)) as [Hsi Hm].
    match goal with |- all_shown ?s _ => assert (all_shown s q) as [Hq Ha] end.
    { apply all_shown_new; [done| |done]. intros d Hd. apply Hm. unfold mentions. apply elem_of_app. by left. }
    split; [|exact Ha]. intros u [->|Hu]%elem_of_cons; [|auto]. eexists. simpl. by rewrite lookup_insert_eq.
  - destruct b; [|by apply step_false in Hst as ->].
    apply step_true in Hst as (i & args & c & v & w & Hi & _ & _ & _ & Hv & ->).
    apply all_shown_insert; [intros j Hj; by simplify_eq|by eexists|done|done].
  - unfold Data.poll, deref in Hp. destruct (heap st !! t) as [i|] eqn:Hi; [|done]. cbn [bind] in Hp.
    apply bind_Ok in Hp as (r & Hr & Hp). destruct r as [v|]; apply bind_Ok in Hp as (? & _ & [= _ <-]); [done|].
    apply all_shown_insert; [intros j Hj; by simplify_eq|by eexists| |done].
    unfold try_get, deref in Hr. rewrite Hi in Hr. cbn [bind] in Hr. unfold shown. simpl. by destruct (t_value i).
Qed.

Lemma mapM_shows st l : (forall t, t ∈ l -> can_show st t) -> exists xs, mapM (thunk_debug st) l = Ok xs.
Proof.
  induction l as [|t l IH]; intros H; [by eexists|]. cbn [mapM].
  destruct (proj2 (thunk_debug_Ok st t)) as [x ->]; [apply H; by left|].
  destruct IH as [xs ->]; [intros; apply H; by right|]. by eexists.
Qed.

Lemma full_debug_shows st q t : all_shown st q -> t ∈ q -> exists x, full_debug st t = Ok x.
Proof.
  intros [Hq Ha] Ht. unfold full_debug. pose proof (Hq t Ht) as Hs. pose proof Hs as (i & Hi & _).
  destruct (proj2 (thunk_debug_Ok st t) Hs) as [x ->]. cbn [bind].
  destruct (mapM_shows st (default [] (all_deps (search_bound st) st t))) as [xs ->].
  { intros d [->|(u & Hu)]%all_deps_dep; [done|]. unfold dep, deps_of in Hu.
    destruct (heap st !! u) as [j|] eqn:Hj; [|by apply not_elem_of_nil in Hu]. by eapply Ha. }
  cbn [bind]. unfold deref. rewrite Hi. by eexists.
Qed.
End Tracing.

Section Claims.
Context {BV : Bitvec} {X E R F : Type}.
Implicit Types (p : Process X E R F) (st : State X).

(** What [Process::step] does with the operations it is offered, if nothing is
    ever traced. *)
Definition silent_choose (choose : Z -> R -> Z * R) (resolvable : list Z) p : res (bool * Process X E R F) :=
  match resolvable with
  | [] => assert! bool_decide (length (threads (p_sched p)) = 0%nat) or AssertFailed in Ok (false, p)
  | [t] => step_resolvable t p
  | _ =>
      let '(i, rng) := choose (zlen resolvable) (p_rng p) in
      let! t := index resolvable i in
      step_resolvable t (set_rng rng p)
  end.

(** C8: Tracing is harmless. However the thunks of a process came about, with
    tracing on or off, showing a race (every operation offered, all it depends on
    and the queues of all threads) never panics: [step] does what it would do if
    [set_tracing] had never been called. *)
Theorem tracing_is_harmless (choose : Z -> R -> Z * R) (w : World X) p q r :
  rtc happens (MkState ∅ w [], []) (p_state p, q) -> (forall t, t ∈ r -> t ∈ q) ->
  (forall id th t, (id, th) ∈ sched_threads (p_sched p) -> t ∈ df_thunks (th_data th) -> t ∈ q) ->
  step_choose choose r p = silent_choose choose r p.
Proof.
  intros Hh Hr Hq. assert (all_shown (p_state p) q) as Hs.
  { change (all_shown (p_state p, q).1 (p_state p, q).2).
    assert (all_shown (MkState ∅ w [], @nil Z).1 (MkState ∅ w [], @nil Z).2) as H0.
    { split; [by intros t ?%not_elem_of_nil|by intros t i d Hi; cbn in Hi; rewrite lookup_empty in Hi]. }
    clear Hr Hq. induction Hh as [|x y z Hxy _ IH]; [done|]. by apply IH, (happens_shown x y). }
  destruct r as [|t [|u r]]; [done..|]. unfold step_choose, silent_choose.
  assert (race_debug (t :: u :: r) p = Ok tt) as ->; [|by destruct (existsb _ _)].
  unfold race_debug.
  assert (forall l, (forall x, x ∈ l -> x ∈ q) -> exists xs, mapM (full_debug (p_state p)) l = Ok xs) as Hfull.
  { induction l as [|x l IH]; intros Hl; [by eexists|]. cbn [mapM].
    destruct (full_debug_shows _ _ x Hs (Hl x ltac:(by left))) as [y ->].
    destruct IH as [ys ->]; [intros; apply Hl; by right|]. by eexists. }
  destruct (Hfull _ Hr) as [xs ->]. cbn [bind].
  assert (forall l, (forall th, th ∈ l -> forall x, x ∈ df_thunks (th_data th) -> x ∈ q) ->
    exists xs, mapM (fun th => dataflow_debug (p_state p) (th_data th)) l = Ok xs) as Hdata.
  { induction l as [|th l IH]; intros Hl; [by eexists|]. cbn [mapM]. unfold dataflow_debug at 1.
    destruct (mapM_shows (p_state p) (df_thunks (th_data th))) as [y ->].
    { intros x Hx. apply (as_queue _ _ Hs). apply (Hl th); [by left|done]. }
    cbn [bind]. destruct IH as [ys ->]; [intros; eapply Hl; [by right|done]|]. by eexists. }
  destruct (Hdata (sched_threads (p_sched p)).*2) as [ys ->]; [|done].
  intros th ([id th'] & -> & Hin)%list_elem_of_fmap x Hx. by eapply Hq.
Qed.

(** Whether the thunk [d] can be shown. *)
Definition showable st (d : Z) : bool := match heap st !! d with Some i => shown i | None => false end.

(** What is printed of a new thunk [t] without an address: its operands. *)
Lemma declared_operands st t i :
  heap st !! t = None -> t_address i = None -> shown i = true -> (forall d, d ∈ t_deps i -> is_Some (heap st !! d)) ->
  print (declared (MkState (<[t := i]> (heap st)) (world st) (woken st)) i) =
    if forallb (showable st) (t_deps i) then Ok tt else Panic AssertFailed.
Proof.
  intros Ht Ha Hs Hd. unfold declared. rewrite Ha. destruct (inner_debug_shown i Hs) as [x ->]. cbn [bind].
  set (st' := MkState _ _ _). generalize dependent (t_deps i). intros ds Hd.
  assert (if forallb (showable st) ds then exists xs, mapM (thunk_debug st') ds = Ok xs
    else mapM (thunk_debug st') ds = Panic AssertFailed) as H.
  { induction ds as [|d ds IH]; [by eexists|]. cbn [mapM forallb].
    destruct (Hd d ltac:(by left)) as [j Hj]. assert (d <> t) by congruence. unfold showable at 1, thunk_debug at 1 3, deref.
    subst st'. cbn [heap]. rewrite lookup_insert_ne by done. rewrite Hj. cbn [bind]. destruct (shown j) eqn:Hsj.
    - destruct (inner_debug_shown j Hsj) as [y ->]. cbn [bind andb].
      specialize (IH ltac:(intros e He; apply Hd; by right)). destruct (forallb (showable st) ds).
      + destruct IH as [xs ->]. by eexists.
      + by rewrite IH.
    - by rewrite (inner_debug_not_shown j Hsj). }
  destruct (forallb (showable st) ds); [destruct H as [xs ->]|rewrite H]; done.
Qed.

(** A thunk whose operands have values is run, and then printed. *)
Lemma step_runs st t i c args :
  heap st !! t = Some i -> t_value i = Pending c -> Forall2 (fun d v => val st d = Some v) (t_deps i) args ->
  Data.step t st =
    let! (v, w) := c (t_thread i) args (world st) in
    if printable v then Ok (true, MkState (<[t := set_wakers [] (set_value (Ready v) i)]> (heap st)) w (woken st ++ t_wakers i))
    else Panic AssertFailed.
Proof.
  intros Hi Hc Hargs. apply get_args_val in Hargs. unfold Data.step, deref. rewrite Hi. cbn [bind]. rewrite Hargs. cbn [bind].
  rewrite Hc. unfold inner_debug at 1. rewrite Hc. cbn [bind print]. destruct (c _ _ _) as [[v w]|]; [|done]. cbn [bind].
  destruct (printable v) eqn:Hp.
  - by destruct (inner_debug_shown (set_value (Ready v) i) Hp) as [x ->].
  - by rewrite (inner_debug_not_shown (set_value (Ready v) i) Hp).
Qed.

(** A value of whole bytes is printed as its bytes in hexadecimal, from which
    they are read back: what is printed of two different values of a width
    differs. *)
Theorem value_text_roundtrip v :
  Value.wf v -> 1 < bits v -> printable v = true ->
  exists s, Value.debug v = Ok s /\ unhex s = Some (imp v).
Proof.
  intros (_ & _ & _ & Hby) Hb Hp. unfold printable, printable_width in Hp. unfold Value.debug.
  destruct (Z.eqb_spec (bits v) 0), (Z.eqb_spec (bits v) 1); [lia..|]. cbn [orb] in Hp. rewrite Hp. cbn [guard_ bind].
  eexists. split; [done|]. by apply unhex_hex.
Qed.

(** An operation as the compiler makes it for operands of the classes [cs]: by
    [compile_operation], or, for the computation of an address, directly. *)
Definition compiled_op {TV : TypeMapView} (o : COperation) (cs : list Class) : Prop :=
  match name o with
  | GetElementPtr => input o = cs
  | n => tv_operation n cs = Ok o
  end.

Lemma compiled_op_ok {TV : TypeMapView} {TL : TypeLaws TV} o cs : compiled_op o cs -> input o = cs /\ op_ok o.
Proof.
  unfold compiled_op, op_ok at 1. destruct (name o) eqn:Hn; intros H; try done;
    by (destruct (tl_operation _ _ _ H) as [Hi Ho]; [|unfold op_ok in Ho; rewrite Hn in Ho]).
Qed.

(** The thunk that [decode_instr] makes of an operation. *)
Definition operation_thunk {TV : TypeMapView} (df : DataFlow) (bt : Backtrace) (deps : list Z) (o : COperation) : ThunkInner X :=
  MkThunk (df_thread df) (df_seq df) deps None ONone bt (Pending (compute_closure o)) [] (df_tracing df).

(** C13: Whether an operation survives being printed depends on its class alone,
    for every operation that is compiled, addresses included. Decoding one,
    when there is room in the pipeline, succeeds if all its operands can be
    printed (they are pending, or their values have no bits, one bit or whole
    bytes) and panics otherwise; and the thunk it makes, run at any later time on operands of its classes, does what
    [call_operation] does when its result class has values of no bits, one bit
    or whole bytes. When it has not, as with comparisons of vectors of 2 or of 4
    lanes, the thunk kills the simulator, whatever the operands. *)
Theorem operation_survives_printing `{BVL : !BitvecLaws} {TV : TypeMapView} {TL : TypeLaws TV} o cs l
    known t bt deps (df : DataFlow) st :
  compiled_op o cs -> cv_layout (output o) = Ok l ->
  known (df_thread df) = true -> df_len df < PIPELINE_SIZE -> 0 <= df_seq df -> df_seq df + 1 < 2 ^ 64 ->
  heap st !! t = None -> (forall d, d ∈ deps -> is_Some (heap st !! d)) ->
  thunk known t bt deps (compute_closure o) df st =
    (if forallb (showable st) deps then
       Ok (Some (t, MkDataFlow (df_thread df) (df_seq df + 1) (df_thunks df ++ [t]) (df_tracing df),
         MkState (<[t := operation_thunk df bt deps o]> (heap st)) (world st) (woken st)))
     else Panic AssertFailed) /\
  (forall st' ws args,
     heap st' !! t = Some (set_wakers ws (operation_thunk df bt deps o)) ->
     Forall2 (fun d v => val st' d = Some v) deps args -> Forall2 typed args cs ->
     Data.step t st' =
       let! v := call_operation o args in
       if printable_width (Layout.bits l) then
         Ok (true, MkState (<[t := set_wakers [] (set_value (Ready v) (operation_thunk df bt deps o))]> (heap st'))
                     (world st') (woken st' ++ ws))
       else Panic AssertFailed).
Proof.
  intros Ho Hl Hk Hlen H0 H1 Ht Hdeps. split.
  - unfold thunk, thunk_impl. rewrite Hk. cbn [guard_ bind]. rewrite (proj2 (Z.leb_gt _ _) Hlen), add64_ok by lia. cbn [bind].
    rewrite declared_operands by done. cbn [t_deps]. by destruct (forallb (showable st) deps).
  - intros st' ws args Hi Hargs HF. rewrite (step_runs _ _ _ _ _ Hi eq_refl Hargs). unfold compute_closure.
    destruct (call_operation o args) as [v|e] eqn:Hv; [|done]. cbn [bind].
    destruct (compiled_op_ok _ _ Ho) as [<- Hok]. destruct (operation_typed _ _ _ Hok HF Hv) as (l' & Hl' & _ & Hb).
    assert (l' = l) as -> by congruence. unfold printable. by rewrite Hb.
Qed.
End Claims.

(** ** Concrete runs *)

(** Two relaxed loads of one byte, decoded while the thread is traced. *)
Definition traced_step (x : option (DataFlow * State unit)) (t : Z) : option (DataFlow * State unit) :=
  match x with
  | Some (df, st) =>
      match Data.load (fun _ => true) t [MkFrame 7 "race.rs:1"] 1 (MkLayout 8 8) Relaxed df st with
      | Ok (Some (_, df, st)) => Some (df, st)
      | _ => None
      end
  | None => None
  end.
Definition traced_world : World unit := MkWorld sample_memory tt.
Definition traced_run : option (DataFlow * State unit) :=
  fold_left traced_step [10; 11] (Some (set_tracing true (df_new 0), thunk_constant 1 (addr_value 200) (MkState ∅ traced_world []))).
Definition traced_process : Process unit unit unit unit :=
  match traced_run with
  | Some (df, st) => sample_process [(0, df)] st
  | None => sample_process [] (MkState ∅ traced_world [])
  end.

Lemma tracing_is_harmless_witness :
  existsb (thunk_tracing (p_state traced_process)) [10; 11] = true /\
  step_choose pick_last [10; 11] traced_process = silent_choose pick_last [10; 11] traced_process.
Proof.
  assert (match traced_run with Some (df, st) => existsb (thunk_tracing st) [10; 11] && bool_decide (df_thunks df = [10; 11])
    | None => false end = true) as Hc by (vm_compute; reflexivity).
  unfold traced_process in *. unfold traced_run in *. cbn [fold_left] in *.
  set (st0 := thunk_constant 1 _ _) in *. unfold traced_step at 2 in Hc. unfold traced_step at 2.
  destruct (Data.load _ 10 _ _ _ _ _ st0) as [[[[t1 df1] st1]|]|] eqn:H1; [|discriminate Hc..].
  unfold traced_step in *. destruct (Data.load _ 11 _ _ _ _ df1 st1) as [[[[t2 df2] st2]|]|] eqn:H2; [|discriminate Hc..].
  rewrite H1. rewrite H2. apply andb_true_iff in Hc as [Hc Hd%bool_decide_eq_true]. split; [exact Hc|].
  assert (t1 = 10 /\ t2 = 11) as [-> ->].
  { split; [clear -H1; unfold Data.load, thunk_impl in H1|clear -H2; unfold Data.load, thunk_impl in H2]; res_inv;
      repeat case_match; res_inv; simplify_eq; done. }
  apply (tracing_is_harmless pick_last traced_world _ [11; 10] [10; 11]).
  - eapply rtc_l; [apply (happens_constant _ _ 1 (addr_value 200)); reflexivity|].
    eapply rtc_l; [eapply happens_decode; [|exact H1]; reflexivity|].
    eapply rtc_l; [eapply happens_decode; [|exact H2]|apply rtc_refl].
    revert H1. clear. unfold Data.load, thunk_impl. intros H. res_inv. repeat case_match; res_inv; simplify_eq. done.
  - set_solver.
  - intros id th t [[= -> ->]|H%elem_of_nil]%elem_of_cons; [|done]. cbn [th_data]. rewrite Hd. set_solver.
Defined.

Lemma value_text_roundtrip_witness :
  exists s, Value.debug (MkValue [0xAB; 0x07] 16) = Ok s /\ s = "AB07"%string /\ unhex s = Some [0xAB; 0x07].
Proof.
  destruct (value_text_roundtrip (MkValue [0xAB; 0x07] 16)) as (s & Hs & Hu).
  - split_and!; [simpl; lia|simpl; lia|reflexivity|repeat constructor; unfold is_byte; lia].
  - simpl. lia.
  - reflexivity.
  - exists s. split; [exact Hs|]. split; [by injection Hs as <-|exact Hu].
Defined.

(** Comparing <250, 3> with <10, 4>, two constants: the comparison is decoded, and
    panics when it is run. *)
#[local] Instance tracing_view : TypeMapView := type_view 5 (fun _ => None) sample_typed.
Definition compare_bytes : COperation := {| name := ICmp SLT; input := [byte_vector; byte_vector]; output := 5 |}.
Definition byte_vectors : State unit :=
  thunk_constant 2 (MkValue [10; 4] 16) (thunk_constant 1 (MkValue [250; 3] 16) (MkState ∅ traced_world [])).
Definition comparing : State unit :=
  MkState (<[3 := operation_thunk (df_new 0) [] [1; 2] compare_bytes]> (heap byte_vectors)) traced_world [].

Lemma operation_survives_printing_witness :
  (exists df, thunk (fun _ => true) 3 [] [1; 2] (compute_closure compare_bytes) (df_new 0) byte_vectors =
     Ok (Some (3, df, comparing))) /\
  Data.step 3 comparing = Panic AssertFailed.
Proof.
  assert (typed (MkValue [250; 3] 16) byte_vector /\ typed (MkValue [10; 4] 16) byte_vector) as [H1 H2].
  { split; eexists; (split; [vm_compute; reflexivity|]); (split; [|reflexivity]);
      (split_and!; [simpl; lia|simpl; lia|reflexivity|repeat constructor; unfold is_byte; lia]). }
  destruct (cv_layout (output compare_bytes)) as [l|] eqn:Hl; [|vm_compute in Hl; discriminate Hl].
  destruct (operation_survives_printing (TL := sample_typed_laws) compare_bytes [byte_vector; byte_vector] l
    (fun _ => true) 3 [] [1; 2] (df_new 0) byte_vectors) as [Hd Hs].
  - vm_compute. reflexivity.
  - exact Hl.
  - reflexivity.
  - reflexivity.
  - reflexivity.
  - reflexivity.
  - reflexivity.
  - intros d [->|[->|H%elem_of_nil]%elem_of_cons]%elem_of_cons; [eexists; reflexivity..|destruct H].
  - split; [cbv zeta; eexists; exact Hd|].
    rewrite (Hs comparing [] [MkValue [250; 3] 16; MkValue [10; 4] 16]); [|reflexivity|repeat constructor|repeat constructor; assumption].
    vm_compute in Hl. injection Hl as <-. vm_compute. reflexivity.
Defined.
