(* ===== verification/Executor.v ===== *)
(** * Executor: src/src/util/future.rs, the tasks of src/src/thread.rs and
      src/src/process.rs

    The decoding tasks inside the process. A task is polled: it decodes thunks
    until it has to wait, for the value of a thunk or for room in the pipeline.
    The pool polls a task when it has been spawned and when a waker it handed
    out has been called ([LocalPool] of the futures crate, a parameter with the
    law [local_pool]); the wakers are called by [Thunk::step]. *)

From S2P Require Import Prelude RangeMap MemOrdering Layout Bitvec Value Memory Symbols Classes Operation.
From S2P Require Import Data Local Pipeline Process Flow.

(** ** [pending_once] and the wait of [thunk_impl] *)

(** [struct Fut(bool)]; [poll] returns whether it is ready, and does not use the
    waker. *)
Definition pending_once : bool := false.
Definition fut_poll (self : bool) : bool * bool := if self then (true, self) else (false, true).

(** Polling [while len >= PIPELINE_SIZE { pending_once().await }]: [fut] is the
    future it stopped at. *)
Definition wait_enter (full : bool) : bool * option bool :=
  if full then let '(ready, fut) := fut_poll pending_once in (ready, Some fut) else (true, None).
Definition wait_poll (full : bool) (fut : option bool) : bool * option bool :=
  match fut with
  | None => wait_enter full
  | Some fut => let '(ready, fut) := fut_poll fut in if ready then wait_enter full else (false, Some fut)
  end.

(** Whatever was polled before, the loop is left when the queue has room. *)
Lemma wait_poll_spec full before :
  let fut := fold_left (fun fut full => (wait_poll full fut).2) before None in
  (wait_poll full fut).1 = negb full.
Proof.
  intros fut. assert (fut = None \/ fut = Some true) as [->| ->]; [|by destruct full..].
  subst fut. induction before as [|b bs IH] using rev_ind; [by left|].
  rewrite fold_left_app. simpl. destruct IH as [->| ->]; destruct b; simpl; auto.
Qed.

(** ** Polling a task *)

Section Executor.
Context {BV : Bitvec} {X R F : Type}.

(** [Poll]: ready with a result, or what is left of the task. *)
Inductive Polled (A : Type) := Finished (a : A) | Waiting (c : Async X A).
#[global] Arguments Finished {A} a.
#[global] Arguments Waiting {A} c.

(** The [Future] of an async function, polled by the task [waker]; [exec] is the
    run of a task that never has to wait. A loop out of fuel is never left. *)
Fixpoint poll_task (known : Z -> bool) (waker : Z) {A} (c : Async X A) (s : Seq X) : res (Polled A * Seq X) :=
  match c with
  | Ret a => Ok (Finished a, s)
  | Raise e => Panic e
  | Exhausted => Ok (Waiting c, s)
  | Decode b address o deps comp k =>
      let! r := thunk_impl known (q_slot s) b address o deps comp (q_df s) (q_state s) in
      match r with
      | None => Ok (Waiting c, s)
      | Some (t, df, st) => poll_task known waker (k t) (MkSeq df st (q_slot s + 1))
      end
  | Await t k =>
      let! (o, st) := Data.poll known waker t (q_state s) in
      let s := MkSeq (q_df s) st (q_slot s) in
      match o with Some v => poll_task known waker (k v) s | None => Ok (Waiting c, s) end
  | Act f k =>
      let! r := f (world (q_state s)) in
      match r with
      | Some (r, w) => poll_task known waker (k r) (set_world w s)
      | None => Ok (Waiting c, s)
      end
  | SetTracing b k => poll_task known waker k (MkSeq (set_tracing b (q_df s)) (q_state s) (q_slot s))
  end.

(** The future of [Thread::new]: what it sends through [join_signal]. *)
Definition control (call_imp : F -> FlowCtx -> list Z -> Async X (option Z)) (threadid : Z) (main : F)
    (params : list Value) : Async X Z :=
  let flow := MkFlow threadid bt_empty in
  let* deps := constants flow params in
  let* main := call_imp main flow deps in
  let** value := unwrap main in
  let* value := await value in
  Ret (as_u64 value).

(** ** The pool *)

(** The tasks, which are numbered by the thread they decode; those that have not
    been polled yet; the next slot for a thunk; what threads have sent through
    their channels, whose receivers ([Shared]) may outlive the thread. *)
Record Pool := MkPool { e_tasks : gmap Z (Async X Z); e_spawned : list Z; e_slot : Z; e_sent : gmap Z Z }.

(** [spawn_local(Thread::new(..).1)] *)
Definition spawn_control (call_imp : F -> FlowCtx -> list Z -> Async X (option Z)) (threadid : Z) (main : F)
    (params : list Value) (e : Pool) : Pool :=
  MkPool (<[threadid := control call_imp threadid main params]> (e_tasks e)) (e_spawned e ++ [threadid])
    (e_slot e) (e_sent e).

Abbreviation Process := (Process X Pool R F).

Definition known (p : Process) (id : Z) : bool := bool_decide (is_Some (Process.thread id p)).

Definition set_join (j : Join) (t : Thread) : Thread := MkThread (th_id t) (th_data t) (th_locals t) j.

(** The queue and the channel of a thread, changed through shared handles. *)
Definition alter_thread (f : Thread -> Thread) (id : Z) (s : Scheduler) : Scheduler :=
  MkScheduler (bt_alter f id (sched_threads s)) (next_threadid s).

(** One poll of a task; one that has ended is not polled again. The queue and
    the receiver of the channel are reached through the thread. *)
Definition poll_thread (id : Z) (p : Process) : res Process :=
  let e := p_pool p in
  match e_tasks e !! id with
  | None => Ok p
  | Some c =>
      let! t := unwrap (Process.thread id p) in
      let! (r, s) := poll_task (known p) id c (MkSeq (th_data t) (p_state p) (e_slot e)) in
      let sched := alter_thread (set_data (q_df s)) id (p_sched p) in
      match r with
      | Waiting c =>
          Ok (MkProcess (q_state s) sched (p_symbols p) (p_defs p)
                (MkPool (<[id := c]> (e_tasks e)) (e_spawned e) (q_slot s) (e_sent e)) (p_rng p))
      | Finished v =>
          Ok (MkProcess (q_state s) (alter_thread (set_join (JoinSent v)) id sched) (p_symbols p) (p_defs p)
                (MkPool (delete id (e_tasks e)) (e_spawned e) (q_slot s) (<[id := v]> (e_sent e))) (p_rng p))
      end
  end.

(** The tasks the pool has to poll, and the process once it has taken note. *)
Definition awake (p : Process) : list Z := remove_dups (e_spawned (p_pool p) ++ woken (p_state p)).
Definition taken (p : Process) : Process :=
  MkProcess (MkState (heap (p_state p)) (world (p_state p)) []) (p_sched p) (p_symbols p) (p_defs p)
    (MkPool (e_tasks (p_pool p)) [] (e_slot (p_pool p)) (e_sent (p_pool p))) (p_rng p).

Definition polls (ids : list Z) (p : Process) : res Process := foldM (fun p id => poll_thread id p) p ids.

(** [LocalPool::run_until_stalled], as it is documented: every task that has been
    spawned or woken is polled, in an order of the pool's own. The polls of these
    tasks wake none. *)
Definition local_pool (run_until_stalled : Process -> res Process) : Prop :=
  forall p, exists ids, ids ≡ₚ awake p /\ run_until_stalled p = polls ids (taken p).

(** Two pools that do: the oldest wake-up first, and the newest. *)
Definition fifo_pool (p : Process) : res Process := polls (awake p) (taken p).
Definition lifo_pool (p : Process) : res Process := polls (rev (awake p)) (taken p).

Lemma fifo_pool_ok : local_pool fifo_pool.
Proof. intros p. by exists (awake p). Qed.

Lemma lifo_pool_ok : local_pool lifo_pool.
Proof. intros p. exists (rev (awake p)). split; [symmetry; apply Permutation_rev|done]. Qed.
End Executor.
Arguments Pool X : clear implicits.
Arguments Polled X A : clear implicits.

(** ** A pipeline that fills up *)

(** A function that decodes [n] constants and returns the last. *)
Fixpoint many {X} `{Bitvec} (n : nat) (flow : FlowCtx) (last : option Z) : Async X (option Z) :=
  match n with
  | O => Ret last
  | S n => let** v := from_int 64 7 in let* t := constant flow v in many n flow (Some t)
  end.
Definition many_imp (n : nat) (flow : FlowCtx) (_ : list Z) : Async unit (option Z) := many (H := bitvec_ref) n flow None.

(** A process, and one whose only thread calls the function at address 8. *)
Definition new_process {F} (defs : Definitions F) : Process unit (Pool unit) unit F :=
  MkProcess (MkState ∅ (MkWorld mem_new tt) []) scheduler_new symbols_new defs (MkPool ∅ [] 0 ∅) tt.
Definition many_process (n : nat) : res (Process unit (Pool unit) unit nat) :=
  let! (_, p) := add_thread (spawn_control many_imp) 8 [] (new_process (MkDefs {[8 := n]} ∅)) in Ok p.

Definition many_run (n fuel : nat) : option (res Z) :=
  match many_process n with
  | Ok p =>
      match run fifo_pool pick_first 3 fuel p with
      | Some (Ok p) => Some (Ok (zlen (threads (p_sched p))))
      | Some (Panic e) => Some (Panic e)
      | None => None
      end
  | Panic e => Some (Panic e)
  end.

(** ** Tasks that are never polled again *)

Section Asleep.
Context {BV : Bitvec} {X R F : Type}.
Implicit Types (st : State X) (p : Process X (Pool X) R F) (id t : Z).

(** No thunk will wake the task [id], and none has. *)
Definition unwaited st id : Prop :=
  (id ∉ woken st) /\ forall t i, heap st !! t = Some i -> id ∉ t_wakers i.

(** The task [c] of a living thread that the pool has no reason to poll. *)
Record stuck (id : Z) (c : Async X Z) p : Prop := {
  st_task : e_tasks (p_pool p) !! id = Some c;
  st_join : exists th, Process.thread id p = Some th /\ th_join th = JoinPending;
  st_spawned : id ∉ e_spawned (p_pool p);
  st_unwaited : unwaited (p_state p) id
}.

Lemma bt_get_alter {V} (f : V -> V) (k j : Z) (m : list (Z * V)) :
  bt_get k (bt_alter f j m) = if j =? k then f <$> bt_get k m else bt_get k m.
Proof.
  induction m as [|[i v] m IH]; simpl; [by destruct (j =? k)|]. rewrite IH.
  destruct (Z.eqb_spec i j), (Z.eqb_spec j k); simpl; destruct (Z.eqb_spec i k); simpl; done || congruence.
Qed.

Lemma unwaited_insert st t i w id :
  id ∉ t_wakers i -> unwaited st id -> unwaited (MkState (<[t := i]> (heap st)) w (woken st)) id.
Proof.
  intros Hi [Hw Hh]. split; [done|]. simpl. intros u j. destruct (decide (u = t)) as [->|].
  - rewrite lookup_insert_eq. by intros [= <-].
  - rewrite lookup_insert_ne by done. apply Hh.
Qed.

(** Running a thunk wakes only who waited for it. *)
Lemma unwaited_step st t b st' id : Data.step t st = Ok (b, st') -> unwaited st id -> unwaited st' id.
Proof.
  destruct b; intros Hs Hu; [|by apply step_false in Hs as ->].
  apply step_true in Hs as (i & args & c & v & w & Hi & _ & _ & _ & _ & ->). destruct Hu as [Hw Hh].
  destruct (unwaited_insert st t (set_wakers [] (set_value (Ready v) i)) w id) as [_ Hh']; [by apply not_elem_of_nil|done|].
  split; [|exact Hh']. simpl. intros [|]%elem_of_app; [done|]. by eapply Hh.
Qed.

Lemma unwaited_loop ts pend res prg st q r st' id :
  step_loop ts pend res prg st = Ok (q, r, st') -> unwaited st id -> unwaited st' id.
Proof.
  revert pend res prg st. induction ts as [|t ts IH]; intros pend res prg st; cbn [step_loop].
  { by intros [= _ _ ->]. }
  intros H Hu. apply bind_Ok in H as (i & _ & H). destruct (t_address i) as [[a l]|].
  2: { apply bind_Ok in H as ([b st1] & Hs & H). eapply IH; [exact H|]. by eapply unwaited_step. }
  apply bind_Ok in H as ([v|] & _ & H); [|by injection H as _ _ <-].
  apply bind_Ok in H as (n & _ & (hi & _ & ([|] & _ & H)%bind_Ok)%bind_Ok); [|by eapply IH].
  apply bind_Ok in H as (pend1 & _ & H). destruct (t_atomicity i); try (by injection H as _ _ <-); try (by eapply IH).
  apply bind_Ok in H as ([b st1] & Hs & H). eapply IH; [exact H|]. by eapply unwaited_step.
Qed.

(** A poll hands out its waker only to wait for a thunk. *)
Lemma poll_task_unwaited known w {A} (c : Async X A) s r s' id :
  poll_task known w c s = Ok (r, s') ->
  w <> id \/ (exists b a o ds cp k, r = Waiting (Decode b a o ds cp k)) ->
  unwaited (q_state s) id -> unwaited (q_state s') id.
Proof.
  intros H Hw. revert s H. induction c as [x|e| |b a o ds cp k IH|t k IH|f k IH|b k IH]; intros s; cbn [poll_task].
  - by intros [= _ <-].
  - done.
  - by intros [= _ <-].
  - intros (o' & Ho & H)%bind_Ok. destruct o' as [[[t df] st]|]; [|by injection H as _ <-].
    intros Hu. eapply IH; [exact H|]. cbn [q_state]. unfold thunk_impl in Ho.
    apply bind_Ok in Ho as (? & _ & Ho). destruct (_ <=? _); [done|].
    apply bind_Ok in Ho as (n & _ & (? & _ & [= _ _ <-])%bind_Ok). apply unwaited_insert; [by apply not_elem_of_nil|done].
  - intros ([o st] & Ho & H)%bind_Ok Hu. unfold Data.poll, deref in Ho. destruct (heap (q_state s) !! t) as [i|] eqn:Hi; [|done].
    cbn [bind] in Ho. apply bind_Ok in Ho as ([v|] & _ & (? & _ & [= <- <-])%bind_Ok); [by eapply IH|].
    destruct Hw as [Hw|(b & a & o & ds & cp & k' & ->)]; [|done]. injection H as _ <-. cbn [q_state].
    apply unwaited_insert; [|done]. simpl. destruct Hu as [_ Hu].
    intros [|Hx%list_elem_of_singleton]%elem_of_app; [by eapply Hu|by subst].
  - intros ([[x w']|] & _ & H)%bind_Ok Hu; [|by injection H as _ <-]. by eapply IH.
  - intros H Hu. by eapply IH.
Qed.

(** A poll stops at a decode only for want of room. *)
Lemma poll_task_full known w {A} (c : Async X A) s s' b a o ds cp k :
  poll_task known w c s = Ok (Waiting (Decode b a o ds cp k), s') -> PIPELINE_SIZE <= df_len (q_df s').
Proof.
  revert s. induction c as [x|e| |b' a' o' ds' cp' k' IH|t k' IH|f k' IH|b' k' IH]; intros s; cbn [poll_task]; try done.
  - intros (r & Hr & H)%bind_Ok. destruct r as [[[t df] st]|]; [by eapply IH|]. injection H as _ _ _ _ _ _ <-.
    unfold thunk_impl in Hr. apply bind_Ok in Hr as (? & _ & Hr). destruct (Z.leb_spec PIPELINE_SIZE (df_len (q_df s))); [done|].
    by apply bind_Ok in Hr as (? & _ & (? & _ & ?)%bind_Ok).
  - intros ([r st] & _ & H)%bind_Ok. destruct r as [v|]; [by eapply IH|done].
  - intros (r & _ & H)%bind_Ok. destruct r as [[x w']|]; [by eapply IH|done].
  - by eapply IH.
Qed.
(** The queue or the join handle of another thread, and the queue of any thread. *)
Lemma altered_join f j id (s : Scheduler) th :
  sched_thread id s = Some th -> (j = id -> th_join (f th) = th_join th) -> th_join th = JoinPending ->
  exists th', sched_thread id (alter_thread f j s) = Some th' /\ th_join th' = JoinPending.
Proof.
  unfold sched_thread. intros Ht Hf Hj. simpl. rewrite bt_get_alter, Ht. destruct (Z.eqb_spec j id) as [->|]; [|by exists th].
  eexists. split; [done|]. by rewrite Hf.
Qed.

Lemma poll_thread_stuck id j c p p' : j <> id -> stuck id c p -> poll_thread j p = Ok p' -> stuck id c p'.
Proof.
  intros Hne [Ht (th & Hth & Hj) Hs Hu]. unfold poll_thread. destruct (e_tasks (p_pool p) !! j) as [d|]; [|by intros [= <-]; split; eauto].
  intros (t & _ & ([r s] & Hr & H)%bind_Ok)%bind_Ok. apply (poll_task_unwaited _ _ _ _ _ _ id) in Hr; [|by left|exact Hu].
  destruct (altered_join (set_data (q_df s)) j id _ th Hth) as (th1 & Hth1 & Hj1); [done..|].
  destruct r as [v|d']; injection H as <-; (split; [simpl| |done|done]).
  - by rewrite lookup_delete_ne.
  - by destruct (altered_join (set_join (JoinSent v)) j id _ th1 Hth1) as (th2 & ? & ?); [|done|exists th2].
  - by rewrite lookup_insert_ne.
  - by exists th1.
Qed.

Lemma polls_stuck id ids c p p' : id ∉ ids -> stuck id c p -> polls ids p = Ok p' -> stuck id c p'.
Proof.
  revert p. induction ids as [|j ids IH]; intros p; [by intros _ ? [= <-]|].
  intros [Hne Hin]%not_elem_of_cons Hs (p1 & H1 & H2)%bind_Ok. eapply IH; [done| |exact H2]. by eapply poll_thread_stuck.
Qed.

(** The poll that gets stuck. *)
Lemma poll_thread_enters id p p' th b a o ds cp k :
  Process.thread id p = Some th -> th_join th = JoinPending -> id ∉ e_spawned (p_pool p) -> unwaited (p_state p) id ->
  poll_thread id p = Ok p' -> e_tasks (p_pool p') !! id = Some (Decode b a o ds cp k) ->
  stuck id (Decode b a o ds cp k) p' /\
  exists th', Process.thread id p' = Some th' /\ PIPELINE_SIZE <= df_len (th_data th').
Proof.
  intros Hth Hj Hs Hu. unfold poll_thread. destruct (e_tasks (p_pool p) !! id) as [d|] eqn:Hd; [|intros [= <-]; congruence].
  rewrite Hth. cbn [unwrap bind]. intros ([r s] & Hr & H)%bind_Ok Hc. destruct r as [v|d']; injection H as <-; simpl in Hc.
  { by rewrite lookup_delete_eq in Hc. }
  rewrite lookup_insert_eq in Hc. injection Hc as ->. pose proof (poll_task_full _ _ _ _ _ _ _ _ _ _ _ Hr) as Hfull.
  apply (poll_task_unwaited _ _ _ _ _ _ id) in Hr; [|right; by eauto 10|exact Hu].
  assert (sched_thread id (alter_thread (set_data (q_df s)) id (p_sched p)) = Some (set_data (q_df s) th)) as Hn.
  { unfold sched_thread. simpl. rewrite bt_get_alter, Z.eqb_refl. unfold Process.thread, sched_thread in Hth. by rewrite Hth. }
  split; [|by eexists]. split; [by apply lookup_insert_eq| |done|done]. by eexists.
Qed.

(** The pass over the threads, and reaping. *)
Lemma step_threads_stuck ths res prg p id c q r p' :
  step_threads ths res prg p = Ok (q, r, p') -> stuck id c p -> stuck id c p'.
Proof.
  revert res prg p. induction ths as [|[j t] ths IH]; intros res prg p; cbn [step_threads]; [by intros [= _ _ <-]|].
  intros ([[[b' r'] df] st] & Hp & H)%bind_Ok [Ht (th & Hth & Hj) Hs Hu]. eapply IH; [exact H|].
  destruct (altered_join (set_data df) j id _ th Hth) as (th1 & Hth1 & Hj1); [done..|]. split; [done|by exists th1|done|].
  apply bind_Ok in Hp as (ts & _ & ([[p1 r1] st1] & Hl & [= _ _ _ ->])%bind_Ok). by eapply unwaited_loop.
Qed.

Lemma bt_get_retain {V} (f : Z -> V -> bool) k v (m : list (Z * V)) :
  bt_get k m = Some v -> f k v = true -> bt_get k (bt_retain f m) = Some v.
Proof.
  unfold bt_retain. induction m as [|[i w] m IH]; simpl; [done|]. destruct (Z.eqb_spec i k) as [->|Hne].
  - intros [= ->] Hf. rewrite filter_cons_True by done. simpl. by rewrite Z.eqb_refl.
  - intros Hm Hf. rewrite filter_cons. case_decide; simpl; [|auto]. rewrite (proj2 (Z.eqb_neq i k) Hne). auto.
Qed.

Lemma reap_stuck id c p : stuck id c p -> stuck id c (set_sched (reap_threads (p_sched p)) p).
Proof.
  intros [Ht (th & Hth & Hj) Hs Hu]. split; [done| |done|done]. exists th. split; [|done].
  apply bt_get_retain; [exact Hth|]. unfold alive. by rewrite Hj.
Qed.

Variable run_until_stalled : Process X (Pool X) R F -> res (Process X (Pool X) R F).
Variable choose : Z -> R -> Z * R.
Hypothesis Hpool : local_pool run_until_stalled.

Lemma stalled_stuck id c p p' : stuck id c p -> run_until_stalled p = Ok p' -> stuck id c p'.
Proof.
  intros Hst. destruct (Hpool p) as (ids & Hids & ->). destruct Hst as [Ht Hj Hs Hu]. apply polls_stuck.
  - rewrite Hids. unfold awake. rewrite elem_of_remove_dups. destruct Hu as [Hu _]. by intros [|]%elem_of_app.
  - split; [done|done|by apply not_elem_of_nil|]. destruct Hu as [_ Hu]. split; [by apply not_elem_of_nil|done].
Qed.

(** A poll does not touch the other tasks and threads. *)
Lemma polls_other id ids p p' :
  id ∉ ids -> polls ids p = Ok p' ->
  e_tasks (p_pool p') !! id = e_tasks (p_pool p) !! id /\ Process.thread id p' = Process.thread id p.
Proof.
  revert p. induction ids as [|j ids IH]; intros p; [by intros _ [= <-]|].
  intros [Hne Hin]%not_elem_of_cons (p1 & H1 & H2)%bind_Ok. destruct (IH p1 Hin H2) as [-> ->]. clear H2.
  unfold poll_thread in H1. destruct (e_tasks (p_pool p) !! j) as [d|]; [|by injection H1 as <-].
  assert (forall f s, sched_thread id (alter_thread f j s) = sched_thread id s) as Hal.
  { intros f s. unfold sched_thread. simpl. rewrite bt_get_alter. by rewrite (proj2 (Z.eqb_neq j id)). }
  apply bind_Ok in H1 as (t & _ & ([r s] & _ & H)%bind_Ok). unfold Process.thread.
  destruct r; injection H as <-; cbn [p_pool p_sched e_tasks]; rewrite !Hal; split; try done;
    [by rewrite lookup_delete_ne|by rewrite lookup_insert_ne].
Qed.

(** The round of polls in which a task gets stuck. *)
Lemma stalled_enters id p p1 th c0 b a o ds cp k :
  Process.thread id p = Some th -> th_join th = JoinPending -> e_tasks (p_pool p) !! id = Some c0 -> id ∈ awake p ->
  (forall t i, heap (p_state p) !! t = Some i -> id ∉ t_wakers i) ->
  run_until_stalled p = Ok p1 -> e_tasks (p_pool p1) !! id = Some (Decode b a o ds cp k) ->
  stuck id (Decode b a o ds cp k) p1 /\ exists th1, Process.thread id p1 = Some th1 /\ PIPELINE_SIZE <= df_len (th_data th1).
Proof.
  intros Hth Hj Hc0 Haw Hw Hrun Htask. destruct (Hpool p) as (ids & Hids & Heq). rewrite Heq in Hrun. clear Heq.
  assert (NoDup ids) as Hnd by (rewrite Hids; apply NoDup_remove_dups). rewrite <- Hids in Haw. clear Hids.
  apply list_elem_of_split in Haw as (l1 & l2 & ->).
  apply NoDup_app in Hnd as (_ & Hd1 & [Hd2 _]%NoDup_cons).
  assert (id ∉ l1) as Hd by (intros Hx; apply (Hd1 id Hx); by left).
  unfold polls in Hrun. rewrite foldM_app in Hrun. apply bind_Ok in Hrun as (pa & Ha & (pb & Hb & Hc)%bind_Ok).
  apply (polls_stuck id l1 c0) in Ha as [_ (th1 & Hth1 & Hj1) Hsp Hu];
    [|done|split; [done|by exists th|by apply not_elem_of_nil|split; [by apply not_elem_of_nil|exact Hw]]].
  destruct (polls_other id l2 pb p1 Hd2 Hc) as [E1 E2]. rewrite E1 in Htask.
  destruct (poll_thread_enters _ _ _ _ _ _ _ _ _ _ Hth1 Hj1 Hsp Hu Hb Htask) as [Hst (th2 & Hth2 & Hfull)].
  split; [by apply (polls_stuck _ _ _ _ _ Hd2 Hst Hc)|]. exists th2. by rewrite E2.
Qed.

Lemma step_decode_stuck fuel id c p r p' :
  (stuck id c p \/ exists p1, run_until_stalled p = Ok p1 /\ stuck id c p1) ->
  step_decode run_until_stalled fuel p = Some (Ok (r, p')) -> stuck id c p'.
Proof.
  revert p. induction fuel as [|fuel IH]; intros p Hst; [done|]. cbn [step_decode].
  destruct (run_until_stalled p) as [p1|] eqn:Hrun; [|done]. cbn [bind].
  assert (stuck id c p1) as Hst1.
  { destruct Hst as [Hst|(p2 & [= <-] & Hst)]; [by eapply stalled_stuck|done]. }
  destruct (step_threads _ _ _ p1) as [[[b r1] p2]|] eqn:Hth; [|done]. apply (step_threads_stuck _ _ _ _ _ _ _ _ _ Hth) in Hst1.
  apply reap_stuck in Hst1. destruct b; [intros H; eapply IH; [by left|exact H]|by intros [= <- <-]].
Qed.

Lemma step_stuck fuel id c p b p' :
  (stuck id c p \/ exists p1, run_until_stalled p = Ok p1 /\ stuck id c p1) ->
  Process.step run_until_stalled choose fuel p = Some (Ok (b, p')) -> b = true /\ stuck id c p'.
Proof.
  intros Hst. unfold Process.step. destruct (step_decode _ _ p) as [[[r p1]|]|] eqn:Hd; [|done..].
  apply (step_decode_stuck _ _ _ _ _ _ Hst) in Hd as Hst1.
  assert (forall t p2, p_state p2 = p_state p1 -> p_sched p2 = p_sched p1 -> p_pool p2 = p_pool p1 ->
    step_resolvable t p2 = Ok (b, p') -> b = true /\ stuck id c p') as Hres.
  { intros t p2 E1 E2 E3. unfold step_resolvable. rewrite E1. intros ([b' st] & Hs & (? & _ & [= <- <-])%bind_Ok)%bind_Ok.
    split; [done|]. destruct Hst1 as [Ht (th & Hth & Hj) Hsp Hu]. split; simpl; rewrite ?E3; [done| |done|by eapply unwaited_step].
    exists th. split; [|done]. unfold Process.thread. simpl. by rewrite E2. }
  intros [= H]. unfold step_choose in H. destruct r as [|t [|u r]].
  - apply bind_Ok in H as (? & Hg & _). destruct Hst1 as [_ (th & Hth & _) _ _]. exfalso.
    unfold Process.thread, sched_thread, threads in *. by destruct (sched_threads (p_sched p1)).
  - by apply (Hres t p1).
  - apply bind_Ok in H as (? & _ & H). destruct (choose _ _) as [n rng]. apply bind_Ok in H as (u' & _ & H).
    by apply (Hres u' (set_rng rng p1)).
Qed.

(** All the steps that follow. *)
Definition stepped p p' : Prop := exists fuel, Process.step run_until_stalled choose fuel p = Some (Ok (true, p')).

Lemma steps_stuck id c p p' :
  (stuck id c p \/ exists p1, run_until_stalled p = Ok p1 /\ stuck id c p1) -> tc stepped p p' -> stuck id c p'.
Proof.
  intros Hst H. induction H as [p p' [fuel H]|p p1 p' [fuel H] _ IH].
  - by apply (step_stuck _ _ _ _ _ _ Hst H).
  - apply IH. left. by apply (step_stuck _ _ _ _ _ _ Hst H).
Qed.

Lemma run_stuck id c n fuel p p' :
  (stuck id c p \/ exists p1, run_until_stalled p = Ok p1 /\ stuck id c p1) -> run run_until_stalled choose n fuel p <> Some (Ok p').
Proof.
  revert p. induction n as [|n IH]; intros p Hst; [done|]. cbn [run].
  destruct (Process.step _ _ fuel p) as [[[b p1]|]|] eqn:H; [|done..].
  destruct (step_stuck _ _ _ _ _ _ Hst H) as [-> Hst1]. apply IH. by left.
Qed.
End Asleep.

Lemma many_full m : many_run (1000 + S m) 5 = Some (Panic AssertFailed).
Proof. vm_compute. reflexivity. Qed.

Lemma many_fits : many_run 1000 5 = Some (Ok 0).
Proof. vm_compute. reflexivity. Qed.

Section Claims.
Context {BV : Bitvec} {X : Type}.

End Claims.

(** A process whose only thread is about to decode 1001 constants, and the process
    after its first poll. *)
Definition waits_to_decode (c : option (Async unit Z)) : bool := match c with Some (Decode _ _ _ _ _ _) => true | _ => false end.
Definition about_to_fill (p : Process unit (Pool unit) unit nat) : bool :=
  match Process.thread 0 p, e_tasks (p_pool p) !! 0, fifo_pool p with
  | Some th, Some _, Ok p1 =>
      match th_join th with JoinPending => true | _ => false end && bool_decide (0 ∈ awake p) &&
      match map_to_list (heap (p_state p)) with [] => true | _ => false end && waits_to_decode (e_tasks (p_pool p1) !! 0)
  | _, _, _ => false
  end.

