(* ===== verification/Schedule.v ===== *)
(** * Schedule: tasks in the process loop against tasks run in program order

    A task of [Executor] decodes while the queue runs its thunks out of order,
    waits for values and is woken by them. [Flow.exec] runs the same task alone,
    every thunk as soon as it is decoded. The two are related here: the thunks a
    run in program order decodes are a [program] of [Pipeline], whatever the
    task awaits has the same value in both, and a task that waits is always
    woken. No program code. *)

From S2P Require Import Prelude Text RangeMap MemOrdering Layout Bitvec Value Memory Symbols Classes Operation.
From S2P Require Import Data Local Pipeline Process Flow Sequential Executor.

(** ** More thunks in the heap *)

Section Extend.
Context {BV : Bitvec} {X : Type}.
Implicit Types (st : State X) (t u d : Z) (H : gmap Z (ThunkInner X)).

(** The state with thunks that nothing refers to. *)
Definition extend H st : State X := MkState (heap st ∪ H) (world st) (woken st).

Definition present st t : Prop := is_Some (heap st !! t).

(** Whatever a thunk of the heap refers to is in the heap. *)
Definition closed st : Prop := forall t i, heap st !! t = Some i ->
  (forall d, d ∈ t_deps i -> present st d) /\ (forall a l, t_address i = Some (a, l) -> present st a).

Lemma extend_lookup H st t : present st t -> heap (extend H st) !! t = heap st !! t.
Proof. intros [i Hi]. simpl. rewrite Hi. by apply lookup_union_Some_l. Qed.

Lemma extend_try_get H st t : present st t -> try_get (extend H st) t = try_get st t.
Proof. intros Ht. unfold try_get, deref. by rewrite extend_lookup. Qed.

Lemma extend_val H st t : present st t -> val (extend H st) t = val st t.
Proof. intros Ht. unfold val. by rewrite extend_lookup. Qed.

Lemma extend_get_args H st ds : (forall d, d ∈ ds -> present st d) -> get_args (extend H st) ds = get_args st ds.
Proof.
  induction ds as [|d ds IH]; intros Hd; cbn [get_args]; [done|].
  rewrite extend_try_get by (apply Hd; by left). rewrite IH; [done|]. intros e He. apply Hd. by right.
Qed.

Lemma extend_insert H st t i : heap st !! t = None -> H !! t = Some i -> <[t := i]> (heap st) ∪ H = heap st ∪ H.
Proof.
  intros Ht Hi. apply map_eq. intros u. destruct (decide (u = t)) as [->|Hne].
  - rewrite (lookup_union_Some_l _ _ t i); [|by rewrite lookup_insert_eq]. symmetry.
    apply lookup_union_Some_raw. by right.
  - rewrite !lookup_union. by rewrite lookup_insert_ne.
Qed.

Lemma extend_tracing H st t : thunk_tracing st t = true -> thunk_tracing (extend H st) t = true.
Proof.
  unfold thunk_tracing. destruct (heap st !! t) as [i|] eqn:Hi; [|done]. simpl.
  by rewrite (lookup_union_Some_l _ _ _ _ Hi).
Qed.

(** [Data.step] with more thunks. *)
Lemma extend_step H st t :
  closed st -> present st t ->
  Data.step t (extend H st) = let! (b, st) := Data.step t st in Ok (b, extend H st).
Proof.
  intros Hc [i Hi]. destruct (Hc t i Hi) as [Hd _]. unfold Data.step, deref.
  rewrite extend_lookup by (by exists i). rewrite Hi. cbn [bind]. rewrite extend_get_args by done.
  destruct (get_args st (t_deps i)) as [[args|]|e]; [|done..]. cbn [bind].
  destruct (t_value i) as [c|v|]; [|done..]. change (world (extend H st)) with (world st).
  destruct (print _) as [[]|e]; [|done]. cbn [bind].
  destruct (c (t_thread i) args (world st)) as [[v w]|e]; [|done]. cbn [bind].
  destruct (print _) as [[]|e]; [|done]. cbn [bind]. unfold extend. simpl.
  by rewrite insert_union_l.
Qed.

(** What steps do besides the values they compute: no thunk appears or goes, and
    a task that waits for a thunk goes on waiting or is woken. *)
Definition waits st t (w : Z) : Prop := val st t = None /\ exists i, heap st !! t = Some i /\ w ∈ t_wakers i.

Record grows st st' : Prop := {
  gr_present : forall u, present st' u <-> present st u;
  gr_closed : closed st -> closed st';
  gr_woken : forall w, w ∈ woken st -> w ∈ woken st';
  gr_waits : forall u w, waits st u w -> waits st' u w \/ w ∈ woken st';
  gr_val : forall u, val st' u = None -> val st u = None
}.

Lemma grows_refl st : grows st st.
Proof. constructor; auto; tauto. Qed.

Lemma grows_trans st1 st2 st3 : grows st1 st2 -> grows st2 st3 -> grows st1 st3.
Proof.
  intros [P1 C1 W1 S1 V1] [P2 C2 W2 S2 V2]. constructor; auto.
  - intros u. by rewrite P2.
  - intros u w [H|H]%S1; [|right; auto]. by apply S2.
Qed.

Lemma step_grows st t b st' : Data.step t st = Ok (b, st') -> grows st st'.
Proof.
  destruct b; intros Hst; [|apply step_false in Hst as ->; apply grows_refl].
  pose proof (step_finishes _ _ _ Hst) as [Hn Hs]. pose proof Hst as (i & args & c & v & w & Hi & _ & _ & _ & _ & ->)%step_true.
  set (st' := MkState _ _ _) in *.
  assert (forall u, u <> t -> heap st' !! u = heap st !! u) as Hne by (intros u Hu; by apply lookup_insert_ne).
  assert (heap st' !! t = Some (set_wakers [] (set_value (Ready v) i))) as Heq by apply lookup_insert_eq.
  assert (forall u, present st' u <-> present st u) as Hp.
  { intros u. unfold present. destruct (decide (u = t)) as [->|]; [|by rewrite Hne]. rewrite Heq, Hi. by split; intros; eexists. }
  constructor.
  - exact Hp.
  - intros Hc u j Hj. assert (exists j', heap st !! u = Some j' /\ t_deps j = t_deps j' /\ t_address j = t_address j') as
      (j' & Hj' & E1 & E2).
    { destruct (decide (u = t)) as [->|]; [|rewrite Hne in Hj by done; by exists j].
      rewrite Heq in Hj. injection Hj as <-. by exists i. }
    destruct (Hc u j' Hj') as [H1 H2]. rewrite E1, E2. split; intros; apply Hp; eauto.
  - intros x Hx. simpl. apply elem_of_app. by left.
  - intros u x (Hu & j & Hj & Hx). destruct (decide (u = t)) as [->|].
    + rewrite Hi in Hj. injection Hj as <-. right. simpl. apply elem_of_app. by right.
    + left. split; [unfold val; rewrite Hne by done; exact Hu|]. exists j. by rewrite Hne.
  - intros u. by eapply step_val_mono.
Qed.

(** The loop of [step_pure] with more thunks. *)
Lemma extend_step_loop H ts pend res prg st :
  closed st -> (forall t, t ∈ ts -> present st t) ->
  step_loop ts pend res prg (extend H st) =
    (let! (p, r, st') := step_loop ts pend res prg st in Ok (p, r, extend H st')) /\
  forall p r st', step_loop ts pend res prg st = Ok (p, r, st') -> grows st st'.
Proof.
  revert pend res prg st. induction ts as [|t ts IH]; intros pend res prg st Hc Hts; cbn [step_loop].
  { split; [done|]. intros p r st' [= <- <- <-]. apply grows_refl. }
  destruct (Hts t) as [i Hi]; [by left|].
  assert (forall u, u ∈ ts -> present st u) as Hts' by (intros; apply Hts; by right).
  unfold deref. rewrite extend_lookup by (by exists i). rewrite Hi. cbn [bind].
  assert (forall pend', (let! (b, st) := Data.step t (extend H st) in step_loop ts pend' res (prg || b) st) =
      (let! (p, r, st') := (let! (b, st) := Data.step t st in step_loop ts pend' res (prg || b) st) in
       Ok (p, r, extend H st')) /\
    forall p r st', (let! (b, st) := Data.step t st in step_loop ts pend' res (prg || b) st) = Ok (p, r, st') ->
      grows st st') as Hrun.
  { intros pend'. rewrite extend_step by (done || by exists i). destruct (Data.step t st) as [[b st1]|e] eqn:Hst; [|by split].
    cbn [bind]. pose proof (step_grows _ _ _ _ Hst) as Hg. destruct (IH pend' res (prg || b) st1) as [-> Hgr].
    - by apply (gr_closed _ _ Hg).
    - intros u Hu. apply (gr_present _ _ Hg). auto.
    - split; [done|]. intros p r st' Hl. eapply grows_trans; [exact Hg|eauto]. }
  destruct (t_address i) as [[a l]|] eqn:Ea; [|apply Hrun].
  rewrite extend_try_get by (by eapply Hc). destruct (try_get st a) as [[v|]|e]; cbn [bind]; [|split; [done|]|by split].
  2: { intros p r st' [= <- <- <-]. apply grows_refl. }
  destruct (Layout.bytes l) as [len|e]; cbn [bind]; [|by split].
  destruct (add64 (as_u64 v) len) as [hi|e]; cbn [bind]; [|by split].
  destruct (RangeMap.range (as_u64 v) hi pend) as [[|x al]|e]; cbn [bind]; [|by apply IH|by split].
  destruct (RangeMap.insert (as_u64 v) hi tt pend) as [pend'|e]; cbn [bind]; [|by split].
  destruct (t_atomicity i); try apply Hrun; try (by apply IH);
    (split; [done|]; intros p r st' [= <- <- <-]; apply grows_refl).
Qed.

Lemma extend_retain H st ts :
  (forall t, t ∈ ts -> present st t) -> retain_pending (extend H st) ts = retain_pending st ts.
Proof.
  induction ts as [|t ts IH]; intros Hts; cbn [retain_pending]; [done|].
  rewrite extend_try_get by (apply Hts; by left). rewrite IH; [done|]. intros; apply Hts; by right.
Qed.

(** A pass over a queue does the same whatever else is in the heap. *)
Lemma extend_step_pure H df st p r df' st1 :
  closed st -> (forall t, t ∈ df_thunks df -> present st t) ->
  step_pure df [] (extend H st) = Ok (p, r, df', st1) ->
  exists st', st1 = extend H st' /\ step_pure df [] st = Ok (p, r, df', st') /\ grows st st'.
Proof.
  intros Hc Hts. unfold step_pure. rewrite extend_retain by done. intros (ts & Hr & Hl)%bind_Ok. rewrite Hr. cbn [bind].
  assert (forall t, t ∈ ts -> present st t) as Hts'.
  { intros t Ht. apply Hts. clear -Hr Ht. revert ts Hr t Ht. induction (df_thunks df) as [|u us IH]; intros ts; cbn [retain_pending].
    - by intros [= <-] ? ?%elem_of_nil.
    - intros (o & _ & (r & Hr & [= <-])%bind_Ok)%bind_Ok t Ht. destruct o; [right; eauto|].
      apply elem_of_cons in Ht as [->|?]; [by left|right; eauto]. }
  destruct (extend_step_loop H ts RangeMap.new [] false st Hc Hts') as [Heq Hg]. rewrite Heq in Hl.
  destruct (step_loop ts RangeMap.new [] false st) as [[[p' r'] st']|e] eqn:E; [|done].
  injection Hl as <- <- <- <-. cbn [bind]. exists st'. split_and!; [done|done|]. by eapply Hg.
Qed.
End Extend.

(** ** A run in program order, thunk by thunk *)

Section Traced.
Context {BV : Bitvec} {X : Type}.
(** The scheduler has the thread [th] alone. *)
Variable th : Z.
Implicit Types (st : State X) (s : Seq X) (l : list (Z * ThunkInner X)) (t u d : Z).

Definition only (id : Z) : bool := id =? th.

(** The thunk that a task decodes. *)
Definition new_thunk (df : DataFlow) (b : Backtrace) (address : option (Z * Layout)) (o : Ordering) (deps : list Z)
    (c : Compute X) : ThunkInner X :=
  MkThunk (df_thread df) (df_seq df) deps address o b (Pending c) [] (df_tracing df).

Definition put t (i : ThunkInner X) st : State X := MkState (<[t := i]> (heap st)) (world st) (woken st).

(** The thunks a task decodes, in order, with the slots they are put in; [None]
    if the task does anything to the process but through thunks. *)
Fixpoint decoded {A} (c : Async X A) s : option (list (Z * ThunkInner X)) :=
  match c with
  | Ret _ => Some []
  | Decode b address o deps comp k =>
      match exec_thunk only b address o deps comp s with
      | Some (Ok (t, s')) =>
          match decoded (k t) s' with
          | Some l => Some ((t, new_thunk (q_df s) b address o deps comp) :: l)
          | None => None
          end
      | _ => None
      end
  | Await t k =>
      match Data.poll only 0 t (q_state s) with
      | Ok (Some v, st) => decoded (k v) (MkSeq (q_df s) st (q_slot s))
      | _ => None
      end
  | _ => None
  end.

Definition next_df (df : DataFlow) : DataFlow := MkDataFlow (df_thread df) (df_seq df + 1) [] (df_tracing df).

Inductive traced {A} : Async X A -> Seq X -> list (Z * ThunkInner X) -> A -> Seq X -> Prop :=
  | traced_ret a s : traced (Ret a) s [] a s
  | traced_decode b address o deps comp k s i st1 l a s' :
      i = new_thunk (q_df s) b address o deps comp ->
      df_thread (q_df s) = th -> 0 <= df_seq (q_df s) -> df_seq (q_df s) + 1 < 2 ^ 64 ->
      (forall d, d ∈ deps -> can_show (put (q_slot s) i (q_state s)) d) ->
      Data.step (q_slot s) (put (q_slot s) i (q_state s)) = Ok (true, st1) ->
      traced (k (q_slot s)) (MkSeq (next_df (q_df s)) st1 (q_slot s + 1)) l a s' ->
      traced (Decode b address o deps comp k) s ((q_slot s, i) :: l) a s'
  | traced_await t v i k s l a s' :
      heap (q_state s) !! t = Some i -> t_value i = Ready v -> t_thread i = th ->
      traced (k v) s l a s' -> traced (Await t k) s l a s'.

Lemma exec_traced {A} (c : Async X A) s a s' l :
  idle only s -> exec only c s = Some (Ok (a, s')) -> decoded c s = Some l -> traced c s l a s'.
Proof.
  revert s l. induction c as [x|e| |b address o deps comp k IH|t k IH|f k IH|bt k IH]; intros s l Hs; cbn [exec decoded]; try done.
  - intros [= -> ->] [= <-]. constructor.
  - unfold exec_thunk, thunk_impl. destruct Hs as (Hts & Hk & Hseq). rewrite Hk. unfold df_len. rewrite Hts.
    change (PIPELINE_SIZE <=? zlen (@nil Z)) with false. cbv iota. cbn [guard_ bind].
    destruct (add64 (df_seq (q_df s)) 1) as [n|e] eqn:Hn; [|done]. apply chk_u_Ok in Hn as [-> Hn]. cbn [bind app].
    fold (new_thunk (q_df s) b address o deps comp). set (i := new_thunk _ _ _ _ _ _).
    fold (put (q_slot s) i (q_state s)).
    destruct (declared (put (q_slot s) i (q_state s)) i) as [line|e] eqn:Hline; [|done]. cbn [print bind].
    destruct (proj1 (declared_Ok _ _) (ex_intro _ _ Hline)) as [_ Hshow].
    destruct (Data.step (q_slot s) (put (q_slot s) i (q_state s))) as [[[] st1]|e] eqn:Hst; try done.
    cbn [df_thunks retain_pending].
    assert (exists v, try_get st1 (q_slot s) = Ok (Some v)) as [v Hv].
    { apply step_finishes in Hst as [_ Hv]. destruct (val st1 (q_slot s)) as [v|] eqn:E; [|done].
      exists v. by apply try_get_val. }
    rewrite Hv. cbn [bind df_thread df_seq df_tracing]. fold (next_df (q_df s)). intros He Hd.
    destruct (decoded _ _) as [l'|] eqn:Hd'; [|done]. injection Hd as <-.
    apply (traced_decode _ _ _ _ _ _ _ i st1); [done|by apply Z.eqb_eq|done|lia| |done|].
    { intros x Hx. apply Hshow. unfold mentions. apply elem_of_app. by left. }
    apply IH; [|done..]. split_and!; simpl; [done|done|lia].
  - destruct (Data.poll only 0 t (q_state s)) as [[[v|] st]|e] eqn:Hp; [|done..]. intros He Hd.
    unfold Data.poll in Hp. apply bind_Ok in Hp as (i & Hi & (o & Ho & Hp)%bind_Ok). destruct o as [v'|].
    2: { by apply bind_Ok in Hp as (? & _ & ?). }
    apply bind_Ok in Hp as (? & Hg & [= <- <-]). apply guard_Ok in Hg as Hg.
    unfold deref in Hi. destruct (heap (q_state s) !! t) as [j|] eqn:Hj; [|done]. injection Hi as ->.
    apply try_get_val in Ho. unfold val in Ho. rewrite Hj in Ho.
    apply (traced_await t v' i); [done|by destruct (t_value i); simplify_eq|by apply Z.eqb_eq|].
    destruct s. apply IH; done.
Qed.

(** New slots are beyond those in use. *)
Definition below s : Prop := forall u, present (q_state s) u -> u < q_slot s.

Lemma put_present t i st u : present (put t i st) u <-> u = t \/ present st u.
Proof.
  unfold present, put. simpl. destruct (decide (u = t)) as [->|].
  - rewrite lookup_insert_eq. split; [by left|by eexists].
  - rewrite lookup_insert_ne by done. naive_solver.
Qed.

Lemma step_put t i st st1 u :
  Data.step t (put t i st) = Ok (true, st1) -> u <> t -> heap st1 !! u = heap st !! u.
Proof.
  intros (j & args & c & v & w & Hj & _ & _ & _ & _ & ->)%step_true Hu. simpl.
  by rewrite !lookup_insert_ne.
Qed.

Lemma step_put_present t i st st1 u :
  Data.step t (put t i st) = Ok (true, st1) -> present st1 u <-> u = t \/ present st u.
Proof. intros Hst. rewrite (gr_present _ _ (step_grows _ _ _ _ Hst)). apply put_present. Qed.

(** The dependencies of a thunk have values when it is decoded. *)
Lemma step_put_deps t i st st1 d c :
  t_value i = Pending c -> Data.step t (put t i st) = Ok (true, st1) -> d ∈ t_deps i -> d <> t /\ is_Some (val st d).
Proof.
  intros Hc (j & args & c' & v & w & Hj & Hargs & _)%step_true Hd. simpl in Hj. rewrite lookup_insert_eq in Hj.
  injection Hj as <-. apply list_elem_of_lookup in Hd as [k Hk].
  destruct (Forall2_lookup_l _ _ _ _ _ Hargs Hk) as (x & _ & Hx).
  destruct (decide (d = t)) as [->|Hne].
  - unfold val in Hx. simpl in Hx. rewrite lookup_insert_eq, Hc in Hx. done.
  - split; [done|]. exists x. unfold val in *. simpl in Hx. by rewrite lookup_insert_ne in Hx.
Qed.

Lemma below_next s i st1 n df :
  below s -> Data.step (q_slot s) (put (q_slot s) i (q_state s)) = Ok (true, st1) -> n = q_slot s + 1 ->
  below (MkSeq df st1 n).
Proof.
  intros Hb Hst -> u Hu. simpl in *. apply (step_put_present _ _ _ _ _ Hst) in Hu as [->|Hu]; [lia|].
  apply Hb in Hu. lia.
Qed.

Lemma val_present st t v : val st t = Some v -> present st t.
Proof. unfold val, present. destruct (heap st !! t); [by eexists|done]. Qed.

Lemma below_fresh s u : below s -> present (q_state s) u -> u <> q_slot s.
Proof. intros Hb Hu ->. apply Hb in Hu. lia. Qed.

Lemma step_put_val s i st1 u v :
  below s -> Data.step (q_slot s) (put (q_slot s) i (q_state s)) = Ok (true, st1) ->
  val (q_state s) u = Some v -> val st1 u = Some v.
Proof.
  intros Hb Hst Hv. pose proof (below_fresh s u Hb (val_present _ _ _ Hv)) as Hu.
  unfold val in *. by rewrite (step_put _ _ _ _ u Hst Hu).
Qed.

Lemma traced_val {A} (c : Async X A) s l a s' u v :
  traced c s l a s' -> below s -> val (q_state s) u = Some v -> val (q_state s') u = Some v.
Proof.
  induction 1 as [|b ad o deps comp k s i st1 l a s' -> _ _ _ _ Hst _ IH|]; intros Hb Hv; [done| |auto].
  apply IH; [by eapply below_next|]. by eapply step_put_val.
Qed.

(** The slots are numbered upwards from the first free one. *)
Lemma traced_slots {A} (c : Async X A) s l a s' : traced c s l a s' -> l.*1 = seqZ (q_slot s) (zlen l).
Proof.
  induction 1 as [|b ad o deps comp k s i st1 l a s' -> _ _ _ _ Hst _ IH|]; [done| |done].
  rewrite fmap_cons, IH. unfold zlen. rewrite (seqZ_cons (q_slot s)) by (simpl; lia).
  cbn [fst q_slot length]. f_equal. f_equal; lia.
Qed.

Definition addresses_known l : Prop := forall t i a ly, (t, i) ∈ l -> t_address i = Some (a, ly) -> a ∈ t_deps i.

Lemma closed_put s i st1 c :
  closed (q_state s) -> t_value i = Pending c -> (forall a ly, t_address i = Some (a, ly) -> a ∈ t_deps i) ->
  Data.step (q_slot s) (put (q_slot s) i (q_state s)) = Ok (true, st1) -> closed (put (q_slot s) i (q_state s)).
Proof.
  intros Hc Hv Ha Hst u j Hj. assert (forall d, present (q_state s) d -> present (put (q_slot s) i (q_state s)) d) as Hp
    by (intros d ?; apply put_present; by right).
  simpl in Hj. destruct (decide (u = q_slot s)) as [->|].
  - rewrite lookup_insert_eq in Hj. injection Hj as <-.
    assert (forall d, d ∈ t_deps i -> present (put (q_slot s) i (q_state s)) d) as Hd.
    { intros d Hd. apply Hp. destruct (step_put_deps _ _ _ _ d c Hv Hst Hd) as [_ [v Hdv]]. by eapply val_present. }
    split; [done|]. intros a ly Hal. apply Hd. by eapply Ha.
  - rewrite lookup_insert_ne in Hj by done. destruct (Hc u j Hj) as [H1 H2]. split; intros; apply Hp; eauto.
Qed.

(** Running the thunks one by one, with all of them in the heap from the start,
    is the run in program order. *)
Lemma traced_in_order {A} (c : Async X A) s l a s' :
  traced c s l a s' -> below s -> closed (q_state s) -> addresses_known l ->
  in_order l.*1 (extend (list_to_map l) (q_state s)) = Ok (q_state s').
Proof.
  induction 1 as [a s|b ad o deps comp k s i st1 l a s' Hi _ _ _ _ Hst Ht IH|]; intros Hb Hc Ha; [| |auto].
  - simpl. unfold extend. rewrite map_union_empty. by destruct (q_state s).
  - assert (heap (q_state s) !! q_slot s = None) as Hn.
    { destruct (heap (q_state s) !! q_slot s) as [j|] eqn:E; [|done].
      assert (q_slot s < q_slot s) by (apply Hb; by exists j). lia. }
    assert (closed (put (q_slot s) i (q_state s))) as Hcp.
    { eapply closed_put; [done|by rewrite Hi| |exact Hst]. intros x ly. apply (Ha (q_slot s)). by left. }
    rewrite fmap_cons. cbn [fst list_to_map]. unfold in_order. cbn [foldM]. fold (in_order (X := X)).
    replace (extend (list_to_map ((q_slot s, i) :: l)) (q_state s))
      with (extend (list_to_map l) (put (q_slot s) i (q_state s)))
      by (unfold extend, put; simpl; by rewrite <- insert_union_l, insert_union_r).
    unfold in_order_step. rewrite extend_step; [|done|apply put_present; by left]. rewrite Hst. cbn [bind guard_].
    apply IH; [by eapply below_next|by apply (gr_closed _ _ (step_grows _ _ _ _ Hst))|].
    intros t j x ly Hj. apply (Ha t j). by right.
Qed.

Lemma traced_deps {A} (c : Async X A) s l a s' t i d :
  traced c s l a s' -> (t, i) ∈ l -> d ∈ t_deps i -> d ∈ l.*1 \/ is_Some (val (q_state s) d).
Proof.
  induction 1 as [|b ad o deps comp k s j st1 l a s' Hj _ _ _ _ Hst Ht IH|]; intros Hin Hd; [by apply elem_of_nil in Hin| |auto].
  apply elem_of_cons in Hin as [[= -> <-]|Hin].
  - right. by destruct (step_put_deps (q_slot s) i (q_state s) st1 d comp) as [_ ?]; [by rewrite Hj|..].
  - destruct (IH Hin Hd) as [?|Hv]; [left; by right|]. simpl in *.
    destruct (decide (d = q_slot s)) as [->|Hne]; [left; by left|]. right.
    unfold val in *. by rewrite <- (step_put _ _ _ _ d Hst Hne).
Qed.

Lemma traced_pending {A} (c : Async X A) s l a s' t i :
  traced c s l a s' -> (t, i) ∈ l -> exists comp, t_value i = Pending comp.
Proof.
  induction 1 as [|b ad o deps comp k s j st1 l a s' Hj _ _ _ _ Hst Ht IH|]; intros Hin; [by apply elem_of_nil in Hin| |auto].
  apply elem_of_cons in Hin as [[= -> <-]|Hin]; [|auto]. rewrite Hj. by exists comp.
Qed.
End Traced.

(** ** The thunks of a run are a program *)

Section Program.
Context {BV : Bitvec} {X : Type} (th : Z).
Implicit Types (st : State X) (s : Seq X) (l : list (Z * ThunkInner X)) (t u d : Z).

(** What [Pipeline] asks of the thunks of a task: computations that touch only
    their access, accesses to the same bytes or to disjoint ones, atomic
    operations whose operands do not wait for memory. *)
Record orderly st0 prog stn : Prop := {
  ord_mem : mem_ok (w_memory (world st0));
  ord_address : forall t i a ly, heap st0 !! t = Some i -> t ∈ prog -> t_address i = Some (a, ly) -> a ∈ t_deps i;
  ord_range : forall t i a ly v, t ∈ prog -> heap st0 !! t = Some i -> t_address i = Some (a, ly) ->
    val stn a = Some v -> exists n, Layout.bytes ly = Ok n /\ add64 (as_u64 v) n = Ok (as_u64 v + n);
  ord_local : forall t i c args, t ∈ prog -> heap st0 !! t = Some i -> t_value i = Pending c ->
    Forall2 (fun d v => val stn d = Some v) (t_deps i) args -> local_to (touches st0 stn t) (c (t_thread i) args);
  ord_uniform : uniform st0 prog stn;
  ord_ready : atomics_ready st0 prog;
  ord_untraced : untraced st0 prog
}.

(** All the thunks of a run, before any has run. *)
Definition undone l s : State X := extend (list_to_map l) (q_state s).

Lemma undone_lookup {A} (c : Async X A) s l a s' t i :
  traced th c s l a s' -> below s -> (t, i) ∈ l -> heap (undone l s) !! t = Some i.
Proof.
  intros Ht Hb Hin. simpl. pose proof (traced_slots _ _ _ _ _ _ Ht) as Hs.
  rewrite lookup_union_r.
  - apply elem_of_list_to_map; [rewrite Hs; apply NoDup_seqZ|done].
  - destruct (heap (q_state s) !! t) as [j|] eqn:E; [|done].
    assert (t < q_slot s) by (apply Hb; by exists j).
    assert (t ∈ l.*1) as Hin' by (apply list_elem_of_fmap; by exists (t, i)).
    rewrite Hs, elem_of_seqZ in Hin'. lia.
Qed.

Lemma traced_program {A} (c : Async X A) s l a s' :
  traced th c s l a s' -> below s -> closed (q_state s) -> orderly (undone l s) l.*1 (q_state s') ->
  program (undone l s) l.*1 (q_state s').
Proof.
  intros Ht Hb Hc [Hm Ha Hr Hl _ _].
  assert (forall t i, t ∈ l.*1 -> heap (undone l s) !! t = Some i -> (t, i) ∈ l) as Hin.
  { intros t i ([u j] & -> & Hj)%list_elem_of_fmap Hi. cbn [fst] in *.
    rewrite (undone_lookup c s l a s' u j Ht Hb Hj) in Hi. by injection Hi as ->. }
  assert (forall d, is_Some (val (q_state s) d) -> is_Some (val (undone l s) d)) as Hv.
  { intros d [v Hv]. exists v. unfold undone. rewrite extend_val; [done|by eapply val_present]. }
  constructor; [|..|done|eapply traced_in_order|done|done].
  - rewrite (traced_slots _ _ _ _ _ _ Ht). apply NoDup_seqZ.
  - intros t ([u j] & -> & Hj)%list_elem_of_fmap. destruct (traced_pending _ _ _ _ _ _ _ _ Ht Hj) as [comp Hcomp].
    exists j, comp. split; [by eapply undone_lookup|done].
  - intros t i d Hti Hi Hd. apply (Hin t i Hti) in Hi. destruct (traced_deps _ _ _ _ _ _ _ _ d Ht Hi Hd) as [Hd'|Hd'].
    + split; [|by left]. apply list_elem_of_fmap in Hd' as ([u j] & -> & Hj). exists j. by eapply undone_lookup.
    + apply Hv in Hd'. split; [|by right]. destruct Hd' as [v Hd']. by eapply val_present.
  - intros t i x ly Hti Hi. by eapply Ha.
  - exact Ht.
  - done.
  - done.
  - intros t i x ly Hti. apply (Ha t i x ly); [by eapply undone_lookup|]. apply list_elem_of_fmap. by exists (t, i).
Qed.
End Program.

(** ** A task in the process follows its run in program order *)

Section Follow.
Context {BV : Bitvec} {X : Type} (th : Z).
Implicit Types (st : State X) (s sq : Seq X) (df : DataFlow) (l : list (Z * ThunkInner X)) (vis : list Z) (t u d : Z).
Variable st0 : State X.
Variable prog : list Z.
Variable stn : State X.
(** The thunks from before. *)
Variable base : Z -> Prop.
Hypothesis Hprog : program st0 prog stn.
Hypothesis Huni : uniform st0 prog stn.
Hypothesis Haddr : forall t i a ly, heap st0 !! t = Some i -> t ∈ prog -> t_address i = Some (a, ly) -> a ∈ t_deps i.
(** The pipeline does not fill up. *)
Hypothesis Hroom : zlen prog <= PIPELINE_SIZE.

(** The state with the thunks that are still to be decoded. *)
Definition whole st : State X := extend (heap st0) st.

(** What has been decoded is being run by the queue. *)
Record core vis df st : Prop := {
  core_pipe : pipe st0 prog vis df (whole st);
  core_closed : closed st;
  core_present : forall u, present st u <-> u ∈ vis \/ base u
}.

(** The task has got as far as its run in program order has in [sq]. *)
Record point {A} (c : Async X A) sq l (a : A) vis df : Prop := {
  pt_traced : exists s', traced th c sq l a s' /\ q_state s' = stn;
  pt_below : below sq;
  pt_prog : prog = vis ++ l.*1;
  pt_undone : forall t i, (t, i) ∈ l -> heap st0 !! t = Some i;
  pt_present : forall u, present (q_state sq) u <-> u ∈ vis \/ base u;
  pt_known : forall u v, val (q_state sq) u = Some v -> u ∈ vis \/ is_Some (val st0 u);
  pt_thread : forall u i, heap (q_state sq) !! u = Some i -> exists j, heap st0 !! u = Some j /\ t_thread j = t_thread i;
  pt_df : df_thread df = df_thread (q_df sq) /\ df_seq df = df_seq (q_df sq) /\ df_tracing df = df_tracing (q_df sq)
}.

Lemma core_inv vis df st : core vis df st -> ooo st0 prog stn (whole st) /\ queue_ok prog vis df (whole st).
Proof. intros []. by apply (pipe_ok _ _ _ Hprog). Qed.

Lemma core_room {A} (c : Async X A) sq l a vis df st t i :
  core vis df st -> point c sq ((t, i) :: l) a vis df -> df_len df < PIPELINE_SIZE.
Proof.
  intros Hc Hp. destruct (core_inv _ _ _ Hc) as [_ (_ & Hsub & _)]. apply sublist_length in Hsub.
  pose proof (pt_prog _ _ _ _ _ _ Hp) as Hpr. unfold df_len, zlen in *. rewrite Hpr, length_app in Hroom.
  rewrite length_fmap in Hroom. simpl in Hroom. lia.
Qed.

(** Decoding a thunk. *)
Lemma core_decode vis df st t i df' :
  core vis df st -> ~ present st t -> heap st0 !! t = Some i -> (vis ++ [t]) `prefix_of` prog ->
  (forall d, d ∈ t_deps i -> present st d) -> df_thunks df' = df_thunks df ++ [t] ->
  core (vis ++ [t]) df' (put t i st) /\ whole (put t i st) = whole st.
Proof.
  intros [Hp Hc Hpres] Hn Hi Hpre Hd Hdf.
  assert (whole (put t i st) = whole st) as Hw.
  { unfold whole, extend, put. simpl. f_equal. apply extend_insert; [|done].
    destruct (heap st !! t) as [j|] eqn:E; [|done]. destruct Hn. by exists j. }
  split; [|done]. constructor.
  - rewrite Hw. by eapply pipe_decode.
  - intros u j Hj. assert (forall d, present st d -> present (put t i st) d) as Hpp by (intros; apply put_present; by right).
    simpl in Hj. destruct (decide (u = t)) as [->|].
    + rewrite lookup_insert_eq in Hj. injection Hj as <-. split; [auto|]. intros a ly Ha. apply Hpp, Hd.
      eapply Haddr; [done| |done]. eapply elem_of_prefix; [|done]. set_solver.
    + rewrite lookup_insert_ne in Hj by done. destruct (Hc u j Hj). split; intros; eauto.
  - intros u. rewrite put_present, Hpres, elem_of_app, list_elem_of_singleton. tauto.
Qed.

(** Registering a waker. *)
Lemma same_wakers st t i ws :
  heap st !! t = Some i -> same_but_wakers (whole st) (whole (put t (set_wakers ws i) st)).
Proof.
  intros Hi. split; [|done]. apply map_eq. intros u. rewrite !lookup_fmap. simpl.
  rewrite !lookup_union. destruct (decide (u = t)) as [->|].
  - rewrite lookup_insert_eq, Hi. by destruct (heap st0 !! t).
  - by rewrite lookup_insert_ne.
Qed.

Lemma core_wait vis df st t i w :
  core vis df st -> heap st !! t = Some i -> val st t = None ->
  let st' := put t (set_wakers (t_wakers i ++ [w]) i) st in core vis df st' /\ waits st' t w.
Proof.
  intros [Hp Hc Hpres] Hi Hv st'. assert (forall u, present st' u <-> present st u) as Hps.
  { intros u. unfold st'. rewrite put_present. split; [intros [->|?]; [by exists i|done]|by right]. }
  split; [constructor|].
  - eapply pipe_poll; [exact Hp|]. by apply same_wakers.
  - intros u j Hj. assert (exists j', heap st !! u = Some j' /\ t_deps j = t_deps j' /\ t_address j = t_address j') as
      (j' & Hj' & E1 & E2).
    { unfold st' in Hj. simpl in Hj. destruct (decide (u = t)) as [->|].
      - rewrite lookup_insert_eq in Hj. injection Hj as <-. by exists i.
      - rewrite lookup_insert_ne in Hj by done. by exists j. }
    destruct (Hc u j' Hj') as [H1 H2]. rewrite E1, E2. split; intros; apply Hps; eauto.
  - intros u. by rewrite Hps.
  - unfold st', waits, val. simpl. rewrite lookup_insert_eq. unfold val in Hv. rewrite Hi in Hv. split; [done|].
    eexists. split; [done|]. apply elem_of_app. right. by left.
Qed.

Lemma point_decode {A} b ad o deps comp (k : Z -> Async X A) sq l a vis df :
  point (Decode b ad o deps comp k) sq l a vis df ->
  exists i st1 l', i = new_thunk df b ad o deps comp /\ l = (q_slot sq, i) :: l' /\ df_thread df = th /\
    0 <= df_seq df /\ df_seq df + 1 < 2 ^ 64 /\
    (forall d, d ∈ deps -> exists v, val (q_state sq) d = Some v /\ printable v = true) /\
    point (k (q_slot sq)) (MkSeq (next_df (q_df sq)) st1 (q_slot sq + 1)) l' a (vis ++ [q_slot sq])
      (MkDataFlow (df_thread df) (df_seq df + 1) (df_thunks df ++ [q_slot sq]) (df_tracing df)).
Proof.
  intros [(s' & Ht & Hs') Hb Hpr Hun Hpres Hkn Hth (E1 & E2 & E3)].
  inversion Ht as [|b' ad' o' deps' comp' k' sq' i st1 l' a' s'' Hi H1 H2 H3 Hsh Hst Ht'|]; subst.
  set (i := new_thunk (q_df sq) b ad o deps comp) in *.
  exists i, st1, l'. assert (heap st0 !! q_slot sq = Some i) as Hi by (apply Hun; by left).
  split_and!; [unfold i, new_thunk; by rewrite E1, E2, E3|done|congruence|lia|lia| |].
  { intros d Hd. destruct (step_put_deps (q_slot sq) i (q_state sq) st1 d comp eq_refl Hst Hd) as [Hne [v Hv]]. exists v.
    split; [done|]. destruct (Hsh d Hd) as (j & Hj & Hjs). simpl in Hj. rewrite lookup_insert_ne in Hj by done.
    unfold val in Hv. rewrite Hj in Hv. unfold shown in Hjs. destruct (t_value j); by simplify_eq. }
  constructor.
  - by exists s'.
  - by eapply below_next.
  - rewrite Hpr. cbn [fmap]. rewrite fmap_cons, <- app_assoc. done.
  - intros t j Hj. apply Hun. by right.
  - intros u. cbn [q_state]. rewrite (step_put_present _ _ _ _ _ Hst), Hpres, elem_of_app, list_elem_of_singleton. tauto.
  - intros u v Hv. destruct (decide (u = q_slot sq)) as [->|Hne]; [left; set_solver|].
    cbn [q_state] in Hv. destruct (Hkn u v) as [?|?]; [|left; set_solver|by right].
    unfold val in *. by rewrite <- (step_put _ _ _ _ u Hst Hne).
  - intros u j Hj. cbn [q_state] in Hj. destruct (decide (u = q_slot sq)) as [->|Hne].
    + apply step_true in Hst as (j' & args & c' & v & w & Hj' & _ & _ & _ & _ & ->). simpl in Hj, Hj'.
      rewrite lookup_insert_eq in Hj, Hj'. injection Hj' as <-. injection Hj as <-. by exists i.
    + rewrite (step_put _ _ _ _ u Hst Hne) in Hj. by apply Hth.
  - simpl. by rewrite E1, E2, E3.
Qed.

(** What the run in program order has printed can be printed. *)
Lemma point_shows {A} (c : Async X A) sq l a vis df st d v :
  point c sq l a vis df -> core vis df st -> val (q_state sq) d = Some v -> printable v = true -> can_show st d.
Proof.
  intros [(s' & Ht & Hs') Hb Hpr Hun Hpres Hkn Hth Hdf] Hc Hv Hp. destruct (core_inv _ _ _ Hc) as [Hooo _].
  pose proof (ooo_inv _ _ _ Hprog _ Hooo) as Hinv.
  assert (present st d) as Hpd by (apply (core_present _ _ _ Hc), Hpres; by eapply val_present).
  pose proof Hpd as [j Hj]. exists j. split; [done|]. unfold shown. destruct (t_value j) as [|x|] eqn:E; [done| |done].
  assert (val (whole st) d = Some x) as Hx.
  { unfold whole. rewrite extend_val by done. unfold val. by rewrite Hj, E. }
  assert (exists j0, heap st0 !! d = Some j0) as (j0 & Hj0).
  { unfold val in Hv. destruct (heap (q_state sq) !! d) as [i|] eqn:Hi; [|done]. destruct (Hth d i Hi) as (j0 & ? & _).
    by exists j0. }
  assert (val stn d = Some x) as H1 by (apply (inv_val _ _ _ Hprog (whole st)); [done|by exists j0|done]).
  pose proof (traced_val _ _ _ _ _ _ _ _ Ht Hb Hv) as H2. rewrite Hs' in H2. congruence.
Qed.

Lemma new_shows {A} b ad o deps comp (k : Z -> Async X A) sq i l a vis df st :
  point (Decode b ad o deps comp k) sq ((q_slot sq, i) :: l) a vis df -> core vis df st ->
  i = new_thunk df b ad o deps comp ->
  (forall d, d ∈ deps -> exists v, val (q_state sq) d = Some v /\ printable v = true) ->
  exists line, declared (put (q_slot sq) i st) i = Ok line.
Proof.
  intros Hp Hc Hi Hvals. apply declared_Ok. split; [by rewrite Hi|].
  assert (forall d, d ∈ t_deps i -> can_show (put (q_slot sq) i st) d) as Hd.
  { intros d Hd. rewrite Hi in Hd. destruct (Hvals d Hd) as (v & Hv & Hpv). unfold can_show, put. simpl.
    destruct (decide (d = q_slot sq)) as [->|Hne]; [rewrite lookup_insert_eq|rewrite lookup_insert_ne by done].
    - exists i. split; [done|by rewrite Hi].
    - by eapply point_shows. }
  intros d. unfold mentions. intros [H|H]%elem_of_app; [by apply Hd|].
  destruct (t_address i) as [[x ly]|] eqn:Ha; [|by apply not_elem_of_nil in H].
  apply list_elem_of_singleton in H as ->. apply Hd. eapply Haddr; [| |exact Ha].
  - apply (pt_undone _ _ _ _ _ _ Hp). by left.
  - rewrite (pt_prog _ _ _ _ _ _ Hp). set_solver.
Qed.

(** What a task awaits has the value it has in program order, or none yet. *)
Lemma point_await {A} t (k : Value -> Async X A) sq l a vis df st :
  point (Await t k) sq l a vis df -> core vis df st ->
  exists v j, heap st !! t = Some j /\ t_thread j = th /\ point (k v) sq l a vis df /\
    (try_get st t = Ok (Some v) \/ (try_get st t = Ok None /\ val st t = None)).
Proof.
  intros [(s' & Ht & Hs') Hb Hpr Hun Hpres Hkn Hth Hdf] Hc. destruct (core_inv _ _ _ Hc) as [Hooo _].
  pose proof (ooo_inv _ _ _ Hprog _ Hooo) as Hinv.
  inversion Ht as [| |t' v i k' sq' l' a' s'' Hi Hv Hti Ht']; subst t' k' sq' l' a' s''.
  assert (val (q_state sq) t = Some v) as Hval by (unfold val; by rewrite Hi, Hv).
  assert (present st t) as Hp by (apply (core_present _ _ _ Hc), Hpres; by exists i).
  pose proof Hp as [j Hj]. destruct (Hth t i Hi) as (j0 & Hj0 & Htj0).
  destruct (inv_heap _ _ _ _ Hinv t j0 Hj0) as (j' & Hj' & (F1 & _) & _).
  unfold whole in Hj'. rewrite (extend_lookup _ _ _ Hp), Hj in Hj'. injection Hj' as <-.
  exists v, j. split_and!; [done|congruence| |].
  { constructor; try done. by exists s'. }
  assert (try_get st t = Ok (val st t)) as Hg.
  { rewrite <- (extend_try_get (heap st0)), <- (extend_val (heap st0)) by done.
    apply (try_get_total _ _ _ Hprog); [done|by exists j0|].
    destruct (Hkn t v Hval) as [?|?]; [left|by right]. rewrite Hpr. apply elem_of_app. by left. }
  rewrite Hg. destruct (val st t) as [v'|] eqn:E; [left|by right]. do 2 f_equal.
  rewrite <- (extend_val (heap st0)) in E by done.
  assert (val stn t = Some v') as H1 by (apply (inv_val _ _ _ Hprog (whole st)); [done|by exists j0|done]).
  pose proof (traced_val _ _ _ _ _ _ _ _ Ht Hb Hval) as H2. rewrite Hs' in H2. congruence.
Qed.

Lemma point_end {A} (x : A) sq l a vis df : point (Ret x) sq l a vis df -> x = a /\ vis = prog.
Proof.
  intros [(s' & Ht & Hs') _ Hpr _ _ _ _ _]. assert (l = [] /\ x = a) as [-> ->] by (by inversion Ht).
  split; [done|]. by rewrite Hpr, app_nil_r.
Qed.

(** A poll: the task gets to its end, or to a thunk that has no value yet, with
    its waker registered there. *)
Lemma poll_point {A} (c : Async X A) sq l a vis df st known :
  (forall id, known id = only th id) -> point c sq l a vis df -> core vis df st ->
  exists r s' vis', poll_task known th c (MkSeq df st (q_slot sq)) = Ok (r, s') /\
    core vis' (q_df s') (q_state s') /\ woken (q_state s') = woken st /\
    (forall u, val (whole (q_state s')) u = val (whole st) u) /\
    match r with
    | Finished b => b = a /\ vis' = prog
    | Waiting c' => exists sq' l', point c' sq' l' a vis' (q_df s') /\ q_slot s' = q_slot sq' /\
        exists t k, c' = Await t k /\ waits (q_state s') t th
    end.
Proof.
  intros Hk. revert sq l vis df st.
  induction c as [x|e| |b ad o deps comp k IH|t k IH|f k IH|bt k IH]; intros sq l vis df st Hp Hc;
    try (destruct Hp as [(s' & Ht & _)]; inversion Ht; fail).
  - apply point_end in Hp as [-> ->]. exists (Finished a), (MkSeq df st (q_slot sq)), prog. by split_and!.
  - destruct (point_decode _ _ _ _ _ _ _ _ _ _ _ Hp) as (i & st1 & l' & Hi & -> & Hth & H0 & H64 & Hvals & Hp').
    assert (forall d, d ∈ deps -> present (q_state sq) d) as Hdeps
      by (intros d Hd; destruct (Hvals d Hd) as (v & Hv & _); by eapply val_present).
    assert (exists line, declared (put (q_slot sq) i st) i = Ok line) as [line Hline].
    { apply (new_shows _ _ _ _ _ _ _ _ _ _ _ _ _ Hp Hc Hi). exact Hvals. }
    set (df' := MkDataFlow _ _ (df_thunks df ++ _) _) in *.
    destruct (core_decode vis df st (q_slot sq) i df' Hc) as [Hc' Hw]; [| | | |done|].
    + intros Hpt%(core_present _ _ _ Hc)%(pt_present _ _ _ _ _ _ Hp)%(pt_below _ _ _ _ _ _ Hp). lia.
    + apply (pt_undone _ _ _ _ _ _ Hp). by left.
    + rewrite (pt_prog _ _ _ _ _ _ Hp). rewrite fmap_cons. exists l'.*1. by rewrite <- app_assoc.
    + intros d Hd. apply (core_present _ _ _ Hc), (pt_present _ _ _ _ _ _ Hp), Hdeps. by rewrite Hi in Hd.
    + destruct (IH (q_slot sq) _ _ _ _ _ Hp' Hc') as (r & s' & vis' & Hpoll & Hcore & Hwk & Hval & Hr).
      exists r, s', vis'. split_and!; [|done|done|intros u; rewrite Hval; by rewrite Hw|done].
      cbn [poll_task]. unfold thunk_impl. cbn [q_df q_state q_slot].
      assert (known (df_thread df) = true) as -> by (rewrite Hk; unfold only; by rewrite Hth, Z.eqb_refl). cbn [guard_ bind].
      rewrite (proj2 (Z.leb_gt PIPELINE_SIZE (df_len df))) by (by eapply core_room).
      rewrite add64_ok by lia. cbn [bind]. fold (new_thunk df b ad o deps comp). rewrite <- Hi.
      fold (put (q_slot sq) i st). rewrite Hline. cbn [print bind]. rewrite <- Hpoll. done.
  - destruct (point_await _ _ _ _ _ _ _ _ Hp Hc) as (v & j & Hj & Hth & Hp' & Hg).
    cbn [poll_task]. unfold Data.poll, deref. cbn [q_df q_state q_slot]. rewrite Hj. cbn [bind].
    destruct Hg as [Hg|[Hg Hn]]; rewrite Hg; cbn [bind]; rewrite Hk; unfold only; rewrite Hth, Z.eqb_refl; cbn [guard_ bind].
    + by apply (IH v sq l vis df st).
    + fold (put t (set_wakers (t_wakers j ++ [th]) j) st).
      destruct (core_wait vis df st t j th Hc Hj Hn) as [Hc' Hw].
      eexists _, _, vis. split; [reflexivity|]. cbn [q_df q_state q_slot]. split_and!; [done|done| |].
      * intros u. symmetry. apply same_but_wakers_val, same_but_wakers_sym. by apply same_wakers.
      * exists sq, l. split_and!; [done|done|]. by exists t, k.
Qed.
End Follow.

(** ** The process with one task *)

Section Alone.
Context {BV : Bitvec} {X R F : Type} (th : Z).
Implicit Types (p : Process X (Pool X) R F) (df : DataFlow) (vis : list Z).
Variable st0 : State X.
Variable prog : list Z.
Variable stn : State X.
Variable base : Z -> Prop.
(** What the task sends to whoever joins the thread. *)
Variable a : Z.
Hypothesis Hprog : program st0 prog stn.
Hypothesis Huni : uniform st0 prog stn.
Hypothesis Haddr : forall t i a ly, heap st0 !! t = Some i -> t ∈ prog -> t_address i = Some (a, ly) -> a ∈ t_deps i.
Hypothesis Hready : atomics_ready st0 prog.
Hypothesis Huntraced : untraced st0 prog.
Hypothesis Hroom : zlen prog <= PIPELINE_SIZE.
Variable run_until_stalled : Process X (Pool X) R F -> res (Process X (Pool X) R F).
Hypothesis Hpool : local_pool run_until_stalled.
Variable choose : Z -> R -> Z * R.
Hypothesis Hchoose : forall n r, 0 < n -> 0 <= (choose n r).1 < n.

Local Abbreviation whole := (whole st0).
Local Abbreviation core := (core st0 prog base).
Local Abbreviation point := (point th st0 prog stn base).
Local Abbreviation sched p := (threads (p_sched p)).

(** The process has the thread [t], and the task, which is on its way or done. *)
Inductive phase vis df p : Thread -> Prop :=
  | phase_live t c sq l : e_tasks (p_pool p) = {[th := c]} -> e_slot (p_pool p) = q_slot sq ->
      th_join t = JoinPending -> point c sq l a vis df ->
      th ∈ awake p \/ (exists u k, c = Await u k /\ waits (p_state p) u th) -> phase vis df p t
  | phase_done t : e_tasks (p_pool p) = ∅ -> e_sent (p_pool p) !! th = Some a -> th_join t = JoinSent a -> vis = prog ->
      phase vis df p t.

Record alone vis df p t : Prop := {
  al_thread : sched p = [(th, t)];
  al_data : th_data t = df;
  al_core : core vis df (p_state p);
  al_phase : phase vis df p t
}.

(** The task is done or waits for a thunk that will wake it. *)
Definition settled p : Prop :=
  e_tasks (p_pool p) = ∅ \/ exists c u k, e_tasks (p_pool p) = {[th := c]} /\ c = Await u k /\ waits (p_state p) u th.

Definition left_over p : nat := unfinished prog (whole (p_state p)).

Lemma polls_idle p ids : (forall id, id ∈ ids -> e_tasks (p_pool p) !! id = None) -> polls ids p = Ok p.
Proof.
  unfold polls.
  induction ids as [|id ids IH]; intros H; [done|]. cbn [foldM]. unfold poll_thread at 1.
  rewrite (H id) by (by left). cbn [bind]. apply IH. intros; apply H; by right.
Qed.

Lemma taken_core vis df p : core vis df (p_state p) -> core vis df (p_state (taken p)).
Proof. intros [Hp Hc Hpres]. constructor; [|done|done]. by eapply pipe_poll. Qed.

Lemma alone_known p t id : sched p = [(th, t)] -> known p id = only th id.
Proof.
  intros Ht. unfold known, Process.thread, sched_thread. unfold threads in Ht. rewrite Ht. cbn [bt_get].
  unfold only. rewrite Z.eqb_sym. by destruct (id =? th).
Qed.

(** The poll of the task. *)
Lemma poll_alone vis df p t c sq l :
  sched p = [(th, t)] -> th_data t = df -> core vis df (p_state p) -> e_tasks (p_pool p) = {[th := c]} ->
  e_slot (p_pool p) = q_slot sq -> th_join t = JoinPending -> point c sq l a vis df ->
  exists p' t' vis' df', poll_thread th p = Ok p' /\ alone vis' df' p' t' /\ settled p' /\ left_over p' = left_over p /\
    (forall id, id <> th -> e_tasks (p_pool p') !! id = None).
Proof.
  intros Ht Hd Hc He Hslot Hj Hp.
  destruct (poll_point th st0 prog stn base Hprog Huni Haddr Hroom c sq l a vis df (p_state p) (known p))
    as (r & s & vis' & Hpoll & Hcore & Hwk & Hval & Hr); [intros id; by eapply alone_known|done|done|].
  unfold poll_thread. rewrite He, lookup_singleton_eq. cbn [unwrap].
  unfold Process.thread, sched_thread. unfold threads in Ht. rewrite Ht. cbn [bt_get]. rewrite Z.eqb_refl.
  cbn [unwrap bind]. rewrite Hd, Hslot, Hpoll. cbn [bind].
  assert (unfinished prog (whole (q_state s)) = unfinished prog (whole (p_state p))) as Hun.
  { unfold unfinished. f_equal. apply list_filter_iff. intros u. by rewrite Hval. }
  destruct r as [b|c'].
  - destruct Hr as [-> ->]. eexists _, (set_join (JoinSent a) (set_data (q_df s) t)), prog, (q_df s). split; [reflexivity|].
    unfold settled. cbn [p_pool p_state e_tasks]. rewrite delete_singleton_eq.
    split_and!; [constructor|by left|exact Hun|intros; apply lookup_empty].
    + unfold alter_thread, threads. cbn [p_sched sched_threads]. rewrite Ht. cbn [bt_alter map]. by rewrite !Z.eqb_refl.
    + done.
    + done.
    + apply phase_done; [done|apply lookup_insert_eq|done|done].
  - destruct Hr as (sq' & l' & Hp' & Hs' & u & k & -> & Hw).
    eexists _, (set_data (q_df s) t), vis', (q_df s). split; [reflexivity|].
    unfold settled. cbn [p_pool p_state e_tasks]. rewrite insert_singleton_eq.
    split_and!; [constructor|right; by exists (Await u k), u, k|exact Hun|intros; by apply lookup_singleton_ne].
    + unfold alter_thread, threads. cbn [p_sched sched_threads]. rewrite Ht. cbn [bt_alter map]. by rewrite Z.eqb_refl.
    + done.
    + done.
    + eapply phase_live; [done|done|done|done|]. right. by exists u, k.
Qed.

(** [run_until_stalled] *)
Lemma run_alone vis df p t :
  alone vis df p t ->
  exists p' t' vis' df', run_until_stalled p = Ok p' /\ alone vis' df' p' t' /\ settled p' /\ left_over p' = left_over p.
Proof.
  intros Hal. pose proof Hal as [Ht Hd Hc Hph]. destruct (Hpool p) as (ids & Hperm & ->).
  assert (NoDup ids) as Hnd by (rewrite Hperm; apply NoDup_remove_dups).
  assert (forall id, id ∈ ids <-> id ∈ awake p) as Hin by (intros id; by rewrite Hperm).
  destruct Hph as [t c sq l He Hs Hj Hp Haw|t He Hsent Hj Hv].
  - assert (forall id, id <> th -> e_tasks (p_pool (taken p)) !! id = None) as Hne
      by (intros; simpl; rewrite He; by apply lookup_singleton_ne).
    destruct (decide (th ∈ awake p)) as [Ha|Ha].
    + apply Hin in Ha. apply list_elem_of_split in Ha as (pre & post & Heq). rewrite Heq in Hnd |- *.
      apply NoDup_app in Hnd as (_ & Hpre & [Hpost _]%NoDup_cons).
      unfold polls. rewrite foldM_app. fold (polls pre (taken p)).
      rewrite polls_idle by (intros id Hid; apply Hne; intros ->; apply (Hpre th Hid); by left). cbn [bind foldM].
      destruct (poll_alone vis df (taken p) t c sq l Ht Hd (taken_core _ _ _ Hc) He Hs Hj Hp)
        as (p' & t' & vis' & df' & -> & Hal' & Hset & Hlo & Hne'). cbn [bind].
      exists p', t', vis', df'. split_and!; [|done..]. apply polls_idle. intros id Hid. apply Hne'. by intros ->.
    + rewrite polls_idle by (intros id Hid; apply Hne; intros ->; by apply Hin in Hid).
      destruct Haw as [?|(u & k & Hu & Hw)]; [done|]. exists (taken p), t, vis, df.
      split_and!; [done| |right; by exists c, u, k|done].
      constructor; [done|done|by apply taken_core|]. eapply phase_live; [done..|]. right. by exists u, k.
  - rewrite polls_idle by (intros id _; simpl; by rewrite He).
    exists (taken p), t, vis, df. split_and!; [done| |by left|done].
    constructor; [done|done|by apply taken_core|by apply phase_done].
Qed.

Definition same_fields df df' : Prop :=
  df_thread df' = df_thread df /\ df_seq df' = df_seq df /\ df_tracing df' = df_tracing df.

Lemma awake_grows p p' w : grows (p_state p) (p_state p') -> p_pool p' = p_pool p -> w ∈ awake p -> w ∈ awake p'.
Proof.
  intros Hg Hp. unfold awake. rewrite Hp, !elem_of_remove_dups, !elem_of_app.
  intros [?|?]; [by left|right; by apply (gr_woken _ _ Hg)].
Qed.

(** Running thunks keeps the task where it is, waiting or woken. *)
Lemma phase_grows vis df df' p p' t t' :
  grows (p_state p) (p_state p') -> p_pool p' = p_pool p -> same_fields df df' -> th_join t' = th_join t ->
  phase vis df p t -> phase vis df' p' t'.
Proof.
  intros Hg Hp (E1 & E2 & E3) Hj Hph. destruct Hph as [t c sq l He Hs Hx Hpt Haw|t He Hsent Hx Hv].
  - eapply (phase_live _ _ _ _ c sq l); [by rewrite Hp|by rewrite Hp|by rewrite Hj| |].
    + destruct Hpt as [? ? ? ? ? ? ? Hdf]. constructor; try done. by rewrite E1, E2, E3.
    + destruct Haw as [Ha|(u & k & -> & Hw)]; [left; by eapply awake_grows|].
      destruct (gr_waits _ _ Hg u th Hw) as [?|Hwk]; [right; by exists u, k|left].
      unfold awake. rewrite elem_of_remove_dups, elem_of_app. by right.
  - apply phase_done; [by rewrite Hp|by rewrite Hp|by rewrite Hj|done].
Qed.

Lemma step_pure_fields (st st' : State X) df res b r df' : step_pure df res st = Ok (b, r, df', st') -> same_fields df df'.
Proof. unfold step_pure. intros (ts & _ & ([[b' r'] st1] & _ & [= <- <- <- <-])%bind_Ok)%bind_Ok. by split_and!. Qed.

Lemma core_queue vis df st u : core vis df st -> u ∈ df_thunks df -> present st u.
Proof.
  intros Hc Hu. destruct (core_inv _ _ _ _ Hprog Huni _ _ _ Hc) as [_ (_ & Hsub & _)].
  apply (core_present _ _ _ _ _ _ Hc). left. by eapply elem_of_sublist.
Qed.

(** A pass over the thread. *)
Lemma pass_alone vis df p t :
  alone vis df p t ->
  exists b r p' df', step_threads (sched p) [] false p = Ok (b, r, p') /\
    step_pure df [] (whole (p_state p)) = Ok (b, r, df', whole (p_state p')) /\
    alone vis df' p' (set_data df' t) /\ grows (p_state p) (p_state p') /\ p_pool p' = p_pool p.
Proof.
  intros [Ht Hd Hc Hph]. destruct (core_inv _ _ _ _ Hprog Huni _ _ _ Hc) as [Hooo Hq].
  destruct (step_pure_ok _ _ _ Hprog _ _ _ Huni Hooo Hq) as (b & r & df' & st1 & ts & Hst & _).
  destruct (extend_step_pure (heap st0) df (p_state p) b r df' st1 (core_closed _ _ _ _ _ _ Hc)) as (st' & -> & Hst' & Hg);
    [intros u; by apply (core_queue vis)|done|].
  rewrite Ht. cbn [step_threads]. rewrite Hd, Hst'. cbn [bind orb].
  eexists b, r, _, df'. split; [reflexivity|]. cbn [p_state p_pool set_sched set_state].
  split_and!; [exact Hst| |done|done]. constructor.
  - unfold threads in *. cbn [p_sched set_sched set_state sched_threads].
    etransitivity; [exact (f_equal (bt_alter (set_data df') th) Ht)|]. simpl. by rewrite Z.eqb_refl.
  - done.
  - destruct Hc as [Hp Hcl Hpres]. constructor; [by eapply pipe_pass|by apply (gr_closed _ _ Hg)|].
    intros u. cbn [p_state set_sched set_state]. by rewrite (gr_present _ _ Hg).
  - eapply (phase_grows _ df df' p _ t); [done|done|by eapply step_pure_fields|done|done].
Qed.

Definition reaped p : Process X (Pool X) R F := set_sched (reap_threads (p_sched p)) p.

(** The thread is reaped when its task is done and its queue empty. *)
Lemma reap_alone vis df p t :
  alone vis df p t ->
  (alone vis df (reaped p) t /\ (e_tasks (p_pool p) <> ∅ \/ df_thunks df <> [])) \/
  (sched (reaped p) = [] /\ vis = prog /\ df_thunks df = []).
Proof.
  intros [Ht Hd Hc Hph]. unfold reaped. unfold threads in *.
  assert (alive t = true <-> e_tasks (p_pool p) <> ∅ \/ df_thunks df <> []) as Ha.
  { unfold alive. destruct Hph as [t c sq l He _ -> _ _|t He _ -> _].
    - split; [intros _; left; rewrite He; apply map_non_empty_singleton|done].
    - rewrite He, Hd. unfold df_len, zlen. rewrite Z.ltb_lt. destruct (df_thunks df); simpl; [split; [lia|intros [?|?]; done]|split; [by right|lia]]. }
  destruct (alive t) eqn:E.
  - left. split; [|by apply Ha]. constructor; [|done..|by destruct Hph; [eapply phase_live|apply phase_done]].
    unfold threads, reap_threads, bt_retain. cbn [p_sched set_sched sched_threads]. rewrite Ht. by rewrite filter_cons_True.
  - right. split; [unfold reap_threads, bt_retain; cbn [p_sched set_sched sched_threads]; rewrite Ht; by rewrite filter_cons_False by (simpl; congruence)|].
    destruct Hph as [t c sq l He _ _ _ _|t He _ _ Hv].
    + assert (false = true); [|done]. apply Ha. left. rewrite He. apply map_non_empty_singleton.
    + split; [done|]. destruct (df_thunks df) eqn:Ed; [done|]. assert (false = true); [|done]. apply Ha. by right.
Qed.

Definition all_done p : Prop := forall u, u ∈ prog -> val (whole (p_state p)) u <> None.

(** With nothing left to run and nothing to offer, the task is done. *)
Lemma stuck_done vis df p t df' :
  alone vis df p t -> settled p ->
  step_pure df [] (whole (p_state p)) = Ok (false, [], df', whole (p_state p)) ->
  e_tasks (p_pool p) = ∅ /\ e_sent (p_pool p) !! th = Some a /\ vis = prog /\ df_thunks df' = [] /\ all_done p.
Proof.
  intros [Ht Hd Hc Hph] Hset Hst. destruct (core_inv _ _ _ _ Hprog Huni _ _ _ Hc) as [Hooo Hq].
  pose proof (ooo_inv _ _ _ Hprog _ Hooo) as Hinv.
  assert (forall u, u ∈ vis -> val (whole (p_state p)) u <> None) as Hdone.
  { intros u Hu Hn. destruct (queue_offers _ _ _ Hprog vis df _ [] df' Huni Hooo Hq Hst) as (x & ? & Hx & _); [by exists u|].
    by apply elem_of_nil in Hx. }
  assert (df_thunks df' = []) as Hdf.
  { destruct (step_pure_ok _ _ _ Hprog _ _ _ Huni Hooo Hq) as (b1 & r1 & df1 & st1 & ts & Hst1 & _ & _ & _ & _ & Hdf & Hts & _).
    rewrite Hst in Hst1. injection Hst1 as <- <- <- <-. rewrite Hdf. destruct ts as [|x ts]; [done|].
    destruct (proj1 (Hts x)) as [Hx Hxn]; [by left|]. by destruct (Hdone x Hx). }
  destruct Hph as [t c sq l He _ _ Hpt _|t He Hsent _ ->]; [|by split_and!]. exfalso.
  destruct Hset as [Hs|(c' & u & k & Hs & -> & Hw & i & Hi & _)].
  { rewrite He in Hs. by apply map_non_empty_singleton in Hs. }
  rewrite He in Hs. apply (f_equal (.!! th)) in Hs. rewrite !lookup_singleton_eq in Hs. injection Hs as ->.
  destruct (pt_traced _ _ _ _ _ _ _ _ _ _ _ Hpt) as (s' & Htr & _).
  assert (exists v, val (q_state sq) u = Some v) as [v Hv].
  { inversion Htr as [| |u' v j k' sq' l' a' s'' Hj Hjv]; subst. exists v. unfold val. by rewrite Hj, Hjv. }
  assert (val (whole (p_state p)) u = None) as Hn by (unfold Schedule.whole; rewrite extend_val; [done|by exists i]).
  destruct (pt_known _ _ _ _ _ _ _ _ _ _ _ Hpt u v Hv) as [Hu|Hu]; [by apply (Hdone u)|].
  by apply (inv_known _ _ _ _ u Hinv) in Hu.
Qed.

(** The thread is gone, its result sent, all its thunks run. *)
Definition ended p : Prop :=
  sched p = [] /\ e_sent (p_pool p) !! th = Some a /\ all_done p /\ exists df, core prog df (p_state p).

(** The loop of [Process::step]: its end is a pass that changed nothing. *)
Lemma step_decode_alone n vis df p t :
  (left_over p < n)%nat -> alone vis df p t ->
  exists vis' df0 df' r p', step_decode run_until_stalled n p = Some (Ok (r, p')) /\
    pipe st0 prog vis' df0 (whole (p_state p')) /\
    step_pure df0 [] (whole (p_state p')) = Ok (false, r, df', whole (p_state p')) /\ (left_over p' <= left_over p)%nat /\
    ((exists t', alone vis' df' p' t') \/ df_thunks df' = []) /\ (r = [] -> ended p').
Proof.
  revert vis df p t. induction n as [|n IH]; intros vis df p t Hn Hal; [lia|].
  destruct (run_alone vis df p t Hal) as (p1 & t1 & vis1 & df1 & Hrun & Hal1 & Hset & Hlo).
  destruct (pass_alone vis1 df1 p1 t1 Hal1) as (b & r & p2 & df2 & Hpass & Hst & Hal2 & Hg & Heqp).
  cbn [step_decode]. rewrite Hrun. cbn [bind]. rewrite Hpass. fold (reaped p2).
  pose proof (al_core _ _ _ _ Hal1) as Hc1. destruct (core_inv _ _ _ _ Hprog Huni _ _ _ Hc1) as [Hooo Hq].
  destruct b.
  - destruct (pass_progress _ _ _ Hprog _ _ _ _ _ _ Huni Hooo Hq Hst) as [Hlt Hne].
    destruct (reap_alone _ _ _ _ Hal2) as [[Hal3 _]|(_ & _ & ?)]; [|done].
    destruct (IH vis1 df2 (reaped p2) _ ltac:(unfold left_over in *; simpl; lia) Hal3)
      as (vis' & df0 & df' & r' & p' & H1 & H2 & H3 & H4 & H5 & H6).
    exists vis', df0, df', r', p'. split_and!; [done..| |done|done]. unfold left_over in *. simpl in H4. lia.
  - destruct (step_pure_ok _ _ _ Hprog _ _ _ Huni Hooo Hq) as (b1 & r1 & df3 & st1 & ts & Hst1 & _ & _ & _ & Hf & _).
    rewrite Hst in Hst1. injection Hst1 as <- <- <- <-. specialize (Hf eq_refl).
    exists vis1, df1, df2, r, (reaped p2). split; [done|]. cbn [reaped p_state set_sched]. rewrite Hf in *.
    split_and!; [apply Hc1|done|unfold left_over in *; simpl; rewrite Hf; lia| |].
    + destruct (reap_alone _ _ _ _ Hal2) as [[? _]|(_ & _ & ?)]; [left; by eexists|by right].
    + intros ->. destruct (stuck_done vis1 df1 p1 t1 df2 Hal1 Hset Hst) as (He & Hsent & -> & Hdf & Hdone). split_and!.
      * destruct (reap_alone _ _ _ _ Hal2) as [[_ [H|H]]|(H & _)]; [by rewrite Heqp in H|done|done].
      * simpl. by rewrite Heqp.
      * intros u Hu. simpl. rewrite Hf. by apply Hdone.
      * exists df2. apply (al_core _ _ _ _ Hal2).
Qed.

(** An operation that was offered is performed. *)
Lemma pick_alone vis df0 df' p q t r :
  pipe st0 prog vis df0 (whole (p_state p)) ->
  step_pure df0 [] (whole (p_state p)) = Ok (false, r, df', whole (p_state p)) ->
  (exists t', alone vis df' p t') \/ df_thunks df' = [] -> t ∈ r ->
  p_state q = p_state p -> p_sched q = p_sched p -> p_pool q = p_pool p ->
  exists p' t', step_resolvable t q = Ok (true, p') /\ alone vis df' p' t' /\ (left_over p' < left_over p)%nat.
Proof.
  intros Hp Hst Hor Ht Hq1 Hq2 Hq3.
  destruct (offered_runs st0 prog stn Hprog vis df0 _ r df' t Huni Hready Hp Hst Ht) as (Hv & Htd & st1 & Hs & Hpipe & Hlt).
  destruct Hor as [[t' Hal]|Hn]; [|by rewrite Hn in Htd; apply elem_of_nil in Htd].
  pose proof Hal as [Hth Hd [_ Hc Hpres] Hph]. assert (present (p_state p) t) as Hpt by (apply Hpres; by left).
  unfold Schedule.whole in Hs. rewrite extend_step in Hs by done.
  destruct (Data.step t (p_state p)) as [[b st']|e] eqn:Hst'; [|done]. injection Hs as -> <-.
  pose proof (step_grows _ _ _ _ Hst') as Hg.
  unfold step_resolvable. rewrite Hq1, Hst'. cbn [bind guard_]. eexists _, t'. split; [reflexivity|]. split; [|exact Hlt].
  constructor; [by unfold threads in *; cbn [p_sched set_state]; rewrite Hq2|done| |].
  - cbn [p_state set_state]. constructor; [exact Hpipe|by apply (gr_closed _ _ Hg)|]. intros u. by rewrite (gr_present _ _ Hg).
  - eapply (phase_grows vis df' df' p); [exact Hg|exact Hq3|by split_and!|done|exact Hph].
Qed.

(** One call of [Process::step]. *)
Lemma step_alone n vis df p t :
  (left_over p < n)%nat -> alone vis df p t ->
  exists b p', step run_until_stalled choose n p = Some (Ok (b, p')) /\
    if b then (exists vis' df' t', alone vis' df' p' t') /\ (left_over p' < left_over p)%nat
    else ended p'.
Proof.
  intros Hn Hal. destruct (step_decode_alone n vis df p t Hn Hal) as (vis' & df0 & df' & r & p1 & H1 & Hp & Hst & Hle & Hor & Hnil).
  unfold step. rewrite H1.
  assert (forall u q, u ∈ r -> p_state q = p_state p1 -> p_sched q = p_sched p1 -> p_pool q = p_pool p1 ->
    exists p', step_resolvable u q = Ok (true, p') /\ (exists vis' df' t', alone vis' df' p' t') /\ (left_over p' < left_over p)%nat) as Hrun.
  { intros u q Hu Hq1 Hq2 Hq3. destruct (pick_alone vis' df0 df' p1 q u r Hp Hst Hor Hu Hq1 Hq2 Hq3) as (p' & t' & ? & ? & ?).
    exists p'. split_and!; [done|by exists vis', df', t'|lia]. }
  destruct r as [|x [|y r]]; cbn [step_choose].
  - pose proof (Hnil eq_refl) as Hend. destruct Hend as [Hth ?] eqn:E. rewrite Hth. by exists false, p1.
  - destruct (Hrun x p1) as (p' & -> & H); [by left|done..|]. by exists true, p'.
  - assert (existsb (thunk_tracing (p_state p1)) (x :: y :: r) = false) as ->.
    { apply not_true_is_false. intros (u & Hu & Htr)%existsb_exists.
      apply (extend_tracing (heap st0)) in Htr.
      assert (existsb (thunk_tracing (whole (p_state p1))) (x :: y :: r) = true) as Hx by (apply existsb_exists; by exists u).
      by rewrite (offers_untraced _ _ _ Hprog _ _ _ _ _ Huni Hp Hst Huntraced) in Hx. }
    cbn [bind]. destruct (choose _ _) as [i rng] eqn:Ec.
    assert (0 <= i < zlen (x :: y :: r)) as Hi.
    { change i with (i, rng).1. rewrite <- Ec. apply Hchoose. unfold zlen. simpl. lia. }
    destruct (zget_in_bounds (x :: y :: r) i Hi) as [z Hz]. unfold index. rewrite Hz. cbn [bind].
    destruct (Hrun z (set_rng rng p1)) as (p' & -> & H); [|done..|by exists true, p'].
    eapply list_elem_of_lookup_2. unfold zget in Hz. destruct (0 <=? i); [exact Hz|done].
Qed.

Lemma loop_alone m n vis df p t :
  (left_over p < n)%nat -> (left_over p < m)%nat -> alone vis df p t ->
  exists p', run run_until_stalled choose m n p = Some (Ok p') /\ ended p'.
Proof.
  revert vis df p t. induction m as [|m IH]; intros vis df p t Hn Hm Hal; [lia|]. cbn [run].
  destruct (step_alone n vis df p t Hn Hal) as ([] & p' & -> & H).
  - destruct H as [(vis' & df' & t' & Hal') Hlt]. apply (IH vis' df' p' t'); [lia|lia|done].
  - by exists p'.
Qed.
End Alone.

(** ** From the start to the end *)

Section Claims.
Context {BV : Bitvec} {X R F : Type}.
Implicit Types (s : Seq X) (p : Process X (Pool X) R F).

(** The process has one thread, whose task [c] has been spawned; the thunks that
    are in the heap, and the queue, are those of [s]. *)
Record spawned (th : Z) (c : Async X Z) s p : Prop := {
  sp_thread : exists t, threads (p_sched p) = [(th, t)] /\ th_data t = q_df s /\ th_join t = JoinPending;
  sp_state : p_state p = q_state s;
  sp_tasks : e_tasks (p_pool p) = {[th := c]};
  sp_spawned : e_spawned (p_pool p) = [th];
  sp_slot : e_slot (p_pool p) = q_slot s
}.

(** Nothing is pending; the slots beyond the heap are free; the heap is closed. *)
Record fresh (th : Z) s : Prop := {
  fr_idle : idle (only th) s;
  fr_below : below s;
  fr_closed : closed (q_state s)
}.

Lemma spawned_alone th (c : Async X Z) s l a s' p :
  spawned th c s p -> fresh th s -> traced th c s l a s' ->
  exists t, alone th (undone l s) l.*1 (q_state s') (present (q_state s)) a [] (q_df s) p t.
Proof.
  intros [(t & Ht & Hd & Hj) Hs Htk Hsp Hsl] [Hi Hb Hc] Htr. exists t. constructor; [done|done| |].
  - rewrite Hs. constructor; [|done|]; [|intros u; split; [by right|intros [?%elem_of_nil|?]; done]].
    assert (whole (undone l s) (q_state s) = undone l s) as ->.
    { unfold whole, undone, extend. simpl. by rewrite (assoc_L (∪)), (idemp_L (∪)). }
    apply pipe_start, Hi.
  - eapply phase_live; [exact Htk|exact Hsl|exact Hj| |left; unfold awake; rewrite Hsp; apply elem_of_remove_dups; by left].
    constructor; [by exists s'|done|done| | | | |by split_and!].
    + intros u i Hu. by eapply undone_lookup.
    + intros u. split; [by right|]. by intros [?%elem_of_nil|?].
    + intros u v Hv. right. exists v. unfold undone. rewrite extend_val; [done|by eapply val_present].
    + intros u i Hu. exists i. split; [|done]. unfold undone. by rewrite extend_lookup by (by exists i).
Qed.

Lemma thread_runs_lemma th (c : Async X Z) s l a s' p run_until_stalled (choose : Z -> R -> Z * R) :
  traced th c s l a s' -> zlen l <= PIPELINE_SIZE -> orderly (undone l s) l.*1 (q_state s') ->
  fresh th s -> spawned th c s p -> local_pool run_until_stalled -> (forall n r, 0 < n -> 0 <= (choose n r).1 < n) ->
  exists p', run run_until_stalled choose (S (length l)) (S (length l)) p = Some (Ok p') /\
    threads (p_sched p') = [] /\ e_sent (p_pool p') !! th = Some a /\
    (forall t, t ∈ l.*1 -> val (p_state p') t = val (q_state s') t) /\
    (forall b, byte_at (p_memory p') b = byte_at (q_memory s') b) /\
    w_rest (world (p_state p')) = w_rest (world (q_state s')).
Proof.
  intros Htr Hlen Hord Hfr Hsp Hpool Hchoose.
  pose proof (traced_program th c s l a s' Htr (fr_below _ _ Hfr) (fr_closed _ _ Hfr) Hord) as Hprog.
  destruct (spawned_alone th c s l a s' p Hsp Hfr Htr) as (t & Hal).
  assert (length l.*1 = length l) as Hll by apply length_fmap.
  assert (unfinished l.*1 (whole (undone l s) (p_state p)) <= length l)%nat as Hle.
  { rewrite <- Hll. unfold unfinished. apply sublist_length, sublist_filter. }
  destruct (loop_alone th (undone l s) l.*1 (q_state s') (present (q_state s)) a Hprog (ord_uniform _ _ _ Hord)
    (ord_address _ _ _ Hord) (ord_ready _ _ _ Hord) (ord_untraced _ _ _ Hord) ltac:(unfold zlen in *; by rewrite Hll) run_until_stalled Hpool choose Hchoose
    (S (length l)) (S (length l)) [] (q_df s) p t) as (p' & Hrun & Hth & Hsent & Hdone & df & Hc);
    [unfold left_over; lia|unfold left_over; lia|exact Hal|].
  destruct (core_inv _ _ _ _ Hprog (ord_uniform _ _ _ Hord) _ _ _ Hc) as [Hooo _].
  destruct (ooo_final _ _ _ Hprog _ Hooo Hdone) as (Hv & Hm & Hr).
  exists p'. split_and!; [done|done|done| |exact Hm|exact Hr]. intros u Hu. rewrite <- Hv by done.
  symmetry. apply extend_val, (core_present _ _ _ _ _ _ Hc). by left.
Qed.

(** C3: A thread runs as its task does in program order. The task of a thread is
    polled whenever a waker of its has been called, decodes ahead while the
    queue runs its thunks out of order, and waits for the values it branches on.
    If, run alone with every thunk performed as it is decoded, the task ends
    with [a] after decoding at most 1000 thunks ([l]), whose accesses are to the
    same bytes or to disjoint ones, then the loop of [main] ends after at most
    one call of [Process::step] per thunk and one more, in whatever order the pool
    polls and whichever operations the generator picks; nothing panics and no
    wake-up is lost; the thread is reaped after sending [a] to those who join
    it; and every thunk, every byte of memory and the rest of the process are as
    after the run in program order. *)
Theorem thread_runs_to_end th (c : Async X Z) s l a s' p run_until_stalled (choose : Z -> R -> Z * R) :
  exec (only th) c s = Some (Ok (a, s')) -> decoded th c s = Some l -> zlen l <= PIPELINE_SIZE ->
  orderly (undone l s) l.*1 (q_state s') -> fresh th s -> spawned th c s p ->
  local_pool run_until_stalled -> (forall n r, 0 < n -> 0 <= (choose n r).1 < n) ->
  exists p', run run_until_stalled choose (S (length l)) (S (length l)) p = Some (Ok p') /\
    threads (p_sched p') = [] /\ e_sent (p_pool p') !! th = Some a /\
    (forall t, t ∈ l.*1 -> val (p_state p') t = val (q_state s') t) /\
    (forall b, byte_at (p_memory p') b = byte_at (q_memory s') b) /\
    w_rest (world (p_state p')) = w_rest (world (q_state s')).
Proof.
  intros He Hd Hlen Hord Hfr. apply thread_runs_lemma; [|done..].
  by apply exec_traced; [apply (fr_idle _ _ Hfr)|..].
Qed.
End Claims.
