(* ===== verification/Modules.v ===== *)
(** * Modules: src/src/compile/module.rs

    Loading the modules of a program into a process: every function and variable
    gets an address and a symbol, then the aliases are resolved, then the
    functions are registered to be compiled when they are first called, and
    last the variables are given their initial values. *)

From S2P Require Import Prelude RangeMap MemOrdering Layout Bitvec Value Memory Symbols Classes Operation.
From S2P Require Import Data Expr Typing FuncCompiler.

(** ** Modules: the part of llvm_ir's [Module] the source reads *)

Record GlobalVariable := MkGlobalVariable {
  gv_name : Name;
  gv_linkage : Linkage;
  gv_ty : Typ;
  gv_thread_local_mode : ThreadLocalMode;
  gv_initializer : option Constant;
  gv_alignment : Z
}.

Record GlobalAlias := MkGlobalAlias { ga_name : Name; ga_linkage : Linkage; ga_aliasee : Constant }.

(** A function with its linkage. *)
Record Module_ := MkModule {
  mod_functions : list (Linkage * Function);
  global_vars : list GlobalVariable;
  global_aliases : list GlobalAlias
}.

(** [Rc<dyn Func>] as it is registered: a native function, or the [Lazy] whose
    producer compiles a function of a module for its address. *)
Inductive LazyFunc := LazyNative (name : String.string) | LazyCompiled (module loc : Z) (func : Function).

(** [str_of_name] *)
Definition str_of_name (name : Name) : res String.string :=
  match name with NameName name => Ok name | NameNumber _ => Panic Explicit end.

(** ** [Compiler::compile_modules]

    [process.types] is the class table with the named structs of all modules
    ([TypeMap::add_module]). *)

Section Compile.
Context {BV : Bitvec} {TV : TypeMapView}.
Implicit Types (p : Tables LazyFunc).

(** The entries of [func_inits] and [global_inits]; a module is its number. *)
Definition FuncInit : Type := Z * Z * Function.
Definition GlobalInit : Type := Z * SymbolDef * Layout * GlobalVariable.

Definition declare_func (moduleid : Z) (func : Linkage * Function) p : res (FuncInit * Tables LazyFunc) :=
  let! symbol := symbol_new func.1 moduleid (fn_name func.2) in
  let! func_layout := of_func in
  let! (loc, p) := add_symbol symbol NotThreadLocal func_layout p in
  let! loc := unwrap (global loc) in
  Ok ((moduleid, loc, func.2), p).

(** The layout of a variable: that of the type its type points to, aligned. *)
Definition global_layout (g : GlobalVariable) : res Layout :=
  let! c := tv_get (gv_ty g) in
  let! e := cv_element c 0 in
  let! layout := cv_layout (e_class e) in
  let! align := mul64 8 (gv_alignment g) in
  align_to_bits layout align.

(** [None] is the [continue] of a declaration. *)
Definition declare_global (moduleid : Z) (g : GlobalVariable) p : res (option GlobalInit * Tables LazyFunc) :=
  match gv_initializer g with
  | None => Ok (None, p)
  | Some _ =>
      let! name := str_of_name (gv_name g) in
      let! symbol := symbol_new (gv_linkage g) moduleid name in
      let! layout := global_layout g in
      let! (def, p) := add_symbol symbol (gv_thread_local_mode g) layout p in
      Ok (Some (moduleid, def, layout, g), p)
  end.

(** The body of the first loop over the modules. *)
Definition declare_module (im : Z * Module_) p : res ((list FuncInit * list (option GlobalInit)) * Tables LazyFunc) :=
  let! (fs, p) := smapM (declare_func im.1) (mod_functions im.2) p in
  let! (gs, p) := smapM (declare_global im.1) (global_vars im.2) p in
  Ok ((fs, gs), p).

(** The body of the loop over the aliases. *)
Definition define_alias p (ia : Z * GlobalAlias) : res (Tables LazyFunc) :=
  let! name := str_of_name (ga_name ia.2) in
  let! symbol := symbol_new (ga_linkage ia.2) ia.1 name in
  let! target := compile_const ia.1 (symbols p) (ga_aliasee ia.2) in
  let! (_, value) := unwrap (as_const target) in
  let! s := add_alias symbol (as_u64 value) (symbols p) in
  Ok (MkTables (memory p) s (definitions p)).

Definition define_func p (fi : FuncInit) : res (Tables LazyFunc) :=
  let '(moduleid, loc, func) := fi in
  let! d := add_func loc (LazyCompiled moduleid loc func) (definitions p) in
  Ok (MkTables (memory p) (symbols p) d).

(** The value a variable starts with. *)
Definition initial_value (moduleid : Z) (s : SymbolTable) (layout : Layout) (g : GlobalVariable) : res Value :=
  match gv_initializer g with
  | Some init =>
      let! init := compile_const moduleid s init in
      let! (c, value) := unwrap (as_const init) in
      let! l := cv_layout c in
      assert! Layout.bits l =? Layout.bits layout or AssertFailed in
      assert! bit_align l <=? bit_align layout or AssertFailed in
      Ok value
  | None => Value.zero (Layout.bits layout)
  end.

Definition init_global p (gi : GlobalInit) : res (Tables LazyFunc) :=
  let '(moduleid, def, layout, g) := gi in
  let! value := initial_value moduleid (symbols p) layout g in
  match def with
  | Global addr =>
      let! m := store_impl 0 addr value ONone (memory p) in
      Ok (MkTables m (symbols p) (definitions p))
  | ThreadLocal key =>
      let! d := add_thread_local_init key layout value (definitions p) in
      Ok (MkTables (memory p) (symbols p) d)
  end.

Definition compile_modules (modules : list Module_) p : res (Tables LazyFunc) :=
  let modules := enumerate modules in
  let! (inits, p) := smapM declare_module modules p in
  let! p := foldM define_alias p (flat_map (fun im => pair im.1 <$> global_aliases im.2) modules) in
  let! p := foldM define_func p (concat inits.*1) in
  foldM init_global p (omap (fun x => x) (concat inits.*2)).
End Compile.

(** ** What loading a program does to the tables *)

Section Load.
Context {BV : Bitvec} {BL : BitvecLaws} {TV : TypeMapView} {TL : TypeLaws TV}.
Implicit Types (p : Tables LazyFunc) (g : GlobalVariable) (gi : GlobalInit) (fi : FuncInit).

(** The bytes of a layout. *)
Definition lsize (l : Layout) : Z := (Layout.bits l + 7) / 8.

(** The address space a program needs. *)
Definition global_demand g : Z :=
  match gv_initializer g, global_layout g with Some _, Ok l => demand l | _, _ => 0 end.
Definition module_demand (m : Module_) : Z :=
  foldr (fun _ z => 392 + z) 0 (mod_functions m) + foldr (fun g z => global_demand g + z) 0 (global_vars m).
Definition program_demand (ms : list Module_) : Z := foldr (fun im z => module_demand im.2 + z) 0 (enumerate ms).

(** The constants of a program are made of [u64]s. *)
Definition module_u64 (m : Module_) : bool :=
  forallb (fun g => match gv_initializer g with Some c => const_u64 c | None => true end) (global_vars m).

(** Registering: symbols are added, at most [d] bytes are used, nothing is written. *)
Record declares p p' (d : Z) : Prop := {
  dc_ok : tables_ok p';
  dc_forward : forward (symbols p) ⊆ forward (symbols p');
  dc_definitions : definitions p' = definitions p;
  dc_cells : Memory.cells (memory p') = Memory.cells (memory p);
  dc_next : next (memory p) <= next (memory p') <= next (memory p) + d
}.

Lemma declares_refl p : tables_ok p -> declares p p 0.
Proof. by split; [..|lia]. Qed.

Lemma declares_trans p1 p2 p3 d1 d2 : declares p1 p2 d1 -> declares p2 p3 d2 -> declares p1 p3 (d1 + d2).
Proof. intros [] []. split; [done|by etrans|congruence|congruence|lia]. Qed.

Lemma declares_le p1 p2 d1 d2 : declares p1 p2 d1 -> d1 <= d2 -> declares p1 p2 d2.
Proof. intros [] Hle. split; [done..|lia]. Qed.

(** A symbol that was registered for a layout. *)
Lemma add_symbol_inv name l p def p' :
  add_symbol name NotThreadLocal l p = Ok (def, p') -> tables_ok p -> Layout.wf l -> Layout.bits l + 7 < 2 ^ 64 ->
  next (memory p) + demand l < 2 ^ 64 ->
  exists a, def = Global a /\ declares p p' (demand l) /\ forward (symbols p') !! name = Some (Global a) /\
    next (memory p) <= a /\ a + lsize l <= next (memory p') /\ (bit_align l / 8 | a).
Proof.
  intros Ha Hok Hl Hb Hn. pose proof Hok as (_ & H0 & _).
  assert (forward (symbols p) !! name = None) as Hfree.
  { unfold add_symbol in Ha. apply bind_Ok in Ha as ([a m] & _ & ([d s] & Hg & _)%bind_Ok).
    by apply add_global_Ok in Hg as (_ & ? & _). }
  destruct (add_symbol_global_spec name l p Hok Hl Hb Hn Hfree) as (a & p1 & Ha1 & Hok' & Hge & Hle & Hf & _ & _ & Hd).
  rewrite Ha in Ha1. injection Ha1 as -> ->.
  destruct (alloc_spec 0 l (memory p) Hl Hb H0 Hn) as (a' & m' & Hal & Hc & _ & Hdiv & Hn' & _).
  unfold add_symbol in Ha. rewrite Hal in Ha. cbn [bind] in Ha. apply bind_Ok in Ha as ([d s] & Hg & [= -> <-]).
  apply add_global_Ok in Hg as ([= ->] & _). exists a'.
  assert (0 <= lsize l) by (apply Z.div_pos; [destruct Hl; lia|lia]). unfold lsize, HEAP_GUARD in *. simpl in *. split_and!; [done| |by rewrite Hf, lookup_insert_eq|lia|lia|done].
  split; simpl; [done|rewrite Hf; by apply insert_subseteq|done|done|lia].
Qed.

Lemma add_thread_local_inv name l p def p' :
  add_symbol name ThreadLocalOther l p = Ok (def, p') -> tables_ok p ->
  exists k, def = ThreadLocal k /\ declares p p' 0 /\ forward (symbols p') !! name = Some (ThreadLocal k).
Proof.
  unfold add_symbol. intros ([d s] & Ha & [= -> <-])%bind_Ok Hok. pose proof Ha as Ha'.
  apply add_thread_local_Ok in Ha as (-> & Hfree & _ & Hs). destruct Hok as (Hsym & H0 & Hr & Hf).
  eexists. split; [done|].
  destruct (sym_step_ok (symbols p) (OpThreadLocal name) s Hsym ltac:(simpl; by rewrite Ha')) as (Hsym' & Hsub & _).
  split; [|subst s; simpl; by rewrite lookup_insert_eq]. subst s. simpl in *.
  split; simpl; [split_and!; done|done|done|done|lia].
Qed.

(** The results of the declarations. *)
Definition func_declared p (m : Z) (f : Linkage * Function) fi : Prop :=
  fi.1.1 = m /\ fi.2 = f.2 /\
  exists sym, symbol_new f.1 m (fn_name f.2) = Ok sym /\ forward (symbols p) !! sym = Some (Global fi.1.2).

Definition global_declared p (m : Z) g (ogi : option GlobalInit) : Prop :=
  match gv_initializer g with
  | None => ogi = None
  | Some _ => exists name sym l def, ogi = Some (m, def, l, g) /\ str_of_name (gv_name g) = Ok name /\
      symbol_new (gv_linkage g) m name = Ok sym /\ global_layout g = Ok l /\
      Layout.wf l /\ forward (symbols p) !! sym = Some def /\
      match gv_thread_local_mode g with
      | NotThreadLocal => exists a, def = Global a /\ (bit_align l / 8 | a)
      | ThreadLocalOther => exists k, def = ThreadLocal k
      end
  end.

Lemma func_declared_mono p p' m f fi :
  forward (symbols p) ⊆ forward (symbols p') -> func_declared p m f fi -> func_declared p' m f fi.
Proof. intros Hs (? & ? & sym & ? & ?). split_and!; [done..|]. exists sym. split; [done|]. by eapply lookup_weaken. Qed.

Lemma global_declared_mono p p' m g ogi :
  forward (symbols p) ⊆ forward (symbols p') -> global_declared p m g ogi -> global_declared p' m g ogi.
Proof.
  intros Hs. unfold global_declared. destruct (gv_initializer g); [|done].
  intros (name & sym & l & def & ? & ? & ? & ? & ? & ? & ?). exists name, sym, l, def. split_and!; [done..| |done].
  by eapply lookup_weaken.
Qed.

(** The variables lie one after the other between two addresses. *)
Fixpoint blocks_in (lo hi : Z) (l : list GlobalInit) : Prop :=
  match l with
  | [] => lo <= hi
  | (_, Global a, lay, _) :: l => lo <= a /\ blocks_in (a + lsize lay) hi l
  | (_, ThreadLocal _, _, _) :: l => blocks_in lo hi l
  end.

Lemma blocks_in_le lo lo' hi hi' l : lo' <= lo -> hi <= hi' -> blocks_in lo hi l -> blocks_in lo' hi' l.
Proof.
  revert lo lo'. induction l as [|[[[m [a|k]] lay] g] l IH]; intros lo lo' Hl Hh; simpl; [lia| |by apply IH].
  intros [? ?]. split; [lia|]. by eapply IH.
Qed.

Lemma blocks_in_app lo mid hi l1 l2 : blocks_in lo mid l1 -> blocks_in mid hi l2 -> blocks_in lo hi (l1 ++ l2).
Proof.
  revert lo. induction l1 as [|[[[m [a|k]] lay] g] l1 IH]; intros lo H1 H2; simpl in *.
  - by eapply blocks_in_le.
  - destruct H1 as [? H1]. split; [done|by apply IH].
  - by apply IH.
Qed.

Lemma global_layout_wf g l : global_layout g = Ok l -> Layout.wf l /\ 0 <= Layout.bits l < 2 ^ 64.
Proof.
  unfold global_layout, align_to_bits. intros (c & _ & (e & _ & (lay & Hlay & (a & _ & (Hl & Ha & Hp)%from_bits_Ok)%bind_Ok)%bind_Ok)%bind_Ok)%bind_Ok.
  pose proof (tl_layout _ _ Hlay) as Hb. subst l. simpl. split; [|done]. split_and!; simpl; [lia|done|done].
Qed.

Lemma demand_nonneg g : 0 <= global_demand g.
Proof.
  unfold global_demand. destruct (gv_initializer g); [|done]. destruct (global_layout g) as [l|] eqn:E; [|done].
  apply global_layout_wf in E as [Hw _]. pose proof (demand_pos l Hw). unfold HEAP_GUARD in *. lia.
Qed.

Lemma add_symbol_bytes name l p r : add_symbol name NotThreadLocal l p = Ok r -> Layout.bits l + 7 < 2 ^ 64.
Proof.
  unfold add_symbol, alloc, Layout.bytes. intros Ha. repeat (apply bind_Ok in Ha as (? & Ha & _)).
  apply chk_u_Ok in Ha. lia.
Qed.

Lemma declare_func_inv m f p fi p' :
  declare_func m f p = Ok (fi, p') -> tables_ok p -> next (memory p) + 392 < 2 ^ 64 ->
  declares p p' 392 /\ func_declared p' m f fi.
Proof.
  unfold declare_func. rewrite of_func_eq. intros (sym & Hsym & H)%bind_Ok Hok Hn. cbn [bind] in H.
  apply bind_Ok in H as ([def p1] & Ha & (a & Hg & [= <- <-])%bind_Ok).
  destruct (add_symbol_inv _ _ _ _ _ Ha Hok) as (a' & -> & Hd & Hf & _);
    [split_and!; simpl; [lia..|by exists 3]|simpl; lia|exact Hn|].
  injection Hg as <-. split; [exact Hd|]. split_and!; [done..|]. by exists sym.
Qed.

Lemma declare_global_inv m g p ogi p' :
  declare_global m g p = Ok (ogi, p') -> tables_ok p -> next (memory p) + global_demand g < 2 ^ 64 ->
  declares p p' (global_demand g) /\ global_declared p' m g ogi /\
  blocks_in (next (memory p)) (next (memory p')) (option_list ogi).
Proof.
  unfold declare_global, global_demand, global_declared. destruct (gv_initializer g) as [init|].
  2: { intros [= <- <-] Hok _. split_and!; [by apply declares_refl|done|simpl; lia]. }
  intros (name & Hname & (sym & Hsym & (l & Hl & ([def p1] & Ha & [= <- <-])%bind_Ok)%bind_Ok)%bind_Ok)%bind_Ok Hok Hn.
  rewrite Hl in Hn |- *. destruct (global_layout_wf g l Hl) as [Hw Hb].
  destruct (gv_thread_local_mode g).
  - destruct (add_symbol_inv _ _ _ _ _ Ha Hok Hw (add_symbol_bytes _ _ _ _ Ha) Hn) as (a & -> & Hd & Hf & Hlo & Hhi & Hdiv).
    split_and!; [done| |simpl; lia]. exists name, sym, l, (Global a). split_and!; [done..|]. by exists a.
  - destruct (add_thread_local_inv _ _ _ _ _ Ha Hok) as (k & -> & Hd & Hf). pose proof (dc_next _ _ _ Hd).
    pose proof (demand_pos l Hw). unfold HEAP_GUARD in *.
    split_and!; [eapply declares_le; [done|lia]| |simpl; lia].
    exists name, sym, l, (ThreadLocal k). split_and!; [done..|]. by exists k.
Qed.

(** A loop of declarations, each of which needs [d] bytes. *)
Lemma smapM_declares {A B} (f : A -> Tables LazyFunc -> res (B * Tables LazyFunc)) (d : A -> Z)
    (P : Tables LazyFunc -> A -> B -> Prop) (blocks : B -> list GlobalInit) (l : list A) bs p p' :
  (forall a, a ∈ l -> 0 <= d a) ->
  (forall p p' a b, forward (symbols p) ⊆ forward (symbols p') -> P p a b -> P p' a b) ->
  (forall a p b p', a ∈ l -> f a p = Ok (b, p') -> tables_ok p -> next (memory p) + d a < 2 ^ 64 ->
     declares p p' (d a) /\ P p' a b /\ blocks_in (next (memory p)) (next (memory p')) (blocks b)) ->
  smapM f l p = Ok (bs, p') -> tables_ok p -> next (memory p) + foldr (fun a z => d a + z) 0 l < 2 ^ 64 ->
  declares p p' (foldr (fun a z => d a + z) 0 l) /\ Forall2 (P p') l bs /\
  blocks_in (next (memory p)) (next (memory p')) (flat_map blocks bs).
Proof.
  intros Hd Hmono. revert p bs. induction l as [|a l IH]; intros p bs Hstep H Hok Hn; cbn [smapM foldr flat_map] in *.
  { injection H as <- <-. split_and!; [by apply declares_refl|constructor|simpl; lia]. }
  assert (0 <= foldr (fun a z => d a + z) 0 l) as Hnn.
  { clear -Hd. assert (forall a, a ∈ l -> 0 <= d a) as Hl by (intros; apply Hd; by right). clear Hd.
    induction l as [|b l IH]; simpl; [lia|]. pose proof (Hl b ltac:(by left)).
    assert (0 <= foldr (fun a z => d a + z) 0 l) by (apply IH; intros; apply Hl; by right). lia. }
  specialize (Hd a ltac:(by left)) as Hda.
  apply bind_Ok in H as ([b p1] & Hb & ([bs' p2] & Hbs & [= <- <-])%bind_Ok).
  destruct (Hstep a p b p1 ltac:(by left) Hb Hok) as (Hd1 & HP & Hbl); [lia|]. pose proof Hd1 as [Hok1 _ _ _ Hn1].
  destruct (IH ltac:(intros; apply Hd; by right) p1 bs') as (Hd2 & HPs & Hbls);
    [intros; eapply Hstep; eauto; by right|done|done|lia|].
  split_and!; [by eapply declares_trans| |by eapply blocks_in_app]. constructor; [|done].
  eapply Hmono; [|done]. apply Hd2.
Qed.

(** What a module's declarations lead to. *)
Definition module_declared p (im : Z * Module_) (fg : list FuncInit * list (option GlobalInit)) : Prop :=
  Forall2 (func_declared p im.1) (mod_functions im.2) fg.1 /\ Forall2 (global_declared p im.1) (global_vars im.2) fg.2.

Lemma module_declared_mono p p' im fg :
  forward (symbols p) ⊆ forward (symbols p') -> module_declared p im fg -> module_declared p' im fg.
Proof.
  intros Hs [H1 H2]. split; (eapply Forall2_impl; [done|]); intros; [by eapply func_declared_mono|by eapply global_declared_mono].
Qed.

Lemma demands_nonneg m : 0 <= module_demand m.
Proof.
  unfold module_demand. assert (forall {A} (l : list A), 0 <= foldr (fun _ z => 392 + z) 0 l) as Hf by (intros A l; induction l; simpl; lia).
  assert (forall l, 0 <= foldr (fun g z => global_demand g + z) 0 l) as Hg.
  { induction l as [|g l IH]; simpl; [lia|]. pose proof (demand_nonneg g). lia. }
  specialize (Hf _ (mod_functions m)). specialize (Hg (global_vars m)). lia.
Qed.

Definition module_blocks (fg : list FuncInit * list (option GlobalInit)) : list GlobalInit := flat_map option_list fg.2.

Lemma declare_module_inv im p fg p' :
  declare_module im p = Ok (fg, p') -> tables_ok p -> next (memory p) + module_demand im.2 < 2 ^ 64 ->
  declares p p' (module_demand im.2) /\ module_declared p' im fg /\
  blocks_in (next (memory p)) (next (memory p')) (module_blocks fg).
Proof.
  unfold declare_module, module_demand. intros H Hok Hn.
  apply bind_Ok in H as ([fs p1] & Hfs & ([gs p2] & Hgs & [= <- <-])%bind_Ok).
  assert (0 <= foldr (fun g z => global_demand g + z) 0 (global_vars im.2)) as Hg0.
  { generalize (global_vars im.2) as l. induction l as [|g l IH]; simpl; [lia|]. pose proof (demand_nonneg g). lia. }
  destruct (smapM_declares (declare_func im.1) (fun _ => 392) (fun p f fi => func_declared p im.1 f fi) (fun _ => [])
    (mod_functions im.2) fs p p1) as (Hd1 & HF1 & _); [done|intros; by eapply func_declared_mono| |done|done|lia|].
  { intros f q fi q' _ Hf Hq Hqn. destruct (declare_func_inv _ _ _ _ _ Hf Hq Hqn) as [Hd Hdecl].
    split_and!; [done|done|]. simpl. apply Hd. }
  pose proof Hd1 as [Hok1 _ _ _ Hn1].
  destruct (smapM_declares (declare_global im.1) global_demand (fun p g og => global_declared p im.1 g og) option_list
    (global_vars im.2) gs p1 p2) as (Hd2 & HF2 & Hbl);
    [intros; apply demand_nonneg|intros; by eapply global_declared_mono| |done|done|lia|].
  { intros g q og q' _ Hg Hq Hqn. by apply declare_global_inv. }
  split_and!; [by eapply declares_trans| |].
  - split; [|done]. eapply Forall2_impl; [done|]. intros. eapply func_declared_mono; [|done]. apply Hd2.
  - unfold module_blocks. simpl. eapply blocks_in_le; [|reflexivity|exact Hbl]. lia.
Qed.

(** ** Aliases, functions, initial values *)

(** The steps that leave some of the tables as they are. *)
Lemma define_alias_inv p ia p' :
  define_alias p ia = Ok p' ->
  memory p' = memory p /\ definitions p' = definitions p /\ forward (symbols p) ⊆ forward (symbols p') /\
  exists name sym c v, str_of_name (ga_name ia.2) = Ok name /\ symbol_new (ga_linkage ia.2) ia.1 name = Ok sym /\
    compile_const ia.1 (symbols p) (ga_aliasee ia.2) = Ok (EConst c v) /\
    forward (symbols p') !! sym = Some (Global (as_u64 v)).
Proof.
  unfold define_alias. intros (name & Hname & (sym & Hsym & (e & He & ([c v] & Hv%unwrap_Ok & (s & Hs & [= <-])%bind_Ok)%bind_Ok)%bind_Ok)%bind_Ok)%bind_Ok.
  destruct e; simplify_eq/=. unfold add_alias in Hs.
  destruct (forward (symbols p) !! sym) as [d|] eqn:E; res_inv.
  - apply bool_decide_eq_true in H as ->. split_and!; [done..|]. by exists name, sym, c, v.
  - split_and!; [done|done|by apply insert_subseteq|]. exists name, sym, c, v. split_and!; [done..|]. by rewrite lookup_insert_eq.
Qed.

(** An alias has the value its aliasee had when the alias was reached. *)
Definition alias_defined (s0 s1 : SymbolTable) (ia : Z * GlobalAlias) : Prop :=
  exists name sym s c v, str_of_name (ga_name ia.2) = Ok name /\ symbol_new (ga_linkage ia.2) ia.1 name = Ok sym /\
    forward s0 ⊆ forward s /\ forward s ⊆ forward s1 /\ compile_const ia.1 s (ga_aliasee ia.2) = Ok (EConst c v) /\
    forward s1 !! sym = Some (Global (as_u64 v)).

Lemma define_aliases_inv l p p' :
  foldM define_alias p l = Ok p' ->
  memory p' = memory p /\ definitions p' = definitions p /\ forward (symbols p) ⊆ forward (symbols p') /\
  Forall (alias_defined (symbols p) (symbols p')) l.
Proof.
  revert p. induction l as [|ia l IH]; intros p H; cbn [foldM] in H.
  { injection H as <-. by split_and!. }
  apply bind_Ok in H as (p1 & (Hm & Hd & Hs & name & sym & c & v & Hn & Hsym & Hc & Hv)%define_alias_inv & H).
  destruct (IH p1 H) as (Hm' & Hd' & Hs' & HF). split_and!; [congruence|congruence|by etrans|].
  constructor.
  - exists name, sym, (symbols p), c, v. split_and!; [done|done|done|by etrans|done|by eapply lookup_weaken].
  - eapply Forall_impl; [exact HF|]. intros ja (n & y & s & d & w & ? & ? & ? & ? & ? & ?).
    exists n, y, s, d, w. split_and!; [done|done|by etrans|done..].
Qed.

Lemma define_funcs_inv l p p' :
  foldM define_func p l = Ok p' ->
  memory p' = memory p /\ symbols p' = symbols p /\ thread_local_inits (definitions p') = thread_local_inits (definitions p) /\
  functions (definitions p) ⊆ functions (definitions p') /\
  Forall (fun fi => functions (definitions p') !! fi.1.2 = Some (LazyCompiled fi.1.1 fi.1.2 fi.2)) l.
Proof.
  revert p. induction l as [|[[m a] f] l IH]; intros p H; cbn [foldM] in H.
  { injection H as <-. by split_and!. }
  apply bind_Ok in H as (p1 & H1 & H). unfold define_func, add_func in H1.
  destruct (functions (definitions p) !! a) eqn:E; [done|]. injection H1 as <-.
  destruct (IH _ H) as (Hm & Hs & Ht & Hf & HF). simpl in *. split_and!; [done|done|done| |].
  - etrans; [|exact Hf]. by apply insert_subseteq.
  - constructor; [|done]. simpl. eapply lookup_weaken; [|exact Hf]. by rewrite lookup_insert_eq.
Qed.

(** A variable has its value. *)
Definition initialised p gi : Prop :=
  let '(m, def, lay, g) := gi in
  exists v, initial_value m (symbols p) lay g = Ok v /\ Value.wf v /\ Value.bits v = Layout.bits lay /\
  match def with
  | Global a => forall t al o, load_impl t a (MkLayout (Value.bits v) al) o (memory p) = Ok v
  | ThreadLocal k => thread_local_init k (definitions p) = Ok (lay, v)
  end.

Definition init_u64 gi : Prop := match gv_initializer gi.2 with Some c => const_u64 c | None => True end.

Lemma initial_value_inv m s lay g v :
  initial_value m s lay g = Ok v -> init_u64 (m, Global 0, lay, g) -> 0 <= Layout.bits lay ->
  Value.wf v /\ Value.bits v = Layout.bits lay.
Proof.
  unfold initial_value, init_u64. simpl. destruct (gv_initializer g) as [c|].
  - intros (e & He & ([d u] & Hu%unwrap_Ok & (l & Hl & (_ & Hb%guard_Ok & (_ & _ & [= <-])%bind_Ok)%bind_Ok)%bind_Ok)%bind_Ok)%bind_Ok Hc _.
    zb. destruct e; simplify_eq/=.
    pose proof (all_ok _ _ _ Hc _ He) as Hok. inversion Hok as [? ? (l' & Hl' & Hw & Hbits)| |]; subst.
    split; [done|]. congruence.
  - intros Hz _ Hb. by apply zero_inv.
Qed.

Lemma lsize_nonneg l : Layout.wf l -> 0 <= lsize l.
Proof. intros (? & _). apply Z.div_pos; lia. Qed.

Lemma blocks_in_bound lo hi l : blocks_in lo hi l -> Forall (fun gi => Layout.wf gi.1.2 /\ init_u64 gi) l -> lo <= hi.
Proof.
  intros Hb HF. revert lo Hb. induction HF as [|[[[m def] lay] g] l [Hw _] HF IH]; intros lo Hb; [done|].
  pose proof (lsize_nonneg lay Hw). destruct def; cbn [blocks_in] in Hb; [|by apply IH].
  destruct Hb as [? Hb]. apply IH in Hb. lia.
Qed.

Lemma init_globals_inv lo hi l p p' :
  foldM init_global p l = Ok p' -> mem_ok (memory p) -> 0 <= lo -> blocks_in lo hi l -> hi < 2 ^ 64 ->
  Forall (fun gi => Layout.wf gi.1.2 /\ init_u64 gi) l ->
  symbols p' = symbols p /\ functions (definitions p') = functions (definitions p) /\
  thread_local_inits (definitions p) ⊆ thread_local_inits (definitions p') /\ mem_ok (memory p') /\
  (forall t q lay o, 0 <= q -> 0 <= Layout.bits lay -> Layout.bits lay + 7 < 2 ^ 64 -> q + lsize lay <= lo ->
     load_impl t q lay o (memory p') = load_impl t q lay o (memory p)) /\
  Forall (initialised p') l.
Proof.
  intros H Hm Hlo Hb Hhi HF. revert p lo H Hm Hlo Hb HF. induction l as [|[[[m def] lay] g] l IH]; intros p lo H Hm Hlo Hb HF; cbn [foldM] in H.
  { injection H as <-. by split_and!. }
  apply Forall_cons in HF as [[Hw Hu] HF]. simpl in Hw. pose proof (lsize_nonneg lay Hw) as Hls. pose proof Hw as (Hw0 & _).
  apply bind_Ok in H as (p1 & (v & Hv & H1)%bind_Ok & H).
  destruct (initial_value_inv _ _ _ _ _ Hv Hu Hw0) as [Hvw Hvb]. pose proof Hvw as (_ & Hv64 & Hvl & Hvby).
  destruct def as [a|k]; cbn [blocks_in] in Hb.
  - destruct Hb as [Ha Hb]. pose proof (blocks_in_bound _ _ _ Hb HF) as Hbd.
    assert (zlen (imp v) = lsize lay) as Hz by (unfold lsize; by rewrite Hvl, Hvb).
    apply bind_Ok in H1 as (mem & Hst & [= <-]).
    destruct (store_bytes 0 a v ONone (memory p) Hm Hvby) as (mem' & Hst' & _ & Hmem & _); [lia..|].
    rewrite Hst in Hst'. injection Hst' as <-.
    destruct (IH _ (a + lsize lay) H Hmem) as (Hs & Hf & Ht & Hm' & Hld & HF'); [lia|done|done|]. simpl in *.
    split_and!; [done|done|done|done| |].
    + intros t q l' o Hq Hl0 Hl64 Hle. rewrite Hld by (done || lia). unfold lsize in *.
      apply (load_disjoint (memory p) 0 a v ONone); done || lia.
    + constructor; [|done]. exists v. rewrite Hs. split_and!; [done..|]. intros t al o.
      assert (lsize (MkLayout (bits v) al) = lsize lay) as Hsz by (unfold lsize; simpl; by rewrite Hvb).
      rewrite Hld; [|lia|simpl; lia|simpl; lia|lia]. apply (load_stored (memory p) 0 a v ONone); done || lia.
  - apply bind_Ok in H1 as (d & Hd & [= <-]). unfold add_thread_local_init in Hd.
    destruct (thread_local_inits (definitions p) !! k) eqn:E; [done|]. injection Hd as <-.
    destruct (IH _ lo H Hm Hlo Hb HF) as (Hs & Hf & Ht & Hm' & Hld & HF'). simpl in *.
    assert (thread_local_inits (definitions p') !! k = Some (lay, v)) as Hk.
    { eapply lookup_weaken; [|exact Ht]. by rewrite lookup_insert_eq. }
    split_and!; [done|done| |done|done|].
    + etrans; [|exact Ht]. by apply insert_subseteq.
    + constructor; [|done]. exists v. rewrite Hs. split_and!; [done..|]. unfold thread_local_init. by rewrite Hk.
Qed.

(** ** Everything together *)

Lemma inits_blocks (inits : list (list FuncInit * list (option GlobalInit))) :
  omap (fun x => x) (concat inits.*2) = flat_map module_blocks inits.
Proof.
  assert (forall l : list (option GlobalInit), omap (fun x => x) l = flat_map option_list l) as Ho.
  { induction l as [|[x|] l IH]; [done|..]; cbn [flat_map option_list]; by rewrite <- IH. }
  induction inits as [|[fs gs] inits IH]; [done|]. cbn [fmap list_fmap concat flat_map snd]. rewrite omap_app, IH.
  by rewrite Ho.
Qed.

Lemma declared_inits p ims inits gi :
  Forall2 (module_declared p) ims inits -> gi ∈ flat_map module_blocks inits ->
  exists im g, im ∈ ims /\ g ∈ global_vars im.2 /\ global_declared p im.1 g (Some gi).
Proof.
  intros HF [fg [Hfg Hgi]]%list_elem_of_In%List.in_flat_map. unfold module_blocks in Hgi.
  apply List.in_flat_map in Hgi as (og & Hog & Hgi). apply list_elem_of_In in Hfg, Hog.
  destruct (list_elem_of_lookup_1 _ _ Hfg) as [k Hk].
  destruct (Forall2_lookup_r _ _ _ _ _ HF Hk) as (im & Him & _ & HG).
  destruct (list_elem_of_lookup_1 _ _ Hog) as [j Hj]. destruct (Forall2_lookup_r _ _ _ _ _ HG Hj) as (g & Hg & Hdecl).
  exists im, g. split_and!; [by eapply list_elem_of_lookup_2..|]. destruct og as [gi'|]; [|done].
  by destruct Hgi as [->|[]].
Qed.

Lemma declared_wf p m g gi : global_declared p m g (Some gi) -> Layout.wf gi.1.2 /\ gi.2 = g.
Proof.
  unfold global_declared. destruct (gv_initializer g); [|done]. by intros (? & ? & l & def & [= ->] & _ & _ & _ & ? & _).
Qed.

(** How the tables of a loaded program relate to one of its modules. *)
Definition module_loaded p p' (m : Z) (src : Module_) : Prop :=
  (forall f, f ∈ mod_functions src -> exists sym a, symbol_new f.1 m (fn_name f.2) = Ok sym /\
     lookup_symbol sym (symbols p') = Ok (Global a) /\
     reverse_lookup_fun a (definitions p') = Some (LazyCompiled m a f.2)) /\
  (forall g, g ∈ global_vars src -> is_Some (gv_initializer g) -> exists name sym l v,
     str_of_name (gv_name g) = Ok name /\ symbol_new (gv_linkage g) m name = Ok sym /\ global_layout g = Ok l /\
     initial_value m (symbols p') l g = Ok v /\ Value.wf v /\ Value.bits v = Layout.bits l /\
     match gv_thread_local_mode g with
     | NotThreadLocal => exists a, lookup_symbol sym (symbols p') = Ok (Global a) /\ (bit_align l / 8 | a) /\
         forall t al o, load_impl t a (MkLayout (Value.bits v) al) o (memory p') = Ok v
     | ThreadLocalOther => exists k, lookup_symbol sym (symbols p') = Ok (ThreadLocal k) /\
         thread_local_init k (definitions p') = Ok (l, v)
     end) /\
  (forall al, al ∈ global_aliases src -> alias_defined (symbols p) (symbols p') (m, al)).

Lemma enumerate_elem {A} (l : list A) (x : Z * A) : x ∈ enumerate l -> exists i : nat, l !! i = Some x.2 /\ x.1 = Z.of_nat i.
Proof.
  intros [i Hi]%list_elem_of_lookup_1. unfold enumerate in Hi. rewrite lookup_zip_with, list_lookup_fmap in Hi.
  destruct (seq 0 (length l) !! i) as [j|] eqn:Ej; [|done]. apply lookup_seq in Ej as [-> Hj]. simpl in Hi.
  destruct (l !! i) as [a|] eqn:E; [|done]. injection Hi as <-. by exists i.
Qed.

Lemma module_loaded_ok ms p p' inits p1 p2 p3 :
  declares p p1 (program_demand ms) -> Forall2 (module_declared p1) (enumerate ms) inits ->
  forward (symbols p1) ⊆ forward (symbols p2) ->
  Forall (alias_defined (symbols p1) (symbols p2)) (flat_map (fun im => pair im.1 <$> global_aliases im.2) (enumerate ms)) ->
  Forall (fun fi => functions (definitions p3) !! fi.1.2 = Some (LazyCompiled fi.1.1 fi.1.2 fi.2)) (concat inits.*1) ->
  functions (definitions p') = functions (definitions p3) -> symbols p' = symbols p2 ->
  Forall (initialised p') (flat_map module_blocks inits) ->
  forall (i : nat) m, ms !! i = Some m -> module_loaded p p' (Z.of_nat i) m.
Proof.
  intros Hd HF Hs2 Hal Hfs Hfn Hsym Hinit i m Hm.
  destruct (Forall2_lookup_l _ _ _ _ _ HF (enumerate_lookup _ _ _ Hm)) as ([fs gs] & Hfg & HFf & HFg). simpl in *.
  pose proof (list_elem_of_lookup_2 _ _ _ Hfg) as Hin. split_and!.
  - intros f [j Hj]%list_elem_of_lookup_1. destruct (Forall2_lookup_l _ _ _ _ _ HFf Hj) as ([[m' a] f'] & Hfi & <- & <- & sym & Hsy & Hf).
    exists sym, a. split_and!; [done| |].
    + unfold lookup_symbol. rewrite Hsym. by rewrite (lookup_weaken _ _ _ _ Hf Hs2).
    + unfold reverse_lookup_fun. rewrite Hfn. rewrite Forall_forall in Hfs. apply (Hfs (m', a, f')).
      apply list_elem_of_In, List.in_concat. exists fs. split; [|by apply list_elem_of_lookup_2, list_elem_of_In in Hfi].
      apply list_elem_of_In, list_elem_of_fmap. by exists (fs, gs).
  - intros g [j Hj]%list_elem_of_lookup_1 [c Hc]. destruct (Forall2_lookup_l _ _ _ _ _ HFg Hj) as (og & Hog & Hdecl).
    unfold global_declared in Hdecl. rewrite Hc in Hdecl.
    destruct Hdecl as (name & sym & l & def & -> & Hn & Hsy & Hl & Hw & Hf & Hdef).
    assert (initialised p' (Z.of_nat i, def, l, g)) as (v & Hv & Hvw & Hvb & Hval).
    { rewrite Forall_forall in Hinit. apply Hinit, list_elem_of_In, List.in_flat_map. exists (fs, gs).
      split; [by apply list_elem_of_In|]. apply List.in_flat_map. eexists.
      split; [by apply list_elem_of_lookup_2, list_elem_of_In in Hog|by left]. }
    exists name, sym, l, v. split_and!; [done..|]. assert (forward (symbols p') !! sym = Some def) as Hf'.
    { rewrite Hsym. by eapply lookup_weaken. }
    unfold lookup_symbol. rewrite Hf'. destruct (gv_thread_local_mode g).
    + destruct Hdef as (a & -> & Hdiv). by exists a.
    + destruct Hdef as (k & ->). by exists k.
  - intros al Ha. rewrite Forall_forall in Hal. destruct (Hal (Z.of_nat i, al)) as (n & y & s & d & w & ? & ? & ? & ? & ? & ?).
    { apply list_elem_of_In, List.in_flat_map. exists (Z.of_nat i, m). split.
      - eapply list_elem_of_In, list_elem_of_lookup_2, enumerate_lookup, Hm.
      - apply list_elem_of_In, list_elem_of_fmap. by exists al. }
    exists n, y, s, d, w. rewrite Hsym. split_and!; [done|done| |done..]. etrans; [|done]. apply Hd.
Qed.
End Load.

Lemma compile_modules_inv `{BVL : BitvecLaws} {TV : TypeMapView} {TL : TypeLaws TV} (ms : list Module_)
    (p p' : Tables LazyFunc) :
  tables_ok p -> mem_ok (memory p) -> next (memory p) + program_demand ms < 2 ^ 64 -> forallb module_u64 ms ->
  compile_modules ms p = Ok p' ->
  mem_ok (memory p') /\
  (forall n d, lookup_symbol n (symbols p) = Ok d -> lookup_symbol n (symbols p') = Ok d) /\
  (forall a f, reverse_lookup_fun a (definitions p) = Some f -> reverse_lookup_fun a (definitions p') = Some f) /\
  forall (i : nat) m, ms !! i = Some m -> module_loaded p p' (Z.of_nat i) m.
Proof.
  unfold compile_modules, program_demand. intros Hok Hm Hn Hu Hc.
  apply bind_Ok in Hc as ([inits p1] & Hd & (p2 & Hal & (p3 & Hfn & Hin)%bind_Ok)%bind_Ok).
  destruct (smapM_declares declare_module (fun im => module_demand im.2) module_declared module_blocks (enumerate ms) inits p p1)
    as (Hdec & HF & Hbl); [intros; apply demands_nonneg|intros; by eapply module_declared_mono| |done|done|done|].
  { intros im q fg q' _ Hq Hqok Hqn. by apply declare_module_inv. }
  apply define_aliases_inv in Hal as (Hm2 & Hd2 & Hs2 & HA). apply define_funcs_inv in Hfn as (Hm3 & Hs3 & Ht3 & Hf3 & HFn).
  rewrite inits_blocks in Hin. pose proof Hdec as [Hok1 Hs1 Hd1 Hc1 Hn1]. pose proof Hok as (_ & H0 & _).
  assert (mem_ok (memory p3)) as Hmem3.
  { rewrite Hm3, Hm2. destruct Hm as [Hm Hmc]. split; by rewrite Hc1. }
  destruct (init_globals_inv (next (memory p)) (next (memory p1)) _ _ _ Hin Hmem3 H0 Hbl) as (Hs' & Hf' & Ht' & Hm' & _ & HI).
  { lia. }
  { apply Forall_forall. intros gi Hgi. destruct (declared_inits _ _ _ _ HF Hgi) as (im & g & Him & Hg & Hdg).
    destruct (declared_wf _ _ _ _ Hdg) as [Hw <-]. split; [done|]. unfold init_u64.
    destruct (enumerate_elem _ _ Him) as (k & Hk & _). apply Is_true_true in Hu. rewrite forallb_forall in Hu.
    specialize (Hu im.2 ltac:(by eapply list_elem_of_In, list_elem_of_lookup_2)). unfold module_u64 in Hu.
    rewrite forallb_forall in Hu. specialize (Hu gi.2 ltac:(by apply list_elem_of_In)).
    destruct (gv_initializer gi.2); [by apply Is_true_true|done]. }
  split_and!; [done| | |].
  - intros n d. unfold lookup_symbol. destruct (forward (symbols p) !! n) as [d'|] eqn:E; [|done]. intros [= ->].
    rewrite Hs', Hs3. by rewrite (lookup_weaken _ _ _ _ (lookup_weaken _ _ _ _ E Hs1) Hs2).
  - intros a f Ha. unfold reverse_lookup_fun in *. rewrite Hf'. eapply lookup_weaken; [|exact Hf3]. by rewrite Hd2, Hd1.
  - apply (module_loaded_ok ms p p' inits p1 p2 p3); try done. by rewrite Hs', Hs3.
Qed.

(** C14: Loading a program. Into a process whose tables are consistent, and which
    has room for it, [compile_modules], unless it panics (a symbol that is defined
    twice makes it), enters every
    function at an address of its own that its symbol resolves to, keeps what
    was there before, and initialises every variable: the symbol of a global
    resolves to an aligned address where a load gives exactly the value of its
    initializer, which no other initialisation has overwritten, and the symbol
    of a thread-local to a key with that value; an alias resolves to the address
    its aliasee had when the alias was reached. *)
Theorem compile_modules_loads `{BVL : BitvecLaws} {TV : TypeMapView} {TL : TypeLaws TV} (ms : list Module_)
    (p p' : Tables LazyFunc) :
  tables_ok p -> mem_ok (memory p) -> next (memory p) + program_demand ms < 2 ^ 64 -> forallb module_u64 ms ->
  compile_modules ms p = Ok p' ->
  mem_ok (memory p') /\
  (forall n d, lookup_symbol n (symbols p) = Ok d -> lookup_symbol n (symbols p') = Ok d) /\
  (forall a f, reverse_lookup_fun a (definitions p) = Some f -> reverse_lookup_fun a (definitions p') = Some f) /\
  forall (i : nat) m, ms !! i = Some m -> module_loaded p p' (Z.of_nat i) m.
Proof. apply compile_modules_inv. Qed.

(** ** Concrete runs *)

Definition loader_type_list : list Typ :=
  [IntegerType 1; IntegerType 32; PointerType (IntegerType 32); PointerType (PointerType (IntegerType 32))].
Definition loader_types : TypeMap := used_types loader_type_list.
#[local] Instance loader_view : TypeMapView := type_view 5 (fun _ => None) loader_types.

Lemma loader_laws : TypeLaws loader_view.
Proof.
  apply (type_view_typed ∅).
  - eapply used_types_ok; [vm_compute; reflexivity|]. vm_compute. reflexivity.
  - vm_compute. reflexivity.
  - lia.
  - vm_compute. reflexivity.
Qed.

Definition main_func : Function := MkFunction "main" [] [MkBasicBlock (NameName "entry") [] (TermRet None)].

(** [@x = global i32 42, align 4], [@t = thread_local global i32 7],
    [@p = internal global i32* @x], [@y = alias i32, i32* @x], [@main]. *)
Definition sample_module : Module_ := MkModule [(LinkExternal, main_func)]
  [MkGlobalVariable (NameName "x") LinkExternal (PointerType (IntegerType 32)) NotThreadLocal (Some (ConstInt 32 42)) 4;
   MkGlobalVariable (NameName "t") LinkExternal (PointerType (IntegerType 32)) ThreadLocalOther (Some (ConstInt 32 7)) 4;
   MkGlobalVariable (NameName "p") LinkInternal (PointerType (PointerType (IntegerType 32))) NotThreadLocal
     (Some (ConstGlobalReference (NameName "x") (IntegerType 32))) 8]
  [MkGlobalAlias (NameName "y") LinkExternal (ConstGlobalReference (NameName "x") (IntegerType 32))].

(** The process with the builtin [explode]. *)
Definition loader_start : Tables LazyFunc :=
  match add_native [("explode", LazyNative "explode")] tables_new with Ok p => p | Panic _ => tables_new end.

Lemma loader_start_ok : tables_ok loader_start /\ mem_ok (memory loader_start) /\ next (memory loader_start) = 512.
Proof.
  destruct (add_native_spec [("explode", LazyNative "explode")] tables_new tables_new_ok) as (p & Hp & Hok & _).
  - vm_compute. reflexivity.
  - apply NoDup_singleton.
  - intros. apply lookup_empty.
  - assert (loader_start = p) as -> by (unfold loader_start; by rewrite Hp). split; [done|].
    vm_compute in Hp. injection Hp as <-. split; [|done]. split; [apply (rs_empty_ok (rng := RangeMap.range))|]. done.
Qed.

(** What loading [ms] gives the symbols [names] and the first word of a variable. *)
Definition resolved (r : res (Tables LazyFunc)) (names : list string) : option (list (res SymbolDef)) :=
  match r with Ok p => Some ((fun n => Symbols.lookup (Some 0) n (symbols p)) <$> names) | Panic _ => None end.
Definition word_at (r : res (Tables LazyFunc)) (a bits : Z) : option Z :=
  match r with
  | Ok p => match load_impl 0 a (MkLayout bits 8) ONone (memory p) with Ok v => Some (as_u64 v) | Panic _ => None end
  | Panic _ => None
  end.

Lemma compile_modules_loads_witness :
  resolved (compile_modules (BV := bitvec_ref) [sample_module] loader_start) ["main"; "x"; "t"; "p"; "y"] =
    Some [Ok (Global 512); Ok (Global 896); Ok (ThreadLocal 0); Ok (Global 1032); Ok (Global 896)] /\
  word_at (compile_modules (BV := bitvec_ref) [sample_module] loader_start) 896 32 = Some 42 /\
  word_at (compile_modules (BV := bitvec_ref) [sample_module] loader_start) 1032 64 = Some 896 /\
  exists p', compile_modules (BV := bitvec_ref) [sample_module] loader_start = Ok p' /\
    forall (i : nat) m, [sample_module] !! i = Some m -> module_loaded (BV := bitvec_ref) loader_start p' (Z.of_nat i) m.
Proof.
  split; [vm_compute; reflexivity|]. split; [vm_compute; reflexivity|]. split; [vm_compute; reflexivity|].
  assert (is_ok (compile_modules (BV := bitvec_ref) [sample_module] loader_start) = true) as Hok by (vm_compute; reflexivity).
  destruct (compile_modules [sample_module] loader_start) as [p'|] eqn:E; [|discriminate Hok].
  exists p'. split; [reflexivity|]. destruct loader_start_ok as (H1 & H2 & H3).
  refine (proj2 (proj2 (proj2 (compile_modules_loads (BVL := bitvec_ref_laws) (TL := loader_laws) [sample_module] loader_start p'
    H1 H2 _ _ E)))); [rewrite H3; vm_compute; reflexivity|reflexivity].
Defined.

(** A variable [@x] and the aliases [names] of [targets], in that order. *)
Definition alias_module (aliases : list (string * string)) : Module_ := MkModule []
  [MkGlobalVariable (NameName "x") LinkExternal (PointerType (IntegerType 32)) NotThreadLocal (Some (ConstInt 32 42)) 4]
  ((fun a => MkGlobalAlias (NameName a.1) LinkExternal (ConstGlobalReference (NameName a.2) (IntegerType 32))) <$> aliases).

(** Aliases are resolved in the order they are listed. An alias of an alias
    that comes later, in its own module or in a later one, does not find it and
    silently becomes an alias of the function [explode]; in the other order it
    is the variable that was meant. *)
Theorem alias_of_later_alias :
  resolved (compile_modules (BV := bitvec_ref) [alias_module [("y", "x"); ("z", "y")]] loader_start) ["x"; "y"; "z"; "explode"] =
    Some [Ok (Global 512); Ok (Global 512); Ok (Global 512); Ok (Global 128)] /\
  resolved (compile_modules (BV := bitvec_ref) [alias_module [("z", "y"); ("y", "x")]] loader_start) ["x"; "y"; "z"; "explode"] =
    Some [Ok (Global 512); Ok (Global 512); Ok (Global 128); Ok (Global 128)].
Proof. split; vm_compute; reflexivity. Qed.
