(* ===== verification/Pthread.v ===== *)
(** * Pthread: src/src/native/pthread.rs

    The pthread functions a simulated program calls. A mutex exists twice: as
    an object of the scheduler ([Mutex]), which decides who runs, and as a word
    of the simulated memory, which is swapped between [UNLOCKED] and [LOCKED] so
    that the memory model sees an acquire and a release. Each swap asserts that
    the word was what it should be. *)

From S2P Require Import Prelude RangeMap MemOrdering Layout Bitvec Value Memory Symbols Mutex Classes Operation.
From S2P Require Import Data Local Pipeline Process Flow Expr.

(** ** What the functions use of the process *)

(** The scheduler's mutexes and condition variables, whether it has a thread
    ([Process::thread]), the channel of a thread's result ([Thread::join]: it
    outlives the thread), and [Process::add_thread]. *)
Class Host (X : Type) := {
  h_sync : X -> Sync;
  h_set_sync : Sync -> X -> X;
  h_thread : Z -> X -> bool;
  h_join : Z -> X -> Join;
  h_add_thread : Z -> list Value -> X -> res (Z * X)
}.

Class HostLaws (X : Type) `{Host X} : Prop := {
  h_sync_set : forall s x, h_sync (h_set_sync s x) = s;
  h_thread_set : forall t s x, h_thread t (h_set_sync s x) = h_thread t x
}.

Definition UNLOCKED : Z := 0x32AAABA7.
Definition LOCKED : Z := 1.

(** [Blocker::Mutex] and its like are only shown in the output of a traced race. *)

Section Pthread.
Context {BV : Bitvec} {TV : TypeMapView} {X : Type} {HX : Host X}.
Implicit Types (flow : FlowCtx).

(** ** Acting on the process *)

Definition sync_act (f : Sync -> res (Z * Sync)) : Async X Z :=
  Act (fun w => let! (r, s) := f (h_sync (w_rest w)) in
                Ok (Some (r, MkWorld (w_memory w) (h_set_sync s (w_rest w))))) Ret.

(** Awaiting a receiver whose sender is in a queue. *)
Definition wait_while (blocked : Sync -> bool) : Async X Z :=
  Act (fun w => Ok (if blocked (h_sync (w_rest w)) then None else Some (0, w))) Ret.

(** [flow.process().scheduler().thread(flow.threadid()).unwrap().set_blocker(..)] *)
Definition set_blocker flow : Async X Z :=
  Act (fun w => if h_thread (f_thread flow) (w_rest w) then Ok (Some (0, w)) else Panic UnwrapFailed) Ret.

(** The sender of thread [t] is queued at mutex [m], or at condition variable [c]. *)
Definition queued_at_mutex (t m : Z) (s : Sync) : bool := bool_decide (t ∈ queue (mutex m s)).
Definition queued_at_condvar (t c m : Z) (s : Sync) : bool := bool_decide ((m, t) ∈ condvar c s).

(** [Mutex::lock]: take the mutex or queue; then wait for the sender to be dropped. *)
Definition lock_begin flow (m : Z) : Async X Z :=
  sync_act (fun s => Ok (Z.b2z (lock (f_thread flow) (mutex m s)).1, do_lock (f_thread flow) m s)).
Definition lock_wait flow (m : Z) : Async X Z := wait_while (queued_at_mutex (f_thread flow) m).

(** [Condvar::wait] *)
Definition wait_begin flow (c m : Z) : Async X Z :=
  sync_act (fun s => let! s := wait (f_thread flow) c m s in Ok (0, s)).
Definition wait_wait flow (c m : Z) : Async X Z :=
  wait_while (fun s => queued_at_condvar (f_thread flow) c m s || queued_at_mutex (f_thread flow) m s).

(** [flow.cmpxchg_u64(address, ..)], with the classes of the process. *)
Definition cas flow (address expected replacement : Z) (success failure : Ordering) : Async X (Z * bool) :=
  let** c64 := tv_get (IntegerType 64) in
  let** c1 := tv_get (IntegerType 1) in
  let** c64_1 := tv_struc [c64; c1] false in
  let** layout := cv_layout c64 in
  cmpxchg_u64 flow c64_1 layout address expected replacement success failure.

(** ** The functions *)

Definition mutex_lock_acquire flow (address : Z) : Async X unit :=
  let* r := cas flow address UNLOCKED LOCKED Acquire Relaxed in
  lift (guard_ (bool_decide (r = (UNLOCKED, true))) AssertFailed).

Definition mutex_lock_release flow (address : Z) : Async X unit :=
  let* r := cas flow address LOCKED UNLOCKED Release Relaxed in
  lift (guard_ (bool_decide (r = (LOCKED, true))) AssertFailed).

Definition try_lock_begin flow (m : Z) : Async X Z :=
  sync_act (fun s => Ok (Z.b2z (try_lock (mutex m s)).1, do_try_lock (f_thread flow) m s)).

Definition pthread_mutex_trylock flow (m : Z) : Async X Z :=
  let* got := try_lock_begin flow m in
  if got =? 1 then
    let* _ := mutex_lock_acquire flow m in
    Ret 0
  else Ret 1.

(** After [lock().await] has queued or has taken the mutex. *)
Definition lock_end flow (m : Z) : Async X Z :=
  let* _ := lock_wait flow m in
  let* _ := set_blocker flow in
  let* _ := mutex_lock_acquire flow m in
  Ret 0.

Definition pthread_mutex_lock flow (m : Z) : Async X Z :=
  let* _ := set_blocker flow in
  let* _ := lock_begin flow m in
  lock_end flow m.

Definition unlock_end flow (m : Z) : Async X Z :=
  let* _ := sync_act (fun s => let! s := do_unlock (f_thread flow) m s in Ok (0, s)) in
  Ret 0.

Definition pthread_mutex_unlock flow (m : Z) : Async X Z :=
  let* _ := mutex_lock_release flow m in
  unlock_end flow m.

Definition pthread_mutex_init flow (m attr : Z) : Async X Z :=
  let** v := from_int 64 UNLOCKED in
  let* _ := store flow m v in
  Ret 0.

(** From [Condvar::wait] on: unlock and queue, then wake up with the mutex. *)
Definition wait_start flow (c m : Z) : Async X Z :=
  let* _ := set_blocker flow in
  wait_begin flow c m.
Definition wait_end flow (c m : Z) : Async X Z :=
  let* _ := wait_wait flow c m in
  let* _ := set_blocker flow in
  let* _ := mutex_lock_acquire flow m in
  Ret 0.

Definition pthread_cond_wait flow (c m : Z) : Async X Z :=
  let* _ := mutex_lock_release flow m in
  let* _ := wait_start flow c m in
  wait_end flow c m.

Definition pthread_rwlock_rdlock flow (m : Z) : Async X Z := Raise Explicit.
Definition pthread_rwlock_unlock flow (m : Z) : Async X Z := Raise Explicit.
Definition pthread_mutexattr_init flow (m : Z) : Async X Z := Ret 0.
Definition pthread_mutexattr_settype flow (attr typ : Z) : Async X Z := Ret 0.
Definition pthread_mutexattr_destroy flow (m : Z) : Async X Z := Ret 0.
Definition pthread_mutex_destroy flow (m : Z) : Async X Z := Ret 0.
Definition pthread_cond_broadcast flow (c : Z) : Async X Z := sync_act (fun s => Ok (0, notify_all c s)).
Definition pthread_cond_signal flow (c : Z) : Async X Z := sync_act (fun s => Ok (0, notify c s)).
Definition pthread_cond_destroy flow (m : Z) : Async X Z := Ret 0.
Definition pthread_self flow : Async X Z := Ret (f_thread flow).
Definition pthread_get_stackaddr_np flow (m : Z) : Async X Z := Ret 0.
Definition pthread_get_stacksize_np flow (m : Z) : Async X Z := Ret 0.
Definition pthread_attr_init flow (attr : Z) : Async X Z :=
  let** v := from_bytes_exact (replicate 64 0xFF) in
  let* _ := store flow attr v in
  Ret 0.
Definition pthread_attr_setstacksize flow (attr stacksize : Z) : Async X Z := Ret 0.
Definition pthread_attr_destroy flow (m : Z) : Async X Z := Ret 0.
Definition pthread_detach flow (m : Z) : Async X Z := Ret 0.

(** [flow.process().add_thread(..)] *)
Definition spawn (start_routine : Z) (params : list Value) : Async X Z :=
  Act (fun w => let! (t, x) := h_add_thread start_routine params (w_rest w) in
                Ok (Some (t, MkWorld (w_memory w) x))) Ret.

Definition pthread_create flow (thread : Z) (attr : Value) (start_routine : Z) (arg : Value) : Async X Z :=
  let* threadid := spawn start_routine [arg] in
  let** v := from_int 64 threadid in
  let* _ := store flow thread v in
  Ret 0.

(** [flow.process().thread(thread).unwrap()] *)
Definition find_thread (thread : Z) : Async X Z :=
  Act (fun w => if h_thread thread (w_rest w) then Ok (Some (thread, w)) else Panic UnwrapFailed) Ret.

(** [Thread::join] *)
Definition join (thread : Z) : Async X Z :=
  Act (fun w => match h_join thread (w_rest w) with
                | JoinPending => Ok None
                | JoinSent v => Ok (Some (v, w))
                | JoinCanceled => Panic UnwrapFailed
                end) Ret.

Definition pthread_join flow (thread retval : Z) : Async X Z :=
  let* thread := find_thread thread in
  let* result := join thread in
  let** result := addr result in
  if negb (retval =? 0) then
    let* _ := store flow retval result in
    Ret 0
  else Ret 0.
End Pthread.

(** ** The process as a host *)

(** The scheduler with its two tables, the channels of the threads that have
    gone, the functions, and the threads given to the executor so far. *)
Section Rest.
Context {BV : Bitvec} {F : Type}.

Record Rest := MkRest {
  r_sched : Scheduler;
  r_sync : Sync;
  r_channels : gmap Z Join;
  r_defs : Definitions F;
  r_started : list (Z * F * list Value)
}.

Definition is_some {A} (o : option A) : bool := match o with Some _ => true | None => false end.

(** [Process::add_thread] on these parts. *)
Definition rest_add_thread (fun_ : Z) (params : list Value) (x : Rest) : res (Z * Rest) :=
  let! (threadid, s) := new_threadid (r_sched x) in
  let! f := unwrap (reverse_lookup_fun fun_ (r_defs x)) in
  let! s := sched_add_thread (MkThread threadid (df_new threadid) ∅ JoinPending) s in
  Ok (threadid, MkRest s (r_sync x) (r_channels x) (r_defs x) (r_started x ++ [(threadid, f, params)])).

#[export] Instance rest_host : Host Rest := {|
  h_sync := r_sync;
  h_set_sync s x := MkRest (r_sched x) s (r_channels x) (r_defs x) (r_started x);
  h_thread t x := is_some (sched_thread t (r_sched x));
  h_join t x := match sched_thread t (r_sched x) with
                | Some th => th_join th
                | None => default JoinCanceled (r_channels x !! t)
                end;
  h_add_thread := rest_add_thread
|}.

#[export] Instance rest_laws : HostLaws Rest.
Proof. by split. Qed.

(** [Scheduler::reap_threads], with the channels kept for those who wait. *)
Definition rest_reap (x : Rest) : Rest :=
  MkRest (reap_threads (r_sched x)) (r_sync x)
    (foldr (fun p cs => <[p.1 := th_join p.2]> cs) (r_channels x) (sched_threads (r_sched x)))
    (r_defs x) (r_started x).
End Rest.
Arguments Rest F : clear implicits.

(** ** Joining *)

Section Join.
Context {BV : Bitvec} `{BVL : !BitvecLaws} {F : Type}.
Variable known : Z -> bool.
Implicit Types (s : Seq (Rest F)) (self : FlowCtx).

Definition q_rest s : Rest F := w_rest (world (q_state s)).
Definition set_rest (x : Rest F) s : Seq (Rest F) := set_world (MkWorld (q_memory s) x) s.

Lemma find_thread_runs {A} t (k : Z -> Async (Rest F) A) s :
  exec known (abind (find_thread t) k) s =
  if is_some (sched_thread t (r_sched (q_rest s))) then exec known (k t) s else Some (Panic UnwrapFailed).
Proof. unfold find_thread. cbn [abind exec h_thread rest_host]. fold (q_rest s). destruct (is_some _); [|done]. by destruct s as [? [] ?]. Qed.

Lemma reaped t th (x : Rest F) :
  sched_ok (r_sched x) -> sched_thread t (r_sched x) = Some th -> alive th = false ->
  sched_thread t (r_sched (rest_reap x)) = None.
Proof.
  intros (Hs & _) Ht Hal. unfold sched_thread in *. simpl. unfold bt_sorted, bt_retain in *.
  induction Hs as [|[j u] m Hm IH Hall]; [done|]. simpl in Ht. rewrite filter_cons. simpl.
  destruct (Z.eqb_spec j t) as [->|Hne].
  - injection Ht as ->. rewrite Hal. destruct (decide _) as [?|_]; [done|].
    clear IH. assert (forall p, p ∈ m -> p.1 <> t) as Hm'.
    { intros p Hp. rewrite Forall_forall in Hall. specialize (Hall p Hp). simpl in Hall. lia. }
    clear Hall Hm. induction m as [|[k v] m IH]; [done|]. rewrite filter_cons. simpl.
    assert (k <> t) by (apply (Hm' (k, v)); by left).
    destruct (decide _); simpl; [destruct (Z.eqb_spec k t); [done|]|]; apply IH; intros p Hp; apply Hm'; by right.
  - destruct (decide _); simpl; [destruct (Z.eqb_spec j t); [done|]|]; by apply IH.
Qed.

(** C31: [pthread_join] waits for a running thread, and gives the result of one
    that has finished, stored at [retval] unless that is null, as long as the
    scheduler still has it. But the scheduler drops a thread when it has finished and
    its queue is empty, at the end of every round of [Process::step]; joining
    it after that kills the process, although its result was sent. *)
Theorem pthread_join_outcome self t th retval s :
  idle known s -> room 3 s -> mem_ok (q_memory s) -> sched_ok (r_sched (q_rest s)) ->
  sched_thread t (r_sched (q_rest s)) = Some th -> 0 <= retval -> retval + 8 < 2 ^ 64 ->
  match th_join th with
  | JoinPending => exec known (pthread_join self t retval) s = None
  | JoinCanceled => exec known (pthread_join self t retval) s = Some (Panic UnwrapFailed)
  | JoinSent v => 0 <= v < 2 ^ 64 ->
      (exists s', exec known (pthread_join self t retval) s = Some (Ok (0, s')) /\
        (retval <> 0 -> u64_at (q_memory s') retval = v) /\
        forall b, ~ (retval <> 0 /\ retval <= b < retval + 8) -> byte_at (q_memory s') b = byte_at (q_memory s) b) /\
      (df_len (th_data th) = 0 ->
        exec known (pthread_join self t retval) (set_rest (rest_reap (q_rest s)) s) = Some (Panic UnwrapFailed))
  end.
Proof.
  intros Hs Hr Hm Hok Hth Hrv Hrv8. unfold pthread_join.
  assert (forall k : Z -> Async (Rest F) Z, exec known (abind (join t) k) s =
    match th_join th with
    | JoinPending => None | JoinCanceled => Some (Panic UnwrapFailed) | JoinSent v => exec known (k v) s
    end) as Hjoin.
  { intros k. unfold join. cbn [abind exec h_join rest_host]. fold (q_rest s). rewrite Hth.
    destruct (th_join th); try done. by destruct s as [? [] ?]. }
  destruct (th_join th) as [|v|] eqn:Ej; [by rewrite find_thread_runs, Hth; cbn [is_some]; rewrite Hjoin| |
    by rewrite find_thread_runs, Hth; cbn [is_some]; rewrite Hjoin].
  intros Hv. split.
  - rewrite find_thread_runs, Hth. cbn [is_some]. rewrite Hjoin.
    destruct (from_int_spec 64 v) as (x & Hx & Hxc & Hxb & Hxu); [lia|]. rewrite wrap_small in Hxu by lia.
    unfold addr. rewrite (proj2 (Z.leb_le v (2 ^ 64 - 1))) by lia. cbn [guard_ bind]. rewrite Hx. cbn [lift abind].
    destruct (Z.eqb_spec retval 0) as [->|Hne]; cbn [negb].
    { exists s. split_and!; [done|done|]. intros b _. done. }
    destruct (store_u64 (f_thread self) retval x ONone (q_memory s) Hm Hxc Hxb Hrv Hrv8) as (m & Hst & _ & Hu & Hb).
    destruct (store_runs known self retval x s m Hs Hr) as (s' & Hx' & Hp); [lia| |done|prints|].
    { pose proof Hxc as ((_ & _ & -> & _) & _). rewrite Hxb. done. }
    exists s'. rewrite exec_bind, Hx', (passed_mem _ _ _ _ _ Hp). cbn [exec]. split_and!; [done|by rewrite Hu, Hxu|].
    intros b Hnb. apply Hb. lia.
  - intros Hlen. rewrite find_thread_runs. unfold q_rest, set_rest, set_world. cbn [w_rest world q_state].
    rewrite (reaped t th); [done..|]. unfold alive. by rewrite Ej, Hlen.
Qed.
End Join.

(** ** A concrete run: thread 1 has returned 42 *)

Definition finished_thread : Thread := MkThread 1 (df_new 1) ∅ (JoinSent 42).
Definition join_rest : Rest unit :=
  MkRest (MkScheduler [(0, MkThread 0 (df_new 0) ∅ JoinPending); (1, finished_thread)] 2) sync_new ∅ defs_new [].
Definition join_start : Seq (Rest unit) := MkSeq (df_new 0) (MkState ∅ (MkWorld sample_memory join_rest) []) 0.

Lemma pthread_join_outcome_witness :
  (exists s', exec all_known (pthread_join flow_self 1 200) join_start = Some (Ok (0, s')) /\
    (200 <> 0 -> u64_at (q_memory s') 200 = 42) /\
    forall b, ~ (200 <> 0 /\ 200 <= b < 200 + 8) -> byte_at (q_memory s') b = byte_at (q_memory join_start) b) /\
  (df_len (th_data finished_thread) = 0 ->
    exec all_known (pthread_join flow_self 1 200) (set_rest (rest_reap (q_rest join_start)) join_start) =
      Some (Panic UnwrapFailed)).
Proof.
  refine (pthread_join_outcome all_known flow_self 1 finished_thread 200 join_start _ _ _ _ _ _ _ _).
  - split_and!; [done|done|simpl; lia].
  - vm_compute. reflexivity.
  - apply sample_memory_ok.
  - split_and!; simpl; [|intros id t|lia].
    + repeat constructor; simpl; lia.
    + rewrite !elem_of_cons. intros [[= -> ->]|[[= -> ->]|[]%elem_of_nil]]; simpl; lia.
  - vm_compute. reflexivity.
  - lia.
  - lia.
  - lia.
Defined.
