(* ===== verification/Protocol.v ===== *)
(** * Protocol: threads that use mutexes and condition variables

    Where each thread is in its calls ([Phase]), and what the scheduler's tables
    then hold ([proto]): who owns a mutex and who is in which queue. Every
    operation of [Mutex] preserves it, under the pthread discipline. [Pool] runs
    the functions of [Pthread] under it. *)

From S2P Require Import Prelude RangeMap MemOrdering Layout Bitvec Value Memory Symbols Mutex Classes Operation.
From S2P Require Import Data Local Pipeline Process Flow Expr Pthread.

(** ** Where a thread is *)

Inductive Phase :=
  | Running                     (* between two calls *)
  | LockQueued (m : Z)          (* [lock()] has been called *)
  | TryHeld (m : Z)             (* [try_lock()] has returned true *)
  | Released (m : Z)            (* the word is unlocked, [unlock()] is next *)
  | WaitReleased (c m : Z)      (* the word is unlocked, [wait(..)] is next *)
  | WaitQueued (c m : Z).       (* [wait(..)] has been called *)

Inductive Call :=
  | CallLock (m : Z) | CallTryLock (m : Z) | CallUnlock (m : Z) | CallWait (c m : Z)
  | CallSignal (c : Z) | CallBroadcast (c : Z).

Definition phase (ph : gmap Z Phase) (t : Z) : Phase := default Running (ph !! t).

Lemma phase_insert ph t x u : phase (<[t := x]> ph) u = if decide (u = t) then x else phase ph u.
Proof.
  unfold phase. destruct (decide (u = t)) as [->|]; [by rewrite lookup_insert_eq|by rewrite lookup_insert_ne].
Qed.

(** ** The scheduler's side *)

(** Thread [t] owns mutex [m]: it is inside, or about to enter, or leaving. *)
Definition owns (s : Sync) (ph : gmap Z Phase) (ins : gset (Z * Z)) (m t : Z) : Prop :=
  (m, t) ∈ ins \/
  (match phase ph t with
   | Running => False
   | LockQueued m' => m' = m /\ t ∉ queue (mutex m s)
   | TryHeld m' | Released m' | WaitReleased _ m' => m' = m
   | WaitQueued c m' => m' = m /\ (t ∉ queue (mutex m s)) /\ (m, t) ∉ condvar c s
   end).

(** The mutex a thread is busy with. *)
Definition busy_with (x : Phase) : option Z :=
  match x with
  | Running => None
  | LockQueued m | TryHeld m | Released m | WaitReleased _ m | WaitQueued _ m => Some m
  end.

(** What a queue says about the thread in it. *)
Record proto (s : Sync) (ph : gmap Z Phase) (ins : gset (Z * Z)) : Prop := {
  pr_sync : sync_ok s;
  pr_hold : forall m t, (m, t) ∈ holding s <-> owns s ph ins m t;
  pr_nodup : forall m, NoDup (queue (mutex m s));
  pr_queue : forall m t, t ∈ queue (mutex m s) -> phase ph t = LockQueued m \/ exists c, phase ph t = WaitQueued c m;
  pr_nodupc : forall c, NoDup (condvar c s);
  pr_cond : forall c m t, (m, t) ∈ condvar c s -> phase ph t = WaitQueued c m /\ t ∉ queue (mutex m s);
  pr_out : forall m t, busy_with (phase ph t) = Some m -> (m, t) ∉ ins
}.

Lemma proto_new : proto sync_new ∅ ∅.
Proof.
  constructor.
  - apply sync_new_ok.
  - intros m t. unfold owns, phase. rewrite lookup_empty. simpl. set_solver.
  - intros m. apply NoDup_nil_2.
  - intros m t. simpl. set_solver.
  - intros c. apply NoDup_nil_2.
  - intros c m t. simpl. set_solver.
  - intros m t. set_solver.
Qed.

(** At most one owner. *)
Lemma holds_unique s m t u : sync_ok s -> (m, t) ∈ holding s -> (m, u) ∈ holding s -> t = u.
Proof.
  intros Hs Ht Hu. destruct (decide (t = u)) as [|Hne]; [done|exfalso].
  assert (2 <= holds m (holding s))%nat as H2.
  { revert Ht Hu. generalize (holding s) as l. induction l as [|[a v] l IH]; [by intros ?%not_elem_of_nil|]. rewrite holds_cons.
    intros Ht Hu. apply elem_of_cons in Ht as [Ht|Ht]; apply elem_of_cons in Hu as [Hu|Hu]; simplify_eq.
    - apply holds_pos in Hu. rewrite Z.eqb_refl. lia.
    - apply holds_pos in Ht. rewrite Z.eqb_refl. lia.
    - specialize (IH Ht Hu). lia. }
  destruct (Hs m) as [Hh _]. destruct (locked (mutex m s)); lia.
Qed.

Lemma holds_one m l : holds m l = 1%nat -> exists t, (m, t) ∈ l.
Proof.
  induction l as [|[a u] l IH]; [done|]. rewrite holds_cons. destruct (Z.eqb_spec a m) as [->|].
  - intros _. exists u. by left.
  - intros [t Ht]%IH. exists t. by right.
Qed.

(** A thread that is in no queue. *)
Definition unqueued (x : Phase) : Prop := match x with LockQueued _ | WaitQueued _ _ => False | _ => True end.

Lemma not_queued s ph ins m t : proto s ph ins -> unqueued (phase ph t) -> t ∉ queue (mutex m s).
Proof. intros Hp Hx Hq. apply (pr_queue _ _ _ Hp) in Hq as [E|[c E]]; by rewrite E in Hx. Qed.

(** Taking a mutex that is free. *)
Lemma proto_take s ph ins m t x :
  proto s ph ins -> phase ph t = Running -> locked (mutex m s) = false ->
  x = LockQueued m \/ x = TryHeld m ->
  proto (MkSync (<[m := MkMutex true (queue (mutex m s))]> (mutexes s)) (condvars s) ((m, t) :: holding s)) (<[t := x]> ph) ins.
Proof.
  intros Hp Hph Hl Hx. pose proof Hp as [Hs Hh Hn Hq Hc Hcd Ho].
  assert (forall a, queue (mutex a (MkSync (<[m := MkMutex true (queue (mutex m s))]> (mutexes s)) (condvars s) ((m, t) :: holding s)))
    = queue (mutex a s)) as Hqs.
  { intros a. rewrite mutex_set. destruct (Z.eqb_spec a m) as [->|]; [done|]. done. }
  assert (forall a, t ∉ queue (mutex a s)) as Htq by (intros a; apply (not_queued s ph ins a t Hp); by rewrite Hph).
  constructor.
  - pose proof (do_lock_ok t m s Hs) as [Hok _]. unfold do_lock, lock in Hok. rewrite Hl in Hok. exact Hok.
  - intros a u. cbn [holding]. rewrite elem_of_cons, Hh. unfold owns. rewrite phase_insert, Hqs.
    change (condvar ?c (MkSync _ (condvars s) _)) with (condvar c s).
    destruct (decide (u = t)) as [->|Hne].
    + rewrite Hph. destruct Hx as [-> | ->]; intuition (try simplify_eq; try congruence; eauto).
    + intuition (try simplify_eq; try congruence; eauto).
  - intros a. by rewrite Hqs.
  - intros a u. rewrite Hqs, phase_insert. intros Hu. destruct (decide (u = t)) as [->|]; [by apply Htq in Hu|by apply Hq].
  - intros c. apply Hc.
  - intros c a u. rewrite Hqs, phase_insert. intros Hu. destruct (Hcd c a u Hu) as [Hu1 Hu2].
    destruct (decide (u = t)) as [->|]; [congruence|done].
  - intros a u. rewrite phase_insert. destruct (decide (u = t)) as [->|]; [|apply Ho].
    intros Ha Hi. assert (a = m) as -> by (destruct Hx as [-> | ->]; by injection Ha).
    assert ((m, t) ∈ holding s) as Hin by (rewrite Hh; by left). apply (holding_locked s) in Hin; [congruence|done].
Qed.

(** The tactic for the cases of [owns]. *)
Ltac own := intuition (try simplify_eq; try congruence; eauto).

(** Queueing at a mutex that is not free. *)
Lemma proto_queue s ph ins m t :
  proto s ph ins -> phase ph t = Running -> locked (mutex m s) = true -> (m, t) ∉ ins ->
  proto (set_mutex m (MkMutex true (queue (mutex m s) ++ [t])) s) (<[t := LockQueued m]> ph) ins.
Proof.
  intros Hp Hph Hl Hins. pose proof Hp as [Hs Hh Hn Hq Hc Hcd Ho].
  assert (forall a, queue (mutex a (set_mutex m (MkMutex true (queue (mutex m s) ++ [t])) s)) =
    queue (mutex a s) ++ (if a =? m then [t] else [])) as Hqs.
  { intros a. unfold set_mutex. rewrite mutex_set. destruct (Z.eqb_spec a m) as [->|]; [done|by rewrite app_nil_r]. }
  assert (forall a, t ∉ queue (mutex a s)) as Htq by (intros a; apply (not_queued s ph ins a t Hp); by rewrite Hph).
  assert (forall a u, u <> t -> u ∈ queue (mutex a s) ++ (if a =? m then [t] else []) <-> u ∈ queue (mutex a s)) as Hu.
  { intros a u Hne. rewrite elem_of_app. destruct (a =? m); [rewrite list_elem_of_singleton; own|].
    split; [intros [|Hu]; [done|by apply not_elem_of_nil in Hu]|by left]. }
  constructor.
  - pose proof (do_lock_ok t m s Hs) as [Hok _]. unfold do_lock, lock in Hok. rewrite Hl in Hok. exact Hok.
  - intros a u. cbn [holding set_mutex]. rewrite Hh. unfold owns. rewrite phase_insert, Hqs.
    change (condvar ?c (set_mutex _ _ s)) with (condvar c s). destruct (decide (u = t)) as [->|Hne].
    + rewrite Hph. split; [own|]. intros [?|[<- Hx]]; [by left|]. exfalso. apply Hx. rewrite Z.eqb_refl. set_solver.
    + destruct (phase ph u); rewrite ?(Hu a u Hne); own.
  - intros a. rewrite Hqs. apply NoDup_app. split_and!; [done| |destruct (a =? m); [apply NoDup_singleton|apply NoDup_nil_2]].
    intros u Hu1 Hu2. destruct (a =? m); [|by apply not_elem_of_nil in Hu2].
    apply list_elem_of_singleton in Hu2 as ->. by eapply Htq.
  - intros a u. rewrite Hqs, phase_insert. destruct (decide (u = t)) as [->|Hne].
    + rewrite elem_of_app. intros [Hx|Hx]; [by apply Htq in Hx|]. destruct (a =? m) eqn:E; zb.
      * left. congruence.
      * by apply not_elem_of_nil in Hx.
    + rewrite Hu by done. apply Hq.
  - intros c. apply Hc.
  - intros c a u Hcu. destruct (Hcd c a u Hcu) as [H1 H2]. rewrite phase_insert, Hqs.
    destruct (decide (u = t)) as [->|Hne]; [congruence|]. by rewrite Hu.
  - intros a u. rewrite phase_insert. destruct (decide (u = t)) as [->|]; [|apply Ho]. by intros [= <-].
Qed.

(** A thread that was let through enters. *)
Lemma proto_enter s ph ins m t :
  proto s ph ins ->
  phase ph t = LockQueued m /\ t ∉ queue (mutex m s) \/ phase ph t = TryHeld m \/
    (exists c, phase ph t = WaitQueued c m /\ (t ∉ queue (mutex m s)) /\ (m, t) ∉ condvar c s) ->
  (m, t) ∈ holding s /\ proto s (<[t := Running]> ph) ({[(m, t)]} ∪ ins).
Proof.
  intros Hp Hph. pose proof Hp as [Hs Hh Hn Hq Hc Hcd Ho].
  assert (forall a, t ∉ queue (mutex a s)) as Htq.
  { intros a Ha. pose proof (Hq a t Ha) as Hx.
    destruct Hph as [[E ?]|[E|(c & E & ? & ?)]], Hx as [Hx|[c' Hx]]; congruence. }
  assert (forall c a, (a, t) ∉ condvar c s) as Htc.
  { intros c a Ha. pose proof (Hcd c a t Ha) as [Hx _]. destruct Hph as [[E ?]|[E|(c' & E & ? & ?)]]; congruence. }
  assert (forall a u, (a, u) ∈ ({[(m, t)]} ∪ ins : gset (Z * Z)) <-> (a, u) = (m, t) \/ (a, u) ∈ ins) as Hin.
  { intros a u. rewrite elem_of_union, elem_of_singleton. done. }
  split.
  - rewrite Hh. right. destruct Hph as [[E ?]|[E|(c & E & ? & ?)]]; rewrite E; done.
  - constructor; try done.
    + intros a u. rewrite Hh. unfold owns. rewrite phase_insert, Hin. destruct (decide (u = t)) as [->|Hne]; [|own].
      destruct Hph as [[E ?]|[E|(c & E & ? & ?)]]; rewrite E; own.
    + intros a u Hu. rewrite phase_insert. destruct (decide (u = t)) as [->|]; [by apply Htq in Hu|by apply Hq].
    + intros c a u Hu. rewrite phase_insert. destruct (decide (u = t)) as [->|]; [by apply Htc in Hu|by apply Hcd].
    + intros a u. rewrite phase_insert, Hin. destruct (decide (u = t)) as [->|]; [done|].
      intros Ha [[= <- <-]|Hi]; [done|by eapply Ho].
Qed.

(** A thread that is inside begins to leave. *)
Lemma proto_release s ph ins m t x :
  proto s ph ins -> phase ph t = Running -> (m, t) ∈ ins -> x = Released m \/ (exists c, x = WaitReleased c m) ->
  proto s (<[t := x]> ph) (ins ∖ {[(m, t)]}).
Proof.
  intros Hp Hph Hi Hx. pose proof Hp as [Hs Hh Hn Hq Hc Hcd Ho]. constructor; try done.
  - intros a u. rewrite Hh. unfold owns. rewrite phase_insert, elem_of_difference, elem_of_singleton.
    destruct (decide (u = t)) as [->|Hne]; [|own].
    rewrite Hph. destruct (decide (a = m)) as [->|]; destruct Hx as [->|[c ->]]; own.
  - intros a u Hu. rewrite phase_insert. destruct (decide (u = t)) as [->|]; [|by apply Hq].
    exfalso. apply (not_queued s ph ins a t Hp); [by rewrite Hph|done].
  - intros c a u Hu. rewrite phase_insert. destruct (decide (u = t)) as [->|]; [|by apply Hcd].
    apply Hcd in Hu as [Hu _]. congruence.
  - intros a u. rewrite phase_insert, elem_of_difference, elem_of_singleton.
    destruct (decide (u = t)) as [->|]; [|by intros Ha [Hau _]; eapply Ho].
    destruct Hx as [->|[c ->]]; intros [= <-] [_ Hx]; by apply Hx.
Qed.

Lemma remove_first_elem (l : list (Z * Z)) m t a u :
  (holds m l <= 1)%nat -> (m, t) ∈ l -> (a, u) ∈ remove_first (m, t) l <-> (a, u) ∈ l /\ (a, u) <> (m, t).
Proof.
  induction l as [|[b v] l IH]; [by intros _ ?%not_elem_of_nil|]. rewrite holds_cons. cbn [remove_first].
  destruct (decide ((m, t) = (b, v))) as [Heq|Hne].
  - injection Heq as <- <-. rewrite Z.eqb_refl. intros Hl _. rewrite elem_of_cons. split; [|own].
    intros Hu. split; [by right|]. intros [= -> ->]. apply holds_pos in Hu. lia.
  - intros Hl Hin. apply elem_of_cons in Hin as [?|Hin]; [done|]. rewrite !elem_of_cons, IH by (done || lia). own.
Qed.

(** What [unlock] by the owner does. *)
Lemma unlock_facts s m t :
  sync_ok s -> (m, t) ∈ holding s ->
  exists s', do_unlock t m s = Ok s' /\ sync_ok s' /\ condvars s' = condvars s /\
    (forall a, queue (mutex a s') = if a =? m then tail (queue (mutex a s)) else queue (mutex a s)) /\
    (forall a u, (a, u) ∈ holding s' <->
       ((a, u) ∈ holding s /\ (a, u) <> (m, t)) \/ (a = m /\ head (queue (mutex m s)) = Some u)).
Proof.
  intros Hs Hin. destruct (do_unlock_spec t m s Hs Hin) as (s' & Hu & Hs' & Hc). exists s'. split_and!; [done..| |].
  - intros a. unfold do_unlock, unlock in Hu. rewrite (holding_locked s t m Hs Hin) in Hu. cbn [guard_ bind] in Hu.
    destruct (queue (mutex m s)) as [|w q] eqn:E; injection Hu as <-; unfold gain, set_mutex; simpl;
      rewrite mutex_set; destruct (Z.eqb_spec a m) as [->|]; rewrite ?E; done.
  - intros a u. pose proof (Hs m) as [Hhm _]. pose proof (holding_locked s t m Hs Hin) as Hl. rewrite Hl in Hhm.
    unfold do_unlock, unlock in Hu. rewrite Hl in Hu. cbn [guard_ bind] in Hu.
    destruct (queue (mutex m s)) as [|w q] eqn:E; injection Hu as <-; unfold gain, set_mutex; simpl;
      rewrite ?elem_of_cons, remove_first_elem by (done || lia); own.
Qed.

Lemma phase_after_unlock s s' ph ins m t :
  proto s ph ins -> phase ph t = Released m \/ (exists c, phase ph t = WaitReleased c m) ->
  (forall a, queue (mutex a s') = if a =? m then tail (queue (mutex a s)) else queue (mutex a s)) ->
  (forall a u, u ∈ queue (mutex a s') -> u ∈ queue (mutex a s)) /\
  (forall a u, u <> t -> (a = m /\ head (queue (mutex m s)) = Some u) \/
     (u ∉ queue (mutex a s') <-> u ∉ queue (mutex a s))) /\
  (forall u, head (queue (mutex m s)) = Some u -> u <> t /\ (u ∉ queue (mutex m s')) /\ u ∈ queue (mutex m s)) /\
  (forall a, NoDup (queue (mutex a s'))).
Proof.
  intros Hp Hph Hqs. pose proof Hp as [Hs Hh Hn Hq Hc Hcd Ho]. split_and!.
  - intros a u. rewrite Hqs. destruct (a =? m); [|done]. destruct (queue (mutex a s)); [done|]. by right.
  - intros a u Hne. rewrite Hqs. destruct (Z.eqb_spec a m) as [->|]; [|by right].
    destruct (queue (mutex m s)) as [|w q]; [by right|]. destruct (decide (w = u)) as [->|]; [by left|]. right.
    simpl. rewrite elem_of_cons. split; [intros Hx [->|?]; done|intros Hx ?; apply Hx; by right].
  - intros u Hu. specialize (Hn m). rewrite Hqs, Z.eqb_refl. destruct (queue (mutex m s)) as [|w q] eqn:E; [done|].
    injection Hu as ->. apply NoDup_cons in Hn as [Hn _]. split_and!; [|done|by left]. intros ->.
    apply (not_queued s ph ins m t Hp); [destruct Hph as [Hx|[? Hx]]; by rewrite Hx|rewrite E; by left].
  - intros a. rewrite Hqs. specialize (Hn a). destruct (a =? m); [|done]. destruct (queue (mutex a s)); [done|].
    by apply NoDup_cons in Hn as [_ ?].
Qed.

(** The owner unlocks: the first in the queue becomes the owner. *)
Lemma proto_unlock s ph ins m t :
  proto s ph ins -> phase ph t = Released m ->
  exists s', do_unlock t m s = Ok s' /\ proto s' (<[t := Running]> ph) ins.
Proof.
  intros Hp Hph. pose proof Hp as [Hs Hh Hn Hq Hc Hcd Ho].
  assert ((m, t) ∈ holding s) as Hin by (rewrite Hh; right; by rewrite Hph).
  destruct (unlock_facts s m t Hs Hin) as (s' & Hu & Hs' & Hcv & Hqs & Hhs). exists s'. split; [done|].
  destruct (phase_after_unlock s s' ph ins m t Hp ltac:(by left) Hqs) as (Hsub & Hsame & Hhead & Hnd).
  assert (forall c, condvar c s' = condvar c s) as Hcs by (intros c; unfold condvar; by rewrite Hcv).
  constructor; try done.
  - intros a u. rewrite Hhs, Hh. unfold owns. rewrite phase_insert. destruct (decide (u = t)) as [->|Hne].
    + rewrite Hph. pose proof (Ho m t ltac:(by rewrite Hph)) as Hout.
      assert (head (queue (mutex m s)) <> Some t) as Hnh by (intros Ht; by apply Hhead in Ht as [? _]). own.
    + destruct (Hsame a u Hne) as [[-> Hu0]|Hiff].
      * destruct (Hhead u Hu0) as (_ & Hnq & Hinq). pose proof (Hq m u Hinq) as Hphu.
        split; [intros _; right|intros _; by right].
        destruct Hphu as [E|[c E]]; rewrite E; [done|]. split_and!; [done|done|]. rewrite Hcs. intros Hx.
        by apply Hcd in Hx as [_ ?].
      * assert (~ (a = m /\ head (queue (mutex m s)) = Some u)) as Hnot.
        { intros [-> Hx]. apply Hhead in Hx as (_ & ? & ?). own. }
        destruct (phase ph u); rewrite ?Hcs; own.
  - intros a u Hu1. rewrite phase_insert. destruct (decide (u = t)) as [->|]; [|apply Hq, Hsub, Hu1].
    exfalso. apply Hsub in Hu1. apply (not_queued s ph ins a t Hp); [by rewrite Hph|done].
  - intros c. rewrite Hcs. apply Hc.
  - intros c a u. rewrite Hcs, phase_insert. intros Hu1. destruct (Hcd c a u Hu1) as [H1 H2].
    destruct (decide (u = t)) as [->|]; [congruence|]. split; [done|]. intros Hx. by apply H2, Hsub.
  - intros a u. rewrite phase_insert. destruct (decide (u = t)) as [->|]; [done|apply Ho].
Qed.

(** The owner waits: it unlocks, and queues at the condition variable. *)
Lemma proto_wait s ph ins c m t :
  proto s ph ins -> phase ph t = WaitReleased c m ->
  exists s', wait t c m s = Ok s' /\ proto s' (<[t := WaitQueued c m]> ph) ins.
Proof.
  intros Hp Hph. pose proof Hp as [Hs Hh Hn Hq Hc Hcd Ho].
  assert ((m, t) ∈ holding s) as Hin by (rewrite Hh; right; by rewrite Hph).
  destruct (unlock_facts s m t Hs Hin) as (s1 & Hu & Hs' & Hcv & Hqs & Hhs). unfold wait. rewrite Hu. cbn [bind].
  eexists. split; [done|]. set (s' := set_condvar _ _ s1).
  assert (forall d, condvar d s' = if d =? c then condvar c s ++ [(m, t)] else condvar d s) as Hcs.
  { intros d. unfold s', set_condvar, condvar. simpl. rewrite Hcv. destruct (Z.eqb_spec d c) as [->|].
    - by rewrite lookup_insert_eq.
    - by rewrite lookup_insert_ne. }
  assert (forall a d, (a, t) ∉ condvar d s) as Htc by (intros a d Hx; apply Hcd in Hx as [Hx _]; congruence).
  assert (forall d a u, (a, u) <> (m, t) -> (a, u) ∈ condvar d s' <-> (a, u) ∈ condvar d s) as Hce.
  { intros d a u Hne. rewrite Hcs. destruct (Z.eqb_spec d c) as [->|]; [|done]. rewrite elem_of_app, list_elem_of_singleton. own. }
  destruct (phase_after_unlock s s' ph ins m t Hp ltac:(right; by exists c) Hqs) as (Hsub & Hsame & Hhead & Hnd).
  assert (forall a, queue (mutex a s') = queue (mutex a s1)) as Hqq by done.
  constructor.
  - by apply sync_ok_condvar.
  - intros a u. change (holding s') with (holding s1). rewrite Hhs, Hh. unfold owns. rewrite phase_insert.
    destruct (decide (u = t)) as [->|Hne].
    + rewrite Hph. pose proof (Ho m t ltac:(by rewrite Hph)) as Hout.
      assert (head (queue (mutex m s)) <> Some t) as Hnh by (intros Ht; by apply Hhead in Ht as [? _]).
      split; [own|]. intros [?|(<- & _ & Hx)]; [own|]. exfalso. apply Hx. rewrite Hcs, Z.eqb_refl. set_solver.
    + destruct (Hsame a u Hne) as [[-> Hu0]|Hiff].
      * destruct (Hhead u Hu0) as (_ & Hnq & Hinq). pose proof (Hq m u Hinq) as Hphu.
        split; [intros _; right|intros _; by right].
        destruct Hphu as [E|[d E]]; rewrite E; [done|]. split_and!; [done|done|]. rewrite Hce by congruence.
        intros Hx. by apply Hcd in Hx as [_ ?].
      * assert (~ (a = m /\ head (queue (mutex m s)) = Some u)) as Hnot.
        { intros [-> Hx]. apply Hhead in Hx as (_ & ? & ?). own. }
        destruct (phase ph u); rewrite ?Hce by congruence; own.
  - apply Hnd.
  - intros a u Hu1. rewrite phase_insert. destruct (decide (u = t)) as [->|]; [|apply Hq, Hsub, Hu1].
    exfalso. apply Hsub in Hu1. apply (not_queued s ph ins a t Hp); [by rewrite Hph|done].
  - intros d. rewrite Hcs. destruct (d =? c); [|apply Hc]. apply NoDup_app. split_and!; [apply Hc| |apply NoDup_singleton].
    intros x Hx Hy. apply list_elem_of_singleton in Hy as ->. by apply Htc in Hx.
  - intros d a u Hu1. rewrite phase_insert. destruct (decide (u = t)) as [->|Hne].
    + split; [|intros Hx; apply Hsub in Hx; revert Hx; apply (not_queued s ph ins a t Hp); by rewrite Hph].
      rewrite Hcs in Hu1. destruct (Z.eqb_spec d c) as [->|]; [|by apply Htc in Hu1].
      apply elem_of_app in Hu1 as [Hu1|Hu1]; [by apply Htc in Hu1|]. apply list_elem_of_singleton in Hu1. by simplify_eq.
    + rewrite Hce in Hu1 by congruence. destruct (Hcd d a u Hu1) as [H1 H2]. split; [done|]. intros Hx. by apply H2, Hsub.
  - intros a u. rewrite phase_insert. destruct (decide (u = t)) as [->|]; [|apply Ho]. intros [= <-]. apply Ho. by rewrite Hph.
Qed.

(** Waking the first waiter of a condition variable, whose mutex is locked. *)
Lemma proto_notify_one s ph ins c m t q :
  proto s ph ins -> condvar c s = (m, t) :: q -> locked (mutex m s) = true ->
  proto (notify_one (set_condvar c q s) (m, t)) ph ins.
Proof.
  intros Hp Hcq Hl. pose proof Hp as [Hs Hh Hn Hq Hc Hcd Ho].
  destruct (notify_one_spec (set_condvar c q s) (m, t) (sync_ok_condvar s c q Hs) Hl) as (Hs' & Hh' & Hc' & Hm').
  set (s' := notify_one _ _) in *. simpl in *.
  assert (forall d, condvar d s' = if d =? c then q else condvar d s) as Hcs.
  { intros d. unfold condvar. rewrite Hc'. simpl. destruct (Z.eqb_spec d c) as [->|].
    - by rewrite lookup_insert_eq.
    - by rewrite lookup_insert_ne. }
  assert (forall a, queue (mutex a s') = if a =? m then queue (mutex a s) ++ [t] else queue (mutex a s)) as Hqs.
  { intros a. rewrite Hm'. destruct (a =? m); [|done]. by destruct (Z.eqb_spec a m) as [->|]. }
  destruct (Hcd c m t ltac:(rewrite Hcq; by left)) as [Hpt Htq].
  pose proof (Hc c) as Hnd. rewrite Hcq in Hnd. apply NoDup_cons in Hnd as [Htn Hnd].
  assert (forall a u, u <> t -> u ∈ queue (mutex a s') <-> u ∈ queue (mutex a s)) as Hqe.
  { intros a u Hne. rewrite Hqs. destruct (a =? m); [|done]. rewrite elem_of_app, list_elem_of_singleton. own. }
  assert (forall d a u, u <> t -> (a, u) ∈ condvar d s' <-> (a, u) ∈ condvar d s) as Hce.
  { intros d a u Hne. rewrite Hcs. destruct (Z.eqb_spec d c) as [->|]; [|done]. rewrite Hcq, elem_of_cons. own. }
  constructor.
  - done.
  - intros a u. rewrite Hh', Hh. unfold owns. destruct (decide (u = t)) as [->|Hne].
    + rewrite Hpt. split; (intros [?|(<- & H1 & H2)]; [by left|exfalso]).
      * apply H2. rewrite Hcq. by left.
      * apply H1. rewrite Hqs, Z.eqb_refl. set_solver.
    + destruct (phase ph u); rewrite ?Hce, ?Hqe by done; own.
  - intros a. rewrite Hqs. destruct (Z.eqb_spec a m) as [->|]; [|apply Hn]. apply NoDup_app.
    split_and!; [apply Hn| |apply NoDup_singleton]. intros u Hu1 Hu2. by apply list_elem_of_singleton in Hu2 as ->.
  - intros a u. destruct (decide (u = t)) as [->|Hne]; [|rewrite Hqe by done; apply Hq].
    rewrite Hqs. destruct (Z.eqb_spec a m) as [->|]; [|apply Hq]. intros _. right. by exists c.
  - intros d. rewrite Hcs. by destruct (d =? c).
  - intros d a u Hu1. destruct (decide (u = t)) as [->|Hne]; [|rewrite Hce, Hqe in * by done; by apply Hcd].
    exfalso. rewrite Hcs in Hu1. destruct (Z.eqb_spec d c) as [->|Hdc].
    + destruct (Hcd c a t ltac:(rewrite Hcq; by right)) as [E _]. rewrite Hpt in E. injection E as <-. done.
    + apply Hcd in Hu1 as [E _]. rewrite Hpt in E. injection E as <-. done.
  - apply Ho.
Qed.

(** Only what the queues hold matters. *)
Lemma proto_same s s' ph ins :
  proto s ph ins -> sync_ok s' -> holding s' = holding s -> (forall a, mutex a s' = mutex a s) ->
  (forall c, condvar c s' = condvar c s) -> proto s' ph ins.
Proof.
  intros [Hs Hh Hn Hq Hc Hcd Ho] Hs' Hh' Hm' Hc'. constructor; try done.
  - intros a u. rewrite Hh', Hh. unfold owns. destruct (phase ph u); rewrite ?Hm', ?Hc'; done.
  - intros a. rewrite Hm'. apply Hn.
  - intros a u. rewrite Hm'. apply Hq.
  - intros c. rewrite Hc'. apply Hc.
  - intros c a u. rewrite Hm', Hc'. apply Hcd.
Qed.

Lemma proto_phase s ph ph' ins : proto s ph ins -> (forall u, phase ph' u = phase ph u) -> proto s ph' ins.
Proof.
  intros [Hs Hh Hn Hq Hc Hcd Ho] Hp. constructor; try done.
  - intros a u. rewrite Hh. unfold owns. by rewrite Hp.
  - intros a u. rewrite Hp. apply Hq.
  - intros c a u. rewrite Hp. apply Hcd.
  - intros a u. rewrite Hp. apply Ho.
Qed.

(** A thread that stays where it is. *)
Lemma proto_stay s ph ins t : proto s ph ins -> phase ph t = Running -> proto s (<[t := Running]> ph) ins.
Proof. intros Hp Ht. apply (proto_phase s ph); [done|]. intros u. rewrite phase_insert. by destruct (decide (u = t)) as [->|]. Qed.

(** Only the owner is inside. *)
Lemma inside_owner s ph ins m t u : proto s ph ins -> (m, t) ∈ holding s -> (m, u) ∈ ins -> u = t.
Proof.
  intros Hp Ht Hu. apply (holds_unique s m); [apply Hp| |done]. apply (pr_hold _ _ _ Hp). by left.
Qed.

Lemma proto_notify s ph ins c :
  proto s ph ins -> (forall ms, ms ∈ condvar c s -> locked (mutex ms.1 s) = true) -> proto (notify c s) ph ins.
Proof.
  intros Hp Hl. unfold notify. destruct (condvar c s) as [|[m t] q] eqn:E; [done|].
  apply proto_notify_one; [done|done|]. apply (Hl (m, t)). by left.
Qed.

Lemma notify_one_condvar s c q ms : notify_one (set_condvar c q s) ms = set_condvar c q (notify_one s ms).
Proof.
  unfold notify_one. change (mutex ms.1 (set_condvar c q s)) with (mutex ms.1 s). by destruct (notify_impl _ _) as [[w|] m].
Qed.

Lemma proto_notify_all s ph ins c :
  proto s ph ins -> (forall ms, ms ∈ condvar c s -> locked (mutex ms.1 s) = true) -> proto (notify_all c s) ph ins.
Proof.
  unfold notify_all. remember (condvar c s) as ws eqn:E. revert s E. induction ws as [|[m t] ws IH]; intros s E Hp Hl; cbn [fold_left].
  - apply (proto_same s); [done|apply sync_ok_condvar, Hp|done|done|]. intros d. unfold condvar, set_condvar. simpl.
    destruct (decide (d = c)) as [->|]; [rewrite lookup_insert_eq; exact E|by rewrite lookup_insert_ne].
  - pose proof (Hl (m, t) ltac:(by left)) as Hlm. simpl in Hlm.
    pose proof (proto_notify_one s ph ins c m t ws Hp (eq_sym E) Hlm) as Hp1.
    destruct (notify_one_spec (set_condvar c ws s) (m, t) (sync_ok_condvar s c ws (pr_sync _ _ _ Hp)) Hlm) as (_ & _ & Hc1 & Hm1).
    assert (notify_one (set_condvar c [] s) (m, t) = set_condvar c [] (notify_one (set_condvar c ws s) (m, t))) as ->.
    { rewrite !notify_one_condvar. unfold set_condvar. simpl. by rewrite insert_insert_eq. }
    apply IH; [|done|].
    + unfold condvar. rewrite Hc1. simpl. by rewrite lookup_insert_eq.
    + intros ms Hms. rewrite Hm1. destruct (_ =? _); [done|]. apply Hl. by right.
Qed.
