(* ===== verification/Pool.v ===== *)
(** * Pool: threads that call the functions of [Pthread]

    The functions of [Pthread] cut where they wait ([segment]), and the threads
    of a process that run them in any order, with other work in between
    ([pool_step]). The invariant ([pool_ok]) ties the two halves of a mutex
    together: the scheduler's object ([Protocol]) and the word in memory. *)

From S2P Require Import Prelude RangeMap MemOrdering Layout Bitvec Value Memory Symbols Mutex Classes Operation.
From S2P Require Import Data Local Pipeline Process Flow Expr Pthread Protocol.

(** ** Segments *)

Section Segments.
Context {BV : Bitvec} {TV : TypeMapView} {X : Type} {HX : Host X}.
Implicit Types (flow : FlowCtx).

(** The next part of a thread's call: from a call up to its first wait, or from
    a wait to the next one. [LockQueued] and [WaitQueued] begin with the wait. *)
Definition segment flow (x : Phase) (call : Call) : Async X Z :=
  match x with
  | Running =>
      match call with
      | CallLock m => let* _ := set_blocker flow in lock_begin flow m
      | CallTryLock m => try_lock_begin flow m
      | CallUnlock m | CallWait _ m => let* _ := mutex_lock_release flow m in Ret 0
      | CallSignal c => pthread_cond_signal flow c
      | CallBroadcast c => pthread_cond_broadcast flow c
      end
  | LockQueued m => lock_end flow m
  | TryHeld m => let* _ := mutex_lock_acquire flow m in Ret 0
  | Released m => unlock_end flow m
  | WaitReleased c m => wait_start flow c m
  | WaitQueued c m => wait_end flow c m
  end.

(** Where the thread is afterwards; [r] is what the segment returned. *)
Definition next_phase (x : Phase) (call : Call) (r : Z) : Phase :=
  match x with
  | Running =>
      match call with
      | CallLock m => LockQueued m
      | CallTryLock m => if r =? 1 then TryHeld m else Running
      | CallUnlock m => Released m
      | CallWait c m => WaitReleased c m
      | CallSignal _ | CallBroadcast _ => Running
      end
  | WaitReleased c m => WaitQueued c m
  | LockQueued _ | TryHeld _ | Released _ | WaitQueued _ _ => Running
  end.

(** The (mutex, thread) pairs inside: the call that locked has returned, the
    one that unlocks has not begun. *)
Definition next_inside (t : Z) (x : Phase) (call : Call) (ins : gset (Z * Z)) : gset (Z * Z) :=
  match x with
  | Running =>
      match call with CallUnlock m | CallWait _ m => ins ∖ {[(m, t)]} | _ => ins end
  | LockQueued m | TryHeld m | WaitQueued _ m => {[(m, t)]} ∪ ins
  | Released _ | WaitReleased _ _ => ins
  end.

(** The functions are their segments in a row. *)
Lemma lock_segments flow m :
  pthread_mutex_lock flow m =
  abind (segment flow Running (CallLock m)) (fun _ => segment flow (LockQueued m) (CallLock m)).
Proof. reflexivity. Qed.

Lemma trylock_segments known flow m (s : Seq X) :
  exec known (pthread_mutex_trylock flow m) s =
  exec known (let* r := segment flow Running (CallTryLock m) in
              if r =? 1 then segment flow (TryHeld m) (CallTryLock m) else Ret 1) s.
Proof. reflexivity. Qed.

Lemma unlock_segments known flow m (s : Seq X) :
  exec known (pthread_mutex_unlock flow m) s =
  exec known (let* _ := segment flow Running (CallUnlock m) in segment flow (Released m) (CallUnlock m)) s.
Proof.
  unfold pthread_mutex_unlock, segment. rewrite !exec_bind. by destruct (exec known (mutex_lock_release flow m) s) as [[[[] ?]|]|].
Qed.

Lemma wait_segments known flow c m (s : Seq X) :
  exec known (pthread_cond_wait flow c m) s =
  exec known (let* _ := segment flow Running (CallWait c m) in
              let* _ := segment flow (WaitReleased c m) (CallWait c m) in
              segment flow (WaitQueued c m) (CallWait c m)) s.
Proof.
  unfold pthread_cond_wait, segment. rewrite !exec_bind. by destruct (exec known (mutex_lock_release flow m) s) as [[[[] ?]|]|].
Qed.
End Segments.

(** ** How the segments run *)

Section Runs.
Context {BV : Bitvec} `{BVL : !BitvecLaws} {TV : TypeMapView} {X : Type} {HX : Host X} {HL : HostLaws X}.
Variable known : Z -> bool.
Implicit Types (s : Seq X) (self : FlowCtx).

Definition q_sync s : Sync := h_sync (w_rest (world (q_state s))).
Definition q_thread s (t : Z) : bool := h_thread t (w_rest (world (q_state s))).

(** The class of [{u64, bool}] that [cmpxchg] returns. *)
Record cas_type (c64 c1 output : Class) (lo : Layout) (o0 o1 al al1 : Z) : Prop := {
  ct_64 : tv_get (IntegerType 64) = Ok c64;
  ct_1 : tv_get (IntegerType 1) = Ok c1;
  ct_output : tv_struc [c64; c1] false = Ok output;
  ct_layout : cv_layout c64 = Ok (MkLayout 64 al);
  ct_fields : has_fields output lo [(c64, o0, MkLayout 64 al); (c1, o1, MkLayout 1 al1)];
  ct_bytes : Layout.bits lo mod 8 = 0
}.

(** From [s] to [s'], with memory [m] and the scheduler's tables [y]. *)
Record ran (m : MemoryInner) (y : Sync) s s' : Prop := {
  ran_idle : idle known s';
  ran_df : df_thread (q_df s') = df_thread (q_df s);
  ran_mem : q_memory s' = m;
  ran_sync : q_sync s' = y;
  ran_thread : forall t, q_thread s' t = q_thread s t
}.

Lemma ran_trans m1 y1 m2 y2 s1 s2 s3 : ran m1 y1 s1 s2 -> ran m2 y2 s2 s3 -> ran m2 y2 s1 s3.
Proof. intros [] []. constructor; try done; [congruence|]. intros t. congruence. Qed.

Lemma ran_refl s : idle known s -> ran (q_memory s) (q_sync s) s s.
Proof. by constructor. Qed.

Lemma passed_ran n m s s' : passed known n m s s' -> ran m (q_sync s) s s'.
Proof. intros [? ? ? ? Hr]. constructor; try done; unfold q_sync, q_thread; by rewrite Hr. Qed.

(** Acting on the tables. *)
Lemma sync_act_runs (f : Sync -> res (Z * Sync)) s r y :
  idle known s -> f (q_sync s) = Ok (r, y) ->
  exists s', exec known (sync_act f) s = Some (Ok (r, s')) /\ ran (q_memory s) y s s' /\ q_df s' = q_df s.
Proof.
  intros Hs Hf. unfold sync_act. cbn [exec]. fold (q_sync s). rewrite Hf. cbn [bind].
  eexists. split; [reflexivity|]. split; [|done]. constructor; [done|done|done| |].
  - unfold q_sync. simpl. apply h_sync_set.
  - intros t. unfold q_thread. simpl. apply h_thread_set.
Qed.

(** Steps that change nothing: [set_blocker], and a wait that is over. *)
Lemma set_blocker_runs {A} self (k : Z -> Async X A) s :
  q_thread s (f_thread self) = true -> exec known (abind (set_blocker self) k) s = exec known (k 0) s.
Proof. intros Ht. unfold set_blocker. cbn [abind exec]. unfold q_thread in Ht. rewrite Ht. by destruct s as [? [] ?]. Qed.

Lemma wait_while_runs {A} blocked (k : Z -> Async X A) s :
  exec known (abind (wait_while blocked) k) s = if blocked (q_sync s) then None else exec known (k 0) s.
Proof.
  unfold wait_while. cbn [abind exec]. fold (q_sync s). destruct (blocked (q_sync s)); [done|]. by destruct s as [? [] ?].
Qed.

(** ** The swaps *)

Context (c64 c1 output : Class) (lo : Layout) (o0 o1 al al1 : Z).
Hypothesis Hct : cas_type c64 c1 output lo o0 o1 al al1.

Lemma cas_runs self p e r success failure s :
  idle known s -> room 4 s -> mem_ok (q_memory s) -> 0 <= p -> p + 8 < 2 ^ 64 -> 0 <= r < 2 ^ 64 -> 0 <= e < 2 ^ 64 ->
  u64_at (q_memory s) p = e ->
  exists m s', exec known (cas self p e r success failure) s = Some (Ok ((e, true), s')) /\
    ran m (q_sync s) s s' /\ mem_ok m /\ u64_at m p = r /\
    (forall b, ~ p <= b < p + 8 -> byte_at m b = byte_at (q_memory s) b).
Proof.
  intros Hs Hr Hm Hp Hp8 Hrr He Hu. destruct Hct as [E1 E2 E3 E4 E5 E6]. unfold cas.
  rewrite E1. cbn [lift abind]. rewrite E2. cbn [lift abind]. rewrite E3. cbn [lift abind]. rewrite E4. cbn [lift abind].
  destruct (cmpxchg_u64_runs known self output c64 c1 lo o0 o1 al al1 p e r success failure s E5 E6 Hs Hr Hm Hp Hp8 He Hrr)
    as (m & s' & Hx & Hpass & Hm' & Hswap & _).
  exists m, s'. rewrite Hx, Hu, Z.eqb_refl. destruct (Hswap Hu). split_and!; [done|by eapply passed_ran|done..].
Qed.

(** [mutex_lock_acquire] and [mutex_lock_release] find the word they expect. *)
Lemma acquire_runs self p s :
  idle known s -> room 4 s -> mem_ok (q_memory s) -> 0 <= p -> p + 8 < 2 ^ 64 -> u64_at (q_memory s) p = UNLOCKED ->
  exists m s', exec known (mutex_lock_acquire self p) s = Some (Ok (tt, s')) /\
    ran m (q_sync s) s s' /\ mem_ok m /\ u64_at m p = LOCKED /\
    (forall b, ~ p <= b < p + 8 -> byte_at m b = byte_at (q_memory s) b).
Proof.
  intros Hs Hr Hm Hp Hp8 Hu.
  destruct (cas_runs self p UNLOCKED LOCKED Acquire Relaxed s) as (m & s' & Hx & Hrest); [done..|unfold LOCKED; lia|unfold UNLOCKED; lia|done|].
  exists m, s'. unfold mutex_lock_acquire. rewrite exec_bind, Hx. by split.
Qed.

Lemma release_runs self p s :
  idle known s -> room 4 s -> mem_ok (q_memory s) -> 0 <= p -> p + 8 < 2 ^ 64 -> u64_at (q_memory s) p = LOCKED ->
  exists m s', exec known (mutex_lock_release self p) s = Some (Ok (tt, s')) /\
    ran m (q_sync s) s s' /\ mem_ok m /\ u64_at m p = UNLOCKED /\
    (forall b, ~ p <= b < p + 8 -> byte_at m b = byte_at (q_memory s) b).
Proof.
  intros Hs Hr Hm Hp Hp8 Hu.
  destruct (cas_runs self p LOCKED UNLOCKED Release Relaxed s) as (m & s' & Hx & Hrest); [done..|unfold UNLOCKED; lia|unfold LOCKED; lia|done|].
  exists m, s'. unfold mutex_lock_release. rewrite exec_bind, Hx. by split.
Qed.
End Runs.

(** ** The pool *)

Section Pool.
Context {BV : Bitvec} {TV : TypeMapView} {X : Type} {HX : Host X}.

(** The queues of the threads, what they share, where each one is, and who is
    inside which mutex. *)
Record Pool := MkPool {
  pl_df : gmap Z DataFlow;
  pl_state : State X;
  pl_slot : Z;
  pl_phase : gmap Z Phase;
  pl_inside : gset (Z * Z)
}.

Definition pl_sync (p : Pool) : Sync := h_sync (w_rest (world (pl_state p))).
Definition pl_known (p : Pool) (t : Z) : bool := h_thread t (w_rest (world (pl_state p))).
Definition pl_memory (p : Pool) : MemoryInner := w_memory (world (pl_state p)).
Definition pl_seq (p : Pool) (df : DataFlow) : Seq X := MkSeq df (pl_state p) (pl_slot p).

(** Thread [t], with call stack [b], does its next segment. *)
Definition pl_exec (p : Pool) (t : Z) (df : DataFlow) (b : Backtrace) (call : Call) : option (res (Z * Seq X)) :=
  exec (pl_known p) (segment (MkFlow t b) (phase (pl_phase p) t) call) (pl_seq p df).

Definition pl_after (p : Pool) (t : Z) (call : Call) (r : Z) (s : Seq X) : Pool :=
  MkPool (<[t := q_df s]> (pl_df p)) (q_state s) (q_slot s)
    (<[t := next_phase (phase (pl_phase p) t) call r]> (pl_phase p))
    (next_inside t (phase (pl_phase p) t) call (pl_inside p)).

(** The addresses of the program's mutexes. *)
Variable M : gset Z.

(** The pthread discipline: lock a mutex that one is not inside, unlock and
    wait with one that one is inside, and signal with the waiters' mutexes locked. *)
Definition may (p : Pool) (t : Z) (call : Call) : Prop :=
  phase (pl_phase p) t = Running ->
  match call with
  | CallLock m => m ∈ M /\ (m, t) ∉ pl_inside p
  | CallTryLock m => m ∈ M
  | CallUnlock m | CallWait _ m => (m, t) ∈ pl_inside p
  | CallSignal c | CallBroadcast c => forall ms, ms ∈ condvar c (pl_sync p) -> locked (mutex ms.1 (pl_sync p)) = true
  end.

(** Thread [t] is in a queue. *)
Definition waits (p : Pool) (t : Z) : Prop :=
  match phase (pl_phase p) t with
  | LockQueued m => t ∈ queue (mutex m (pl_sync p))
  | WaitQueued c m => (m, t) ∈ condvar c (pl_sync p) \/ t ∈ queue (mutex m (pl_sync p))
  | _ => False
  end.

(** The word of a mutex says whether a thread is inside. *)
Definition words (m : MemoryInner) (ins : gset (Z * Z)) : Prop :=
  forall a, a ∈ M -> ((exists t, (a, t) ∈ ins) -> u64_at m a = LOCKED) /\
                     ((forall t, (a, t) ∉ ins) -> u64_at m a = UNLOCKED).

Definition threads_ok (p : Pool) : Prop :=
  forall t df, pl_df p !! t = Some df -> df_thread df = t /\ idle (pl_known p) (pl_seq p df).

Record pool_ok (p : Pool) : Prop := {
  po_proto : proto (pl_sync p) (pl_phase p) (pl_inside p);
  po_mem : mem_ok (pl_memory p);
  po_threads : threads_ok p;
  po_words : words (pl_memory p) (pl_inside p);
  po_busy : forall t m, busy_with (phase (pl_phase p) t) = Some m -> m ∈ M;
  po_inside : forall m t, (m, t) ∈ pl_inside p -> m ∈ M
}.

(** A segment of a thread, and any other work that neither touches the words of
    the mutexes nor goes to the tables behind the functions' back. *)
Inductive pool_step (p : Pool) : Pool -> Prop :=
  | pool_segment t df b call r s :
      pl_df p !! t = Some df -> room 4 (pl_seq p df) -> may p t call ->
      pl_exec p t df b call = Some (Ok (r, s)) -> pool_step p (pl_after p t call r s)
  | pool_work p' :
      pl_phase p' = pl_phase p -> pl_inside p' = pl_inside p -> pl_sync p' = pl_sync p ->
      mem_ok (pl_memory p') -> threads_ok p' ->
      (forall a b, a ∈ M -> a <= b < a + 8 -> byte_at (pl_memory p') b = byte_at (pl_memory p) b) ->
      pool_step p p'.

(** Before any call: every mutex is initialised ([pthread_mutex_init], or
    [PTHREAD_MUTEX_INITIALIZER]). *)
Record pool_initial (p : Pool) : Prop := {
  pi_sync : pl_sync p = sync_new;
  pi_phase : pl_phase p = ∅;
  pi_inside : pl_inside p = ∅;
  pi_mem : mem_ok (pl_memory p);
  pi_threads : threads_ok p;
  pi_words : forall a, a ∈ M -> u64_at (pl_memory p) a = UNLOCKED
}.

Definition reachable (p0 p : Pool) : Prop := pool_initial p0 /\ rtc pool_step p0 p.

(** ** The invariant *)

Lemma pool_initial_ok p : pool_initial p -> pool_ok p.
Proof.
  intros [H1 H2 H3 H4 H5 H6]. constructor; rewrite ?H1, ?H2, ?H3; try done.
  - apply proto_new.
  - intros a Ha. split; [by intros [t ?%elem_of_empty]|]. intros _. by apply H6.
Qed.

Lemma u64_at_same m m' a :
  (forall b, a <= b < a + 8 -> byte_at m' b = byte_at m b) -> u64_at m' a = u64_at m a.
Proof.
  intros Hb. unfold u64_at. do 2 f_equal. apply list_fmap_ext. intros i j Hj. apply Hb.
  apply lookup_seqZ in Hj. lia.
Qed.

Lemma pool_work_ok p p' :
  pool_ok p -> pl_phase p' = pl_phase p -> pl_inside p' = pl_inside p -> pl_sync p' = pl_sync p ->
  mem_ok (pl_memory p') -> threads_ok p' ->
  (forall a b, a ∈ M -> a <= b < a + 8 -> byte_at (pl_memory p') b = byte_at (pl_memory p) b) -> pool_ok p'.
Proof.
  intros [] H1 H2 H3 H4 H5 H6. constructor; rewrite ?H1, ?H2, ?H3; try done.
  intros a Ha. rewrite (u64_at_same (pl_memory p)); [by apply po_words0|]. intros b Hb. by apply (H6 a).
Qed.

(** Mutexes do not overlap. *)
Definition apart : Prop :=
  forall a, a ∈ M -> 0 <= a /\ a + 8 < 2 ^ 64 /\ forall b, b ∈ M -> a = b \/ a + 8 <= b \/ b + 8 <= a.

(** One word changes. *)
Lemma words_swap m m' ins ins' a :
  apart -> a ∈ M -> words m ins -> (forall b, ~ a <= b < a + 8 -> byte_at m' b = byte_at m b) ->
  (forall b t, b <> a -> (b, t) ∈ ins' <-> (b, t) ∈ ins) ->
  ((exists t, (a, t) ∈ ins') /\ u64_at m' a = LOCKED \/ (forall t, (a, t) ∉ ins') /\ u64_at m' a = UNLOCKED) ->
  words m' ins'.
Proof.
  intros Hap Ha Hw Hm Hins Hword c Hc. destruct (decide (c = a)) as [->|Hne].
  - destruct Hword as [[[t Ht] Hl]|[Hno Hu]].
    + split; [done|]. intros Hno. by apply Hno in Ht.
    + split; [|done]. intros [t Ht]. by apply Hno in Ht.
  - rewrite (u64_at_same m); [|intros b Hb; apply Hm; destruct (Hap a Ha) as (_ & _ & Hx), (Hx c Hc); lia].
    destruct (Hw c Hc) as [H1 H2]. split.
    + intros [t Ht]. apply H1. exists t. by apply Hins.
    + intros Hno. apply H2. intros t Ht. apply (Hno t). by apply Hins.
Qed.

(** After a segment of [t]. *)
Lemma after_ok p t df m y x' ins' s :
  pool_ok p -> pl_df p !! t = Some df -> ran (pl_known p) m y (pl_seq p df) s ->
  proto y (<[t := x']> (pl_phase p)) ins' -> mem_ok m -> words m ins' ->
  (forall a, busy_with x' = Some a -> a ∈ M) -> (forall a u, (a, u) ∈ ins' -> a ∈ M) ->
  pool_ok (MkPool (<[t := q_df s]> (pl_df p)) (q_state s) (q_slot s) (<[t := x']> (pl_phase p)) ins').
Proof.
  intros Hp Hdf [Hi Hth Hm Hy Hk] Hpr Hmem Hw Hb Hins. pose proof (po_threads _ Hp) as Ht.
  assert (forall u, h_thread u (w_rest (world (q_state s))) = pl_known p u) as Hk' by exact Hk.
  constructor; try (unfold pl_sync, pl_memory, q_sync, q_memory in *; simpl; rewrite ?Hm, ?Hy; done).
  - intros u d. simpl. destruct (decide (u = t)) as [->|Hne].
    + rewrite lookup_insert_eq. intros [= <-]. destruct (Ht t df Hdf) as [Hd _].
      split; [by rewrite Hth|]. destruct Hi as (H1 & H2 & H3). split_and!; [done| |done].
      unfold pl_known. simpl. by rewrite Hk'.
    + rewrite lookup_insert_ne by done. intros Hu. destruct (Ht u d Hu) as [Hd (H1 & H2 & H3)].
      split; [done|]. split_and!; [done| |done]. unfold pl_known. simpl. by rewrite Hk'.
  - intros u a. simpl. rewrite phase_insert. destruct (decide (u = t)) as [->|]; [apply Hb|apply (po_busy _ Hp)].
Qed.
End Pool.

(** ** Every segment keeps the invariant *)

Section Segment.
Context {BV : Bitvec} `{BVL : !BitvecLaws} {TV : TypeMapView} {X : Type} {HX : Host X} {HL : HostLaws X}.
Context (c64 c1 output : Class) (lo : Layout) (o0 o1 al al1 : Z).
Hypothesis Hct : cas_type c64 c1 output lo o0 o1 al al1.
Variable M : gset Z.
Hypothesis Hap : apart M.
Implicit Types (p : Pool (X := X)).

(** The segment waits in a queue, or it runs and the invariant holds after it. *)
Definition advances p t df b call : Prop :=
  pl_exec p t df b call = None /\ waits p t \/
  exists r s, pl_exec p t df b call = Some (Ok (r, s)) /\ pool_ok M (pl_after p t call r s).

(** The end of every call that gives the caller the mutex. *)
Lemma enter_ok p t df b m call :
  pool_ok M p -> pl_df p !! t = Some df -> room 4 (pl_seq p df) -> m ∈ M ->
  phase (pl_phase p) t = LockQueued m /\ t ∉ queue (mutex m (pl_sync p)) \/ phase (pl_phase p) t = TryHeld m \/
    (exists c, phase (pl_phase p) t = WaitQueued c m /\ (t ∉ queue (mutex m (pl_sync p))) /\ (m, t) ∉ condvar c (pl_sync p)) ->
  exists s, exec (pl_known p) (let* _ := mutex_lock_acquire (MkFlow t b) m in Ret 0) (pl_seq p df) = Some (Ok (0, s)) /\
    pool_ok M (pl_after p t call 0 s).
Proof.
  intros Hp Hdf Hr Hm Hph. destruct (po_threads _ _ Hp t df Hdf) as [_ Hi].
  destruct (proto_enter _ _ _ _ _ (po_proto _ _ Hp) Hph) as [Hh Hpr].
  destruct (Hap m Hm) as (Hm0 & Hm8 & _).
  assert (forall u, (m, u) ∉ pl_inside p) as Hno.
  { intros u Hu. pose proof (inside_owner _ _ _ _ _ _ (po_proto _ _ Hp) Hh Hu) as ->. revert Hu.
    apply (pr_out _ _ _ (po_proto _ _ Hp)). by destruct Hph as [[-> _]|[->|(c & -> & _)]]. }
  destruct (acquire_runs (pl_known p) c64 c1 output lo o0 o1 al al1 Hct (MkFlow t b) m (pl_seq p df) Hi Hr (po_mem _ _ Hp) Hm0 Hm8)
    as (w & s & Hx & Hran & Hw & Hu & Hsame); [by apply (po_words _ _ Hp m Hm)|].
  exists s. rewrite exec_bind, Hx. split; [done|]. unfold pl_after.
  assert (next_phase (phase (pl_phase p) t) call 0 = Running /\
          next_inside t (phase (pl_phase p) t) call (pl_inside p) = {[(m, t)]} ∪ pl_inside p) as [-> ->]
    by (destruct Hph as [[-> _]|[->|(c & -> & _)]]; done).
  eapply after_ok; [done|done|exact Hran|exact Hpr|done| |done|].
  - eapply (words_swap M (pl_memory p)); [done|exact Hm|apply (po_words _ _ Hp)|exact Hsame| |left].
    + intros a u Hne. rewrite elem_of_union, elem_of_singleton. split; [intros [[=]|?]; done|by right].
    + split; [|done]. exists t. apply elem_of_union. left. by apply elem_of_singleton.
  - intros a u. rewrite elem_of_union, elem_of_singleton. intros [[= -> _]|Hin]; [done|]. by eapply po_inside.
Qed.

(** The beginning of the calls that give the mutex back. *)
Lemma leave_ok p t df b m call x :
  pool_ok M p -> pl_df p !! t = Some df -> room 4 (pl_seq p df) -> phase (pl_phase p) t = Running -> (m, t) ∈ pl_inside p ->
  x = Released m \/ (exists c, x = WaitReleased c m) -> next_phase Running call 0 = x ->
  next_inside t Running call (pl_inside p) = pl_inside p ∖ {[(m, t)]} ->
  exists s, exec (pl_known p) (let* _ := mutex_lock_release (MkFlow t b) m in Ret 0) (pl_seq p df) = Some (Ok (0, s)) /\
    pool_ok M (pl_after p t call 0 s).
Proof.
  intros Hp Hdf Hr Hph Hin Hx Hnp Hni. destruct (po_threads _ _ Hp t df Hdf) as [_ Hi].
  pose proof (po_inside _ _ Hp m t Hin) as Hm. destruct (Hap m Hm) as (Hm0 & Hm8 & _).
  pose proof (po_proto _ _ Hp) as Hpr0.
  pose proof (proto_release _ _ _ _ _ x Hpr0 Hph Hin Hx) as Hpr.
  destruct (release_runs (pl_known p) c64 c1 output lo o0 o1 al al1 Hct (MkFlow t b) m (pl_seq p df) Hi Hr (po_mem _ _ Hp) Hm0 Hm8)
    as (w & s & Hxx & Hran & Hw & Hu & Hsame); [apply (po_words _ _ Hp m Hm); by exists t|].
  exists s. rewrite exec_bind, Hxx. split; [done|]. unfold pl_after. rewrite Hph, Hnp, Hni.
  eapply after_ok; [done|done|exact Hran|exact Hpr|done| | |].
  - eapply (words_swap M (pl_memory p)); [done|exact Hm|apply (po_words _ _ Hp)|exact Hsame| |right].
    + intros a u Hne. rewrite elem_of_difference, elem_of_singleton. split; [by intros [? _]|]. intros ?. split; [done|congruence].
    + split; [|done]. intros u [Hu1 Hu2]%elem_of_difference. apply Hu2. apply elem_of_singleton. f_equal.
      apply (inside_owner _ _ _ m t u Hpr0); [|done]. apply (pr_hold _ _ _ Hpr0). by left.
  - intros a. destruct Hx as [->|[c ->]]; by intros [= <-].
  - intros a u [Hau _]%elem_of_difference. by eapply po_inside.
Qed.

(** A segment that only goes to the tables. *)
Lemma tables_ok p t df f y x call r :
  pool_ok M p -> pl_df p !! t = Some df -> f (pl_sync p) = Ok (r, y) ->
  proto y (<[t := x]> (pl_phase p)) (pl_inside p) -> (forall a, busy_with x = Some a -> a ∈ M) ->
  next_phase (phase (pl_phase p) t) call r = x ->
  next_inside t (phase (pl_phase p) t) call (pl_inside p) = pl_inside p ->
  exists s, exec (pl_known p) (sync_act f) (pl_seq p df) = Some (Ok (r, s)) /\ pool_ok M (pl_after p t call r s).
Proof.
  intros Hp Hdf Hf Hpr Hb Hnp Hni. destruct (po_threads _ _ Hp t df Hdf) as [_ Hi].
  destruct (sync_act_runs (pl_known p) f (pl_seq p df) r y Hi Hf) as (s & Hx & Hran & _).
  exists s. split; [done|]. unfold pl_after. rewrite Hnp, Hni.
  eapply after_ok; [done|done|exact Hran|exact Hpr|apply Hp|apply Hp|done|apply Hp].
Qed.
(** Locking: the mutex is taken, or the thread queues. *)
Lemma lock_proto p t m :
  pool_ok M p -> phase (pl_phase p) t = Running -> (m, t) ∉ pl_inside p ->
  proto (do_lock t m (pl_sync p)) (<[t := LockQueued m]> (pl_phase p)) (pl_inside p).
Proof.
  intros Hp Hph Hin. pose proof (po_proto _ _ Hp) as Hpr. unfold do_lock, lock.
  destruct (locked (mutex m (pl_sync p))) eqn:Hl.
  - exact (proto_queue _ _ _ m t Hpr Hph Hl Hin).
  - exact (proto_take _ _ _ m t _ Hpr Hph Hl (or_introl eq_refl)).
Qed.

Lemma try_lock_proto p t m :
  pool_ok M p -> phase (pl_phase p) t = Running ->
  proto (do_try_lock t m (pl_sync p))
    (<[t := if Z.b2z (try_lock (mutex m (pl_sync p))).1 =? 1 then TryHeld m else Running]> (pl_phase p)) (pl_inside p).
Proof.
  intros Hp Hph. pose proof (po_proto _ _ Hp) as Hpr. unfold do_try_lock, try_lock.
  destruct (locked (mutex m (pl_sync p))) eqn:Hl; cbn [fst Z.b2z Z.eqb Pos.eqb].
  - apply proto_stay; [|done]. apply (proto_same (pl_sync p)); [done| |done| |done].
    + pose proof (do_lock_ok t m _ (pr_sync _ _ _ Hpr)) as [_ Hok]. unfold do_try_lock, try_lock in Hok. by rewrite Hl in Hok.
    + intros a. unfold gain, set_mutex. simpl. rewrite mutex_set. by destruct (Z.eqb_spec a m) as [->|].
  - exact (proto_take _ _ _ m t _ Hpr Hph Hl (or_intror eq_refl)).
Qed.

Lemma segment_advances p t df b call :
  pool_ok M p -> pl_df p !! t = Some df -> room 4 (pl_seq p df) -> may M p t call -> advances p t df b call.
Proof.
  intros Hp Hdf Hr Hmay. pose proof (po_proto _ _ Hp) as Hpr. unfold may in Hmay.
  destruct (po_threads _ _ Hp t df Hdf) as [Hth (_ & Hk & _)].
  assert (q_thread (pl_seq p df) t = true) as Hkt by (cbn [q_df pl_seq] in Hk; by rewrite Hth in Hk).
  pose proof (po_busy _ _ Hp t) as Hbusy. unfold advances, pl_exec, waits, segment.
  destruct (phase (pl_phase p) t) as [|m|m|m|c m|c m] eqn:Hph.
  - specialize (Hmay eq_refl). right. destruct call as [m|m|m|c m|c|c].
    + destruct Hmay as [Hm Hin]. rewrite set_blocker_runs by done. eexists.
      eapply tables_ok; [done..|by apply lock_proto| |by rewrite Hph|by rewrite Hph]. by intros a [= <-].
    + eexists. eapply tables_ok; [done..|by apply try_lock_proto| |by rewrite Hph|by rewrite Hph].
      intros a. destruct (_ =? 1); [|done]. by intros [= <-].
    + exists 0. eapply leave_ok; [done..|by left|done|done].
    + exists 0. eapply leave_ok; [done..|right; by exists c|done|done].
    + eexists. eapply tables_ok; [done..|apply proto_stay; [by apply proto_notify|done]|done|by rewrite Hph|by rewrite Hph].
    + eexists. eapply tables_ok; [done..|apply proto_stay; [by apply proto_notify_all|done]|done|by rewrite Hph|by rewrite Hph].
  - unfold lock_end, lock_wait. rewrite wait_while_runs. unfold queued_at_mutex. cbn [f_thread].
    change (q_sync (pl_seq p df)) with (pl_sync p). case_bool_decide as Hq; [by left|right]. exists 0.
    rewrite set_blocker_runs by done. eapply enter_ok; [done..|by apply Hbusy|]. by left.
  - right. exists 0. eapply enter_ok; [done..|by apply Hbusy|]. right. by left.
  - right. destruct (proto_unlock _ _ _ _ _ Hpr Hph) as (y & Hu & Hpr'). unfold unlock_end.
    rewrite exec_bind. cbn [f_thread].
    destruct (tables_ok p t df (fun s => let! s := do_unlock t m s in Ok (0, s)) y Running call 0 Hp Hdf) as (s & Hx & Hok);
      [by rewrite Hu|done|done|by rewrite Hph|by rewrite Hph|]. exists 0, s. by rewrite Hx.
  - right. destruct (proto_wait _ _ _ _ _ _ Hpr Hph) as (y & Hu & Hpr'). unfold wait_start.
    rewrite set_blocker_runs by done. exists 0. eapply tables_ok; [done..| |exact Hpr'| |by rewrite Hph|by rewrite Hph].
    + cbn [f_thread]. by rewrite Hu.
    + intros a [= <-]. by apply Hbusy.
  - unfold wait_end, wait_wait. rewrite wait_while_runs. unfold queued_at_mutex, queued_at_condvar. cbn [f_thread].
    change (q_sync (pl_seq p df)) with (pl_sync p). case_bool_decide as Hc; [by left; split; [|left]|].
    case_bool_decide as Hq; [by left; split; [|right]|]. cbn [orb]. right. exists 0.
    rewrite set_blocker_runs by done. eapply enter_ok; [done..|by apply Hbusy|]. right. right. by exists c.
Qed.

Lemma pool_step_ok p p' : pool_ok M p -> pool_step M p p' -> pool_ok M p'.
Proof.
  intros Hp [t df b call r s Hdf Hr Hmay Hx|q H1 H2 H3 H4 H5 H6]; [|by eapply pool_work_ok].
  destruct (segment_advances p t df b call Hp Hdf Hr Hmay) as [[Hn _]|(r' & s' & Hx' & Hok)]; [congruence|].
  rewrite Hx in Hx'. by injection Hx' as <- <-.
Qed.

Lemma reachable_ok p0 p : reachable M p0 p -> pool_ok M p.
Proof.
  intros [H0 Hr]. apply pool_initial_ok in H0. induction Hr as [p|p p1 p2 Hstep _ IH]; [done|].
  apply IH. by eapply pool_step_ok.
Qed.
End Segment.

(** ** Theorems *)

Section Claims.
Context {BV : Bitvec} `{BVL : !BitvecLaws} {TV : TypeMapView} {X : Type} {HX : Host X} {HL : HostLaws X}.
Context (c64 c1 output : Class) (lo : Layout) (o0 o1 al al1 : Z) (M : gset Z).

(** C16: Mutexes of the program exclude each other, and the two halves of a mutex
    agree, as long as the threads keep the discipline [may] of POSIX: a thread
    unlocks and waits only with a mutex it holds, does not lock one it holds,
    and a condition variable is signalled or broadcast only while the mutexes of
    its waiters are locked. The calls are lock, trylock, unlock, wait, signal
    and broadcast, cut where they wait for the scheduler; the parts in between
    are atomic, and may be interleaved in any way with each other and with other
    work of the threads that leaves the mutexes alone. Then no call panics: it
    waits in a queue or goes on, so the assertions on the swapped words never
    fail. And at any time a mutex has exactly one thread inside and its word is
    [LOCKED], or none and it is [UNLOCKED]. *)
Theorem mutex_words_agree (p0 p : Pool (X := X)) t df b call :
  cas_type c64 c1 output lo o0 o1 al al1 -> apart M -> reachable M p0 p ->
  pl_df p !! t = Some df -> room 4 (pl_seq p df) -> may M p t call ->
  (pl_exec p t df b call = None /\ waits p t \/ exists r s, pl_exec p t df b call = Some (Ok (r, s))) /\
  forall m, m ∈ M ->
    (exists u, (forall v, (m, v) ∈ pl_inside p <-> v = u) /\ u64_at (pl_memory p) m = LOCKED) \/
    (forall v, (m, v) ∉ pl_inside p) /\ u64_at (pl_memory p) m = UNLOCKED.
Proof.
  intros Hct Hap Hre Hdf Hr Hmay. pose proof (reachable_ok c64 c1 output lo o0 o1 al al1 Hct M Hap p0 p Hre) as Hp.
  pose proof (po_proto _ _ Hp) as Hpr. split.
  - destruct (segment_advances c64 c1 output lo o0 o1 al al1 Hct M Hap p t df b call Hp Hdf Hr Hmay)
      as [?|(r & s & ? & _)]; [by left|right; by exists r, s].
  - intros m Hm. destruct (po_words _ _ Hp m Hm) as [Hl Hu].
    destruct (decide (Exists (fun x => x.1 = m) (elements (pl_inside p)))) as [Hex|Hno].
    + apply Exists_exists in Hex as ([m' u] & Hin & Hmm). simpl in Hmm. subst m'. apply elem_of_elements in Hin.
      left. exists u. split; [|apply Hl; by exists u]. intros v. split; [|by intros ->].
      intros Hv. apply (inside_owner _ _ _ m u v Hpr); [|done]. apply (pr_hold _ _ _ Hpr). by left.
    + right. assert (forall v, (m, v) ∉ pl_inside p) as Hall; [|by split; [|apply Hu]].
      intros v Hv. apply Hno, Exists_exists. exists (m, v). split; [by apply elem_of_elements|done].
Qed.

(** C17: No mutex is lost: a thread waits in the queue of a mutex only while some
    other thread owns it, which is inside, or in a call whose next segment
    runs as soon as it is scheduled, without waiting. *)
Theorem queued_behind_an_owner (p0 p : Pool (X := X)) t m :
  cas_type c64 c1 output lo o0 o1 al al1 -> apart M -> reachable M p0 p -> t ∈ queue (mutex m (pl_sync p)) ->
  exists u, u <> t /\
    ((m, u) ∈ pl_inside p \/
     busy_with (phase (pl_phase p) u) = Some m /\
     forall df b call, pl_df p !! u = Some df -> room 4 (pl_seq p df) ->
       exists r s, pl_exec p u df b call = Some (Ok (r, s))).
Proof.
  intros Hct Hap Hre Hq. pose proof (reachable_ok c64 c1 output lo o0 o1 al al1 Hct M Hap p0 p Hre) as Hp.
  pose proof (po_proto _ _ Hp) as Hpr.
  destruct (pr_sync _ _ _ Hpr m) as [Hh Hl]. destruct (locked (mutex m (pl_sync p))); [|by rewrite Hl in Hq by done; apply not_elem_of_nil in Hq].
  destruct (holds_one _ _ Hh) as [u Hu]. exists u.
  pose proof (pr_queue _ _ _ Hpr m t Hq) as Hpt. apply (pr_hold _ _ _ Hpr) in Hu as Hown. split.
  - intros ->. destruct Hown as [Hin|Hown].
    + revert Hin. apply (pr_out _ _ _ Hpr). by destruct Hpt as [->|[c ->]].
    + destruct Hpt as [E|[c E]]; rewrite E in Hown; own.
  - destruct Hown as [Hin|Hown]; [by left|right].
    assert (busy_with (phase (pl_phase p) u) = Some m /\ ~ waits p u) as [Hb Hw].
    { unfold waits. destruct (phase (pl_phase p) u); simpl; own. }
    split; [done|]. intros df b call Hdf Hr.
    destruct (segment_advances c64 c1 output lo o0 o1 al al1 Hct M Hap p u df b call Hp Hdf Hr)
      as [[_ ?]|(r & s & ? & _)]; [|done|by exists r, s].
    intros E. by rewrite E in Hb.
Qed.
End Claims.

(** ** A concrete run: two threads and one mutex *)

#[local] Instance pool_view : TypeMapView := type_view 3 (fun _ => None) cas_table.

Lemma pool_cas_type : cas_type 0 1 2 (MkLayout 128 64) 0 64 64 8.
Proof.
  constructor; [vm_compute; reflexivity..| |done]. constructor.
  - vm_compute. reflexivity.
  - simpl. lia.
  - intros [|[|i]] e o el H; try done; simpl in H; simplify_eq; vm_compute; done.
  - repeat constructor; simpl; lia.
  - repeat constructor; simpl; lia.
Qed.

Definition two_threads : Rest unit :=
  MkRest (MkScheduler [(0, MkThread 0 (df_new 0) ∅ JoinPending); (1, MkThread 1 (df_new 1) ∅ JoinPending)] 2)
    sync_new ∅ defs_new [].

(** Thread 0 initialises the mutex at 200. *)
Definition mutex_made : Seq (Rest unit) :=
  let s := MkSeq (df_new 0) (MkState ∅ (MkWorld sample_memory two_threads) []) 0 in
  match exec all_known (pthread_mutex_init flow_self 200 0) s with Some (Ok (_, s)) => s | _ => s end.

Definition pool_start : Pool (X := Rest unit) :=
  MkPool {[ 0 := q_df mutex_made; 1 := df_new 1 ]} (q_state mutex_made) (q_slot mutex_made) ∅ ∅.

Definition advance (p : Pool (X := Rest unit)) (x : Z * Call) : Pool :=
  match pl_df p !! x.1 with
  | Some df => match pl_exec p x.1 df [] x.2 with Some (Ok (r, s)) => pl_after p x.1 x.2 r s | _ => p end
  | None => p
  end.

Lemma advance_step M p t df call :
  pl_df p !! t = Some df -> room 4 (pl_seq p df) -> may M p t call ->
  match pl_exec p t df [] call with Some (Ok _) => true | _ => false end = true -> pool_step M p (advance p (t, call)).
Proof.
  intros Hdf Hr Hm Hx. unfold advance. cbn [fst snd]. rewrite Hdf.
  destruct (pl_exec p t df [] call) as [[[r s]|]|] eqn:E; try done. by apply (pool_segment M p t df []).
Qed.

(** Thread 0 has locked, thread 1 has queued behind it. *)
Definition pool_locked : Pool := foldl advance pool_start [(0, CallLock 200); (0, CallLock 200); (1, CallLock 200)].

Lemma pool_start_reachable : reachable {[200]} pool_start pool_start.
Proof.
  split; [|constructor]. constructor.
  - vm_compute. reflexivity.
  - done.
  - done.
  - destruct (do_stores mem_new (sample_stores ++ [StoreOp 0 200 (MkValue [0xA7; 0xAB; 0xAA; 0x32; 0; 0; 0; 0] 64) ONone])
      mem_new_ok) as (m & Hf & Hm & _).
    { apply Forall_app. split; [apply sample_stores_ok|]. repeat constructor; simpl; lia. }
    assert (foldM do_store mem_new (sample_stores ++ [StoreOp 0 200 (MkValue [0xA7; 0xAB; 0xAA; 0x32; 0; 0; 0; 0] 64) ONone])
      = Ok (pl_memory pool_start)) as E by (vm_compute; reflexivity).
    revert E. generalize (pl_memory pool_start). intros q E. rewrite E in Hf. by injection Hf as ->.
  - intros t df. unfold pool_start. cbn [pl_df]. rewrite lookup_insert_Some. intros [[<- <-]|[_ H]].
    + split; [by vm_compute|]. split_and!; by vm_compute.
    + apply lookup_singleton_Some in H as [<- <-]. split; [by vm_compute|]. split_and!; by vm_compute.
  - intros a ->%elem_of_singleton. vm_compute. reflexivity.
Qed.

Lemma one_mutex_apart : apart {[200]}.
Proof. intros a ->%elem_of_singleton. split_and!; [lia|lia|]. intros b ->%elem_of_singleton. by left. Qed.

Lemma pool_locked_reachable : reachable {[200]} pool_start pool_locked.
Proof.
  split; [apply pool_start_reachable|]. unfold pool_locked. cbn [foldl].
  eapply rtc_l; [eapply advance_step|eapply rtc_l; [eapply advance_step|eapply rtc_l; [eapply advance_step|apply rtc_refl]]].
  all: try (vm_compute; reflexivity).
  - intros _. split; [by apply elem_of_singleton|]. by apply not_elem_of_empty.
  - intros H. vm_compute in H. discriminate H.
  - intros _. split; [by apply elem_of_singleton|]. apply (bool_decide_unpack _). vm_compute. exact I.
Qed.

Lemma mutex_words_agree_witness :
  phase (pl_phase pool_locked) 1 = LockQueued 200 /\
  (pl_exec pool_locked 1 (df_new 1) [] (CallLock 200) = None /\ waits pool_locked 1 \/
   exists r s, pl_exec pool_locked 1 (df_new 1) [] (CallLock 200) = Some (Ok (r, s))) /\
  forall m, m ∈ ({[200]} : gset Z) ->
    (exists u, (forall v, (m, v) ∈ pl_inside pool_locked <-> v = u) /\ u64_at (pl_memory pool_locked) m = LOCKED) \/
    (forall v, (m, v) ∉ pl_inside pool_locked) /\ u64_at (pl_memory pool_locked) m = UNLOCKED.
Proof.
  split; [vm_compute; reflexivity|].
  apply (mutex_words_agree 0 1 2 (MkLayout 128 64) 0 64 64 8 {[200]} pool_start pool_locked 1 (df_new 1) [] (CallLock 200)
    pool_cas_type one_mutex_apart pool_locked_reachable).
  - vm_compute. reflexivity.
  - vm_compute. reflexivity.
  - intros H. vm_compute in H. discriminate H.
Defined.

Lemma queued_behind_an_owner_witness :
  exists u, u <> 1 /\
    ((200, u) ∈ pl_inside pool_locked \/
     busy_with (phase (pl_phase pool_locked) u) = Some 200 /\
     forall df b call, pl_df pool_locked !! u = Some df -> room 4 (pl_seq pool_locked df) ->
       exists r s, pl_exec pool_locked u df b call = Some (Ok (r, s))).
Proof.
  apply (queued_behind_an_owner 0 1 2 (MkLayout 128 64) 0 64 64 8 {[200]} pool_start pool_locked 1 200
    pool_cas_type one_mutex_apart pool_locked_reachable).
  apply (bool_decide_unpack _). vm_compute. exact I.
Defined.
