(* ===== verification/Builtins.v ===== *)
(** * Builtins: src/src/native/mod.rs, and the lists of builtins of src/src/native/

    How a native function becomes a function of the simulated program
    ([native_fn!], [native_comp!], [native_bomb]), the small native files
    (rust.rs, apple.rs, unwind.rs, internal.rs, and what was left of libc.rs),
    and [native::builtins()]: every name with its function. The process the
    functions look things up in - symbols, definitions, how its functions are
    called - is a parameter here; so is the page size of the host. *)

From stdpp Require Import pretty.
From S2P Require Import Prelude RangeMap MemOrdering Layout Bitvec Value Memory Symbols Mutex Classes Operation.
From S2P Require Import Data Local Pipeline Process Flow Native Expr Pthread.

Section Glue.
Context {BV : Bitvec} {X : Type}.
Implicit Types (flow : FlowCtx).

(** [Func::call_imp]: the thunk of the result, or [None] for [Err(Panic)]. *)
Definition Call : Type := FlowCtx -> list Z -> Async X (option Z).

(** The loop of [from_thunks_impl]: [n] is the length of the tuple, of which
    every component needs its value; [None] if there are more arguments. *)
Fixpoint awaits (n : nat) (args : list Z) : Async X (option (list Value)) :=
  match args with
  | [] => Ret (Some [])
  | x :: args =>
      match n with
      | O => Ret None
      | S n =>
          let* v := await x in
          let* r := awaits n args in
          Ret (match r with Some vs => Some (v :: vs) | None => None end)
      end
  end.

Definition from_thunks_impl {R} (ts : list ArgType) (f : args_fn ts R) (args : list Z) : Async X (option R) :=
  let* vs := awaits (length ts) args in
  match vs with
  | Some vs => let** r := from_thunks 0 ts vs f in Ret (Some r)
  | None => Ret None
  end.

(** [NativeOutput::to_thunk]: a thunk, a value, or the error. *)
Definition Output : Type := option (Z + Value).
Definition out_value (v : res Value) : res Output := let! v := v in Ok (Some (inr v)).
Definition out_addr (x : Z) : res Output := out_value (addr x).
Definition out_int (w x : Z) : res Output := out_value (from_int w x).
Definition out_unit (_ : unit) : res Output := out_value from_unit.
Definition out_thunk (r : option Z) : res Output := Ok (match r with Some t => Some (inl t) | None => None end).

(** [native_fn!] *)
Definition native_fn {A} (ts : list ArgType) (f : FlowCtx -> args_fn ts (Async X A)) (to_thunk : A -> res Output) : Call :=
  fun flow args =>
  let* argvs := from_thunks_impl ts (f flow) args in
  match argvs with
  | None => Raise Explicit
  | Some out =>
      let* out := out in
      let** r := to_thunk out in
      match r with
      | None => Ret None
      | Some (inl thunk) => Ret (Some thunk)
      | Some (inr value) => let* t := constant flow value in Ret (Some t)
      end
  end.

(** [NativeComp::call_imp]: one thunk that depends on the arguments. *)
Definition native_comp (c : Compute X) : Call := fun flow args =>
  let* t := a_thunk flow args c in Ret (Some t).

(** [NativeValueOutput::to_value] of a function that only uses its arguments. *)
Definition pure_comp (f : list Value -> res Value) : Compute X := fun _ vs w =>
  let! v := f vs in Ok (v, w).

(** [NativeBomb]: [todo!]. *)
Definition native_bomb : Call := fun _ _ => Raise Todo.

(** ** rust.rs *)

Definition rust_alloc : Compute X := fun threadid vs w =>
  let! alloc := from_thunks 0 [AAddr; AAddr] vs (fun len align =>
    let! layout := Layout.from_bytes len align in
    Memory.alloc threadid layout (w_memory w)) in
  let! (p, m) := alloc in
  let! v := addr p in
  Ok (v, MkWorld m (w_rest w)).

Definition rust_realloc flow (ptr old_size align new_size : Z) : Async X Z :=
  let** old := Layout.from_bytes old_size align in
  let** new := Layout.from_bytes new_size align in
  realloc flow ptr old new.

Definition rust_dealloc flow (ptr size align : Z) : Async X unit :=
  let** layout := Layout.from_bytes size align in
  free flow ptr layout.

(** ** apple.rs *)

Definition tlv_atexit (vs : list Value) : res Value := native [AAddr; AAddr] (fun func objAddr => from_unit) vs.

(** [b"unknown.rs\0"] *)
Definition filename : list Z := [117; 110; 107; 110; 111; 119; 110; 46; 114; 115; 0].

Definition NSGetExecutablePath flow (buf len_ptr : Z) : Async X Z :=
  let** l32 := Layout.of_int 32 in
  let* len := load flow len_ptr l32 in
  if as_u64 len <? zlen filename then Ret 0
  else
    let** v := from_bytes_exact filename in
    let* _ := store flow buf v in
    let** n := from_int 32 (zlen filename) in
    let* _ := store flow len_ptr n in
    Ret 0.

(** ** libc.rs: what [Native] leaves *)

(** What [libc::sysconf(libc::_SC_PAGESIZE)] says. *)
Variable page_size : Z.

Definition sysconf (flag : Z) : res Value := if flag =? 29 then from_int 64 page_size else Panic Todo.

(** [print!] is not shown. *)
Definition write flow (fd buf len : Z) : Async X Z :=
  let* value :=
    if 0 <? len then let** layout := Layout.from_bytes len 1 in load flow buf layout
    else lift from_unit in
  let** _ := from_utf8 (as_bytes value) in
  Ret len.

Definition open (fuel : nat) flow (path flags : Z) : Async X Z :=
  let* _ := get_string fuel flow path in
  Ret (-1).

(** ** unwind.rs *)

(** The process the functions see. *)
Context {F : Type}.
Variables (symbols : SymbolTable) (defs : Definitions F).
(** [FlowCtx::invoke] with the functions of the process ([Flow.invoke]). *)
Variable invoke : FlowCtx -> Z -> list Value -> Async X (option Value).
(** [Func::debugloc]: file and line. *)
Variable debugloc : F -> option (list Z * Z).

Definition string_of_bytes (bs : list Z) : String.string :=
  String.string_of_list_ascii (map (fun b => Ascii.ascii_of_nat (Z.to_nat b)) bs).
Definition bytes_of_string (s : String.string) : list Z :=
  map (fun c => Z.of_nat (Ascii.nat_of_ascii c)) (String.list_ascii_of_string s).

Definition dlsym (fuel : nat) flow (handle name : Z) : Async X Z :=
  let* name := get_string fuel flow name in
  let** d := lookup None (string_of_bytes name) symbols in
  lift (unwrap (global d)).

Definition Unwind_RaiseException flow (object : Z) : Async X (option Z) := Ret None.

(** The loop over the frames: a call that panics ends it. *)
Fixpoint backtrace_loop flow (trace : Z) (trace_argument : Value) (frames : Backtrace) : Async X (option unit) :=
  match frames with
  | [] => Ret (Some tt)
  | bt :: frames =>
      let** ip1 := add64 (ip bt) 1 in
      let** bctx := addr ip1 in
      let* ret := invoke flow trace [bctx; trace_argument] in
      match ret with
      | None => Ret None
      | Some _ => backtrace_loop flow trace trace_argument frames
      end
  end.

Definition Unwind_Backtrace flow (trace : Z) (trace_argument : Value) : Async X (option Z) :=
  let* r := backtrace_loop flow trace trace_argument (f_backtrace flow) in
  match r with
  | None => Ret None
  | Some _ =>
      let** v := from_int 32 0 in
      let* t := constant flow v in
      Ret (Some t)
  end.

(** The stubs. *)
Definition Unwind_GetTextRelBase flow (_ : Z) : Async X Z := Ret 0.
Definition Unwind_GetDataRelBase flow (_ : Z) : Async X Z := Ret 0.
Definition Unwind_GetLanguageSpecificData flow (_ _ : Z) : Async X Z := Ret 0.
Definition Unwind_GetIPInfo flow (_ _ : Z) : Async X Z := Ret 0.
Definition Unwind_GetRegionStart flow (_ _ : Z) : Async X Z := Ret 0.
Definition Unwind_SetGR flow (_ _ _ : Z) : Async X unit := Ret tt.
Definition Unwind_SetIP flow (_ _ : Z) : Async X unit := Ret tt.
Definition Unwind_GetIP flow (bctx : Z) : Async X Z := Ret bctx.
Definition rdos_backtrace_create_state flow (filename threaded error data : Value) : Async X Z := Ret 0xCAFEBABE.

(** [format!("{:?}", symbol)] *)
Definition debug_symbol (s : Symbol) : list Z :=
  bytes_of_string
    (match s with
     | External n => n
     | Internal i n => String.append (String.append "[ModuleId(" (String.append (pretty i) ")]")) n
     end).

(** [.await.unwrap()] on the result of [invoke]. *)
Definition unwrap_call (r : option Value) : Async X Value :=
  match r with Some v => Ret v | None => Raise UnwrapFailed end.

Definition rdos_backtrace_syminfo flow (state address : Value) (cb : Z) (error data : Value) : Async X Z :=
  let** one := addr 1 in
  let** symbol := reverse_lookup (as_u64 address) symbols in
  let* name := string flow (debug_symbol symbol) in
  let** name := addr name in
  let* r := invoke flow cb [data; address; name; address; one] in
  let* _ := unwrap_call r in
  Ret 0.

Definition rdos_backtrace_pcinfo flow (state pc : Value) (cb : Z) (error data : Value) : Async X Z :=
  let** symbol := reverse_lookup (as_u64 pc) symbols in
  let** fun_ := unwrap (reverse_lookup_fun (as_u64 pc) defs) in
  let* symbol_name := string flow (debug_symbol symbol) in
  let** symbol_name := addr symbol_name in
  let (filename, line) := default ([], 0) (debugloc fun_) in
  let* filename := string flow filename in
  let** filename := addr filename in
  let** line := from_int 32 line in
  let* r := invoke flow cb [data; pc; filename; line; symbol_name] in
  let* _ := unwrap_call r in
  Ret 0.
End Glue.
Arguments Call X : clear implicits.

(** ** The builtins *)

Section Builtins.
Context {BV : Bitvec} {TV : TypeMapView} {X : Type} {HX : Host X}.
Context {F : Type}.
Variables (fuel : nat) (page_size : Z) (symbols : SymbolTable) (defs : Definitions F).
Variable invoke : FlowCtx -> Z -> list Value -> Async X (option Value).
Variable debugloc : F -> option (list Z * Z).

Definition bomb (name : String.string) : String.string * Call X := (name, native_bomb).

(** pthread.rs *)
Definition pthread_functions : list (String.string * Call X) := [
  ("pthread_mutex_trylock", native_fn [AAddr] pthread_mutex_trylock (out_int 32));
  ("pthread_mutex_lock", native_fn [AAddr] pthread_mutex_lock (out_int 32));
  ("pthread_mutex_unlock", native_fn [AAddr] pthread_mutex_unlock (out_int 32));
  ("pthread_mutex_init", native_fn [AAddr; AAddr] pthread_mutex_init (out_int 32));
  ("pthread_cond_wait", native_fn [AAddr; AAddr] pthread_cond_wait (out_int 32));
  ("pthread_rwlock_rdlock", native_fn [AAddr] pthread_rwlock_rdlock (out_int 32));
  ("pthread_rwlock_unlock", native_fn [AAddr] pthread_rwlock_unlock (out_int 32));
  ("pthread_mutexattr_init", native_fn [AAddr] pthread_mutexattr_init (out_int 32));
  ("pthread_mutexattr_settype", native_fn [AAddr; AU 32] pthread_mutexattr_settype (out_int 32));
  ("pthread_mutexattr_destroy", native_fn [AAddr] pthread_mutexattr_destroy (out_int 32));
  ("pthread_mutex_destroy", native_fn [AAddr] pthread_mutex_destroy (out_int 32));
  ("pthread_cond_broadcast", native_fn [AAddr] pthread_cond_broadcast (out_int 32));
  ("pthread_cond_destroy", native_fn [AAddr] pthread_cond_destroy (out_int 32));
  ("pthread_self", native_fn [] pthread_self (out_int 64));
  ("pthread_get_stackaddr_np", native_fn [AAddr] pthread_get_stackaddr_np out_addr);
  ("pthread_get_stacksize_np", native_fn [AAddr] pthread_get_stacksize_np out_addr);
  ("pthread_attr_init", native_fn [AAddr] pthread_attr_init (out_int 32));
  ("pthread_attr_setstacksize", native_fn [AAddr; AAddr] pthread_attr_setstacksize (out_int 32));
  ("pthread_create", native_fn [AAddr; AValue; AAddr; AValue] pthread_create (out_int 32));
  ("pthread_attr_destroy", native_fn [AAddr] pthread_attr_destroy (out_int 32));
  ("pthread_join", native_fn [AU 64; AAddr] pthread_join (out_int 32));
  ("pthread_detach", native_fn [AU 64] pthread_detach (out_int 32));
  ("pthread_cond_signal", native_fn [AAddr] pthread_cond_signal (out_int 32))
].

(** pthread.rs: the [todo!]s *)
Definition pthread_bombs : list String.string := [
  "pthread_cond_timedwait"; "pthread_key_create"; "pthread_key_delete"; "pthread_rwlock_wrlock";
  "pthread_setname_np"; "pthread_sigmask"
]%string.

(** The types a macro is used at, and the names that it formats. *)
Definition int_types : list (Z * String.string) :=
  [(8, "i8"); (16, "i16"); (32, "i32"); (64, "i64"); (128, "i128")]%string.
Definition llvm_name (op infix ty : String.string) : String.string :=
  String.append "llvm." (String.append op (String.append infix ty)).

(** [overflow_binop!]: the class is that of the pair. *)
Definition overflow_imp (op : ArithOp) (signed : bool) (w : Z) (ts : list Value) : res Value :=
  let! _ := int_args signed w ts in
  let! c := tv_get (IntegerType w) in
  let! c1 := tv_get (IntegerType 1) in
  let! class := tv_struc [c; c1] false in
  overflow_binop op signed w class ts.

Definition overflow_binops (uop sop : String.string) (op : ArithOp) : list (String.string * Call X) :=
  map (fun t => (llvm_name uop ".with.overflow." t.2, native_comp (pure_comp (overflow_imp op false t.1)))) int_types ++
  map (fun t => (llvm_name sop ".with.overflow." t.2, native_comp (pure_comp (overflow_imp op true t.1)))) int_types.

Definition sat_binops (uop sop : String.string) : list (String.string * Call X) :=
  map (fun t => (llvm_name uop "." t.2, native_comp (pure_comp (sat_binop false t.1)))) int_types ++
  map (fun t => (llvm_name sop "." t.2, native_comp (pure_comp (sat_binop true t.1)))) int_types.

Definition unops (op : String.string) (method : Z -> Z -> Z) : list (String.string * Call X) :=
  map (fun t => (llvm_name op "." t.2, native_comp (pure_comp (unop method t.1)))) int_types.

(** llvm.rs: what no macro makes *)
Definition llvm_functions : list (String.string * Call X) := [
  ("llvm.dbg.declare", native_comp (pure_comp (native [AValue; AValue; AValue] (fun _ _ _ => from_unit))));
  ("llvm.dbg.value", native_comp (pure_comp (native [AValue; AValue; AValue] (fun _ _ _ => from_unit))));
  ("llvm.expect.i1", native_comp (pure_comp llvm_expect_i1));
  ("llvm.lifetime.start.p0i8", native_comp (pure_comp (native [AValue; AValue] (fun _ _ => from_unit))));
  ("llvm.lifetime.end.p0i8", native_comp (pure_comp (native [AValue; AValue] (fun _ _ => from_unit))));
  ("llvm.memcpy.p0i8.p0i8.i64", native_fn [AAddr; AAddr; AAddr; ABool] llvm_memcpy out_unit);
  ("llvm.memmove.p0i8.p0i8.i64", native_fn [AAddr; AAddr; AAddr] llvm_memmove out_unit);
  ("llvm.ctpop.i64", native_comp (pure_comp llvm_ctpop_i64));
  ("llvm.assume", native_comp (pure_comp llvm_assume));
  ("llvm.trap", native_comp (pure_comp llvm_trap));
  ("llvm.memset.p0i8.i64", native_fn [AAddr; AU 8; AAddr; ABool] llvm_memset out_unit);
  ("llvm.fshl.i64", native_comp (pure_comp llvm_fshl_i64))
].

(** llvm.rs: the [todo!]s *)
Definition llvm_bombs : list String.string := [
  "llvm.bswap.i128"; "llvm.bswap.i16"; "llvm.bswap.i32"; "llvm.bswap.v8i16"; "llvm.ctpop.i32";
  "llvm.fshr.i32"; "llvm.uadd.sat.i64"
]%string.

(** llvm.rs *)
Definition llvm_builtins : list (String.string * Call X) :=
  llvm_functions ++ overflow_binops "uadd" "sadd" OpAdd ++ overflow_binops "umul" "smul" OpMul ++
  overflow_binops "usub" "ssub" OpSub ++ sat_binops "usub.sat" "ssub.sat" ++
  unops "cttz" trailing_zeros ++ unops "ctlz" leading_zeros ++ map bomb llvm_bombs.

(** libc.rs *)
Definition libc_functions : list (String.string * Call X) := [
  ("signal", native_comp (pure_comp (native [AU 32; AAddr] (fun sig handler => addr (signal sig handler)))));
  ("sysconf", native_comp (pure_comp (native [AU 32] (sysconf page_size))));
  ("write", native_fn [AU 32; AAddr; AAddr] write out_addr);
  ("mmap", native_fn [AAddr; AAddr; AU 32; AU 32; AU 32; AAddr] mmap out_addr);
  ("mprotect", native_fn [AAddr; AAddr; AU 32] mprotect (out_int 32));
  ("sigaction", native_comp (pure_comp (native [AU 32; AAddr; AAddr] (fun signum act oldact => from_int 32 (sigaction signum act oldact)))));
  ("sigaltstack", native_comp (pure_comp (native [AAddr; AAddr] (fun ss old_ss => from_int 32 (sigaltstack ss old_ss)))));
  ("memchr", native_fn [AAddr; AU 32; AAddr] memchr out_addr);
  ("strlen", native_fn [AAddr] (strlen fuel) out_addr);
  ("memcmp", native_fn [AAddr; AAddr; AAddr] memcmp (out_int 32));
  ("getenv", native_fn [AAddr] (getenv fuel) out_addr);
  ("getcwd", native_fn [AAddr; AAddr] getcwd out_addr);
  ("dladdr", native_comp (pure_comp (native [AAddr; AAddr] (fun address info => from_int 32 (dladdr address info)))));
  ("open", native_fn [AAddr; AU 32] (open fuel) (out_int 32));
  ("dlsym", native_fn [AAddr; AAddr] (dlsym symbols fuel) out_addr);
  ("getentropy", native_fn [AAddr; AAddr] getentropy (out_int 32));
  ("strerror_r", native_fn [AU 32; AAddr; AAddr] strerror_r (out_int 32))
].

(** libc.rs: the [todo!]s *)
Definition libc_bombs : list String.string := [
  "_exit"; "abort"; "accept"; "bind"; "calloc"; "chdir"; "chmod"; "close$NOCANCEL"; "closedir"; "connect";
  "copyfile_state_alloc"; "copyfile_state_free"; "copyfile_state_get"; "dup2"; "execvp"; "exit"; "fchmod";
  "fcntl"; "fcopyfile"; "fork"; "free"; "freeaddrinfo"; "fstat$INODE64"; "ftruncate"; "gai_strerror";
  "getaddrinfo"; "getpeername"; "getpid"; "getppid"; "getpwuid_r"; "getsockname"; "getsockopt";
  "gettimeofday"; "getuid"; "ioctl"; "kill"; "link"; "listen"; "lseek"; "lstat$INODE64";
  "mach_absolute_time"; "mach_timebase_info"; "malloc"; "mkdir"; "munmap"; "nanosleep"; "opendir$INODE64";
  "pipe"; "poll"; "posix_memalign"; "posix_spawn_file_actions_adddup2"; "posix_spawn_file_actions_destroy";
  "posix_spawn_file_actions_init"; "posix_spawnattr_destroy"; "posix_spawnattr_init";
  "posix_spawnattr_setflags"; "posix_spawnattr_setsigdefault"; "posix_spawnattr_setsigmask"; "posix_spawnp";
  "pread"; "pwrite"; "read"; "readdir_r$INODE64"; "readlink"; "readv"; "realloc"; "realpath$DARWIN_EXTSN";
  "recv"; "recvfrom"; "rename"; "rmdir"; "sched_yield"; "send"; "sendto"; "setenv"; "setgid"; "setgroups";
  "setsockopt"; "setuid"; "shutdown"; "sigaddset"; "sigemptyset"; "socket"; "socketpair"; "stat$INODE64";
  "symlink"; "unlink"; "unsetenv"; "waitpid"; "writev"
]%string.

(** apple.rs *)
Definition apple_functions : list (String.string * Call X) := [
  ("_tlv_atexit", native_comp (pure_comp tlv_atexit));
  ("_NSGetExecutablePath", native_fn [AAddr; AAddr] NSGetExecutablePath (out_int 32))
].

(** apple.rs: the [todo!]s *)
Definition apple_bombs : list String.string := [
  "_NSGetArgc"; "_NSGetArgv"; "_NSGetEnviron"; "__error"
]%string.

(** rust.rs *)
Definition rust_functions : list (String.string * Call X) := [
  ("__rust_alloc", native_comp rust_alloc);
  ("__rust_realloc", native_fn [AAddr; AAddr; AAddr; AAddr] rust_realloc out_addr);
  ("__rust_dealloc", native_fn [AAddr; AAddr; AAddr] rust_dealloc out_unit)
].

(** rust.rs: the [todo!]s *)
Definition rust_bombs : list String.string := [
  "__rust_alloc_zeroed"
]%string.

(** unwind.rs *)
Definition unwind_functions : list (String.string * Call X) := [
  ("_Unwind_RaiseException", native_fn [AAddr] Unwind_RaiseException out_thunk);
  ("_Unwind_Backtrace", native_fn [AAddr; AValue] (Unwind_Backtrace invoke) out_thunk);
  ("_Unwind_GetTextRelBase", native_fn [AAddr] Unwind_GetTextRelBase out_addr);
  ("_Unwind_GetDataRelBase", native_fn [AAddr] Unwind_GetDataRelBase out_addr);
  ("_Unwind_GetLanguageSpecificData", native_fn [AAddr; AAddr] Unwind_GetLanguageSpecificData out_addr);
  ("_Unwind_GetIPInfo", native_fn [AAddr; AAddr] Unwind_GetIPInfo out_addr);
  ("_Unwind_GetRegionStart", native_fn [AAddr; AAddr] Unwind_GetRegionStart out_addr);
  ("_Unwind_SetGR", native_fn [AAddr; AU 32; AU 32] Unwind_SetGR out_unit);
  ("_Unwind_SetIP", native_fn [AAddr; AAddr] Unwind_SetIP out_unit);
  ("_Unwind_GetIP", native_fn [AAddr] Unwind_GetIP out_addr);
  ("__rdos_backtrace_create_state", native_fn [AValue; AValue; AValue; AValue] rdos_backtrace_create_state out_addr);
  ("__rdos_backtrace_syminfo", native_fn [AValue; AValue; AAddr; AValue; AValue] (rdos_backtrace_syminfo symbols invoke) (out_int 32));
  ("__rdos_backtrace_pcinfo", native_fn [AValue; AValue; AAddr; AValue; AValue] (rdos_backtrace_pcinfo symbols defs invoke debugloc) (out_int 32))
].

(** internal.rs *)
Definition internal_set_tracing (flow : FlowCtx) (tracing : bool) : Async X unit := SetTracing tracing (Ret tt).

Definition internal_functions : list (String.string * Call X) := [
  ("set_tracing", native_fn [ABool] internal_set_tracing out_unit)
].

(** [native::builtins] *)
Definition builtins : list (String.string * Call X) :=
  (pthread_functions ++ map bomb pthread_bombs) ++ llvm_builtins ++
  (libc_functions ++ map bomb libc_bombs) ++ (apple_functions ++ map bomb apple_bombs) ++
  (rust_functions ++ map bomb rust_bombs) ++ unwind_functions ++ internal_functions.
End Builtins.

(** ** Theorems *)

Section Claims.
Context {BV : Bitvec} `{BVL : !BitvecLaws} {X : Type}.

Section Loaded.
Context {TV : TypeMapView} {HX : Host X} {F : Type}.
Variables (fuel : nat) (page_size : Z) (symbols : SymbolTable) (defs : Definitions F).
Variable invoke : FlowCtx -> Z -> list Value -> Async X (option Value).
Variable debugloc : F -> option (list Z * Z).

#[local] Abbreviation all := (builtins fuel page_size symbols defs invoke debugloc).

Lemma builtins_names : NoDup all.*1.
Proof. apply (bool_decide_unpack _). vm_compute. exact I. Qed.

(** [Process::new] followed by [add_native] never panics: no two of the 229 builtins
    have the same name, there is an address for each, and afterwards each name
    resolves to an address that resolves to its function. *)
Theorem builtins_callable :
  length all = 229%nat /\
  exists p, add_native all tables_new = Ok p /\ tables_ok p /\
    forall n f, (n, f) ∈ all -> exists a,
      lookup None n (Symbols.symbols p) = Ok (Global a) /\ reverse_lookup_fun a (definitions p) = Some f.
Proof.
  split; [vm_compute; reflexivity|].
  destruct (add_native_spec all tables_new tables_new_ok) as (p & Hp & Hok & _ & _ & Hall).
  - vm_compute. reflexivity.
  - apply builtins_names.
  - intros n _. apply lookup_empty.
  - exists p. split_and!; [done..|]. intros n f Hin. destruct (Hall n f Hin) as (a & Hf & Hfn).
    exists a. split; [|done]. unfold lookup. by rewrite Hf.
Qed.

Lemma builtin_unique n f g : (n, f) ∈ all -> (n, g) ∈ all -> f = g.
Proof.
  intros Hf Hg. apply (elem_of_list_to_map (M := gmap String.string)) in Hf, Hg; [|apply builtins_names..].
  rewrite Hf in Hg. by injection Hg.
Qed.
End Loaded.

(** *** Calls *)

Section Calls.
Variable known : Z -> bool.
Implicit Types (s : Seq X) (flow : FlowCtx).

(** Thunk [t] has value [v], and its thread is there. *)
Definition has_value s (t : Z) (v : Value) : Prop :=
  exists i, heap (q_state s) !! t = Some i /\ known (t_thread i) = true /\ t_value i = Ready v.

Lemma has_value_val s t v : has_value s t v -> val (q_state s) t = Some v.
Proof. intros (i & Hi & _ & Hv). unfold val. by rewrite Hi, Hv. Qed.

Lemma awaits_runs n args vs s :
  Forall2 (has_value s) args vs ->
  exec known (awaits n args) s = Some (Ok (if (length args <=? n)%nat then Some vs else None, s)).
Proof.
  intros Hargs. revert n. induction Hargs as [|x v args vs Hx Hargs IH]; intros n; [by destruct n|].
  destruct n as [|n]; [done|]. cbn [awaits length Nat.leb]. unfold await. cbn [abind].
  pose proof Hx as (i & Hi & Hk & _). rewrite (exec_await known x _ s i v Hi Hk (has_value_val _ _ _ Hx)).
  rewrite exec_bind, IH. by destruct (length args <=? n)%nat.
Qed.

(** A call with more arguments than the tuple has. *)
Lemma native_fn_mismatch {A} ts (f : FlowCtx -> args_fn ts (Async X A)) out flow args vs s :
  Forall2 (has_value s) args vs -> (length ts < length args)%nat ->
  exec known (native_fn ts f out flow args) s = Some (Panic Explicit).
Proof.
  intros Hargs Hlen. unfold native_fn, from_thunks_impl. rewrite !exec_bind, (awaits_runs _ _ _ _ Hargs).
  by rewrite (proj2 (Nat.leb_gt _ _) Hlen).
Qed.

(** A call whose function runs: the result is a new thunk. *)
Lemma native_fn_runs {A} ts (f : FlowCtx -> args_fn ts (Async X A)) out flow args vs body a v m n s s1 :
  Forall2 (has_value s) args vs -> (length args <= length ts)%nat ->
  Native.from_thunks 0 ts vs (f flow) = Ok body -> exec known body s = Some (Ok (a, s1)) -> passed known n m s s1 ->
  out a = Ok (Some (inr v)) -> printable v = true -> room (n + 1) s ->
  exists t s', exec known (native_fn ts f out flow args) s = Some (Ok (Some t, s')) /\
    val (q_state s') t = Some v /\ idle known s' /\ q_memory s' = m.
Proof.
  intros Hargs Hlen Hbody Hx Hp Hout Hpv Hr. unfold native_fn, from_thunks_impl.
  rewrite exec_bind, exec_bind, (awaits_runs _ _ _ _ Hargs), (proj2 (Nat.leb_le _ _) Hlen), Hbody. cbn [lift abind exec].
  rewrite exec_bind, Hx, exec_bind, Hout. cbn [lift exec]. unfold constant, a_thunk. cbn [abind].
  destruct (exec_decode known (f_backtrace flow) None ONone [] (fun _ _ w => Ok (v, w)) (fun t => Ret (Some t)) s1 [] v
    (world (q_state s1)) (passed_idle _ _ _ _ _ Hp)) as (s' & -> & _ & Hi & _ & _ & Hw & Hv & _).
  - unfold room in *. rewrite (passed_seq _ _ _ _ _ Hp). lia.
  - constructor.
  - done.
  - prints.
  - apply no_addr.
  - exists (q_slot s1), s'. split_and!; [done|done|done|]. unfold q_memory in *. rewrite Hw. apply Hp.
Qed.
End Calls.

(** C33: The memory intrinsics as LLVM calls them, with destination, source, length
    and the volatile flag. [llvm.memcpy] copies the bytes and gives the unit
    value. [llvm.memmove] is registered with three parameters, so that its
    fourth argument makes every call panic. *)
Theorem memcpy_copies_memmove_panics {TV : TypeMapView} {HX : Host X} {F : Type} (known : Z -> bool) (fuel : nat)
    (page_size : Z) (symbols : SymbolTable) (defs : Definitions F) (invoke : FlowCtx -> Z -> list Value -> Async X (option Value))
    (debugloc : F -> option (list Z * Z)) (cpy move : Call X) (flow : FlowCtx) (s : Seq X)
    (d sr c vo : Z) (dst src cnt volatile : Value) (b : bool) :
  ("llvm.memcpy.p0i8.p0i8.i64"%string, cpy) ∈ builtins fuel page_size symbols defs invoke debugloc ->
  ("llvm.memmove.p0i8.p0i8.i64"%string, move) ∈ builtins fuel page_size symbols defs invoke debugloc ->
  Forall2 (has_value known s) [d; sr; c; vo] [dst; src; cnt; volatile] -> unwrap_bool volatile = Ok b ->
  idle known s -> room 6 s -> mem_ok (q_memory s) -> 8 * as_u64 cnt + 7 < 2 ^ 64 ->
  as_u64 src + as_u64 cnt < 2 ^ 64 -> as_u64 dst + as_u64 cnt < 2 ^ 64 ->
  (exists t s' u, exec known (cpy flow [d; sr; c; vo]) s = Some (Ok (Some t, s')) /\ idle known s' /\
     from_unit = Ok u /\ val (q_state s') t = Some u /\
     forall p, byte_at (q_memory s') p =
       if (as_u64 dst <=? p) && (p <? as_u64 dst + as_u64 cnt) then byte_at (q_memory s) (as_u64 src + (p - as_u64 dst))
       else byte_at (q_memory s) p) /\
  exec known (move flow [d; sr; c; vo]) s = Some (Panic Explicit).
Proof.
  intros Hc Hm Hargs Hvol Hs Hr Hmem H1 H2 H3. split.
  - assert (cpy = native_fn [AAddr; AAddr; AAddr; ABool] llvm_memcpy out_unit) as ->.
    { eapply builtin_unique; [exact Hc|]. apply (list_elem_of_lookup_2 _ 34). reflexivity. }
    destruct (memcpy_runs known flow (as_u64 dst) (as_u64 src) (as_u64 cnt) s Hs)
      as (s1 & Hx & Hp & _ & _ & Hb); [unfold room in *; lia|done|apply as_u64_nonneg..|done|done|done|].
    assert (exists u, from_unit = Ok u) as [u Hu] by (by eexists).
    destruct (native_fn_runs known [AAddr; AAddr; AAddr; ABool] llvm_memcpy out_unit flow [d; sr; c; vo]
      [dst; src; cnt; volatile] (memcpy flow (as_u64 dst) (as_u64 src) (as_u64 cnt)) tt u (q_memory s1)
      (if 0 <? as_u64 cnt then 5 else 0) s s1 Hargs) as (t & s' & Hx' & Hv & Hi & Hm'); try done.
    + cbn [Native.from_thunks Native.from_thunk index zget bind Z.add]. unfold index. simpl. by rewrite Hvol.
    + unfold out_unit, out_value. by rewrite Hu.
    + prints.
    + unfold room in *. destruct (0 <? as_u64 cnt); lia.
    + exists t, s', u. rewrite Hm'. split_and!; [done..|]. exact Hb.
  - assert (move = native_fn [AAddr; AAddr; AAddr] llvm_memmove out_unit) as ->.
    { eapply builtin_unique; [exact Hm|]. apply (list_elem_of_lookup_2 _ 35). reflexivity. }
    eapply native_fn_mismatch; [exact Hargs|simpl; lia].
Qed.
(** The number in four bytes. *)
Definition u32_at (m : MemoryInner) (p : Z) : Z := as_u64 (MkValue (bytes_of m p 4) 32).

Lemma filename_bytes : Forall is_byte filename.
Proof. unfold filename, is_byte. rewrite !Forall_cons, Forall_nil. lia. Qed.

(** [_NSGetExecutablePath] writes the name and its length when the length it
    is given is at least that; and does nothing when it is less. It returns 0
    for success in both cases: the caller is not told that the buffer is too
    small. *)
Theorem executable_path (known : Z -> bool) (flow : FlowCtx) (buf len_ptr : Z) (s : Seq X) :
  idle known s -> room 8 s -> mem_ok (q_memory s) -> 0 <= buf -> buf + 11 < 2 ^ 64 -> 0 <= len_ptr -> len_ptr + 4 < 2 ^ 64 ->
  buf + 11 <= len_ptr \/ len_ptr + 4 <= buf ->
  exists s', exec known (NSGetExecutablePath flow buf len_ptr) s = Some (Ok (0, s')) /\ idle known s' /\
    (u32_at (q_memory s) len_ptr < 11 -> q_memory s' = q_memory s) /\
    (11 <= u32_at (q_memory s) len_ptr ->
       bytes_of (q_memory s') buf 11 = filename /\ u32_at (q_memory s') len_ptr = 11 /\
       forall b, ~ (buf <= b < buf + 11 \/ len_ptr <= b < len_ptr + 4) -> byte_at (q_memory s') b = byte_at (q_memory s) b).
Proof.
  intros Hs Hr Hm Hb0 Hb1 Hl0 Hl1 Hdis. unfold NSGetExecutablePath.
  change (Layout.of_int 32) with (Ok (MkLayout (4 * 8) 32)). cbn [lift abind].
  destruct (load_range (f_thread flow) len_ptr 4 32 ONone (q_memory s) Hm) as [Hld _]; [lia..|].
  rewrite exec_bind.
  destruct (load_runs known flow len_ptr (MkLayout (4 * 8) 32) s _ Hs ltac:(unfold room in *; lia) ltac:(lia) Hld eq_refl) as (s1 & -> & Hp1).
  change (as_u64 (MkValue (bytes_of (q_memory s) len_ptr 4) (4 * 8))) with (u32_at (q_memory s) len_ptr).
  change (zlen filename) with 11. destruct (Z.ltb_spec (u32_at (q_memory s) len_ptr) 11) as [Hlt|Hge].
  { exists s1. split_and!; [done|apply Hp1|intros _; apply Hp1|lia]. }
  change (from_bytes_exact filename) with (Ok (MkValue filename 88)). cbn [lift abind]. rewrite exec_bind.
  destruct (store_value (f_thread flow) buf (MkValue filename 88) ONone (q_memory s) Hm) as (m1 & Hst1 & Hm1 & Hb & Hk1);
    [exact filename_bytes|lia|simpl; change (zlen filename) with 11; lia|].
  destruct (store_runs known flow buf (MkValue filename 88) s1 m1) as (s2 & -> & Hp2);
    [apply Hp1|unfold room in *; rewrite (passed_seq _ _ _ _ _ Hp1); lia|lia|done|by rewrite (passed_mem _ _ _ _ _ Hp1)|done|].
  destruct (from_int_spec 32 11) as (v & Hv & Hvc & Hvb & Hvu); [lia|]. rewrite Hv. cbn [lift abind]. rewrite exec_bind.
  pose proof Hvc as ((_ & _ & Hvl & Hvby) & _). rewrite Hvb in Hvl. change ((32 + 7) / 8) with 4 in Hvl.
  destruct (store_value (f_thread flow) len_ptr v ONone m1 Hm1 Hvby Hl0) as (m2 & Hst2 & Hm2 & Hb2 & Hk2); [lia|].
  destruct (store_runs known flow len_ptr v s2 m2) as (s3 & -> & Hp3);
    [apply Hp2|unfold room in *; rewrite (passed_seq _ _ _ _ _ Hp2), (passed_seq _ _ _ _ _ Hp1); lia|lia|lia
    |by rewrite (passed_mem _ _ _ _ _ Hp2)|prints|].
  rewrite Hvl in *. exists s3. rewrite (passed_mem _ _ _ _ _ Hp3). split_and!; [done|apply Hp3|lia|]. intros _. split_and!.
  - transitivity (bytes_of m1 buf 11); [|exact Hb].
    apply list_fmap_ext. intros i j Hj%lookup_seqZ. apply Hk2. lia.
  - unfold u32_at. rewrite Hb2. unfold as_u64, as_u128 in *. simpl. destruct v as [vi vb]. simpl in *. subst vb.
    rewrite Hvu. reflexivity.
  - intros b Hnb. rewrite Hk2 by lia. apply Hk1. simpl. change (zlen filename) with 11. lia.
Qed.
End Claims.

(** ** Concrete calls *)

#[local] Instance builtins_view : TypeMapView := type_view 3 (fun _ => None) cas_table.

Definition call_value (v : Value) : ThunkInner (Rest unit) := MkThunk 0 0 [] None ONone [] (Ready v) [] false.
Definition le64 (x : Z) : Value := MkValue [x; 0; 0; 0; 0; 0; 0; 0] 64.

(** Four arguments: copy six bytes from 200 to 201. *)
Definition call_start : Seq (Rest unit) :=
  MkSeq (df_new 0)
    (MkState {[ 0 := call_value (le64 201); 1 := call_value (le64 200); 2 := call_value (le64 6);
                3 := call_value (MkValue [0] 1) ]}
       (MkWorld sample_memory (MkRest scheduler_new sync_new ∅ defs_new [])) []) 4.

Lemma memcpy_copies_memmove_panics_witness :
  exists cpy move : Call (Rest unit),
  (exists t s' u, exec all_known (cpy flow_self [0; 1; 2; 3]) call_start = Some (Ok (Some t, s')) /\ idle all_known s' /\
     from_unit = Ok u /\ val (q_state s') t = Some u /\
     forall p, byte_at (q_memory s') p =
       if (201 <=? p) && (p <? 201 + 6) then byte_at (q_memory call_start) (200 + (p - 201)) else byte_at (q_memory call_start) p) /\
  exec all_known (move flow_self [0; 1; 2; 3]) call_start = Some (Panic Explicit).
Proof.
  do 2 eexists.
  refine (memcpy_copies_memmove_panics (F := unit) all_known 0 4096 symbols_new defs_new (fun _ _ _ => Raise Todo) (fun _ => None)
    _ _ flow_self call_start 0 1 2 3 (le64 201) (le64 200) (le64 6) (MkValue [0] 1) false _ _ _ _ _ _ _ _ _ _).
  - apply (list_elem_of_lookup_2 _ 34). reflexivity.
  - apply (list_elem_of_lookup_2 _ 35). reflexivity.
  - repeat constructor; eexists; (split; [vm_compute; reflexivity|done]).
  - vm_compute. reflexivity.
  - split_and!; [done|done|simpl; lia].
  - vm_compute. reflexivity.
  - apply sample_memory_ok.
  - vm_compute. reflexivity.
  - vm_compute. reflexivity.
  - vm_compute. reflexivity.
Defined.

Lemma executable_path_witness :
  exists s', exec all_known (NSGetExecutablePath flow_self 300 200) flow_start = Some (Ok (0, s')) /\ idle all_known s' /\
    (u32_at (q_memory flow_start) 200 < 11 -> q_memory s' = q_memory flow_start) /\
    (11 <= u32_at (q_memory flow_start) 200 ->
       bytes_of (q_memory s') 300 11 = filename /\ u32_at (q_memory s') 200 = 11 /\
       forall b, ~ (300 <= b < 300 + 11 \/ 200 <= b < 200 + 4) -> byte_at (q_memory s') b = byte_at (q_memory flow_start) b).
Proof.
  apply (executable_path all_known flow_self 300 200 flow_start flow_start_idle).
  - vm_compute. reflexivity.
  - apply sample_memory_ok.
  - lia.
  - lia.
  - lia.
  - lia.
  - lia.
Defined.
