(* ===== verification/Main.v ===== *)
(** * Main: src/src/main.rs and the start of a process

    [main] makes a process, registers the builtins, loads the modules of the
    program, starts the first thread at the function [main] and steps until
    nothing is left. The modules come from the parser of llvm-ir; the executor,
    the random generator and what else the process holds are parameters, as in
    [Process]. *)

From S2P Require Import Prelude RangeMap MemOrdering Layout Bitvec Value Memory Symbols Mutex Classes Operation.
From S2P Require Import Data Local Pipeline Process Flow Native Expr Typing FuncCompiler Modules Pthread Builtins.

(** ** [main] *)

Section Main.
Context {BV : Bitvec} {TV : TypeMapView} {X E R : Type}.
Implicit Types (p : Process X E R LazyFunc).

(** The scheduler with its tables of mutexes ([rest]), [LocalPool::new()] and
    [XorShiftRng::seed_from_u64(1)]. *)
Variables (rest : X) (pool_new : E) (rng_new : R).
(** The builtins of [native::builtins()]. *)
Variable builtins : list (String.string * LazyFunc).
Variable spawn_local : Z -> LazyFunc -> list Value -> E -> E.
Variable run_until_stalled : Process X E R LazyFunc -> res (Process X E R LazyFunc).
Variable choose : Z -> R -> Z * R.

(** [Process::new] *)
Definition process_new : Process X E R LazyFunc :=
  MkProcess (MkState ∅ (MkWorld mem_new rest) []) scheduler_new symbols_new defs_new pool_new rng_new.

(** The parts of the process that registering and loading change. *)
Definition tables_of p : Tables LazyFunc := MkTables (w_memory (world (p_state p))) (p_symbols p) (p_defs p).
Definition set_tables (t : Tables LazyFunc) p : Process X E R LazyFunc :=
  MkProcess (MkState (heap (p_state p)) (MkWorld (Symbols.memory t) (w_rest (world (p_state p)))) (woken (p_state p)))
    (p_sched p) (symbols t) (definitions t) (p_pool p) (p_rng p).

(** [main] up to the loop. *)
Definition start (modules : list Module_) : res (Process X E R LazyFunc) :=
  let p := process_new in
  let! t := add_native builtins (tables_of p) in
  let! t := compile_modules modules t in
  add_main spawn_local (set_tables t p).

(** [Drop for ProcessScope] *)
Definition scope_drop p : Process X E R LazyFunc := set_sched (cancel (p_sched p)) p.

(** [catch_unwind] discards a panic of the loop; [None] stands for one here. *)
Definition main (n fuel : nat) (modules : list Module_) : option (res (option (Process X E R LazyFunc))) :=
  match start modules with
  | Panic e => Some (Panic e)
  | Ok p =>
      match run run_until_stalled choose n fuel p with
      | Some (Ok p) => Some (Ok (Some (scope_drop p)))
      | Some (Panic _) => Some (Ok None)
      | None => None
      end
  end.
End Main.

(** ** What [main] starts *)

(** The builtins by name; their code is found by the name ([Natives]). *)
Definition native_funcs (names : list String.string) : list (String.string * LazyFunc) := (fun n => (n, LazyNative n)) <$> names.

Lemma native_funcs_elem names n : n ∈ names -> (n, LazyNative n) ∈ native_funcs names.
Proof. intros Hn. apply list_elem_of_fmap. by exists n. Qed.

(** The names of all builtins do not depend on what they are called with. *)
Definition builtin_names : list String.string :=
  Eval vm_compute in (builtins (BV := bitvec_ref) (TV := type_view 0 (fun _ => None) (typemap_new 64)) (HX := rest_host (F := unit))
    0 4096 symbols_new (defs_new (F := unit)) (fun _ _ _ => Raise Todo) (fun _ => None)).*1.

Lemma builtin_names_all {BV : Bitvec} {TV : TypeMapView} {X F} {HX : Host X} fuel page_size symbols (defs : Definitions F) invoke debugloc :
  (builtins (X := X) fuel page_size symbols defs invoke debugloc).*1 = builtin_names.
Proof. vm_compute. reflexivity. Qed.

(** A new process with the builtins. *)
Definition booted : Tables LazyFunc :=
  match add_native (native_funcs builtin_names) tables_new with Ok t => t | Panic _ => tables_new end.

Lemma booted_ok :
  add_native (native_funcs builtin_names) tables_new = Ok booted /\ tables_ok booted /\ mem_ok (Symbols.memory booted) /\
  next (Symbols.memory booted) = 88064 /\
  forall n, n ∈ builtin_names -> exists a, lookup_symbol (External n) (symbols booted) = Ok (Global a) /\
    reverse_lookup_fun a (definitions booted) = Some (LazyNative n).
Proof.
  destruct (add_native_spec (native_funcs builtin_names) tables_new tables_new_ok) as (t & Ht & Hok & _ & _ & Hall).
  - vm_compute. reflexivity.
  - apply (bool_decide_unpack _). vm_compute. exact I.
  - intros. apply lookup_empty.
  - assert (forall n, n ∈ builtin_names -> exists a, lookup_symbol (External n) (symbols t) = Ok (Global a) /\
      reverse_lookup_fun a (definitions t) = Some (LazyNative n)) as Hnat.
    { intros n Hn. destruct (Hall n (LazyNative n) (native_funcs_elem _ n Hn)) as (a & Hf & Hfn).
      exists a. unfold lookup_symbol. rewrite Hf. split; [reflexivity|exact Hfn]. }
    clear Hall. assert (booted = t) as Hb by (unfold booted; by rewrite Ht). rewrite <- Hb in *.
    split; [exact Ht|]. split; [exact Hok|]. split; [|split; [vm_compute; reflexivity|exact Hnat]].
    assert (Memory.cells (Symbols.memory booted) = RangeMap.new) as Hc by (vm_compute; reflexivity).
    unfold mem_ok. rewrite Hc. apply mem_new_ok.
Qed.

Section Claims.
Context `{BVL : BitvecLaws} {TV : TypeMapView} {TL : TypeLaws TV} {X E R : Type}.
Variables (rest : X) (pool_new : E) (rng_new : R) (spawn_local : Z -> LazyFunc -> list Value -> E -> E).

(** From any tables that hold the builtins. *)
Lemma starts_from (t0 t : Tables LazyFunc) (names : list String.string) ms (i : nat) (m : Module_) (f : Function) :
  add_native (native_funcs names) tables_new = Ok t0 -> tables_ok t0 -> mem_ok (Symbols.memory t0) ->
  (forall n, n ∈ names -> exists a, lookup_symbol (External n) (symbols t0) = Ok (Global a) /\
    reverse_lookup_fun a (definitions t0) = Some (LazyNative n)) ->
  forallb module_u64 ms -> next (Symbols.memory t0) + program_demand ms < 2 ^ 64 -> compile_modules ms t0 = Ok t ->
  ms !! i = Some m -> (LinkExternal, f) ∈ mod_functions m -> fn_name f = "main" ->
  exists a v32 v64 p, start rest pool_new rng_new (native_funcs names) spawn_local ms = Ok p /\
    Value.new 32 0 = Ok v32 /\ Value.new 64 0 = Ok v64 /\
    lookup_symbol (External "main") (p_symbols p) = Ok (Global a) /\
    p_pool p = spawn_local 0 (LazyCompiled (Z.of_nat i) a f) [v32; v64] pool_new /\
    threads (p_sched p) = [(0, MkThread 0 (df_new 0) ∅ JoinPending)] /\
    (forall n, n ∈ names -> exists b, lookup_symbol (External n) (p_symbols p) = Ok (Global b) /\
      reverse_lookup_fun b (p_defs p) = Some (LazyNative n)) /\
    (forall (j : nat) m', ms !! j = Some m' -> module_loaded t0 (tables_of p) (Z.of_nat j) m').
Proof.
  intros Hb Hok Hmem Hnat Hu Hd Hc Hm Hf Hname.
  destruct (compile_modules_inv ms t0 t Hok Hmem Hd Hu Hc) as (_ & Hsym & Hdef & Hload).
  destruct (Hload i m Hm) as (Hfs & _). destruct (Hfs _ Hf) as (sym & a & Hs & Ha & Hfn).
  simpl in Hs, Hfn. rewrite Hname in Hs. injection Hs as <-.
  destruct (new_spec 32 0) as (v32 & H32 & _); [lia..|]. destruct (new_spec 64 0) as (v64 & H64 & _); [lia..|].
  exists a, v32, v64. unfold start. change (tables_of (process_new rest pool_new rng_new)) with (tables_new (F := LazyFunc)).
  rewrite Hb. cbn [bind]. rewrite Hc. cbn [bind]. unfold add_main. cbn [set_tables p_symbols].
  rewrite Ha. cbn [bind global unwrap]. rewrite H32. cbn [bind]. change ptr_bits with 64. rewrite H64. cbn [bind].
  unfold add_thread, new_threadid, thread_new. cbn. rewrite Hfn. cbn.
  eexists. split; [reflexivity|]. cbn. split_and!; try done.
  - intros n (b & Hn & Hbn)%Hnat. exists b. split; [by apply Hsym|by apply Hdef].
Qed.

(** C15: The start of the program. If the modules are loaded without a panic, fit in the
    address space, and one of them has an external function [main], then the process
    [main] steps has one thread, with id 0 and nothing decoded, whose task is to call
    that function on a 32-bit and a 64-bit zero; every builtin is found by its name;
    and the memory holds the initial values of every module. *)
Theorem main_starts (ms : list Module_) (t : Tables LazyFunc) (i : nat) (m : Module_) (f : Function) :
  forallb module_u64 ms -> 88064 + program_demand ms < 2 ^ 64 -> compile_modules ms booted = Ok t ->
  ms !! i = Some m -> (LinkExternal, f) ∈ mod_functions m -> fn_name f = "main" ->
  exists a v32 v64 p, start rest pool_new rng_new (native_funcs builtin_names) spawn_local ms = Ok p /\
    Value.new 32 0 = Ok v32 /\ Value.new 64 0 = Ok v64 /\
    lookup_symbol (External "main") (p_symbols p) = Ok (Global a) /\
    p_pool p = spawn_local 0 (LazyCompiled (Z.of_nat i) a f) [v32; v64] pool_new /\
    threads (p_sched p) = [(0, MkThread 0 (df_new 0) ∅ JoinPending)] /\
    (forall n, n ∈ builtin_names -> exists b, lookup_symbol (External n) (p_symbols p) = Ok (Global b) /\
      reverse_lookup_fun b (p_defs p) = Some (LazyNative n)) /\
    (forall (j : nat) m', ms !! j = Some m' -> module_loaded booted (tables_of p) (Z.of_nat j) m').
Proof.
  intros Hu Hd. destruct booted_ok as (Hb & Hok & Hmem & Hnext & Hnat). rewrite <- Hnext in Hd.
  exact (starts_from booted t builtin_names ms i m f Hb Hok Hmem Hnat Hu Hd).
Qed.
End Claims.

(** ** A program *)

#[local] Existing Instance bitvec_ref.
#[local] Existing Instance loader_view.

Definition sample_loaded : Tables LazyFunc :=
  match compile_modules [sample_module] booted with Ok t => t | Panic _ => tables_new end.

Lemma sample_loads : compile_modules [sample_module] booted = Ok sample_loaded.
Proof.
  assert (is_ok (compile_modules [sample_module] booted) = true) as H by (vm_compute; reflexivity).
  unfold sample_loaded. destruct (compile_modules [sample_module] booted); [done|discriminate H].
Qed.

(** The executor keeps a list of what it was given. *)
Definition keep (id : Z) (f : LazyFunc) (params : list Value) (l : list (Z * LazyFunc)) : list (Z * LazyFunc) := (id, f) :: l.

Lemma main_starts_witness :
  exists a p, start (X := unit) (R := unit) tt [] tt (native_funcs builtin_names) keep [sample_module] = Ok p /\
    lookup_symbol (External "main") (p_symbols p) = Ok (Global a) /\
    p_pool p = [(0, LazyCompiled 0 a main_func)].
Proof.
  destruct (main_starts (BVL := bitvec_ref_laws) (TL := loader_laws) (X := unit) (R := unit) tt [] tt keep [sample_module]
    sample_loaded 0 sample_module main_func) as (a & v32 & v64 & p & Hs & _ & _ & Ha & Hp & _).
  - reflexivity.
  - vm_compute. reflexivity.
  - exact sample_loads.
  - reflexivity.
  - by left.
  - reflexivity.
  - exists a, p. split; [exact Hs|]. split; [exact Ha|exact Hp].
Defined.
