(* ===== verification/Natives.v ===== *)
(** * Natives: the builtins as functions on values

    The native functions of [Native], [Pthread] and [Builtins] are decoding
    tasks: they make thunks for the memory they touch and wait for them. Here
    each has its meaning on values, a direct computation of [Sequential], and
    is shown to do what that computation does. This discharges what [Interp]
    and [Programs] ask of native functions ([natives_ok]). *)

From S2P Require Import Prelude RangeMap MemOrdering Layout Bitvec Value Memory Symbols Mutex Classes Operation.
From S2P Require Import Data Local Pipeline Process Flow Sequential Native Expr FuncCompiler Interp Pthread Builtins.

(** ** The memory helpers on values *)

Section Direct.
Context {BV : Bitvec} {X : Type}.
(** The thread that runs. *)
Variable th : Z.

Definition d_alloc (layout : Layout) : Direct X Z :=
  run* v := dcompute (alloc_compute th layout) th [] in
  dret (as_u64 v).

Definition d_free (ptr : Z) : Direct X unit :=
  run* _ := dcompute (free_compute th ptr) th [] in
  dret tt.

Definition d_load (p : Z) (layout : Layout) : Direct X Value :=
  run** a := addr p in
  run* a := dconstant a in
  run* v := dcompute (load_compute th layout ONone) th [a] in
  dret v.

Definition d_store (p : Z) (value : Value) : Direct X unit :=
  run** a := addr p in
  run* a := dconstant a in
  run** _ := Layout.from_bytes (zlen (as_bytes value)) 1 in
  run* v := dconstant value in
  run* _ := dcompute (store_compute th ONone) th [a; v] in
  dret tt.

(** The bytes of [n] bytes of memory, as one value. *)
Definition d_bytes (p n : Z) : Direct X Value :=
  run** layout := Layout.from_bytes n 1 in
  d_load p layout.

(** One byte. *)
Definition d_byte (p : Z) : Direct X Z :=
  run* v := d_bytes p 1 in
  run** c := unwrap_u 8 v in
  dret c.

Definition d_string (str : list Z) : Direct X Z :=
  run** layout := Layout.from_bytes (zlen (str ++ [0])) 1 in
  run* res := d_alloc layout in
  run** v := Value.from_bytes (str ++ [0]) (Layout.bits layout) in
  run* _ := d_store res v in
  dret res.

Fixpoint d_strlen (fuel : nat) (str i : Z) : Direct X Z :=
  match fuel with
  | O => dstuck
  | S fuel =>
      run** ptr := add64 str i in
      run* c := d_byte ptr in
      if c =? 0 then dret i else d_strlen fuel str (i + 1)
  end.

Definition d_get_string (fuel : nat) (str : Z) : Direct X (list Z) :=
  run* len := d_strlen fuel str 0 in
  run* v := d_bytes str len in
  run** str := from_utf8 (as_bytes v) in
  dret str.

Definition d_memcpy (dst src len : Z) : Direct X unit :=
  if 0 <? len then run* v := d_bytes src len in d_store dst v else dret tt.

Definition d_realloc (old : Z) (old_layout new_layout : Layout) : Direct X Z :=
  run* new := d_alloc new_layout in
  run** a := Layout.bytes new_layout in
  run** b := Layout.bytes old_layout in
  run* _ := d_memcpy new old (Z.min a b) in
  run* _ := d_free old in
  dret new.

(** A store of bytes, all the same. *)
Definition d_fill (p n byte : Z) : Direct X unit :=
  run** v := from_bytes_exact (replicate (Z.to_nat n) byte) in
  d_store p v.

(** ** The C library on values *)

Fixpoint d_memchr (n : nat) (ptr value i : Z) : Direct X Z :=
  match n with
  | O => dret 0
  | S n =>
      run** p := add64 ptr i in
      run* c := d_byte p in
      if c =? value then dret p else d_memchr n ptr value (i + 1)
  end.

Fixpoint d_memcmp (n : nat) (ptr1 ptr2 i : Z) : Direct X Z :=
  match n with
  | O => dret 0
  | S n =>
      run** p1 := add64 ptr1 i in
      run** p2 := add64 ptr2 i in
      run** l := Layout.from_bytes 1 1 in
      run* v1 := d_load p1 l in
      run* v2 := d_load p2 l in
      run** c1 := unwrap_u 8 v1 in
      run** c2 := unwrap_u 8 v2 in
      match c1 ?= c2 with
      | Lt => dret (-1)
      | Eq => d_memcmp n ptr1 ptr2 (i + 1)
      | Gt => dret 1
      end
  end.

Definition d_getenv (fuel : nat) (name : Z) : Direct X Z :=
  run* name := d_get_string fuel name in
  if bool_decide (name = RUST_BACKTRACE) then d_string full else dret 0.

Definition d_zero_byte (p : Z) : Direct X Z :=
  run** v := from_int 8 0 in
  run* _ := d_store p v in
  dret p.

Definition d_getcwd (buf size : Z) : Direct X Z :=
  if negb (buf =? 0) then if negb (size =? 0) then d_zero_byte buf else dret buf
  else
    run** layout := Layout.of_int 8 in
    run* res := d_alloc layout in
    d_zero_byte res.

Definition d_getentropy (buf len : Z) : Direct X Z :=
  run* _ := d_fill buf len 4 in dret 0.

Definition d_write (fd buf len : Z) : Direct X Z :=
  run* value := (if 0 <? len then d_bytes buf len else dlift from_unit) in
  run** _ := from_utf8 (as_bytes value) in
  dret len.

Definition d_open (fuel : nat) (path flags : Z) : Direct X Z :=
  run* _ := d_get_string fuel path in
  dret (-1).

Definition d_dlsym (symbols : SymbolTable) (fuel : nat) (handle name : Z) : Direct X Z :=
  run* name := d_get_string fuel name in
  run** d := lookup None (string_of_bytes name) symbols in
  run** a := unwrap (global d) in
  dret a.

Definition d_NSGetExecutablePath (buf len_ptr : Z) : Direct X Z :=
  run** l32 := Layout.of_int 32 in
  run* len := d_load len_ptr l32 in
  if as_u64 len <? zlen filename then dret 0
  else
    run** v := from_bytes_exact filename in
    run* _ := d_store buf v in
    run** n := from_int 32 (zlen filename) in
    run* _ := d_store len_ptr n in
    dret 0.

(** ** Allocation as Rust's global allocator asks for it *)

Definition d_rust_realloc (ptr old_size align new_size : Z) : Direct X Z :=
  run** old := Layout.from_bytes old_size align in
  run** new := Layout.from_bytes new_size align in
  d_realloc ptr old new.

Definition d_rust_dealloc (ptr size align : Z) : Direct X unit :=
  run** _ := Layout.from_bytes size align in
  d_free ptr.
End Direct.

(** ** Threads and unwinding on values *)

Section Direct.
Context {BV : Bitvec} {TV : TypeMapView} {X : Type} {HX : Host X}.
Variable th : Z.

Definition d_sync (f : Sync -> res (Z * Sync)) : Direct X Z :=
  dact (fun w => let! (r, s) := f (h_sync (w_rest w)) in
                 Ok (Some (r, MkWorld (w_memory w) (h_set_sync s (w_rest w))))).

(** Stuck while the thread is queued. *)
Definition d_wait (blocked : Sync -> bool) : Direct X Z :=
  dact (fun w => Ok (if blocked (h_sync (w_rest w)) then None else Some (0, w))).

Definition d_set_blocker : Direct X Z :=
  dact (fun w => if h_thread th (w_rest w) then Ok (Some (0, w)) else Panic UnwrapFailed).

Definition d_cas (address expected replacement : Z) (success failure : Ordering) : Direct X (Z * bool) :=
  run** c64 := tv_get (IntegerType 64) in
  run** c1 := tv_get (IntegerType 1) in
  run** output := tv_struc [c64; c1] false in
  run** layout := cv_layout c64 in
  run** a := addr address in
  run* a := dconstant a in
  run** e := from_int 64 expected in
  run* e := dconstant e in
  run** r := from_int 64 replacement in
  run* r := dconstant r in
  run* v := dcompute (cmpxchg_compute output layout success failure) th [a; e; r] in
  run** x := extract v output 0 in
  run** x := unwrap_u 64 x in
  run** b := extract v output 1 in
  run** b := unwrap_bool b in
  dret (x, b).

(** The word of a mutex, from one state to the other. *)
Definition d_swap (address from to : Z) (o : Ordering) : Direct X unit :=
  run* r := d_cas address from to o Relaxed in
  run** u := guard_ (bool_decide (r = (from, true))) AssertFailed in
  dret u.

Definition d_trylock (m : Z) : Direct X Z :=
  run* got := d_sync (fun s => Ok (Z.b2z (try_lock (mutex m s)).1, do_try_lock th m s)) in
  if got =? 1 then run* _ := d_swap m UNLOCKED LOCKED Acquire in dret 0 else dret 1.

Definition d_lock (m : Z) : Direct X Z :=
  run* _ := d_set_blocker in
  run* _ := d_sync (fun s => Ok (Z.b2z (lock th (mutex m s)).1, do_lock th m s)) in
  run* _ := d_wait (queued_at_mutex th m) in
  run* _ := d_set_blocker in
  run* _ := d_swap m UNLOCKED LOCKED Acquire in
  dret 0.

Definition d_unlock (m : Z) : Direct X Z :=
  run* _ := d_swap m LOCKED UNLOCKED Release in
  run* _ := d_sync (fun s => let! s := do_unlock th m s in Ok (0, s)) in
  dret 0.

Definition d_store_u64 (p x : Z) : Direct X Z :=
  run** v := from_int 64 x in
  run* _ := d_store th p v in
  dret 0.

Definition d_cond_wait (c m : Z) : Direct X Z :=
  run* _ := d_swap m LOCKED UNLOCKED Release in
  run* _ := d_set_blocker in
  run* _ := d_sync (fun s => let! s := wait th c m s in Ok (0, s)) in
  run* _ := d_wait (fun s => queued_at_condvar th c m s || queued_at_mutex th m s) in
  run* _ := d_set_blocker in
  run* _ := d_swap m UNLOCKED LOCKED Acquire in
  dret 0.

Definition d_attr_init (attr : Z) : Direct X Z :=
  run* _ := d_fill th attr 64 0xFF in dret 0.

Definition d_create (thread : Z) (attr : Value) (start_routine : Z) (arg : Value) : Direct X Z :=
  run* threadid := dact (fun w => let! (t, x) := h_add_thread start_routine [arg] (w_rest w) in
                                  Ok (Some (t, MkWorld (w_memory w) x))) in
  d_store_u64 thread threadid.

Definition d_join (thread retval : Z) : Direct X Z :=
  run* thread := dact (fun w => if h_thread thread (w_rest w) then Ok (Some (thread, w)) else Panic UnwrapFailed) in
  run* result := dact (fun w => match h_join thread (w_rest w) with
                                | JoinPending => Ok None
                                | JoinSent v => Ok (Some (v, w))
                                | JoinCanceled => Panic UnwrapFailed
                                end) in
  run** result := addr result in
  if negb (retval =? 0) then run* _ := d_store th retval result in dret 0 else dret 0.

(** What calling back does. *)
Variable d_invoke : Backtrace -> Z -> list Value -> Direct X (option Value).

Fixpoint d_frames (bt : Backtrace) (trace : Z) (trace_argument : Value) (frames : Backtrace) : Direct X (option unit) :=
  match frames with
  | [] => dret (Some tt)
  | frame :: frames =>
      run** ip1 := add64 (ip frame) 1 in
      run** bctx := addr ip1 in
      run* ret := d_invoke bt trace [bctx; trace_argument] in
      match ret with
      | None => dret None
      | Some _ => d_frames bt trace trace_argument frames
      end
  end.

Definition d_Backtrace (bt : Backtrace) (trace : Z) (trace_argument : Value) : Direct X (option Value) :=
  run* r := d_frames bt trace trace_argument bt in
  match r with
  | None => dret None
  | Some _ =>
      run** v := from_int 32 0 in
      run* v := dconstant v in
      dret (Some v)
  end.

Context {F : Type}.
Variables (symbols : SymbolTable) (defs : Definitions F) (debugloc : F -> option (list Z * Z)).

Definition d_unwrap_call (r : option Value) : Direct X Value := dlift (unwrap r).

Definition d_syminfo (bt : Backtrace) (state address : Value) (cb : Z) (error data : Value) : Direct X Z :=
  run** one := addr 1 in
  run** symbol := reverse_lookup (as_u64 address) symbols in
  run* name := d_string th (debug_symbol symbol) in
  run** name := addr name in
  run* r := d_invoke bt cb [data; address; name; address; one] in
  run* _ := d_unwrap_call r in
  dret 0.

Definition d_pcinfo (bt : Backtrace) (state pc : Value) (cb : Z) (error data : Value) : Direct X Z :=
  run** symbol := reverse_lookup (as_u64 pc) symbols in
  run** fun_ := unwrap (reverse_lookup_fun (as_u64 pc) defs) in
  run* symbol_name := d_string th (debug_symbol symbol) in
  run** symbol_name := addr symbol_name in
  run* filename := d_string th (default ([], 0) (debugloc fun_)).1 in
  run** filename := addr filename in
  run** line := from_int 32 (default ([], 0) (debugloc fun_)).2 in
  run* r := d_invoke bt cb [data; pc; filename; line; symbol_name] in
  run* _ := d_unwrap_call r in
  dret 0.
End Direct.

(** ** Tasks that do what these computations do *)

Definition eq_result {X A} (a b : A) (s : Seq X) : Prop := a = b.

(** Moves what is known to the latest state of the task. *)
Ltac to_later :=
  cbv beta in *;
  repeat match goal with
  | Hl : later ?known ?s ?s', H : ready ?known ?th ?consts ?s |- _ => apply (ready_later known th consts s s' Hl) in H
  | Hl : later ?known ?s ?s', H : live ?known ?s _ _ |- _ => apply (later_live _ _ _ Hl) in H
  | Hl : later ?known ?s ?s', H : Forall2 (live ?known ?s) _ _ |- _ => apply (later_lives _ _ _ _ _ Hl) in H
  end.

(** Brings the next action of the direct computation to the front. *)
Ltac flat :=
  cbv beta;
  repeat (match goal with
  | |- runs _ _ (dbind (dbind _ _) _) _ _ => apply runs_assoc
  | |- runs _ (abind (abind _ _) _) _ _ _ => apply runs_abind_assoc
  | |- runs ?k ?c (dbind (dret ?a) ?f) ?R ?s => change (runs k c (f a) R s)
  end; cbv beta).

(** After the first action: its results are related, the state is a later one. *)
Ltac next :=
  let a := fresh "a" in let b := fresh "b" in let H := fresh "H" in
  intros a b ? ? H; unfold eq_result in H; cbv beta in H;
  try (match type of H with a = b => subst b end); to_later.
Ltac ready_idle := match goal with H : ready _ _ _ ?s |- idle _ ?s => apply H end.
Ltac go_lift := flat; eapply runs_bind; [apply (runs_lift _ _ eq_result); [ready_idle|done]|]; next.
Ltac go_ret := flat; apply runs_ret; [ready_idle|].
Ltac go_thunk :=
  flat; unfold a_thunk, a_load, a_store;
  eapply runs_bind;
    [eapply runs_thunk; [eassumption|repeat (apply List.Forall2_cons; [eassumption|]); apply List.Forall2_nil|first [apply no_addr|apply addr_first]]|];
  next.

Create HintDb runs discriminated.
#[local] Hint Constants Opaque : runs.
(** A helper that has its lemma in [runs]. *)
Ltac go := flat; eapply runs_bind; [solve [eauto 3 with runs]|]; next.
(** The condition both sides branch on. *)
Ltac go_if :=
  match goal with
  | |- runs _ _ (match ?b with _ => _ end) _ _ => destruct b
  end.
(** A straight task. *)
Ltac task :=
  flat;
  first [ solve [eauto 3 with runs] | go_if; task | go_lift; task | go; task
        | solve [go_ret; done] | solve [apply runs_tail; [ready_idle|done]] | idtac ].

Section Runs.
Context {BV : Bitvec} {X : Type} (known : Z -> bool) (th : Z) (consts : Z -> option Value).
Implicit Types (s : Seq X) (flow : FlowCtx).

#[local] Abbreviation does c m := (forall s, ready known th consts s -> runs known c m eq_result s).
#[local] Hint Resolve runs_constant : runs.

Lemma runs_await t v s : ready known th consts s -> live known s t v -> runs known (await t) (dret v) eq_result s.
Proof. intros Hr Hv. apply (runs_awaited known t v Ret (dret v) eq_result s Hv). by go_ret. Qed.

Section Memory.
Variable flow : FlowCtx.
Hypothesis Hth : f_thread flow = th.

Lemma runs_alloc l : does (Flow.alloc flow l) (d_alloc th l).
Proof.
  intros s Hr. unfold Flow.alloc, d_alloc. rewrite Hth. go_thunk.
  eapply runs_awaited; [eassumption|]. by go_ret.
Qed.

Lemma runs_free p l : does (Flow.free flow p l) (d_free th p).
Proof.
  intros s Hr. unfold Flow.free, d_free. rewrite Hth. go_thunk.
  eapply runs_awaited; [eassumption|]. by go_ret.
Qed.

Lemma runs_load p l : does (Flow.load flow p l) (d_load th p l).
Proof.
  intros s Hr. unfold Flow.load, d_load. go_lift. go. unfold a_load. rewrite Hth. go_thunk.
  by apply runs_await.
Qed.

Lemma runs_store p v : does (Flow.store flow p v) (d_store th p v).
Proof.
  intros s Hr. unfold Flow.store, d_store. go_lift. go. go_lift. go. unfold a_store. rewrite Hth. go_thunk.
  eapply runs_awaited; [eassumption|]. by go_ret.
Qed.

#[local] Hint Resolve runs_alloc runs_free runs_load runs_store : runs.

Lemma runs_string str : does (Flow.string flow str) (d_string th str).
Proof. intros s Hr. unfold Flow.string, d_string. task. Qed.

Lemma runs_strlen fuel str i : does (Flow.strlen_from fuel flow str i) (d_strlen th fuel str i).
Proof.
  revert i. induction fuel as [|fuel IH]; intros i s Hr; cbn [Flow.strlen_from d_strlen]; [done|].
  unfold d_byte, d_bytes. task.
Qed.
#[local] Hint Resolve runs_string runs_strlen : runs.

Lemma runs_get_string fuel str : does (Flow.get_string fuel flow str) (d_get_string th fuel str).
Proof. intros s Hr. unfold Flow.get_string, Flow.strlen, d_get_string, d_bytes. task. Qed.

Lemma runs_memcpy dst src len : does (Flow.memcpy flow dst src len) (d_memcpy th dst src len).
Proof. intros s Hr. unfold Flow.memcpy, d_memcpy, d_bytes. task. Qed.
#[local] Hint Resolve runs_get_string runs_memcpy : runs.

Lemma runs_realloc old l1 l2 : does (Flow.realloc flow old l1 l2) (d_realloc th old l1 l2).
Proof. intros s Hr. unfold Flow.realloc, d_realloc. task. Qed.
#[local] Hint Resolve runs_realloc : runs.

(** *** libc.rs and apple.rs *)

Lemma runs_memset p byte n vol : does (llvm_memset flow p byte n vol) (d_fill th p n byte).
Proof. intros s Hr. unfold llvm_memset, d_fill. task. Qed.

Lemma runs_memchr n p v i : does (memchr_from n flow p v i) (d_memchr th n p v i).
Proof.
  revert i. induction n as [|n IH]; intros i s Hr; cbn [memchr_from d_memchr]; [by go_ret|].
  unfold d_byte, d_bytes. task.
Qed.

Lemma runs_memcmp n p1 p2 i : does (memcmp_from n flow p1 p2 i) (d_memcmp th n p1 p2 i).
Proof.
  revert i. induction n as [|n IH]; intros i s Hr; cbn [memcmp_from d_memcmp]; [by go_ret|].
  task.
Qed.
#[local] Hint Resolve runs_memset runs_memchr runs_memcmp : runs.

Lemma runs_getenv fuel name : does (getenv fuel flow name) (d_getenv th fuel name).
Proof. intros s Hr. unfold getenv, d_getenv. task. Qed.

Lemma runs_getcwd buf size : does (getcwd flow buf size) (d_getcwd th buf size).
Proof. intros s Hr. unfold getcwd, d_getcwd, d_zero_byte. task. Qed.

Lemma runs_getentropy buf len : does (getentropy flow buf len) (d_getentropy th buf len).
Proof. intros s Hr. unfold getentropy, d_getentropy, d_fill. task. Qed.

Lemma runs_write fd buf len : does (write flow fd buf len) (d_write th fd buf len).
Proof.
  intros s Hr. unfold write, d_write. apply (runs_bind _ _ _ eq_result).
  - destruct (0 <? len); [unfold d_bytes; task|apply runs_lift; [ready_idle|done]].
  - next. task.
Qed.

Lemma runs_open fuel path flags : does (open fuel flow path flags) (d_open th fuel path flags).
Proof. intros s Hr. unfold open, d_open. task. Qed.

Lemma runs_dlsym symbols fuel handle name : does (dlsym symbols fuel flow handle name) (d_dlsym th symbols fuel handle name).
Proof. intros s Hr. unfold dlsym, d_dlsym. task. Qed.

Lemma runs_executable_path buf len : does (NSGetExecutablePath flow buf len) (d_NSGetExecutablePath th buf len).
Proof. intros s Hr. unfold NSGetExecutablePath, d_NSGetExecutablePath. task. Qed.

(** *** rust.rs *)

Lemma runs_rust_realloc p old align new : does (rust_realloc flow p old align new) (d_rust_realloc th p old align new).
Proof. intros s Hr. unfold rust_realloc, d_rust_realloc. task. Qed.

Lemma runs_rust_dealloc p size align : does (rust_dealloc flow p size align) (d_rust_dealloc th p size align).
Proof. intros s Hr. unfold rust_dealloc, d_rust_dealloc. task. Qed.
End Memory.
#[local] Hint Resolve runs_await runs_alloc runs_load runs_store runs_string : runs.

(** *** pthread.rs *)

Section Threads.
Context {TV : TypeMapView} {HX : Host X}.
Variable flow : FlowCtx.
Hypothesis Hth : f_thread flow = th.

Lemma runs_action f : does (Act f Ret) (dact f).
Proof. intros s Hr. by apply runs_act, Hr. Qed.

Lemma runs_internal_set_tracing b : does (internal_set_tracing flow b) (dret tt).
Proof.
  intros s Hr. eapply runs_weaken; [apply runs_set_tracing, Hr|]. by intros [] [].
Qed.

Lemma runs_cas a e r o1 o2 : does (cas flow a e r o1 o2) (d_cas th a e r o1 o2).
Proof.
  intros s Hr. unfold cas, d_cas, cmpxchg_u64. do 5 go_lift. go. go_lift. go. go_lift. go.
  unfold cmpxchg. go_thunk. eapply runs_awaited; [eassumption|]. task.
Qed.
#[local] Hint Resolve runs_cas : runs.

Lemma runs_acquire m : does (mutex_lock_acquire flow m) (d_swap th m UNLOCKED LOCKED Acquire).
Proof. intros s Hr. unfold mutex_lock_acquire, d_swap. task. Qed.

Lemma runs_release m : does (mutex_lock_release flow m) (d_swap th m LOCKED UNLOCKED Release).
Proof. intros s Hr. unfold mutex_lock_release, d_swap. task. Qed.

Lemma runs_sync f : does (sync_act f) (d_sync f).
Proof. apply runs_action. Qed.

Lemma runs_wait_while b : does (wait_while b) (d_wait b).
Proof. apply runs_action. Qed.

Lemma runs_set_blocker : does (set_blocker flow) (d_set_blocker th).
Proof. unfold set_blocker, d_set_blocker. rewrite Hth. apply runs_action. Qed.
#[local] Hint Resolve runs_acquire runs_release runs_sync runs_wait_while runs_set_blocker runs_internal_set_tracing runs_action : runs.

Lemma runs_trylock m : does (pthread_mutex_trylock flow m) (d_trylock th m).
Proof. intros s Hr. unfold pthread_mutex_trylock, try_lock_begin, d_trylock. rewrite Hth. task. Qed.

Lemma runs_lock m : does (pthread_mutex_lock flow m) (d_lock th m).
Proof.
  intros s Hr. unfold pthread_mutex_lock, lock_begin, lock_end, lock_wait, d_lock. rewrite Hth. task.
Qed.

Lemma runs_unlock m : does (pthread_mutex_unlock flow m) (d_unlock th m).
Proof. intros s Hr. unfold pthread_mutex_unlock, unlock_end, d_unlock. rewrite Hth. task. Qed.

Lemma runs_mutex_init m attr : does (pthread_mutex_init flow m attr) (d_store_u64 th m UNLOCKED).
Proof. intros s Hr. unfold pthread_mutex_init, d_store_u64. task. Qed.

Lemma runs_cond_wait c m : does (pthread_cond_wait flow c m) (d_cond_wait th c m).
Proof.
  intros s Hr. unfold pthread_cond_wait, wait_start, wait_begin, wait_end, wait_wait, d_cond_wait. rewrite Hth. task.
Qed.

Lemma runs_attr_init a : does (pthread_attr_init flow a) (d_attr_init th a).
Proof. intros s Hr. unfold pthread_attr_init, d_attr_init, d_fill. task. Qed.

Lemma runs_create t attr f arg : does (pthread_create flow t attr f arg) (d_create th t attr f arg).
Proof. intros s Hr. unfold pthread_create, spawn, d_create, d_store_u64. task. Qed.

Lemma runs_join t r : does (pthread_join flow t r) (d_join th t r).
Proof. intros s Hr. unfold pthread_join, find_thread, join, d_join. task. Qed.
End Threads.

(** *** unwind.rs *)

Section Unwind.
Variables (invoke : FlowCtx -> Z -> list Value -> Async X (option Value))
  (d_invoke : Backtrace -> Z -> list Value -> Direct X (option Value)).
Hypothesis Hinvoke : forall flow a vs s, f_thread flow = th -> ready known th consts s ->
  runs known (invoke flow a vs) (d_invoke (f_backtrace flow) a vs) eq_result s.
Variable flow : FlowCtx.
Hypothesis Hth : f_thread flow = th.
#[local] Hint Resolve Hinvoke : runs.

Lemma runs_frames trace arg frames :
  does (backtrace_loop invoke flow trace arg frames) (d_frames d_invoke (f_backtrace flow) trace arg frames).
Proof.
  induction frames as [|fr frames IH]; intros s Hr; cbn [backtrace_loop d_frames]; [by go_ret|]. task.
Qed.

Lemma runs_Backtrace trace arg s : ready known th consts s ->
  runs known (Unwind_Backtrace invoke flow trace arg) (d_Backtrace d_invoke (f_backtrace flow) trace arg)
    (value_result known) s.
Proof.
  intros Hr. unfold Unwind_Backtrace, d_Backtrace. eapply runs_bind; [by apply runs_frames|]; next.
  match goal with |- context [match ?r with Some _ => _ | None => _ end] => destruct r end; [|by go_ret].
  go_lift. go. by go_ret.
Qed.

Lemma runs_unwrap_call r : does (unwrap_call r) (d_unwrap_call r).
Proof. intros s Hr. destruct r; [by go_ret|done]. Qed.
#[local] Hint Resolve runs_unwrap_call : runs.

Context {F : Type}.
Variables (symbols : SymbolTable) (defs : Definitions F) (debugloc : F -> option (list Z * Z)).

Lemma runs_syminfo state address cb error data :
  does (rdos_backtrace_syminfo symbols invoke flow state address cb error data)
    (d_syminfo th d_invoke symbols (f_backtrace flow) state address cb error data).
Proof. intros s Hr. unfold rdos_backtrace_syminfo, d_syminfo. task. Qed.

Lemma runs_pcinfo state pc cb error data :
  does (rdos_backtrace_pcinfo symbols defs invoke debugloc flow state pc cb error data)
    (d_pcinfo th d_invoke symbols defs debugloc (f_backtrace flow) state pc cb error data).
Proof.
  intros s Hr. unfold rdos_backtrace_pcinfo, d_pcinfo. do 2 go_lift. go. go_lift.
  destruct (default ([], 0) (debugloc _)) as [file line]. cbn [fst snd]. task.
Qed.
End Unwind.
End Runs.

(** ** Native functions as functions of the program *)

Section Glue.
Context {BV : Bitvec} {X : Type}.

(** A native function on values; it may look at the call stack. *)
Definition DCall : Type := Backtrace -> list Value -> Direct X (option Value).

Definition d_native_bomb : DCall := fun _ _ => dlift (Panic Todo).

Definition d_native_comp (th : Z) (c : Compute X) : DCall := fun _ vs =>
  run* v := dcompute c th vs in
  dret (Some v).

(** The arguments of a tuple of [ts]; too many are an error. *)
Definition d_args {A} (ts : list ArgType) (f : args_fn ts (Direct X A)) (vs : list Value) : Direct X A :=
  if (length vs <=? length ts)%nat then run** r := from_thunks 0 ts vs f in r else dlift (Panic Explicit).

Definition d_native_fn {A} (ts : list ArgType) (f : Backtrace -> args_fn ts (Direct X A)) (out : A -> res Value) : DCall :=
  fun bt vs =>
  run* r := d_args ts (f bt) vs in
  run** v := out r in
  run* v := dconstant v in
  dret (Some v).

(** A function that gives a thunk, or the error. *)
Definition d_native_thunk (ts : list ArgType) (f : Backtrace -> args_fn ts (Direct X (option Value))) : DCall :=
  fun bt vs => d_args ts (f bt) vs.

Definition d_unit (_ : unit) : res Value := from_unit.

Section Rel.
Context (known : Z -> bool) (th : Z) (consts : Z -> option Value).

Definition call_rel (c : Call X) (d : DCall) : Prop := forall flow ts vs s,
  f_thread flow = th -> ready known th consts s -> Forall2 (live known s) ts vs ->
  runs known (c flow ts) (d (f_backtrace flow) vs) (value_result known) s.

(** Functions of tuples, at equal arguments. *)
Fixpoint args_rel {R R'} (P : R -> R' -> Prop) (ts : list ArgType) : args_fn ts R -> args_fn ts R' -> Prop :=
  match ts return args_fn ts R -> args_fn ts R' -> Prop with
  | [] => P
  | t :: ts => fun f g => forall a, args_rel P ts (f a) (g a)
  end.

Lemma from_thunks_rel {R R'} (P : R -> R' -> Prop) i ts vs f g :
  args_rel P ts f g ->
  match from_thunks i ts vs f, from_thunks i ts vs g with
  | Ok r, Ok r' => P r r' | Panic e, Panic e' => e = e' | _, _ => False
  end.
Proof.
  revert i. induction ts as [|t ts IH]; intros i H; cbn [from_thunks]; [exact H|].
  destruct (index vs i) as [v|]; cbn [bind]; [|done]. destruct (from_thunk t v) as [a|]; cbn [bind]; [|done].
  apply IH, H.
Qed.

Lemma runs_awaits n ts vs (s : Seq X) :
  ready known th consts s -> Forall2 (live known s) ts vs ->
  runs (X := X) known (awaits n ts) (dret (if (length vs <=? n)%nat then Some vs else None)) eq_result s.
Proof.
  intros Hr HF. revert n. induction HF as [|t v ts vs Ht HF IH]; intros [|n]; cbn [awaits length]; [by go_ret..|].
  eapply runs_awaited; [exact Ht|].
  apply (runs_ext known _ (run* r := dret (if (length vs <=? n)%nat then Some vs else None) in
    dret (match r with Some vs => Some (v :: vs) | None => None end))).
  { cbn. by destruct (length vs <=? n)%nat. }
  eapply runs_bind; [apply IH|]. next. by go_ret.
Qed.

(** Converting the arguments, and the function. *)
Lemma runs_args {A A'} (R : A -> A' -> Seq X -> Prop) ts f g targs vs s {B B'}
    (k : A -> Async X B) (m : A' -> Direct X B') (R' : B -> B' -> Seq X -> Prop) :
  ready known th consts s -> Forall2 (live known s) targs vs ->
  args_rel (fun c d => forall s, ready known th consts s -> runs known c d R s) ts f g ->
  (forall a a' s', later known s s' -> R a a' s' -> runs known (k a) (m a') R' s') ->
  runs known (let* argvs := from_thunks_impl ts f targs in
              match argvs with None => Raise Explicit | Some out => let* out := out in k out end)
    (run* r := d_args ts g vs in m r) R' s.
Proof.
  intros Hr HF Hrel Hk. unfold from_thunks_impl, d_args. flat.
  apply (runs_ext known _ (run* o := dret (if (length vs <=? length ts)%nat then Some vs else None) in
    run* r := (match o with Some vs => run** r := from_thunks 0 ts vs g in r | None => dlift (Panic Explicit) end) in m r)).
  { cbn. by destruct (length vs <=? length ts)%nat. }
  eapply runs_bind; [by apply runs_awaits|]. next. destruct a as [us|]; [|done].
  pose proof (from_thunks_rel _ 0 ts us _ _ Hrel) as Hc.
  destruct (from_thunks 0 ts us f) as [c|e], (from_thunks 0 ts us g) as [d|e']; try done; [|by subst].
  cbn [lift abind]. apply (runs_ext known _ (run* r := d in m r)); [done|]. eapply runs_bind; [by apply Hc|]. intros a a' s2 Hl Ha. apply Hk; [by eapply later_trans|done].
Qed.

Lemma comp_ok c : call_rel (native_comp c) (d_native_comp th c).
Proof. intros flow ts vs s Hth Hr HF. unfold native_comp, d_native_comp. eapply runs_bind; [by eapply runs_thunk; [..|apply no_addr]|]; next. by go_ret. Qed.

Lemma bomb_ok : call_rel native_bomb d_native_bomb.
Proof. done. Qed.

Lemma fn_ok {A} ts (f : FlowCtx -> args_fn ts (Async X A)) g to_thunk out :
  (forall flow, f_thread flow = th ->
     args_rel (fun c d => forall s, ready known th consts s -> runs known c d eq_result s) ts (f flow) (g (f_backtrace flow))) ->
  (forall a, to_thunk a = out_value (out a)) ->
  call_rel (native_fn ts f to_thunk) (d_native_fn ts g out).
Proof.
  intros Hf Hout flow targs vs s Hth Hr HF. unfold native_fn, d_native_fn.
  eapply runs_args; [done|done|by apply Hf|]. next. rewrite Hout. unfold out_value.
  destruct (out a) as [v|e]; [|done]. cbn [bind lift abind].
  apply (runs_ext known _ (run* v := dconstant v in dret (Some v))); [done|].
  eapply runs_bind; [by eapply runs_constant|]. next. by go_ret.
Qed.

Lemma thunk_ok ts (f : FlowCtx -> args_fn ts (Async X (option Z))) g :
  (forall flow, f_thread flow = th ->
     args_rel (fun c d => forall s, ready known th consts s -> runs known c d (value_result known) s) ts
       (f flow) (g (f_backtrace flow))) ->
  call_rel (native_fn ts f out_thunk) (d_native_thunk ts g).
Proof.
  intros Hf flow targs vs s Hth Hr HF. unfold native_fn, d_native_thunk.
  apply (runs_ext known _ (run* r := d_args ts (g (f_backtrace flow)) vs in dret r)).
  { unfold dbind, dret. by destruct (d_args _ _ _ _) as [[[r d]|]|]. }
  eapply runs_args; [done|done|by apply Hf|]. intros a a' s' Hl Ha. to_later. destruct a as [t|], a' as [v|]; try done; by go_ret.
Qed.
End Rel.
End Glue.
Arguments DCall X : clear implicits.

(** ** The builtins on values *)

Section Builtins.
Context {BV : Bitvec} {TV : TypeMapView} {X : Type} {HX : Host X}.
Context {F : Type}.
Variables (fuel : nat) (page_size : Z) (symbols : SymbolTable) (defs : Definitions F).
Variable debugloc : F -> option (list Z * Z).
Variable th : Z.
Variable d_invoke : Backtrace -> Z -> list Value -> Direct X (option Value).

Definition d_bomb (name : String.string) : String.string * DCall X := (name, d_native_bomb).
Definition d_comp (f : list Value -> res Value) : DCall X := d_native_comp th (pure_comp f).
(** A function that does not look at the call stack. *)
Definition d_fn {A} (ts : list ArgType) (f : args_fn ts (Direct X A)) (out : A -> res Value) : DCall X :=
  d_native_fn ts (fun _ => f) out.

Definition d_pthread_functions : list (String.string * DCall X) := [
  ("pthread_mutex_trylock", d_fn [AAddr] (d_trylock th) (from_int 32));
  ("pthread_mutex_lock", d_fn [AAddr] (d_lock th) (from_int 32));
  ("pthread_mutex_unlock", d_fn [AAddr] (d_unlock th) (from_int 32));
  ("pthread_mutex_init", d_fn [AAddr; AAddr] (fun m _ => d_store_u64 th m UNLOCKED) (from_int 32));
  ("pthread_cond_wait", d_fn [AAddr; AAddr] (d_cond_wait th) (from_int 32));
  ("pthread_rwlock_rdlock", d_fn [AAddr] (fun _ => dlift (Panic Explicit)) (from_int 32));
  ("pthread_rwlock_unlock", d_fn [AAddr] (fun _ => dlift (Panic Explicit)) (from_int 32));
  ("pthread_mutexattr_init", d_fn [AAddr] (fun _ => dret 0) (from_int 32));
  ("pthread_mutexattr_settype", d_fn [AAddr; AU 32] (fun _ _ => dret 0) (from_int 32));
  ("pthread_mutexattr_destroy", d_fn [AAddr] (fun _ => dret 0) (from_int 32));
  ("pthread_mutex_destroy", d_fn [AAddr] (fun _ => dret 0) (from_int 32));
  ("pthread_cond_broadcast", d_fn [AAddr] (fun c => d_sync (fun s => Ok (0, notify_all c s))) (from_int 32));
  ("pthread_cond_destroy", d_fn [AAddr] (fun _ => dret 0) (from_int 32));
  ("pthread_self", d_fn [] (dret th) (from_int 64));
  ("pthread_get_stackaddr_np", d_fn [AAddr] (fun _ => dret 0) addr);
  ("pthread_get_stacksize_np", d_fn [AAddr] (fun _ => dret 0) addr);
  ("pthread_attr_init", d_fn [AAddr] (d_attr_init th) (from_int 32));
  ("pthread_attr_setstacksize", d_fn [AAddr; AAddr] (fun _ _ => dret 0) (from_int 32));
  ("pthread_create", d_fn [AAddr; AValue; AAddr; AValue] (d_create th) (from_int 32));
  ("pthread_attr_destroy", d_fn [AAddr] (fun _ => dret 0) (from_int 32));
  ("pthread_join", d_fn [AU 64; AAddr] (d_join th) (from_int 32));
  ("pthread_detach", d_fn [AU 64] (fun _ => dret 0) (from_int 32));
  ("pthread_cond_signal", d_fn [AAddr] (fun c => d_sync (fun s => Ok (0, notify c s))) (from_int 32))
].

Definition d_llvm_functions : list (String.string * DCall X) := [
  ("llvm.dbg.declare", d_comp (native [AValue; AValue; AValue] (fun _ _ _ => from_unit)));
  ("llvm.dbg.value", d_comp (native [AValue; AValue; AValue] (fun _ _ _ => from_unit)));
  ("llvm.expect.i1", d_comp llvm_expect_i1);
  ("llvm.lifetime.start.p0i8", d_comp (native [AValue; AValue] (fun _ _ => from_unit)));
  ("llvm.lifetime.end.p0i8", d_comp (native [AValue; AValue] (fun _ _ => from_unit)));
  ("llvm.memcpy.p0i8.p0i8.i64", d_fn [AAddr; AAddr; AAddr; ABool] (fun dst src len _ => d_memcpy th dst src len) d_unit);
  ("llvm.memmove.p0i8.p0i8.i64", d_fn [AAddr; AAddr; AAddr] (d_memcpy th) d_unit);
  ("llvm.ctpop.i64", d_comp llvm_ctpop_i64);
  ("llvm.assume", d_comp llvm_assume);
  ("llvm.trap", d_comp llvm_trap);
  ("llvm.memset.p0i8.i64", d_fn [AAddr; AU 8; AAddr; ABool] (fun p byte len _ => d_fill th p len byte) d_unit);
  ("llvm.fshl.i64", d_comp llvm_fshl_i64)
].

Definition d_overflow_binops (uop sop : String.string) (op : ArithOp) : list (String.string * DCall X) :=
  map (fun t => (llvm_name uop ".with.overflow." t.2, d_comp (overflow_imp op false t.1))) int_types ++
  map (fun t => (llvm_name sop ".with.overflow." t.2, d_comp (overflow_imp op true t.1))) int_types.

Definition d_sat_binops (uop sop : String.string) : list (String.string * DCall X) :=
  map (fun t => (llvm_name uop "." t.2, d_comp (sat_binop false t.1))) int_types ++
  map (fun t => (llvm_name sop "." t.2, d_comp (sat_binop true t.1))) int_types.

Definition d_unops (op : String.string) (method : Z -> Z -> Z) : list (String.string * DCall X) :=
  map (fun t => (llvm_name op "." t.2, d_comp (unop method t.1))) int_types.

Definition d_llvm_builtins : list (String.string * DCall X) :=
  d_llvm_functions ++ d_overflow_binops "uadd" "sadd" OpAdd ++ d_overflow_binops "umul" "smul" OpMul ++
  d_overflow_binops "usub" "ssub" OpSub ++ d_sat_binops "usub.sat" "ssub.sat" ++
  d_unops "cttz" trailing_zeros ++ d_unops "ctlz" leading_zeros ++ map d_bomb llvm_bombs.

Definition d_libc_functions : list (String.string * DCall X) := [
  ("signal", d_comp (native [AU 32; AAddr] (fun sig handler => addr (signal sig handler))));
  ("sysconf", d_comp (native [AU 32] (sysconf page_size)));
  ("write", d_fn [AU 32; AAddr; AAddr] (d_write th) addr);
  ("mmap", d_fn [AAddr; AAddr; AU 32; AU 32; AU 32; AAddr] (fun p _ _ _ _ _ => dret p) addr);
  ("mprotect", d_fn [AAddr; AAddr; AU 32] (fun _ _ _ => dret 0) (from_int 32));
  ("sigaction", d_comp (native [AU 32; AAddr; AAddr] (fun signum act oldact => from_int 32 (sigaction signum act oldact))));
  ("sigaltstack", d_comp (native [AAddr; AAddr] (fun ss old_ss => from_int 32 (sigaltstack ss old_ss))));
  ("memchr", d_fn [AAddr; AU 32; AAddr] (fun p v n => d_memchr th (Z.to_nat n) p v 0) addr);
  ("strlen", d_fn [AAddr] (fun p => d_strlen th fuel p 0) addr);
  ("memcmp", d_fn [AAddr; AAddr; AAddr] (fun p1 p2 n => d_memcmp th (Z.to_nat n) p1 p2 0) (from_int 32));
  ("getenv", d_fn [AAddr] (d_getenv th fuel) addr);
  ("getcwd", d_fn [AAddr; AAddr] (d_getcwd th) addr);
  ("dladdr", d_comp (native [AAddr; AAddr] (fun address info => from_int 32 (dladdr address info))));
  ("open", d_fn [AAddr; AU 32] (d_open th fuel) (from_int 32));
  ("dlsym", d_fn [AAddr; AAddr] (d_dlsym th symbols fuel) addr);
  ("getentropy", d_fn [AAddr; AAddr] (d_getentropy th) (from_int 32));
  ("strerror_r", d_fn [AU 32; AAddr; AAddr] (fun _ _ _ => dret (-1)) (from_int 32))
].

Definition d_apple_functions : list (String.string * DCall X) := [
  ("_tlv_atexit", d_comp tlv_atexit);
  ("_NSGetExecutablePath", d_fn [AAddr; AAddr] (d_NSGetExecutablePath th) (from_int 32))
].

Definition d_rust_functions : list (String.string * DCall X) := [
  ("__rust_alloc", d_native_comp th rust_alloc);
  ("__rust_realloc", d_fn [AAddr; AAddr; AAddr; AAddr] (d_rust_realloc th) addr);
  ("__rust_dealloc", d_fn [AAddr; AAddr; AAddr] (d_rust_dealloc th) d_unit)
].

Definition d_unwind_functions : list (String.string * DCall X) := [
  ("_Unwind_RaiseException", d_native_thunk [AAddr] (fun _ _ => dret None));
  ("_Unwind_Backtrace", d_native_thunk [AAddr; AValue] (d_Backtrace d_invoke));
  ("_Unwind_GetTextRelBase", d_fn [AAddr] (fun _ => dret 0) addr);
  ("_Unwind_GetDataRelBase", d_fn [AAddr] (fun _ => dret 0) addr);
  ("_Unwind_GetLanguageSpecificData", d_fn [AAddr; AAddr] (fun _ _ => dret 0) addr);
  ("_Unwind_GetIPInfo", d_fn [AAddr; AAddr] (fun _ _ => dret 0) addr);
  ("_Unwind_GetRegionStart", d_fn [AAddr; AAddr] (fun _ _ => dret 0) addr);
  ("_Unwind_SetGR", d_fn [AAddr; AU 32; AU 32] (fun _ _ _ => dret tt) d_unit);
  ("_Unwind_SetIP", d_fn [AAddr; AAddr] (fun _ _ => dret tt) d_unit);
  ("_Unwind_GetIP", d_fn [AAddr] dret addr);
  ("__rdos_backtrace_create_state", d_fn [AValue; AValue; AValue; AValue] (fun _ _ _ _ => dret 0xCAFEBABE) addr);
  ("__rdos_backtrace_syminfo", d_native_fn [AValue; AValue; AAddr; AValue; AValue] (d_syminfo th d_invoke symbols) (from_int 32));
  ("__rdos_backtrace_pcinfo", d_native_fn [AValue; AValue; AAddr; AValue; AValue] (d_pcinfo th d_invoke symbols defs debugloc) (from_int 32))
].

(** Tracing chooses what is shown of a race, and changes nothing else. *)
Definition d_internal_functions : list (String.string * DCall X) := [
  ("set_tracing", d_fn [ABool] (fun _ => dret tt) d_unit)
].

Definition d_builtins : list (String.string * DCall X) :=
  (d_pthread_functions ++ map d_bomb pthread_bombs) ++ d_llvm_builtins ++
  (d_libc_functions ++ map d_bomb libc_bombs) ++ (d_apple_functions ++ map d_bomb apple_bombs) ++
  (d_rust_functions ++ map d_bomb rust_bombs) ++ d_unwind_functions ++ d_internal_functions.
End Builtins.

(** The function of a name, in a list of builtins. *)
Fixpoint named {A} (n : String.string) (l : list (String.string * A)) : option A :=
  match l with
  | [] => None
  | (m, a) :: l => if String.eqb m n then Some a else named n l
  end.

(** ** The native functions of the interpreter *)

Section Natives.
Context {BV : Bitvec} {TV : TypeMapView} {X : Type} {HX : Host X}.
Variables (fuel : nat) (page_size : Z) (symbols : SymbolTable) (defs : Definitions Func).
Variable debugloc : Func -> option (list Z * Z).

(** A [Func] that is native is one of the builtins. *)
Definition natives (n : String.string) (invoke : FlowCtx -> Z -> list Value -> Async X (option Value)) : Call X :=
  match named n (builtins fuel page_size symbols defs invoke debugloc) with
  | Some c => c
  | None => fun _ _ => Raise UnreachableCode
  end.

Definition natives_direct (th : Z) (n : String.string)
    (d_invoke : Backtrace -> Z -> list Value -> Direct X (option Value)) : DCall X :=
  match named n (d_builtins fuel page_size symbols defs debugloc th d_invoke) with
  | Some d => d
  | None => fun _ _ => dlift (Panic UnreachableCode)
  end.

Section Rel.
Context (known : Z -> bool) (th : Z) (consts : Z -> option Value).
Variables (invoke : FlowCtx -> Z -> list Value -> Async X (option Value))
  (d_invoke : Backtrace -> Z -> list Value -> Direct X (option Value)).
Hypothesis Hinvoke : forall flow a vs s, f_thread flow = th -> ready known th consts s ->
  runs known (invoke flow a vs) (d_invoke (f_backtrace flow) a vs) eq_result s.

Definition entry_rel (p : String.string * Call X) (q : String.string * DCall X) : Prop :=
  p.1 = q.1 /\ call_rel known th consts p.2 q.2.

Lemma bombs_rel l : Forall2 entry_rel (map bomb l) (map d_bomb l).
Proof. induction l; constructor; [split; [done|apply bomb_ok]|done]. Qed.

Lemma comps_rel {T} (name : T -> String.string) (f : T -> list Value -> res Value) l :
  Forall2 entry_rel (map (fun t => (name t, native_comp (pure_comp (f t)))) l) (map (fun t => (name t, d_comp th (f t))) l).
Proof. induction l; constructor; [split; [done|apply comp_ok]|done]. Qed.

#[local] Hint Resolve runs_trylock runs_lock runs_unlock runs_mutex_init runs_cond_wait runs_attr_init runs_create
  runs_join runs_sync runs_memcpy runs_memset runs_write runs_memchr runs_strlen runs_memcmp runs_getenv runs_getcwd
  runs_open runs_dlsym runs_getentropy runs_executable_path runs_rust_realloc runs_rust_dealloc runs_syminfo
  runs_pcinfo runs_Backtrace runs_internal_set_tracing : runs.

(** One builtin. *)
Ltac entry :=
  split; [done|];
  first [ apply comp_ok
        | apply fn_ok; [|done]; intros flow Hflow; cbn [args_rel arg_sem]; intros;
          cbv beta delta [pthread_cond_broadcast pthread_cond_signal llvm_memcpy llvm_memmove memchr memcmp Native.strlen Flow.strlen];
          first [solve [eauto with runs]|by go_ret|done|rewrite Hflow; by go_ret]
        | apply thunk_ok; intros flow Hflow; cbn [args_rel arg_sem]; intros; first [solve [eauto with runs]|by go_ret] ].

Ltac entries := repeat (apply List.Forall2_cons; [entry|]); apply List.Forall2_nil.

Lemma pthread_rel : Forall2 entry_rel pthread_functions (d_pthread_functions th).
Proof. entries. Qed.

Lemma llvm_rel : Forall2 entry_rel llvm_functions (d_llvm_functions th).
Proof. entries. Qed.

Lemma libc_rel : Forall2 entry_rel (libc_functions fuel page_size symbols) (d_libc_functions fuel page_size symbols th).
Proof. entries. Qed.

Lemma apple_rel : Forall2 entry_rel apple_functions (d_apple_functions th).
Proof. entries. Qed.

Lemma rust_rel : Forall2 entry_rel rust_functions (d_rust_functions th).
Proof. entries. Qed.

Lemma unwind_rel : Forall2 entry_rel (unwind_functions symbols defs invoke debugloc)
  (d_unwind_functions symbols defs debugloc th d_invoke).
Proof. entries. Qed.

Lemma internal_rel : Forall2 entry_rel internal_functions d_internal_functions.
Proof. entries. Qed.

Lemma llvm_builtins_rel : Forall2 entry_rel llvm_builtins (d_llvm_builtins th).
Proof.
  unfold llvm_builtins, d_llvm_builtins, overflow_binops, sat_binops, unops, d_overflow_binops, d_sat_binops, d_unops.
  repeat apply Forall2_app. all: try apply llvm_rel. all: try apply bombs_rel. all: apply comps_rel.
Qed.

Lemma builtins_rel :
  Forall2 entry_rel (builtins fuel page_size symbols defs invoke debugloc)
    (d_builtins fuel page_size symbols defs debugloc th d_invoke).
Proof.
  unfold builtins, d_builtins.
  apply Forall2_app; [apply Forall2_app; [apply pthread_rel|apply bombs_rel]|].
  apply Forall2_app; [apply llvm_builtins_rel|].
  apply Forall2_app; [apply Forall2_app; [apply libc_rel|apply bombs_rel]|].
  apply Forall2_app; [apply Forall2_app; [apply apple_rel|apply bombs_rel]|].
  apply Forall2_app; [apply Forall2_app; [apply rust_rel|apply bombs_rel]|].
  apply Forall2_app; [apply unwind_rel|apply internal_rel].
Qed.

Lemma named_rel n l l' :
  Forall2 entry_rel l l' ->
  match named n l, named n l' with
  | Some c, Some d => call_rel known th consts c d
  | None, None => True
  | _, _ => False
  end.
Proof.
  induction 1 as [|[m c] [m' d] l l' [Hm Hcd] HF IH]; simpl in *; [done|]. subst m'. by destruct (String.eqb m n).
Qed.
End Rel.

Lemma natives_rel known th consts : natives_ok known th consts natives (natives_direct th).
Proof.
  intros n invoke d_invoke Hinvoke. unfold natives, natives_direct.
  pose proof (named_rel known th consts n _ _ (builtins_rel known th consts invoke d_invoke Hinvoke)) as H.
  destruct (named n _) as [c|], (named n _) as [d|]; [exact H|done..].
Qed.

(** C2: Every builtin does what its computation on values does: called with thunks
    whose values are [vs], in a task that runs alone, it ends with the value,
    the memory and the locks the computation ends with, and it panics where
    the computation panics, provided that calling back into the program does
    too. Nothing is said where the computation is stuck, waiting for another
    thread. *)
Theorem builtins_on_values known th consts : natives_ok known th consts natives (natives_direct th).
Proof. apply natives_rel. Qed.
End Natives.
