(* ===== verification/Programs.v ===== *)
(** * Programs: from the function a program starts to its effects

    [Interp] relates decoding a function to executing it directly on values, and
    [Schedule] relates the task of a thread in the process loop to its run in
    program order. Together: starting a thread at a function and running the
    loop of [main] has the effects of executing the function directly. *)

From S2P Require Import Prelude RangeMap MemOrdering Layout Bitvec Value Memory Symbols Mutex Classes Operation.
From S2P Require Import Data Local Pipeline Process Flow Sequential Native Expr FuncCompiler Interp Executor Schedule.
From S2P Require Import Pthread Builtins Natives.

(** ** The task of a thread, directly *)

Section Main.
Context {BV : Bitvec} {TV : TypeMapView} {X : Type}.
Context (thread_local : Z -> Z -> World X -> res (option (Z * World X))) (defs : Definitions Func).
Context (th : Z) (consts : Z -> option Value).
Context (native : String.string -> (FlowCtx -> Z -> list Value -> Async X (option Value)) ->
  FlowCtx -> list Z -> Async X (option Z)).
Context (native_direct : String.string -> (Backtrace -> Z -> list Value -> Direct X (option Value)) ->
  Backtrace -> list Value -> Direct X (option Value)).
Implicit Types (s : Seq X).

(** The function applied to the parameters, each of which is a thunk. *)
Definition direct_main (fuel : nat) (f : Func) (params : list Value) : Direct X Z :=
  run* vs := dmapM dconstant params in
  run* r := direct thread_local defs th consts native_direct fuel f bt_empty vs in
  run** v := unwrap r in
  dret (as_u64 v).

Lemma runs_control fuel f params s :
  natives_ok (only th) th consts native native_direct -> ready (only th) th consts s ->
  runs (only th) (control (call_imp thread_local defs native fuel) th f params) (direct_main fuel f params)
    (fun a b _ => a = b) s.
Proof.
  intros Hn Hr. unfold control, direct_main.
  eapply runs_bind; [by eapply runs_constants|]. intros ts vs s1 Hl1 HF.
  assert (ready (only th) th consts s1) as Hr1 by (by eapply ready_later).
  eapply runs_bind; [by eapply (runs_call_imp _ _ _ _ _ native native_direct)|].
  intros r r' s2 Hl2 Hv. assert (ready (only th) th consts s2) as Hr2 by (by eapply ready_later).
  destruct r as [t|], r' as [v|]; try done.
  change (runs (only th) (let* value := await t in Ret (as_u64 value)) (dret (as_u64 v)) (fun a b _ => a = b) s2).
  eapply runs_awaited; [exact Hv|]. by apply runs_ret; [apply Hr2|].
Qed.
End Main.

(** The thunks of a run are counted. *)
Lemma traced_seq {BV : Bitvec} {X A} th (c : Async X A) s l a s' :
  traced th c s l a s' -> df_seq (q_df s') = df_seq (q_df s) + zlen l.
Proof.
  induction 1 as [|b ad o deps comp k s i st1 l a s' _ _ _ _ _ _ _ IH|]; [unfold zlen; simpl; lia| |done].
  rewrite IH. unfold zlen. simpl. lia.
Qed.

(** ** The theorem *)

Section Claims.
Context {BV : Bitvec} {TV : TypeMapView} {X R : Type}.
Context (thread_local : Z -> Z -> World X -> res (option (Z * World X))).
Context (native : String.string -> (FlowCtx -> Z -> list Value -> Async X (option Value)) ->
  FlowCtx -> list Z -> Async X (option Z)).
Context (native_direct : String.string -> (Backtrace -> Z -> list Value -> Direct X (option Value)) ->
  Backtrace -> list Value -> Direct X (option Value)).
Implicit Types (s : Seq X) (p : Process X (Pool X) R Func).

(** No thread and no task yet; the heap holds the constants of the code. *)
Record loaded (th : Z) (consts : Z -> option Value) p : Prop := {
  lo_threads : threads (p_sched p) = [];
  lo_tasks : e_tasks (p_pool p) = ∅;
  lo_spawned : e_spawned (p_pool p) = [];
  lo_below : forall t, present (p_state p) t -> t < e_slot (p_pool p);
  lo_closed : closed (p_state p);
  lo_consts : forall t v, consts t = Some v -> exists i, heap (p_state p) !! t = Some i /\ t_value i = Ready v /\ t_thread i = th
}.

(** A thread that has just been started. *)
Definition start_seq (th : Z) p : Seq X := MkSeq (df_new th) (p_state p) (e_slot (p_pool p)).

Lemma loaded_fresh th consts p : loaded th consts p -> fresh th (start_seq th p).
Proof. intros [_ _ _ Hb Hc _]. constructor; [split_and!; [done|apply Z.eqb_refl|done]|done|done]. Qed.

Lemma loaded_ready th consts p : loaded th consts p -> ready (only th) th consts (start_seq th p).
Proof.
  intros Hl. constructor; [apply (fr_idle _ _ (loaded_fresh _ _ _ Hl))|done|].
  intros t v (i & Hi & Hv & Ht)%(lo_consts _ _ _ Hl). exists i. split_and!; [done|done|by apply Z.eqb_eq|].
  apply (lo_below _ _ _ Hl). by exists i.
Qed.

Lemma add_thread_spawned (call : Func -> FlowCtx -> list Z -> Async X (option Z)) fun_ f params p0 th consts p :
  loaded th consts p0 -> reverse_lookup_fun fun_ (p_defs p0) = Some f ->
  add_thread (spawn_control call) fun_ params p0 = Ok (th, p) ->
  spawned th (control call th f params) (start_seq th p0) p.
Proof.
  intros [Hth Htk Hsp _ _ _] Hf. unfold add_thread, thread_new. rewrite Hf.
  intros ([id s1] & Hid & ([t e] & [= <- <-] & (s2 & Hs & [= <- <-])%bind_Ok)%bind_Ok)%bind_Ok.
  unfold sched_add_thread in Hs. apply bind_Ok in Hs as (? & _ & [= <-]).
  assert (sched_threads s1 = []) as Hs1.
  { unfold new_threadid in Hid. apply bind_Ok in Hid as (n & _ & [= _ <-]). exact Hth. }
  constructor; cbn [p_sched p_state p_pool threads sched_threads e_tasks e_spawned e_slot spawn_control].
  - eexists. rewrite Hs1. cbn [bt_insert]. by split_and!.
  - done.
  - by rewrite Htk, insert_empty.
  - by rewrite Hsp.
  - done.
Qed.

Lemma program_runs_lemma (fuel : nat) (f : Func) fun_ params th consts p0 p a w n l run_until_stalled (choose : Z -> R -> Z * R) :
  let call := call_imp thread_local (p_defs p0) native fuel in
  let s := start_seq th p0 in
  loaded th consts p0 -> reverse_lookup_fun fun_ (p_defs p0) = Some f ->
  add_thread (spawn_control call) fun_ params p0 = Ok (th, p) ->
  natives_ok (only th) th consts native native_direct ->
  direct_main thread_local (p_defs p0) th consts native_direct fuel f params (world (p_state p0), 0) = Some (Ok (a, (w, n))) ->
  n <= PIPELINE_SIZE -> decoded th (control call th f params) s = Some l ->
  (forall s', exec (only th) (control call th f params) s = Some (Ok (a, s')) -> orderly (undone l s) l.*1 (q_state s')) ->
  local_pool run_until_stalled -> (forall n r, 0 < n -> 0 <= (choose n r).1 < n) ->
  let steps := S (Z.to_nat n) in
  exists p', run run_until_stalled choose steps steps p = Some (Ok p') /\
    threads (p_sched p') = [] /\ e_sent (p_pool p') !! th = Some a /\
    (forall b, byte_at (p_memory p') b = byte_at (w_memory w) b) /\
    w_rest (world (p_state p')) = w_rest w.
Proof.
  intros call s Hlo Hf Hadd Hn Hdir Hle Hdec Hord Hpool Hchoose steps.
  pose proof (loaded_fresh _ _ _ Hlo) as Hfr.
  pose proof (runs_control thread_local (p_defs p0) th consts native native_direct fuel f params s Hn (loaded_ready _ _ _ Hlo)) as Hr.
  unfold runs, dstate in Hr. change (world (q_state s)) with (world (p_state p0)) in Hr.
  change (df_seq (q_df s)) with 0 in Hr. rewrite Hdir in Hr. destruct Hr as (a' & s' & He & _ & [= Hw Hs] & ->).
  pose proof (exec_traced _ _ _ _ _ _ (fr_idle _ _ Hfr) He Hdec) as Htr.
  pose proof (traced_seq _ _ _ _ _ _ Htr) as Hseq.
  change (df_seq (q_df s') = zlen l) in Hseq.
  assert (n = zlen l) as Hnl by exact (eq_trans (eq_sym Hs) Hseq). rewrite Hnl in Hle.
  destruct (thread_runs_lemma th (control call th f params) s l a s' p run_until_stalled choose Htr Hle (Hord _ He) Hfr
    (add_thread_spawned call fun_ f params p0 th consts p Hlo Hf Hadd) Hpool Hchoose) as (p' & Hrun & Hth & Hsent & _ & Hm & Hrest).
  exists p'. subst steps. rewrite Hnl. unfold zlen at 1 2. rewrite !Nat2Z.id.
  split_and!; [exact Hrun|done|done| |by rewrite Hrest, Hw]. intros b. rewrite Hm. unfold q_memory. by rewrite Hw.
Qed.
End Claims.

(** ** The theorem *)

Section Main.
Context {BV : Bitvec} {TV : TypeMapView} {X R : Type} {HX : Host X}.
Context (thread_local : Z -> Z -> World X -> res (option (Z * World X))).
(** The fuel of [strlen], the page size of the host, where functions were defined. *)
Context (sfuel : nat) (page_size : Z) (debugloc : Func -> option (list Z * Z)).
Implicit Types (p : Process X (Pool X) R Func).

(** The builtins of a process, as tasks and on values. *)
Definition p_natives p := natives (X := X) sfuel page_size (p_symbols p) (p_defs p) debugloc.
Definition p_direct p (th : Z) := natives_direct (X := X) sfuel page_size (p_symbols p) (p_defs p) debugloc th.

(** C1: Running a program has the effects of executing it. Start a thread at a
    function in a process that has loaded its code, and run the loop of [main],
    polling in any order and choosing any offered operation. If calling the
    function on the parameters directly ([direct_main]: locals hold values, every
    instruction is performed at once, in order, builtins too) gives [a] after [n] operations,
    no more than fit in the pipeline, and the operations touch the same bytes or
    disjoint ones, then the loop ends after at most [n + 1] calls of
    [Process::step] without a panic; the thread is reaped after sending [a], and
    every byte of memory and the rest of the process are as direct execution
    leaves them. *)
Theorem program_runs (fuel : nat) (f : Func) fun_ params th consts p0 p a w n l run_until_stalled (choose : Z -> R -> Z * R) :
  let call := call_imp thread_local (p_defs p0) (p_natives p0) fuel in
  let s := start_seq th p0 in
  loaded th consts p0 -> reverse_lookup_fun fun_ (p_defs p0) = Some f ->
  add_thread (spawn_control call) fun_ params p0 = Ok (th, p) ->
  direct_main thread_local (p_defs p0) th consts (p_direct p0 th) fuel f params (world (p_state p0), 0) = Some (Ok (a, (w, n))) ->
  n <= PIPELINE_SIZE -> decoded th (control call th f params) s = Some l ->
  (forall s', exec (only th) (control call th f params) s = Some (Ok (a, s')) -> orderly (undone l s) l.*1 (q_state s')) ->
  local_pool run_until_stalled -> (forall n r, 0 < n -> 0 <= (choose n r).1 < n) ->
  let steps := S (Z.to_nat n) in
  exists p', run run_until_stalled choose steps steps p = Some (Ok p') /\
    threads (p_sched p') = [] /\ e_sent (p_pool p') !! th = Some a /\
    (forall b, byte_at (p_memory p') b = byte_at (w_memory w) b) /\
    w_rest (world (p_state p')) = w_rest w.
Proof.
  intros call s Hlo Hf Hadd Hdir Hle Hdec Hord Hpool Hchoose.
  apply (program_runs_lemma thread_local (p_natives p0) (p_direct p0 th) fuel f fun_ params th consts p0 p a w n l);
    try assumption.
  exact (natives_rel sfuel page_size (p_symbols p0) (p_defs p0) debugloc (only th) th consts).
Qed.
End Main.

(** ** A program *)

Definition flag_types : TypeMap :=
  fold_left (fun tm t => (get t tm).2) [IntegerType 1; PointerType (IntegerType 1)] (typemap_new 64).
#[local] Instance flag_view : TypeMapView := type_view 3 (fun _ => None) flag_types.

Definition flag_class : Class := match tv_get (IntegerType 1) with Ok c => c | Panic _ => 0 end.
Definition flag_ptr : Class := match tv_get (PointerType (IntegerType 1)) with Ok c => c | Panic _ => 0 end.

Definition at_line (i : CInstr) : CBlockInstr := MkBlockInstr i (MkFrame 0 "").
Definition flag_block (id : Z) (body : list CBlockInstr) (t : CTerm) : CBlock := MkBlock id [] body (MkBlockTerm t (MkFrame 0 "")).

(** The builtin [memset] writes a flag, which is loaded back by an atomic load
    and branched on. *)
Definition flag_func : CFunc :=
  MkCFunc 8 (MkFunction "flag" [] []) [0] [
    flag_block 0 [at_line (ICall None (OConstant 0 1) [OConstant flag_ptr 0; OLocal 0 0; OConstant 0 2; OConstant flag_class 3]);
                  at_line (ILoad 1 (OConstant flag_ptr 0) Relaxed)]
      (TCondBr (OLocal flag_class 1) 1 2);
    flag_block 1 [] (TRet (OLocal flag_class 1));
    flag_block 2 [] (TUnreachable)] [].

Definition flag_defs : Definitions Func :=
  MkDefs {[8 := FnCompiled flag_func; 16 := FnNative "llvm.memset.p0i8.i64"]} ∅.
(** The constants of the code: an address, the function, a length and [false]. *)
Definition flag_constants : list (Z * Value) :=
  [(0, addr_value 100); (1, addr_value 16); (2, addr_value 1); (3, MkValue [0] 1)].
Definition flag_p0 : Process unit (Pool unit) unit Func :=
  MkProcess (foldr (fun c st => thunk_constant c.1 c.2 st) (MkState ∅ (MkWorld mem_new tt) []) flag_constants)
    scheduler_new symbols_new flag_defs (MkPool ∅ [] 4 ∅) tt.
Definition flag_consts (t : Z) : option Value := (list_to_map flag_constants : gmap Z Value) !! t.

(** A process without mutexes, and of one thread. *)
#[local] Instance unit_host : Host unit := {|
  h_sync _ := sync_new; h_set_sync _ x := x; h_thread _ _ := true; h_join _ _ := JoinPending;
  h_add_thread _ _ _ := Panic Todo
|}.
#[local] Existing Instance bitvec_ref.
Definition no_debugloc (f : Func) : option (list Z * Z) := None.
Definition flag_call : Func -> FlowCtx -> list Z -> Async unit (option Z) :=
  call_imp no_thread_local flag_defs (p_natives (R := unit) 0 4096 no_debugloc flag_p0) 3.
Definition flag_params : list Value := [MkValue [1] 8].
Definition flag_task : Async unit Z := control flag_call 0 (FnCompiled flag_func) flag_params.

(** The thunks it decodes: the parameter, the two constants and the store of
    [memset], the unit it returns, the load. *)
Definition flag_thunk (seq : Z) (deps : list Z) (address : option (Z * Layout)) (o : Ordering) (b : Backtrace)
    (c : Compute unit) : Z * ThunkInner unit :=
  (seq + 4, MkThunk 0 seq deps address o b (Pending c) [] false).
Definition holds (v : Value) : Compute unit := fun _ _ w => Ok (v, w).
Definition flag_log : list (Z * ThunkInner unit) :=
  let bt := [MkFrame 0 ""] in [
  flag_thunk 0 [] None ONone [] (holds (MkValue [1] 8));
  flag_thunk 1 [] None ONone bt (holds (addr_value 100));
  flag_thunk 2 [] None ONone bt (holds (MkValue [1] 8));
  flag_thunk 3 [5; 6] (Some (5, MkLayout 8 8)) ONone bt (store_compute 0 ONone);
  flag_thunk 4 [] None ONone bt (holds (MkValue [] 0));
  flag_thunk 5 [0] (Some (0, MkLayout 1 8)) Relaxed bt (load_compute 0 (MkLayout 1 8) Relaxed)].
Definition flag_prog : list Z := [4; 5; 6; 7; 8; 9].
Definition flag_st0 : State unit := undone flag_log (start_seq 0 flag_p0).
Definition flag_stn : State unit := Pipeline.ended flag_prog flag_st0.

Lemma flag_decoded : decoded 0 flag_task (start_seq 0 flag_p0) = Some flag_log.
Proof. reflexivity. Qed.

Lemma flag_slots : flag_log.*1 = flag_prog.
Proof. vm_compute. reflexivity. Qed.

Lemma flag_len : zlen flag_log <= PIPELINE_SIZE.
Proof. unfold zlen. rewrite <- (length_fmap fst). change (fst <$> flag_log) with (flag_log.*1). rewrite flag_slots. done. Qed.

Lemma flag_program : program flag_st0 flag_prog flag_stn.
Proof.
  apply decoded_program; [vm_compute; reflexivity| |vm_compute; reflexivity|apply mem_new_ok|vm_compute; reflexivity..].
  assert (forall v th args, pure_run (holds v th args)) as Hp by (by intros v th args w v' w' [= <- <-]).
  intros t Ht. each_thunk Ht; eexists _, _; (split; [reflexivity|]); (split; [reflexivity|]).
  all: first [ by eapply kind_store | eapply kind_load; [done|done|simpl; lia] | apply kind_pure; [reflexivity|apply Hp] ].
Qed.

Lemma flag_access t :
  t ∈ flag_prog -> access flag_st0 flag_stn t ∈ [Some (100, 1); None].
Proof.
  intros Ht.
  assert (forall o, bool_decide (o ∈ [Some (100, 1); None]) = true -> o ∈ [Some (100, 1); None]) as Hdec
    by (by intros o ?%bool_decide_eq_true).
  each_thunk Ht; apply Hdec; vm_compute; reflexivity.
Qed.

Lemma flag_uniform : uniform flag_st0 flag_prog flag_stn.
Proof.
  intros t u b Ht%flag_access Hu%flag_access. unfold touches. revert Ht Hu.
  generalize (access flag_st0 flag_stn t) (access flag_st0 flag_stn u).
  intros x y Hx Hy. each_thunk Hx; each_thunk Hy; done.
Qed.

Lemma flag_ready : atomics_ready flag_st0 flag_prog.
Proof.
  assert (forallb (fun t => match heap flag_st0 !! t with
    | Some i => bool_decide (t_atomicity i = ONone) || forallb (fun d => bool_decide (is_Some (val flag_st0 d))) (t_deps i)
    | None => true end) flag_prog = true) as Hc by (vm_compute; reflexivity).
  rewrite forallb_forall in Hc. intros t i d Ht Hi Ha Hd. specialize (Hc t ltac:(by apply list_elem_of_In)).
  rewrite Hi, bool_decide_false in Hc by done. cbn [orb] in Hc. rewrite forallb_forall in Hc.
  specialize (Hc d ltac:(by apply list_elem_of_In)). apply bool_decide_eq_true in Hc. by apply computable_known.
Qed.

Lemma flag_untraced : untraced flag_st0 flag_prog.
Proof.
  intros t i Ht Hi. apply (f_equal (fmap t_tracing)) in Hi.
  each_thunk Ht; vm_compute in Hi; apply (inj Some) in Hi; exact (eq_sym Hi).
Qed.

Lemma flag_orderly : orderly flag_st0 flag_prog flag_stn.
Proof.
  destruct flag_program. constructor; [done| |done|done|apply flag_uniform|apply flag_ready|apply flag_untraced].
  intros t i a ly Hi Ht. by eapply prog_address.
Qed.

Lemma flag_lookup t i :
  heap (p_state flag_p0) !! t = Some i -> 0 <= t < 4 /\ t_deps i = [] /\ t_address i = None.
Proof.
  unfold flag_p0, thunk_constant. cbn [p_state heap foldr flag_constants].
  rewrite !lookup_insert_Some. intros H. repeat (destruct H as [[<- <-]|[_ H]]; [by split_and!|]).
  by rewrite lookup_empty in H.
Qed.

Lemma flag_constant t v :
  flag_consts t = Some v -> exists i, heap (p_state flag_p0) !! t = Some i /\ t_value i = Ready v /\ t_thread i = 0.
Proof.
  unfold flag_consts. intros Ht%elem_of_list_to_map_2. unfold flag_constants in Ht.
  repeat (apply elem_of_cons in Ht as [[= -> ->]|Ht]; [eexists; split; [reflexivity|done]|]).
  by apply elem_of_nil in Ht.
Qed.

Lemma flag_loaded : loaded 0 flag_consts flag_p0.
Proof.
  constructor; [done..| | |apply flag_constant].
  - intros t [i [Ht _]%flag_lookup]. simpl. lia.
  - intros t i (_ & Hd & Ha)%flag_lookup. rewrite Hd, Ha. split; [by intros d ?%elem_of_nil|done].
Qed.

(** The run in program order, as far as [orderly] asks for it. *)
Lemma flag_exec a s' :
  exec (only 0) flag_task (start_seq 0 flag_p0) = Some (Ok (a, s')) -> orderly flag_st0 flag_log.*1 (q_state s').
Proof.
  intros He. pose proof (loaded_fresh _ _ _ flag_loaded) as [Hi Hb Hc].
  pose proof (exec_traced 0 flag_task _ a s' flag_log Hi He flag_decoded) as Ht.
  assert (addresses_known flag_log) as Ha.
  { intros t i x ly Hin. apply (prog_address _ _ _ flag_program t i x ly).
    - rewrite <- flag_slots. apply list_elem_of_fmap. exists (t, i). split; [reflexivity|exact Hin].
    - exact (undone_lookup 0 _ _ _ _ _ t i Ht Hb Hin). }
  pose proof (traced_in_order _ _ _ _ _ _ Ht Hb Hc Ha) as Hr. rewrite flag_slots in *.
  assert (q_state s' = flag_stn) as -> by exact (Ok_inj _ _ (eq_trans (eq_sym Hr) (prog_run _ _ _ flag_program))).
  apply flag_orderly.
Qed.

Definition flag_started : res (Z * Process unit (Pool unit) unit Func) :=
  add_thread (spawn_control flag_call) 8 flag_params flag_p0.
Definition flag_p : Process unit (Pool unit) unit Func :=
  match flag_started with Ok (_, p) => p | Panic _ => flag_p0 end.

Definition flag_direct : Direct unit Z :=
  direct_main no_thread_local flag_defs 0 flag_consts (p_direct (R := unit) 0 4096 no_debugloc flag_p0 0) 3
    (FnCompiled flag_func) flag_params.

Lemma program_runs_witness :
  exists p', flag_started = Ok (0, flag_p) /\
    run lifo_pool pick_last 7 7 flag_p = Some (Ok p') /\
    threads (p_sched p') = [] /\ e_sent (p_pool p') !! 0 = Some 1.
Proof.
  assert (match flag_direct (world (p_state flag_p0), 0) with Some (Ok (a, (_, n))) => (a =? 1) && (n =? 6) | _ => false end = true)
    as Hc by (vm_compute; reflexivity).
  destruct (flag_direct (world (p_state flag_p0), 0)) as [[[a [w n]]|e]|] eqn:Hd; [|discriminate Hc..].
  apply andb_true_iff in Hc as [->%Z.eqb_eq ->%Z.eqb_eq].
  destruct (program_runs (R := unit) no_thread_local 0 4096 no_debugloc 3 (FnCompiled flag_func) 8 flag_params 0
    flag_consts flag_p0 flag_p 1 w 6 flag_log lifo_pool pick_last flag_loaded eq_refl eq_refl Hd)
    as (p' & Hrun & Hth & Hsent & _).
  - discriminate.
  - exact flag_decoded.
  - apply flag_exec.
  - apply lifo_pool_ok.
  - intros n r Hn. cbn. lia.
  - exists p'. split_and!; [reflexivity|exact Hrun|exact Hth|exact Hsent].
Defined.

(** The same run, from the task's. *)
Lemma thread_runs_to_end_witness :
  exists s' p', exec (only 0) flag_task (start_seq 0 flag_p0) = Some (Ok (1, s')) /\
    run lifo_pool pick_first 7 7 flag_p = Some (Ok p') /\
    threads (p_sched p') = [] /\ e_sent (p_pool p') !! 0 = Some 1 /\
    (forall b, byte_at (p_memory p') b = byte_at (q_memory s') b).
Proof.
  destruct (exec (only 0) flag_task (start_seq 0 flag_p0)) as [[[a s']|e]|] eqn:He;
    [|exfalso; vm_compute in He; discriminate He..].
  assert (match exec (only 0) flag_task (start_seq 0 flag_p0) with Some (Ok (a, _)) => a =? 1 | _ => false end = true) as Ha
    by (vm_compute; reflexivity).
  rewrite He in Ha. apply Z.eqb_eq in Ha as ->.
  destruct (thread_runs_to_end (R := unit) (F := Func) 0 flag_task (start_seq 0 flag_p0) flag_log 1 s' flag_p lifo_pool pick_first
    He flag_decoded) as (p' & Hrun & Hth & Hsent & _ & Hm & _).
  - exact flag_len.
  - exact (flag_exec 1 s' He).
  - exact (loaded_fresh _ _ _ flag_loaded).
  - exact (add_thread_spawned flag_call 8 (FnCompiled flag_func) flag_params flag_p0 0 flag_consts flag_p flag_loaded eq_refl eq_refl).
  - apply lifo_pool_ok.
  - intros n r Hn. cbn. lia.
  - exists s', p'. split_and!; [reflexivity|exact Hrun|exact Hth|exact Hsent|exact Hm].
Defined.
